(* ===== verification/_CoqProject ===== *)
-Q . S2P
Prelude.v
Text.v
Events.v
Schema.v
Storage.v
Ring.v
RingFacts.v
OutboxFacts.v
Requests.v
Store.v
Lifecycle.v
LifecycleFacts.v
Reach.v
Router.v
Concurrent.v
Contract.v
Permission.v
Quote.v
Plain.v
Marker.v
MarkerFacts.v
Generic.v
GenericFacts.v
Providers.v
BTree.v
F64.v
Json.v
JsonFacts.v
JsonRound.v
Http.v
HttpFacts.v
Config.v
Exec.v
Catalog.v
CatalogFacts.v
Server.v
ServerFacts.v
Machine.v
ServerSpec.v
InputSpec.v
Retry.v
ApprovalSpec.v
Refine.v
Replay.v
ReplyJson.v
EnvBlock.v
Win32.v
PtySpawn.v
PtySession.v
PlainSpawn.v
JobTree.v
Doctor.v
ConnectMain.v
E2e.v
UnitTests.v
