(* ===== verification/Prelude.v ===== *)
(** * Calcar agent: verification library

    The Rust agent of Calcar ([src/agent/crates/]) runs coding agents on a
    Windows computer and serves one phone.  This library translates its crates
    into executable Rocq definitions, file by file, and proves what the code
    promises.

    ** The program and how its parts meet

    - [calcar-events]: workflow states, event types and the event record.
    - [calcar-storage]: one SQLite file with workflows, a bounded event ring per
      workflow, an outbox of events to publish, session bindings and pending
      requests.
    - [calcar-workflow]: the manager (create, transition, disconnect, restart
      recovery) over the store, the binding of provider sessions, and the input
      router that drops repeated inputs through pending-request rows.
    - [calcar-adapters]: one adapter per provider over a plain child process,
      behind the trait [ProviderAdapter], and the permission manager that binds
      approvals to devices.
    - [calcar-pty]: a child in a pseudo console, or behind plain pipes, in a
      kill-on-close job.
    - [calcar-connect]: the HTTP server for the phone: bearer token, routes,
      JSON, catalogue of what the phone touched, one run per input.
    - [calcar-agent]: the preflight ([doctor]).

    The server calls the router, the manager and the store for every request,
    and the plain child for a command; the adapters call the plain child; the
    router and the permission manager see of the store only the interface
    [RequestStore] of [Requests.v], which [Storage] implements there.

    ** Files

    - [Prelude.v]: results, the state-and-error monad [ST] with its rules for
      [wp] (what holds of the result and the final state on every path), machine
      integers, sorting, histories ([runs]).
    - [Text.v]: Rust strings as UTF-8 bytes: validation, lossy decoding, lines,
      splitting, decimal integers.  [BTree.v]: [BTreeMap<String, _>].  [F64.v]:
      the decimal notation of binary64 numbers, over [SpecFloat].
    - [Events.v] ([calcar-events/src/lib.rs]).
    - [Schema.v] ([migrations/0001_init.sql]), [Storage.v], [Ring.v],
      [Requests.v] ([calcar-storage/src/lib.rs]); facts in [RingFacts.v],
      [OutboxFacts.v]; [Store.v] has the invariant of all tables.
    - [Lifecycle.v] ([lifecycle.rs], [session.rs]), [LifecycleFacts.v],
      [Router.v] ([router.rs]); [Reach.v] has whole histories of the store.
      [Concurrent.v] has the same methods as programs of single SQL statements,
      run by several threads at once.
    - [Contract.v] ([traitdef.rs]), [Permission.v] ([permission.rs]), [Marker.v]
      ([claude.rs], [codex.rs], [opencode.rs]), [Generic.v] ([generic.rs]),
      [Providers.v] ([registry.rs]); facts in [MarkerFacts.v],
      [GenericFacts.v].
    - [Quote.v], [EnvBlock.v] (command line and environment block), [Plain.v]
      (the capped sinks and the polls of a plain child), [Win32.v] (the calls to
      Windows and the ledger of what they hand out), [PtySpawn.v] and
      [PtySession.v] ([calcar-pty/src/lib.rs]), [PlainSpawn.v]
      ([calcar-pty/src/plain.rs]), [JobTree.v] (the processes around both and
      the end of a drop).
    - [Json.v] ([json.rs]) with [JsonFacts.v] and [JsonRound.v]; [Http.v]
      ([auth.rs] and the helpers of [server.rs]) with [HttpFacts.v]; [Config.v]
      ([config.rs]); [Exec.v] ([exec.rs]); [Catalog.v] ([catalog.rs]) with
      [CatalogFacts.v]; [Server.v] ([server.rs]) with [ServerFacts.v],
      [ServerSpec.v], [InputSpec.v], [ApprovalSpec.v] and [ReplyJson.v] (every
      answer is JSON); [ConnectMain.v]
      ([main.rs] and [ConnectServer::run]).
    - [Machine.v] is the abstract specification of the agent and the server: a
      machine of flows, logs, bindings, single-resolve requests, a publishing
      queue and started commands.  [Refine.v] proves that every history of the
      program is a run of it; [Retry.v] that retries come to an end; [Replay.v]
      has the consumers of the store beside it, a polling reader of a log and a
      publisher of the outbox.
    - [Doctor.v] ([calcar-agent/src/doctor.rs], [main.rs]); [E2e.v] runs the
      model through [calcar-agent/examples/e2e_exec.rs], [UnitTests.v] through
      the unit tests of [calcar-storage] and [calcar-events].

    ** How code becomes definitions

    A method that reads or writes the store, the server or the system is a
    function [S -> result A E * S]; [?] is the bind of that monad, an early
    return is its error.  SQL statements are functions on the tables, which are
    lists (where order and duplicates matter) and finite maps; a failed
    transaction restores the tables.  A sum type of Rust is an inductive type
    with the same constructors, a struct a record, an [i64], [u32] or [u64] a
    [Z] with the source's saturation, wrap-around or range check written out,
    a [String] or [Vec<u8>] a [string] of bytes.  Threads (the pumps of a
    child) are step relations or batches of events that may happen between any
    two calls.

    What the code does not decide is a parameter, as a class: [Env] (the clock,
    the failing SQLite calls and directory creations, their messages, and where
    the database file lies), [Host] (the failing file
    calls, what a torn write leaves, the course of each command), [Paths]
    ([std::path] on the host), [HeaderNames] (tiny_http's header names),
    [ProcessEnv] (the environment as Windows has it, and [to_uppercase]), [Win32] (which calls fail
    and which handles they return; its one law is that a handle of a successful
    call is neither null nor INVALID_HANDLE_VALUE), [Machine] (the registry, the
    data protection calls, the socket and what closing a handle does to the last
    error, of the preflight).  Theorems hold for
    every instance; witnesses and examples use concrete ones.

    ** What the theorems show

    - Store: an append is atomic with its outbox row and its trim, trimming is
      minimal and keeps both bounds, a reader that polls beside anything else gets
      every event once and in order and misses only trimmed ones, a publisher
      that crashes anywhere loses no event and repeats an entry only after a
      pass that was cut short, migration is all or
      nothing, and over any history of calls and faults the invariant of all
      tables holds and the database only evolves.
    - Workflows: a transition writes state then event; a disconnect never
      completes a workflow; recovery does exactly what the stored state says.
    - Inputs and approvals: over any history with faults and restarts an input
      is delivered at most once, a verdict applied at most once, and only by the
      device the request was bound to.
    - Concurrency: when the statements of deliveries and resolves on several
      connections interleave, one of them settles the request; racing deliveries
      of one input all answer and exactly one is told [Delivered].  Terminal
      states have no such guard ([Concurrent.terminal_state_raced]); the single
      writer keeps them final.
    - Refinement: whatever fails, a request or a call of the agent performs a
      prefix of its script of abstract steps, and all of it when it answers
      success; so a command starts only after its input was applied.
    - Liveness: when finitely many engine calls fail, one attempt more than that
      settles an input; the drops of children return as stated below.
    - Adapters: parsing by snapshots equals parsing at once; what each drain of a
      run reports is determined by what the child did: the events of its new
      bytes, and at the first drain that sees the exit one terminal event with
      the code the process ended with (output that arrives after the snapshot of
      that drain is lost or cut, as examples show); no adapter does what its
      capabilities deny.
    - Processes: the argument vector and the environment survive quoting, read
      back by readers that refuse a missing terminator; captured output is an
      exact capped prefix; console output is exact, and what the agent holds of
      it is bounded by the channel and one chunk more, which is over the
      configured buffer; whatever call fails, every handle is given back
      exactly once and no child stays; terminating the job ends the whole tree,
      unless a process was started before its root had joined the job; after
      that the drop of a plain child returns, and the drop of a session returns
      exactly when what was left unread fits the channel.
    - Server: nothing without the token; at most one run per input over any
      requests, restarts, faults and concurrent store activity; inputs,
      approvals and snapshots end to end; JSON, routes, registry round trips;
      the parser answers on every input; bodies, tails and configurations within
      their bounds; the binary serves only when everything is in order, and what
      its callers then see is a run of the abstract machine.
    - Preflight: exit 0 exactly when all five checks pass.

    ** Fuel

    [parse] runs with fuel [2 * length + 2]: each nesting consumes a byte, and
    [JsonFacts.parser_answers] proves that it never runs out; the string loop
    has one unit per byte and one more.  [recv_output] and [read_until] take the
    moves of the pump and the turns before the deadline as arguments, so
    quantifying over them covers every deadline.  Everything else is structural
    or recursive on a list.

    ** Assumptions

    Sequence numbers are unbounded where SQLite has 64 bits: an append would
    have to be the 2^63rd of its workflow to tell the difference.  In
    [JobTree.v] the system never hands out a handle value that is still held
    (one that was given back may come again), a terminated job has no live
    process left when the call returns, and no other spawn of the agent runs at
    the same time, whose child could inherit a pipe end.

    ** Not modelled

    SQLite, tiny_http, clap, Windows and the allocator are parameters or
    documented behaviour, never definitions.  The wall-clock duration of waits
    and sleeps is abstracted to which events happen before them.  The text that
    the end-to-end example prints is left out, and so are the unit tests of the
    console session, which need a real console, those of the preflight, and the
    one of SQLite's journal mode.  The Go relay ([src/backend]), the Dart app
    ([src/mobile]) and the protobuf files ([src/proto]) are other programs in
    other languages. *)

From stdpp Require Export base tactics numbers list gmap strings sorting.
From stdpp Require Export list_numbers.
From Stdlib Require Export ZArith Lia.

#[export] Set Default Proof Using "Type".
#[export] Set Warnings "-clear-no-such-hyp".

Declare Scope calcar_scope.
Delimit Scope calcar_scope with calcar.
Open Scope calcar_scope.

(** ** Results: Rust's [Result<T, E>] *)

Inductive result (A E : Type) : Type :=
| Ok (a : A)
| Err (e : E).
Arguments Ok {A E} _.
Arguments Err {A E} _.

#[export] Instance result_eq_dec `{EqDecision A, EqDecision E} :
  EqDecision (result A E).
Proof. solve_decision. Defined.

(** [Result::map_err] *)
Definition map_err {A E F} (f : E → F) (r : result A E) : result A F :=
  match r with Ok a => Ok a | Err e => Err (f e) end.

(** [Option::ok_or] *)
Definition ok_or {A E} (o : option A) (e : E) : result A E :=
  match o with Some a => Ok a | None => Err e end.

Definition is_ok {A E} (r : result A E) : bool :=
  match r with Ok _ => true | Err _ => false end.

(** [?] on a pure result *)
Definition result_bind {A B E} (r : result A E) (k : A → result B E) : result B E :=
  match r with Ok a => k a | Err e => Err e end.

Notation "'let?' x ':=' r 'in' k" := (result_bind r (λ x, k))
  (at level 10, x pattern, r at level 100, k at level 200,
   format "'[v' 'let?'  x  ':='  r  'in' '/' k ']'") : calcar_scope.

(** ** State and error: the body of a Rust method over shared state

    A method that reads and writes [S] and may fail with [E] is a function
    [S → result A E * S].  The state is returned on the error path too, so
    the effects performed before an early return are kept, as in Rust. *)

Definition ST (S E A : Type) : Type := S → result A E * S.

Definition st_ret {S E A} (a : A) : ST S E A := λ s, (Ok a, s).
Definition st_throw {S E A} (e : E) : ST S E A := λ s, (Err e, s).
Definition st_get {S E} : ST S E S := λ s, (Ok s, s).

(** [m?; k] *)
Definition st_bind {S E A B} (m : ST S E A) (k : A → ST S E B) : ST S E B :=
  λ s, match m s with
       | (Ok a, s') => k a s'
       | (Err e, s') => (Err e, s')
       end.

(** [match m { ... }]: run [m] and look at its result, errors included *)
Definition st_try {S E F A} (m : ST S E A) : ST S F (result A E) :=
  λ s, let '(r, s') := m s in (Ok r, s').

(** [m.map_err(f)], also the [From] conversion of [?] *)
Definition st_map_err {S E F A} (f : E → F) (m : ST S E A) : ST S F A :=
  λ s, let '(r, s') := m s in (map_err f r, s').

(** A pure result used as a step *)
Definition st_lift {S E A} (r : result A E) : ST S E A := λ s, (r, s).

Notation "'let*' x ':=' m 'in' k" := (st_bind m (λ x, k))
  (at level 10, x pattern, m at level 100, k at level 200,
   format "'[v' 'let*'  x  ':='  m  'in' '/' k ']'") : calcar_scope.

(** ** Weakest preconditions

    [wp m Q s]: running [m] from [s] ends with a result and a state that
    satisfy [Q].  Every method is total, so this is total correctness. *)

Definition wp {S E A} (m : ST S E A) (Q : result A E → S → Prop) (s : S) : Prop :=
  let '(r, s') := m s in Q r s'.

Section WpRules.
Context {S E : Type}.

Lemma wp_ret {A} (a : A) Q (s : S) : Q (Ok a) s → wp (E:=E) (st_ret a) Q s.
Proof. done. Qed.

Lemma wp_throw {A} (e : E) Q (s : S) : Q (Err e) s → wp (A:=A) (st_throw e) Q s.
Proof. done. Qed.

Lemma wp_get Q (s : S) : Q (Ok s) s → wp (E:=E) st_get Q s.
Proof. done. Qed.

Lemma wp_lift {A} (r : result A E) Q (s : S) : Q r s → wp (st_lift r) Q s.
Proof. done. Qed.

Lemma wp_bind {A B} (m : ST S E A) (k : A → ST S E B) Q s :
  wp m (λ r s', match r with Ok a => wp (k a) Q s' | Err e => Q (Err e) s' end) s →
  wp (st_bind m k) Q s.
Proof. unfold wp, st_bind. destruct (m s) as [[a|e] s']; done. Qed.

Lemma wp_try {F A} (m : ST S E A) Q s :
  wp m (λ r s', Q (Ok r) s') s → wp (E:=F) (st_try m) Q s.
Proof. unfold wp, st_try. by destruct (m s). Qed.

Lemma wp_map_err {F A} (f : E → F) (m : ST S E A) Q s :
  wp m (λ r s', Q (map_err f r) s') s → wp (st_map_err f m) Q s.
Proof. unfold wp, st_map_err. by destruct (m s). Qed.

Lemma wp_mono {A} (m : ST S E A) (P Q : result A E → S → Prop) s :
  wp m P s → (∀ r s', P r s' → Q r s') → wp m Q s.
Proof. unfold wp. destruct (m s). eauto. Qed.

Lemma wp_and {A} (m : ST S E A) (P Q : result A E → S → Prop) s :
  wp m P s → wp m Q s → wp m (λ r s', P r s' ∧ Q r s') s.
Proof. unfold wp. destruct (m s). eauto. Qed.

Lemma wp_run {A} (m : ST S E A) Q s :
  wp m Q s → Q (m s).1 (m s).2.
Proof. unfold wp. by destruct (m s). Qed.

Lemma wp_eq {A} (m : ST S E A) Q s r s' : m s = (r, s') → wp m Q s → Q r s'.
Proof. unfold wp. intros ->. done. Qed.

Lemma wp_of {A} (m : ST S E A) (Q : result A E → S → Prop) s :
  (∀ r s', m s = (r, s') → Q r s') → wp m Q s.
Proof. unfold wp. destruct (m s). eauto. Qed.
End WpRules.

Create HintDb calcar.
#[export] Hint Resolve wp_ret wp_throw wp_get wp_lift : calcar.

(** One symbolic step of a method under [wp]. *)
Ltac wp_step :=
  match goal with
  | |- wp (st_bind _ _) _ _ => apply wp_bind
  | |- wp (st_ret _) _ _ => apply wp_ret
  | |- wp (st_throw _) _ _ => apply wp_throw
  | |- wp st_get _ _ => apply wp_get
  | |- wp (st_lift _) _ _ => apply wp_lift
  | |- wp (st_try _) _ _ => apply wp_try
  | |- wp (st_map_err _ _) _ _ => apply wp_map_err
  | |- wp (if ?b then _ else _) _ _ => let E := fresh "E" in destruct b eqn:E
  | |- wp (match ?x with _ => _ end) _ _ => let E := fresh "E" in destruct x eqn:E
  end; cbn beta iota.

Ltac wp_steps := repeat wp_step.

(** Read a goal [let (r, s') := m s in ...] as a [wp] goal. *)
Ltac to_wp :=
  lazymatch goal with
  | |- (let (r, s) := ?m ?w in @?F r s) => change (wp m F w)
  end.

(** Take apart the variable a nested match looks at. *)
Ltac destruct_head x :=
  lazymatch x with match ?y with _ => _ end => destruct_head y | _ => destruct x end.

(** ** Machine integers *)

(** [as i64] of an arbitrary integer *)
Definition to_i64 (z : Z) : Z := ((z + 2^63) `mod` 2^64 - 2^63)%Z.
(** [as u64] *)
Definition to_u64 (z : Z) : Z := (z `mod` 2^64)%Z.
(** [as i32] *)
Definition to_i32 (z : Z) : Z := ((z + 2^31) `mod` 2^32 - 2^31)%Z.

Definition in_i64 (z : Z) : Prop := (- 2^63 ≤ z < 2^63)%Z.
Definition in_i64b (z : Z) : bool := bool_decide (- 2^63 ≤ z < 2^63)%Z.
Definition i64_max : Z := (2^63 - 1)%Z.
Definition i64_min : Z := (- 2^63)%Z.
Definition u32_max : Z := (2^32 - 1)%Z.
Definition u16_max : Z := (2^16 - 1)%Z.
Definition u64_max : Z := (2^64 - 1)%Z.

(** [i64::saturating_add] *)
Definition i64_saturating_add (a b : Z) : Z := Z.max i64_min (Z.min i64_max (a + b)%Z).

Lemma to_i64_id z : in_i64 z → to_i64 z = z.
Proof. unfold in_i64, to_i64. intros H. rewrite Z.mod_small; lia. Qed.

Lemma to_u64_id z : (0 ≤ z < 2^64)%Z → to_u64 z = z.
Proof. apply Z.mod_small. Qed.

Lemma i64_saturating_add_range a b : in_i64 (i64_saturating_add a b).
Proof. unfold in_i64, i64_saturating_add, i64_max, i64_min. lia. Qed.

#[export] Hint Resolve to_i64_id to_u64_id i64_saturating_add_range : calcar.

(** ** Lists *)

Definition sumZ (l : list Z) : Z := foldr Z.add 0%Z l.
Definition maxZ (l : list Z) : option Z :=
  match l with [] => None | x :: l' => Some (foldr Z.max x l') end.
Definition minZ (l : list Z) : option Z :=
  match l with [] => None | x :: l' => Some (foldr Z.min x l') end.

Lemma sumZ_app l1 l2 : sumZ (l1 ++ l2) = (sumZ l1 + sumZ l2)%Z.
Proof. unfold sumZ. induction l1 as [|x l1 IH]; simpl; lia. Qed.

Lemma sumZ_nonneg l : Forall (λ x, 0 ≤ x)%Z l → (0 ≤ sumZ l)%Z.
Proof. unfold sumZ. induction 1; simpl; lia. Qed.

Lemma foldr_max_spec x l :
  (x ≤ foldr Z.max x l)%Z ∧ Forall (λ y, y ≤ foldr Z.max x l)%Z l ∧
  foldr Z.max x l ∈ x :: l.
Proof.
  induction l as [|y l (Hx & Hl & Hin)]; simpl.
  { split_and!; [lia|constructor|]. by apply elem_of_cons; left. }
  split; [lia|]. split.
  - constructor; [lia|]. eapply Forall_impl; [exact Hl|]. simpl; lia.
  - rewrite elem_of_cons in Hin. rewrite !elem_of_cons.
    destruct (Z.max_spec y (foldr Z.max x l)) as [[_ ->]|[_ ->]]; tauto.
Qed.

Lemma maxZ_spec l m : maxZ l = Some m → m ∈ l ∧ Forall (λ y, y ≤ m)%Z l.
Proof.
  destruct l as [|x l]; simpl; [done|]. intros [= <-].
  destruct (foldr_max_spec x l) as (Hx & Hl & Hin). auto.
Qed.

Lemma maxZ_None l : maxZ l = None → l = [].
Proof. by destruct l. Qed.

Lemma maxZ_unique l m : m ∈ l → Forall (λ y, y ≤ m)%Z l → maxZ l = Some m.
Proof.
  intros Hin Hall. destruct (maxZ l) as [m'|] eqn:E.
  - apply maxZ_spec in E as [Hin' Hall'].
    rewrite Forall_forall in Hall, Hall'. f_equal.
    apply Z.le_antisymm; auto.
  - apply maxZ_None in E. subst. by apply elem_of_nil in Hin.
Qed.

Lemma elem_of_seqZ_iff m n k : k ∈ seqZ m n ↔ (m ≤ k < m + n)%Z.
Proof. rewrite elem_of_seqZ. lia. Qed.

Lemma maxZ_seqZ m (n : nat) : n ≠ 0 → maxZ (seqZ m (Z.of_nat n)) = Some (m + Z.of_nat n - 1)%Z.
Proof.
  intros Hn. apply maxZ_unique.
  - apply elem_of_seqZ_iff. lia.
  - apply Forall_forall. intros k ?%elem_of_seqZ_iff. lia.
Qed.

Lemma seqZ_drop m n (k : nat) :
  drop k (seqZ m n) = seqZ (m + Z.of_nat k)%Z (n - Z.of_nat k)%Z.
Proof.
  apply list_eq. intros i. rewrite lookup_drop.
  destruct (decide (Z.of_nat k + Z.of_nat i < n)%Z) as [Hlt|Hge].
  - rewrite !lookup_seqZ_lt by lia. f_equal; lia.
  - rewrite !lookup_seqZ_ge by lia. done.
Qed.

Lemma seqZ_take m n (k : nat) :
  (Z.of_nat k ≤ n)%Z → take k (seqZ m n) = seqZ m (Z.of_nat k).
Proof.
  intros Hk. apply list_eq. intros i. destruct (decide (i < k)).
  - rewrite lookup_take_lt by done. by rewrite !lookup_seqZ_lt by lia.
  - rewrite lookup_take_ge by lia. by rewrite lookup_seqZ_ge by lia.
Qed.

Lemma seqZ_snoc m (n : nat) : seqZ m (Z.of_nat n) ++ [(m + Z.of_nat n)%Z] = seqZ m (Z.of_nat n + 1)%Z.
Proof. replace (Z.of_nat n + 1)%Z with (Z.of_nat (S n)) by lia. by rewrite seqZ_S. Qed.

Lemma StronglySorted_weaken {A} (R R' : A → A → Prop) l :
  (∀ x y, R x y → R' x y) → StronglySorted R l → StronglySorted R' l.
Proof.
  intros HR. induction 1 as [|x l Hs IH Hf]; constructor; [done|].
  eapply Forall_impl; [exact Hf|]. auto.
Qed.

(** A list sorted by a strictly increasing key is its own sorting. *)
Section SortBy.
Context {A : Type} (key : A → Z).

Definition key_le (x y : A) : Prop := (key x ≤ key y)%Z.

#[export] Instance key_le_dec : RelDecision key_le.
Proof. intros x y. unfold key_le. apply _. Defined.
#[export] Instance key_le_trans : Transitive key_le.
Proof. intros x y z. unfold key_le. lia. Qed.
#[export] Instance key_le_total : Total key_le.
Proof. intros x y. unfold key_le. lia. Qed.

(** [ORDER BY key ASC] *)
Definition sort_by (l : list A) : list A := merge_sort key_le l.

Lemma sort_by_perm l : sort_by l ≡ₚ l.
Proof. apply merge_sort_Permutation. Qed.

Lemma sort_by_sorted l : StronglySorted key_le (sort_by l).
Proof. apply StronglySorted_merge_sort; apply _. Qed.

Lemma sort_by_id l :
  StronglySorted (λ x y, key x < key y)%Z l → sort_by l = l.
Proof.
  intros Hs. apply (StronglySorted_unique_strong key_le).
  - intros x y Hx Hy Hxy Hyx. rewrite sort_by_perm in Hx.
    assert (key x = key y) as Hk by (unfold key_le in *; lia). clear -Hs Hx Hy Hk.
    induction Hs as [|z l Hs IH Hf]; [by apply elem_of_nil in Hx|].
    rewrite Forall_forall in Hf.
    apply elem_of_cons in Hx as [->|Hx]; apply elem_of_cons in Hy as [->|Hy]; auto.
    + apply Hf in Hy. lia.
    + apply Hf in Hx. lia.
  - apply sort_by_sorted.
  - eapply StronglySorted_weaken; [|exact Hs]. unfold key_le. lia.
  - apply sort_by_perm.
Qed.
End SortBy.

Lemma seqZ_sorted m n : StronglySorted Z.lt (seqZ m n).
Proof.
  destruct (decide (0 ≤ n)%Z) as [Hn|Hn]; [|rewrite seqZ_nil by lia; constructor].
  revert m. pattern n. apply natlike_ind; [constructor| |done].
  intros k Hk IH m. rewrite seqZ_cons by lia. constructor.
  - replace (Z.pred (Z.succ k)) with k by lia. apply IH.
  - apply Forall_forall. intros j ?%elem_of_seqZ_iff. lia.
Qed.

Lemma sorted_of_keys {A} (key : A → Z) l :
  StronglySorted Z.lt (key <$> l) → StronglySorted (λ x y, key x < key y)%Z l.
Proof.
  induction l as [|x l IH]; simpl; [constructor|].
  intros Hs. apply StronglySorted_inv in Hs as [Hs Hf]. constructor; [auto|].
  by rewrite Forall_fmap in Hf.
Qed.

(** Strictly increasing lists of the same elements are the same. *)
Lemma increasing_NoDup {A} (key : A → Z) l : StronglySorted (λ x y, key x < key y)%Z l → NoDup l.
Proof.
  induction 1 as [|x l _ IH Hf]; constructor; [|done]. rewrite Forall_forall in Hf. intros Hx%Hf. lia.
Qed.
Lemma increasing_unique {A} (key : A → Z) l1 l2 :
  StronglySorted Z.lt (key <$> l1) → StronglySorted Z.lt (key <$> l2) →
  (∀ x, x ∈ l1 ↔ x ∈ l2) → l1 = l2.
Proof.
  intros H1%sorted_of_keys H2%sorted_of_keys Hin.
  apply (StronglySorted_unique_strong (λ x y, key x < key y)%Z); [lia|done|done|].
  apply NoDup_Permutation; [by eapply increasing_NoDup..|done].
Qed.

Lemma Forall_kept {A} (P Q : A → Prop) `{!∀ x, Decision (Q x)} l : Forall P l → Forall P (filter Q l).
Proof. intros HP. apply Forall_forall. intros x [_ Hin]%list_elem_of_filter. by apply (proj1 (Forall_forall P l) HP). Qed.

(** ** Sequences of operations

    [runs step ops s]: the state after performing [ops] in order. *)
Fixpoint runs {Op S} (step : Op → S → S) (ops : list Op) (s : S) : S :=
  match ops with
  | [] => s
  | op :: ops' => runs step ops' (step op s)
  end.

Lemma runs_app {Op S} (step : Op → S → S) ops1 ops2 s :
  runs step (ops1 ++ ops2) s = runs step ops2 (runs step ops1 s).
Proof. revert s. induction ops1; simpl; auto. Qed.

Lemma runs_inv {Op S} (step : Op → S → S) (I : S → Prop) :
  (∀ op s, I s → I (step op s)) → ∀ ops s, I s → I (runs step ops s).
Proof. intros Hstep ops. induction ops; simpl; auto. Qed.

(** [simpl] on a hypothesis equation between results *)
Ltac invert H := inversion H; clear H; simplify_eq.
