(* ===== verification/Text.v ===== *)
(** * Text: Rust strings as UTF-8 byte strings

    A Rust [&str]/[String] is its sequence of UTF-8 bytes, a [string] (of
    8-bit [ascii]s) for which [utf8_valid] holds; a [Vec<u8>]/[&[u8]] is any
    [string].  The byte order of [string] is Rust's [Ord] on [str], and
    [String.length] is [str::len].  This file has what the agent uses of the
    standard library on them: UTF-8 validation and lossy conversion, [chars],
    [trim], [lines], [split_once], [split], [strip_prefix], and the printing
    and parsing of decimal integers. *)

From S2P Require Import Prelude.
From Stdlib Require Import Ascii.

(** ** Bytes *)

Definition byte_val (b : ascii) : Z := Z.of_N (N_of_ascii b).
Definition byte_of (z : Z) : ascii := ascii_of_N (Z.to_N z).

Lemma byte_val_range b : (0 ≤ byte_val b < 256)%Z.
Proof.
  unfold byte_val. pose proof (N_ascii_bounded b). lia.
Qed.

Lemma byte_val_of z : (0 ≤ z < 256)%Z → byte_val (byte_of z) = z.
Proof.
  intros H. unfold byte_val, byte_of. rewrite N_ascii_embedding by lia. lia.
Qed.

Lemma byte_of_val b : byte_of (byte_val b) = b.
Proof. unfold byte_val, byte_of. by rewrite N2Z.id, ascii_N_embedding. Qed.

Lemma byte_val_inj b c : byte_val b = byte_val c → b = c.
Proof. intros H. by rewrite <-(byte_of_val b), H, byte_of_val. Qed.

Definition LF : ascii := "010"%char.
Definition CR : ascii := "013"%char.
Definition TAB : ascii := "009"%char.
Definition DQUOTE : ascii := "034"%char.
Definition BACKSLASH : ascii := "\"%char.

Definition bstr (b : ascii) : string := String b "".
Definition dquote : string := bstr DQUOTE.
Definition newline : string := bstr LF.

(** Evaluate the value of byte literals. *)
Ltac eval_bytes :=
  repeat match goal with
  | |- context [byte_val (Ascii ?a ?b ?c ?d ?e ?f ?g ?h)] =>
      let v := eval vm_compute in (byte_val (Ascii a b c d e f g h)) in
      change (byte_val (Ascii a b c d e f g h)) with v
  | H : context [byte_val (Ascii ?a ?b ?c ?d ?e ?f ?g ?h)] |- _ =>
      let v := eval vm_compute in (byte_val (Ascii a b c d e f g h)) in
      change (byte_val (Ascii a b c d e f g h)) with v in H
  end.

(** ** Append *)

Lemma sapp_cons b s t : String b s +:+ t = String b (s +:+ t).
Proof. done. Qed.
Lemma sapp_nil_l s : "" +:+ s = s.
Proof. done. Qed.
Lemma sapp_nil_r s : s +:+ "" = s.
Proof. induction s; [done|]. by rewrite sapp_cons, IHs. Qed.
Lemma sapp_assoc s t u : (s +:+ t) +:+ u = s +:+ (t +:+ u).
Proof. induction s; [done|]. by rewrite !sapp_cons, IHs. Qed.
Lemma sapp_length s t : String.length (s +:+ t) = String.length s + String.length t.
Proof. induction s; [done|]. rewrite sapp_cons. simpl. by rewrite IHs. Qed.
Lemma sapp_inj_l s t u : s +:+ t = s +:+ u → t = u.
Proof. apply (inj (String.app s)). Qed.
Lemma sapp_eq_nil s t : s +:+ t = "" → s = "" ∧ t = "".
Proof. by destruct s. Qed.


Create Rewrite HintDb text.
#[export] Hint Rewrite sapp_cons sapp_nil_l sapp_nil_r sapp_assoc : text.
Ltac text_simpl := autorewrite with text; cbn [String.length].

Definition sconcat (l : list string) : string := foldr String.append "" l.

Lemma sconcat_app l1 l2 : sconcat (l1 ++ l2) = sconcat l1 +:+ sconcat l2.
Proof. induction l1; simpl; [done|]. by rewrite IHl1, sapp_assoc. Qed.

(** [slice::join] / [Vec<String>::join] *)
Definition join (sep : string) (l : list string) : string :=
  match l with
  | [] => ""
  | x :: l' => x +:+ sconcat ((λ y, sep +:+ y) <$> l')
  end.

(** ** UTF-8

    The validation automaton of [core::str].  A state is what the decoder
    still expects; [U0] is a character boundary. *)
Inductive ustate := U0 | U1 | U2 | U3 | UE0 | UED | UF0 | UF4.

#[export] Instance ustate_eq_dec : EqDecision ustate.
Proof. solve_decision. Defined.

Definition in_range (lo hi z : Z) : bool := (lo <=? z)%Z && (z <=? hi)%Z.

Definition ustep (st : ustate) (b : ascii) : option ustate :=
  let v := byte_val b in
  match st with
  | U0 =>
      if in_range 0x00 0x7F v then Some U0
      else if in_range 0xC2 0xDF v then Some U1
      else if in_range 0xE0 0xE0 v then Some UE0
      else if in_range 0xED 0xED v then Some UED
      else if in_range 0xE1 0xEF v then Some U2
      else if in_range 0xF0 0xF0 v then Some UF0
      else if in_range 0xF1 0xF3 v then Some U3
      else if in_range 0xF4 0xF4 v then Some UF4
      else None
  | U1 => if in_range 0x80 0xBF v then Some U0 else None
  | U2 => if in_range 0x80 0xBF v then Some U1 else None
  | U3 => if in_range 0x80 0xBF v then Some U2 else None
  | UE0 => if in_range 0xA0 0xBF v then Some U1 else None
  | UED => if in_range 0x80 0x9F v then Some U1 else None
  | UF0 => if in_range 0x90 0xBF v then Some U2 else None
  | UF4 => if in_range 0x80 0x8F v then Some U2 else None
  end.

#[global] Arguments ustep : simpl never.

Fixpoint urun (st : ustate) (s : string) : option ustate :=
  match s with
  | "" => Some st
  | String b s' => match ustep st b with Some st' => urun st' s' | None => None end
  end.

(** [std::str::from_utf8(s).is_ok()] *)
Definition utf8_valid (s : string) : bool := bool_decide (urun U0 s = Some U0).

Lemma urun_app st s t :
  urun st (s +:+ t) = match urun st s with Some st' => urun st' t | None => None end.
Proof.
  revert st. induction s as [|b s IH]; intros st; [done|].
  rewrite sapp_cons. simpl. destruct (ustep st b); auto.
Qed.

Lemma utf8_valid_iff s : utf8_valid s = true ↔ urun U0 s = Some U0.
Proof. unfold utf8_valid. by rewrite bool_decide_eq_true. Qed.

Lemma utf8_valid_app s t :
  utf8_valid s = true → utf8_valid t = true → utf8_valid (s +:+ t) = true.
Proof. rewrite !utf8_valid_iff, urun_app. by intros -> ->. Qed.

Lemma utf8_valid_app_inv s t :
  utf8_valid s = true → utf8_valid (s +:+ t) = true → utf8_valid t = true.
Proof. rewrite !utf8_valid_iff, urun_app. by intros ->. Qed.

#[export] Hint Resolve utf8_valid_app : calcar.

(** [str::chars]: the characters of a valid string, each as its own bytes. *)
Fixpoint chars_go (st : ustate) (pend : string) (s : string) : list string :=
  match s with
  | "" => []
  | String b s' =>
      match ustep st b with
      | Some U0 => (pend +:+ bstr b) :: chars_go U0 "" s'
      | Some st' => chars_go st' (pend +:+ bstr b) s'
      | None => []
      end
  end.
Definition chars (s : string) : list string := chars_go U0 "" s.

(** One character and the rest: [text.chars().next()] with [len_utf8]. *)
Fixpoint take_char_go (st : ustate) (pend : string) (s : string) : option (string * string) :=
  match s with
  | "" => None
  | String b s' =>
      match ustep st b with
      | Some U0 => Some (pend +:+ bstr b, s')
      | Some st' => take_char_go st' (pend +:+ bstr b) s'
      | None => None
      end
  end.
Definition take_char (s : string) : option (string * string) := take_char_go U0 "" s.

(** A single character: a nonempty string whose only boundary is its end. *)
Definition is_char (c : string) : bool :=
  match take_char c with Some (c', "") => String.eqb c c' | _ => false end.

Section Utf8Facts.
Lemma urun_cons_inv st b s st' :
  urun st (String b s) = Some st' → ∃ st1, ustep st b = Some st1 ∧ urun st1 s = Some st'.
Proof. simpl. destruct (ustep st b); [eauto|done]. Qed.

Lemma chars_go_concat st pend s :
  urun st s = Some U0 → (st = U0 → pend = "") →
  sconcat (chars_go st pend s) = pend +:+ s.
Proof.
  revert st pend. induction s as [|b s IH]; intros st pend Hrun Hp; simpl.
  - simpl in Hrun. simplify_eq. by rewrite Hp.
  - apply urun_cons_inv in Hrun as (st1 & Hst & Hrun). rewrite Hst.
    destruct st1; simpl; rewrite IH by done; by text_simpl.
Qed.

Lemma take_char_go_chars st pend s :
  take_char_go st pend s =
  match chars_go st pend s with
  | [] => None
  | c :: _ => option_map (λ s', (c, s')) (option_map snd (take_char_go st pend s))
  end.
Proof.
  revert st pend. induction s as [|b s IH]; intros st pend; simpl; [done|].
  destruct (ustep st b) as [[]|]; simpl; auto.
Qed.

Lemma take_char_go_spec st pend s :
  (st ≠ U0 ∨ s ≠ "") → urun st s = Some U0 →
  ∃ c s', take_char_go st pend s = Some (pend +:+ c, s') ∧ s = c +:+ s' ∧
          urun st c = Some U0 ∧ urun U0 s' = Some U0 ∧ c ≠ "" ∧
          chars_go st pend s = (pend +:+ c) :: chars_go U0 "" s'.
Proof.
  revert st pend. induction s as [|b s IH]; intros st pend Hne Hrun.
  { simpl in Hrun. destruct Hne; congruence. }
  apply urun_cons_inv in Hrun as (st1 & Hst & Hrun). simpl. rewrite Hst.
  destruct (decide (st1 = U0)) as [->|Hn].
  { exists (bstr b), s. unfold bstr. text_simpl. simpl. rewrite Hst. done. }
  destruct (IH st1 (pend +:+ bstr b)) as (c & s' & Ht & -> & Hc & Hs' & Hcn & Hch); auto.
  exists (String b c), s'. rewrite Ht, Hch. simpl. rewrite Hst, sapp_assoc.
  destruct st1; done.
Qed.

Lemma take_char_go_app st pend c s :
  urun st c = Some U0 → ∀ p q, take_char_go st pend c = Some (p, q) →
  take_char_go st pend (c +:+ s) = Some (p, q +:+ s).
Proof.
  revert st pend. induction c as [|b c IH]; intros st pend Hc p q; [done|].
  apply urun_cons_inv in Hc as (st1 & Hst & Hrun). rewrite sapp_cons. simpl. rewrite Hst.
  destruct st1; [by intros [= <- <-]|apply IH; done..].
Qed.
End Utf8Facts.

Lemma chars_concat s : utf8_valid s = true → sconcat (chars s) = s.
Proof. rewrite utf8_valid_iff. intros H. unfold chars. by rewrite chars_go_concat. Qed.

Lemma take_char_nonempty s :
  utf8_valid s = true → s ≠ "" →
  ∃ c s', take_char s = Some (c, s') ∧ s = c +:+ s' ∧ c ≠ "" ∧
          utf8_valid c = true ∧ utf8_valid s' = true ∧ chars s = c :: chars s'.
Proof.
  rewrite utf8_valid_iff. intros Hv Hn.
  destruct (take_char_go_spec U0 "" s) as (c & s' & Ht & Hs & Hc & Hs' & Hcn & Hch); auto.
  exists c, s'. rewrite !utf8_valid_iff. rewrite sapp_nil_l in Ht, Hch. done.
Qed.

Lemma chars_nil s : utf8_valid s = true → chars s = [] → s = "".
Proof.
  intros Hv Hc. destruct (decide (s = "")) as [|Hn]; [done|].
  destruct (take_char_nonempty s) as (c & s' & _ & _ & _ & _ & _ & H); auto. congruence.
Qed.

Lemma is_char_spec c :
  is_char c = true ↔ utf8_valid c = true ∧ c ≠ "" ∧ take_char c = Some (c, "").
Proof.
  unfold is_char. split.
  - destruct (take_char c) as [[c' [|??]]|] eqn:E; try done.
    intros ->%String.eqb_eq. split_and!; [|by intros ->|done].
    apply utf8_valid_iff. revert E. unfold take_char.
    cut (∀ st pend s p, take_char_go st pend s = Some (p, "") → urun st s = Some U0); [eauto|].
    clear. intros st pend s. revert st pend.
    induction s as [|b s IH]; intros st pend p; simpl; [done|].
    destruct (ustep st b) as [[]|]; try done; [by intros [= _ ->]|eauto..].
  - intros (_ & _ & ->). by rewrite String.eqb_refl.
Qed.

Lemma take_char_app c s :
  is_char c = true → take_char (c +:+ s) = Some (c, s).
Proof.
  intros (Hv & Hn & Ht)%is_char_spec. unfold take_char in *.
  erewrite take_char_go_app; [|by apply utf8_valid_iff|exact Ht]. done.
Qed.

Lemma take_char_is_char s c s' :
  utf8_valid s = true → take_char s = Some (c, s') → is_char c = true.
Proof.
  intros Hv Ht. assert (s ≠ "") as Hn by (intros ->; done).
  destruct (take_char_nonempty s Hv Hn) as (c1 & s1 & Ht1 & Hs & Hcn & Hc & Hs1 & _).
  rewrite Ht in Ht1. simplify_eq. apply is_char_spec. split_and!; auto.
  destruct (take_char_nonempty c1 Hc Hcn) as (c2 & s2 & Ht2 & Hs2 & Hc2n & Hc2 & Hv2 & _).
  unfold take_char in *.
  pose proof (take_char_go_app U0 "" c1 s1 (proj1 (utf8_valid_iff _) Hc) _ _ Ht2) as H.
  rewrite H in Ht. injection Ht as -> Hlen.
  assert (s2 = "") as ->; [|done].
  apply (f_equal String.length) in Hlen. rewrite sapp_length in Hlen.
  destruct s2; simpl in *; [done|lia].
Qed.

(** Induction over the characters of a valid string. *)
Lemma utf8_ind (P : string → Prop) :
  P "" →
  (∀ c s, is_char c = true → utf8_valid s = true → P s → P (c +:+ s)) →
  ∀ s, utf8_valid s = true → P s.
Proof.
  intros Hnil Hcons s. remember (String.length s) as n eqn:En.
  revert s En. induction (lt_wf n) as [n _ IH]. intros s -> Hv.
  destruct (decide (s = "")) as [->|Hn]; [done|].
  destruct (take_char_nonempty s Hv Hn) as (c & s' & Ht & Hs & Hcn & Hc & Hs' & _).
  rewrite Hs. apply Hcons; [exact (take_char_is_char _ _ _ Hv Ht)|done|].
  eapply IH; [|done|done]. rewrite Hs, sapp_length. destruct c; simpl; [done|lia].
Qed.

Lemma chars_app c s :
  is_char c = true → utf8_valid s = true → chars (c +:+ s) = c :: chars s.
Proof.
  intros Hc Hv. pose proof (proj1 (is_char_spec c) Hc) as (Hcv & Hcn & _).
  destruct (take_char_nonempty (c +:+ s)) as (c' & s' & Ht & _ & _ & _ & _ & Hch).
  - by apply utf8_valid_app.
  - by destruct c.
  - rewrite take_char_app in Ht by done. by simplify_eq.
Qed.

(** An ASCII byte is a character of its own. *)
Lemma ustep_ascii b : (byte_val b < 128)%Z → ustep U0 b = Some U0.
Proof.
  intros H. pose proof (byte_val_range b). unfold ustep, in_range.
  by rewrite (proj2 (Z.leb_le 0 _)), (proj2 (Z.leb_le _ 0x7F)) by lia.
Qed.

Lemma is_char_ascii b : (byte_val b < 128)%Z → is_char (bstr b) = true.
Proof.
  intros H. unfold is_char, take_char, bstr. cbn [take_char_go].
  rewrite (ustep_ascii b H). apply String.eqb_refl.
Qed.

Lemma utf8_valid_ascii b s :
  (byte_val b < 128)%Z → utf8_valid (String b s) = utf8_valid s.
Proof. intros H. unfold utf8_valid. cbn [urun]. by rewrite (ustep_ascii b H). Qed.

(** ** [String::from_utf8_lossy]

    Each maximal invalid prefix becomes one U+FFFD.  [pend] holds the bytes of
    the unfinished character; when the next byte cannot continue it, the
    pending bytes are replaced and the byte is looked at again. *)
Definition REPLACEMENT : string :=
  String (byte_of 0xEF) (String (byte_of 0xBF) (bstr (byte_of 0xBD))).

Fixpoint lossy_go (st : ustate) (pend : string) (s : string) : string :=
  match s with
  | "" => if decide (st = U0) then "" else REPLACEMENT
  | String b s' =>
      match ustep st b with
      | Some U0 => pend +:+ String b (lossy_go U0 "" s')
      | Some st' => lossy_go st' (pend +:+ bstr b) s'
      | None =>
          if decide (st = U0) then REPLACEMENT +:+ lossy_go U0 "" s'
          else
            REPLACEMENT +:+
            match ustep U0 b with
            | Some U0 => String b (lossy_go U0 "" s')
            | Some st' => lossy_go st' (bstr b) s'
            | None => REPLACEMENT +:+ lossy_go U0 "" s'
            end
      end
  end.
Definition from_utf8_lossy (s : string) : string := lossy_go U0 "" s.

Lemma lossy_go_valid st pend s :
  urun st s = Some U0 → (st = U0 → pend = "") → lossy_go st pend s = pend +:+ s.
Proof.
  revert st pend. induction s as [|b s IH]; intros st pend Hrun Hp; simpl.
  - simpl in Hrun. simplify_eq. by rewrite Hp.
  - apply urun_cons_inv in Hrun as (st1 & Hst & Hrun). rewrite Hst.
    destruct st1; rewrite IH by done; by text_simpl.
Qed.

Lemma from_utf8_lossy_id s : utf8_valid s = true → from_utf8_lossy s = s.
Proof. intros H%utf8_valid_iff. unfold from_utf8_lossy. by rewrite lossy_go_valid. Qed.

Lemma urun_REPLACEMENT s : urun U0 (REPLACEMENT +:+ s) = urun U0 s.
Proof. rewrite urun_app. reflexivity. Qed.

Lemma urun_step_app st pend b st' s :
  urun U0 pend = Some st → ustep st b = Some st' →
  urun U0 ((pend +:+ bstr b) +:+ s) = urun st' s.
Proof. intros Hp Hb. unfold bstr. rewrite sapp_assoc, urun_app, Hp, sapp_cons. simpl. by rewrite Hb. Qed.

Lemma lossy_go_utf8 st pend s :
  urun U0 pend = Some st → urun U0 (lossy_go st pend s) = Some U0.
Proof.
  revert st pend. induction s as [|b s IH]; intros st pend Hp; simpl.
  { case_decide; done. }
  destruct (ustep st b) as [st1|] eqn:Hst.
  - assert (urun U0 (pend +:+ bstr b) = Some st1) as Hpb.
    { rewrite <-(sapp_nil_r (pend +:+ bstr b)). by erewrite urun_step_app. }
    destruct st1; try by apply IH.
    rewrite urun_app, Hp. simpl. rewrite Hst. by apply IH.
  - case_decide; rewrite urun_REPLACEMENT; [by apply IH|].
    destruct (ustep U0 b) as [st1|] eqn:Hst1; [|rewrite urun_REPLACEMENT; by apply IH].
    destruct st1; simpl; rewrite ?Hst1; apply IH; simpl; by rewrite ?Hst1.
Qed.

Lemma from_utf8_lossy_valid s : utf8_valid (from_utf8_lossy s) = true.
Proof. apply utf8_valid_iff. by apply lossy_go_utf8. Qed.

Lemma lossy_go_nonempty st pend s : s ≠ "" ∨ st ≠ U0 → lossy_go st pend s ≠ "".
Proof.
  revert st pend. induction s as [|b s IH]; intros st pend H; cbn [lossy_go].
  { destruct H; [done|]. by rewrite decide_False. }
  destruct (ustep st b) as [st1|].
  - destruct st1; try (by apply IH; right). intros [_ ?]%sapp_eq_nil. done.
  - case_decide; by intros [? _]%sapp_eq_nil.
Qed.

Lemma lossy_empty s : from_utf8_lossy s = "" ↔ s = "".
Proof.
  split; [|by intros ->]. intros H. destruct s as [|b s]; [done|].
  exfalso. revert H. apply lossy_go_nonempty. by left.
Qed.

#[export] Hint Resolve from_utf8_lossy_valid : calcar.

(** ** Searching and splitting *)

(** [str::starts_with] and [str::strip_prefix] *)
Fixpoint strip_prefix (p s : string) : option string :=
  match p, s with
  | "", _ => Some s
  | String a p', String b s' => if Ascii.eqb a b then strip_prefix p' s' else None
  | String _ _, "" => None
  end.
Definition starts_with (p s : string) : bool :=
  match strip_prefix p s with Some _ => true | None => false end.

Lemma strip_prefix_app p s : strip_prefix p (p +:+ s) = Some s.
Proof. induction p; [done|]. rewrite sapp_cons. simpl. by rewrite Ascii.eqb_refl. Qed.

Lemma strip_prefix_Some p s t : strip_prefix p s = Some t → s = p +:+ t.
Proof.
  revert s. induction p as [|a p IH]; intros s; simpl; [by intros [= ->]|].
  destruct s as [|b s]; [done|]. destruct (Ascii.eqb_spec a b) as [->|]; [|done].
  intros ->%IH. done.
Qed.

(** [str::find(b)] for an ASCII byte, as the text before and after it:
    [split_once]. *)
Fixpoint split_once (sep : ascii) (s : string) : option (string * string) :=
  match s with
  | "" => None
  | String b s' =>
      if Ascii.eqb b sep then Some ("", s')
      else match split_once sep s' with
           | Some (l, r) => Some (String b l, r)
           | None => None
           end
  end.

(** [str::split(b)] for an ASCII byte: always at least one piece. *)
Fixpoint split (sep : ascii) (s : string) : list string :=
  match s with
  | "" => [""]
  | String b s' =>
      if Ascii.eqb b sep then "" :: split sep s'
      else match split sep s' with
           | [] => [bstr b]
           | p :: ps => String b p :: ps
           end
  end.

(** [str::contains] for an ASCII byte *)
Fixpoint contains_byte (c : ascii) (s : string) : bool :=
  match s with
  | "" => false
  | String b s' => Ascii.eqb b c || contains_byte c s'
  end.

Lemma contains_byte_app c s t :
  contains_byte c (s +:+ t) = contains_byte c s || contains_byte c t.
Proof.
  induction s as [|b s IH]; [done|]. rewrite sapp_cons. simpl. by rewrite IH, orb_assoc.
Qed.

Lemma split_once_Some sep s l r :
  split_once sep s = Some (l, r) → s = l +:+ String sep r ∧ contains_byte sep l = false.
Proof.
  revert l r. induction s as [|b s IH]; intros l r; simpl; [done|].
  destruct (Ascii.eqb_spec b sep) as [->|Hne]; [by intros [= <- <-]|].
  destruct (split_once sep s) as [[l' r']|]; [|done]. intros [= <- <-].
  destruct (IH l' r') as [-> Hc]; [done|]. split; [done|]. simpl.
  destruct (Ascii.eqb_spec b sep); done.
Qed.

Lemma split_once_app sep l r :
  contains_byte sep l = false → split_once sep (l +:+ String sep r) = Some (l, r).
Proof.
  induction l as [|b l IH]; simpl.
  - intros _. cbn. by rewrite Ascii.eqb_refl.
  - intros [Hb Hl]%orb_false_iff. rewrite ?sapp_cons. cbn [split_once]. by rewrite Hb, IH.
Qed.

Lemma split_once_None sep s : split_once sep s = None ↔ contains_byte sep s = false.
Proof.
  induction s as [|b s IH]; simpl; [done|].
  destruct (Ascii.eqb b sep); simpl; [done|]. rewrite <-IH.
  destruct (split_once sep s) as [[]|]; done.
Qed.

(** [str::lines]: cut at ["\n"], drop one ["\r"] before it; a last line without
    its newline keeps its ["\r"], and the empty string has no lines. *)
Fixpoint strip_cr (s : string) : string :=
  match s with
  | "" => ""
  | String b "" => if Ascii.eqb b CR then "" else s
  | String b s' => String b (strip_cr s')
  end.

Fixpoint lines_go (cur : string) (s : string) : list string :=
  match s with
  | "" => if String.eqb cur "" then [] else [cur]
  | String b s' =>
      if Ascii.eqb b LF then strip_cr cur :: lines_go "" s'
      else lines_go (cur +:+ bstr b) s'
  end.
Definition lines (s : string) : list string := lines_go "" s.

(** [str::trim_end_matches('\r')] *)
Fixpoint trim_end_cr (s : string) : string :=
  match s with
  | "" => ""
  | String b s' =>
      match trim_end_cr s' with
      | "" => if Ascii.eqb b CR then "" else bstr b
      | t => String b t
      end
  end.

(** [str::ends_with('\n')] *)
Fixpoint ends_with_lf (s : string) : bool :=
  match s with
  | "" => false
  | String b "" => Ascii.eqb b LF
  | String _ s' => ends_with_lf s'
  end.

(** ** Trimming

    [char::is_whitespace] is the Unicode White_Space property. *)
Definition utf8_char (bytes : list Z) : string := foldr (λ z, String (byte_of z)) "" bytes.

Definition wide_whitespace : list string :=
  utf8_char <$>
    [[0xC2; 0x85]; [0xC2; 0xA0]; [0xE1; 0x9A; 0x80];
     [0xE2; 0x80; 0x80]; [0xE2; 0x80; 0x81]; [0xE2; 0x80; 0x82]; [0xE2; 0x80; 0x83];
     [0xE2; 0x80; 0x84]; [0xE2; 0x80; 0x85]; [0xE2; 0x80; 0x86]; [0xE2; 0x80; 0x87];
     [0xE2; 0x80; 0x88]; [0xE2; 0x80; 0x89]; [0xE2; 0x80; 0x8A]; [0xE2; 0x80; 0xA8];
     [0xE2; 0x80; 0xA9]; [0xE2; 0x80; 0xAF]; [0xE2; 0x81; 0x9F]; [0xE3; 0x80; 0x80]]%Z.

Definition is_whitespace (c : string) : bool :=
  match c with
  | String b "" => in_range 0x09 0x0D (byte_val b) || (byte_val b =? 0x20)%Z
  | _ => bool_decide (c ∈ wide_whitespace)
  end.

Fixpoint drop_while (f : string → bool) (l : list string) : list string :=
  match l with
  | [] => []
  | x :: l' => if f x then drop_while f l' else l
  end.

Definition trim_start (s : string) : string := sconcat (drop_while is_whitespace (chars s)).
Definition trim_end (s : string) : string :=
  sconcat (reverse (drop_while is_whitespace (reverse (chars s)))).
(** [str::trim] *)
Definition trim (s : string) : string := trim_end (trim_start s).

(** [str::split_whitespace().next()] *)
Fixpoint take_while_not (f : string → bool) (l : list string) : list string :=
  match l with
  | [] => []
  | x :: l' => if f x then [] else x :: take_while_not f l'
  end.
Definition first_word (s : string) : option string :=
  match take_while_not is_whitespace (drop_while is_whitespace (chars s)) with
  | [] => None
  | cs => Some (sconcat cs)
  end.

(** [u8::is_ascii_whitespace]: space, tab, line feed, form feed, carriage return *)
Definition is_ascii_whitespace (b : ascii) : bool :=
  let v := byte_val b in
  (v =? 0x20)%Z || (v =? 0x09)%Z || (v =? 0x0A)%Z || (v =? 0x0C)%Z || (v =? 0x0D)%Z.

(** ** Decimal and hexadecimal numbers *)

Definition is_digit (b : ascii) : bool := in_range 0x30 0x39 (byte_val b).
Definition digit_char (d : Z) : ascii := byte_of (0x30 + d).

(** [char::to_digit(radix)] for the radices 10 and 16 *)
Definition to_digit (radix : Z) (b : ascii) : option Z :=
  let v := byte_val b in
  let d := if in_range 0x30 0x39 v then Some (v - 0x30)%Z
           else if in_range 0x61 0x7A v then Some (v - 0x61 + 10)%Z
           else if in_range 0x41 0x5A v then Some (v - 0x41 + 10)%Z
           else None in
  match d with Some n => if (n <? radix)%Z then Some n else None | None => None end.

Fixpoint parse_digits (radix acc : Z) (s : string) : option Z :=
  match s with
  | "" => Some acc
  | String b s' =>
      match to_digit radix b with
      | Some d => parse_digits radix (acc * radix + d)%Z s'
      | None => None
      end
  end.

(** [from_str_radix] / [str::parse] of an integer type with range [lo..hi]:
    an optional ["+"] (and ["-"] for a signed type), at least one digit, and
    no overflow. *)
Definition from_str_radix (signed : bool) (lo hi radix : Z) (s : string) : option Z :=
  let in_bounds z := if (lo <=? z)%Z && (z <=? hi)%Z then Some z else None in
  match s with
  | "" => None
  | String b rest =>
      if Ascii.eqb b "+" then
        if String.eqb rest "" then None
        else match parse_digits radix 0 rest with Some z => in_bounds z | None => None end
      else if signed && Ascii.eqb b "-" then
        if String.eqb rest "" then None
        else match parse_digits radix 0 rest with Some z => in_bounds (- z)%Z | None => None end
      else match parse_digits radix 0 s with Some z => in_bounds z | None => None end
  end.

Definition parse_i64 : string → option Z := from_str_radix true i64_min i64_max 10.
Definition parse_u64 : string → option Z := from_str_radix false 0 u64_max 10.
Definition parse_u16 : string → option Z := from_str_radix false 0 u16_max 10.

(** [to_string] of an integer *)
Fixpoint dec_go (fuel : nat) (n : Z) (acc : string) : string :=
  let acc' := String (digit_char (n `mod` 10)) acc in
  match fuel with
  | 0 => acc'
  | S fuel' => if (n <? 10)%Z then acc' else dec_go fuel' (n `div` 10)%Z acc'
  end.
Definition dec_nonneg (n : Z) : string := dec_go (Z.to_nat (Z.log2 n)) n "".
Definition dec (z : Z) : string :=
  if (z <? 0)%Z then String "-" (dec_nonneg (- z)) else dec_nonneg z.

Lemma to_digit_char d : (0 ≤ d < 10)%Z → to_digit 10 (digit_char d) = Some d.
Proof.
  intros H. unfold to_digit, digit_char. rewrite byte_val_of by lia. unfold in_range.
  rewrite (proj2 (Z.leb_le _ (0x30 + d))), (proj2 (Z.leb_le (0x30 + d) _)) by lia. simpl.
  rewrite (proj2 (Z.ltb_lt _ _)) by lia. f_equal; lia.
Qed.

Lemma is_digit_char d : (0 ≤ d < 10)%Z → is_digit (digit_char d) = true.
Proof.
  intros H. unfold is_digit, digit_char, in_range. rewrite byte_val_of by lia.
  by rewrite !(proj2 (Z.leb_le _ _)) by lia.
Qed.

Lemma mod10_range n : (0 ≤ n `mod` 10 < 10)%Z.
Proof. apply Z.mod_pos_bound; lia. Qed.

(** [all_digits]: a nonempty run of decimal digits. *)
Fixpoint all_digits (s : string) : bool :=
  match s with "" => true | String b s' => is_digit b && all_digits s' end.

Lemma dec_go_digits fuel n acc :
  all_digits acc = true → all_digits (dec_go fuel n acc) = true.
Proof.
  revert n acc. induction fuel as [|fuel IH]; intros n acc H; simpl.
  - by rewrite is_digit_char, H by apply mod10_range.
  - destruct (n <? 10)%Z; [|apply IH]; simpl;
      by rewrite is_digit_char, H by apply mod10_range.
Qed.

Lemma dec_go_app fuel n acc t :
  dec_go fuel n (acc +:+ t) = dec_go fuel n acc +:+ t.
Proof.
  revert n acc. induction fuel as [|fuel IH]; intros n acc; simpl; [done|].
  destruct (n <? 10)%Z; [done|]. by rewrite <-IH.
Qed.

Lemma dec_go_ne fuel n acc : dec_go fuel n acc ≠ "".
Proof.
  revert n acc. induction fuel as [|fuel IH]; intros n acc; simpl; [done|].
  by destruct (n <? 10)%Z.
Qed.

Lemma parse_digits_app r acc s t :
  parse_digits r acc (s +:+ t) =
  match parse_digits r acc s with Some a => parse_digits r a t | None => None end.
Proof.
  revert acc. induction s as [|b s IH]; intros acc; [done|].
  rewrite sapp_cons. simpl. destruct (to_digit r b); auto.
Qed.

Lemma dec_go_parse fuel n :
  (0 ≤ n < 2 ^ (Z.of_nat fuel + 1))%Z → parse_digits 10 0 (dec_go fuel n "") = Some n.
Proof.
  revert n. induction fuel as [|fuel IH]; intros n Hn; cbn [dec_go].
  - change (2 ^ (Z.of_nat 0 + 1))%Z with 2%Z in Hn. cbn [parse_digits].
    rewrite to_digit_char by apply mod10_range. rewrite Z.mod_small by lia. done.
  - destruct (n <? 10)%Z eqn:E.
    + cbn [parse_digits]. rewrite to_digit_char by apply mod10_range.
      rewrite Z.mod_small by lia. done.
    + replace (String (digit_char (n `mod` 10)) "")
        with ("" +:+ bstr (digit_char (n `mod` 10))) by done.
      rewrite dec_go_app, parse_digits_app, IH.
      * cbn [parse_digits bstr]. rewrite to_digit_char by apply mod10_range.
        f_equal. pose proof (Z.div_mod n 10). lia.
      * replace (Z.of_nat (S fuel) + 1)%Z with (1 + (Z.of_nat fuel + 1))%Z in Hn by lia.
        rewrite (Z.pow_add_r 2 1 (Z.of_nat fuel + 1)) in Hn by lia. split.
        -- apply Z.div_pos; lia.
        -- apply Z.div_lt_upper_bound; lia.
Qed.

Lemma dec_nonneg_parse n : (0 ≤ n)%Z → parse_digits 10 0 (dec_nonneg n) = Some n.
Proof.
  intros H. apply dec_go_parse. rewrite Z2Nat.id by apply Z.log2_nonneg.
  destruct (decide (n = 0)%Z) as [->|]; [simpl; lia|].
  pose proof (Z.log2_spec n). rewrite Z.add_1_r. lia.
Qed.

Lemma dec_nonneg_head n :
  ∃ d s, dec_nonneg n = String (digit_char d) s ∧ (0 ≤ d < 10)%Z.
Proof.
  cut (∀ fuel n acc, ∃ d s, dec_go fuel n acc = String (digit_char d) s ∧ (0 ≤ d < 10)%Z);
    [eauto|].
  clear. induction fuel as [|fuel IH]; intros n acc; simpl; [eauto using mod10_range|].
  destruct (n <? 10)%Z; [eauto using mod10_range|apply IH].
Qed.

Lemma digit_char_val d : (0 ≤ d < 10)%Z → byte_val (digit_char d) = (0x30 + d)%Z.
Proof. intros H. unfold digit_char. rewrite byte_val_of; lia. Qed.

Lemma eqb_byte_false b c : byte_val b ≠ byte_val c → Ascii.eqb b c = false.
Proof. intros H. destruct (Ascii.eqb_spec b c); congruence. Qed.

(** Printing then parsing a decimal integer gives it back. *)
Lemma from_str_radix_dec lo hi z :
  (lo ≤ z ≤ hi)%Z → from_str_radix true lo hi 10 (dec z) = Some z.
Proof.
  intros Hz. unfold dec. destruct (Z.ltb_spec z 0) as [Hneg|Hpos].
  - unfold from_str_radix. cbn [andb Ascii.eqb Bool.eqb].
    destruct (String.eqb_spec (dec_nonneg (- z)) "") as [E|_]; [by apply dec_go_ne in E|].
    rewrite dec_nonneg_parse by lia. simpl. rewrite Z.opp_involutive.
    by rewrite !(proj2 (Z.leb_le _ _)) by lia.
  - destruct (dec_nonneg_head z) as (d & s & Hds & Hd).
    pose proof (dec_nonneg_parse z Hpos) as Hp. rewrite Hds in Hp |- *.
    unfold from_str_radix.
    rewrite !eqb_byte_false by (rewrite digit_char_val by done; eval_bytes; lia).
    rewrite andb_false_r, Hp. by rewrite !(proj2 (Z.leb_le _ _)) by lia.
Qed.

Lemma from_str_radix_bounds sg lo hi r s z :
  from_str_radix sg lo hi r s = Some z → (lo ≤ z ≤ hi)%Z.
Proof.
  assert (∀ y, (if (lo <=? y)%Z && (y <=? hi)%Z then Some y else None) = Some z →
               (lo ≤ z ≤ hi)%Z) as Hb.
  { intros y. destruct (Z.leb_spec lo y), (Z.leb_spec y hi); simpl; intros [= <-]; lia. }
  unfold from_str_radix. destruct s as [|b rest]; [done|].
  destruct (Ascii.eqb b "+"); [|destruct (sg && Ascii.eqb b "-")].
  - destruct (String.eqb rest ""), (parse_digits r 0 rest); eauto; done.
  - destruct (String.eqb rest ""), (parse_digits r 0 rest); eauto; done.
  - destruct (parse_digits r 0 (String b rest)); eauto; done.
Qed.

Lemma all_digits_valid s : all_digits s = true → utf8_valid s = true.
Proof.
  induction s as [|b s IH]; [done|]. simpl. intros [Hb Hs]%andb_true_iff.
  rewrite utf8_valid_ascii; [auto|]. unfold is_digit, in_range in Hb. lia.
Qed.

Lemma dec_nonneg_digits n : all_digits (dec_nonneg n) = true.
Proof. unfold dec_nonneg. by apply dec_go_digits. Qed.

Lemma dec_valid z : utf8_valid (dec z) = true.
Proof.
  unfold dec. destruct (z <? 0)%Z.
  - rewrite utf8_valid_ascii by done. apply all_digits_valid, dec_nonneg_digits.
  - apply all_digits_valid, dec_nonneg_digits.
Qed.

Lemma dec_inj z1 z2 : dec z1 = dec z2 → z1 = z2.
Proof.
  intros H. set (lo := Z.min z1 z2). set (hi := Z.max z1 z2).
  pose proof (from_str_radix_dec lo hi z1 ltac:(lia)) as H1.
  pose proof (from_str_radix_dec lo hi z2 ltac:(lia)) as H2.
  rewrite H in H1. congruence.
Qed.

#[export] Hint Resolve dec_valid : calcar.
