(* ===== verification/Events.v ===== *)
(** * Events: the common event and workflow model (crate calcar-events)

    The enums of [calcar-events/src/lib.rs] with their [#[repr(i32)]]
    discriminants and [from_i32] decoders, the event record, and the clock
    helper.  [ReprI32] is the interface the stores use: every enum encodes
    injectively and decodes exactly its own discriminants. *)

From S2P Require Import Prelude.

(** ** Enums *)

Inductive Provider := ProviderUnspecified | Opencode | Claude | Codex | Generic.

Inductive WorkflowState :=
| StateUnspecified | Running | WaitingInput | WaitingApproval
| Completed | Failed | Stopped | DisconnectedRunning.

Inductive EventType :=
| EventUnspecified | AgentStarted | CommandStarted | CommandCompleted | FileChanged
| ApprovalRequired | InputRequired | ErrorOccurred | WorkflowCompleted | WorkflowStopped.

#[export] Instance Provider_eq_dec : EqDecision Provider.
Proof. solve_decision. Defined.
#[export] Instance WorkflowState_eq_dec : EqDecision WorkflowState.
Proof. solve_decision. Defined.
#[export] Instance EventType_eq_dec : EqDecision EventType.
Proof. solve_decision. Defined.

(** [p as i32] *)
Definition provider_i32 (p : Provider) : Z :=
  match p with
  | ProviderUnspecified => 0 | Opencode => 1 | Claude => 2 | Codex => 3 | Generic => 4
  end.

Definition state_i32 (s : WorkflowState) : Z :=
  match s with
  | StateUnspecified => 0 | Running => 1 | WaitingInput => 2 | WaitingApproval => 3
  | Completed => 4 | Failed => 5 | Stopped => 6 | DisconnectedRunning => 7
  end.

Definition event_type_i32 (e : EventType) : Z :=
  match e with
  | EventUnspecified => 0 | AgentStarted => 1 | CommandStarted => 2
  | CommandCompleted => 3 | FileChanged => 4 | ApprovalRequired => 5
  | InputRequired => 6 | ErrorOccurred => 7 | WorkflowCompleted => 8
  | WorkflowStopped => 9
  end.

Definition provider_from_i32 (value : Z) : option Provider :=
  match value with
  | 0 => Some ProviderUnspecified | 1 => Some Opencode | 2 => Some Claude
  | 3 => Some Codex | 4 => Some Generic | _ => None
  end%Z.

Definition state_from_i32 (value : Z) : option WorkflowState :=
  match value with
  | 0 => Some StateUnspecified | 1 => Some Running | 2 => Some WaitingInput
  | 3 => Some WaitingApproval | 4 => Some Completed | 5 => Some Failed
  | 6 => Some Stopped | 7 => Some DisconnectedRunning | _ => None
  end%Z.

Definition event_type_from_i32 (value : Z) : option EventType :=
  match value with
  | 0 => Some EventUnspecified | 1 => Some AgentStarted | 2 => Some CommandStarted
  | 3 => Some CommandCompleted | 4 => Some FileChanged | 5 => Some ApprovalRequired
  | 6 => Some InputRequired | 7 => Some ErrorOccurred | 8 => Some WorkflowCompleted
  | 9 => Some WorkflowStopped | _ => None
  end%Z.

(** [WorkflowState::is_persistable] *)
Definition is_persistable (s : WorkflowState) : bool :=
  bool_decide (s ≠ StateUnspecified) && bool_decide (s ≠ DisconnectedRunning).

(** The [Debug] names that reach error messages. *)
Definition state_debug (s : WorkflowState) : string :=
  match s with
  | StateUnspecified => "Unspecified" | Running => "Running"
  | WaitingInput => "WaitingInput" | WaitingApproval => "WaitingApproval"
  | Completed => "Completed" | Failed => "Failed" | Stopped => "Stopped"
  | DisconnectedRunning => "DisconnectedRunning"
  end.

(** ** The event record *)

Record WorkflowEvent := mk_event {
  event_id : string;
  ev_workflow_id : string;
  ev_provider_session_id : option string;
  seq_no : Z;
  occurred_at_millis : Z;
  event_type : EventType;
  summary : string;
  detail_pointer : option string;
}.

#[export] Instance WorkflowEvent_eq_dec : EqDecision WorkflowEvent.
Proof. solve_decision. Defined.

(** ** The clock

    [SystemTime::now().duration_since(UNIX_EPOCH)] is [None] when the clock is
    before the epoch, else the elapsed milliseconds, an unsigned number. *)
Definition now_millis (reading : option Z) : Z :=
  match reading with Some d => to_i64 d | None => 0%Z end.

(** ** The encoding interface *)

Class ReprI32 (A : Type) := {
  repr : A → Z;
  from_repr : Z → option A;
  from_repr_repr a : from_repr (repr a) = Some a;
  repr_from_repr z a : from_repr z = Some a → repr a = z;
}.

Ltac solve_repr :=
  let z := fresh in let a := fresh in let H := fresh in
  intros z a H; repeat case_match; simplify_eq; done.

#[export, refine] Instance provider_repr : ReprI32 Provider :=
  {| repr := provider_i32; from_repr := provider_from_i32 |}.
Proof. - by intros []. - unfold provider_from_i32. solve_repr. Defined.

#[export, refine] Instance state_repr : ReprI32 WorkflowState :=
  {| repr := state_i32; from_repr := state_from_i32 |}.
Proof. - by intros []. - unfold state_from_i32. solve_repr. Defined.

#[export, refine] Instance event_type_repr : ReprI32 EventType :=
  {| repr := event_type_i32; from_repr := event_type_from_i32 |}.
Proof. - by intros []. - unfold event_type_from_i32. solve_repr. Defined.

Section ReprFacts.
Context {A : Type} {HA : ReprI32 A}.

Lemma repr_inj (a b : A) : repr a = repr b → a = b.
Proof.
  intros H. pose proof (from_repr_repr a) as Ha. rewrite H, from_repr_repr in Ha.
  congruence.
Qed.

Lemma from_repr_iff z (a : A) : from_repr z = Some a ↔ repr a = z.
Proof. split; [apply repr_from_repr|]. intros <-. apply from_repr_repr. Qed.
End ReprFacts.

Lemma state_i32_persistable s :
  is_persistable s = true ↔ state_i32 s ≠ 0%Z ∧ state_i32 s ≠ 7%Z.
Proof. destruct s; vm_compute; split; try done; intros [??]; done. Qed.

Lemma state_from_i32_i32 s : state_from_i32 (state_i32 s) = Some s.
Proof. by destruct s. Qed.

Lemma event_type_from_i32_i32 e : event_type_from_i32 (event_type_i32 e) = Some e.
Proof. by destruct e. Qed.

Create Rewrite HintDb calcar.
#[export] Hint Rewrite state_from_i32_i32 event_type_from_i32_i32 : calcar.
