(* ===== verification/Schema.v ===== *)
(** * Schema: the agent database and its statements (crate calcar-storage)

    The tables of [migrations/0001_init.sql] as rows, the error type of
    [calcar-storage/src/lib.rs], and the monad of its methods: a method runs
    over a [World] (the database file plus how many clock readings and SQL
    statements were used so far) and an [Env] that says what the clock reads
    and which statement fails with a SQLite fault.  A statement that fails
    changes nothing; a transaction that does not commit changes nothing. *)

From S2P Require Import Prelude Text Events.

(** ** Rows *)

(** [struct WorkflowRow], table [workflows] *)
Record WorkflowRow := mk_workflow_row {
  workflow_id : string;
  provider : Z;
  state : Z;
  title : string;
  provider_session_id : option string;
  created_at_millis : Z;
  updated_at_millis : Z;
}.

(** Table [workflow_events] *)
Record EventRow := mk_event_row {
  er_workflow_id : string;
  er_seq_no : Z;
  er_event_id : string;
  er_provider_session_id : option string;
  er_type : Z;
  er_occurred_at_millis : Z;
  er_summary : string;
  er_detail_pointer : option string;
  er_approx_bytes : Z;
}.

(** Table [outbox] *)
Record OutboxRow := mk_outbox_row {
  ob_workflow_id : string;
  ob_seq_no : Z;
  ob_enqueued_at_millis : Z;
  ob_published_at_millis : option Z;
}.

(** Table [session_bindings], keyed by workflow *)
Record BindingRow := mk_binding_row {
  bd_provider_session_id : string;
  bd_resume_pointer : option string;
  bd_bound_at_millis : Z;
}.

(** Table [ring_truncations], keyed by workflow *)
Record TruncationRow := mk_truncation_row {
  tr_truncated_before_seq : Z;
  tr_dropped_count : Z;
  tr_at_millis : Z;
}.

(** Table [pending_requests], keyed by request id.  [rq_kind] and [rq_state]
    are the integer columns. *)
Record RequestRow := mk_request_row {
  rq_workflow_id : string;
  rq_kind : Z;
  rq_state : Z;
  rq_created_at_millis : Z;
  rq_expires_at_millis : option Z;
  rq_resolved_at_millis : option Z;
  rq_resolve_payload : option string;
}.

#[export] Instance WorkflowRow_eq_dec : EqDecision WorkflowRow.
Proof. solve_decision. Defined.
#[export] Instance EventRow_eq_dec : EqDecision EventRow.
Proof. solve_decision. Defined.
#[export] Instance OutboxRow_eq_dec : EqDecision OutboxRow.
Proof. solve_decision. Defined.
#[export] Instance RequestRow_eq_dec : EqDecision RequestRow.
Proof. solve_decision. Defined.

(** The database file.  [schema_migrations] is [None] before its table
    exists; [schema] says whether migration 0001 has created the tables. *)
Record Db := mk_db {
  schema_migrations : option (list (string * Z));
  schema : bool;
  workflows : gmap string WorkflowRow;
  workflow_events : list EventRow;
  outbox : list OutboxRow;
  session_bindings : gmap string BindingRow;
  ring_truncations : gmap string TruncationRow;
  pending_requests : gmap string RequestRow;
}.

Definition empty_db : Db := mk_db None false ∅ [] [] ∅ ∅ ∅.

Definition set_migrations m d := mk_db m (schema d) (workflows d) (workflow_events d)
  (outbox d) (session_bindings d) (ring_truncations d) (pending_requests d).
Definition set_schema b d := mk_db (schema_migrations d) b (workflows d) (workflow_events d)
  (outbox d) (session_bindings d) (ring_truncations d) (pending_requests d).
Definition set_workflows t d := mk_db (schema_migrations d) (schema d) t (workflow_events d)
  (outbox d) (session_bindings d) (ring_truncations d) (pending_requests d).
Definition set_events t d := mk_db (schema_migrations d) (schema d) (workflows d) t
  (outbox d) (session_bindings d) (ring_truncations d) (pending_requests d).
Definition set_outbox t d := mk_db (schema_migrations d) (schema d) (workflows d)
  (workflow_events d) t (session_bindings d) (ring_truncations d) (pending_requests d).
Definition set_bindings t d := mk_db (schema_migrations d) (schema d) (workflows d)
  (workflow_events d) (outbox d) t (ring_truncations d) (pending_requests d).
Definition set_truncations t d := mk_db (schema_migrations d) (schema d) (workflows d)
  (workflow_events d) (outbox d) (session_bindings d) t (pending_requests d).
Definition set_requests t d := mk_db (schema_migrations d) (schema d) (workflows d)
  (workflow_events d) (outbox d) (session_bindings d) (ring_truncations d) t.

(** ** Errors *)

(** [rusqlite::Error]: what the agent tells apart.  [SqliteFault] is any
    busy, IO, or disk failure. *)
Inductive SqliteError :=
| QueryReturnedNoRows
| ConstraintViolation
| InvalidColumnType
| NoSuchTable
| SqliteFault (code : Z).

Inductive StorageError :=
| Sqlite (e : SqliteError)
| Io (message : string)
| Migration (name message : string)
| InvalidState (message : string)
| NotFound (message : string)
| AlreadyResolved (message : string)
| Expired (message : string).

#[export] Instance SqliteError_eq_dec : EqDecision SqliteError.
Proof. solve_decision. Defined.
#[export] Instance StorageError_eq_dec : EqDecision StorageError.
Proof. solve_decision. Defined.

(** A fault of the database engine or file system, as opposed to an answer. *)
Definition is_fault (e : StorageError) : bool :=
  match e with Sqlite _ | Io _ | Migration _ _ => true | _ => false end.

(** ** Environment and monad *)

Class Env := {
  (** the [n]-th reading of the system clock *)
  clock : nat → option Z;
  (** the fault of the [n]-th call to SQLite or the file system, if it fails *)
  fault : nat → option Z;
  (** [Display] of a [rusqlite::Error] and of a [std::io::Error] *)
  sqlite_display : SqliteError → string;
  io_display : Z → string;
  (** [Path::parent] of the database file *)
  db_parent : option string;
}.

Record World := mk_world {
  db : Db;
  ticks : nat;
  stmts : nat;
}.

Definition StoreM (A : Type) : Type := ST World StorageError A.

Section Statements.
Context {env : Env}.

Definition with_db (d : Db) (w : World) : World := mk_world d (ticks w) (stmts w).

(** [calcar_events::now_millis()] *)
Definition now : StoreM Z := λ w,
  (Ok (now_millis (clock (ticks w))), mk_world (db w) (S (ticks w)) (stmts w)).

(** One call into SQLite: it faults, or it runs [f] on the database. *)
Definition sqlite_call {A} (f : Db → result (A * Db) SqliteError) : StoreM A := λ w,
  let w' := mk_world (db w) (ticks w) (S (stmts w)) in
  match fault (stmts w) with
  | Some code => (Err (Sqlite (SqliteFault code)), w')
  | None =>
      match f (db w) with
      | Ok (a, d) => (Ok a, with_db d w')
      | Err e => (Err (Sqlite e), w')
      end
  end.

(** [std::fs::create_dir_all]: directories are not tracked. *)
Definition create_dir_all : StoreM unit := λ w,
  let w' := mk_world (db w) (ticks w) (S (stmts w)) in
  match fault (stmts w) with
  | Some code => (Err (Io (io_display code)), w')
  | None => (Ok tt, w')
  end.

(** A statement over the tables of migration 0001: preparing it fails while
    they do not exist. *)
Definition execute {A} (f : Db → result (A * Db) SqliteError) : StoreM A :=
  sqlite_call (λ d, if schema d then f d else Err NoSuchTable).

Definition query {A} (f : Db → result A SqliteError) : StoreM A :=
  execute (λ d, match f d with Ok a => Ok (a, d) | Err e => Err e end).

(** A SELECT whose rows always decode. *)
Definition select {A} (f : Db → A) : StoreM A := query (λ d, Ok (f d)).

(** [let tx = conn.unchecked_transaction()?; body; tx.commit()?]: dropping
    an uncommitted transaction rolls it back. *)
Definition transaction {A} (body : StoreM A) : StoreM A := λ w,
  match sqlite_call (λ d, Ok (tt, d)) w with
  | (Err e, w1) => (Err e, w1)
  | (Ok _, w1) =>
      match body w1 with
      | (Err e, w2) => (Err e, with_db (db w) w2)
      | (Ok a, w2) =>
          match sqlite_call (λ d, Ok (tt, d)) w2 with
          | (Err e, w3) => (Err e, with_db (db w) w3)
          | (Ok _, w3) => (Ok a, w3)
          end
      end
  end.

(** *** Rules *)

(** The engine failed: a fault of the environment, or the tables of
    migration 0001 do not exist. *)
Definition faulted (e : StorageError) : Prop :=
  ∃ n code, fault n = Some code ∧ (e = Sqlite (SqliteFault code) ∨ e = Io (io_display code)).
Definition db_error (d : Db) (e : StorageError) : Prop :=
  faulted e ∨ (schema d = false ∧ e = Sqlite NoSuchTable).

Lemma db_error_schema d d' e : schema d' = schema d → db_error d' e → db_error d e.
Proof. unfold db_error. intros ->. done. Qed.

Lemma faulted_sqlite n code : fault n = Some code → faulted (Sqlite (SqliteFault code)).
Proof. intros H. exists n, code. auto. Qed.

Lemma faulted_io n code : fault n = Some code → faulted (Io (io_display code)).
Proof. intros H. exists n, code. auto. Qed.

Lemma db_error_faulted d e : faulted e → db_error d e.
Proof. by left. Qed.

Lemma wp_now (Q : result Z StorageError → World → Prop) w :
  (∀ t w', in_i64 t → db w' = db w → Q (Ok t) w') → wp now Q w.
Proof.
  intros H. unfold wp, now. apply H; [|done..].
  unfold now_millis. destruct (clock (ticks w)) as [t|]; [|unfold in_i64; lia].
  unfold in_i64, to_i64. pose proof (Z.mod_pos_bound (t + 2^63) (2^64)). lia.
Qed.

Lemma wp_sqlite_call {A} (f : Db → result (A * Db) SqliteError) Q w :
  (∀ e w', db w' = db w → faulted e → Q (Err e) w') →
  (∀ e w', f (db w) = Err e → db w' = db w → Q (Err (Sqlite e)) w') →
  (∀ a d w', f (db w) = Ok (a, d) → db w' = d → Q (Ok a) w') →
  wp (sqlite_call f) Q w.
Proof.
  intros Hf He Hok. unfold wp, sqlite_call.
  destruct (fault (stmts w)) eqn:Ef; [apply Hf; [done|by eapply faulted_sqlite]|].
  destruct (f (db w)) as [[a d]|e] eqn:E; [by eapply Hok|by apply He].
Qed.

Lemma wp_create_dir_all Q w :
  (∀ e w', db w' = db w → faulted e → Q (Err e) w') →
  (∀ w', db w' = db w → Q (Ok tt) w') → wp create_dir_all Q w.
Proof.
  intros Hf Hok. unfold wp, create_dir_all.
  destruct (fault (stmts w)) eqn:Ef; [apply Hf; [done|by eapply faulted_io]|by apply Hok].
Qed.

Lemma wp_execute {A} (f : Db → result (A * Db) SqliteError) Q w :
  (∀ e w', db w' = db w → db_error (db w) e → Q (Err e) w') →
  (∀ e w', f (db w) = Err e → schema (db w) = true → db w' = db w →
     Q (Err (Sqlite e)) w') →
  (∀ a d w', f (db w) = Ok (a, d) → schema (db w) = true → db w' = d → Q (Ok a) w') →
  wp (execute f) Q w.
Proof.
  intros Hf He Hok. apply wp_sqlite_call.
  - intros e w' Hw H. apply Hf; [done|by left].
  - intros e w' H Hw. destruct (schema (db w)) eqn:Es; [by apply He|].
    injection H as <-. apply Hf; [done|by right].
  - intros a d w' H Hw. destruct (schema (db w)) eqn:Es; [by eapply Hok|done].
Qed.

Lemma wp_query {A} (f : Db → result A SqliteError) Q w :
  (∀ e w', db w' = db w → db_error (db w) e → Q (Err e) w') →
  (∀ e w', f (db w) = Err e → schema (db w) = true → db w' = db w →
     Q (Err (Sqlite e)) w') →
  (∀ a w', f (db w) = Ok a → schema (db w) = true → db w' = db w → Q (Ok a) w') →
  wp (query f) Q w.
Proof.
  intros Hf He Hok. apply wp_execute; [done|..].
  - intros e w' H. destruct (f (db w)); [done|]. injection H as <-. by apply He.
  - intros a d w' H. destruct (f (db w)) eqn:E; [|done]. injection H as <- <-. by apply Hok.
Qed.

Lemma wp_select {A} (f : Db → A) Q w :
  (∀ e w', db w' = db w → db_error (db w) e → Q (Err e) w') →
  (∀ w', schema (db w) = true → db w' = db w → Q (Ok (f (db w))) w') →
  wp (select f) Q w.
Proof.
  intros Hf Hok. apply wp_query; [done|done|]. intros a w' [= <-]. by apply Hok.
Qed.

Lemma wp_transaction {A} (body : StoreM A) Q w :
  (∀ e w', db w' = db w → faulted e → Q (Err e) w') →
  (∀ w1, db w1 = db w →
     wp body (λ r w2, match r with
                      | Ok a => ∀ w3, db w3 = db w2 → Q (Ok a) w3
                      | Err e => ∀ w3, db w3 = db w → Q (Err e) w3
                      end) w1) →
  wp (transaction body) Q w.
Proof.
  intros He Hok. unfold wp, transaction, sqlite_call.
  destruct (fault (stmts w)) eqn:Ef; [apply He; [done|by eapply faulted_sqlite]|]. cbn.
  set (w1 := with_db _ _). specialize (Hok w1 eq_refl). unfold wp in Hok.
  destruct (body w1) as [[a|e] w2]; [|by apply Hok].
  destruct (fault (stmts w2)) eqn:Ef2; [apply He; [done|by eapply faulted_sqlite]|].
  by apply Hok.
Qed.

(** A method that does not change the database. *)
Definition reads_only {A} (m : StoreM A) : Prop := ∀ w, db (m w).2 = db w.

Lemma reads_only_now : reads_only now.
Proof. done. Qed.

Lemma reads_only_query {A} (f : Db → result A SqliteError) : reads_only (query f).
Proof.
  intros w. unfold query, execute, sqlite_call. destruct (fault (stmts w)); [done|].
  destruct (schema (db w)); [|done]. by destruct (f (db w)).
Qed.

Lemma reads_only_bind {A B} (m : StoreM A) (k : A → StoreM B) :
  reads_only m → (∀ a, reads_only (k a)) → reads_only (st_bind m k).
Proof.
  intros Hm Hk w. unfold st_bind. specialize (Hm w).
  destruct (m w) as [[a|e] w']; [|done]. by rewrite Hk.
Qed.

Lemma reads_only_ret {A} (a : A) : reads_only (st_ret a).
Proof. done. Qed.
Lemma reads_only_throw {A} (e : StorageError) : reads_only (A:=A) (st_throw e).
Proof. done. Qed.
End Statements.

#[export] Hint Resolve reads_only_now reads_only_query reads_only_bind reads_only_ret
  reads_only_throw : calcar.

(** An environment in which no SQLite call fails. *)
Class NoFaults (env : Env) := no_faults : ∀ n, fault n = None.

(** A concrete environment: the clock starts at [t0] and advances by [dt]. *)
Definition steady_env (t0 dt : Z) : Env :=
  {| clock := λ n, Some (t0 + Z.of_nat n * dt)%Z; fault := λ _, None;
     sqlite_display := λ _, "sqlite"; io_display := λ _, "io"; db_parent := Some "data" |}.

(** The same clock, with the [k]-th SQLite call failing. *)
Definition faulty_env (t0 dt : Z) (k : nat) : Env :=
  {| clock := λ n, Some (t0 + Z.of_nat n * dt)%Z;
     fault := λ n, if Nat.eqb n k then Some 10%Z else None;
     sqlite_display := λ _, "sqlite"; io_display := λ _, "io"; db_parent := Some "data" |}.

#[export] Instance steady_no_faults t0 dt : NoFaults (steady_env t0 dt).
Proof. intros n. done. Qed.

Lemma no_faults_faulted {env : Env} `{!NoFaults env} e : ¬ faulted e.
Proof. intros (n & c & H1 & _). by rewrite no_faults in H1. Qed.

Lemma no_faults_db_error {env : Env} `{!NoFaults env} d e : schema d = true → ¬ db_error d e.
Proof. intros Hs [Hf|[Hn _]]; [by apply no_faults_faulted in Hf|congruence]. Qed.

(** One step of a storage method under [wp].  A statement opens its cases:
    engine error, refusal by the statement (not for [select]), success. *)
Ltac sql_step :=
  match goal with
  | |- wp now _ _ =>
      apply wp_now; let t := fresh "t" in let w := fresh "w" in
      let Hr := fresh "Hrange" in let Hw := fresh "Hw" in
      intros t w Hr Hw
  | |- wp (select _) _ _ =>
      apply wp_select;
        [let e := fresh "e" in let w := fresh "w" in let Hw := fresh "Hw" in
         let Hd := fresh "Hdb" in intros e w Hw Hd
        |let w := fresh "w" in let Hs := fresh "Hsch" in let Hw := fresh "Hw" in
         intros w Hs Hw]
  | |- wp (query _) _ _ =>
      apply wp_query;
        [let e := fresh "e" in let w := fresh "w" in let Hw := fresh "Hw" in
         let Hd := fresh "Hdb" in intros e w Hw Hd
        |let e := fresh "e" in let w := fresh "w" in let Ha := fresh "Ha" in
         let Hs := fresh "Hsch" in let Hw := fresh "Hw" in intros e w Ha Hs Hw
        |let a := fresh "a" in let w := fresh "w" in let Ha := fresh "Ha" in
         let Hs := fresh "Hsch" in let Hw := fresh "Hw" in intros a w Ha Hs Hw]
  | |- wp (execute _) _ _ =>
      apply wp_execute;
        [let e := fresh "e" in let w := fresh "w" in let Hw := fresh "Hw" in
         let Hd := fresh "Hdb" in intros e w Hw Hd
        |let e := fresh "e" in let w := fresh "w" in let Ha := fresh "Ha" in
         let Hs := fresh "Hsch" in let Hw := fresh "Hw" in intros e w Ha Hs Hw
        |let a := fresh "a" in let d := fresh "d" in let w := fresh "w" in
         let Ha := fresh "Ha" in let Hs := fresh "Hsch" in let Hw := fresh "Hw" in
         intros a d w Ha Hs Hw]
  | _ => wp_step
  end; cbn beta iota.
