(* ===== verification/Storage.v ===== *)
(** * Storage: migrations and workflow records (crate calcar-storage)

    [Storage::open], [migrate] and the workflow half of
    [calcar-storage/src/lib.rs]: create, read, and the persisted state
    machine.  The theorems: migrating is idempotent, only storable states
    reach the table, and a terminal row is frozen. *)

From S2P Require Import Prelude Text Events Schema.

Section Storage.
Context {env : Env}.

(** ** Opening and migrating *)

Definition init_sql (d : Db) : result Db SqliteError :=
  Ok (set_schema true (set_migrations (Some (default [] (schema_migrations d))) d)).

(** [const MIGRATIONS]: name and script, in apply order *)
Definition MIGRATIONS : list (string * (Db → result Db SqliteError)) :=
  [("0001_init", init_sql)].

(** The three pragmas of [configure]. *)
Definition configure : StoreM unit :=
  let* _ := sqlite_call (λ d, Ok (tt, d)) in
  let* _ := sqlite_call (λ d, Ok (tt, d)) in
  let* _ := sqlite_call (λ d, Ok (tt, d)) in
  st_ret tt.

(** [Storage::open]: the directory of the file, [Connection::open], [configure]. *)
Definition open_conn : StoreM unit :=
  let* _ := match db_parent with
            | Some parent => if String.eqb parent "" then st_ret tt else create_dir_all
            | None => st_ret tt
            end in
  let* _ := sqlite_call (λ d, Ok (tt, d)) in
  configure.

(** [Storage::open_in_memory] *)
Definition open_in_memory : StoreM unit :=
  let* _ := sqlite_call (λ d, Ok (tt, d)) in
  configure.

Definition insert_migration (name : string) (at_millis : Z) (d : Db) :
    result (unit * Db) SqliteError :=
  match schema_migrations d with
  | None => Err NoSuchTable
  | Some rows =>
      if bool_decide (name ∈ rows.*1) then Err ConstraintViolation
      else Ok (tt, set_migrations (Some (rows ++ [(name, at_millis)])) d)
  end.

Definition apply_migration (name : string) (sql : Db → result Db SqliteError) : StoreM unit :=
  transaction (
    let* applied := st_try (sqlite_call (λ d,
      match sql d with Ok d' => Ok (tt, d') | Err e => Err e end)) in
    match applied with
    | Err (Sqlite error) => st_throw (Migration name (sqlite_display error))
    | Err error => st_throw error
    | Ok _ =>
        let* t := now in
        sqlite_call (insert_migration name t)
    end).

Fixpoint migrate_loop (pending : list (string * (Db → result Db SqliteError)))
    (already_applied newly_applied : list string) : StoreM (list string) :=
  match pending with
  | [] => st_ret newly_applied
  | (name, sql) :: pending' =>
      if bool_decide (name ∈ already_applied)
      then migrate_loop pending' already_applied newly_applied
      else
        let* _ := apply_migration name sql in
        migrate_loop pending' already_applied (newly_applied ++ [name])
  end.

(** [Storage::migrate] *)
Definition migrate : StoreM (list string) :=
  let* _ := sqlite_call (λ d,
    Ok (tt, set_migrations (Some (default [] (schema_migrations d))) d)) in
  let* already_applied := sqlite_call (λ d,
    match schema_migrations d with
    | Some rows => Ok (rows.*1, d)
    | None => Err NoSuchTable
    end) in
  migrate_loop MIGRATIONS already_applied [].

(** ** Workflow records *)

(** [const TERMINAL_STATES] *)
Definition TERMINAL_STATES : list Z := [4; 5; 6]%Z.

(** [INSERT INTO workflows], with its primary key and CHECK. *)
Definition insert_workflow (row : WorkflowRow) (d : Db) : result (unit * Db) SqliteError :=
  if bool_decide (state row ∈ [0; 7]%Z) then Err ConstraintViolation
  else match workflows d !! workflow_id row with
       | Some _ => Err ConstraintViolation
       | None => Ok (tt, set_workflows (<[workflow_id row := row]> (workflows d)) d)
       end.

(** [Storage::create_workflow] *)
Definition create_workflow (id : string) (p : Provider) (ttl : string)
    (session_id : option string) : StoreM WorkflowRow :=
  let* t := now in
  let row := mk_workflow_row id (provider_i32 p) (state_i32 Running) ttl session_id t t in
  let* _ := execute (insert_workflow row) in
  st_ret row.

(** [Storage::get_workflow] *)
Definition get_workflow (id : string) : StoreM (option WorkflowRow) :=
  select (λ d, workflows d !! id).

Definition set_state_row (new_state at_millis : Z) (row : WorkflowRow) : WorkflowRow :=
  mk_workflow_row (workflow_id row) (provider row) new_state (title row)
    (provider_session_id row) (created_at_millis row) at_millis.

(** [UPDATE workflows SET state, updated_at_millis WHERE workflow_id]: the
    CHECK is re-evaluated, and a missing row updates nothing. *)
Definition update_workflow_state (id : string) (new_state at_millis : Z) (d : Db) :
    result (unit * Db) SqliteError :=
  match workflows d !! id with
  | None => Ok (tt, d)
  | Some row =>
      if bool_decide (new_state ∈ [0; 7]%Z) then Err ConstraintViolation
      else Ok (tt, set_workflows (<[id := set_state_row new_state at_millis row]>
                                    (workflows d)) d)
  end.

(** [Storage::set_workflow_state] *)
Definition set_workflow_state (id : string) (new_state : WorkflowState) :
    StoreM WorkflowRow :=
  if negb (is_persistable new_state) then
    st_throw (InvalidState ("state " +:+ state_debug new_state +:+
      " is a projection or unspecified and is never persisted"))
  else
    let* found := get_workflow id in
    let* current := st_lift (ok_or found (NotFound ("workflow " +:+ id))) in
    if bool_decide (state current ∈ TERMINAL_STATES) then
      st_throw (InvalidState ("workflow " +:+ id +:+ " is in terminal state " +:+
        dec (state current) +:+ "; no transitions out"))
    else
      let* t := now in
      let* _ := execute (update_workflow_state id (state_i32 new_state) t) in
      let* found := get_workflow id in
      st_lift (ok_or found (NotFound ("workflow " +:+ id))).
End Storage.

(** ** Database facts *)

Definition migrated (d : Db) : Prop :=
  schema d = true ∧ ∃ rows, schema_migrations d = Some rows ∧ "0001_init" ∈ rows.*1.

(** Only storable states, under the row's own key. *)
Definition workflows_ok (d : Db) : Prop :=
  map_Forall (λ id row, workflow_id row = id ∧
    (∃ s, is_persistable s = true ∧ state row = state_i32 s) ∧
    ∃ p, provider row = provider_i32 p) (workflows d).

Definition terminal (row : WorkflowRow) : Prop := state row ∈ TERMINAL_STATES.

#[export] Instance terminal_dec row : Decision (terminal row).
Proof. unfold terminal. apply _. Defined.

(** Every table but [workflows] is the same. *)
Definition same_but_workflows (d d' : Db) : Prop :=
  set_workflows (workflows d) d' = d.

Lemma storable_check s :
  is_persistable s = true → bool_decide (state_i32 s ∈ [0; 7]%Z) = false.
Proof. by destruct s. Qed.

Section StorageFacts.
Context {env : Env}.

Lemma wp_get_workflow id Q w :
  (∀ e w', db w' = db w → db_error (db w) e → Q (Err e) w') →
  (∀ w', schema (db w) = true → db w' = db w → Q (Ok (workflows (db w) !! id)) w') →
  wp (get_workflow id) Q w.
Proof. intros He Hok. apply (wp_select (λ d, workflows d !! id)); auto. Qed.

Lemma reads_only_get_workflow id : reads_only (get_workflow id).
Proof. apply reads_only_query. Qed.

(** What [create_workflow] does to the database, on every path. *)
Lemma wp_create_workflow id p ttl sid Q w :
  (∀ e w', db w' = db w →
     db_error (db w) e ∨
     (is_Some (workflows (db w) !! id) ∧ e = Sqlite ConstraintViolation) → Q (Err e) w') →
  (∀ t w', workflows (db w) !! id = None → in_i64 t → schema (db w) = true →
     let row := mk_workflow_row id (provider_i32 p) (state_i32 Running) ttl sid t t in
     db w' = set_workflows (<[id := row]> (workflows (db w))) (db w) →
     Q (Ok row) w') →
  wp (create_workflow id p ttl sid) Q w.
Proof.
  intros He Hok. unfold create_workflow. do 2 sql_step. sql_step. rewrite <-Hw in *.
  sql_step; unfold insert_workflow in *; cbn in *;
    try change (bool_decide (1%Z ∈ [0; 7]%Z)) with false in Ha.
  - apply He; auto.
  - apply He; [done|]. right. destruct (workflows (db w0) !! id); simplify_eq; eauto.
  - destruct (workflows (db w0) !! id) eqn:Hid; [done|].
    injection Ha as <- <-. by apply Hok.
Qed.

(** What [set_workflow_state] does to the database, on every path.  The
    second premise has the write: once the row is updated, only the final
    read can still fail. *)
Lemma wp_set_workflow_state id s Q w :
  (∀ e w', db w' = db w →
     db_error (db w) e ∨ (is_persistable s = false ∧ ∃ m, e = InvalidState m) ∨
     (workflows (db w) !! id = None ∧ ∃ m, e = NotFound m) ∨
     (∃ row m, workflows (db w) !! id = Some row ∧ terminal row ∧ e = InvalidState m) →
     Q (Err e) w') →
  (∀ row t w', workflows (db w) !! id = Some row → is_persistable s = true →
     ¬ terminal row → in_i64 t → schema (db w) = true →
     let row' := set_state_row (state_i32 s) t row in
     db w' = set_workflows (<[id := row']> (workflows (db w))) (db w) →
     Q (Ok row') w' ∧ ∀ e, faulted e → Q (Err e) w') →
  wp (set_workflow_state id s) Q w.
Proof.
  intros He Hok. unfold set_workflow_state.
  destruct (is_persistable s) eqn:Hp; [|apply wp_throw, He; eauto 10]. cbn [negb].
  apply wp_bind, wp_get_workflow; [auto|]. intros w1 Hs1 Hw1.
  apply wp_bind, wp_lift. destruct (workflows (db w) !! id) as [row|] eqn:Hid;
    [|apply He; cbn; eauto 10].
  cbn. case_bool_decide as Ht; [apply wp_throw, He; eauto 10|].
  apply wp_bind. sql_step. cbn. apply wp_bind. rewrite <-Hw1, <-Hw in *.
  sql_step; [apply He; auto; congruence|..];
    unfold update_workflow_state in Ha; rewrite Hid, (storable_check s Hp) in Ha; [done|].
  injection Ha as <- <-. destruct (Hok row t w2) as [Hok1 Hok2]; auto.
  apply wp_bind, wp_get_workflow.
  - intros e w4 Hw4 [Hf|[Hf _]]; [|rewrite Hw0 in Hf; cbn in Hf; congruence].
    rewrite Hw0 in Hw4. by apply (Hok row t w4).
  - intros w4 _ Hw4. rewrite Hw0 in Hw4 |- *. cbn. rewrite lookup_insert_eq.
    apply wp_lift. cbn. by apply (Hok row t w4).
Qed.
End StorageFacts.
