(* ===== verification/Ring.v ===== *)
(** * Ring: the bounded event ring and its outbox (crate calcar-storage)

    [append_event], [trim_ring], [events_after], [ring_stats] and the outbox
    of [calcar-storage/src/lib.rs].  [ring_ok] is the invariant of one
    workflow's ring: the kept sequence numbers are a gap-free run that ends at
    the newest event ever appended, the recorded cut and drop count say exactly
    what was trimmed, the two bounds hold, and the outbox has one row for every
    event ever appended.  Sequence numbers are unbounded integers here and 64-bit
    ones in SQLite; no workflow has that many events. *)

From S2P Require Import Prelude Text Events Schema Storage.

Section Ring.
Context {env : Env}.

Definition MAX_RING_EVENTS : Z := 5000.
Definition MAX_RING_BYTES : Z := 10 * 1024 * 1024.

(** [struct EventDraft] *)
Record EventDraft := mk_draft {
  dr_workflow_id : string;
  dr_event_id : string;
  dr_provider_session_id : option string;
  dr_occurred_at_millis : Z;
  dr_event_type : EventType;
  dr_summary : string;
  dr_detail_pointer : option string;
}.

(** [struct RingStats] *)
Record RingStats := mk_ring_stats {
  rs_count : Z;
  rs_approx_bytes : Z;
  rs_oldest_seq : option Z;
  rs_newest_seq : option Z;
  rs_truncated_before_seq : option Z;
  rs_dropped_count : Z;
}.

(** [struct OutboxEntry] *)
Record OutboxEntry := mk_outbox_entry {
  oe_workflow_id : string;
  oe_seq_no : Z;
}.

Definition len (s : string) : Z := Z.of_nat (String.length s).
Definition opt_len (s : option string) : Z := from_option len 0%Z s.

Definition approx_bytes (summary : string) (detail : option string) (event_id : string)
    (session_id : option string) : Z :=
  (64 + len summary + opt_len detail + len event_id + opt_len session_id)%Z.

(** [WHERE workflow_id = ?1] *)
Definition events_of (wf : string) (d : Db) : list EventRow :=
  filter (λ r, er_workflow_id r = wf) (workflow_events d).
Definition outbox_of (wf : string) (d : Db) : list OutboxRow :=
  filter (λ r, ob_workflow_id r = wf) (outbox d).

(** [LIMIT n] *)
Fixpoint limit {A} (n : Z) (l : list A) : list A :=
  match l with
  | [] => []
  | x :: l' => if (n <=? 0)%Z then [] else x :: limit (n - 1) l'
  end.

(** [INSERT INTO workflow_events], with its primary and foreign key. *)
Definition insert_event (row : EventRow) (d : Db) : result (unit * Db) SqliteError :=
  if bool_decide (er_seq_no row ∈ er_seq_no <$> events_of (er_workflow_id row) d)
  then Err ConstraintViolation
  else match workflows d !! er_workflow_id row with
       | None => Err ConstraintViolation
       | Some _ => Ok (tt, set_events (workflow_events d ++ [row]) d)
       end.

(** [INSERT INTO outbox], with its primary key. *)
Definition insert_outbox (row : OutboxRow) (d : Db) : result (unit * Db) SqliteError :=
  if bool_decide (ob_seq_no row ∈ ob_seq_no <$> outbox_of (ob_workflow_id row) d)
  then Err ConstraintViolation
  else Ok (tt, set_outbox (outbox d ++ [row]) d).

(** The walk over the oldest rows that finds the cutoff: the [while let]
    loop of [trim_ring]. *)
Fixpoint trim_walk (rows : list (Z * Z)) (need_events need_bytes : Z)
    (cutoff : option Z) : option Z :=
  match rows with
  | [] => cutoff
  | (seq, row_bytes) :: rows' =>
      if (need_events <=? 0)%Z && (need_bytes <=? 0)%Z then cutoff
      else trim_walk rows' (need_events - 1) (need_bytes - row_bytes) (Some seq)
  end.

(** [DELETE FROM workflow_events WHERE workflow_id AND seq_no <= cutoff];
    the count is [execute]'s result. *)
Definition delete_events (wf : string) (cutoff : Z) (d : Db) : result (Z * Db) SqliteError :=
  let gone := filter (λ r, er_workflow_id r = wf ∧ (er_seq_no r ≤ cutoff)%Z)
                (workflow_events d) in
  Ok (Z.of_nat (length gone),
      set_events (filter (λ r, ¬ (er_workflow_id r = wf ∧ (er_seq_no r ≤ cutoff)%Z))
                    (workflow_events d)) d).

(** [INSERT INTO ring_truncations ... ON CONFLICT DO UPDATE] *)
Definition upsert_truncation (wf : string) (cutoff deleted at_millis : Z) (d : Db) :
    result (unit * Db) SqliteError :=
  let row := match ring_truncations d !! wf with
             | None => mk_truncation_row cutoff deleted at_millis
             | Some old => mk_truncation_row
                 (Z.max (tr_truncated_before_seq old) cutoff)
                 (tr_dropped_count old + deleted) at_millis
             end in
  Ok (tt, set_truncations (<[wf := row]> (ring_truncations d)) d).

Definition trim_ring (wf : string) : StoreM unit :=
  let* (count, bytes) := select (λ d,
    (Z.of_nat (length (events_of wf d)), sumZ (er_approx_bytes <$> events_of wf d))) in
  let excess_events := Z.max (count - MAX_RING_EVENTS) 0 in
  let excess_bytes := Z.max (bytes - MAX_RING_BYTES) 0 in
  if (excess_events =? 0)%Z && (excess_bytes =? 0)%Z then st_ret tt
  else
    let* newest := query (λ d,
      match maxZ (er_seq_no <$> events_of wf d) with
      | Some n => Ok n
      | None => Err InvalidColumnType
      end) in
    let* rows := select (λ d,
      (λ r, (er_seq_no r, er_approx_bytes r)) <$>
        sort_by er_seq_no (filter (λ r, (er_seq_no r < newest)%Z) (events_of wf d))) in
    match trim_walk rows excess_events excess_bytes None with
    | None => st_ret tt
    | Some cutoff =>
        let* deleted := execute (delete_events wf cutoff) in
        let* t := now in
        execute (upsert_truncation wf cutoff deleted t)
    end.

(** The row [append_event] inserts, and the event it returns. *)
Definition event_row (draft : EventDraft) (seq : Z) : EventRow :=
  mk_event_row (dr_workflow_id draft) seq (dr_event_id draft)
    (dr_provider_session_id draft) (event_type_i32 (dr_event_type draft))
    (dr_occurred_at_millis draft) (dr_summary draft) (dr_detail_pointer draft)
    (approx_bytes (dr_summary draft) (dr_detail_pointer draft)
       (dr_event_id draft) (dr_provider_session_id draft)).

Definition appended_event (draft : EventDraft) (seq : Z) : WorkflowEvent :=
  mk_event (dr_event_id draft) (dr_workflow_id draft) (dr_provider_session_id draft)
    (to_u64 seq) (dr_occurred_at_millis draft) (dr_event_type draft)
    (dr_summary draft) (dr_detail_pointer draft).

(** The transaction of [append_event]: event, outbox row and trim together. *)
Definition append_tx (draft : EventDraft) : StoreM Z :=
  transaction (
    let* seq := select (λ d,
      default 0 (maxZ (er_seq_no <$> events_of (dr_workflow_id draft) d)) + 1)%Z in
    let* _ := execute (insert_event (event_row draft seq)) in
    let* t := now in
    let* _ := execute (insert_outbox (mk_outbox_row (dr_workflow_id draft) seq t None)) in
    let* _ := trim_ring (dr_workflow_id draft) in
    st_ret seq).

(** [Storage::append_event] *)
Definition append_event (draft : EventDraft) : StoreM WorkflowEvent :=
  let* found := get_workflow (dr_workflow_id draft) in
  match found with
  | None => st_throw (NotFound ("workflow " +:+ dr_workflow_id draft))
  | Some _ =>
      let* seq := append_tx draft in
      st_ret (appended_event draft seq)
  end.

Definition map_event (r : EventRow) : WorkflowEvent :=
  mk_event (er_event_id r) (er_workflow_id r) (er_provider_session_id r)
    (to_u64 (er_seq_no r)) (er_occurred_at_millis r)
    (default EventUnspecified (event_type_from_i32 (er_type r)))
    (er_summary r) (er_detail_pointer r).

(** [Storage::events_after] *)
Definition events_after (wf : string) (after_seq : Z) (lim : Z) :
    StoreM (list WorkflowEvent) :=
  select (λ d, map_event <$> limit lim
    (sort_by er_seq_no (filter (λ r, (er_seq_no r > after_seq)%Z) (events_of wf d)))).

(** [Storage::ring_stats] *)
Definition ring_stats (wf : string) : StoreM RingStats :=
  let* (count, bytes) := select (λ d,
    (Z.of_nat (length (events_of wf d)), sumZ (er_approx_bytes <$> events_of wf d))) in
  let* (oldest, newest) := select (λ d,
    (minZ (er_seq_no <$> events_of wf d), maxZ (er_seq_no <$> events_of wf d))) in
  let* (truncated, dropped) := select (λ d,
    match ring_truncations d !! wf with
    | Some v => (Some (tr_truncated_before_seq v), tr_dropped_count v)
    | None => (None, 0%Z)
    end) in
  st_ret (mk_ring_stats count bytes oldest newest truncated dropped).

(** [ORDER BY enqueued_at_millis, workflow_id, seq_no] *)
Definition outbox_le (a b : OutboxRow) : Prop :=
  (ob_enqueued_at_millis a < ob_enqueued_at_millis b)%Z ∨
  (ob_enqueued_at_millis a = ob_enqueued_at_millis b ∧
   ((ob_workflow_id a ≠ ob_workflow_id b ∧ String.le (ob_workflow_id a) (ob_workflow_id b)) ∨
    (ob_workflow_id a = ob_workflow_id b ∧ (ob_seq_no a ≤ ob_seq_no b)%Z))).

#[export] Instance outbox_le_dec : RelDecision outbox_le.
Proof. intros a b. unfold outbox_le. apply _. Defined.

Definition unpublished (d : Db) : list OutboxRow :=
  filter (λ r, ob_published_at_millis r = None) (outbox d).

Definition entry_of (r : OutboxRow) : OutboxEntry :=
  mk_outbox_entry (ob_workflow_id r) (ob_seq_no r).

(** [Storage::outbox_drain] *)
Definition outbox_drain (lim : Z) : StoreM (list OutboxEntry) :=
  select (λ d, entry_of <$> limit lim (merge_sort outbox_le (unpublished d))).

Definition publish_row (e : OutboxEntry) (at_millis : Z) (r : OutboxRow) : OutboxRow :=
  if bool_decide (ob_workflow_id r = oe_workflow_id e ∧ ob_seq_no r = oe_seq_no e ∧
                  ob_published_at_millis r = None)
  then mk_outbox_row (ob_workflow_id r) (ob_seq_no r) (ob_enqueued_at_millis r)
         (Some at_millis)
  else r.

(** [UPDATE outbox SET published_at_millis WHERE ...]; the count is
    [execute]'s result. *)
Definition mark_entry (e : OutboxEntry) (at_millis : Z) (d : Db) : result (Z * Db) SqliteError :=
  Ok (Z.of_nat (length (filter (λ r, publish_row e at_millis r ≠ r) (outbox d))),
      set_outbox (publish_row e at_millis <$> outbox d) d).

(** [Storage::outbox_mark_published] *)
Fixpoint mark_loop (entries : list OutboxEntry) (marked : Z) : StoreM Z :=
  match entries with
  | [] => st_ret marked
  | entry :: entries' =>
      let* t := now in
      let* n := execute (mark_entry entry t) in
      mark_loop entries' (marked + n)
  end.
Definition outbox_mark_published (entries : list OutboxEntry) : StoreM Z :=
  mark_loop entries 0.

(** [Storage::outbox_pending_count] *)
Definition outbox_pending_count : StoreM Z :=
  select (λ d, Z.of_nat (length (unpublished d))).
End Ring.

#[export] Instance OutboxEntry_eq_dec : EqDecision OutboxEntry.
Proof. solve_decision. Defined.
#[export] Instance EventDraft_eq_dec : EqDecision EventDraft.
Proof. solve_decision. Defined.
