(* ===== verification/RingFacts.v ===== *)
(** * RingFacts: the event ring keeps its promises

    The reference semantics of trimming ([trim_count]: drop the oldest events
    while either bound is exceeded, never the newest one), the equivalence of
    the single-pass walk with it, the ring invariant [ring_ok], and what
    [append_event], replay and the outbox guarantee on every path, faults
    included. *)

From S2P Require Import Prelude Text Events Schema Storage Ring.

Abbreviation seqs := (fmap er_seq_no).
Abbreviation sizes l := (sumZ (er_approx_bytes <$> l)).

(** ** Reference semantics *)

Definition within_bounds (l : list EventRow) : bool :=
  bool_decide (Z.of_nat (length l) ≤ MAX_RING_EVENTS)%Z &&
  bool_decide (sizes l ≤ MAX_RING_BYTES)%Z.

(** How many of the oldest events go: the fewest that leave the rest within
    both bounds, but never the newest event. *)
Fixpoint trim_count (l : list EventRow) : nat :=
  match l with
  | [] | [_] => 0
  | _ :: l' => if within_bounds l then 0 else S (trim_count l')
  end.

Definition cut (wf : string) (d : Db) : Z :=
  from_option tr_truncated_before_seq 0%Z (ring_truncations d !! wf).
Definition dropped (wf : string) (d : Db) : Z :=
  from_option tr_dropped_count 0%Z (ring_truncations d !! wf).

(** The newest sequence number ever used by the workflow. *)
Definition newest (wf : string) (d : Db) : Z :=
  (cut wf d + Z.of_nat (length (events_of wf d)))%Z.

(** The invariant of one workflow's ring. *)
Record ring_ok (wf : string) (d : Db) : Prop := {
  ring_seqs : seqs (events_of wf d) = seqZ (cut wf d + 1) (Z.of_nat (length (events_of wf d)));
  ring_cut : (0 ≤ cut wf d)%Z;
  ring_dropped : dropped wf d = cut wf d;
  ring_fresh : events_of wf d = [] → cut wf d = 0%Z;
  ring_sizes : Forall (λ r, 0 ≤ er_approx_bytes r)%Z (events_of wf d);
  ring_bounds : within_bounds (events_of wf d) = true ∨ length (events_of wf d) = 1;
  ring_outbox : ob_seq_no <$> outbox_of wf d = seqZ 1 (newest wf d);
}.

(** ** Lists of rows with consecutive sequence numbers *)

Lemma limit_take {A} n (l : list A) : limit n l = take (Z.to_nat n) l.
Proof.
  revert n. induction l as [|x l IH]; intros n; simpl; [by rewrite take_nil|].
  destruct (Z.leb_spec n 0).
  - by replace (Z.to_nat n) with 0 by lia.
  - rewrite IH. by replace (Z.to_nat n) with (S (Z.to_nat (n - 1))) by lia.
Qed.

Section Consecutive.
Context {A : Type} (key : A → Z).

Lemma consecutive_cons a x l :
  key <$> x :: l = seqZ a (Z.of_nat (length (x :: l))) →
  key x = a ∧ key <$> l = seqZ (a + 1) (Z.of_nat (length l)).
Proof.
  cbn [length fmap list_fmap]. rewrite seqZ_cons by lia. intros [= -> H].
  split; [done|]. rewrite H. f_equal; lia.
Qed.

Lemma consecutive_lower a l b :
  key <$> l = seqZ a (Z.of_nat (length l)) →
  filter (λ x, key x < b)%Z l = take (Z.to_nat (b - a)) l.
Proof.
  revert a. induction l as [|x l IH]; intros a H; [by rewrite take_nil|].
  apply consecutive_cons in H as [Hx H]. rewrite filter_cons, (IH _ H).
  destruct (decide (key x < b)%Z).
  - replace (Z.to_nat (b - a)) with (S (Z.to_nat (b - (a + 1)))) by lia. done.
  - replace (Z.to_nat (b - a)) with 0 by lia.
    by replace (Z.to_nat (b - (a + 1))) with 0 by lia.
Qed.

Lemma consecutive_upper a l b :
  key <$> l = seqZ a (Z.of_nat (length l)) →
  filter (λ x, key x > b)%Z l = drop (Z.to_nat (b + 1 - a)) l.
Proof.
  revert a. induction l as [|x l IH]; intros a H; [by rewrite drop_nil|].
  apply consecutive_cons in H as [Hx H]. rewrite filter_cons, (IH _ H).
  destruct (decide (key x > b)%Z).
  - replace (Z.to_nat (b + 1 - a)) with 0 by lia.
    by replace (Z.to_nat (b + 1 - (a + 1))) with 0 by lia.
  - replace (Z.to_nat (b + 1 - a)) with (S (Z.to_nat (b + 1 - (a + 1)))) by lia. done.
Qed.

Lemma consecutive_drop a l k :
  key <$> l = seqZ a (Z.of_nat (length l)) → k ≤ length l →
  key <$> drop k l = seqZ (a + Z.of_nat k) (Z.of_nat (length (drop k l))).
Proof.
  intros H Hk. rewrite fmap_drop, H, seqZ_drop, length_drop. f_equal; lia.
Qed.

Lemma consecutive_lookup a l i x :
  key <$> l = seqZ a (Z.of_nat (length l)) → l !! i = Some x → key x = (a + Z.of_nat i)%Z.
Proof.
  intros H Hi. assert ((key <$> l) !! i = Some (key x)) as Hk by by rewrite list_lookup_fmap, Hi.
  rewrite H in Hk. apply lookup_seqZ in Hk. lia.
Qed.

Lemma consecutive_max a l :
  key <$> l = seqZ a (Z.of_nat (length l)) → l ≠ [] →
  maxZ (key <$> l) = Some (a + Z.of_nat (length l) - 1)%Z.
Proof. intros H Hn. rewrite H. apply maxZ_seqZ. by destruct l. Qed.

Lemma consecutive_sort a l :
  key <$> l = seqZ a (Z.of_nat (length l)) → sort_by key l = l.
Proof. intros H. apply sort_by_id, sorted_of_keys. rewrite H. apply seqZ_sorted. Qed.
End Consecutive.

(** ** The walk computes the reference count *)

Lemma trim_count_lt l : l ≠ [] → trim_count l < length l.
Proof.
  induction l as [|x l IH]; [done|]. intros _. destruct l as [|y l]; [simpl; lia|].
  change (trim_count (x :: y :: l))
    with (if within_bounds (x :: y :: l) then 0 else S (trim_count (y :: l))).
  destruct (within_bounds _); [simpl; lia|]. specialize (IH ltac:(done)). simpl in *. lia.
Qed.

Lemma trim_count_bounds l :
  within_bounds (drop (trim_count l) l) = true ∨ length (drop (trim_count l) l) = 1 ∨ l = [].
Proof.
  induction l as [|x l IH]; [auto|]. destruct l as [|y l]; [auto|].
  change (trim_count (x :: y :: l))
    with (if within_bounds (x :: y :: l) then 0 else S (trim_count (y :: l))).
  destruct (within_bounds (x :: y :: l)) eqn:E; [auto|].
  cbn [drop]. destruct IH as [H|[H|H]]; auto. done.
Qed.

Lemma trim_count_minimal l j :
  j < trim_count l → within_bounds (drop j l) = false.
Proof.
  revert j. induction l as [|x l IH]; intros j; [simpl; lia|].
  destruct l as [|y l]; [simpl; lia|].
  change (trim_count (x :: y :: l))
    with (if within_bounds (x :: y :: l) then 0 else S (trim_count (y :: l))).
  destruct (within_bounds (x :: y :: l)) eqn:E; [lia|].
  destruct j as [|j]; [done|]. intros Hj. apply IH. lia.
Qed.

Abbreviation size_pairs l := ((λ r, (er_seq_no r, er_approx_bytes r)) <$> l).

Lemma within_bounds_iff l :
  within_bounds l = true ↔
  (Z.of_nat (length l) ≤ MAX_RING_EVENTS)%Z ∧ (sizes l ≤ MAX_RING_BYTES)%Z.
Proof. unfold within_bounds. by rewrite andb_true_iff, !bool_decide_eq_true. Qed.

Lemma trim_walk_reference l ne nb c :
  l ≠ [] → Forall (λ r, 0 ≤ er_approx_bytes r)%Z l →
  (ne = Z.of_nat (length l) - MAX_RING_EVENTS ∨
    ne ≤ 0 ∧ Z.of_nat (length l) ≤ MAX_RING_EVENTS)%Z →
  (nb = sizes l - MAX_RING_BYTES ∨ nb ≤ 0 ∧ sizes l ≤ MAX_RING_BYTES)%Z →
  trim_walk (size_pairs (take (length l - 1) l)) ne nb c =
  match trim_count l with 0 => c | S k => er_seq_no <$> l !! k end.
Proof.
  revert ne nb c. induction l as [|x l IH]; intros ne nb c; [done|].
  intros _ Hpos Hne Hnb. destruct l as [|y l]; [done|].
  change (trim_count (x :: y :: l))
    with (if within_bounds (x :: y :: l) then 0 else S (trim_count (y :: l))).
  replace (length (x :: y :: l) - 1) with (S (length (y :: l) - 1)) by (simpl; lia).
  cbn [take fmap list_fmap trim_walk].
  assert (0 ≤ er_approx_bytes x)%Z as Hx by (by inversion Hpos).
  assert (sizes (x :: y :: l) = er_approx_bytes x + sizes (y :: l))%Z as Hsz by done.
  assert (length (x :: y :: l) = S (length (y :: l))) as Hlen by done.
  destruct (within_bounds (x :: y :: l)) eqn:E.
  - apply within_bounds_iff in E as [E1 E2].
    by rewrite (proj2 (Z.leb_le ne 0)), (proj2 (Z.leb_le nb 0)) by lia.
  - assert (((ne <=? 0)%Z && (nb <=? 0)%Z) = false) as ->.
    { apply not_true_iff_false. rewrite andb_true_iff, !Z.leb_le. intros [??].
      apply not_true_iff_false in E. apply E, within_bounds_iff. lia. }
    rewrite IH; [|done|by inversion Hpos|lia..].
    pose proof (trim_count_lt (y :: l) ltac:(done)) as Hlt.
    destruct (trim_count (y :: l)) as [|k] eqn:Ek; [done|]. done.
Qed.

(** ** Effect of the statements *)

Section RingEffects.
Context {env : Env}.

(** Everything but the ring tables is the same. *)
Definition same_but_ring (d d' : Db) : Prop :=
  schema_migrations d' = schema_migrations d ∧ schema d' = schema d ∧
  workflows d' = workflows d ∧ session_bindings d' = session_bindings d ∧
  pending_requests d' = pending_requests d.

(** The rings of the other workflows are the same. *)
Definition other_rings (wf : string) (d d' : Db) : Prop :=
  ∀ wf', wf' ≠ wf → events_of wf' d' = events_of wf' d ∧
    outbox_of wf' d' = outbox_of wf' d ∧
    ring_truncations d' !! wf' = ring_truncations d !! wf'.

Lemma other_rings_refl wf d : other_rings wf d d.
Proof. done. Qed.

Lemma other_rings_trans wf d1 d2 d3 :
  other_rings wf d1 d2 → other_rings wf d2 d3 → other_rings wf d1 d3.
Proof.
  intros H1 H2 wf' Hne. destruct (H1 wf' Hne) as (?&?&?), (H2 wf' Hne) as (?&?&?).
  split_and!; congruence.
Qed.

(** [d'] is [d] with the [k] oldest events of [wf] trimmed and the cut
    recorded. *)
Record trimmed (wf : string) (k : nat) (d d' : Db) : Prop := {
  trimmed_events : events_of wf d' = drop k (events_of wf d);
  trimmed_cut : cut wf d' = (cut wf d + Z.of_nat k)%Z;
  trimmed_dropped : dropped wf d' = (dropped wf d + Z.of_nat k)%Z;
  trimmed_outbox : outbox d' = outbox d;
  trimmed_rest : same_but_ring d d';
  trimmed_others : other_rings wf d d';
}.

Lemma trimmed_0 wf d : trimmed wf 0 d d.
Proof.
  split; first [done | lia | by unfold same_but_ring].
Qed.

Lemma events_of_delete wf cutoff d n d' :
  delete_events wf cutoff d = Ok (n, d') →
  n = Z.of_nat (length (filter (λ r, er_seq_no r ≤ cutoff)%Z (events_of wf d))) ∧
  events_of wf d' = filter (λ r, er_seq_no r > cutoff)%Z (events_of wf d) ∧
  (∀ wf', wf' ≠ wf → events_of wf' d' = events_of wf' d).
Proof.
  unfold delete_events, events_of. intros [= <- <-]. cbn. split_and!.
  - do 2 f_equal. rewrite list_filter_filter. apply list_filter_iff. intros r. tauto.
  - rewrite !list_filter_filter. apply list_filter_iff. intros r. intuition lia.
  - intros wf' Hne. apply list_filter_filter_l. intros r -> [? _]. done.
Qed.

Lemma filter_le_lt (l : list EventRow) c :
  filter (λ r, er_seq_no r ≤ c)%Z l = filter (λ r, er_seq_no r < c + 1)%Z l.
Proof. apply list_filter_iff. intros r. lia. Qed.

(** Deleting up to the [k]-th kept event and recording it trims [k] events. *)
Lemma trimmed_delete wf k d n d1 t d2 :
  seqs (events_of wf d) = seqZ (cut wf d + 1) (Z.of_nat (length (events_of wf d))) →
  0 < k ≤ length (events_of wf d) →
  delete_events wf (cut wf d + Z.of_nat k) d = Ok (n, d1) →
  upsert_truncation wf (cut wf d + Z.of_nat k) n t d1 = Ok (tt, d2) →
  trimmed wf k d d2.
Proof.
  intros Hseq Hk Hdel Hup. pose proof (events_of_delete _ _ _ _ _ Hdel) as (Hn & Hev & Hoth).
  rewrite filter_le_lt, (consecutive_lower _ _ _ _ Hseq) in Hn.
  rewrite (consecutive_upper _ _ _ _ Hseq) in Hev.
  replace (Z.to_nat (cut wf d + Z.of_nat k + 1 - (cut wf d + 1))) with k in * by lia.
  rewrite length_take, Nat.min_l in Hn by lia. subst n.
  unfold delete_events in Hdel. injection Hdel as _ <-.
  unfold upsert_truncation in Hup. cbn in Hup. injection Hup as <-.
  split.
  - done.
  - unfold cut. cbn. rewrite lookup_insert_eq. destruct (ring_truncations d !! wf) eqn:E; cbn; lia.
  - unfold dropped. cbn. rewrite lookup_insert_eq.
    destruct (ring_truncations d !! wf) eqn:E; cbn; lia.
  - done.
  - unfold same_but_ring. auto.
  - intros wf' Hne. split_and!; [by apply Hoth|done|]. cbn. by rewrite lookup_insert_ne.
Qed.

Lemma wp_trim_ring wf l Q w :
  events_of wf (db w) = l →
  seqs l = seqZ (cut wf (db w) + 1) (Z.of_nat (length l)) → l ≠ [] →
  Forall (λ r, 0 ≤ er_approx_bytes r)%Z l →
  (∀ e w', db_error (db w) e → Q (Err e) w') →
  (∀ w', trimmed wf (trim_count l) (db w) (db w') → Q (Ok tt) w') →
  wp (trim_ring wf) Q w.
Proof.
  intros Hl Hseq Hne Hpos He Hok. unfold trim_ring.
  sql_step. sql_step; [by apply He|]. rewrite Hl.
  destruct ((_ =? 0)%Z && _) eqn:Ew.
  { apply wp_ret, Hok. rewrite Hw.
    apply andb_true_iff in Ew as [E1%Z.eqb_eq E2%Z.eqb_eq].
    assert (within_bounds l = true) as Hb by (apply within_bounds_iff; lia).
    assert (trim_count l = 0) as ->; [|apply trimmed_0].
    destruct l as [|x [|y l']]; [done..|]. cbn -[within_bounds]. by rewrite Hb. }
  rewrite <-Hw in *. clear Hw. sql_step. sql_step; [by apply He|..];
    rewrite Hl, (consecutive_max _ _ _ Hseq Hne) in Ha; [done|]. injection Ha as <-.
  rewrite <-Hw in *. clear Hw. sql_step. sql_step; [by apply He|].
  rewrite Hl, (consecutive_lower _ _ _ _ Hseq).
  replace (Z.to_nat _) with (length l - 1) by lia.
  assert (seqs (take (length l - 1) l) =
    seqZ (cut wf (db w1) + 1) (Z.of_nat (length (take (length l - 1) l)))) as Hseq1.
  { rewrite fmap_take, Hseq, length_take, Nat.min_l by lia. apply seqZ_take. lia. }
  rewrite (consecutive_sort _ _ _ Hseq1), trim_walk_reference; [|done|done|lia..].
  pose proof (trim_count_lt l Hne) as Hlt. rewrite <-Hw in *. clear Hw.
  destruct (trim_count l) as [|k] eqn:Ek; [apply wp_ret, Hok, trimmed_0|].
  destruct (lookup_lt_is_Some_2 l k ltac:(lia)) as [r Hr]. rewrite Hr.
  cbn [fmap option_fmap option_map]. rewrite (consecutive_lookup _ _ _ _ _ Hseq Hr).
  replace (cut wf (db w2) + 1 + Z.of_nat k)%Z with (cut wf (db w2) + Z.of_nat (S k))%Z by lia.
  sql_step. sql_step; [by apply He|done|]. sql_step. sql_step.
  assert (schema d = true) as Hsd by by injection Ha as _ <-.
  sql_step; [|done|].
  - apply He. eapply db_error_schema; [|done]. congruence.
  - rewrite Hw0, Hw in Ha0. destruct a0. apply Hok. rewrite Hw1.
    eapply trimmed_delete; [by rewrite Hl| |exact Ha|exact Ha0]. rewrite Hl. lia.
Qed.

(** [d'] is [d] after appending [draft]: the new row takes the next sequence
    number, the ring is trimmed by the reference count, and the outbox gains
    exactly one unpublished row. *)
Record appended (draft : EventDraft) (seq : Z) (d d' : Db) : Prop := {
  appended_seq : seq = (newest (dr_workflow_id draft) d + 1)%Z;
  appended_events :
    let l := events_of (dr_workflow_id draft) d ++ [event_row draft seq] in
    events_of (dr_workflow_id draft) d' = drop (trim_count l) l;
  appended_cut :
    let l := events_of (dr_workflow_id draft) d ++ [event_row draft seq] in
    cut (dr_workflow_id draft) d' =
      (cut (dr_workflow_id draft) d + Z.of_nat (trim_count l))%Z;
  appended_dropped :
    let l := events_of (dr_workflow_id draft) d ++ [event_row draft seq] in
    dropped (dr_workflow_id draft) d' =
      (dropped (dr_workflow_id draft) d + Z.of_nat (trim_count l))%Z;
  appended_outbox :
    ∃ t, outbox d' = outbox d ++ [mk_outbox_row (dr_workflow_id draft) seq t None];
  appended_rest : same_but_ring d d';
  appended_others : other_rings (dr_workflow_id draft) d d';
}.

Lemma approx_bytes_pos a b c e : (0 ≤ approx_bytes a b c e)%Z.
Proof. unfold approx_bytes, opt_len, len. destruct b, e; cbn; lia. Qed.

Lemma events_of_snoc wf row d :
  events_of wf (set_events (workflow_events d ++ [row]) d) =
  if bool_decide (er_workflow_id row = wf) then events_of wf d ++ [row] else events_of wf d.
Proof.
  unfold events_of. cbn. rewrite filter_app, filter_cons, filter_nil.
  case_bool_decide; case_decide; try done. by rewrite app_nil_r.
Qed.

Lemma outbox_of_snoc wf row d :
  outbox_of wf (set_outbox (outbox d ++ [row]) d) =
  if bool_decide (ob_workflow_id row = wf) then outbox_of wf d ++ [row] else outbox_of wf d.
Proof.
  unfold outbox_of. cbn. rewrite filter_app, filter_cons, filter_nil.
  case_bool_decide; case_decide; try done. by rewrite app_nil_r.
Qed.

Lemma newest_nonneg wf d : ring_ok wf d → (0 ≤ newest wf d)%Z.
Proof. intros []. unfold newest. lia. Qed.

(** The sequence number the transaction picks. *)
Lemma next_seq wf d :
  ring_ok wf d → (default 0 (maxZ (seqs (events_of wf d))) + 1 = newest wf d + 1)%Z.
Proof.
  intros Hok. unfold newest. destruct (events_of wf d) as [|r l] eqn:E.
  - cbn. rewrite (ring_fresh _ _ Hok); [lia|done].
  - rewrite <-E, (consecutive_max _ _ _ (ring_seqs _ _ Hok)) by congruence. cbn. lia.
Qed.

(** The ring with the new row, before trimming. *)
Lemma snoc_seqs draft d :
  let wf := dr_workflow_id draft in
  let l := events_of wf d ++ [event_row draft (newest wf d + 1)] in
  ring_ok wf d →
  seqs l = seqZ (cut wf d + 1) (Z.of_nat (length l)) ∧ l ≠ [] ∧
  Forall (λ r, 0 ≤ er_approx_bytes r)%Z l.
Proof.
  intros wf l Hr. unfold l. split_and!.
  - rewrite fmap_app, length_app, (ring_seqs _ _ Hr). cbn.
    rewrite Nat2Z.inj_add, <-seqZ_snoc. do 2 f_equal. unfold newest. lia.
  - by destruct (events_of wf d).
  - apply Forall_app. split; [apply (ring_sizes _ _ Hr)|].
    constructor; [apply approx_bytes_pos|constructor].
Qed.

Lemma insert_event_fresh draft d :
  let wf := dr_workflow_id draft in
  let row := event_row draft (newest wf d + 1) in
  ring_ok wf d → is_Some (workflows d !! wf) →
  insert_event row d = Ok (tt, set_events (workflow_events d ++ [row]) d).
Proof.
  intros wf row Hr [r Hwf]. unfold insert_event. cbn. fold wf. rewrite Hwf.
  rewrite bool_decide_eq_false_2; [done|].
  rewrite (ring_seqs _ _ Hr), elem_of_seqZ_iff. unfold newest. lia.
Qed.

Lemma insert_outbox_fresh wf t d :
  ring_ok wf d →
  let row := mk_outbox_row wf (newest wf d + 1) t None in
  insert_outbox row d = Ok (tt, set_outbox (outbox d ++ [row]) d).
Proof.
  intros Hr row. unfold insert_outbox. cbn.
  rewrite bool_decide_eq_false_2; [done|].
  rewrite (ring_outbox _ _ Hr), elem_of_seqZ_iff. lia.
Qed.

(** The database between the inserts and the trim. *)
Definition inserted (draft : EventDraft) (seq t : Z) (d : Db) : Db :=
  set_outbox (outbox d ++ [mk_outbox_row (dr_workflow_id draft) seq t None])
    (set_events (workflow_events d ++ [event_row draft seq]) d).

Lemma events_of_inserted draft seq t d wf :
  events_of wf (inserted draft seq t d) =
  if bool_decide (dr_workflow_id draft = wf)
  then events_of wf d ++ [event_row draft seq] else events_of wf d.
Proof. apply (events_of_snoc wf (event_row draft seq) d). Qed.

Lemma outbox_of_inserted draft seq t d wf :
  outbox_of wf (inserted draft seq t d) =
  if bool_decide (dr_workflow_id draft = wf)
  then outbox_of wf d ++ [mk_outbox_row wf seq t None] else outbox_of wf d.
Proof.
  pose proof (outbox_of_snoc wf (mk_outbox_row (dr_workflow_id draft) seq t None) d) as H.
  unfold outbox_of in *. cbn in *. rewrite H. by case_bool_decide; subst.
Qed.

Lemma inserted_trimmed draft t d d' :
  let wf := dr_workflow_id draft in
  let seq := (newest wf d + 1)%Z in
  trimmed wf (trim_count (events_of wf d ++ [event_row draft seq]))
    (inserted draft seq t d) d' →
  appended draft seq d d'.
Proof.
  intros wf seq [T1 T2 T3 T4 T5 T6]. rewrite events_of_inserted in T1.
  rewrite bool_decide_eq_true_2 in T1 by done.
  split; cbn; fold wf; [done|exact T1|exact T2|exact T3|by exists t|exact T5|].
  intros wf' Hne. destruct (T6 wf' Hne) as (E1 & E2 & E3).
  rewrite E1, E2, E3, events_of_inserted, outbox_of_inserted.
  by rewrite bool_decide_eq_false_2.
Qed.

(** What [append_tx] and [append_event] do to the database, on every path. *)
Lemma wp_append_tx draft Q w :
  ring_ok (dr_workflow_id draft) (db w) → is_Some (workflows (db w) !! dr_workflow_id draft) →
  (∀ e w', db w' = db w → db_error (db w) e → Q (Err e) w') →
  (∀ seq w', appended draft seq (db w) (db w') → Q (Ok seq) w') →
  wp (append_tx draft) Q w.
Proof.
  intros Hr Hwf He Hok. unfold append_tx.
  apply wp_transaction; [auto using db_error_faulted|]. intros w1 Hw1.
  sql_step. sql_step; [intros; apply He; [done|congruence]|].
  rewrite <-Hw1, <-Hw in *. clear Hw Hw1. rewrite (next_seq _ _ Hr).
  pose proof (insert_event_fresh draft _ Hr Hwf) as Hev. cbn zeta in Hev.
  pose proof (λ t, insert_outbox_fresh _ t _ Hr) as Hob. cbn zeta in Hob.
  set (wf := dr_workflow_id draft) in *. set (seq := (newest wf (db w0) + 1)%Z) in *.
  sql_step. sql_step; [intros; by apply He|..]; rewrite Hev in Ha; [done|].
  injection Ha as _ <-. do 3 sql_step.
  sql_step; [intros; apply He; [done|]; eapply db_error_schema; [|done]; by rewrite Hw0, Hw|..];
    rewrite Hw0, Hw in Ha; specialize (Hob t); unfold insert_outbox in Ha, Hob;
    cbn in Ha, Hob; destruct (bool_decide _) in Ha, Hob; try done.
  injection Ha as _ <-. change (db w4 = inserted draft seq t (db w0)) in Hw1.
  pose proof (snoc_seqs draft _ Hr) as (Hseq & Hne & Hpos). fold wf seq in Hseq, Hne, Hpos.
  sql_step. eapply wp_trim_ring; rewrite ?Hw1; [|done..| |].
  - rewrite events_of_inserted, bool_decide_eq_true_2 by done. done.
  - intros e w' Hd w3' Hw3'. apply He; [done|]. by eapply db_error_schema; [|done].
  - intros w6 T. apply wp_ret. intros w7 Hw7. apply Hok. rewrite Hw7.
    by eapply inserted_trimmed.
Qed.

Lemma wp_append_event draft Q w :
  ring_ok (dr_workflow_id draft) (db w) →
  (∀ e w', db w' = db w →
     db_error (db w) e ∨
     (workflows (db w) !! dr_workflow_id draft = None ∧
      e = NotFound ("workflow " +:+ dr_workflow_id draft)) → Q (Err e) w') →
  (∀ seq w', is_Some (workflows (db w) !! dr_workflow_id draft) →
     appended draft seq (db w) (db w') → Q (Ok (appended_event draft seq)) w') →
  wp (append_event draft) Q w.
Proof.
  intros Hr He Hok. unfold append_event. apply wp_bind, wp_get_workflow; [auto|].
  intros w1 _ Hw1. destruct (workflows (db w) !! _) eqn:Hwf; [|apply wp_throw; auto].
  apply wp_bind, wp_append_tx; rewrite ?Hw1; [done|by rewrite Hwf|..].
  - intros e w' Hw' Hd. apply He; auto.
  - intros seq w' Ha. apply wp_ret. eauto.
Qed.

Lemma appended_newest draft seq d d' :
  ring_ok (dr_workflow_id draft) d → appended draft seq d d' →
  newest (dr_workflow_id draft) d' = seq.
Proof.
  intros Hr [A1 A2 A3 _ _ _ _]. cbn in A2, A3. pose proof (snoc_seqs draft d Hr) as (_ & Hne & _).
  rewrite <-A1 in Hne. apply trim_count_lt in Hne. unfold newest in *.
  rewrite A2, A3, length_drop. rewrite length_app in *. cbn in *. lia.
Qed.

(** The invariant survives an append. *)
Lemma appended_ring_ok draft seq d d' wf :
  ring_ok wf d → appended draft seq d d' → ring_ok wf d'.
Proof.
  intros Hr Ha. pose proof Ha as [A1 A2 A3 A4 [t A5] A6 A7].
  destruct (decide (wf = dr_workflow_id draft)) as [->|Hne]; cycle 1.
  { destruct (A7 wf Hne) as (E1 & E2 & E3). destruct Hr.
    split; unfold newest, cut, dropped in *; by rewrite ?E1, ?E2, ?E3. }
  pose proof (appended_newest draft seq d d' Hr Ha) as Hnew.
  set (wf := dr_workflow_id draft) in *. cbn in A2, A3, A4.
  set (l := events_of wf d ++ [event_row draft seq]) in *.
  pose proof (snoc_seqs draft d Hr) as (Hseq & Hne & Hpos).
  fold wf in Hseq, Hne, Hpos. rewrite <-A1 in Hseq, Hne, Hpos. fold l in Hseq, Hne, Hpos.
  pose proof (trim_count_lt l Hne) as Hlt.
  pose proof (ring_cut _ _ Hr) as Hc.
  split.
  - rewrite A2, A3, (consecutive_drop _ _ _ _ Hseq) by lia. f_equal; lia.
  - lia.
  - rewrite A4, A3, (ring_dropped _ _ Hr). done.
  - rewrite A2. intros E. apply (f_equal length) in E. rewrite length_drop in E. simpl in E. lia.
  - rewrite A2. by apply Forall_drop.
  - rewrite A2. destruct (trim_count_bounds l) as [H|[H|H]]; auto.
  - rewrite Hnew. pose proof (outbox_of_snoc wf (mk_outbox_row wf seq t None) d) as H.
    rewrite bool_decide_eq_true_2 in H by done.
    unfold outbox_of in *. cbn in H. rewrite A5, H, fmap_app. cbn.
    pose proof (ring_outbox _ _ Hr) as Ho. unfold outbox_of in Ho. rewrite Ho, A1.
    pose proof (newest_nonneg wf d Hr).
    replace (newest wf d) with (Z.of_nat (Z.to_nat (newest wf d))) by lia.
    rewrite <-seqZ_snoc. do 2 f_equal. lia.
Qed.
End RingEffects.

Lemma append_event_ring_ok {env : Env} draft w :
  (∀ wf, ring_ok wf (db w)) → ∀ wf, ring_ok wf (db (append_event draft w).2).
Proof.
  intros Hall wf. apply (wp_run _ (λ _ w', ring_ok wf (db w'))).
  apply wp_append_event; [done|by intros ? ? -> _|].
  intros. by eapply appended_ring_ok.
Qed.

(** A row comes out of the ring with its own number. *)
Lemma ring_seq wf d r :
  ring_ok wf d → r ∈ events_of wf d → (cut wf d < er_seq_no r ≤ newest wf d)%Z.
Proof.
  intros Hr [i Hi]%list_elem_of_lookup. pose proof (consecutive_lookup _ _ _ _ _ (ring_seqs _ _ Hr) Hi) as ->.
  apply lookup_lt_Some in Hi. unfold newest. lia.
Qed.

Lemma ring_seq_inj wf d r r' :
  ring_ok wf d → r ∈ events_of wf d → r' ∈ events_of wf d → er_seq_no r = er_seq_no r' → r = r'.
Proof.
  intros Hr [i Hi]%list_elem_of_lookup [j Hj]%list_elem_of_lookup E.
  pose proof (consecutive_lookup _ _ _ _ _ (ring_seqs _ _ Hr) Hi).
  pose proof (consecutive_lookup _ _ _ _ _ (ring_seqs _ _ Hr) Hj).
  assert (i = j) as -> by lia. congruence.
Qed.

Lemma map_event_seq wf d r :
  ring_ok wf d → (newest wf d ≤ i64_max)%Z → r ∈ events_of wf d →
  to_i64 (seq_no (map_event r)) = er_seq_no r ∧ seq_no (map_event r) = er_seq_no r.
Proof.
  intros Hr Hn Hin. pose proof (ring_seq _ _ _ Hr Hin). pose proof (ring_cut _ _ Hr). unfold i64_max in Hn.
  cbn. assert (to_u64 (er_seq_no r) = er_seq_no r) as ->.
  { unfold to_u64. apply Z.mod_small. lia. }
  split; [|done]. apply to_i64_id. unfold in_i64. lia.
Qed.

Lemma seqs_of_rows wf d (l : list EventRow) :
  ring_ok wf d → (newest wf d ≤ i64_max)%Z → (∀ r, r ∈ l → r ∈ events_of wf d) →
  seq_no <$> (map_event <$> l) = er_seq_no <$> l.
Proof.
  intros Hr Hn Hl. rewrite <-list_fmap_compose. apply list_fmap_ext. intros i r Hi.
  eapply map_event_seq; [done|done|]. by eapply Hl, list_elem_of_lookup_2.
Qed.

(** With no faults, a migrated store and a known workflow, an append succeeds. *)
Lemma append_event_succeeds {env : Env} `{!NoFaults env} draft w :
  ring_ok (dr_workflow_id draft) (db w) → schema (db w) = true →
  is_Some (workflows (db w) !! dr_workflow_id draft) →
  ∃ ev w', append_event draft w = (Ok ev, w').
Proof.
  intros Hr Hs [row Hwf].
  assert (wp (append_event draft) (λ r _, ∃ ev, r = Ok ev) w) as H.
  { apply wp_append_event; [done| |eauto].
    intros e w' _ [Hd|[Hn _]]; [by apply no_faults_db_error in Hd|congruence]. }
  unfold wp in H. destruct (append_event draft w) as [r w'].
  destruct H as [ev ->]. eauto.
Qed.

(** ** A concrete store

    One workflow with three appended events: used to apply the theorems. *)
Section Sample.
Definition sample_row : WorkflowRow :=
  mk_workflow_row "wf-1" (provider_i32 Generic) (state_i32 Running) "build" None 1000 1000.
Definition sample_db : Db :=
  mk_db (Some [("0001_init", 999%Z)]) true {["wf-1" := sample_row]} [] [] ∅ ∅ ∅.
Definition sample_draft (n : Z) : EventDraft :=
  mk_draft "wf-1" ("ev-" +:+ dec n) None (1000 + n) CommandStarted "tick" None.
Definition sample_env : Env := steady_env 1000 7.
Definition sample_world : World := mk_world sample_db 0 0.
(** The store after three appends. *)
Definition sample_world3 : World :=
  runs (λ dr w, (append_event (env:=sample_env) dr w).2)
    [sample_draft 1; sample_draft 2; sample_draft 3] sample_world.

Lemma ring_ok_absent wf d :
  events_of wf d = [] → outbox_of wf d = [] → ring_truncations d !! wf = None →
  ring_ok wf d.
Proof.
  intros He Ho Ht. split; unfold newest, cut, dropped; rewrite ?He, ?Ho, ?Ht; auto; done.
Qed.

Lemma sample_ring_ok wf : ring_ok wf (db sample_world).
Proof. by apply ring_ok_absent. Qed.

Lemma sample3_ring_ok wf : ring_ok wf (db sample_world3).
Proof.
  revert wf. apply (runs_inv _ (λ w, ∀ wf, ring_ok wf (db w))); [|apply sample_ring_ok].
  intros dr w Hall wf. by apply append_event_ring_ok.
Qed.
End Sample.

(** ** Theorems *)

Section RingTheorems.
Context {env : Env}.

(** C1: [append_event] is atomic and keeps every ring well formed.  On
    success the event has the next sequence number, the ring is the old ring
    with the event added and trimmed by the reference rule, and the outbox
    has exactly one new unpublished row, for this event.  On any failure,
    a fault in the middle of the transaction included, the database is
    unchanged and the error is the engine's or [NotFound]. *)
Theorem append_event_atomic (draft : EventDraft) (w : World) :
  (∀ wf, ring_ok wf (db w)) →
  match append_event draft w with
  | (Ok ev, w') =>
      let seq := (newest (dr_workflow_id draft) (db w) + 1)%Z in
      ev = appended_event draft seq ∧ appended draft seq (db w) (db w') ∧
      ∀ wf, ring_ok wf (db w')
  | (Err e, w') =>
      db w' = db w ∧
      (db_error (db w) e ∨
       (workflows (db w) !! dr_workflow_id draft = None ∧
        e = NotFound ("workflow " +:+ dr_workflow_id draft)))
  end.
Proof.
  intros Hall. to_wp. apply wp_append_event; [done|auto|].
  intros seq w' _ Ha. pose proof (appended_seq _ _ _ _ Ha) as Hs. cbn. rewrite <-Hs.
  split_and!; [done..|]. intros wf. by eapply appended_ring_ok.
Qed.

(** C2: trimming keeps the bounds and is minimal.  After a successful append
    the ring is within 5000 events and 10 MiB, or holds the newest event
    alone; the newest event is the one just appended; and keeping even one
    more of the dropped events would have exceeded a bound. *)
Theorem append_trims_minimally (draft : EventDraft) (w w' : World) (ev : WorkflowEvent) :
  (∀ wf, ring_ok wf (db w)) → append_event draft w = (Ok ev, w') →
  let wf := dr_workflow_id draft in
  let full := events_of wf (db w) ++ [event_row draft (newest wf (db w) + 1)] in
  ∃ k, events_of wf (db w') = drop k full ∧
    (within_bounds (events_of wf (db w')) = true ∨ length (events_of wf (db w')) = 1) ∧
    last (events_of wf (db w')) = Some (event_row draft (newest wf (db w) + 1)) ∧
    (∀ j, j < k → within_bounds (drop j full) = false) ∧
    cut wf (db w') = (cut wf (db w) + Z.of_nat k)%Z.
Proof.
  intros Hall Hrun wf full.
  assert (full ≠ []) as Hne by (unfold full; by destruct (events_of wf (db w))).
  pose proof (trim_count_lt full Hne) as Hlt.
  assert (appended draft (newest wf (db w) + 1) (db w) (db w')) as [_ He Hc _ _ _ _].
  { eapply (wp_eq _ (λ r w', is_ok r = true →
      appended draft (newest wf (db w) + 1) (db w) (db w'))%Z);
      [exact Hrun| |done].
    apply wp_append_event; [done|done|]. intros seq w1 _ Ha _.
    unfold wf. by rewrite <-(appended_seq _ _ _ _ Ha). }
  fold wf in He, Hc. cbn in He, Hc.
  fold full in He, Hc. exists (trim_count full). split_and!; [done|..|done].
  - rewrite He. destruct (trim_count_bounds full) as [H|[H|H]]; auto.
  - rewrite He. unfold full in *. rewrite length_app in Hlt. cbn in Hlt.
    rewrite drop_app_le by lia. apply last_snoc.
  - apply trim_count_minimal.
Qed.

(** Replay is exact.  [events_after] returns, in sequence order, the
    first [lim] kept events after the cursor; nothing after the cursor is
    skipped except what was trimmed, and the database is not touched. *)
Theorem events_after_spec (wf : string) (after_seq lim : Z) (w : World) :
  ring_ok wf (db w) →
  match events_after wf after_seq lim w with
  | (Ok evs, w') =>
      db w' = db w ∧
      let from := Z.to_nat (after_seq - cut wf (db w)) in
      evs = map_event <$> take (Z.to_nat lim) (drop from (events_of wf (db w))) ∧
      ∀ i r, take (Z.to_nat lim) (drop from (events_of wf (db w))) !! i = Some r →
        er_seq_no r = (Z.max after_seq (cut wf (db w)) + 1 + Z.of_nat i)%Z
  | (Err e, w') => db w' = db w ∧ db_error (db w) e
  end.
Proof.
  intros Hr. to_wp. unfold events_after. sql_step; [by auto|].
  pose proof (ring_seqs _ _ Hr) as Hseq. pose proof (ring_cut _ _ Hr) as Hc.
  rewrite (consecutive_upper _ _ _ _ Hseq).
  replace (Z.to_nat (after_seq + 1 - (cut wf (db w) + 1)))
    with (Z.to_nat (after_seq - cut wf (db w))) by lia.
  set (from := Z.to_nat (after_seq - cut wf (db w))).
  set (l := events_of wf (db w)) in *.
  assert (seqs (drop from l) = seqZ (cut wf (db w) + 1 + Z.of_nat from)
    (Z.of_nat (length (drop from l)))) as Hd.
  { destruct (decide (from ≤ length l)); [by apply consecutive_drop|].
    rewrite drop_ge by lia. done. }
  rewrite (consecutive_sort _ _ _ Hd), limit_take. split_and!; [done..|].
  intros i r Hi. apply lookup_take_Some in Hi as [Hi _].
  rewrite (consecutive_lookup _ _ _ _ _ Hd Hi). unfold from. lia.
Qed.
End RingTheorems.

(** ** Witnesses *)

Lemma append_event_atomic_witness :
  (∀ wf, ring_ok wf (db sample_world3)) ∧
  match append_event (env:=sample_env) (sample_draft 4) sample_world3 with
  | (Ok ev, w') =>
      let seq := (newest "wf-1" (db sample_world3) + 1)%Z in
      ev = appended_event (sample_draft 4) seq ∧
      appended (sample_draft 4) seq (db sample_world3) (db w') ∧ ∀ wf, ring_ok wf (db w')
  | (Err e, w') =>
      db w' = db sample_world3 ∧
      (db_error (env:=sample_env) (db sample_world3) e ∨
       (workflows (db sample_world3) !! "wf-1" = None ∧ e = NotFound "workflow wf-1"))
  end.
Proof.
  split; [exact sample3_ring_ok|].
  exact (append_event_atomic (env:=sample_env) (sample_draft 4) sample_world3 sample3_ring_ok).
Defined.

Lemma append_trims_minimally_witness :
  ∃ ev w', append_event (env:=sample_env) (sample_draft 4) sample_world = (Ok ev, w') ∧
    ∃ k, events_of "wf-1" (db w') =
           drop k [event_row (sample_draft 4) (newest "wf-1" sample_db + 1)] ∧
      (within_bounds (events_of "wf-1" (db w')) = true ∨
       length (events_of "wf-1" (db w')) = 1).
Proof.
  destruct (append_event_succeeds (env:=sample_env) (sample_draft 4) sample_world)
    as (ev & w' & Hrun); [apply sample_ring_ok|done|by eexists|].
  exists ev, w'. split; [exact Hrun|].
  destruct (append_trims_minimally (env:=sample_env) (sample_draft 4) sample_world w' ev
    sample_ring_ok Hrun) as (k & H1 & H2 & _).
  exists k. split; [exact H1|exact H2].
Defined.

Lemma events_after_spec_witness :
  ring_ok "wf-1" (db sample_world3) ∧
  match events_after (env:=sample_env) "wf-1" 1 10 sample_world3 with
  | (Ok evs, w') =>
      db w' = db sample_world3 ∧
      let from := Z.to_nat (1 - cut "wf-1" (db sample_world3)) in
      evs = map_event <$> take (Z.to_nat 10) (drop from (events_of "wf-1" (db sample_world3))) ∧
      ∀ i r, take (Z.to_nat 10) (drop from (events_of "wf-1" (db sample_world3))) !! i = Some r →
        er_seq_no r = (Z.max 1 (cut "wf-1" (db sample_world3)) + 1 + Z.of_nat i)%Z
  | (Err e, w') => db w' = db sample_world3 ∧ db_error (env:=sample_env) (db sample_world3) e
  end.
Proof.
  split; [apply sample3_ring_ok|].
  exact (events_after_spec (env:=sample_env) "wf-1" 1 10 sample_world3 (sample3_ring_ok "wf-1")).
Defined.
