(* ===== verification/OutboxFacts.v ===== *)
(** * OutboxFacts: at-least-once hand-out of the outbox

    [outbox_drain] hands out the oldest unpublished entries without marking
    them; [outbox_mark_published] marks exactly the entries it is given, once.
    A fault between or inside the two calls can only leave entries unpublished,
    so they are handed out again. *)

From S2P Require Import Prelude Text Events Schema Storage Ring RingFacts.

(** What marking may do to one outbox row: nothing, unless the row is listed
    and not yet published. *)
Definition may_publish (es : list OutboxEntry) (r r' : OutboxRow) : Prop :=
  r' = r ∨
  (entry_of r ∈ es ∧ ob_published_at_millis r = None ∧
   ∃ t, r' = mk_outbox_row (ob_workflow_id r) (ob_seq_no r) (ob_enqueued_at_millis r) (Some t)).

#[export] Instance outbox_le_total : Total outbox_le.
Proof.
  intros a b. unfold outbox_le.
  destruct (Z.lt_trichotomy (ob_enqueued_at_millis a) (ob_enqueued_at_millis b)) as [?|[He|?]];
    [auto| |auto]. rewrite He.
  destruct (decide (ob_workflow_id a = ob_workflow_id b)) as [Hw|Hw].
  - rewrite Hw. destruct (Z.le_ge_cases (ob_seq_no a) (ob_seq_no b)); auto 10.
  - destruct (total String.le (ob_workflow_id a) (ob_workflow_id b)); [left|right];
      right; split; auto.
Qed.

Section OutboxFacts.
Context {env : Env}.

Definition same_but_outbox (d d' : Db) : Prop := set_outbox (outbox d) d' = d.

Lemma may_publish_refl es l : Forall2 (may_publish es) l l.
Proof. induction l; constructor; [by left|done]. Qed.

Lemma may_publish_entry es r r' : may_publish es r r' → entry_of r' = entry_of r.
Proof. by intros [->|(_ & _ & t & ->)]. Qed.

Lemma publish_row_may e t r : may_publish [e] r (publish_row e t r).
Proof.
  unfold publish_row. case_bool_decide as H; [|by left]. right.
  destruct H as (H1 & H2 & H3). split_and!; [|done|by exists t].
  unfold entry_of. rewrite H1, H2. destruct e. by apply elem_of_cons; left.
Qed.

Lemma may_publish_trans es1 es2 l1 l2 l3 :
  Forall2 (may_publish es1) l1 l2 → Forall2 (may_publish es2) l2 l3 →
  Forall2 (may_publish (es1 ++ es2)) l1 l3.
Proof.
  intros H. revert l3. induction H as [|r1 r2 l1 l2 H12 _ IH]; intros l3 H3.
  { inversion H3; constructor. }
  apply Forall2_cons_inv_l in H3 as (r3 & l3' & H23 & H3 & ->).
  constructor; [|by apply IH].
  destruct H12 as [->|(Hin & Hp & t & ->)].
  - destruct H23 as [->|(Hin & Hp & t & ->)]; [by left|].
    right. rewrite elem_of_app. eauto.
  - destruct H23 as [->|(_ & [=] & _)]. right. rewrite elem_of_app. eauto 10.
Qed.

(** A published row is never changed, and the entry is then settled. *)
Lemma publish_row_done e t r :
  entry_of r = e → ob_published_at_millis (publish_row e t r) ≠ None.
Proof.
  intros <-. unfold publish_row, entry_of. cbn. case_bool_decide as H; [done|].
  intros Hn. apply H. done.
Qed.

Lemma publish_row_changed e t r :
  publish_row e t r ≠ r ↔
  ob_published_at_millis r = None ∧ ob_published_at_millis (publish_row e t r) ≠ None.
Proof.
  unfold publish_row. case_bool_decide as H; [|naive_solver].
  destruct H as (_ & _ & Hn). split; [done|]. intros _ Heq.
  rewrite <-Heq in Hn. done.
Qed.

Abbreviation unpub l := (filter (λ r, ob_published_at_millis r = None) l).

Lemma mark_entry_count e t l :
  length (filter (λ r, publish_row e t r ≠ r) l) + length (unpub (publish_row e t <$> l)) =
  length (unpub l).
Proof.
  induction l as [|r l IH]; [done|]. cbn [fmap list_fmap]. rewrite !filter_cons.
  pose proof (publish_row_changed e t r) as Hc.
  assert (ob_published_at_millis r ≠ None → publish_row e t r = r) as Hid.
  { intros Hn. unfold publish_row. by rewrite bool_decide_eq_false_2 by naive_solver. }
  destruct (decide (ob_published_at_millis r = None)) as [Hn|Hn].
  - destruct (decide (ob_published_at_millis (publish_row e t r) = None)),
      (decide (publish_row e t r ≠ r)); cbn [length]; try lia; naive_solver.
  - rewrite (Hid Hn). rewrite decide_False by naive_solver.
    rewrite decide_False by done. done.
Qed.

(** What the marking loop does, on every path. *)
Lemma wp_mark_loop es m Q w :
  (∀ e w', Forall2 (may_publish es) (outbox (db w)) (outbox (db w')) →
     same_but_outbox (db w) (db w') → db_error (db w) e → Q (Err e) w') →
  (∀ n w', Forall2 (may_publish es) (outbox (db w)) (outbox (db w')) →
     same_but_outbox (db w) (db w') →
     (∀ r, r ∈ outbox (db w') → entry_of r ∈ es → ob_published_at_millis r ≠ None) →
     (n + Z.of_nat (length (unpublished (db w'))) = m + Z.of_nat (length (unpublished (db w))))%Z →
     Q (Ok n) w') →
  wp (mark_loop es m) Q w.
Proof.
  revert m w. induction es as [|e es IH]; intros m w He Hok; cbn [mark_loop].
  { apply wp_ret, Hok; [apply may_publish_refl|by destruct (db w)|set_solver|lia]. }
  sql_step. sql_step. sql_step. rewrite <-Hw in *. clear Hw.
  sql_step; [apply He; [rewrite Hw; apply may_publish_refl|rewrite Hw; by destruct (db w0)|done]
            |done|].
  injection Ha as <- <-.
  assert (Forall2 (may_publish [e]) (outbox (db w0)) (outbox (db w1))) as H1.
  { rewrite Hw. cbn. apply Forall2_fmap_r, Forall2_same_length_lookup_2; [done|].
    intros i x y Hx Hy. simplify_eq. apply publish_row_may. }
  assert (same_but_outbox (db w0) (db w1)) as Hs1 by (rewrite Hw; by destruct (db w0)).
  assert (∀ d, same_but_outbox (db w1) d → same_but_outbox (db w0) d) as Hs.
  { unfold same_but_outbox in *. rewrite <-Hs1. intros d <-. by destruct d. }
  apply IH.
  - intros e' w' H2 Hs2 Hd. apply He; [exact (may_publish_trans [e] es _ _ _ H1 H2)|auto|].
    eapply db_error_schema; [|exact Hd]. by rewrite Hw.
  - intros n w' H2 Hs2 Hdone Hn.
    apply Hok; [exact (may_publish_trans [e] es _ _ _ H1 H2)|auto|..].
    + intros r Hr [Hre|Hre]%elem_of_cons; [|by apply Hdone].
      apply list_elem_of_lookup in Hr as [i Hi].
      destruct (Forall2_lookup_r _ _ _ _ _ H2 Hi) as (r1 & Hi1 & H12).
      rewrite Hw in Hi1. cbn in Hi1. apply list_lookup_fmap_Some in Hi1 as (r0 & -> & Hi0).
      assert (entry_of r0 = e) as He0.
      { pose proof (may_publish_entry _ _ _ H12) as HE.
        pose proof (may_publish_entry _ _ _ (publish_row_may e t r0)). congruence. }
      pose proof (publish_row_done e t r0 He0).
      destruct H12 as [->|(_ & Hp & _)]; done.
    + rewrite Hn, Hw. unfold unpublished. cbn.
      pose proof (mark_entry_count e t (outbox (db w0))). lia.
Qed.

(** The outbox is handed out at least once and published exactly once.
    Draining changes nothing and returns the first [lim] unpublished entries
    in enqueue order.  Marking any list of entries, with a fault at any
    point, only ever stamps listed, still unpublished rows: no other row
    changes, a stamp is never overwritten.  When it succeeds every listed
    entry is published and the count is the number of rows it stamped. *)
Theorem outbox_at_least_once (lim : Z) (es : list OutboxEntry) (w : World) :
  match outbox_drain lim w with
  | (Ok drained, w') =>
      db w' = db w ∧ ∃ sorted, sorted ≡ₚ unpublished (db w) ∧ Sorted outbox_le sorted ∧
        drained = entry_of <$> take (Z.to_nat lim) sorted
  | (Err e, w') => db w' = db w ∧ db_error (db w) e
  end ∧
  match outbox_mark_published es w with
  | (Ok n, w') =>
      Forall2 (may_publish es) (outbox (db w)) (outbox (db w')) ∧
      same_but_outbox (db w) (db w') ∧
      (∀ r, r ∈ outbox (db w') → entry_of r ∈ es → ob_published_at_millis r ≠ None) ∧
      (n = Z.of_nat (length (unpublished (db w))) - Z.of_nat (length (unpublished (db w'))))%Z
  | (Err e, w') =>
      Forall2 (may_publish es) (outbox (db w)) (outbox (db w')) ∧
      same_but_outbox (db w) (db w') ∧ db_error (db w) e
  end.
Proof.
  split.
  - to_wp. unfold outbox_drain. sql_step; [auto|]. split; [done|].
    exists (merge_sort outbox_le (unpublished (db w))).
    rewrite limit_take. split_and!; [apply merge_sort_Permutation| |done].
    apply Sorted_merge_sort, _.
  - to_wp. apply wp_mark_loop; [auto|]. intros n w' H1 H2 H3 H4. split_and!; auto. lia.
Qed.
End OutboxFacts.
