(* ===== verification/Requests.v ===== *)
(** * Requests: session bindings and pending requests (crate calcar-storage)

    [upsert_session_binding], [get_session_binding] and the pending-request
    life cycle of [calcar-storage/src/lib.rs].  [ReqStatus] is the abstract
    state of one request and [resolve_spec] the single-resolve machine; the
    SQL implementation refines it.  [RequestStore] is the interface the input
    router and the permission manager are verified against. *)

From S2P Require Import Prelude Text Events Schema Storage.

(** [enum RequestKind] *)
Inductive RequestKind := Input | Approval.

#[export] Instance RequestKind_eq_dec : EqDecision RequestKind.
Proof. solve_decision. Defined.

Definition request_kind_i32 (k : RequestKind) : Z :=
  match k with Input => 1 | Approval => 2 end.

Definition request_kind_from_i32 (value : Z) : option RequestKind :=
  match value with 1 => Some Input | 2 => Some Approval | _ => None end%Z.

Section Requests.
Context {env : Env}.

(** [INSERT INTO session_bindings ... ON CONFLICT DO UPDATE], with its
    foreign key. *)
Definition upsert_binding (wf session_id : string) (resume_pointer : option string)
    (at_millis : Z) (d : Db) : result (unit * Db) SqliteError :=
  match workflows d !! wf with
  | None => Err ConstraintViolation
  | Some _ =>
      Ok (tt, set_bindings
        (<[wf := mk_binding_row session_id resume_pointer at_millis]> (session_bindings d)) d)
  end.

(** [Storage::upsert_session_binding] *)
Definition upsert_session_binding (wf session_id : string)
    (resume_pointer : option string) : StoreM unit :=
  let* t := now in
  execute (upsert_binding wf session_id resume_pointer t).

(** [Storage::get_session_binding] *)
Definition get_session_binding (wf : string) : StoreM (option (string * option string)) :=
  select (λ d,
    (λ b, (bd_provider_session_id b, bd_resume_pointer b)) <$> session_bindings d !! wf).

(** [INSERT INTO pending_requests], with its keys and CHECKs. *)
Definition insert_request (request_id : string) (row : RequestRow) (d : Db) :
    result (unit * Db) SqliteError :=
  if bool_decide (rq_kind row ∉ [1; 2]%Z) || bool_decide (rq_state row ∉ [1; 2; 3]%Z)
  then Err ConstraintViolation
  else match pending_requests d !! request_id, workflows d !! rq_workflow_id row with
       | None, Some _ =>
           Ok (tt, set_requests (<[request_id := row]> (pending_requests d)) d)
       | _, _ => Err ConstraintViolation
       end.

(** [Storage::create_pending_request] *)
Definition create_pending_request (request_id wf : string) (kind : RequestKind)
    (expires_at_millis : option Z) : StoreM unit :=
  let* found := get_workflow wf in
  match found with
  | None => st_throw (NotFound ("workflow " +:+ wf))
  | Some _ =>
      let* t := now in
      execute (insert_request request_id
        (mk_request_row wf (request_kind_i32 kind) 1 t expires_at_millis None None))
  end.

(** [state = 1 AND expires_at_millis IS NOT NULL AND expires_at_millis <= now] *)
Definition overdue (t : Z) (r : RequestRow) : bool :=
  (rq_state r =? 1)%Z &&
  match rq_expires_at_millis r with Some e => (e <=? t)%Z | None => false end.

Definition expire_row (r : RequestRow) : RequestRow :=
  mk_request_row (rq_workflow_id r) (rq_kind r) 3 (rq_created_at_millis r)
    (rq_expires_at_millis r) (rq_resolved_at_millis r) (rq_resolve_payload r).

Definition resolve_row (t : Z) (payload : string) (r : RequestRow) : RequestRow :=
  mk_request_row (rq_workflow_id r) (rq_kind r) 2 (rq_created_at_millis r)
    (rq_expires_at_millis r) (Some t) (Some payload).

(** [UPDATE ... SET state = 3 WHERE request_id = ?1 AND <overdue>] *)
Definition expire_one (request_id : string) (t : Z) (d : Db) : result (Z * Db) SqliteError :=
  match pending_requests d !! request_id with
  | Some r =>
      if overdue t r
      then Ok (1%Z, set_requests (<[request_id := expire_row r]> (pending_requests d)) d)
      else Ok (0%Z, d)
  | None => Ok (0%Z, d)
  end.

(** [UPDATE ... SET state = 2 ... WHERE request_id = ?1 AND state = 1] *)
Definition resolve_one (request_id : string) (t : Z) (payload : string) (d : Db) :
    result (Z * Db) SqliteError :=
  match pending_requests d !! request_id with
  | Some r =>
      if (rq_state r =? 1)%Z
      then Ok (1%Z, set_requests (<[request_id := resolve_row t payload r]>
                                    (pending_requests d)) d)
      else Ok (0%Z, d)
  | None => Ok (0%Z, d)
  end.

(** [Storage::resolve_pending_request] *)
Definition resolve_pending_request (request_id payload : string) : StoreM unit :=
  let* t := now in
  let* _ := execute (expire_one request_id t) in
  let* updated := execute (resolve_one request_id t payload) in
  if (updated =? 1)%Z then st_ret tt
  else
    let* found := select (λ d, rq_state <$> pending_requests d !! request_id) in
    match found with
    | Some 3%Z => st_throw (Expired request_id)
    | Some _ => st_throw (AlreadyResolved request_id)
    | None => st_throw (NotFound ("request " +:+ request_id))
    end.

(** [Storage::expire_pending_requests] *)
Definition expire_all (t : Z) (d : Db) : result (Z * Db) SqliteError :=
  Ok (Z.of_nat (size (filter (λ kv, overdue t kv.2 = true) (pending_requests d))),
      set_requests ((λ r, if overdue t r then expire_row r else r) <$> pending_requests d) d).
Definition expire_pending_requests : StoreM Z :=
  let* t := now in
  execute (expire_all t).
End Requests.

(** ** The abstract single-resolve machine *)

Inductive ReqStatus :=
| RPending (expires_at_millis : option Z)
| RResolved (payload : string)
| RExpired.

#[export] Instance ReqStatus_eq_dec : EqDecision ReqStatus.
Proof. solve_decision. Defined.

Definition past (t : Z) (expires : option Z) : bool :=
  match expires with Some e => (e <=? t)%Z | None => false end.

(** One resolve at time [t]: the answer and the next status. *)
Definition resolve_spec (t : Z) (request_id payload : string) (st : option ReqStatus) :
    result unit StorageError * option ReqStatus :=
  match st with
  | None => (Err (NotFound ("request " +:+ request_id)), None)
  | Some (RPending e) =>
      if past t e then (Err (Expired request_id), Some RExpired)
      else (Ok tt, Some (RResolved payload))
  | Some (RResolved p) => (Err (AlreadyResolved request_id), Some (RResolved p))
  | Some RExpired => (Err (Expired request_id), Some RExpired)
  end.

(** What time alone may do to a status. *)
Definition status_le (st st' : option ReqStatus) : Prop :=
  st' = st ∨ ∃ e, st = Some (RPending (Some e)) ∧ st' = Some RExpired.

(** A request that will never be applied again. *)
Definition settled (st : option ReqStatus) : Prop :=
  match st with Some (RResolved _) | Some RExpired => True | _ => False end.

Class RequestStore (S : Type) := {
  rs_status : S → string → option ReqStatus;
  rs_known : S → string → bool;
  (** the engine errors that can happen from here on *)
  rs_fault : S → StorageError → Prop;
  rs_create : string → string → RequestKind → option Z → ST S StorageError unit;
  rs_resolve : string → string → ST S StorageError unit;
  rs_create_law request_id wf kind expires s :
    let '(r, s') := rs_create request_id wf kind expires s in
    (∀ k, rs_known s' k = rs_known s k) ∧ (∀ e, rs_fault s' e → rs_fault s e) ∧
    match r with
    | Ok _ =>
        rs_known s wf = true ∧ rs_status s request_id = None ∧
        rs_status s' request_id = Some (RPending expires) ∧
        (∀ k, k ≠ request_id → rs_status s' k = rs_status s k)
    | Err e =>
        (∀ k, rs_status s' k = rs_status s k) ∧
        (rs_fault s e ∨ (rs_known s wf = false ∧ e = NotFound ("workflow " +:+ wf)) ∨
         (rs_known s wf = true ∧ rs_status s request_id ≠ None ∧ is_fault e = true))
    end;
  rs_resolve_law request_id payload s :
    let '(r, s') := rs_resolve request_id payload s in
    (∀ k, k ≠ request_id → rs_status s' k = rs_status s k) ∧
    (∀ k, rs_known s' k = rs_known s k) ∧ (∀ e, rs_fault s' e → rs_fault s e) ∧
    ((∃ t, (r, rs_status s' request_id) =
             resolve_spec t request_id payload (rs_status s request_id)) ∨
     (∃ e, r = Err e ∧ rs_fault s e ∧
        status_le (rs_status s request_id) (rs_status s' request_id)));
  rs_fault_is_fault s e : rs_fault s e → is_fault e = true;
}.

(** What a client may conclude from one resolve. *)
Section RequestStoreFacts.
Context {S : Type} {RS : RequestStore S}.

Lemma resolve_cases key p s :
  wp (rs_resolve key p) (λ r s',
    (∀ k, k ≠ key → rs_status s' k = rs_status s k) ∧
    (∀ e, rs_fault s' e → rs_fault s e) ∧
    match r with
    | Ok _ => ∃ e, rs_status s key = Some (RPending e) ∧ rs_status s' key = Some (RResolved p)
    | Err e =>
        (settled (rs_status s key) → rs_status s' key = rs_status s key) ∧
        (∀ q, rs_status s' key = Some (RResolved q) → rs_status s' key = rs_status s key) ∧
        (rs_fault s e ∨
         (rs_status s key = None ∧ rs_status s' key = None ∧ e = NotFound ("request " +:+ key)) ∨
         (e = AlreadyResolved key ∧ ∃ q, rs_status s key = Some (RResolved q)) ∨
         (e = Expired key ∧ rs_status s' key = Some RExpired ∧
          (rs_status s key = Some RExpired ∨ ∃ x, rs_status s key = Some (RPending (Some x)))))
    end) s.
Proof.
  apply wp_of. intros r s' Hrun. pose proof (rs_resolve_law key p s) as H. rewrite Hrun in H.
  destruct H as (Hoth & _ & Hf & [[t H]|(e & -> & He & Hle)]); (split; [done|split; [done|]]).
  - destruct (rs_status s key) as [[[x|]|q|]|]; cbn in H; try case_match;
      injection H as Hr Hst; subst r; naive_solver.
  - destruct Hle as [Hst|(x & Hs & Hst)]; rewrite ?Hs, Hst.
    + split_and!; auto.
    + split_and!; [by intros []|done|auto].
Qed.
End RequestStoreFacts.

(** ** The SQL implementation *)

(** The abstract state of a row. *)
Definition row_status (r : RequestRow) : ReqStatus :=
  match rq_state r with
  | 1%Z => RPending (rq_expires_at_millis r)
  | 3%Z => RExpired
  | _ => RResolved (default "" (rq_resolve_payload r))
  end.

Definition status (d : Db) (request_id : string) : option ReqStatus :=
  row_status <$> pending_requests d !! request_id.

(** Every table but [pending_requests] is the same. *)
Definition same_but_requests (d d' : Db) : Prop :=
  set_requests (pending_requests d) d' = d.

Section RequestFacts.
Context {env : Env}.

Lemma same_but_requests_refl d : same_but_requests d d.
Proof. by destruct d. Qed.

Lemma same_but_requests_set d m : same_but_requests d (set_requests m d).
Proof. by destruct d. Qed.

Lemma same_but_requests_trans d1 d2 d3 :
  same_but_requests d1 d2 → same_but_requests d2 d3 → same_but_requests d1 d3.
Proof. unfold same_but_requests. intros <- <-. by destruct d3. Qed.

Lemma same_but_requests_workflows d d' :
  same_but_requests d d' → workflows d' = workflows d ∧ schema d' = schema d.
Proof. unfold same_but_requests. intros <-. done. Qed.

#[local] Hint Resolve same_but_requests_refl same_but_requests_set : core.

Lemma overdue_status t r :
  overdue t r = true ↔ ∃ e, row_status r = RPending e ∧ past t e = true.
Proof.
  unfold overdue, row_status, past. rewrite andb_true_iff, Z.eqb_eq. split.
  - intros [-> H]. eauto.
  - intros (e & H & He). repeat case_match; simplify_eq; auto.
Qed.

Lemma pending_status r : (rq_state r =? 1)%Z = true ↔ ∃ e, row_status r = RPending e.
Proof.
  unfold row_status. rewrite Z.eqb_eq. split; [intros ->; eauto|].
  intros [e H]. repeat case_match; simplify_eq; done.
Qed.

Lemma row_status_expire r : row_status (expire_row r) = RExpired.
Proof. done. Qed.
Lemma row_status_resolve t p r : row_status (resolve_row t p r) = RResolved p.
Proof. done. Qed.

(** The first UPDATE of a resolve: an overdue pending request expires. *)
Lemma expire_one_spec id t d n d' :
  expire_one id t d = Ok (n, d') →
  same_but_requests d d' ∧ (∀ k, k ≠ id → status d' k = status d k) ∧
  status d' id = match status d id with
                 | Some (RPending e) => Some (if past t e then RExpired else RPending e)
                 | st => st
                 end.
Proof.
  unfold expire_one, status. destruct (pending_requests d !! id) as [r|] eqn:Hr; cbn.
  - destruct (overdue t r) eqn:Ho; intros [= <- <-].
    + split_and!; [auto|intros k Hk; cbn; by rewrite lookup_insert_ne|].
      cbn. rewrite lookup_insert_eq. cbn.
      apply overdue_status in Ho as (e & -> & ->). done.
    + split_and!; [auto|done|]. rewrite Hr. cbn. f_equal.
      destruct (row_status r) as [e| |] eqn:Es; try done.
      destruct (past t e) eqn:Ep; [|done].
      rewrite (proj2 (overdue_status t r)) in Ho by eauto. done.
  - intros [= <- <-]. split_and!; [auto|done|]. by rewrite Hr.
Qed.

(** The second UPDATE: a request still pending is resolved. *)
Lemma resolve_one_spec id t p d n d' :
  resolve_one id t p d = Ok (n, d') →
  same_but_requests d d' ∧ (∀ k, k ≠ id → status d' k = status d k) ∧
  match status d id with
  | Some (RPending _) => n = 1%Z ∧ status d' id = Some (RResolved p)
  | _ => n = 0%Z ∧ d' = d
  end.
Proof.
  unfold resolve_one, status. destruct (pending_requests d !! id) as [r|] eqn:Hr; cbn.
  - destruct (rq_state r =? 1)%Z eqn:Ho; intros [= <- <-].
    + apply pending_status in Ho as [e ->].
      split_and!; [auto|intros k Hk; cbn; by rewrite lookup_insert_ne|done|].
      cbn. by rewrite lookup_insert_eq.
    + split_and!; [auto|done|]. destruct (row_status r) as [e| |] eqn:Es; auto.
      rewrite (proj2 (pending_status r)) in Ho by eauto. done.
  - intros [= <- <-]. split_and!; [auto|done..].
Qed.

(** The answer of the final SELECT. *)
Definition final_error (id : string) (st : option ReqStatus) : StorageError :=
  match st with
  | Some RExpired => Expired id
  | Some _ => AlreadyResolved id
  | None => NotFound ("request " +:+ id)
  end.

(** What a resolve does, on every path. *)
Lemma wp_resolve id p Q w :
  (∀ t r w', same_but_requests (db w) (db w') →
     (∀ k, k ≠ id → status (db w') k = status (db w) k) →
     (r, status (db w') id) = resolve_spec t id p (status (db w) id) ∨
     (∃ e, r = Err e ∧ db_error (db w) e ∧
        status_le (status (db w) id) (status (db w') id)) → Q r w') →
  wp (resolve_pending_request id p) Q w.
Proof.
  intros HQ. unfold resolve_pending_request. sql_step. sql_step. rewrite <-Hw in *. clear Hw.
  sql_step. sql_step; [apply (HQ t); [by rewrite Hw|by intros; rewrite Hw|];
    right; exists e; split_and!; [done..|rewrite Hw; by left]|
    unfold expire_one in Ha; repeat case_match; done|].
  apply expire_one_spec in Ha as (Hsame & Hoth & Hst). rewrite <-Hw in *. clear Hw.
  pose proof (proj2 (same_but_requests_workflows _ _ Hsame)) as Hsc.
  assert (status_le (status (db w0) id) (status (db w1) id)) as Hle.
  { rewrite Hst. destruct (status (db w0) id) as [[e| |]|]; try (by left).
    destruct e as [e|]; [|by left]. destruct (past t (Some e)); [right; eauto|by left]. }
  sql_step. sql_step; [apply (HQ t); rewrite Hw; [done|done|]; right; exists e;
    split_and!; [done|by eapply db_error_schema; [symmetry|]|done]|
    unfold resolve_one in Ha; repeat case_match; done|].
  apply resolve_one_spec in Ha as (Hsame2 & Hoth2 & Hst2). rewrite <-Hw in *.
  pose proof (same_but_requests_trans _ _ _ Hsame Hsame2) as Hsame3.
  assert (∀ k, k ≠ id → status (db w2) k = status (db w0) k) as Hoth3.
  { intros k Hk. by rewrite Hoth2, Hoth. }
  assert (schema (db w2) = schema (db w0)) as Hsc3.
  { apply (same_but_requests_workflows _ _ Hsame3). }
  assert (a0 = 1%Z ∧ (Ok tt, status (db w2) id) = resolve_spec t id p (status (db w0) id) ∨
    a0 = 0%Z ∧ db w2 = db w1 ∧ ∃ e, (Err e, status (db w1) id) =
       resolve_spec t id p (status (db w0) id) ∧ final_error id (status (db w1) id) = e)
    as [[-> H]|(-> & H2 & e & H & He)].
  { rewrite Hst in Hst2 |- *.
    destruct (status (db w0) id) as [[e|q|]|]; cbn; cbn in Hst2;
      [destruct (past t e); cbn in Hst2|..]; destruct Hst2 as [-> Hst2];
      try (right; split_and!; [done..|by eexists]); left; by rewrite Hst2. }
  - cbn. apply wp_ret, (HQ t); auto.
  - cbn. rewrite H2 in *. sql_step. sql_step.
    + apply (HQ t); rewrite Hw0, H2; [done|done|]. right. exists e0.
      split_and!; [done| |done]. rewrite H2 in Hdb. by eapply db_error_schema.
    + assert (∀ f, f = final_error id (status (db w1) id) → Q (Err f) w3) as Hend.
      { intros f ->. apply (HQ t); rewrite Hw0, H2; [done..|]. left. by rewrite <-H, He. }
      rewrite H2. unfold status, row_status, final_error in Hend.
      destruct (pending_requests (db w1) !! id) as [r|]; cbn in Hend |- *;
        [repeat case_match|]; apply wp_throw, Hend; done.
Qed.

Lemma request_checks kind :
  bool_decide (request_kind_i32 kind ∉ [1; 2]%Z) || bool_decide (1%Z ∉ [1; 2; 3]%Z) = false.
Proof. by destruct kind. Qed.

(** What a create does, on every path. *)
Lemma wp_create_request id wf kind expires Q w :
  (∀ e w', db w' = db w →
     db_error (db w) e ∨
     (workflows (db w) !! wf = None ∧ e = NotFound ("workflow " +:+ wf)) ∨
     (is_Some (workflows (db w) !! wf) ∧ status (db w) id ≠ None ∧
      e = Sqlite ConstraintViolation) → Q (Err e) w') →
  (∀ t w', is_Some (workflows (db w) !! wf) → status (db w) id = None →
     db w' = set_requests (<[id := mk_request_row wf (request_kind_i32 kind) 1 t expires
                                     None None]> (pending_requests (db w))) (db w) →
     Q (Ok tt) w') →
  wp (create_pending_request id wf kind expires) Q w.
Proof.
  intros He Hok. unfold create_pending_request. apply wp_bind, wp_get_workflow; [auto|].
  intros w1 Hs1 Hw1. cbn.
  destruct (workflows (db w) !! wf) as [row|] eqn:Hwf; [|apply wp_throw, He; auto].
  cbn. apply wp_bind. sql_step. cbn. rewrite <-Hw1, <-Hw in *.
  assert (∀ R, (insert_request id R (db w0) = (if bool_decide (rq_kind R ∉ [1; 2]%Z) ||
    bool_decide (rq_state R ∉ [1; 2; 3]%Z) then Err ConstraintViolation else
    match pending_requests (db w0) !! id, workflows (db w0) !! rq_workflow_id R with
    | None, Some _ => Ok (tt, set_requests (<[id := R]> (pending_requests (db w0))) (db w0))
    | _, _ => Err ConstraintViolation end))) as Hins by done.
  assert (status (db w0) id = None ↔ pending_requests (db w0) !! id = None) as Hnone.
  { unfold status. by rewrite fmap_None. }
  sql_step; [apply He; auto|..]; rewrite Hins in Ha; cbn in Ha; rewrite Hwf in Ha;
    rewrite (request_checks kind) in Ha;
    destruct (pending_requests (db w0) !! id) eqn:Hr; try discriminate Ha.
  - injection Ha as <-. apply He; [done|]. right. right.
    split_and!; [by eexists|by rewrite Hnone|done].
  - injection Ha as <- <-. eapply Hok; [by eexists|by apply Hnone|done].
Qed.
End RequestFacts.

(** ** The database is a request store *)

#[export] Program Instance DbRequestStore {env : Env} : RequestStore World := {
  rs_status w := status (db w);
  rs_known w wf := bool_decide (is_Some (workflows (db w) !! wf));
  rs_fault w := db_error (db w);
  rs_create := create_pending_request;
  rs_resolve := resolve_pending_request;
}.
Next Obligation.
  intros env id wf kind expires w. cbn beta. to_wp. apply wp_create_request.
  - intros e w' Hw Hcase. rewrite Hw. split_and!; [done..|].
    destruct Hcase as [Hd|[[Hn ->]|(Hs & Hst & ->)]]; [auto| |].
    + right. left. by rewrite Hn.
    + right. right. by rewrite bool_decide_eq_true_2.
  - intros t w' Hs Hst Hw. rewrite Hw. cbn.
    split_and!; [done|done|by rewrite bool_decide_eq_true_2|done|..].
    + unfold status. cbn. by rewrite lookup_insert_eq.
    + intros k Hk. unfold status. cbn. by rewrite lookup_insert_ne.
Qed.
Next Obligation.
  intros env id p w. cbn beta. to_wp. apply wp_resolve. intros t r w' Hsame Hoth Hcase.
  destruct (same_but_requests_workflows _ _ Hsame) as [Hw Hs].
  split_and!; [done|by rewrite Hw|by intros e; apply db_error_schema|].
  destruct Hcase; [by left; exists t|by right].
Qed.
Next Obligation. intros env w e [(n & c & _ & [-> | ->])|[_ ->]]; done. Qed.
