(* ===== verification/Store.v ===== *)
(** * Store: what the whole database promises (crate calcar-storage)

    [store_ok] is the invariant of all tables together and [evolves] what may
    ever happen to a database: rows are never lost or renamed, terminal
    workflows and settled requests are frozen, events are lost to trimming
    only and never rewritten, outbox rows keep their place and are stamped at
    most once.  A method is [safe] when it moves the database along [evolves]
    on every path.  Safety composes, so the managers inherit it from the
    storage methods. *)

From S2P Require Import Prelude Text Events Schema Storage Ring RingFacts OutboxFacts Requests.

(** ** The invariant *)

Record request_ok (d : Db) (r : RequestRow) : Prop := {
  request_kind : rq_kind r ∈ [1; 2]%Z;
  request_state : rq_state r ∈ [1; 2; 3]%Z;
  request_workflow : is_Some (workflows d !! rq_workflow_id r);
  request_payload : rq_state r = 2%Z ↔ is_Some (rq_resolve_payload r);
}.

Record store_ok (d : Db) : Prop := {
  ok_workflows : workflows_ok d;
  ok_rings : ∀ wf, ring_ok wf d;
  ok_requests : map_Forall (λ _ r, request_ok d r) (pending_requests d);
  ok_events : ∀ wf, events_of wf d ≠ [] → is_Some (workflows d !! wf);
  ok_bindings : ∀ wf, is_Some (session_bindings d !! wf) → is_Some (workflows d !! wf);
}.

(** ** Evolution *)

(** A row keeps everything but its state and update time, and a terminal row
    keeps everything. *)
Definition row_evolves (r r' : WorkflowRow) : Prop :=
  r' = set_state_row (state r') (updated_at_millis r') r ∧ (terminal r → r' = r).

Definition status_evolves (st st' : ReqStatus) : Prop :=
  settled (Some st) → st' = st.

Definition outbox_evolves (r r' : OutboxRow) : Prop :=
  r' = r ∨ (ob_published_at_millis r = None ∧
    ∃ t, r' = mk_outbox_row (ob_workflow_id r) (ob_seq_no r) (ob_enqueued_at_millis r) (Some t)).

Record evolves (d d' : Db) : Prop := {
  ev_workflows id row : workflows d !! id = Some row →
    ∃ row', workflows d' !! id = Some row' ∧ row_evolves row row';
  ev_requests k st : status d k = Some st →
    ∃ st', status d' k = Some st' ∧ status_evolves st st';
  ev_events r : r ∈ workflow_events d →
    r ∈ workflow_events d' ∨ (er_seq_no r ≤ cut (er_workflow_id r) d')%Z;
  ev_cut wf : (cut wf d ≤ cut wf d')%Z;
  ev_newest wf : (newest wf d ≤ newest wf d')%Z;
  ev_outbox i r : outbox d !! i = Some r →
    ∃ r', outbox d' !! i = Some r' ∧ outbox_evolves r r';
}.

Lemma row_evolves_refl r : row_evolves r r.
Proof. split; [by destruct r|done]. Qed.

Lemma row_evolves_trans r1 r2 r3 :
  row_evolves r1 r2 → row_evolves r2 r3 → row_evolves r1 r3.
Proof.
  intros [H1 T1] [H2 T2]. split.
  - rewrite H2. rewrite H1. done.
  - intros Ht. rewrite (T1 Ht) in T2. auto.
Qed.

Lemma outbox_evolves_trans r1 r2 r3 :
  outbox_evolves r1 r2 → outbox_evolves r2 r3 → outbox_evolves r1 r3.
Proof.
  intros [->|(Hp & t & ->)] H2; [done|]. destruct H2 as [->|([=] & _)]. right. eauto.
Qed.

#[export] Instance evolves_preorder : PreOrder evolves.
Proof.
  split.
  - intros d. split; [|unfold status_evolves; by eauto| |done..|].
    + intros id row H. exists row. split; [done|apply row_evolves_refl].
    + by left.
    + intros i r H. exists r. by split; [|left].
  - intros d1 d2 d3 H1 H2. split.
    + intros id row H. destruct (ev_workflows _ _ H1 _ _ H) as (r2 & Hr2 & E2).
      destruct (ev_workflows _ _ H2 _ _ Hr2) as (r3 & Hr3 & E3).
      exists r3. split; [done|by eapply row_evolves_trans].
    + intros k st H. destruct (ev_requests _ _ H1 _ _ H) as (s2 & Hs2 & E2).
      destruct (ev_requests _ _ H2 _ _ Hs2) as (s3 & Hs3 & E3).
      exists s3. split; [done|]. intros Hs. rewrite (E2 Hs) in E3. auto.
    + intros r H. destruct (ev_events _ _ H1 _ H) as [H'|H'].
      * by apply (ev_events _ _ H2).
      * right. pose proof (ev_cut _ _ H2 (er_workflow_id r)). lia.
    + intros wf. pose proof (ev_cut _ _ H1 wf). pose proof (ev_cut _ _ H2 wf). lia.
    + intros wf. pose proof (ev_newest _ _ H1 wf). pose proof (ev_newest _ _ H2 wf). lia.
    + intros i r H. destruct (ev_outbox _ _ H1 _ _ H) as (r2 & Hr2 & E2).
      destruct (ev_outbox _ _ H2 _ _ Hr2) as (r3 & Hr3 & E3).
      exists r3. split; [done|by eapply outbox_evolves_trans].
Qed.

(** One good move: the invariant is kept and the database evolves. *)
Definition good (d d' : Db) : Prop := store_ok d → store_ok d' ∧ evolves d d'.

#[export] Instance good_preorder : PreOrder good.
Proof.
  split; [intros d H; split; [done|reflexivity]|].
  intros d1 d2 d3 H12 H23 H1. destruct (H12 H1) as [H2 E12], (H23 H2) as [H3 E23].
  split; [done|by etrans].
Qed.

(** ** Frames: changing one table *)

(** The ring tables of [wf] are read through these three. *)
Lemma ring_ok_frame wf d d' :
  workflow_events d' = workflow_events d → outbox d' = outbox d →
  ring_truncations d' = ring_truncations d → ring_ok wf d → ring_ok wf d'.
Proof.
  intros He Ho Ht [? ? ? ? ? ? Hob].
  split; unfold newest, cut, dropped, events_of, outbox_of in *; by rewrite ?He, ?Ho, ?Ht.
Qed.

Lemma good_frame d d' :
  workflows d' = workflows d → workflow_events d' = workflow_events d →
  outbox d' = outbox d → ring_truncations d' = ring_truncations d →
  pending_requests d' = pending_requests d →
  (store_ok d → ∀ wf, is_Some (session_bindings d' !! wf) → is_Some (workflows d' !! wf)) →
  good d d'.
Proof.
  intros Hw He Ho Ht Hr Hb Hok. specialize (Hb Hok). destruct Hok as [H1 H2 H3 H4 H5]. split.
  - split; [unfold workflows_ok in *; by rewrite Hw| |rewrite Hr| |done].
    + intros wf. by eapply ring_ok_frame.
    + eapply map_Forall_impl; [exact H3|]. intros k r [? ? ? ?]. split; [..|by rewrite Hw|]; done.
    + intros wf. unfold events_of. rewrite He, Hw. apply H4.
  - unfold status. split; unfold status, newest, cut, events_of;
      rewrite ?Hw, ?Hr, ?He, ?Ho, ?Ht; try done.
    + intros id row H. exists row. split; [done|apply row_evolves_refl].
    + intros k st H. exists st. by split; [|intros _].
    + by left.
    + intros i r H. exists r. by split; [|left].
Qed.

Lemma good_workflows m d :
  (store_ok d → workflows_ok (set_workflows m d)) →
  (∀ id row, workflows d !! id = Some row →
     ∃ row', m !! id = Some row' ∧ row_evolves row row') →
  good d (set_workflows m d).
Proof.
  intros Hm Hrows Hok. specialize (Hm Hok). destruct Hok as [H1 H2 H3 H4 H5].
  assert (∀ wf, is_Some (workflows d !! wf) → is_Some (m !! wf)) as Hin.
  { intros wf [row Hrow]. destruct (Hrows _ _ Hrow) as (row' & -> & _). by eexists. }
  split.
  - split; [done| | |intros wf Hne; apply Hin, H4, Hne|intros wf Hb; apply Hin, H5, Hb].
    + intros wf. by eapply ring_ok_frame; [..|apply H2].
    + eapply map_Forall_impl; [exact H3|]. intros k r [? ? ? ?]. split; auto.
  - split; cbn; [done| |by left|done..|].
    + intros k st H. exists st. by split; [|intros _].
    + intros i r H. exists r. by split; [|left].
Qed.

Lemma good_requests m d :
  (store_ok d → map_Forall (λ _ r, request_ok d r) m) →
  (∀ k st, status d k = Some st →
     ∃ st', status (set_requests m d) k = Some st' ∧ status_evolves st st') →
  good d (set_requests m d).
Proof.
  intros Hm Hst Hok. specialize (Hm Hok). destruct Hok as [H1 H2 H3 H4 H5]. split.
  - split; [done| | |done..].
    + intros wf. by eapply ring_ok_frame; [..|apply H2].
    + eapply map_Forall_impl; [exact Hm|]. intros k r [? ? ? ?]. by split.
  - split; cbn; [|done|by left|done..|].
    + intros id row H. exists row. split; [done|apply row_evolves_refl].
    + intros i r H. exists r. by split; [|left].
Qed.

Lemma elem_of_events r d : r ∈ workflow_events d ↔ r ∈ events_of (er_workflow_id r) d.
Proof. unfold events_of. rewrite list_elem_of_filter. split; [by intros Hr; split|by intros [_ Hr]]. Qed.

Lemma good_appended draft seq d d' :
  is_Some (workflows d !! dr_workflow_id draft) → appended draft seq d d' → good d d'.
Proof.
  intros Hwf Ha Hok. pose proof Ha as [Hs He Hc _ [t Ho] (_ & _ & Hw & Hb & Hr) Hoth].
  cbn in He, Hc. set (wf := dr_workflow_id draft) in *.
  set (l := events_of wf d ++ [event_row draft seq]) in *.
  assert (l ≠ []) as Hne by (unfold l; by destruct (events_of wf d)).
  pose proof (trim_count_lt l Hne) as Hlt.
  destruct Hok as [H1 H2 H3 H4 H5]. split.
  - split; [unfold workflows_ok in *; by rewrite Hw| |rewrite Hr| |by rewrite Hb, Hw].
    + intros wf'. by eapply appended_ring_ok.
    + eapply map_Forall_impl; [exact H3|]. intros k r [? ? ? ?]. split; [..|by rewrite Hw|]; done.
    + intros wf'. rewrite Hw. destruct (decide (wf' = wf)) as [->|Hn]; [done|].
      destruct (Hoth wf' Hn) as [-> _]. apply H4.
  - assert (∀ wf', cut wf' d ≤ cut wf' d' ∧ newest wf' d ≤ newest wf' d')%Z as Hcn.
    { intros wf'. destruct (decide (wf' = wf)) as [->|Hn].
      - unfold newest. rewrite He, Hc, length_drop. unfold l in *.
        rewrite length_app in *. cbn in *. lia.
      - unfold newest, cut. destruct (Hoth wf' Hn) as (-> & _ & ->). lia. }
    split; [rewrite Hw|unfold status; rewrite Hr| |apply Hcn|apply Hcn|].
    + intros id row H. exists row. split; [done|apply row_evolves_refl].
    + intros k st H. exists st. by split; [|intros _].
    + intros r Hin. apply elem_of_events in Hin. rewrite elem_of_events.
      destruct (decide (er_workflow_id r = wf)) as [Hwr|Hn];
        [|left; destruct (Hoth _ Hn) as [-> _]; done].
      rewrite Hwr in *. rewrite He, Hc. apply list_elem_of_lookup in Hin as [i Hi].
      assert (l !! i = Some r) as Hl by (unfold l; by apply lookup_app_l_Some).
      destruct (decide (trim_count l ≤ i)) as [Hge|Hlt'].
      * left. apply list_elem_of_lookup. exists (i - trim_count l).
        rewrite lookup_drop. by replace (trim_count l + (i - trim_count l)) with i by lia.
      * right. rewrite (consecutive_lookup er_seq_no _ _ _ _ (ring_seqs _ _ (H2 wf)) Hi). lia.
    + intros i r H. exists r. rewrite Ho. split; [by apply lookup_app_l_Some|by left].
Qed.

Lemma good_outbox es d d' :
  Forall2 (may_publish es) (outbox d) (outbox d') → same_but_outbox d d' → good d d'.
Proof.
  intros Hm Hsame Hok. unfold same_but_outbox in Hsame.
  assert (workflows d' = workflows d ∧ workflow_events d' = workflow_events d ∧
    ring_truncations d' = ring_truncations d ∧ pending_requests d' = pending_requests d ∧
    session_bindings d' = session_bindings d) as (Hw & He & Ht & Hr & Hb)
    by (rewrite <-Hsame; by destruct d').
  assert (entry_of <$> outbox d' = entry_of <$> outbox d) as Hent.
  { apply list_eq. intros i. rewrite !list_lookup_fmap.
    destruct (outbox d !! i) as [r|] eqn:Hi.
    - destruct (Forall2_lookup_l _ _ _ _ _ Hm Hi) as (r' & -> & H').
      cbn. f_equal. by eapply may_publish_entry.
    - apply lookup_ge_None in Hi. rewrite (Forall2_length _ _ _ Hm) in Hi.
      apply lookup_ge_None in Hi. by rewrite Hi. }
  assert (∀ wf, ob_seq_no <$> outbox_of wf d' = ob_seq_no <$> outbox_of wf d) as Hseq.
  { intros wf. unfold outbox_of. clear -Hent. revert Hent. generalize (outbox d) as l.
    induction (outbox d') as [|r l' IH]; intros [|r0 l]; try done. cbn [fmap list_fmap].
    intros [= Hw Hs Hl]. specialize (IH _ Hl). rewrite !filter_cons, Hw.
    case_decide; cbn; [|done]. by rewrite Hs, IH. }
  destruct Hok as [H1 H2 H3 H4 H5]. split.
  - split; [unfold workflows_ok in *; by rewrite Hw| |rewrite Hr| |by rewrite Hb, Hw].
    + intros wf. destruct (H2 wf) as [? ? ? ? ? ? Hob].
      split; unfold newest, cut, dropped, events_of in *; rewrite ?He, ?Ht; try done.
      by rewrite Hseq.
    + eapply map_Forall_impl; [exact H3|]. intros k r [? ? ? ?]. split; [..|by rewrite Hw|]; done.
    + intros wf. unfold events_of. rewrite He, Hw. apply H4.
  - split; unfold status, newest, cut, events_of; rewrite ?Hw, ?Hr, ?He, ?Ht; try done.
    + intros id row H. exists row. split; [done|apply row_evolves_refl].
    + intros k st H. exists st. by split; [|intros _].
    + by left.
    + intros i r Hi. destruct (Forall2_lookup_l _ _ _ _ _ Hm Hi) as (r' & Hi' & H').
      exists r'. split; [done|]. destruct H' as [->|(_ & Hp & t & ->)]; [by left|right; eauto].
Qed.

Lemma store_ok_empty : store_ok empty_db.
Proof.
  split; [by intros ?? H|by intros wf; apply ring_ok_absent|by intros ?? H|done|].
  intros wf [? H]. done.
Qed.

(** ** Safe methods *)

Section Safe.
Context {env : Env}.

(** The method makes a good move on every path, in any error type. *)
Definition safe {E A} (m : ST World E A) : Prop :=
  ∀ w, wp m (λ _ w', good (db w) (db w')) w.

(** A statement that makes a good move. *)
Definition safe_stmt {A} (f : Db → result (A * Db) SqliteError) : Prop :=
  ∀ d a d', f d = Ok (a, d') → good d d'.

Lemma safe_ret {E A} (a : A) : safe (E:=E) (st_ret a).
Proof. intros w. apply wp_ret. reflexivity. Qed.
Lemma safe_throw {E A} (e : E) : safe (A:=A) (st_throw e).
Proof. intros w. apply wp_throw. reflexivity. Qed.
Lemma safe_lift {E A} (r : result A E) : safe (st_lift r).
Proof. intros w. apply wp_lift. reflexivity. Qed.

Lemma safe_bind {E A B} (m : ST World E A) (k : A → ST World E B) :
  safe m → (∀ a, safe (k a)) → safe (st_bind m k).
Proof.
  intros Hm Hk w. apply wp_bind. eapply wp_mono; [apply Hm|].
  intros [a|e] w1 H1; [|done]. eapply wp_mono; [apply Hk|]. intros r w2 H2. by etrans.
Qed.

Lemma safe_map_err {E F A} (f : E → F) (m : ST World E A) : safe m → safe (st_map_err f m).
Proof. intros Hm w. apply wp_map_err. eapply wp_mono; [apply Hm|done]. Qed.

Lemma safe_try {E F A} (m : ST World E A) : safe m → safe (E:=F) (st_try m).
Proof. intros Hm w. apply wp_try. eapply wp_mono; [apply Hm|done]. Qed.

Lemma safe_reads_only {A} (m : StoreM A) : reads_only m → safe m.
Proof. intros Hm w. specialize (Hm w). unfold wp. destruct (m w). cbn in Hm. by rewrite Hm. Qed.

Lemma safe_sqlite_call {A} (f : Db → result (A * Db) SqliteError) :
  safe_stmt f → safe (sqlite_call f).
Proof.
  intros Hf w. apply wp_sqlite_call.
  - intros e w' -> _. reflexivity.
  - intros e w' _ ->. reflexivity.
  - intros a d w' H ->. by eapply Hf.
Qed.

Lemma safe_execute {A} (f : Db → result (A * Db) SqliteError) :
  safe_stmt f → safe (execute f).
Proof. intros Hf. apply safe_sqlite_call. intros d a d'. case_match; [apply Hf|done]. Qed.

Lemma safe_query {A} (f : Db → result A SqliteError) : safe (query f).
Proof. apply safe_reads_only, reads_only_query. Qed.

Lemma safe_select {A} (f : Db → A) : safe (select f).
Proof. apply safe_query. Qed.

Lemma safe_now : safe now.
Proof. apply safe_reads_only, reads_only_now. Qed.

Lemma safe_transaction {A} (body : StoreM A) : safe body → safe (transaction body).
Proof.
  intros Hb w. apply wp_transaction; [intros e w' -> _; reflexivity|].
  intros w1 Hw1. eapply wp_mono; [apply Hb|]. rewrite Hw1.
  intros [a|e] w2 H2 w3 ->; [done|reflexivity].
Qed.

Lemma safe_run {E A} (m : ST World E A) w : safe m → good (db w) (db (m w).2).
Proof. intros Hm. apply (wp_run m (λ _ w', good (db w) (db w')) w), Hm. Qed.

Lemma safe_stmt_id {A} (a : A) : safe_stmt (λ d, Ok (a, d)).
Proof. intros d b d' [= _ <-]. reflexivity. Qed.
End Safe.

#[export] Hint Resolve safe_query safe_select safe_now safe_stmt_id : calcar.

(** Safety of a method from that of its parts. *)
Ltac safe_step :=
  match goal with
  | |- safe (st_bind _ _) => apply safe_bind; [|let a := fresh "a" in intros a]
  | |- safe (if ?b then _ else _) => destruct b
  | |- safe (match ?x with _ => _ end) => destruct x
  | |- safe (st_ret _) => apply safe_ret
  | |- safe (st_throw _) => apply safe_throw
  | |- safe (st_lift _) => apply safe_lift
  | |- safe (st_map_err _ _) => apply safe_map_err
  | |- safe (st_try _) => apply safe_try
  | |- safe (transaction _) => apply safe_transaction
  | |- safe _ => solve [eauto 2 with calcar nocore]
  end; cbn beta iota.
Ltac safe_steps := repeat safe_step.

Section SafeStorage.
Context {env : Env}.

Lemma set_migrations_good m d : good d (set_migrations m d).
Proof. apply good_frame; try done. intros Hok wf. apply (ok_bindings _ Hok). Qed.
Lemma set_schema_good b d : good d (set_schema b d).
Proof. apply good_frame; try done. intros Hok wf. apply (ok_bindings _ Hok). Qed.

Lemma safe_create_dir : safe create_dir_all.
Proof. apply safe_reads_only. intros w. unfold create_dir_all. by destruct (fault (stmts w)). Qed.

Lemma safe_open : safe open_conn.
Proof.
  unfold open_conn, configure. apply safe_bind; [|intros _].
  { destruct db_parent as [p|]; [destruct (String.eqb p "")|]; auto using safe_ret, safe_create_dir. }
  repeat (apply safe_bind; [apply safe_sqlite_call, safe_stmt_id|intros _]). apply safe_ret.
Qed.

Lemma safe_apply_migration name : safe (apply_migration name init_sql).
Proof.
  unfold apply_migration. apply safe_transaction, safe_bind.
  - apply safe_try, safe_sqlite_call. intros d a d' [= _ <-].
    etrans; [apply set_migrations_good|apply set_schema_good].
  - intros [a|e]; [|destruct e; apply safe_throw]. apply safe_bind; [apply safe_now|].
    intros t. apply safe_sqlite_call. intros d b d' H. unfold insert_migration in H.
    repeat case_match; simplify_eq. apply set_migrations_good.
Qed.

Lemma safe_migrate : safe migrate.
Proof.
  unfold migrate. apply safe_bind; [apply safe_sqlite_call; intros d a d' [= _ <-];
    apply set_migrations_good|intros _].
  apply safe_bind; [apply safe_sqlite_call; intros d a d' H; case_match; simplify_eq; done|].
  intros names. unfold MIGRATIONS. cbn [migrate_loop].
  case_bool_decide; [apply safe_ret|].
  apply safe_bind; [apply safe_apply_migration|intros _; apply safe_ret].
Qed.

Lemma safe_create_workflow id p ttl sid : safe (create_workflow id p ttl sid).
Proof.
  intros w. apply wp_create_workflow; [by intros e w' -> _|].
  intros t w' Hnone _ _ row ->. apply good_workflows.
  - intros Hok id' row' H. cbn in H. apply lookup_insert_Some in H as [[<- <-]|[_ H]].
    + split; [done|]. split; [by exists Running|by exists p].
    + apply (ok_workflows _ Hok _ _ H).
  - intros id' row' H. exists row'. split; [|apply row_evolves_refl].
    rewrite lookup_insert_ne; [done|]. intros ->. congruence.
Qed.

Lemma safe_set_workflow_state id s : safe (set_workflow_state id s).
Proof.
  intros w. apply wp_set_workflow_state; [by intros e w' -> _|].
  intros row t w' Hrow Hp Ht _ _ row' Hw.
  assert (good (db w) (db w')) as Hg; [|by split].
  rewrite Hw. apply good_workflows.
  - intros Hok id' r H. cbn in H. apply lookup_insert_Some in H as [[<- <-]|[_ H]].
    + destruct (ok_workflows _ Hok _ _ Hrow) as (Hid & _ & Hprov).
      split; [done|]. split; [by exists s|done].
    + apply (ok_workflows _ Hok _ _ H).
  - intros id' r H. destruct (decide (id' = id)) as [->|Hn].
    + exists row'. rewrite lookup_insert_eq. split; [done|]. simplify_eq.
      split; [done|by intros Hterm].
    + exists r. rewrite lookup_insert_ne by done. split; [done|apply row_evolves_refl].
Qed.

Lemma safe_append_event draft : safe (append_event draft).
Proof.
  intros w. apply wp_of. intros r w' Hrun Hok.
  refine (wp_eq _ (λ _ w', store_ok (db w') ∧ evolves (db w) (db w')) _ _ _ Hrun _).
  apply wp_append_event; [apply Hok|by intros e w1 -> _; split|].
  intros seq w1 Hwf Ha. by eapply good_appended.
Qed.

Lemma safe_mark es : safe (outbox_mark_published es).
Proof.
  intros w. apply wp_mark_loop.
  - intros e w' Hm Hs _. by eapply good_outbox.
  - intros n w' Hm Hs _ _. by eapply good_outbox.
Qed.

Lemma safe_upsert_session_binding wf sid rp : safe (upsert_session_binding wf sid rp).
Proof.
  apply safe_bind; [apply safe_now|]. intros t. apply safe_execute. intros d a d' H.
  unfold upsert_binding in H. case_match eqn:Hwf; simplify_eq.
  apply good_frame; try done. intros Hok wf'. cbn. rewrite lookup_insert_is_Some'.
  intros [<-|Hb]; [by eexists|by apply (ok_bindings _ Hok)].
Qed.

Lemma safe_create_request id wf kind exp : safe (create_pending_request id wf kind exp).
Proof.
  intros w. apply wp_create_request; [by intros e w' -> _|].
  intros t w' Hwf Hnone ->. apply good_requests.
  - intros Hok. apply map_Forall_insert_2; [|apply (ok_requests _ Hok)].
    split; cbn; [by destruct kind; apply (bool_decide_unpack _); vm_compute|by repeat constructor|done|]. split; [done|by intros [??]].
  - intros k st H. exists st. split; [|done]. unfold status in *. cbn.
    rewrite lookup_insert_ne; [done|]. intros ->. congruence.
Qed.

(** Changing the state of one pending request. *)
Lemma good_settle id r r' d :
  pending_requests d !! id = Some r → rq_state r = 1%Z →
  rq_kind r' = rq_kind r → rq_workflow_id r' = rq_workflow_id r →
  (rq_state r' = 3 ∧ rq_resolve_payload r' = rq_resolve_payload r ∨
   rq_state r' = 2 ∧ is_Some (rq_resolve_payload r'))%Z →
  good d (set_requests (<[id := r']> (pending_requests d)) d).
Proof.
  intros Hr Hs Hk Hwf Hst. apply good_requests.
  - intros Hok. apply map_Forall_insert_2; [|apply (ok_requests _ Hok)].
    destruct (ok_requests _ Hok _ _ Hr) as [R1 R2 R3 R4].
    split; rewrite ?Hk, ?Hwf; [done| |done|].
    + destruct Hst as [[-> _]|[-> _]]; repeat constructor.
    + destruct Hst as [[-> ->]|[-> ?]]; [|done]. rewrite <-R4, Hs. done.
  - intros k st H. unfold status in *. cbn. destruct (decide (k = id)) as [->|Hn].
    + rewrite lookup_insert_eq. eexists. split; [done|]. rewrite Hr in H. cbn in H.
      simplify_eq. unfold status_evolves, row_status at 1. by rewrite Hs.
    + exists st. by rewrite lookup_insert_ne by done.
Qed.

Lemma safe_expire_one id t : safe_stmt (expire_one id t).
Proof.
  intros d n d' H. unfold expire_one in H.
  destruct (pending_requests d !! id) as [r|] eqn:Hr; [|by simplify_eq].
  destruct (overdue t r) eqn:Ho; simplify_eq; [|done].
  apply andb_true_iff in Ho as [Hs%Z.eqb_eq _]. eapply good_settle; eauto.
Qed.

Lemma safe_resolve_one id t p : safe_stmt (resolve_one id t p).
Proof.
  intros d n d' H. unfold resolve_one in H.
  destruct (pending_requests d !! id) as [r|] eqn:Hr; [|by simplify_eq].
  destruct (Z.eqb_spec (rq_state r) 1) as [Hs|Hs]; simplify_eq; [|done]. eapply good_settle; [done..|]. right. split; [done|by eexists].
Qed.

Lemma safe_expire_all t : safe_stmt (expire_all t).
Proof.
  intros d n d' H. unfold expire_all in H. simplify_eq. apply good_requests.
  - intros Hok k r H. rewrite lookup_fmap in H. apply fmap_Some in H as (r0 & Hr & ->).
    pose proof (ok_requests _ Hok _ _ Hr) as [R1 R2 R3 R4]. unfold overdue.
    destruct (Z.eqb_spec (rq_state r0) 1) as [Hs|Hs]; [|done]. cbn.
    repeat case_match; try done. split; cbn; [done|repeat constructor|done|].
    rewrite <-R4, Hs. done.
  - intros k st H. unfold status in *. cbn. rewrite lookup_fmap.
    destruct (pending_requests d !! k) as [r|]; [|done]. cbn in *. simplify_eq.
    eexists. split; [done|]. unfold overdue, status_evolves, row_status at 1.
    destruct (Z.eqb_spec (rq_state r) 1) as [->|Hs]; cbn; done.
Qed.

Lemma safe_resolve id p : safe (resolve_pending_request id p).
Proof.
  apply safe_bind; [apply safe_now|intros t].
  apply safe_bind; [apply safe_execute, safe_expire_one|intros n].
  apply safe_bind; [apply safe_execute, safe_resolve_one|intros m].
  case_match; [apply safe_ret|]. apply safe_bind; [apply safe_select|].
  intros a. repeat case_match; apply safe_throw.
Qed.

Lemma safe_expire : safe expire_pending_requests.
Proof.
  apply safe_bind; [apply safe_now|intros t]. apply safe_execute, safe_expire_all.
Qed.
End SafeStorage.

#[export] Hint Resolve safe_open safe_migrate safe_create_workflow safe_set_workflow_state
  safe_append_event safe_mark safe_upsert_session_binding safe_create_request safe_resolve
  safe_expire : calcar.
