(* ===== verification/Lifecycle.v ===== *)
(** * Lifecycle: the sole writer of workflow state (crate calcar-workflow)

    [WorkflowManager] of [calcar-workflow/src/lifecycle.rs] and
    [SessionManager] of [session.rs] over the storage component: create,
    transition, disconnect, restart recovery, session binding. *)

From S2P Require Import Prelude Text Events Schema Storage Ring RingFacts Requests.

(** [enum LifecycleError]; [StorageFailed] is its [Storage] variant. *)
Inductive LifecycleError :=
| Refused (message : string)
| StorageFailed (e : StorageError).

(** [struct WorkflowView] *)
Record WorkflowView := mk_view { stored : WorkflowRow; projected : WorkflowState }.

(** [enum RecoveryDecision] *)
Inductive RecoveryDecision :=
| Reattach (provider_session_id : string) (resume_pointer : option string)
    (replayed_events : nat) (last_seq : option Z)
| CleanFailed (reason : string)
| AlreadyTerminal (state : WorkflowState).

(** [struct SessionBinding] *)
Record SessionBinding := mk_session_binding {
  sb_workflow_id : string;
  sb_provider_session_id : string;
  sb_resume_pointer : option string;
}.

Definition LifecycleM (A : Type) : Type := ST World LifecycleError A.

(** [x?] of a storage call inside the manager *)
Definition from_storage {A} (m : StoreM A) : LifecycleM A := st_map_err StorageFailed m.

Section Lifecycle.
Context {env : Env}.

(** [WorkflowManager::new] *)
Definition manager_new : LifecycleM unit :=
  let* _ := from_storage migrate in st_ret tt.

(** [WorkflowManager::open] *)
Definition manager_open : LifecycleM unit :=
  let* _ := from_storage open_conn in manager_new.

(** [WorkflowManager::in_memory] *)
Definition manager_in_memory : LifecycleM unit :=
  let* _ := from_storage open_in_memory in manager_new.

Definition check_storable (next : WorkflowState) : result unit LifecycleError :=
  match next with
  | StateUnspecified => Err (Refused "unspecified state is never persisted")
  | DisconnectedRunning => Err (Refused
      "disconnected-running is a projection only; use project_on_disconnect")
  | Running | WaitingInput | WaitingApproval | Completed | Failed | Stopped => Ok tt
  end.

Definition check_reason (reason : string) : result string LifecycleError :=
  if bool_decide (reason = "") then Err (Refused "transition reason must not be empty")
  else Ok reason.

(** The event type of a lifecycle event. *)
Definition record_type (next : WorkflowState) : result EventType LifecycleError :=
  match next with
  | Running => Ok AgentStarted
  | WaitingInput => Ok InputRequired
  | WaitingApproval => Ok ApprovalRequired
  | Completed => Ok WorkflowCompleted
  | Failed => Ok ErrorOccurred
  | Stopped => Ok WorkflowStopped
  | StateUnspecified | DisconnectedRunning =>
      Err (Refused ("state " +:+ state_debug next +:+
        " is never stored and gets no lifecycle event"))
  end.

(** The draft of the event behind a state change. *)
Definition record_draft (workflow_id : string) (session : option string)
    (next : WorkflowState) (et : EventType) (reason : string) (occurred : Z) : EventDraft :=
  mk_draft workflow_id
    ("lifecycle-" +:+ workflow_id +:+ "-" +:+ dec (state_i32 next) +:+ "-" +:+ dec occurred)
    session occurred et reason None.

(** [WorkflowManager::record] *)
Definition record (workflow_id : string) (session : option string)
    (next : WorkflowState) (reason : string) : LifecycleM WorkflowEvent :=
  let* et := st_lift (record_type next) in
  let* occurred := from_storage now in
  from_storage (append_event (record_draft workflow_id session next et reason occurred)).

(** [WorkflowManager::create_workflow] *)
Definition manager_create_workflow (id : string) (p : Provider) (ttl : string)
    (session : option string) : LifecycleM WorkflowRow :=
  if bool_decide (id = "") then st_throw (Refused "workflow id must not be empty")
  else if bool_decide (ttl = "") then st_throw (Refused "workflow title must not be empty")
  else if bool_decide (p = ProviderUnspecified)
  then st_throw (Refused "provider must be specified")
  else
    let* row := from_storage (create_workflow id p ttl session) in
    let* _ := match session with
              | Some session_id => from_storage (upsert_session_binding id session_id None)
              | None => st_ret tt
              end in
    let* _ := record (workflow_id row) (provider_session_id row) Running "workflow created" in
    st_ret row.

(** [WorkflowManager::transition] *)
Definition transition (id : string) (next : WorkflowState) (reason : string) :
    LifecycleM WorkflowRow :=
  let* _ := st_lift (check_storable next) in
  let* _ := st_lift (check_reason reason) in
  let* row := from_storage (set_workflow_state id next) in
  let* _ := record (workflow_id row) (provider_session_id row) next reason in
  st_ret row.

(** [WorkflowManager::transition_on_disconnect] *)
Definition transition_on_disconnect (id : string) (next : WorkflowState) (reason : string) :
    LifecycleM WorkflowRow :=
  if bool_decide (next = Completed) then
    st_throw (Refused "disconnect never completes a workflow; stored state is unchanged")
  else transition id next reason.

(** [WorkflowManager::get_workflow] *)
Definition manager_get_workflow (id : string) : LifecycleM (option WorkflowRow) :=
  from_storage (get_workflow id).

(** [WorkflowManager::events_since] *)
Definition events_since (id : string) (after_seq lim : Z) : LifecycleM (list WorkflowEvent) :=
  from_storage (events_after id after_seq lim).

(** The stored row and its decoded state: the first two statements of
    [project_on_disconnect] and of [reconcile]. *)
Definition load_state (id : string) : LifecycleM (WorkflowRow * WorkflowState) :=
  let* found := from_storage (get_workflow id) in
  let* row := st_lift (ok_or found (StorageFailed (NotFound ("workflow " +:+ id)))) in
  let* s := st_lift (ok_or (state_from_i32 (state row))
    (Refused ("stored state " +:+ dec (state row) +:+ " for workflow " +:+ id +:+
              " is not a known state"))) in
  st_ret (row, s).

Definition never_persist (id : string) (s : WorkflowState) : LifecycleError :=
  Refused ("stored state " +:+ state_debug s +:+ " for workflow " +:+ id +:+
           " must never persist").

(** [WorkflowManager::project_on_disconnect] *)
Definition project_on_disconnect (id : string) : LifecycleM WorkflowView :=
  let* (row, s) := load_state id in
  match s with
  | Completed | Failed | Stopped => st_ret (mk_view row s)
  | StateUnspecified | DisconnectedRunning => st_throw (never_persist id s)
  | Running | WaitingInput | WaitingApproval => st_ret (mk_view row DisconnectedRunning)
  end.

Definition recovery_reason (id : string) : string :=
  "restart recovery: no session binding for workflow " +:+ id +:+ "; marked failed".

(** [WorkflowManager::reconcile] *)
Definition reconcile (id : string) : LifecycleM RecoveryDecision :=
  let* (row, s) := load_state id in
  match s with
  | Completed | Failed | Stopped => st_ret (AlreadyTerminal s)
  | StateUnspecified | DisconnectedRunning => st_throw (never_persist id s)
  | Running | WaitingInput | WaitingApproval =>
      let* binding := from_storage (get_session_binding id) in
      let* replayed := from_storage (events_after id 0 u32_max) in
      match binding with
      | Some (session, resume) =>
          st_ret (Reattach session resume (length replayed) (seq_no <$> last replayed))
      | None =>
          let* _ := from_storage (set_workflow_state id Failed) in
          let* _ := record id (provider_session_id row) Failed (recovery_reason id) in
          st_ret (CleanFailed (recovery_reason id))
      end
  end.

(** ** Session bindings: [session.rs] *)

(** [SessionManager::bind] *)
Definition bind (id session : string) (resume : option string) : StoreM unit :=
  if bool_decide (id = "") then st_throw (InvalidState "workflow id must not be empty")
  else if bool_decide (session = "")
  then st_throw (InvalidState "provider session id must not be empty")
  else
    let* found := get_workflow id in
    if bool_decide (found = None) then st_throw (NotFound ("workflow " +:+ id))
    else upsert_session_binding id session resume.

(** [SessionManager::lookup] *)
Definition lookup_binding (id : string) : StoreM (option SessionBinding) :=
  let* found := get_session_binding id in
  match found with
  | None => st_ret None
  | Some (session, resume) => st_ret (Some (mk_session_binding id session resume))
  end.
End Lifecycle.
