(* ===== verification/LifecycleFacts.v ===== *)
(** * LifecycleFacts: what the workflow manager guarantees

    State is written before its event, and both or nothing but the state row
    change; a disconnect never completes a workflow and projecting never
    writes; restart recovery reattaches exactly when a binding survived. *)

From S2P Require Import Prelude Text Events Schema Storage Ring RingFacts OutboxFacts Requests Store Lifecycle.

Section LifecycleFacts.
Context {env : Env}.

(** ** Safety of the manager methods *)

Lemma safe_record id sid next reason : safe (record id sid next reason).
Proof. unfold record, from_storage. safe_steps. Qed.

Lemma safe_transition id next reason : safe (transition id next reason).
Proof.
  unfold transition, from_storage. safe_steps. apply safe_record.
Qed.

Lemma safe_transition_on_disconnect id next reason :
  safe (transition_on_disconnect id next reason).
Proof. unfold transition_on_disconnect. case_bool_decide; [apply safe_throw|apply safe_transition]. Qed.

Lemma safe_manager_create id p ttl sid : safe (manager_create_workflow id p ttl sid).
Proof. unfold manager_create_workflow, from_storage. safe_steps; apply safe_record. Qed.

Lemma safe_load_state id : safe (load_state id).
Proof. unfold load_state, from_storage, get_workflow. safe_steps. Qed.

Lemma safe_reconcile id : safe (reconcile id).
Proof.
  unfold reconcile. apply safe_bind; [apply safe_load_state|]. intros [row s].
  unfold from_storage, get_session_binding, events_after.
  destruct s; safe_steps; apply safe_record.
Qed.

Lemma safe_bind_session id sid rp : safe (bind id sid rp).
Proof. unfold bind, get_workflow. safe_steps. Qed.

Lemma safe_manager_new : safe manager_new.
Proof. unfold manager_new, from_storage. safe_steps. Qed.

Lemma safe_manager_open : safe manager_open.
Proof. unfold manager_open, from_storage. safe_steps. apply safe_manager_new. Qed.

(** ** Recording *)

Lemma record_type_storable next :
  is_persistable next = true → ∃ et, record_type next = Ok et.
Proof. destruct next; try done; intros _; by eexists. Qed.

Lemma wp_record id sid next reason et Q w :
  ring_ok id (db w) → is_Some (workflows (db w) !! id) → record_type next = Ok et →
  (∀ e w', db w' = db w → db_error (db w) e → Q (Err (StorageFailed e)) w') →
  (∀ occurred seq w', in_i64 occurred →
     let draft := record_draft id sid next et reason occurred in
     appended draft seq (db w) (db w') → Q (Ok (appended_event draft seq)) w') →
  wp (record id sid next reason) Q w.
Proof.
  intros Hr Hwf Het He Hok. unfold record. rewrite Het. apply wp_bind, wp_lift. cbn.
  apply wp_bind, wp_map_err. sql_step. cbn. rewrite <-Hw in *.
  apply wp_map_err, wp_append_event; [done| |].
  - intros e w' Hw' [Hd|[Hn _]]; [by apply He|]. cbn in Hn. rewrite Hn in Hwf.
    by destruct Hwf.
  - intros seq w' _ Ha. by apply (Hok t).
Qed.

Lemma check_storable_spec next :
  check_storable next = if is_persistable next then Ok tt else check_storable next.
Proof. by destruct next. Qed.

Lemma check_storable_refuses next :
  is_persistable next = false → ∃ m, check_storable next = Err (Refused m).
Proof. destruct next; try done; intros _; by eexists. Qed.

(** The database after the state of [row] is stored. *)
Definition stored_state (row' : WorkflowRow) (d : Db) : Db :=
  set_workflows (<[workflow_id row' := row']> (workflows d)) d.

(** What [set_workflow_state] followed by [record] does, on every path. *)
Lemma wp_set_and_record {B} id next reason (k : WorkflowRow → B)
    (wid : WorkflowRow → string) (sid : WorkflowRow → option string) Q w :
  store_ok (db w) → (∀ row, workflow_id row = id → wid row = id) →
  (∀ row t, sid (set_state_row (state_i32 next) t row) = sid row) →
  (∀ e w', db w' = db w →
     db_error (db w) e ∨ (is_persistable next = false ∧ ∃ m, e = InvalidState m) ∨
     (workflows (db w) !! id = None ∧ ∃ m, e = NotFound m) ∨
     (∃ row m, workflows (db w) !! id = Some row ∧ terminal row ∧ e = InvalidState m) →
     Q (Err (StorageFailed e)) w') →
  (∀ row t w', workflows (db w) !! id = Some row → is_persistable next = true →
     ¬ terminal row →
     let row' := set_state_row (state_i32 next) t row in
     (∀ e, db w' = stored_state row' (db w) → db_error (db w) e →
        Q (Err (StorageFailed e)) w') ∧
     (∀ et occurred seq, record_type next = Ok et →
        let draft := record_draft id (sid row) next et reason occurred in
        appended draft seq (stored_state row' (db w)) (db w') → Q (Ok (k row')) w')) →
  wp (let* row := from_storage (set_workflow_state id next) in
      let* _ := record (wid row) (sid row) next reason in st_ret (k row)) Q w.
Proof.
  intros Hok Hwid Hsid He Hq. apply wp_bind, wp_map_err, wp_set_workflow_state; [done|].
  intros row t w1 Hrow Hp Hterm Ht Hsch row' Hw1.
  assert (workflow_id row = id) as Hid by by destruct (ok_workflows _ Hok _ _ Hrow).
  assert (db w1 = stored_state row' (db w)) as Hst by (by rewrite Hw1; unfold stored_state; cbn; rewrite Hid).
  split; cbn.
  - destruct (record_type_storable next Hp) as [et Het].
    apply wp_bind. rewrite (Hwid row' Hid). unfold row'. rewrite Hsid.
    eapply wp_record; [..|exact Het| |].
    + rewrite Hst. eapply ring_ok_frame; [..|apply (ok_rings _ Hok)]; done.
    + rewrite Hw1. cbn. by rewrite lookup_insert_eq.
    + intros e w' Hw' Hd. cbn. eapply (proj1 (Hq row t w' Hrow Hp Hterm)); [by rewrite Hw', Hst|].
      eapply db_error_schema; [|exact Hd]. by rewrite Hw1.
    + intros occurred seq w' _ draft Ha. apply wp_ret.
      eapply (proj2 (Hq row t w' Hrow Hp Hterm)); [exact Het|]. rewrite Hst in Ha. exact Ha.
  - intros e Hf. eapply (proj1 (Hq row t w1 Hrow Hp Hterm)); [done|by left].
Qed.

(** What a transition does, on every path. *)
Definition transition_result (id : string) (next : WorkflowState) (reason : string)
    (d : Db) (r : result WorkflowRow LifecycleError) (d' : Db) : Prop :=
  match r with
  | Ok row' =>
      is_persistable next = true ∧ reason ≠ "" ∧
      ∃ row t et occurred seq, workflows d !! id = Some row ∧ ¬ terminal row ∧
        row' = set_state_row (state_i32 next) t row ∧ record_type next = Ok et ∧
        appended (record_draft id (provider_session_id row) next et reason occurred) seq
          (stored_state row' d) d'
  | Err (Refused _) => d' = d ∧ (is_persistable next = false ∨ reason = "")
  | Err (StorageFailed e) =>
      is_persistable next = true ∧ reason ≠ "" ∧
      ((d' = d ∧
        (db_error d e ∨ (workflows d !! id = None ∧ ∃ m, e = NotFound m) ∨
         (∃ row m, workflows d !! id = Some row ∧ terminal row ∧ e = InvalidState m))) ∨
       (∃ row t, workflows d !! id = Some row ∧ ¬ terminal row ∧ db_error d e ∧
          d' = stored_state (set_state_row (state_i32 next) t row) d))
  end.

Lemma wp_transition id next reason w :
  store_ok (db w) →
  wp (transition id next reason) (λ r w', transition_result id next reason (db w) r (db w')) w.
Proof.
  intros Hok. unfold transition. apply wp_bind, wp_lift.
  rewrite check_storable_spec. destruct (is_persistable next) eqn:Hp.
  2:{ destruct (check_storable_refuses next Hp) as [m ->]. split; auto. }
  apply wp_bind, wp_lift. unfold check_reason. case_bool_decide as Hr; [split; auto|].
  apply (wp_set_and_record id next reason (λ row, row) workflow_id provider_session_id);
    [done..| |].
  - intros e w' Hw' [Hd|[[? _]|Hrest]]; [|congruence|]; split_and!; auto.
  - intros row t w' Hrow _ Hterm row'. split.
    + intros e Hw' Hd. split_and!; [done..|]. right. by exists row, t.
    + intros et occurred seq Het draft Ha. split_and!; [done..|].
      by exists row, t, et, occurred, seq.
Qed.

(** The rows after a transition: the target's changed row, and all others. *)
Lemma transition_rows id next reason d r d' id' row' :
  store_ok d → transition_result id next reason d r d' → workflows d' !! id' = Some row' →
  workflows d !! id' = Some row' ∨ (id' = id ∧ state row' = state_i32 next).
Proof.
  intros Hok Hr Hrow. assert (∀ row t, workflows d !! id = Some row →
    workflows (stored_state (set_state_row (state_i32 next) t row) d) !! id' = Some row' →
    workflows d !! id' = Some row' ∨ (id' = id ∧ state row' = state_i32 next)) as Hst.
  { intros row t Hr0 H. unfold stored_state in H. cbn in H.
    destruct (ok_workflows _ Hok _ _ Hr0) as [Hid _]. rewrite Hid in H.
    apply lookup_insert_Some in H as [[<- <-]|[_ H]]; auto. }
  destruct r as [row|[m|e]]; cbn in Hr.
  - destruct Hr as (_ & _ & row0 & t & et & occ & seq & Hr0 & _ & -> & _ & Ha).
    destruct (appended_rest _ _ _ _ Ha) as (_ & _ & Hw & _). rewrite Hw in Hrow. eauto.
  - destruct Hr as [-> _]. auto.
  - destruct Hr as (_ & _ & [[-> _]|(row0 & t & Hr0 & _ & _ & ->)]); eauto.
Qed.

(** The two reads of a manager method: the row and its decoded state. *)
Lemma wp_load_state id Q w :
  store_ok (db w) →
  (∀ e w', db w' = db w → db_error (db w) e ∨
     (workflows (db w) !! id = None ∧ e = NotFound ("workflow " +:+ id)) →
     Q (Err (StorageFailed e)) w') →
  (∀ row s w', db w' = db w → workflows (db w) !! id = Some row →
     is_persistable s = true → state row = state_i32 s → Q (Ok (row, s)) w') →
  wp (load_state id) Q w.
Proof.
  intros Hok He Hq. unfold load_state. apply wp_bind, wp_map_err, wp_get_workflow; [by intros e w1 Hw1 Hd; apply He; auto|].
  intros w1 Hs1 Hw1. apply wp_bind, wp_lift. cbn.
  destruct (workflows (db w) !! id) as [row|] eqn:Hrow; cbn; [|apply He; auto].
  destruct (ok_workflows _ Hok _ _ Hrow) as (_ & (s & Hs & Hst) & _).
  apply wp_bind, wp_lift. rewrite Hst, state_from_i32_i32. cbn. apply wp_ret. auto.
Qed.

Lemma terminal_iff row s : state row = state_i32 s →
  terminal row ↔ s = Completed ∨ s = Failed ∨ s = Stopped.
Proof.
  unfold terminal, TERMINAL_STATES. intros ->. rewrite !elem_of_cons, elem_of_nil.
  destruct s; cbn; intuition discriminate.
Qed.

(** A full replay returns every kept event. *)
Lemma wp_replay_all id lim Q w :
  ring_ok id (db w) → (MAX_RING_EVENTS ≤ lim)%Z →
  (∀ e w', db w' = db w → db_error (db w) e → Q (Err e) w') →
  (∀ w', db w' = db w → Q (Ok (map_event <$> events_of id (db w))) w') →
  wp (events_after id 0 lim) Q w.
Proof.
  intros Hr Hlim He Hq. unfold events_after. sql_step; [by apply He|].
  pose proof (ring_seqs _ _ Hr) as Hs. pose proof (ring_cut _ _ Hr) as Hc.
  rewrite (consecutive_upper er_seq_no _ _ _ Hs).
  replace (Z.to_nat (0 + 1 - (cut id (db w) + 1))) with 0 by lia.
  rewrite drop_0, (consecutive_sort er_seq_no _ _ Hs), limit_take, take_ge; [by apply Hq|].
  destruct (ring_bounds _ _ Hr) as [[Hb _]%within_bounds_iff|Hb];
    unfold MAX_RING_EVENTS in *; lia.
Qed.

(** The resume point: the newest sequence number. *)
Lemma last_seq_newest id d :
  ring_ok id d →
  seq_no <$> last (map_event <$> events_of id d) =
    if decide (length (events_of id d) = 0) then None else Some (to_u64 (newest id d)).
Proof.
  intros Hr. rewrite fmap_last, last_lookup.
  destruct (events_of id d !! pred (length (events_of id d))) as [r|] eqn:Hi; cbn.
  - pose proof (lookup_lt_Some _ _ _ Hi) as Hl. rewrite decide_False by lia.
    rewrite (consecutive_lookup er_seq_no _ _ _ _ (ring_seqs _ _ Hr) Hi).
    unfold newest. do 2 f_equal. lia.
  - apply lookup_ge_None in Hi. by rewrite decide_True by lia.
Qed.

(** ** Theorems *)

(** C12: a transition writes the state, then its event, and nothing else.
    Refusals (projection or unspecified target, empty reason, unknown
    workflow, terminal workflow) leave the database as it was.  On success
    exactly the one row has the new state and exactly one event of the
    matching type, carrying the reason, is appended.  An engine error either
    changes nothing or leaves the new state without its event. *)
Theorem transition_spec (id : string) (next : WorkflowState) (reason : string) (w : World) :
  store_ok (db w) →
  let '(r, w') := transition id next reason w in
  transition_result id next reason (db w) r (db w').
Proof. apply wp_transition. Qed.

(** C13: a disconnect never completes a workflow.  Whatever target is asked
    for on the disconnect path, and whatever fails, a workflow that is
    stored as completed afterwards was completed before; asking for
    completion is refused without touching the store.  The projection for a
    disconnected phone never writes, maps every live state to
    disconnected-running and every terminal state to itself. *)
Theorem disconnect_never_completes (id : string) (next : WorkflowState) (reason : string)
    (w : World) :
  store_ok (db w) →
  (∀ id' row', workflows (db (transition_on_disconnect id next reason w).2) !! id' = Some row' →
     state row' = state_i32 Completed → workflows (db w) !! id' = Some row') ∧
  (∃ m, transition_on_disconnect id Completed reason w = (Err (Refused m), w)) ∧
  db (project_on_disconnect id w).2 = db w ∧
  match project_on_disconnect id w with
  | (Ok view, _) =>
      workflows (db w) !! id = Some (stored view) ∧
      (terminal (stored view) → state_i32 (projected view) = state (stored view)) ∧
      (¬ terminal (stored view) → projected view = DisconnectedRunning)
  | (Err (Refused _), _) => False
  | (Err (StorageFailed e), _) =>
      db_error (db w) e ∨ (workflows (db w) !! id = None ∧ e = NotFound ("workflow " +:+ id))
  end.
Proof.
  intros Hok. split_and!.
  - apply (wp_run _ (λ _ w', ∀ id' row', workflows (db w') !! id' = Some row' →
      state row' = state_i32 Completed → workflows (db w) !! id' = Some row')).
    unfold transition_on_disconnect. case_bool_decide as Hc; [by apply wp_throw|].
    eapply wp_mono; [by apply wp_transition|]. cbn. intros r w' Hr id' row' Hrow' Hst'.
    destruct (transition_rows _ _ _ _ _ _ _ _ Hok Hr Hrow') as [H|[_ H]]; [done|].
    rewrite Hst' in H. destruct next; done.
  - by eexists.
  - apply (wp_run _ (λ _ w', db w' = db w)). unfold project_on_disconnect.
    apply wp_bind, wp_load_state; [done|done|]. intros row s w' Hw _ _ _. by destruct s.
  - to_wp. unfold project_on_disconnect.
    apply wp_bind, wp_load_state; [done|auto|]. intros row s w' Hw Hrow Hp Hst.
    pose proof (terminal_iff row s Hst) as Ht.
    destruct s; try done; apply wp_ret; cbn in *; (split_and!; [done|..]); rewrite ?Ht;
      intuition congruence.
Qed.

(** What recovery does to a workflow, on every path. *)
Definition reconcile_result (id : string) (d : Db)
    (r : result RecoveryDecision LifecycleError) (d' : Db) : Prop :=
  match r with
  | Ok (AlreadyTerminal s) => d' = d ∧
      ∃ row, workflows d !! id = Some row ∧ terminal row ∧ state row = state_i32 s
  | Ok (Reattach session resume n last_seq) => d' = d ∧
      (∃ row, workflows d !! id = Some row ∧ ¬ terminal row) ∧
      (∃ b, session_bindings d !! id = Some b ∧ session = bd_provider_session_id b ∧
         resume = bd_resume_pointer b) ∧
      n = length (events_of id d) ∧
      last_seq = (if decide (n = 0) then None else Some (to_u64 (newest id d)))
  | Ok (CleanFailed reason) => reason = recovery_reason id ∧
      session_bindings d !! id = None ∧
      ∃ row t occurred seq, workflows d !! id = Some row ∧ ¬ terminal row ∧
        appended (record_draft id (provider_session_id row) Failed ErrorOccurred
                    (recovery_reason id) occurred) seq
          (stored_state (set_state_row (state_i32 Failed) t row) d) d'
  | Err (Refused _) => False
  | Err (StorageFailed e) =>
      (d' = d ∧ workflows d !! id = None ∧ e = NotFound ("workflow " +:+ id)) ∨
      (db_error d e ∧
       (d' = d ∨
        (session_bindings d !! id = None ∧
         ∃ row t, workflows d !! id = Some row ∧ ¬ terminal row ∧
           d' = stored_state (set_state_row (state_i32 Failed) t row) d)))
  end.

Lemma wp_reconcile_live id row d w Q :
  store_ok d → db w = d → workflows d !! id = Some row → ¬ terminal row →
  (∀ r w', reconcile_result id d r (db w') → Q r w') →
  wp (let* binding := from_storage (get_session_binding id) in
      let* replayed := from_storage (events_after id 0 u32_max) in
      match binding with
      | Some (session, resume) =>
          st_ret (Reattach session resume (length replayed) (seq_no <$> last replayed))
      | None =>
          let* _ := from_storage (set_workflow_state id Failed) in
          let* _ := record id (provider_session_id row) Failed (recovery_reason id) in
          st_ret (CleanFailed (recovery_reason id))
      end) Q w.
Proof.
  intros Hok <- Hrow Hterm HQ. apply wp_bind, wp_map_err. unfold get_session_binding.
  sql_step; cbn; [apply HQ; right; rewrite Hw; auto|].
  apply wp_bind, wp_map_err. rewrite <-Hw in *.
  apply wp_replay_all; [apply Hok|done|intros e w' Hw' Hd; cbn; apply HQ; right; auto|].
  intros w2 Hw2. cbn.
  destruct (session_bindings (db w0) !! id) as [b|] eqn:Hb; cbn.
  - apply wp_ret, HQ. cbn. rewrite last_seq_newest, length_fmap by apply Hok.
    split_and!; eauto.
  - rewrite <-Hw2 in *.
    apply (wp_set_and_record id Failed (recovery_reason id) (λ _, CleanFailed (recovery_reason id))
      (λ _, id) (λ _, provider_session_id row)); [done..| |].
    + intros e w' Hw' Hcase. apply HQ.
      destruct Hcase as [Hd|[[[=] _]|[[Hn _]|(row' & m & Hr & Ht & _)]]];
        [right; auto|congruence|simplify_eq; done].
    + intros row0 t w' Hr0 _ _. replace row0 with row by congruence. intros row'. split.
      * intros e Hw' Hd. apply HQ. right. split; [done|]. right. split; [done|].
        by exists row, t.
      * intros et occurred seq [= <-] draft Ha. apply HQ. cbn. split_and!; [done..|].
        by exists row, t, occurred, seq.
Qed.

Lemma wp_reconcile id w :
  store_ok (db w) → wp (reconcile id) (λ r w', reconcile_result id (db w) r (db w')) w.
Proof.
  intros Hok. unfold reconcile.
  apply wp_bind, wp_load_state; [done|intros e w' Hw [H|[? ?]]; [right|left]; auto|].
  intros row s w1 Hw1 Hrow Hp Hst. pose proof (terminal_iff row s Hst) as Ht. cbn.
  destruct s; try done;
    try (apply (wp_reconcile_live id row (db w)); [done..|rewrite Ht; intuition discriminate|done]);
    apply wp_ret; (split; [done|]; exists row; rewrite Ht; auto).
Qed.

(** C14: restart recovery.  A terminal workflow is reported as it is; a live
    one with a stored binding reattaches to exactly that binding, with all
    kept events replayed and the newest sequence number as resume point,
    writing nothing; a live one without a binding is marked failed with the
    recovery reason recorded as one event.  A fault leaves the store as it
    was or the workflow failed without its event.  No other workflow
    changes. *)
Theorem reconcile_spec (id : string) (w : World) :
  store_ok (db w) →
  let '(r, w') := reconcile id w in reconcile_result id (db w) r (db w').
Proof. apply wp_reconcile. Qed.
End LifecycleFacts.

#[export] Hint Resolve safe_record safe_transition safe_transition_on_disconnect
  safe_manager_create safe_reconcile safe_bind_session safe_manager_new safe_manager_open : calcar.

(** ** Witnesses

    The store after migrating an empty database and creating one workflow,
    with the [k]-th SQLite call failing. *)
Definition live_world (k : nat) : World :=
  (manager_create_workflow (env:=faulty_env 1000 7 k) "wf-1" Generic "build" None
    (manager_new (env:=faulty_env 1000 7 k) (mk_world empty_db 0 0)).2).2.

Lemma live_world_ok k : store_ok (db (live_world k)).
Proof.
  apply (safe_run _ _ (safe_manager_create (env:=faulty_env 1000 7 k) "wf-1" Generic "build" None)).
  apply (safe_run _ _ (safe_manager_new (env:=faulty_env 1000 7 k))), store_ok_empty.
Qed.

Lemma transition_spec_witness :
  store_ok (db (live_world 20)) ∧
  let '(r, w') := transition (env:=faulty_env 1000 7 20) "wf-1" Failed "exit 1" (live_world 20) in
  transition_result (env:=faulty_env 1000 7 20) "wf-1" Failed "exit 1" (db (live_world 20)) r (db w').
Proof.
  split; [apply live_world_ok|].
  exact (transition_spec (env:=faulty_env 1000 7 20) "wf-1" Failed "exit 1" (live_world 20)
    (live_world_ok 20)).
Defined.

Lemma disconnect_never_completes_witness :
  store_ok (db (live_world 99)) ∧
  ∃ m, transition_on_disconnect (env:=faulty_env 1000 7 99) "wf-1" Completed "gone" (live_world 99) =
    (Err (Refused m), live_world 99).
Proof.
  split; [apply live_world_ok|].
  exact (proj1 (proj2 (disconnect_never_completes (env:=faulty_env 1000 7 99) "wf-1" Completed
    "gone" (live_world 99) (live_world_ok 99)))).
Defined.

Lemma reconcile_spec_witness :
  store_ok (db (live_world 99)) ∧
  let '(r, w') := reconcile (env:=faulty_env 1000 7 99) "wf-1" (live_world 99) in
  reconcile_result (env:=faulty_env 1000 7 99) "wf-1" (db (live_world 99)) r (db w').
Proof.
  split; [apply live_world_ok|].
  exact (reconcile_spec (env:=faulty_env 1000 7 99) "wf-1" (live_world 99) (live_world_ok 99)).
Defined.
