(* ===== verification/Reach.v ===== *)
(** * Reach: whole histories of the agent's store

    [AgentOp] lists the calls that reach the database, from opening and
    migrating to the manager methods; [run_op] performs one.  Whatever the
    calls, their order and the engine faults, the invariant holds and nothing
    durable is lost. *)

From S2P Require Import Prelude Text Events Schema Storage Ring RingFacts OutboxFacts Requests Store Lifecycle LifecycleFacts.

Inductive AgentOp :=
| OpOpen
| OpMigrate
| OpCreate (id : string) (p : Provider) (ttl : string) (session : option string)
| OpTransition (id : string) (next : WorkflowState) (reason : string)
| OpDisconnect (id : string) (next : WorkflowState) (reason : string)
| OpProject (id : string)
| OpReconcile (id : string)
| OpBind (id session : string) (resume : option string)
| OpLookup (id : string)
| OpSetState (id : string) (next : WorkflowState)
| OpAppend (draft : EventDraft)
| OpReplay (id : string) (after_seq lim : Z)
| OpStats (id : string)
| OpDrain (lim : Z)
| OpMark (es : list OutboxEntry)
| OpPendingCount
| OpCreateRequest (request_id id : string) (kind : RequestKind) (expires : option Z)
| OpResolve (request_id payload : string)
| OpExpire.

Section Reach.
Context {env : Env}.

Definition run_op (op : AgentOp) (w : World) : World :=
  match op with
  | OpOpen => (manager_open w).2
  | OpMigrate => (migrate w).2
  | OpCreate id p ttl session => (manager_create_workflow id p ttl session w).2
  | OpTransition id next reason => (transition id next reason w).2
  | OpDisconnect id next reason => (transition_on_disconnect id next reason w).2
  | OpProject id => (project_on_disconnect id w).2
  | OpReconcile id => (reconcile id w).2
  | OpBind id session resume => (bind id session resume w).2
  | OpLookup id => (lookup_binding id w).2
  | OpSetState id next => (set_workflow_state id next w).2
  | OpAppend draft => (append_event draft w).2
  | OpReplay id after_seq lim => (events_after id after_seq lim w).2
  | OpStats id => (ring_stats id w).2
  | OpDrain lim => (outbox_drain lim w).2
  | OpMark es => (outbox_mark_published es w).2
  | OpPendingCount => (outbox_pending_count w).2
  | OpCreateRequest request_id id kind expires =>
      (create_pending_request request_id id kind expires w).2
  | OpResolve request_id payload => (resolve_pending_request request_id payload w).2
  | OpExpire => (expire_pending_requests w).2
  end.

Lemma safe_project id : safe (project_on_disconnect id).
Proof.
  unfold project_on_disconnect. apply safe_bind; [apply safe_load_state|].
  intros [row s]. destruct s; safe_steps.
Qed.
Lemma safe_lookup id : safe (lookup_binding id).
Proof. unfold lookup_binding, get_session_binding. safe_steps. Qed.
Lemma safe_stats id : safe (ring_stats id).
Proof. unfold ring_stats. safe_steps. Qed.

#[local] Hint Resolve safe_project safe_lookup safe_stats : calcar.

Lemma run_op_good op w : good (db w) (db (run_op op w)).
Proof.
  destruct op; cbn [run_op]; apply safe_run;
    try (solve [eauto 2 with calcar nocore]); apply safe_select.
Qed.

Lemma runs_good ops w : good (db w) (db (runs run_op ops w)).
Proof.
  revert w. induction ops as [|op ops IH]; intros w; cbn; [reflexivity|].
  etrans; [apply run_op_good|apply IH].
Qed.

(** C10: the store over whole histories.  Start from an empty database file
    and perform any calls in any order, with any engine faults and any clock:
    at every point the invariant of all tables holds, and from every point to
    every later one the database only evolves.  In particular a workflow in a
    terminal state and a resolved or expired request never change again, no
    stored state is a projection, events are lost to trimming only and never
    rewritten, and sequence numbers never go back. *)
Theorem agent_history_ok (before after : list AgentOp) (ticks0 stmts0 : nat) :
  let w := runs run_op before (mk_world empty_db ticks0 stmts0) in
  let w' := runs run_op after w in
  store_ok (db w) ∧ store_ok (db w') ∧ evolves (db w) (db w').
Proof.
  intros w w'. assert (store_ok (db w)) as Hw.
  { apply runs_good, store_ok_empty. }
  split; [done|]. by apply runs_good.
Qed.

(** ** Migration *)

Definition recorded (d : Db) : Prop :=
  ∃ rows, schema_migrations d = Some rows ∧ "0001_init" ∈ rows.*1.

#[export] Instance recorded_dec d : Decision (recorded d).
Proof.
  refine (match schema_migrations d as o return (schema_migrations d = o → Decision (recorded d)) with
          | Some rows => λ E, cast_if (decide ("0001_init" ∈ rows.*1))
          | None => λ E, right _
          end eq_refl);
    unfold recorded; rewrite E; naive_solver.
Defined.

Lemma wp_apply_init Q w :
  is_Some (schema_migrations (db w)) → ¬ recorded (db w) →
  (∀ e w', db w' = db w → faulted e ∨ (∃ m, e = Migration "0001_init" m) → Q (Err e) w') →
  (∀ t rows w', schema_migrations (db w) = Some rows →
     db w' = set_migrations (Some (rows ++ [("0001_init", t)])) (set_schema true (db w)) →
     Q (Ok tt) w') →
  wp (apply_migration "0001_init" init_sql) Q w.
Proof.
  intros [rows Hrows] Hnot He Hq. unfold apply_migration.
  apply wp_transaction; [auto|]. intros w1 Hw1. apply wp_bind, wp_try.
  rewrite <-Hw1 in *. apply wp_sqlite_call.
  - intros e w2 Hw2 Hf. pose proof Hf as (n & c & _ & [-> | ->]); apply wp_throw; intros w3 Hw3; apply He; eauto.
  - intros e w2 H. done.
  - intros a d w2 [= _ <-] Hw2. apply wp_bind. sql_step.
    assert (schema_migrations (db w0) = Some rows) as Hr0.
    { rewrite Hw, Hw2. cbn. by rewrite Hrows. }
    apply wp_sqlite_call.
    + intros e w3 Hw3 Hf w4 Hw4. apply He; auto.
    + intros e w3 H. unfold insert_migration in H. rewrite Hr0 in H.
      case_bool_decide as Hb; [|done]. destruct Hnot. by exists rows.
    + intros [] d w3 H Hw3 w4 Hw4. unfold insert_migration in H. rewrite Hr0 in H.
      case_bool_decide as Hb; [done|]. injection H as <-.
      apply (Hq t rows); [done|]. rewrite Hw4, Hw3, Hw, Hw2. by destruct (db w1).
Qed.

Lemma recorded_names rows d :
  schema_migrations d = Some rows → recorded d ↔ "0001_init" ∈ rows.*1.
Proof. intros Hr. unfold recorded. rewrite Hr. naive_solver. Qed.

(** The common start of a migration: the bookkeeping table and its names. *)
Lemma wp_migrate Q w :
  (∀ e w', set_migrations (schema_migrations (db w)) (db w') = db w →
     (recorded (db w) → db w' = db w) → faulted e → Q (Err e) w') →
  (∀ w', set_migrations (schema_migrations (db w)) (db w') = db w →
     (recorded (db w) → db w' = db w) → (¬ recorded (db w) → ¬ recorded (db w')) →
     is_Some (schema_migrations (db w')) →
     wp (if decide (recorded (db w)) then st_ret [] else
           let* _ := apply_migration "0001_init" init_sql in st_ret ["0001_init"]) Q w') →
  wp migrate Q w.
Proof.
  intros He Hq. unfold migrate.
  apply wp_bind, wp_sqlite_call; [intros e w1 Hw1 Hf; apply He; rewrite ?Hw1; auto;
    by destruct (db w)|done|].
  intros [] d w1 [= <-] Hw1.
  assert (set_migrations (schema_migrations (db w)) (db w1) = db w) as Hsame
    by (rewrite Hw1; by destruct (db w)).
  assert (recorded (db w) → db w1 = db w) as Hrec.
  { intros (rows & Hr & _). rewrite Hw1, Hr. cbn. rewrite <-Hr. by destruct (db w). }
  assert (¬ recorded (db w) → ¬ recorded (db w1)) as Hnot.
  { rewrite Hw1. intros Hn (rows & Hr & Hin). cbn in Hr.
    destruct (schema_migrations (db w)) as [rows0|] eqn:E; cbn in Hr; simplify_eq;
      [|by apply elem_of_nil in Hin]. apply Hn. by exists rows. }
  assert (schema_migrations (db w1) = Some (default [] (schema_migrations (db w)))) as Hm
    by by rewrite Hw1.
  apply wp_bind, wp_sqlite_call; rewrite ?Hm.
  - intros e w2 Hw2 Hf. apply He; rewrite ?Hw2; auto.
  - intros e w2 H. done.
  - intros names d w2 [= <- <-] Hw2. rewrite <-Hw2 in *.
    specialize (Hq w2 Hsame Hrec Hnot ltac:(by eexists)).
    pose proof (recorded_names _ _ Hm) as Hn.
    unfold MIGRATIONS. cbn [migrate_loop app].
    destruct (decide (recorded (db w))) as [Hd|Hd].
    + rewrite bool_decide_eq_true_2; [done|]. apply Hn. by rewrite (Hrec Hd).
    + rewrite bool_decide_eq_false_2; [done|]. by rewrite <-Hn; apply Hnot.
Qed.
(** C16: migrating is all or nothing and idempotent.  A run that fails, by a
    fault at any call, leaves every table and the schema as they were (only
    the bookkeeping table may now exist, empty); a run that succeeds leaves
    the schema in place and recorded, and no later run changes anything or
    applies anything again. *)
Theorem migrate_idempotent (w : World) :
  (recorded (db w) → schema (db w) = true) →
  match migrate w with
  | (Err e, w') => schema (db w') = schema (db w) ∧
      set_migrations (schema_migrations (db w)) (db w') = db w ∧
      (faulted e ∨ ∃ m, e = Migration "0001_init" m)
  | (Ok applied, w') => migrated (db w') ∧
      (recorded (db w) ∧ applied = [] ∨ ¬ recorded (db w) ∧ applied = ["0001_init"]) ∧
      let '(r, w'') := migrate w' in
      db w'' = db w' ∧ (r = Ok [] ∨ ∃ e, r = Err e ∧ faulted e)
  end.
Proof.
  intros Hcons.
  assert (∀ w1, migrated (db w1) →
    let '(r, w2) := migrate w1 in db w2 = db w1 ∧ (r = Ok [] ∨ ∃ e, r = Err e ∧ faulted e))
    as Hagain.
  { intros w1 [_ Hrec]. to_wp. apply wp_migrate; [intros e w' _ Hw' Hf; split; [by apply Hw'|eauto]|].
    intros w2 _ Hw2 _ _. rewrite decide_True by done. apply wp_ret. auto. }
  to_wp. apply wp_migrate.
  - intros e w' Hw' _ Hf. split_and!; [|done|by left]. rewrite <-Hw'. done.
  - intros w1 Hw1 Hrec Hnot Hsome. destruct (decide (recorded (db w))) as [Hd|Hd].
    + apply wp_ret. assert (migrated (db w1)) as Hm by (rewrite (Hrec Hd); split; auto).
      split_and!; [done|auto|by apply Hagain].
    + apply wp_bind, wp_apply_init; [done|auto|..].
      * intros e w' Hw' Hf. rewrite Hw'. split_and!; [by rewrite <-Hw1|done|done].
      * intros t rows w' _ Hw'. apply wp_ret. assert (migrated (db w')) as Hm.
        { rewrite Hw'. split; [done|]. eexists. split; [done|]. rewrite fmap_app.
          apply elem_of_app. right. by apply elem_of_cons; left. }
        split_and!; [done|auto|by apply Hagain].
Qed.
End Reach.

Lemma migrate_idempotent_witness :
  (recorded empty_db → schema empty_db = true) ∧
  match migrate (env:=faulty_env 1000 7 4) (mk_world empty_db 0 0) with
  | (Err e, w') => schema (db w') = false ∧
      set_migrations None (db w') = empty_db ∧
      (faulted (env:=faulty_env 1000 7 4) e ∨ ∃ m, e = Migration "0001_init" m)
  | (Ok applied, w') => migrated (db w') ∧
      (recorded empty_db ∧ applied = [] ∨ ¬ recorded empty_db ∧ applied = ["0001_init"]) ∧
      let '(r, w'') := migrate (env:=faulty_env 1000 7 4) w' in
      db w'' = db w' ∧ (r = Ok [] ∨ ∃ e, r = Err e ∧ faulted (env:=faulty_env 1000 7 4) e)
  end.
Proof.
  assert (recorded empty_db → schema empty_db = true) as H by (intros (rows & [=] & _)).
  split; [exact H|].
  exact (migrate_idempotent (env:=faulty_env 1000 7 4) (mk_world empty_db 0 0) H).
Defined.
