(* ===== verification/Router.v ===== *)
(** * Router: per-workflow dedupe of phone inputs (crate calcar-workflow)

    [InputRouter] of [calcar-workflow/src/router.rs] over any [RequestStore]:
    first delivery of an input id wins, a repeat is dropped, a half-claimed
    row is confirmed by the retry.  Histories interleave deliveries with
    restarts, forgotten workflows, and whatever else the rest of the agent
    does to the store. *)

From Stdlib Require Import Ascii.
From S2P Require Import Prelude Text Events Schema Storage Requests.

(** [enum RouteOutcome] *)
Inductive RouteOutcome := Delivered | Duplicate.

#[export] Instance RouteOutcome_eq_dec : EqDecision RouteOutcome.
Proof. solve_decision. Defined.

(** [struct InputRouter]: the borrowed store and the two counters. *)
Record InputRouter (S : Type) := mk_router {
  rt_store : S;
  rt_delivered : gmap string Z;
  rt_duplicates : gmap string Z;
}.
Arguments mk_router {S} _ _ _.
Arguments rt_store {S} _.
Arguments rt_delivered {S} _.
Arguments rt_duplicates {S} _.

(** [storage_key] *)
Definition storage_key (workflow_id input_id : string) : string :=
  "input:" +:+ workflow_id +:+ ":" +:+ input_id.

(** [bump]: a [u64] counter *)
Definition bump (counts : gmap string Z) (workflow_id : string) : gmap string Z :=
  <[workflow_id := to_u64 (default 0%Z (counts !! workflow_id) + 1)]> counts.

Section Router.
Context {S : Type} {RS : RequestStore S}.

Definition RouterM (A : Type) : Type := ST (InputRouter S) StorageError A.

(** A call into the borrowed store. *)
Definition on_store {A} (m : ST S StorageError A) : RouterM A := λ rt,
  let '(r, s) := m (rt_store rt) in
  (r, mk_router s (rt_delivered rt) (rt_duplicates rt)).

Definition bump_delivered (wf : string) : RouterM unit := λ rt,
  (Ok tt, mk_router (rt_store rt) (bump (rt_delivered rt) wf) (rt_duplicates rt)).
Definition bump_duplicates (wf : string) : RouterM unit := λ rt,
  (Ok tt, mk_router (rt_store rt) (rt_delivered rt) (bump (rt_duplicates rt) wf)).

(** [InputRouter::new] *)
Definition router_new (s : S) : InputRouter S := mk_router s ∅ ∅.

(** [InputRouter::deliver] *)
Definition deliver (workflow_id input_id : string) : RouterM RouteOutcome :=
  if bool_decide (workflow_id = "") then st_throw (InvalidState "workflow id must not be empty")
  else if bool_decide (input_id = "") then st_throw (InvalidState "input id must not be empty")
  else
    let key := storage_key workflow_id input_id in
    let* created := st_try (on_store (rs_create key workflow_id Input None)) in
    match created with
    | Ok _ =>
        let* _ := on_store (rs_resolve key "") in
        let* _ := bump_delivered workflow_id in
        st_ret Delivered
    | Err first =>
        let* resolved := st_try (on_store (rs_resolve key "")) in
        match resolved with
        | Ok _ =>
            let* _ := bump_delivered workflow_id in
            st_ret Delivered
        | Err (AlreadyResolved _) | Err (Expired _) =>
            let* _ := bump_duplicates workflow_id in
            st_ret Duplicate
        | Err _ => st_throw first
        end
    end.

(** [delivered_for], [duplicates_for] *)
Definition delivered_for (rt : InputRouter S) (wf : string) : Z :=
  default 0%Z (rt_delivered rt !! wf).
Definition duplicates_for (rt : InputRouter S) (wf : string) : Z :=
  default 0%Z (rt_duplicates rt !! wf).

(** [totals] *)
Definition total (counts : gmap string Z) : Z :=
  foldr (λ n acc, to_u64 (acc + n)) 0%Z (map_to_list counts).*2.
Definition totals (rt : InputRouter S) : Z * Z :=
  (total (rt_delivered rt), total (rt_duplicates rt)).

(** [forget_workflow] *)
Definition forget_workflow (wf : string) (rt : InputRouter S) : (Z * Z) * InputRouter S :=
  ((delivered_for rt wf, duplicates_for rt wf),
   mk_router (rt_store rt) (delete wf (rt_delivered rt)) (delete wf (rt_duplicates rt))).

(** ** Histories *)

(** What anyone else may do to the store: settled requests stay settled. *)
Definition store_moves (s s' : S) : Prop :=
  ∀ k, settled (rs_status s k) → rs_status s' k = rs_status s k.

Inductive RouterEvent :=
| Answered (workflow_id input_id : string) (r : result RouteOutcome StorageError)
| Silent.

Inductive router_step : InputRouter S → RouterEvent → InputRouter S → Prop :=
| step_deliver rt wf id r rt' :
    deliver wf id rt = (r, rt') → router_step rt (Answered wf id r) rt'
| step_forget rt wf :
    router_step rt Silent (forget_workflow wf rt).2
| step_restart rt :
    router_step rt Silent (router_new (rt_store rt))
| step_others rt s' :
    store_moves (rt_store rt) s' →
    router_step rt Silent (mk_router s' (rt_delivered rt) (rt_duplicates rt)).

Inductive router_steps : InputRouter S → list RouterEvent → InputRouter S → Prop :=
| steps_nil rt : router_steps rt [] rt
| steps_cons rt e rt1 tr rt' :
    router_step rt e rt1 → router_steps rt1 tr rt' → router_steps rt (e :: tr) rt'.

(** The event hands the input with this key to the caller. *)
Definition delivers (key : string) (e : RouterEvent) : Prop :=
  match e with
  | Answered wf id (Ok Delivered) => storage_key wf id = key
  | _ => False
  end.

#[export] Instance delivers_dec key e : Decision (delivers key e).
Proof. destruct e as [wf id [[]|]|]; cbn; apply _. Defined.

(** ** Facts *)

Lemma wp_on_store {A} (m : ST S StorageError A) Q rt :
  wp m (λ r s, Q r (mk_router s (rt_delivered rt) (rt_duplicates rt))) (rt_store rt) →
  wp (on_store m) Q rt.
Proof. unfold wp, on_store. by destruct (m (rt_store rt)). Qed.

(** The effect of one delivery on the stores' statuses and the counters. *)
Definition deliver_result (wf id : string) (rt : InputRouter S)
    (r : result RouteOutcome StorageError) (rt' : InputRouter S) : Prop :=
  let key := storage_key wf id in
  let st := rs_status (rt_store rt) key in
  let st' := rs_status (rt_store rt') key in
  (∀ k, k ≠ key → rs_status (rt_store rt') k = rs_status (rt_store rt) k) ∧
  match r with
  | Ok Delivered =>
      ¬ settled st ∧ st' = Some (RResolved "") ∧
      rt_delivered rt' = bump (rt_delivered rt) wf ∧ rt_duplicates rt' = rt_duplicates rt
  | Ok Duplicate =>
      settled st' ∧ (st' = st ∨ ∃ e, st = Some (RPending e) ∧ st' = Some RExpired) ∧
      rt_delivered rt' = rt_delivered rt ∧ rt_duplicates rt' = bump (rt_duplicates rt) wf
  | Err e =>
      rt_delivered rt' = rt_delivered rt ∧ rt_duplicates rt' = rt_duplicates rt ∧
      (settled st → st' = st) ∧ (∀ p, st' = Some (RResolved p) → st' = st) ∧
      ((wf = "" ∨ id = "") ∧ rt' = rt ∨
       rs_known (rt_store rt) wf = false ∧ e = NotFound ("workflow " +:+ wf) ∨
       rs_fault (rt_store rt) e ∨ is_fault e = true)
  end.

(** Without engine errors: what is answered. *)
Definition deliver_answer (wf id : string) (s : S) (r : result RouteOutcome StorageError) : Prop :=
  match rs_status s (storage_key wf id) with
  | None => r = if rs_known s wf then Ok Delivered else Err (NotFound ("workflow " +:+ wf))
  | Some (RPending None) => r = Ok Delivered
  | Some (RPending (Some _)) => r = Ok Delivered ∨ r = Ok Duplicate
  | Some _ => r = Ok Duplicate
  end.

(** What one delivery may answer, and must without engine errors. *)
Definition deliver_fits (wf id : string) (rt : InputRouter S)
    (r : result RouteOutcome StorageError) (rt' : InputRouter S) : Prop :=
  deliver_result wf id rt r rt' ∧
  (wf ≠ "" → id ≠ "" → (∀ e, ¬ rs_fault (rt_store rt) e) → deliver_answer wf id (rt_store rt) r).

(** The row was created just now. *)
Lemma deliver_claimed wf id rt s1 :
  let key := storage_key wf id in
  rs_known (rt_store rt) wf = true → rs_status (rt_store rt) key = None →
  rs_status s1 key = Some (RPending None) →
  (∀ k, k ≠ key → rs_status s1 k = rs_status (rt_store rt) k) → (∀ e, rs_fault s1 e → rs_fault (rt_store rt) e) →
  wp (let* _ := on_store (rs_resolve key "") in let* _ := bump_delivered wf in st_ret Delivered)
    (deliver_fits wf id rt) (mk_router s1 (rt_delivered rt) (rt_duplicates rt)).
Proof.
  intros key Hk H0 H1 Hoth Hf1. unfold deliver_fits, deliver_answer, deliver_result. fold key. rewrite H0, Hk. cbn.
  apply wp_bind, wp_on_store. eapply wp_mono; [apply resolve_cases|]. cbn.
  intros r s2 (Hoth2 & Hf2 & Hr). destruct r as [[]|e].
  + destruct Hr as (x & _ & Hst).
    split; [|done]. split; [intros k Hne; by rewrite Hoth2, Hoth|split_and!; auto].
  + destruct Hr as (_ & Hp & Hr). split.
    * split; [intros k Hne; by rewrite Hoth2, Hoth|]. split_and!; [done..| |].
      -- intros p Hst. rewrite (Hp p Hst), H1 in Hst. done.
      -- rewrite H1 in Hr. right. right. naive_solver.
    * intros _ _ Hno. exfalso. rewrite H1 in Hr. naive_solver.
Qed.

(** The row was not created: it was there, the workflow is unknown, or an engine error. *)
Lemma deliver_reclaimed wf id first rt s1 :
  let key := storage_key wf id in
  (∀ k, rs_status s1 k = rs_status (rt_store rt) k) → (∀ e, rs_fault s1 e → rs_fault (rt_store rt) e) →
  (rs_fault (rt_store rt) first ∨ (rs_known (rt_store rt) wf = false ∧ first = NotFound ("workflow " +:+ wf)) ∨
   (rs_known (rt_store rt) wf = true ∧ rs_status (rt_store rt) key ≠ None ∧ is_fault first = true)) →
  wp (let* resolved := st_try (on_store (rs_resolve key "")) in
      match resolved with
      | Ok _ => let* _ := bump_delivered wf in st_ret Delivered
      | Err (AlreadyResolved _) | Err (Expired _) => let* _ := bump_duplicates wf in st_ret Duplicate
      | Err _ => st_throw first
      end)
    (deliver_fits wf id rt) (mk_router s1 (rt_delivered rt) (rt_duplicates rt)).
Proof.
  intros key Hsame Hf1 Hfirst. unfold deliver_fits, deliver_answer, deliver_result. fold key.
  assert (rs_fault (rt_store rt) first ∨ is_fault first = true ∨
    rs_known (rt_store rt) wf = false ∧ first = NotFound ("workflow " +:+ wf)) as Hf
    by naive_solver.
  apply wp_bind, wp_try, wp_on_store. eapply wp_mono; [apply resolve_cases|]. cbn.
  intros r s2 (Hoth2 & Hf2 & Hr). rewrite Hsame in Hr.
  assert (∀ k, k ≠ key → rs_status s2 k = rs_status (rt_store rt) k) as Hoth
    by (intros k Hne; by rewrite Hoth2, Hsame).
  destruct r as [[]|e].
  + destruct Hr as (x & Hx & Hst). rewrite Hx.
    split; [split_and!; auto|]. intros _ _ _. destruct x; auto.
  + destruct Hr as (Hset & Hp & Hr).
    assert (rs_fault (rt_store rt) e ∨ e = NotFound ("request " +:+ key) ∧
        rs_status (rt_store rt) key = None →
      wp (st_throw first) (λ r rt', deliver_result wf id rt r rt' ∧
        (wf ≠ "" → id ≠ "" → (∀ e, ¬ rs_fault (rt_store rt) e) →
         deliver_answer wf id (rt_store rt) r)) (mk_router s2 (rt_delivered rt) (rt_duplicates rt)))
      as Hthrow.
    { intros Hcase. apply wp_throw. split.
      - split; [done|]. cbn. fold key. split_and!; [done..|]. naive_solver.
      - intros _ _ Hno. destruct Hcase as [Hc|[_ Hn]]; [by apply Hno in Hc|].
        unfold deliver_answer. fold key. rewrite Hn in *.
        destruct Hfirst as [Hc|[[-> ->]|(_ & ? & _)]]; [by apply Hno in Hc|done|done]. }
    fold key in Hthrow.
    destruct Hr as [He|[(Hn & _ & ->)|[[-> [q Hq]]|(-> & Hexp & Hx)]]].
    * assert (is_fault e = true) as Hfe by by eapply rs_fault_is_fault.
      destruct e; try done; apply Hthrow; left; by apply Hf1.
    * apply Hthrow. auto.
    * cbn. rewrite Hq in *. specialize (Hset I). split; [|done].
      split; [done|]. rewrite Hset. split_and!; [done|by left|done..].
    * cbn. rewrite Hexp. split.
      -- split; [done|]. split_and!; [done| |done..].
         destruct Hx as [Hx|[x Hx]]; rewrite Hx; eauto.
      -- destruct Hx as [Hx|[x Hx]]; rewrite Hx; auto.
Qed.

Lemma deliver_ok wf id rt : wp (deliver wf id) (deliver_fits wf id rt) rt.
Proof.
  unfold deliver. case_bool_decide as Hwf; [apply wp_throw; split; [split; naive_solver|done]|].
  case_bool_decide as Hid; [apply wp_throw; split; [split; naive_solver|done]|].
  set (key := storage_key wf id). apply wp_bind, wp_try, wp_on_store, wp_of. intros c s1 Hrun.
  pose proof (rs_create_law key wf Input None (rt_store rt)) as Hc. rewrite Hrun in Hc.
  destruct Hc as (_ & Hf1 & Hc). destruct c as [[]|first].
  - destruct Hc as (Hk & H0 & H1 & Hoth). by apply deliver_claimed.
  - destruct Hc as (Hsame & Hfirst). by apply deliver_reclaimed.
Qed.
Lemma step_settled rt e rt' key :
  router_step rt e rt' → settled (rs_status (rt_store rt) key) →
  ¬ delivers key e ∧ rs_status (rt_store rt') key = rs_status (rt_store rt) key.
Proof.
  intros Hstep Hset. destruct Hstep as [rt wf id r rt' Hrun|rt wf|rt|rt s' Hmove];
    [|by split; [intros []|]..|by split; [intros []|apply Hmove]].
  destruct (wp_eq _ _ _ _ _ Hrun (deliver_ok wf id rt)) as [[Hoth Hr] _].
  destruct (decide (key = storage_key wf id)) as [->|Hne].
  - destruct r as [[]|e]; cbn.
    + by destruct Hr as [Hr _].
    + destruct Hr as (_ & [Hr|(x & Hr & _)] & _); [by split; [intros []|]|]. by rewrite Hr in Hset.
    + by destruct Hr as (_ & _ & Hr & _); split; [intros []|apply Hr].
  - split; [|by apply Hoth]. destruct r as [[]|e]; cbn; naive_solver.
Qed.

Lemma step_delivers rt e rt' key :
  router_step rt e rt' → delivers key e → settled (rs_status (rt_store rt') key).
Proof.
  intros Hstep Hd. destruct Hstep as [rt wf id r rt' Hrun|rt wf|rt|rt s' Hmove]; try done.
  destruct (wp_eq _ _ _ _ _ Hrun (deliver_ok wf id rt)) as [[_ Hr] _].
  destruct r as [[]|e]; cbn in Hd; try done. subst key. by destruct Hr as (_ & -> & _).
Qed.

Lemma steps_settled rt tr rt' key :
  router_steps rt tr rt' → settled (rs_status (rt_store rt) key) →
  filter (delivers key) tr = [].
Proof.
  induction 1 as [|rt e rt1 tr rt' Hstep _ IH]; intros Hset; [done|].
  destruct (step_settled _ _ _ key Hstep Hset) as [Hd Hst].
  rewrite filter_cons_False by done. apply IH. by rewrite Hst.
Qed.

(** ** Theorems *)

(** C3: at most one delivery per dedupe key, over any history.  Deliveries,
    engine faults at any call inside them, restarts, forgotten workflows and
    arbitrary other activity on the store may interleave in any order; of all
    answers for one key at most one is [Delivered], and none is once the row
    is settled. *)
Theorem router_at_most_once (rt rt' : InputRouter S) (tr : list RouterEvent) (key : string) :
  router_steps rt tr rt' →
  length (filter (delivers key) tr) ≤ 1 ∧
  (settled (rs_status (rt_store rt) key) → filter (delivers key) tr = []).
Proof.
  intros Hsteps. split; [|by eapply steps_settled].
  induction Hsteps as [|rt e rt1 tr rt' Hstep Hsteps IH]; [cbn; lia|]. rewrite filter_cons.
  case_decide as Hd; [|done]. cbn.
  rewrite (steps_settled _ _ _ _ Hsteps (step_delivers _ _ _ _ Hstep Hd)). cbn. lia.
Qed.

(** One delivery, on every branch.  [Delivered] happens only on a row
    that was not settled, settles it with the empty receipt and counts one
    delivery; [Duplicate] only when the row was settled or has just expired,
    and counts one duplicate; an error changes no counter, settles nothing
    with a receipt, and is the empty-id refusal, the unknown workflow, or an
    engine error.  No other key changes.  When no engine error can occur the
    answer is determined by the row: fresh or half-claimed rows deliver,
    settled rows are duplicates, and an unknown workflow is refused. *)
Theorem deliver_spec (wf id : string) (rt : InputRouter S) :
  let '(r, rt') := deliver wf id rt in
  deliver_result wf id rt r rt' ∧
  (wf ≠ "" → id ≠ "" → (∀ e, ¬ rs_fault (rt_store rt) e) →
   deliver_answer wf id (rt_store rt) r).
Proof. to_wp. apply deliver_ok. Qed.
End Router.

(** Dedupe keys.  As long as workflow ids hold no colon, different
    (workflow, input) pairs have different keys, so the same input id under two
    workflows is independent.  With colons in the ids two pairs share a key:
    after [("a:b", "c")] is delivered, [("a", "b:c")] is dropped as a duplicate
    although it was never seen. *)
Theorem storage_key_injective :
  (∀ wf id wf' id', contains_byte ":"%char wf = false → contains_byte ":"%char wf' = false →
     storage_key wf id = storage_key wf' id' → wf = wf' ∧ id = id') ∧
  storage_key "a:b" "c" = storage_key "a" "b:c".
Proof.
  split; [|done]. intros wf id wf' id' H H' Heq. unfold storage_key in Heq.
  apply sapp_inj_l in Heq. change (":" +:+ id) with (String ":"%char id) in Heq.
  change (":" +:+ id') with (String ":"%char id') in Heq.
  assert (split_once ":"%char (wf +:+ String ":"%char id) = split_once ":"%char (wf' +:+ String ":"%char id')) as E
    by by rewrite Heq.
  rewrite !split_once_app in E by done. by injection E.
Qed.

(** ** Witness: deliver, restart, deliver again over the database *)

Definition router_world : InputRouter World :=
  router_new (mk_world (mk_db (Some [("0001_init", 999%Z)]) true
    {["wf-1" := mk_workflow_row "wf-1" 4 1 "build" None 1000 1000]} [] [] ∅ ∅ ∅) 0 0).

#[local] Instance retry_env : Env := faulty_env 1000 7 3.

Definition retry_first : result RouteOutcome StorageError * InputRouter World :=
  deliver "wf-1" "u-1" router_world.
Definition retry_again : result RouteOutcome StorageError * InputRouter World :=
  deliver "wf-1" "u-1" (router_new (rt_store retry_first.2)).
Definition retry_trace : list RouterEvent :=
  [Answered "wf-1" "u-1" retry_first.1; Silent; Answered "wf-1" "u-1" retry_again.1].

(** The first attempt faults between claim and confirm; the retry delivers. *)
Example retry_trace_answers :
  retry_trace = [Answered "wf-1" "u-1" (Err (Sqlite (SqliteFault 10))); Silent;
                 Answered "wf-1" "u-1" (Ok Delivered)].
Proof. vm_compute. reflexivity. Qed.

Lemma retry_steps : router_steps router_world retry_trace retry_again.2.
Proof.
  eapply steps_cons; [by apply step_deliver, surjective_pairing|].
  eapply steps_cons; [apply step_restart|].
  eapply steps_cons; [by apply step_deliver, surjective_pairing|apply steps_nil].
Qed.

Lemma router_at_most_once_witness :
  router_steps router_world retry_trace retry_again.2 ∧
  length (filter (delivers (storage_key "wf-1" "u-1")) retry_trace) ≤ 1.
Proof.
  split; [exact retry_steps|].
  exact (proj1 (router_at_most_once router_world _ retry_trace (storage_key "wf-1" "u-1")
    retry_steps)).
Defined.
