(* ===== verification/Concurrent.v ===== *)
(** * Concurrent: the store shared statement by statement

    Elsewhere a method of [Storage] is one step.  Here several connections to
    the same file, of threads or of processes, run at once, and SQLite
    serialises only their statements: the methods become programs that are
    paused between any two of them.  [run] puts the statements of a program
    together again, and gives back the method of [Storage.v], [Requests.v] and
    [Router.v].  The theorems say what the single-resolve rows promise when
    deliveries and resolves race, and an example what the state machine of a
    workflow does not promise. *)

From stdpp Require Import relations.
From S2P Require Import Prelude Text Events Schema Storage Requests Router.

(** ** Programs *)

(** The rest of a running method: it has answered, or its next statement is
    [m] and [k] goes on with what [m] answered. *)
Inductive Prog (A : Set) : Type :=
| Done (r : result A StorageError)
| Call (B : Set) (m : StoreM B) (k : result B StorageError → Prog A).
Arguments Done {A} _.
Arguments Call {A B} _ _.

(** The statements of a program one after the other, with nothing between. *)
Fixpoint run {A} (p : Prog A) : StoreM A :=
  match p with
  | Done r => st_lift r
  | Call m k => λ w, let '(r, w') := m w in run (k r) w'
  end.

(** One statement. *)
Definition atom {A : Set} (m : StoreM A) : Prog A := Call m Done.

(** [match p { ... }] *)
Fixpoint p_match {A B : Set} (p : Prog A) (c : result A StorageError → Prog B) : Prog B :=
  match p with
  | Done r => c r
  | Call m k => Call m (λ r, p_match (k r) c)
  end.

(** [p?; k] *)
Definition p_bind {A B : Set} (p : Prog A) (k : A → Prog B) : Prog B :=
  p_match p (λ r, match r with Ok a => k a | Err e => Done (Err e) end).

Notation "'let+' x ':=' p 'in' k" := (p_bind p (λ x, k))
  (at level 10, x pattern, p at level 100, k at level 200,
   format "'[v' 'let+'  x  ':='  p  'in' '/' k ']'") : calcar_scope.

Lemma run_match {A B : Set} (p : Prog A) (c : result A StorageError → Prog B) w :
  run (p_match p c) w = let '(r, w') := run p w in run (c r) w'.
Proof.
  revert w. induction p as [r|X m k IH]; intros w; [done|]. cbn. destruct (m w) as [r w']. apply IH.
Qed.

Lemma run_bind {A B : Set} (p : Prog A) (k : A → Prog B) (m : StoreM A) (k' : A → StoreM B) w :
  (∀ w, run p w = m w) → (∀ a w, run (k a) w = k' a w) → run (p_bind p k) w = st_bind m k' w.
Proof. intros Hp Hk. unfold p_bind, st_bind. rewrite run_match, Hp. by destruct (m w) as [[a|e] w']. Qed.

Lemma run_try {A B : Set} (p : Prog A) (c : result A StorageError → Prog B) (m : StoreM A)
    (k : result A StorageError → StoreM B) w :
  (∀ w, run p w = m w) → (∀ r w, run (c r) w = k r w) →
  run (p_match p c) w = st_bind (st_try m) k w.
Proof. intros Hp Hk. rewrite run_match, Hp. unfold st_bind, st_try. destruct (m w) as [r w']. apply Hk. Qed.

Lemma run_atom {A : Set} (m : StoreM A) w : run (atom m) w = m w.
Proof. cbn. by destruct (m w). Qed.

(** Statement by statement. *)
Ltac run_steps := repeat match goal with
  | |- run (p_bind _ _) _ = _ => apply run_bind; intros
  | |- run (p_match _ _) _ = _ => apply run_try; intros
  | |- run (atom _) _ = _ => apply run_atom
  | |- run (if bool_decide _ then _ else _) _ = _ => case_bool_decide
  | |- run (if ?b then _ else _) _ = _ => destruct b
  | |- run (match ?x with _ => _ end) _ = _ => destruct x
  | |- run (Done _) _ = _ => reflexivity
  end.

(** The program ends within [n] statements, whatever they answer. *)
Fixpoint ends_within {A} (n : nat) (p : Prog A) : Prop :=
  match p, n with
  | Done _, _ => True
  | Call _ k, S n' => ∀ r, ends_within n' (k r)
  | Call _ _, O => False
  end.

Section Concurrent.
Context {env : Env}.

(** ** The methods as programs *)

(** [Storage::get_workflow] *)
Definition get_workflow_prog (id : string) : Prog (option WorkflowRow) := atom (get_workflow id).

(** [Storage::create_pending_request] *)
Definition create_request_prog (request_id wf : string) (kind : RequestKind)
    (expires_at_millis : option Z) : Prog unit :=
  let+ found := get_workflow_prog wf in
  match found with
  | None => Done (Err (NotFound ("workflow " +:+ wf)))
  | Some _ =>
      let+ t := atom now in
      atom (execute (insert_request request_id
        (mk_request_row wf (request_kind_i32 kind) 1 t expires_at_millis None None)))
  end.

(** [Storage::resolve_pending_request] *)
Definition resolve_prog (request_id payload : string) : Prog unit :=
  let+ t := atom now in
  let+ _ := atom (execute (expire_one request_id t)) in
  let+ updated := atom (execute (resolve_one request_id t payload)) in
  if (updated =? 1)%Z then Done (Ok tt)
  else
    let+ found := atom (A:=option Z) (select (λ d, @fmap option _ _ _ rq_state (pending_requests d !! request_id))) in
    Done (Err match found with
              | Some 3%Z => Expired request_id
              | Some _ => AlreadyResolved request_id
              | None => NotFound ("request " +:+ request_id)
              end).

(** [Storage::expire_pending_requests] *)
Definition expire_prog : Prog Z :=
  let+ t := atom now in
  atom (execute (expire_all t)).

(** [InputRouter::deliver] of a fresh router over its own connection *)
Definition deliver_prog (workflow_id input_id : string) : Prog RouteOutcome :=
  if bool_decide (workflow_id = "") then Done (Err (InvalidState "workflow id must not be empty"))
  else if bool_decide (input_id = "") then Done (Err (InvalidState "input id must not be empty"))
  else
    let key := storage_key workflow_id input_id in
    p_match (create_request_prog key workflow_id Input None) (λ created,
      match created with
      | Ok _ => let+ _ := resolve_prog key "" in Done (Ok Delivered)
      | Err first =>
          p_match (resolve_prog key "") (λ resolved,
            match resolved with
            | Ok _ => Done (Ok Delivered)
            | Err (AlreadyResolved _) | Err (Expired _) => Done (Ok Duplicate)
            | Err _ => Done (Err first)
            end)
      end).

(** [Storage::set_workflow_state] *)
Definition set_state_prog (id : string) (new_state : WorkflowState) : Prog WorkflowRow :=
  if negb (is_persistable new_state) then
    Done (Err (InvalidState ("state " +:+ state_debug new_state +:+
      " is a projection or unspecified and is never persisted")))
  else
    let+ found := get_workflow_prog id in
    let+ current := Done (ok_or found (NotFound ("workflow " +:+ id))) in
    if bool_decide (state current ∈ TERMINAL_STATES) then
      Done (Err (InvalidState ("workflow " +:+ id +:+ " is in terminal state " +:+
        dec (state current) +:+ "; no transitions out")))
    else
      let+ t := atom now in
      let+ _ := atom (execute (update_workflow_state id (state_i32 new_state) t)) in
      let+ found := get_workflow_prog id in
      Done (ok_or found (NotFound ("workflow " +:+ id))).

(** Run on their own, the programs are the methods. *)
Lemma run_create id wf kind expires w :
  run (create_request_prog id wf kind expires) w = create_pending_request id wf kind expires w.
Proof. unfold create_request_prog, create_pending_request, get_workflow_prog. run_steps. Qed.

Lemma run_resolve id payload w : run (resolve_prog id payload) w = resolve_pending_request id payload w.
Proof.
  unfold resolve_prog, resolve_pending_request. run_steps. by repeat case_match.
Qed.

Lemma run_expire w : run expire_prog w = expire_pending_requests w.
Proof. unfold expire_prog, expire_pending_requests. run_steps. Qed.

Lemma run_set_state id s w : run (set_state_prog id s) w = set_workflow_state id s w.
Proof.
  unfold set_state_prog, set_workflow_state, get_workflow_prog. destruct (negb _); [done|].
  run_steps; case_bool_decide; try done; run_steps.
Qed.

Lemma run_deliver wf id w :
  run (deliver_prog wf id) w = let '(r, rt) := deliver wf id (router_new w) in (r, rt_store rt).
Proof.
  unfold deliver_prog, deliver. destruct (bool_decide _); [done|]. destruct (bool_decide _); [done|].
  generalize (storage_key wf id) as key. intros key.
  rewrite run_match, run_create. unfold st_bind, st_try, on_store. cbn -[run resolve_prog resolve_pending_request create_pending_request].
  destruct (create_pending_request key wf Input None w) as [[[]|first] w1].
  - unfold p_bind. rewrite run_match, run_resolve. cbn -[resolve_pending_request].
    by destruct (resolve_pending_request key EmptyString w1) as [[[]|e] w2].
  - rewrite run_match, run_resolve. cbn -[resolve_pending_request].
    by destruct (resolve_pending_request key EmptyString w1) as [[[]|[]] w2].
Qed.

(** ** Threads *)

Inductive Task :=
| DeliverTask (workflow_id input_id : string)
| ResolveTask (request_id payload : string)
| CreateTask (request_id wf : string) (kind : RequestKind) (expires_at_millis : option Z)
| ExpireTask
| SetStateTask (id : string) (new_state : WorkflowState).

Definition task_result (t : Task) : Set :=
  match t with
  | DeliverTask _ _ => RouteOutcome
  | ResolveTask _ _ | CreateTask _ _ _ _ => unit
  | ExpireTask => Z
  | SetStateTask _ _ => WorkflowRow
  end.

Definition task_prog (t : Task) : Prog (task_result t) :=
  match t with
  | DeliverTask wf id => deliver_prog wf id
  | ResolveTask id payload => resolve_prog id payload
  | CreateTask id wf kind expires => create_request_prog id wf kind expires
  | ExpireTask => expire_prog
  | SetStateTask id s => set_state_prog id s
  end.

(** A thread that works on a task, with the rest of its method. *)
Record Thread := mk_thread { th_task : Task; th_rest : Prog (task_result th_task) }.

Definition start (t : Task) : Thread := mk_thread t (task_prog t).

(** The next statement of a thread. *)
Definition advance (th : Thread) (w : World) : Thread * World :=
  let 'mk_thread t p := th in
  match p with
  | Done _ => (th, w)
  | Call m k => let '(r, w') := m w in (mk_thread t (k r), w')
  end.

(** The request a task settles when it answers so, and with what payload. *)
Definition task_applied (t : Task) : result (task_result t) StorageError → option (string * string) :=
  match t with
  | DeliverTask wf id => λ r,
      match r with Ok Delivered => Some (storage_key wf id, "") | _ => None end
  | ResolveTask id payload => λ r, match r with Ok _ => Some (id, payload) | _ => None end
  | _ => λ _, None
  end.
Definition applied (th : Thread) : option (string * string) :=
  let 'mk_thread t p := th in
  match p with Done r => task_applied t r | Call _ _ => None end.

(** What other connections may do to the requests meanwhile: settled ones
    stay as they are. *)
Definition rows_move (d d' : Db) : Prop :=
  ∀ key, settled (status d key) → status d' key = status d key.

(** Threads arrive, take turns in any order, and anything else may happen to
    the store between two statements. *)
Inductive pool_step : World * list Thread → World * list Thread → Prop :=
| pool_arrive w pool t : pool_step (w, pool) (w, pool ++ [start t])
| pool_turn w pool i th th' w' :
    pool !! i = Some th → advance th w = (th', w') → pool_step (w, pool) (w', <[i:=th']> pool)
| pool_others w w' pool : rows_move (db w) (db w') → pool_step (w, pool) (w', pool).

(** ** Settling a request *)

(** Whatever is between its statements, the program leaves settled rows alone
    and can only answer that it applied [key] by a statement that itself
    settled the row. *)
Fixpoint disciplined {A} (won : result A StorageError → option (string * string)) (key : string)
    (p : Prog A) : Prop :=
  match p with
  | Done r => ∀ payload, won r ≠ Some (key, payload)
  | Call m k => ∀ w, let '(r, w') := m w in
      (settled (status (db w) key) → status (db w') key = status (db w) key) ∧
      (disciplined won key (k r) ∨
       ∃ a payload, k r = Done a ∧ won a = Some (key, payload) ∧
         ¬ settled (status (db w) key) ∧ status (db w') key = Some (RResolved payload))
  end.

(** A statement that never touches a settled row. *)
Definition careful {A} (m : StoreM A) : Prop := ∀ w, rows_move (db w) (db (m w).2).

Lemma careful_reads {A} (m : StoreM A) : reads_only m → careful m.
Proof. intros H w key _. by rewrite H. Qed.

Lemma careful_select {A} (f : Db → A) : careful (select f).
Proof. apply careful_reads, reads_only_query. Qed.

Lemma careful_execute {A} (f : Db → result (A * Db) SqliteError) :
  (∀ d a d', f d = Ok (a, d') → rows_move d d') → careful (execute f).
Proof.
  intros Hf w key Hs. unfold execute, sqlite_call. destruct (fault _); [done|].
  destruct (schema (db w)); [|done]. destruct (f (db w)) as [[a d]|] eqn:E; [|done]. by eapply Hf.
Qed.

Lemma careful_insert id row : careful (execute (insert_request id row)).
Proof.
  apply careful_execute. intros d [] d'. unfold insert_request. destruct (_ || _); [done|].
  destruct (pending_requests d !! id) eqn:Hid; [done|]. destruct (workflows d !! _); [|done].
  intros [= <-] key Hs. unfold status. cbn. rewrite lookup_insert_ne; [done|].
  intros ->. unfold status in Hs. by rewrite Hid in Hs.
Qed.

Lemma careful_expire_one id t : careful (execute (expire_one id t)).
Proof.
  apply careful_execute. intros d n d' (_ & Hoth & Hst)%expire_one_spec key Hs.
  destruct (decide (key = id)) as [->|Hne]; [|by apply Hoth].
  rewrite Hst. by destruct (status d id) as [[]|].
Qed.

Lemma careful_expire_all t : careful (execute (expire_all t)).
Proof.
  apply careful_execute. intros d n d' [= _ <-] key. unfold status. cbn. rewrite lookup_fmap.
  destruct (pending_requests d !! key) as [r|]; [|done]. cbn. destruct (overdue t r) eqn:Ho; [|done].
  apply overdue_status in Ho as (e & He & _). by rewrite He.
Qed.

Lemma careful_state id z t : careful (execute (update_workflow_state id z t)).
Proof.
  apply careful_execute. intros d [] d'. unfold update_workflow_state.
  destruct (workflows d !! id); [destruct (bool_decide _); [done|]|]; intros [= <-] key _; reflexivity.
Qed.

Lemma careful_resolve_one id t p : careful (execute (resolve_one id t p)).
Proof.
  apply careful_execute. intros d n d' (_ & Hoth & Hst)%resolve_one_spec key Hs.
  destruct (decide (key = id)) as [->|Hne]; [|by apply Hoth].
  destruct (status d id) as [[]|] eqn:E; try done; destruct Hst as [_ ->]; by rewrite E.
Qed.
Create HintDb careful.
#[local] Hint Resolve careful_reads careful_select careful_insert careful_expire_one careful_expire_all
  careful_state careful_resolve_one reads_only_get_workflow reads_only_now reads_only_query : careful.

Lemma disciplined_call {A B : Set} won key (m : StoreM B) (k : result B StorageError → Prog A) :
  careful m → (∀ r, disciplined won key (k r)) → disciplined won key (Call m k).
Proof.
  intros Hm Hk w. specialize (Hm w key). destruct (m w) as [r w']. split; [done|]. by left.
Qed.

Lemma resolve_statement id t payload w :
  let '(r, w') := execute (resolve_one id t payload) w in
  match r with
  | Ok 1%Z => (∃ e, status (db w) id = Some (RPending e)) ∧ status (db w') id = Some (RResolved payload)
  | Ok n => n = 0%Z
  | Err _ => True
  end.
Proof.
  unfold execute, sqlite_call. destruct (fault _); [done|]. destruct (schema (db w)); [|done].
  destruct (resolve_one id t payload (db w)) as [[n d]|] eqn:E; [|done].
  apply resolve_one_spec in E as (_ & _ & Hst). cbn.
  destruct (status (db w) id) as [[e|q|]|]; try (by destruct Hst as [-> _]).
  destruct Hst as [-> ->]. eauto.
Qed.

(** Resolving: the row is settled by the statement that makes the answer [Ok]. *)
Lemma disciplined_resolve {A} won key id payload (c : result unit StorageError → Prog A) :
  (∀ e, disciplined won key (c (Err e))) →
  (id ≠ key → disciplined won key (c (Ok tt))) →
  (id = key → ∃ a, c (Ok tt) = Done a ∧ won a = Some (key, payload)) →
  disciplined won key (p_match (resolve_prog id payload) c).
Proof.
  intros Herr Hne Heq. unfold resolve_prog, p_bind. cbn [p_match atom].
  apply disciplined_call; [auto with careful|]. intros [t|e]; [|apply Herr]. cbn [p_match].
  apply disciplined_call; [auto with careful|]. intros [n|e]; [|apply Herr]. cbn [p_match].
  intros w. pose proof (careful_resolve_one id t payload w key) as Hkeep.
  pose proof (resolve_statement id t payload w) as Hx.
  destruct (execute (resolve_one id t payload) w) as [[m|e] w']; (split; [done|]); [|left; apply Herr].
  destruct (Z.eqb_spec m 1) as [->|Hm].
  - destruct (decide (id = key)) as [->|Hk]; [|left; by apply Hne].
    right. destruct (Heq eq_refl) as (a & Ha & Hw). exists a, payload. cbn [p_match].
    destruct Hx as [[e He] Hst]. rewrite He. split_and!; [done..|by intros []|done].
  - left. cbn [p_match atom]. apply disciplined_call; [auto with careful|].
    intros [found|e]; apply Herr.
Qed.

Lemma disciplined_match_done {A} won key (p : Prog A) :
  disciplined won key (p_match p Done) → disciplined won key p.
Proof.
  induction p as [r|B m k IH]; [done|]. intros H w. specialize (H w). destruct (m w) as [r w'].
  destruct H as [Hs [H|(a & payload & Ha & H)]]; (split; [done|]); [left; by apply IH|right].
  exists a, payload. split; [|done]. destruct (k r); [done|discriminate Ha].
Qed.

(** Every task is disciplined. *)
Lemma disciplined_task key t : disciplined (task_applied t) key (task_prog t).
Proof.
  destruct t as [wf id|id payload|id wf kind expires| |id s]; cbn [task_prog task_result].
  - unfold deliver_prog. case_bool_decide; [done|]. case_bool_decide; [done|]. cbn zeta.
    unfold create_request_prog, get_workflow_prog, p_bind. cbn [p_match atom].
    assert (∀ first, disciplined (task_applied (DeliverTask wf id)) key (p_match (resolve_prog (storage_key wf id) "")
      (λ resolved, match resolved with Ok _ => Done (Ok Delivered)
        | Err (AlreadyResolved _) | Err (Expired _) => Done (Ok Duplicate) | Err _ => Done (Err first) end))) as Hretry.
    { intros first. apply disciplined_resolve with (payload := ""); [by intros []| |].
      - intros Hne payload. cbn. by intros [= ? ?].
      - intros <-. by eexists. }
    apply disciplined_call; [auto with careful|]. intros [[row|]|e]; cbn [p_match]; [|apply Hretry..].
    apply disciplined_call; [auto with careful|]. intros [t|e]; cbn [p_match]; [|apply Hretry].
    apply disciplined_call; [auto with careful|]. intros [[]|e]; cbn [p_match]; [|apply Hretry].
    apply disciplined_resolve with (payload := ""); [done| |].
    + intros Hne payload. cbn. by intros [= ? ?].
    + intros <-. by eexists.
  - apply disciplined_match_done, disciplined_resolve with (payload := payload); [done| |].
    + intros Hne payload'. cbn. by intros [= ? ?].
    + intros ->. by eexists.
  - unfold create_request_prog, get_workflow_prog, p_bind. cbn [p_match atom].
    repeat (apply disciplined_call; [auto with careful|]; intros [[]|]; cbn [p_match]); done.
  - unfold expire_prog, p_bind. cbn [p_match atom].
    repeat (apply disciplined_call; [auto with careful|]; intros [|]; cbn [p_match]); done.
  - unfold set_state_prog, get_workflow_prog, p_bind. destruct (negb _); [done|]. cbn [p_match atom].
    apply disciplined_call; [auto with careful|]. intros [[row|]|e]; cbn [p_match ok_or]; [|done..].
    case_bool_decide; [done|].
    repeat (apply disciplined_call; [auto with careful|]; intros [|]; cbn [p_match]); done.
Qed.

(** ** One winner *)

Definition loyal (key : string) (th : Thread) : Prop :=
  disciplined (task_applied (th_task th)) key (th_rest th).

Definition wins (key : string) (th : Thread) : Prop := fst <$> applied th = Some key.

#[export] Instance wins_dec key th : Decision (wins key th).
Proof. unfold wins. apply _. Defined.

Lemma loyal_start key t : loyal key (start t).
Proof. apply disciplined_task. Qed.

Lemma loyal_loses key th : loyal key th → ¬ wins key th.
Proof.
  destruct th as [t [r|B m k]]; unfold loyal, wins; cbn; [|done]. intros H.
  destruct (task_applied t r) as [[key' payload]|] eqn:E; [|done]. cbn. intros [= ->]. by eapply H.
Qed.

Lemma advance_loyal key th w th' w' :
  loyal key th → advance th w = (th', w') →
  (settled (status (db w) key) → status (db w') key = status (db w) key) ∧
  (loyal key th' ∨ ∃ payload, applied th' = Some (key, payload) ∧
     ¬ settled (status (db w) key) ∧ status (db w') key = Some (RResolved payload)).
Proof.
  destruct th as [t [r|B m k]]; unfold loyal; cbn; [intros H [= <- <-]; auto|].
  intros H. specialize (H w). destruct (m w) as [r w1]. intros [= <- <-].
  destruct H as [Hs [H|(a & payload & Ha & Hw & H)]]; (split; [done|]); [by left|].
  right. exists payload. cbn. by rewrite Ha.
Qed.

Lemma advance_won th w p th' w' : applied th = Some p → advance th w = (th', w') → th' = th ∧ w' = w.
Proof. destruct th as [t [r|B m k]]; cbn; [|done]. by intros _ [= <- <-]. Qed.

(** Nobody has settled the request, or one thread has and the row says so. *)
Definition contest (key : string) (c : World * list Thread) : Prop :=
  Forall (loyal key) c.2 ∨
  ∃ l1 th l2 payload, c.2 = l1 ++ th :: l2 ∧ Forall (loyal key) (l1 ++ l2) ∧
    applied th = Some (key, payload) ∧ status (db c.1) key = Some (RResolved payload).

Lemma contest_step key c c' : pool_step c c' → contest key c → contest key c'.
Proof.
  unfold contest. destruct 1 as [w pool t|w pool i th th' w' Hi Hadv|w w' pool Hmove]; intros [Hall|(l1 & x & l2 & p & Hp & Hall & Hx & Hst)]; cbn in *.
  - left. apply Forall_app. split; [done|]. by apply Forall_singleton, loyal_start.
  - right. exists l1, x, (l2 ++ [start t]), p. rewrite Hp. split_and!; [by rewrite <-app_assoc| |done..].
    rewrite app_assoc. apply Forall_app. split; [done|]. by apply Forall_singleton, loyal_start.
  - assert (loyal key th) as Hth by (by eapply Forall_lookup_1).
    destruct (advance_loyal _ _ _ _ _ Hth Hadv) as [_ [Hl|(p & Ha & _ & Hst)]].
    + left. by apply Forall_insert.
    + right. exists (take i pool), th', (drop (S i) pool), p. cbn.
      split_and!; [by rewrite insert_take_drop by (by eapply lookup_lt_Some)| |done..].
      apply Forall_app. split; [by apply Forall_take|by apply Forall_drop].
  - subst pool. right. apply lookup_app_Some in Hi as [Hi|[Hle Hi]].
    + assert (loyal key th) as Hth 
        by (apply Forall_app in Hall as [Hall _]; by eapply (Forall_lookup_1 (loyal key) l1)).
      destruct (advance_loyal _ _ _ _ _ Hth Hadv) as [Hs Hl]. rewrite Hst in Hs, Hl.
      destruct Hl as [Hl|(q & _ & [] & _)]; [|done].
      exists (<[i:=th']> l1), x, l2, p. rewrite insert_app_l by (by eapply lookup_lt_Some).
      split_and!; [done| |done|by apply Hs]. apply Forall_app in Hall as [? ?].
      apply Forall_app. split; [by apply Forall_insert|done].
    + destruct (i - length l1) as [|j] eqn:Ei; cbn in Hi.
      * injection Hi as ->. destruct (advance_won _ _ _ _ _ Hx Hadv) as [-> ->].
        exists l1, th, l2, p. rewrite list_insert_id; [done|].
        by rewrite lookup_app_r, Ei.
      * assert (loyal key th) as Hth 
          by (apply Forall_app in Hall as [_ Hall]; by eapply (Forall_lookup_1 (loyal key) l2)).
        destruct (advance_loyal _ _ _ _ _ Hth Hadv) as [Hs Hl]. rewrite Hst in Hs, Hl.
        destruct Hl as [Hl|(q & _ & [] & _)]; [|done].
        exists l1, x, (<[j:=th']> l2), p. rewrite insert_app_r_alt, Ei by done.
        split_and!; [done| |done|by apply Hs]. apply Forall_app in Hall as [? ?].
        apply Forall_app. split; [done|by apply Forall_insert].
  - by left.
  - right. exists l1, x, l2, p. split_and!; [done..|]. rewrite Hmove; [done|by rewrite Hst].
Qed.

Lemma settled_step key c c' :
  pool_step c c' → Forall (loyal key) c.2 → settled (status (db c.1) key) →
  Forall (loyal key) c'.2 ∧ settled (status (db c'.1) key).
Proof.
  destruct 1 as [w pool t|w pool i th th' w' Hi Hadv|w w' pool Hmove]; intros Hall Hs; cbn in *.
  - split; [|done]. apply Forall_app. split; [done|]. by apply Forall_singleton, loyal_start.
  - assert (loyal key th) as Hth by (by eapply Forall_lookup_1).
    destruct (advance_loyal _ _ _ _ _ Hth Hadv) as [Hk Hl]. rewrite Hk by done.
    destruct Hl as [Hl|(p & _ & Hn & _)]; [|done]. split; [by apply Forall_insert|done].
  - by rewrite Hmove.
Qed.

Lemma loyal_filter key pool : Forall (loyal key) pool → filter (wins key) pool = [].
Proof.
  induction 1 as [|th pool H _ IH]; [done|]. rewrite filter_cons_False; [done|]. by apply loyal_loses.
Qed.

Lemma pool_preserves (P : World * list Thread → Prop) c c' :
  rtc pool_step c c' → (∀ c1 c2, pool_step c1 c2 → P c1 → P c2) → P c → P c'.
Proof. intros Hrun HP. induction Hrun; eauto. Qed.

Lemma contest_run w pool w' key : rtc pool_step (w, []) (w', pool) → contest key (w', pool).
Proof. intros Hrun. eapply pool_preserves; [exact Hrun|intros c1 c2; apply contest_step|by left]. Qed.

Lemma contest_one w pool key : contest key (w, pool) → length (filter (wins key) pool) ≤ 1.
Proof.
  intros [Hall|(l1 & th & l2 & p & Hp & Hall & Hx & _)]; cbn in *; [by rewrite loyal_filter; [cbn; lia|]|].
  subst pool. apply Forall_app in Hall as [H1 H2]. rewrite filter_app, filter_cons_True by (by unfold wins; rewrite Hx).
  by rewrite !loyal_filter by done.
Qed.

Lemma settled_run w pool w' key :
  rtc pool_step (w, []) (w', pool) → settled (status (db w) key) → filter (wins key) pool = [].
Proof.
  intros Hrun Hs. apply loyal_filter.
  apply (pool_preserves (λ c, Forall (loyal key) c.2 ∧ settled (status (db c.1) key))) in Hrun;
    [apply Hrun|intros c c' H [? ?]; by eapply settled_step|done].
Qed.

(** C4: a request is settled by one, however many race for it.  Connections
    arrive at any time and run deliveries, resolves, creates, expiries and state
    changes; their statements interleave in any order, any of them may fault, and
    anything else that leaves settled requests alone may happen in between.  Of
    all connections at most one ever answers that it delivered or resolved a
    given request, none if it was settled before, and the row then holds the
    payload of that one. *)
Theorem one_winner (w w' : World) (pool : list Thread) (key : string) :
  rtc pool_step (w, []) (w', pool) →
  length (filter (wins key) pool) ≤ 1 ∧
  (settled (status (db w) key) → filter (wins key) pool = []) ∧
  ∀ th payload, th ∈ pool → applied th = Some (key, payload) →
    status (db w') key = Some (RResolved payload).
Proof.
  intros Hrun. pose proof (contest_run _ _ _ key Hrun) as Hc.
  split_and!; [by eapply contest_one|by eapply settled_run|]. intros th payload Hin Ha.
  destruct Hc as [Hall|(l1 & x & l2 & p & Hp & Hall & Hx & Hst)]; cbn in *; rewrite Forall_forall in Hall.
  - apply Hall, loyal_loses in Hin. unfold wins in Hin. by rewrite Ha in Hin.
  - subst pool. assert (th = x ∨ th ∈ l1 ++ l2) as [->|Hin'] by set_solver; [congruence|].
    apply Hall, loyal_loses in Hin'. unfold wins in Hin'. by rewrite Ha in Hin'.
Qed.

(** ** Every thread answers *)

(** A thread's turn. *)
Definition take_turn (i : nat) (c : World * list Thread) : World * list Thread :=
  let '(w, pool) := c in
  match pool !! i with
  | Some th => let '(th', w') := advance th w in (w', <[i:=th']> pool)
  | None => c
  end.

Definition turns (i : nat) (schedule : list nat) : nat := length (filter (.= i) schedule).

Definition answered (th : Thread) : Prop := ∃ r, th_rest th = Done r.

Lemma ends_within_le {A : Set} n m (p : Prog A) : n ≤ m → ends_within n p → ends_within m p.
Proof.
  revert n m. induction p as [r|B q k IH]; intros n m Hle; [by destruct n, m|].
  destruct n as [|n]; [done|]. destruct m as [|m]; [lia|]. cbn. intros H r. eapply IH; [|apply H]. lia.
Qed.

(** A delivery takes at most seven statements. *)
Lemma deliver_ends wf id : ends_within 7 (deliver_prog wf id).
Proof.
  unfold deliver_prog. case_bool_decide; [done|]. case_bool_decide; [done|]. cbn zeta.
  unfold create_request_prog, get_workflow_prog, resolve_prog, p_bind. cbn [p_match atom].
  repeat match goal with
    | |- ends_within _ (Call _ _) => intros [?|?]; cbn [p_match atom]
    | |- ends_within _ (Done _) => done
    | |- ends_within _ (p_match (match ?x with _ => _ end) _) => destruct x; cbn [p_match atom]
    | |- ends_within _ (match ?x with _ => _ end) => destruct x; cbn [p_match atom]
    end.
Qed.

Lemma schedule_ends schedule w pool :
  (∀ i th, pool !! i = Some th → ends_within (turns i schedule) (th_rest th)) →
  Forall answered (runs take_turn schedule (w, pool)).2.
Proof.
  revert w pool. induction schedule as [|j schedule IH]; intros w pool H; cbn [runs].
  - apply Forall_lookup. intros i th Hi. specialize (H i th Hi). cbn in H. unfold answered.
    destruct (th_rest th); [eauto|done].
  - unfold take_turn at 2. destruct (pool !! j) as [th|] eqn:Hj.
    + destruct (advance th w) as [th' w'] eqn:Hadv. apply IH. intros i x Hi.
      destruct (decide (i = j)) as [->|Hne].
      * rewrite list_lookup_insert_eq in Hi by (by eapply lookup_lt_Some). injection Hi as <-.
        specialize (H j th Hj). unfold turns in *. rewrite filter_cons_True in H by done.
        destruct th as [t [r|B m k]]; cbn in *; [by injection Hadv as <- <-; destruct (length _)|].
        destruct (m w) as [r w1]. injection Hadv as <- <-. apply H.
      * rewrite list_lookup_insert_ne in Hi by done. specialize (H i x Hi). unfold turns in *.
        by rewrite filter_cons_False in H.
    + apply IH. intros i x Hi. specialize (H i x Hi). unfold turns in *.
      rewrite filter_cons_False in H; [done|]. intros ->. congruence.
Qed.

(** ** Racing deliveries of one input *)

Section Race.
Context (wf id : string) (no_fault : ∀ n, fault n = None).
#[local] Set Default Proof Using "Type*".
Let key := storage_key wf id.

(** The workflow exists, and the input's row is absent, claimed or delivered. *)
Record race_ok (w : World) : Prop := {
  race_schema : schema (db w) = true;
  race_known : is_Some (workflows (db w) !! wf);
  race_row : status (db w) key = None ∨ status (db w) key = Some (RPending None) ∨
    status (db w) key = Some (RResolved "");
}.

(** How far the row is. *)
Definition stage (w : World) : nat :=
  match status (db w) key with None => 0 | Some (RPending _) => 1 | Some _ => 2 end.

Definition lost : result RouteOutcome StorageError → Prop := λ r,
  r = Ok Duplicate ∨ r = Err (AlreadyResolved key).

(** A delivery that knows the row has reached stage [n]. *)
Fixpoint dutiful (n : nat) (p : Prog RouteOutcome) : Prop :=
  match p with
  | Done r => n = 2 ∧ (r = Ok Delivered ∨ lost r)
  | Call m k => ∀ w, race_ok w → n ≤ stage w →
      let '(r, w') := m w in
      race_ok w' ∧ stage w ≤ stage w' ∧ (∃ n', n' ≤ stage w' ∧ dutiful n' (k r)) ∧
      (stage w' = 2 → stage w = 2 ∨ k r = Done (Ok Delivered))
  end.

(** A statement that leaves the database alone and does not fail. *)
Lemma dutiful_read {B : Set} n (m : StoreM B) (f : Db → B) (k : result B StorageError → Prog RouteOutcome) :
  (∀ w, race_ok w → ∃ w', m w = (Ok (f (db w)), w') ∧ db w' = db w) →
  (∀ w, race_ok w → n ≤ stage w → dutiful n (k (Ok (f (db w))))) → dutiful n (Call m k).
Proof.
  intros Hm Hk w Hw Hn. destruct (Hm w Hw) as (w' & -> & Hdb).
  assert (stage w' = stage w) as Hst by (unfold stage; by rewrite Hdb).
  rewrite Hst. split_and!; [|done| |by left].
  - destruct Hw. by split; rewrite Hdb.
  - exists n. split; [done|by apply Hk].
Qed.

Lemma dutiful_now n (k : result Z StorageError → Prog RouteOutcome) :
  (∀ t, dutiful n (k (Ok t))) → dutiful n (Call now k).
Proof.
  intros Hk w Hw Hn. cbn. split_and!; [destruct Hw; by split|done| |by left]. exists n. split; [done|apply Hk].
Qed.

Lemma execute_answers {B : Set} (f : Db → result (B * Db) SqliteError) w :
  schema (db w) = true → ∃ w', execute f w = (match f (db w) with
    | Ok (a, _) => Ok a | Err e => Err (Sqlite e) end, w') ∧
    db w' = match f (db w) with Ok (_, d) => d | Err _ => db w end.
Proof.
  intros Hs. unfold execute, sqlite_call. rewrite no_fault, Hs. destruct (f (db w)) as [[a d]|e]; eauto.
Qed.

Lemma select_answers {B : Set} (f : Db → B) w :
  race_ok w → ∃ w', select f w = (Ok (f (db w)), w') ∧ db w' = db w.
Proof. intros [Hs _ _]. by apply (execute_answers (λ d, Ok (f d, d)) w) in Hs. Qed.

(** Such a row never expires. *)
Lemma race_expire t w : race_ok w → expire_one key t (db w) = Ok (0%Z, db w).
Proof.
  intros [_ _ Hrow]. unfold expire_one, status in *. destruct (pending_requests (db w) !! key) as [r|]; [|done].
  destruct (overdue t r) eqn:Ho; [|done]. apply overdue_status in Ho as (e & He & Hp). cbn in Hrow.
  rewrite He in Hrow. destruct e; [|done]. naive_solver.
Qed.

(** What the final SELECT of a resolve makes of the row. *)
Lemma found_error d :
  match @fmap option _ _ _ rq_state (pending_requests d !! key) with
  | Some 3%Z => Expired key | Some _ => AlreadyResolved key | None => NotFound ("request " +:+ key)
  end = match status d key with
        | Some RExpired => Expired key | Some _ => AlreadyResolved key | None => NotFound ("request " +:+ key)
        end.
Proof.
  unfold status, row_status. destruct (pending_requests d !! key) as [r|]; [|done]. cbn. by repeat case_match.
Qed.

(** The resolve of a row that exists. *)
Lemma dutiful_resolve (c : result unit StorageError → Prog RouteOutcome) :
  c (Ok tt) = Done (Ok Delivered) → dutiful 2 (c (Err (AlreadyResolved key))) →
  dutiful 1 (p_match (resolve_prog key "") c).
Proof.
  intros Hok Hrep. unfold resolve_prog, p_bind. cbn [p_match atom].
  apply dutiful_now. intros t. cbn [p_match].
  apply (dutiful_read _ _ (λ _, 0%Z)).
  { intros w Hw. destruct (execute_answers (expire_one key t) w) as (w' & Hx & Hdb); [apply Hw|].
    rewrite (race_expire t w Hw) in Hx, Hdb. eauto. }
  intros _ _ _. cbn [p_match]. intros w Hw Hn.
  destruct (execute_answers (resolve_one key t "") w) as (w' & -> & Hdb); [apply Hw|].
  destruct (resolve_one key t "" (db w)) as [[n d]|e] eqn:Hx;
    [|unfold resolve_one in Hx; repeat case_match; discriminate Hx].
  subst d. apply resolve_one_spec in Hx as (Hsame & _ & Hst).
  apply same_but_requests_workflows in Hsame as [Hwf Hsc].
  pose proof (race_row _ Hw) as Hrow. unfold stage in *.
  assert (status (db w) key = Some (RPending None) ∨ status (db w) key = Some (RResolved "")) as [E|E].
  { destruct Hrow as [E|[E|E]]; auto. rewrite E in Hn. lia. }
  - rewrite E in *. destruct Hst as [-> Hst]. rewrite Hst. cbn [p_match Z.eqb Pos.eqb]. rewrite Hok.
    split_and!; [|lia| |by right].
    + destruct Hw as [? ? _]. split; [by rewrite Hsc|by rewrite Hwf|]. rewrite Hst. auto.
    + exists 2. cbn. auto.
  - rewrite E in Hst |- *. destruct Hst as [-> Hd]. rewrite Hd, E. cbn [p_match Z.eqb].
    split_and!; [destruct Hw; by split; rewrite Hd|done| |by left].
    exists 2. split; [done|]. cbn [atom p_match].
    apply (dutiful_read _ _ (λ d, @fmap option _ _ _ rq_state (pending_requests d !! key)));
      [intros; by apply select_answers|]. intros w2 Hw2 Hn2. cbn [p_match].
    rewrite found_error. unfold stage in Hn2. pose proof (race_row _ Hw2) as Hrow2.
    destruct Hrow2 as [E2|[E2|E2]]; rewrite E2 in *; [lia|lia|done].
Qed.

(** The whole delivery. *)
Lemma dutiful_deliver : wf ≠ "" → id ≠ "" → dutiful 0 (deliver_prog wf id).
Proof.
  intros Hwf Hid. unfold deliver_prog. rewrite !bool_decide_eq_false_2 by done. cbn zeta. fold key.
  unfold create_request_prog, get_workflow_prog. unfold p_bind at 1 2. cbn [p_match atom].
  apply (dutiful_read _ _ (λ d, workflows d !! wf)); [intros; by apply select_answers|].
  intros w Hw _. destruct (race_known _ Hw) as [row ->]. cbn [p_match atom p_bind].
  apply dutiful_now. intros t. cbn [p_match atom]. clear w Hw. intros w Hw _.
  destruct (execute_answers (insert_request key (mk_request_row wf (request_kind_i32 Input) 1 t None None None)) w)
    as (w' & -> & Hdb); [apply Hw|].
  assert (∀ first, dutiful 1 (p_match (resolve_prog key "") (λ resolved, match resolved with
    | Ok _ => Done (Ok Delivered) | Err (AlreadyResolved _) | Err (Expired _) => Done (Ok Duplicate)
    | Err _ => Done (Err first) end))) as Hretry.
  { intros first. apply dutiful_resolve; [done|]. split; [done|]. right. by left. }
  assert (dutiful 1 (let+ _ := resolve_prog key "" in Done (Ok Delivered))) as Hfirst.
  { apply dutiful_resolve; [done|]. split; [done|]. right. by right. }
  unfold insert_request in Hdb |- *. cbn [rq_kind rq_state rq_workflow_id] in Hdb |- *.
  rewrite request_checks in Hdb |- *.
  destruct (race_known _ Hw) as [row' Hrow]. rewrite Hrow in Hdb |- *.
  unfold stage, status in *. destruct (pending_requests (db w) !! key) as [r|] eqn:Hr.
  - rewrite Hdb, Hr. cbn. split_and!; [destruct Hw; by split; rewrite Hdb|done| |by left].
    exists 1. split; [destruct (row_status r); lia|apply Hretry].
  - rewrite Hdb. cbn. rewrite lookup_insert_eq. cbn. split_and!; [|lia| |done].
    + destruct Hw as [Hs Hk _]. split; [by rewrite Hdb..|]. rewrite Hdb. unfold status. cbn.
      rewrite lookup_insert_eq. auto.
    + exists 1. split; [done|apply Hfirst].
Qed.

Definition racer (w : World) (th : Thread) : Prop :=
  ∃ p n, th = mk_thread (DeliverTask wf id) p ∧ n ≤ stage w ∧ dutiful n p.

(** The invariant of the race that started at [w0]. *)
Definition race_inv (w0 : World) (c : World * list Thread) : Prop :=
  race_ok c.1 ∧ Forall (racer c.1) c.2 ∧
  (stage c.1 = 2 → stage w0 = 2 ∨ ∃ j th, c.2 !! j = Some th ∧ wins key th).

Lemma race_turn w0 i c : race_inv w0 c → race_inv w0 (take_turn i c).
Proof.
  destruct c as [w pool]. intros (Hw & Hall & Hwin). unfold take_turn. destruct (pool !! i) as [th|] eqn:Hi; [|done].
  assert (racer w th) as (p & n & -> & Hn & Hp) by (by eapply Forall_lookup_1).
  destruct p as [r|B m k]; cbn; [by rewrite list_insert_id|].
  specialize (Hp w Hw Hn). destruct (m w) as [r w']. destruct Hp as (Hw' & Hle & (n' & Hn' & Hk) & Hnew).
  split_and!; cbn in *; [done| |].
  - apply Forall_insert; [|by eexists _, _]. eapply Forall_impl; [exact Hall|].
    intros x (q & m' & -> & Hm & Hq). exists q, m'. split_and!; [done|lia|done].
  - intros Hs. destruct (Hnew Hs) as [H2|Hd].
    + destruct (Hwin H2) as [|(j & x & Hj & Hx)]; [by left|right]. exists j, x.
      split; [|done]. rewrite list_lookup_insert_ne; [done|]. intros ->. by simplify_eq.
    + right. eexists i, _. split; [by eapply list_lookup_insert_eq, lookup_lt_Some|].
      unfold wins, applied. by rewrite Hd.
Qed.

Lemma race_start n w : race_ok w → wf ≠ "" → id ≠ "" →
  race_inv w (w, replicate n (start (DeliverTask wf id))).
Proof.
  intros Hw Hwf Hid. split_and!; [done| |by left]. apply Forall_replicate.
  exists (deliver_prog wf id), 0. split_and!; [done|lia|by apply dutiful_deliver].
Qed.

Lemma race_end w0 w pool :
  race_inv w0 (w, pool) → Forall answered pool → 0 < length pool →
  Forall (λ th, ∃ r, th = mk_thread (DeliverTask wf id) (Done r) ∧ (r = Ok Delivered ∨ lost r)) pool ∧
  stage w = 2 ∧ status (db w) key = Some (RResolved "").
Proof.
  intros (Hw & Hall & _) Hend Hlen. cbn in Hw, Hall. rewrite Forall_forall in Hall, Hend.
  assert (∀ th, th ∈ pool → ∃ r, th = mk_thread (DeliverTask wf id) (Done r) ∧ stage w = 2 ∧
    (r = Ok Delivered ∨ lost r)) as Hdone.
  { intros th Hin. destruct (Hall th Hin) as (p & k & -> & Hk & Hp).
    destruct (Hend _ Hin) as [r Hr]. cbn in Hr, r. subst p. cbn in Hp. destruct Hp as [-> Hp].
    exists r. split_and!; [done| |done]. unfold stage in *. destruct (status _ _) as [[]|]; lia. }
  assert (stage w = 2) as Hst.
  { destruct pool as [|th pool]; [cbn in Hlen; lia|]. by destruct (Hdone th ltac:(left)) as (r & _ & Hs & _). }
  split_and!; [|done|].
  - apply Forall_forall. intros th Hin. destruct (Hdone th Hin) as (r & ? & _ & ?). eauto.
  - destruct (race_row _ Hw) as [E|[E|E]]; unfold stage in Hst; rewrite E in Hst; try done; by rewrite E.
Qed.
End Race.

Lemma pool_arrivals n w t pool : rtc pool_step (w, pool) (w, pool ++ replicate n (start t)).
Proof.
  revert pool. induction n as [|n IH]; intros pool; [by rewrite app_nil_r|].
  eapply rtc_l; [apply (pool_arrive w pool t)|]. specialize (IH (pool ++ [start t])).
  by rewrite <-app_assoc in IH.
Qed.

Lemma pool_turns schedule c : rtc pool_step c (runs take_turn schedule c).
Proof.
  revert c. induction schedule as [|i schedule IH]; intros [w pool]; [done|]. cbn [runs].
  destruct (pool !! i) as [th|] eqn:Hi; [|by unfold take_turn at 2; rewrite Hi].
  eapply rtc_l; [|apply IH]. cbn. rewrite Hi. destruct (advance th w) as [th' w'] eqn:Hadv.
  by eapply pool_turn.
Qed.

(** C5: one input delivered by many connections at once.  However the
    statements of [n] deliveries interleave, as soon as every one had seven
    turns all have answered: exactly one with [Delivered] if the input was not
    delivered before and none if it was, all others with [Duplicate] or with
    the error [AlreadyResolved], and the input is delivered. *)
Theorem racing_deliveries (wf id : string) (n : nat) (schedule : list nat) (w : World) :
  (∀ k, fault k = None) → wf ≠ "" → id ≠ "" → race_ok wf id w → 0 < n →
  (∀ i, i < n → 7 ≤ turns i schedule) →
  let key := storage_key wf id in
  let '(w', pool) := runs take_turn schedule (w, replicate n (start (DeliverTask wf id))) in
  length pool = n ∧
  Forall (λ th, ∃ r, th = mk_thread (DeliverTask wf id) (Done r) ∧ (r = Ok Delivered ∨ lost wf id r)) pool ∧
  length (filter (wins key) pool) = (if bool_decide (status (db w) key = Some (RResolved "")) then 0 else 1) ∧
  status (db w') key = Some (RResolved "").
Proof.
  intros Hf Hwf Hid Hw Hn Hturns key.
  pose proof (runs_inv take_turn (race_inv wf id w) (race_turn wf id w) schedule _ (race_start wf id Hf n w Hw Hwf Hid)) as Hinv.
  assert (Forall answered (runs take_turn schedule (w, replicate n (start (DeliverTask wf id)))).2) as Hend.
  { apply schedule_ends. intros i th [-> Hi]%lookup_replicate. cbn.
    eapply ends_within_le; [by apply Hturns|apply deliver_ends]. }
  assert (rtc pool_step (w, []) (runs take_turn schedule (w, replicate n (start (DeliverTask wf id))))) as Hrun
    by (etrans; [apply (pool_arrivals n w (DeliverTask wf id) [])|apply pool_turns]).
  assert (length (runs take_turn schedule (w, replicate n (start (DeliverTask wf id)))).2 = n) as Hlen.
  { apply (runs_inv take_turn (λ c, length c.2 = n)); [|cbn; by rewrite length_replicate].
    intros i [w1 pool]. cbn. destruct (pool !! i); [|done]. destruct (advance _ _). cbn. by rewrite length_insert. }
  destruct (runs take_turn schedule _) as [w' pool]. cbn in Hlen.
  destruct (race_end _ _ w w' pool Hinv Hend ltac:(lia)) as (Hdone & Hst & Hrow).
  split_and!; [done|done| |done]. destruct Hinv as (_ & _ & Hwin). cbn in Hwin.
  case_bool_decide as Hs; [by rewrite (settled_run _ _ _ key Hrun) by (by rewrite Hs)|].
  pose proof (contest_one _ _ _ (contest_run _ _ _ key Hrun)) as Hle.
  destruct (Hwin Hst) as [H2|(j & th & Hj & Hth)].
  - exfalso. apply Hs. destruct (race_row _ _ _ Hw) as [E|[E|E]]; unfold stage in H2; by rewrite E in H2.
  - apply list_elem_of_lookup_2 in Hj. assert (th ∈ filter (wins key) pool) as Hin by (by apply list_elem_of_filter).
    destruct (filter (wins key) pool) as [|? [|]]; cbn in *; [by apply elem_of_nil in Hin|done|lia].
Qed.

End Concurrent.

(** ** Witnesses *)

#[local] Instance race_env : Env := steady_env 1000 7.

(** A store with the workflow [wf-1]. *)
Definition race_world : World :=
  mk_world (mk_db (Some [("0001_init", 999%Z)]) true
    {["wf-1" := mk_workflow_row "wf-1" 4 1 "build" None 1000 1000]} [] [] ∅ ∅ ∅) 0 0.

Definition two_deliveries : World * list Thread :=
  (race_world, replicate 2 (start (DeliverTask "wf-1" "u-1"))).

(** Both claim, the second confirms first; the first is told it was resolved. *)
Definition tight_schedule : list nat := [0; 1; 0; 1; 0; 1] ++ replicate 7 1 ++ replicate 7 0.

Example tight_race :
  (runs take_turn tight_schedule two_deliveries).2 =
  [mk_thread (DeliverTask "wf-1" "u-1") (Done (Err (AlreadyResolved (storage_key "wf-1" "u-1"))));
   mk_thread (DeliverTask "wf-1" "u-1") (Done (Ok Delivered))].
Proof. vm_compute. reflexivity. Qed.

Lemma race_world_ok : race_ok "wf-1" "u-1" race_world.
Proof. split; [reflexivity|by eexists|by left]. Qed.

Lemma racing_deliveries_witness :
  race_ok "wf-1" "u-1" race_world ∧
  length (filter (wins (storage_key "wf-1" "u-1")) (runs take_turn tight_schedule two_deliveries).2) = 1.
Proof.
  assert (∀ i, i < 2 → 7 ≤ turns i tight_schedule) as Hturns.
  { intros [|[|i]] Hi; [vm_compute; lia..|lia]. }
  pose proof (racing_deliveries "wf-1" "u-1" 2 tight_schedule race_world (λ _, eq_refl) ltac:(done) ltac:(done)
    race_world_ok ltac:(lia) Hturns) as H.
  split; [exact race_world_ok|]. unfold two_deliveries.
  destruct (runs take_turn tight_schedule _) as [w' pool]. exact (proj1 (proj2 (proj2 H))).
Defined.

Lemma one_winner_witness :
  rtc pool_step (race_world, []) (runs take_turn tight_schedule two_deliveries) ∧
  length (filter (wins (storage_key "wf-1" "u-1")) (runs take_turn tight_schedule two_deliveries).2) ≤ 1.
Proof.
  assert (rtc pool_step (race_world, []) (runs take_turn tight_schedule two_deliveries)) as Hrun.
  { etrans; [apply (pool_arrivals 2 race_world (DeliverTask "wf-1" "u-1") [])|apply pool_turns]. }
  split; [exact Hrun|].
  destruct (runs take_turn tight_schedule two_deliveries) as [w' pool].
  exact (proj1 (one_winner race_world w' pool (storage_key "wf-1" "u-1") Hrun)).
Defined.

(** The state machine of a workflow has no such guard: a second connection that
    read the row before another one completed the workflow takes it out of the
    terminal state again.  It is the single writer that keeps terminal states
    final. *)
Example terminal_state_raced :
  let pool := [start (SetStateTask "wf-1" Completed); start (SetStateTask "wf-1" WaitingInput)] in
  let completed := runs take_turn [1; 0; 0; 0; 0] (race_world, pool) in
  let raced := runs take_turn [1; 1; 1] completed in
  (state <$> workflows (db completed.1) !! "wf-1") = Some (state_i32 Completed) ∧
  (state <$> workflows (db raced.1) !! "wf-1") = Some (state_i32 WaitingInput).
Proof. vm_compute. auto. Qed.
