(* ===== verification/Contract.v ===== *)
(** * Contract: the adapter contract (crate calcar-adapters, traitdef.rs)

    The types every provider adapter speaks: capabilities, provider events,
    approval verdicts, errors, spawn requests, snapshots. *)

From S2P Require Import Prelude Text Events.

(** [struct Capabilities] *)
Record Capabilities := mk_capabilities {
  streaming : bool;
  interactive_input : bool;
  approvals : bool;
  file_events : bool;
  resume : bool;
  cap_stop : bool;
  diagnostics : bool;
}.

(** [struct ProviderEvent] *)
Record ProviderEvent := mk_provider_event {
  pe_event_type : EventType;
  pe_summary : string;
  pe_detail_pointer : option string;
}.

(** [ProviderEvent::new] *)
Definition provider_event (et : EventType) (summary : string) : ProviderEvent :=
  mk_provider_event et summary None.

#[export] Instance ProviderEvent_eq_dec : EqDecision ProviderEvent.
Proof. solve_decision. Defined.

(** [enum ApprovalDecision] *)
Inductive ApprovalDecision := Allow | Reject.

(** [enum ApprovalOutcome] *)
Inductive ApprovalOutcome :=
| Applied | DuplicateApproval | ExpiredApproval | Unknown.

#[export] Instance ApprovalOutcome_eq_dec : EqDecision ApprovalOutcome.
Proof. solve_decision. Defined.

(** [enum AdapterError] *)
Inductive AdapterError :=
| SpawnFailed (message : string)
| NotRunning
| Unsupported
| ParseError (message : string)
| AdapterIo (message : string).

#[export] Instance AdapterError_eq_dec : EqDecision AdapterError.
Proof. solve_decision. Defined.

(** [struct SpawnRequest] *)
Record SpawnRequest := mk_spawn_request {
  sr_argv : list string;
  sr_working_dir : option string;
  sr_env : list (string * string);
  sr_interactive : bool;
  sr_output_cap_bytes : Z;
}.

(** [SpawnRequest::new] *)
Definition spawn_request (argv : list string) : SpawnRequest :=
  mk_spawn_request argv None [] false (1024 * 1024).

(** [struct AdapterSnapshot] *)
Record AdapterSnapshot := mk_adapter_snapshot {
  as_running : bool;
  as_exit_code : option Z;
  as_provider_session_id : option string;
  as_resume_pointer : option string;
}.
