(* ===== verification/Permission.v ===== *)
(** * Permission: approvals bound to one device (crate calcar-adapters)

    [PermissionManager] of [calcar-adapters/src/permission.rs] over an
    [ApprovalStore]: a [RequestStore] that can also read the clock and sweep.
    The manager keeps device bindings in memory; the store keeps the
    single-resolve truth. *)

From S2P Require Import Prelude Text Events Schema Requests Contract.

(** [struct PendingEntry] *)
Record PendingEntry := mk_pending_entry {
  pn_workflow_id : string;
  pn_request_id : string;
  pn_device_id : string;
  pn_summary : string;
  pn_expires_at_millis : Z;
  pn_resolved : bool;
}.

(** [struct PermissionManager]: the borrowed store, the map behind its mutex,
    and whether the mutex is poisoned. *)
Record PermissionManager (S : Type) := mk_permission {
  pm_store : S;
  pm_pending : gmap string PendingEntry;
  pm_poisoned : bool;
}.
Arguments mk_permission {S} _ _ _.
Arguments pm_store {S} _.
Arguments pm_pending {S} _.
Arguments pm_poisoned {S} _.

(** [namespaced_key] *)
Definition namespaced_key (workflow_id request_id : string) : string :=
  workflow_id +:+ ":" +:+ request_id.

(** [decision_word] *)
Definition decision_word (d : ApprovalDecision) : string :=
  match d with Allow => "allow" | Reject => "reject" end.

(** What approvals need beside the request store. *)
Class ApprovalStore (S : Type) `{!RequestStore S} := {
  as_now : ST S StorageError Z;
  as_expire : ST S StorageError Z;
  as_now_law s :
    let '(r, s') := as_now s in
    (∀ k, rs_status s' k = rs_status s k) ∧ (∀ k, rs_known s' k = rs_known s k) ∧
    ∃ t, r = Ok t ∧ in_i64 t;
  as_expire_law s :
    let '(r, s') := as_expire s in
    (∀ k, status_le (rs_status s k) (rs_status s' k)) ∧
    match r with
    | Ok n => (0 ≤ n)%Z
    | Err e => rs_fault s e ∧ ∀ k, rs_status s' k = rs_status s k
    end;
}.

Section Permission.
Context {S : Type} {RS : RequestStore S} {AS : ApprovalStore S}.

Definition PermissionM (A : Type) : Type := ST (PermissionManager S) StorageError A.

Definition pm_on_store {A} (m : ST S StorageError A) : PermissionM A := λ pm,
  let '(r, s) := m (pm_store pm) in
  (r, mk_permission s (pm_pending pm) (pm_poisoned pm)).

(** [self.pending.lock().map_err(..)?] *)
Definition pm_lock : PermissionM (gmap string PendingEntry) := λ pm,
  if pm_poisoned pm then (Err (InvalidState "permission map poisoned"), pm)
  else (Ok (pm_pending pm), pm).

Definition pm_insert (key : string) (e : PendingEntry) : PermissionM unit := λ pm,
  (Ok tt, mk_permission (pm_store pm) (<[key := e]> (pm_pending pm)) (pm_poisoned pm)).

Definition mark_resolved (e : PendingEntry) : PendingEntry :=
  mk_pending_entry (pn_workflow_id e) (pn_request_id e) (pn_device_id e) (pn_summary e)
    (pn_expires_at_millis e) true.

(** [if let Some(entry) = pending.get_mut(&key) { entry.resolved = true }] *)
Definition pm_mark_resolved (key : string) : PermissionM unit := λ pm,
  (Ok tt, mk_permission (pm_store pm) (alter mark_resolved key (pm_pending pm))
            (pm_poisoned pm)).

(** [PermissionManager::new] *)
Definition permission_new (s : S) : PermissionManager S := mk_permission s ∅ false.

(** [PermissionManager::request]; [ttl_ms] is [Duration::as_millis]. *)
Definition request (workflow_id request_id device_id summary : string) (ttl_ms : Z) :
    PermissionM unit :=
  if bool_decide (workflow_id = "") || bool_decide (request_id = "") ||
     bool_decide (device_id = "")
  then st_throw (InvalidState "workflow_id, request_id, and device_id must be non-empty")
  else
    let ttl_millis := Z.min ttl_ms i64_max in
    let* t := pm_on_store as_now in
    let expires_at_millis := i64_saturating_add t ttl_millis in
    let key := namespaced_key workflow_id request_id in
    let* _ := pm_on_store (rs_create key workflow_id Approval (Some expires_at_millis)) in
    let* _ := pm_lock in
    pm_insert key (mk_pending_entry workflow_id request_id device_id summary
                     expires_at_millis false).

(** The key a caller's id stands for: itself, or the one entry with that
    bare request id. *)
Definition find_key (pending : gmap string PendingEntry) (request_id : string) :
    option string :=
  match pending !! request_id with
  | Some _ => Some request_id
  | None =>
      match filter (λ kv, pn_request_id kv.2 = request_id) (map_to_list pending) with
      | [(key, _)] => Some key
      | _ => None
      end
  end.

(** [PermissionManager::resolve] *)
Definition resolve (request_id device_id : string) (decision : ApprovalDecision) :
    PermissionM ApprovalOutcome :=
  let* pending := pm_lock in
  match find_key pending request_id with
  | None => st_ret Unknown
  | Some key =>
      let* entry := st_lift (ok_or (pending !! key)
        (InvalidState "permission map changed mid-resolve")) in
      if bool_decide (pn_device_id entry ≠ device_id) then st_ret Unknown
      else if pn_resolved entry then st_ret DuplicateApproval
      else
        let payload := decision_word decision +:+ ":" +:+ pn_summary entry in
        let* answer := st_try (pm_on_store (rs_resolve key payload)) in
        match answer with
        | Ok _ => let* _ := pm_mark_resolved key in st_ret Applied
        | Err (AlreadyResolved _) =>
            let* _ := pm_mark_resolved key in st_ret DuplicateApproval
        | Err (Expired _) => st_ret ExpiredApproval
        | Err (NotFound _) => st_ret Unknown
        | Err other => st_throw other
        end
  end.

(** [PermissionManager::sweep_expired] *)
Definition sweep_expired : PermissionM Z :=
  let* flipped := pm_on_store as_expire in
  st_ret (Z.max flipped 0).

(** [PermissionManager::pending_for] *)
Definition pending_for (workflow_id : string) : PermissionM (list string) :=
  let* pending := pm_lock in
  let* t := pm_on_store as_now in
  st_ret (merge_sort String.le
    (pn_request_id <$> filter (λ e, pn_workflow_id e = workflow_id ∧ pn_resolved e = false ∧
                                    (pn_expires_at_millis e > t)%Z)
                         (map_to_list pending).*2)).

(** ** Histories *)

Inductive PermissionEvent :=
| Requested (workflow_id request_id device_id summary : string) (r : result unit StorageError)
| Resolved (request_id device_id : string) (d : ApprovalDecision) (key : option string)
    (r : result ApprovalOutcome StorageError)
| Quiet.

(** What anyone else may do to the store: settled requests stay settled. *)
Definition approvals_move (s s' : S) : Prop :=
  ∀ k, settled (rs_status s k) → rs_status s' k = rs_status s k.

Inductive permission_step :
    PermissionManager S → PermissionEvent → PermissionManager S → Prop :=
| pstep_request pm wf id dev summary ttl r pm' :
    request wf id dev summary ttl pm = (r, pm') →
    permission_step pm (Requested wf id dev summary r) pm'
| pstep_resolve pm id dev d r pm' :
    resolve id dev d pm = (r, pm') →
    permission_step pm (Resolved id dev d (find_key (pm_pending pm) id) r) pm'
| pstep_sweep pm :
    permission_step pm Quiet (sweep_expired pm).2
| pstep_pending_for pm wf :
    permission_step pm Quiet (pending_for wf pm).2
| pstep_restart pm :
    permission_step pm Quiet (permission_new (pm_store pm))
| pstep_poison pm :
    permission_step pm Quiet (mk_permission (pm_store pm) (pm_pending pm) true)
| pstep_others pm s' :
    approvals_move (pm_store pm) s' →
    permission_step pm Quiet (mk_permission s' (pm_pending pm) (pm_poisoned pm)).

Inductive permission_steps :
    PermissionManager S → list PermissionEvent → PermissionManager S → Prop :=
| psteps_nil pm : permission_steps pm [] pm
| psteps_cons pm e pm1 tr pm' :
    permission_step pm e pm1 → permission_steps pm1 tr pm' →
    permission_steps pm (e :: tr) pm'.

(** The event applies a verdict to the request with this key. *)
Definition applies (key : string) (e : PermissionEvent) : Prop :=
  match e with
  | Resolved _ _ _ (Some k) (Ok Applied) => k = key
  | _ => False
  end.

#[export] Instance applies_dec key e : Decision (applies key e).
Proof. destruct e as [| ? ? ? [] [[]|] |]; cbn; apply _. Defined.
(** ** Facts *)

Lemma wp_pm_on_store {A} (m : ST S StorageError A) Q pm :
  wp m (λ r s, Q r (mk_permission s (pm_pending pm) (pm_poisoned pm))) (pm_store pm) →
  wp (pm_on_store m) Q pm.
Proof. unfold wp, pm_on_store. by destruct (m (pm_store pm)). Qed.

(** The payload a verdict stores. *)
Definition verdict_payload (d : ApprovalDecision) (entry : PendingEntry) : string :=
  decision_word d +:+ ":" +:+ pn_summary entry.

(** The effect of a resolve by the bound device on an open entry. *)
Definition verdict_result (key : string) (entry : PendingEntry) (d : ApprovalDecision)
    (pm : PermissionManager S) (r : result ApprovalOutcome StorageError)
    (pm' : PermissionManager S) : Prop :=
  let st := rs_status (pm_store pm) key in
  let st' := rs_status (pm_store pm') key in
  (∀ k, k ≠ key → rs_status (pm_store pm') k = rs_status (pm_store pm) k) ∧
  pm_poisoned pm' = pm_poisoned pm ∧
  match r with
  | Ok Applied =>
      (∃ x, st = Some (RPending x)) ∧ st' = Some (RResolved (verdict_payload d entry)) ∧
      pm_pending pm' = alter mark_resolved key (pm_pending pm)
  | Ok DuplicateApproval =>
      (∃ q, st = Some (RResolved q)) ∧ st' = st ∧
      pm_pending pm' = alter mark_resolved key (pm_pending pm)
  | Ok ExpiredApproval =>
      (st = Some RExpired ∨ ∃ x, st = Some (RPending (Some x))) ∧ st' = Some RExpired ∧
      pm_pending pm' = pm_pending pm
  | Ok Unknown => st = None ∧ st' = None ∧ pm_pending pm' = pm_pending pm
  | Err e =>
      rs_fault (pm_store pm) e ∧ (settled st → st' = st) ∧
      (∀ q, st' = Some (RResolved q) → st' = st) ∧ pm_pending pm' = pm_pending pm
  end.

(** The effect of one resolve, on every path. *)
Definition resolve_result (id device : string) (d : ApprovalDecision)
    (pm : PermissionManager S) (r : result ApprovalOutcome StorageError)
    (pm' : PermissionManager S) : Prop :=
  if pm_poisoned pm then r = Err (InvalidState "permission map poisoned") ∧ pm' = pm
  else match find_key (pm_pending pm) id with
  | None => r = Ok Unknown ∧ pm' = pm
  | Some key => ∃ entry, pm_pending pm !! key = Some entry ∧
      if decide (pn_device_id entry = device) then
        if pn_resolved entry then r = Ok DuplicateApproval ∧ pm' = pm
        else verdict_result key entry d pm r pm'
      else r = Ok Unknown ∧ pm' = pm
  end.

Lemma find_key_present pending id key :
  find_key pending id = Some key → ∃ entry, pending !! key = Some entry.
Proof.
  unfold find_key. destruct (pending !! id) as [e|] eqn:E; [intros [= <-]; eauto|].
  destruct (filter _ _) as [|[k e] [|]] eqn:F; try done. intros [= <-]. exists e.
  apply elem_of_map_to_list.
  assert ((k, e) ∈ filter (λ kv, pn_request_id kv.2 = id) (map_to_list pending)) as Hin
    by (rewrite F; by apply elem_of_cons; left).
  by apply list_elem_of_filter in Hin as [_ Hin].
Qed.

Lemma wp_verdict key entry d pm :
  wp (let* answer := st_try (pm_on_store (rs_resolve key (verdict_payload d entry))) in
      match answer with
      | Ok _ => let* _ := pm_mark_resolved key in st_ret Applied
      | Err (AlreadyResolved _) =>
          let* _ := pm_mark_resolved key in st_ret DuplicateApproval
      | Err (Expired _) => st_ret ExpiredApproval
      | Err (NotFound _) => st_ret Unknown
      | Err other => st_throw other
      end) (verdict_result key entry d pm) pm.
Proof.
  apply wp_bind, wp_try, wp_pm_on_store. eapply wp_mono; [apply resolve_cases|].
  intros r s' (Hoth & _ & Hr). unfold verdict_result.
  destruct r as [[]|e].
  - destruct Hr as (x & Hx & Hst). cbn. by split_and!; eauto.
  - destruct Hr as (Hset & Hnew & [Hf|[(Hn & Hn' & ->)|[[-> [q Hq]]|(-> & Hexp & Hx)]]]).
    + pose proof (rs_fault_is_fault _ _ Hf). destruct e; try done; cbn; by split_and!.
    + cbn. by split_and!.
    + cbn. split_and!; eauto. apply Hset. by rewrite Hq.
    + cbn. by split_and!.
Qed.

Lemma wp_resolve_approval id device d pm :
  wp (resolve id device d) (resolve_result id device d pm) pm.
Proof.
  unfold resolve, resolve_result. apply wp_bind. unfold pm_lock, wp at 1.
  destruct (pm_poisoned pm) eqn:Hpo; [done|].
  destruct (find_key (pm_pending pm) id) as [key|] eqn:Hk; [|done].
  destruct (find_key_present _ _ _ Hk) as [entry He].
  apply wp_bind, wp_lift. rewrite He. cbn [ok_or].
  destruct (decide (pn_device_id entry = device)) as [Hdev|Hdev].
  - rewrite bool_decide_eq_false_2 by tauto. destruct (pn_resolved entry) eqn:Hres.
    + apply wp_ret. exists entry. rewrite decide_True, Hres by done. auto.
    + eapply wp_mono; [apply wp_verdict|]. intros r pm' Hv. exists entry.
      rewrite decide_True, Hres by done. auto.
  - rewrite bool_decide_eq_true_2 by done. apply wp_ret. exists entry.
    rewrite decide_False by done. auto.
Qed.

(** What a request does, on every path. *)
Lemma wp_request wf id device summary ttl pm :
  wp (request wf id device summary ttl) (λ r pm',
    let key := namespaced_key wf id in
    pm_poisoned pm' = pm_poisoned pm ∧
    (∀ k, k ≠ key → rs_status (pm_store pm') k = rs_status (pm_store pm) k) ∧
    (∀ k, k ≠ key → pm_pending pm' !! k = pm_pending pm !! k) ∧
    (settled (rs_status (pm_store pm) key) →
      rs_status (pm_store pm') key = rs_status (pm_store pm) key) ∧
    match r with
    | Ok _ =>
        rs_status (pm_store pm) key = None ∧ ∃ t, in_i64 t ∧
        let expires := i64_saturating_add t (Z.min ttl i64_max) in
        rs_status (pm_store pm') key = Some (RPending (Some expires)) ∧
        pm_pending pm' !! key = Some (mk_pending_entry wf id device summary expires false)
    | Err e =>
        pm_pending pm' = pm_pending pm ∧
        (rs_status (pm_store pm') key = rs_status (pm_store pm) key ∨
         (pm_poisoned pm = true ∧ rs_status (pm_store pm) key = None))
    end) pm.
Proof.
  unfold request. case_match; [by apply wp_throw; split_and!; auto|].
  apply wp_bind, wp_pm_on_store, wp_of. intros r s1 Hrun.
  pose proof (as_now_law (pm_store pm)) as Hn. rewrite Hrun in Hn.
  destruct Hn as (Hst1 & _ & t & -> & Ht). set (key := namespaced_key wf id).
  apply wp_bind, wp_pm_on_store, wp_of. cbn. intros r s2 Hrun2.
  pose proof (rs_create_law key wf Approval (Some (i64_saturating_add t (Z.min ttl i64_max))) s1)
    as Hc. rewrite Hrun2 in Hc. destruct Hc as (_ & _ & Hc). destruct r as [[]|e].
  - destruct Hc as (_ & Hnone & Hnew & Hoth). rewrite Hst1 in Hnone.
    apply wp_bind. unfold wp, pm_lock. cbn. rewrite Hnone.
    destruct (pm_poisoned pm) eqn:Hp; cbn.
    + split_and!; auto; [|done]. intros k Hk. by rewrite Hoth, Hst1.
    + split_and!; [done| | |done|done|].
      * intros k Hk. by rewrite Hoth, Hst1.
      * intros k Hk. by rewrite lookup_insert_ne.
      * exists t. by rewrite lookup_insert_eq.
  - destruct Hc as [Hsame _]. cbn.
    split_and!; auto; [..|left]; intros; by rewrite Hsame, Hst1.
Qed.

Lemma status_le_settled st st' : status_le st st' → settled st → st' = st.
Proof. intros [->|(e & -> & _)]; [done|by intros []]. Qed.

Lemma wp_sweep pm :
  wp sweep_expired (λ r pm', pm_pending pm' = pm_pending pm ∧ pm_poisoned pm' = pm_poisoned pm ∧
    (∀ k, status_le (rs_status (pm_store pm) k) (rs_status (pm_store pm') k)) ∧
    match r with Ok n => (0 ≤ n)%Z | Err e => rs_fault (pm_store pm) e end) pm.
Proof.
  unfold sweep_expired. apply wp_bind, wp_pm_on_store, wp_of. intros r s' Hrun.
  pose proof (as_expire_law (pm_store pm)) as H. rewrite Hrun in H. destruct H as [Hle Hr].
  destruct r as [n|e]; cbn; split_and!; auto; [lia|apply Hr].
Qed.

Lemma wp_pending_for wf pm :
  wp (pending_for wf) (λ r pm', pm_pending pm' = pm_pending pm ∧
    pm_poisoned pm' = pm_poisoned pm ∧
    (∀ k, rs_status (pm_store pm') k = rs_status (pm_store pm) k) ∧
    match r with
    | Ok ids => pm_poisoned pm = false ∧ ∃ t, in_i64 t ∧ StronglySorted String.le ids ∧
        ∀ id, id ∈ ids ↔ ∃ key e, pm_pending pm !! key = Some e ∧ pn_request_id e = id ∧
          pn_workflow_id e = wf ∧ pn_resolved e = false ∧ (t < pn_expires_at_millis e)%Z
    | Err e => pm_poisoned pm = true ∧ e = InvalidState "permission map poisoned"
    end) pm.
Proof.
  unfold pending_for. apply wp_bind. unfold pm_lock, wp at 1.
  destruct (pm_poisoned pm) eqn:Hp; [done|].
  apply wp_bind, wp_pm_on_store, wp_of. intros r s' Hrun.
  pose proof (as_now_law (pm_store pm)) as Hn. rewrite Hrun in Hn.
  destruct Hn as (Hst & _ & t & -> & Ht). cbn. split_and!; auto.
  exists t. split_and!; [done|apply StronglySorted_merge_sort; apply _|].
  intros id. rewrite merge_sort_Permutation, list_elem_of_fmap.
  setoid_rewrite list_elem_of_filter. setoid_rewrite list_elem_of_fmap.
  split.
  - intros (e & -> & (H1 & H2 & H3) & [key e'] & -> & Hin%elem_of_map_to_list).
    cbn in *. exists key, e'. split_and!; [done..|lia].
  - intros (key & e & Hk & <- & Hwf & Hres & Hexp). exists e. split; [done|].
    split; [split_and!; auto; lia|]. exists (key, e). by rewrite elem_of_map_to_list.
Qed.

(** One step, as seen by one key: only an application settles it with a
    receipt of this manager, and a settled key never applies. *)
Lemma pstep_settled pm e pm' key :
  permission_step pm e pm' → settled (rs_status (pm_store pm) key) →
  ¬ applies key e ∧ rs_status (pm_store pm') key = rs_status (pm_store pm) key.
Proof.
  intros Hstep Hset.
  destruct Hstep as [pm wf id dev sm ttl r pm' Hrun|pm id dev d r pm' Hrun|pm|pm wf|pm|pm|pm s' Hm];
    try (split; [by intros []|]); try done.
  - destruct (wp_eq _ _ _ _ _ Hrun (wp_request wf id dev sm ttl pm)) as (_ & Hoth & _ & Hs & _).
    destruct (decide (key = namespaced_key wf id)) as [->|Hne]; auto.
  - pose proof (wp_eq _ _ _ _ _ Hrun (wp_resolve_approval id dev d pm)) as Hr.
    unfold resolve_result in Hr.
    destruct (pm_poisoned pm);
      [destruct Hr as [-> ->]; split; [cbn; destruct (find_key _ _); by intros []|done]|].
    destruct (find_key (pm_pending pm) id) as [k|];
      [|destruct Hr as [-> ->]; by split; [intros []|]].
    destruct Hr as (entry & _ & Hr). case_decide; [destruct (pn_resolved entry)|];
      [destruct Hr as [-> ->]; by split; [intros []|]| |destruct Hr as [-> ->]; by split; [intros []|]].
    destruct Hr as (Hoth & _ & Hr). destruct (decide (key = k)) as [->|Hne].
    + destruct r as [[]|e]; cbn.
      * destruct Hr as ((x & Hx) & _). by rewrite Hx in Hset.
      * destruct Hr as (_ & Hr & _). by split; [intros []|].
      * destruct Hr as ([Hx|[x Hx]] & Hr & _); [by split; [intros []|rewrite Hr]|].
        by rewrite Hx in Hset.
      * destruct Hr as (Hx & _). by rewrite Hx in Hset.
      * destruct Hr as (_ & Hr & _). by split; [intros []|apply Hr].
    + split; [|by apply Hoth]. destruct r as [[]|e]; cbn; congruence || tauto.
  - apply status_le_settled; [|done]. apply (wp_run _ _ _ (wp_sweep pm)).
  - apply (wp_run _ _ _ (wp_pending_for wf pm)).
  - by apply Hm.
Qed.

Lemma pstep_applies pm e pm' key :
  permission_step pm e pm' → applies key e → settled (rs_status (pm_store pm') key).
Proof.
  intros Hstep Ha.
  destruct Hstep as [|pm id dev d r pm' Hrun| | | | |]; try done.
  pose proof (wp_eq _ _ _ _ _ Hrun (wp_resolve_approval id dev d pm)) as Hr.
  unfold resolve_result in Hr. cbn in Ha.
  destruct (find_key (pm_pending pm) id) as [k|]; [|done].
  destruct r as [[]|e']; try done. subst k.
  destruct (pm_poisoned pm); [by destruct Hr|]. destruct Hr as (entry & _ & Hr).
  case_decide; [|by destruct Hr]. destruct (pn_resolved entry); [by destruct Hr|].
  destruct Hr as (_ & _ & _ & -> & _). done.
Qed.

Lemma psteps_settled pm tr pm' key :
  permission_steps pm tr pm' → settled (rs_status (pm_store pm) key) →
  filter (applies key) tr = [].
Proof.
  induction 1 as [|pm e pm1 tr pm' Hstep _ IH]; intros Hset; [done|].
  destruct (pstep_settled _ _ _ key Hstep Hset) as [Hd Hst].
  rewrite filter_cons_False by done. apply IH. by rewrite Hst.
Qed.

(** Every tracked entry was requested in the trace so far. *)
Definition requested_in (tr : list PermissionEvent) (pm : PermissionManager S) : Prop :=
  ∀ key e, pm_pending pm !! key = Some e →
    key = namespaced_key (pn_workflow_id e) (pn_request_id e) ∧
    Requested (pn_workflow_id e) (pn_request_id e) (pn_device_id e) (pn_summary e) (Ok tt) ∈ tr.

Lemma requested_mono tr tr' pm : requested_in tr pm → requested_in (tr ++ tr') pm.
Proof. intros H key e He. destruct (H _ _ He). split; [done|]. apply elem_of_app. auto. Qed.

Lemma requested_step tr pm e pm' :
  permission_step pm e pm' → requested_in tr pm → requested_in (tr ++ [e]) pm'.
Proof.
  intros Hstep Hin. assert (requested_in (tr ++ [e]) pm) as Hin' by by apply requested_mono.
  assert (pm_pending pm' = pm_pending pm → requested_in (tr ++ [e]) pm') as Hsame.
  { intros Heq key en. rewrite Heq. apply Hin'. }
  assert (∀ k, pm_pending pm' = alter mark_resolved k (pm_pending pm) →
    requested_in (tr ++ [e]) pm') as Hmark.
  { intros k Heq key en. rewrite Heq, lookup_alter_Some.
    intros [(_ & e0 & He0 & ->)|[_ He0]]; by apply (Hin' _ _ He0). }
  destruct Hstep as [pm wf id dev sm ttl r pm' Hrun|pm id dev d r pm' Hrun|pm|pm wf|pm|pm|pm s' Hm].
  - destruct (wp_eq _ _ _ _ _ Hrun (wp_request wf id dev sm ttl pm)) as (_ & _ & Hp & _ & Hr).
    destruct r as [[]|er]; [|apply Hsame, Hr]. destruct Hr as (_ & t & _ & _ & Hnew).
    intros key en Hen. destruct (decide (key = namespaced_key wf id)) as [->|Hne].
    + rewrite Hnew in Hen. injection Hen as <-. split; [done|]. apply elem_of_app. right.
      by apply elem_of_cons; left.
    + rewrite Hp in Hen by done. by apply Hin'.
  - pose proof (wp_eq _ _ _ _ _ Hrun (wp_resolve_approval id dev d pm)) as Hr.
    unfold resolve_result in Hr. destruct (pm_poisoned pm); [by destruct Hr as [_ ->]|].
    destruct (find_key (pm_pending pm) id) as [k|]; [|by destruct Hr as [_ ->]].
    destruct Hr as (entry & _ & Hr). case_decide; [|by destruct Hr as [_ ->]].
    destruct (pn_resolved entry); [by destruct Hr as [_ ->]|].
    destruct Hr as (_ & _ & Hr). destruct r as [[]|er]; naive_solver.
  - apply Hsame, (wp_run _ _ _ (wp_sweep pm)).
  - apply Hsame, (wp_run _ _ _ (wp_pending_for wf pm)).
  - by intros key en Hen.
  - done.
  - done.
Qed.

Lemma applied_entry pm id dev d r pm' key :
  resolve id dev d pm = (r, pm') → r = Ok Applied → find_key (pm_pending pm) id = Some key →
  ∃ e, pm_pending pm !! key = Some e ∧ pn_device_id e = dev ∧
    rs_status (pm_store pm') key = Some (RResolved (verdict_payload d e)).
Proof.
  intros Hrun -> Hk.
  pose proof (wp_eq _ _ _ _ _ Hrun (wp_resolve_approval id dev d pm)) as Hr.
  unfold resolve_result in Hr. rewrite Hk in Hr. destruct (pm_poisoned pm); [by destruct Hr|].
  destruct Hr as (e & He & Hr). case_decide; [|by destruct Hr].
  destruct (pn_resolved e); [by destruct Hr|]. exists e. destruct Hr as (_ & _ & _ & Hr & _).
  done.
Qed.

Lemma pstep_resolved_inv pm id dev d k r pm' :
  permission_step pm (Resolved id dev d k r) pm' →
  resolve id dev d pm = (r, pm') ∧ find_key (pm_pending pm) id = k.
Proof. inversion 1; subst; auto. Qed.

(** ** Theorems *)

(** C8: a verdict is applied at most once.  Over any history of requests,
    resolves, sweeps, restarts, poisoned locks and other activity on the
    store, in any order and with engine faults, at most one resolve of a key
    answers [Applied], and none does once the stored request is settled. *)
Theorem approval_applied_once (pm pm' : PermissionManager S) (tr : list PermissionEvent)
    (key : string) :
  permission_steps pm tr pm' →
  length (filter (applies key) tr) ≤ 1 ∧
  (settled (rs_status (pm_store pm) key) → filter (applies key) tr = []).
Proof.
  intros Hsteps. split; [|by eapply psteps_settled].
  induction Hsteps as [|pm e pm1 tr pm' Hstep Hsteps IH]; [cbn; lia|]. rewrite filter_cons.
  case_decide as Hd; [|done]. cbn.
  rewrite (psteps_settled _ _ _ _ Hsteps (pstep_applies _ _ _ _ Hstep Hd)). cbn. lia.
Qed.

(** C9: only the bound device decides.  In any history that starts with a
    fresh manager, an applied verdict answers a request made earlier in the
    same history, under the key of its workflow and request id, and by the
    device that request was bound to. *)
Theorem approval_bound_to_device (s : S) (tr : list PermissionEvent)
    (pm : PermissionManager S) (id dev : string) (d : ApprovalDecision) (key : string)
    (pm' : PermissionManager S) :
  permission_steps (permission_new s) tr pm →
  permission_step pm (Resolved id dev d (Some key) (Ok Applied)) pm' →
  ∃ wf rid summary, Requested wf rid dev summary (Ok tt) ∈ tr ∧
    key = namespaced_key wf rid ∧
    rs_status (pm_store pm') key = Some (RResolved (decision_word d +:+ ":" +:+ summary)).
Proof.
  intros Hsteps Hstep.
  assert (∀ tr0 pm0, permission_steps pm0 tr pm → requested_in tr0 pm0 →
    requested_in (tr0 ++ tr) pm) as Hgo.
  { clear Hsteps Hstep. intros tr0 pm0 Hs. revert tr0.
    induction Hs as [pm0|pm0 e pm1 tr1 pm2 Hst _ IH]; intros tr0 Hin; [by rewrite app_nil_r|].
    specialize (IH (tr0 ++ [e]) (requested_step _ _ _ _ Hst Hin)).
    by rewrite <-app_assoc in IH. }
  assert (requested_in tr pm) as Hin by (apply (Hgo [] _ Hsteps); by intros ???).
  apply pstep_resolved_inv in Hstep as [Hrun Ek].
  destruct (applied_entry _ _ _ _ _ _ _ Hrun eq_refl Ek) as (e & He & <- & Hst).
  destruct (Hin _ _ He) as [-> Hreq]. by exists (pn_workflow_id e), (pn_request_id e), (pn_summary e).
Qed.

(** One resolve, on every branch.  A poisoned lock, an unknown or
    ambiguous id, another device and an already resolved entry leave manager
    and store untouched; otherwise the answer follows the stored request and
    the payload is the verdict with the card summary.  A manager that lost
    its bindings in a restart answers [Unknown] and touches nothing. *)
Theorem approval_resolve_spec (id device : string) (d : ApprovalDecision)
    (pm : PermissionManager S) :
  (let '(r, pm') := resolve id device d pm in resolve_result id device d pm r pm') ∧
  resolve id device d (permission_new (pm_store pm)) =
    (Ok Unknown, permission_new (pm_store pm)).
Proof. split; [to_wp; apply wp_resolve_approval|done]. Qed.
End Permission.

(** ** The database as an approval store *)

Lemma expire_all_status t d n d' k :
  expire_all t d = Ok (n, d') → status_le (status d k) (status d' k).
Proof.
  unfold expire_all. intros [= _ <-]. unfold status. cbn. rewrite lookup_fmap.
  destruct (pending_requests d !! k) as [r|]; [|by left]. cbn.
  destruct (overdue t r) eqn:Ho; [|by left]. right.
  apply overdue_status in Ho as ([e|] & -> & Hp); [by exists e|done].
Qed.

#[export] Program Instance DbApprovalStore {env : Env} : ApprovalStore World :=
  {| as_now := now; as_expire := expire_pending_requests |}.
Next Obligation.
  intros env w. to_wp. apply wp_now. intros t w' Ht Hw. cbn. rewrite Hw. by split_and!; eauto.
Qed.
Next Obligation.
  intros env w. unfold expire_pending_requests. to_wp. sql_step. sql_step. cbn.
  rewrite <-Hw. sql_step; cbn.
  - rewrite Hw0. split; [by left|]. split; [done|]. done.
  - done.
  - unfold expire_all in Ha. split.
    + intros k. rewrite Hw0. by eapply expire_all_status.
    + injection Ha as <- _. lia.
Qed.

(** ** Witnesses: one approval, asked and answered over the database *)

#[local] Instance approval_env : Env := steady_env 1000 7.

Definition approval_world : World :=
  mk_world (mk_db (Some [("0001_init", 999%Z)]) true
    {["wf-1" := mk_workflow_row "wf-1" 4 3 "build" None 1000 1000]} [] [] ∅ ∅ ∅) 0 0.

Definition asked : result unit StorageError * PermissionManager World :=
  request "wf-1" "req-1" "phone-a" "rm build" 60000 (permission_new approval_world).
Definition denied : result ApprovalOutcome StorageError * PermissionManager World :=
  resolve "req-1" "phone-b" Allow asked.2.
Definition allowed : result ApprovalOutcome StorageError * PermissionManager World :=
  resolve "req-1" "phone-a" Allow denied.2.

Example approval_answers :
  (asked.1, denied.1, allowed.1) = (Ok tt, Ok Unknown, Ok Applied).
Proof. vm_compute. reflexivity. Qed.

Definition approval_trace : list PermissionEvent :=
  [Requested "wf-1" "req-1" "phone-a" "rm build" asked.1;
   Resolved "req-1" "phone-b" Allow (find_key (pm_pending asked.2) "req-1") denied.1].

Lemma approval_steps :
  permission_steps (permission_new approval_world) approval_trace denied.2.
Proof.
  eapply psteps_cons; [by eapply pstep_request, surjective_pairing|].
  eapply psteps_cons; [by eapply pstep_resolve, surjective_pairing|apply psteps_nil].
Qed.

Lemma approval_last_step :
  permission_step denied.2
    (Resolved "req-1" "phone-a" Allow (Some "wf-1:req-1") (Ok Applied)) allowed.2.
Proof.
  assert (find_key (pm_pending denied.2) "req-1" = Some "wf-1:req-1") as <-
    by (vm_compute; reflexivity).
  assert (allowed.1 = Ok Applied) as <- by (vm_compute; reflexivity).
  apply pstep_resolve, surjective_pairing.
Qed.

Lemma approval_applied_once_witness :
  permission_steps (permission_new approval_world) approval_trace denied.2 ∧
  length (filter (applies "wf-1:req-1") approval_trace) ≤ 1.
Proof.
  split; [exact approval_steps|].
  exact (proj1 (approval_applied_once _ _ _ "wf-1:req-1" approval_steps)).
Defined.

Lemma approval_bound_to_device_witness :
  ∃ wf rid summary, Requested wf rid "phone-a" summary (Ok tt) ∈ approval_trace ∧
    "wf-1:req-1" = namespaced_key wf rid ∧
    rs_status (pm_store allowed.2) "wf-1:req-1" =
      Some (RResolved (decision_word Allow +:+ ":" +:+ summary)).
Proof.
  exact (approval_bound_to_device _ _ _ _ _ _ _ _ approval_steps approval_last_step).
Defined.
