(* ===== verification/Quote.v ===== *)
(** * Quote: Windows command lines (crate calcar-pty)

    [quote_arg] and [command_line] of [calcar-pty/src/lib.rs] and
    [plain.rs] (the two files hold the same code).  The special characters are
    ASCII, so going through the bytes of the argument is going through its
    [chars].  [ms_args] is the documented rule a Windows program applies to
    its command line (Microsoft C runtime, "Parsing C command-line
    arguments"); the theorems say that a child gets back exactly the argument
    vector it was started with. *)

From S2P Require Import Prelude Text.
From Stdlib Require Import Ascii.

(** [enum PtyError] *)
Inductive PtyError :=
| InvalidConfig (message : string)
| Windows (call message : string)
| PtyIo (message : string)
| Closed.

#[export] Instance PtyError_eq_dec : EqDecision PtyError.
Proof. solve_decision. Defined.

(** [Display] of [PtyError] *)
Definition pty_display (e : PtyError) : string :=
  match e with
  | Windows call message => "windows call " +:+ call +:+ " failed: " +:+ message
  | PtyIo message => "io error: " +:+ message
  | InvalidConfig message => "invalid spawn config: " +:+ message
  | Closed => "pty is closed"
  end.

Fixpoint backslashes (n : nat) : string :=
  match n with 0 => "" | S n' => String BACKSLASH (backslashes n') end.

(** The argument is empty or contains a space, a tab or a double quote. *)
Definition needs_quotes (arg : string) : bool :=
  bool_decide (arg = "") || contains_byte " " arg || contains_byte TAB arg ||
  contains_byte DQUOTE arg.

(** The loop over the characters, with the current run of backslashes. *)
Fixpoint quote_go (s : string) (n : nat) : string :=
  match s with
  | "" => backslashes n +:+ dquote
  | String c s' =>
      if Ascii.eqb c BACKSLASH then String c (quote_go s' (S n))
      else if Ascii.eqb c DQUOTE then
        backslashes n +:+ String BACKSLASH (String DQUOTE (quote_go s' 0))
      else String c (quote_go s' 0)
  end.

(** [quote_arg] *)
Definition quote_arg (arg : string) : string :=
  if needs_quotes arg then String DQUOTE (quote_go arg 0) else arg.

(** [command_line] *)
Definition command_line (argv : list string) : result string PtyError :=
  match argv with
  | [] => Err (InvalidConfig "argv is empty")
  | _ => Ok (join " " (quote_arg <$> argv))
  end.

(** ** The documented parsing rules *)

Definition is_blank (c : ascii) : bool := Ascii.eqb c " " || Ascii.eqb c TAB.

(** Arguments after the program name: [inq] inside quotes, [n] pending
    backslashes, [cur] the argument so far, [started] whether one has begun. *)
Fixpoint ms_args (inq : bool) (n : nat) (cur : string) (started : bool) (s : string) :
    list string :=
  match s with
  | "" => if started then [cur +:+ backslashes n] else []
  | String c s' =>
      if Ascii.eqb c BACKSLASH then ms_args inq (S n) cur true s'
      else if Ascii.eqb c DQUOTE then
        let cur' := cur +:+ backslashes (n / 2) in
        if Nat.odd n then ms_args inq 0 (cur' +:+ dquote) true s'
        else if inq then
          match s' with
          | String c' s'' =>
              if Ascii.eqb c' DQUOTE then ms_args true 0 (cur' +:+ dquote) true s''
              else ms_args false 0 cur' true s'
          | "" => ms_args false 0 cur' true s'
          end
        else ms_args true 0 cur' true s'
      else if is_blank c && negb inq then
        if started then (cur +:+ backslashes n) :: ms_args false 0 "" false s'
        else ms_args false 0 "" false s'
      else ms_args inq 0 (cur +:+ backslashes n +:+ bstr c) true s'
  end.

(** The program name: up to the next quote when quoted, else up to a blank;
    backslashes mean themselves. *)
Fixpoint take_until (f : ascii → bool) (s : string) : string * string :=
  match s with
  | "" => ("", "")
  | String c s' =>
      if f c then ("", s') else let '(a, r) := take_until f s' in (String c a, r)
  end.

Definition ms_command_line (s : string) : list string :=
  match s with
  | String c s' =>
      if Ascii.eqb c DQUOTE then
        let '(program, rest) := take_until (λ b, Ascii.eqb b DQUOTE) s' in
        program :: ms_args false 0 "" false rest
      else
        let '(program, rest) := take_until is_blank s in
        program :: ms_args false 0 "" false rest
  | "" => []
  end.

(** ** Facts *)

Lemma backslashes_snoc n t : backslashes n +:+ String BACKSLASH t = String BACKSLASH (backslashes n +:+ t).
Proof. induction n; [done|]. cbn [backslashes]. by rewrite !sapp_cons, IHn. Qed.

Lemma ms_args_backslashes inq n k cur t :
  ms_args inq n cur true (backslashes k +:+ t) = ms_args inq (k + n) cur true t.
Proof.
  revert n. induction k as [|k IH]; intros n; [done|].
  cbn [backslashes]. rewrite sapp_cons. cbn. rewrite IH. f_equal. lia.
Qed.

Lemma double_half n : (n + n) / 2 = n.
Proof. replace (n + n) with (n * 2) by lia. by apply Nat.div_mul. Qed.
Lemma double_even n : Nat.odd (n + n) = false.
Proof. replace (n + n) with (2 * n) by lia. rewrite <-Nat.negb_even, Nat.even_mul. done. Qed.

(** What follows an argument on the command line. *)
Definition boundary (t : string) : Prop := t = "" ∨ ∃ t', t = String " " t'.

Lemma boundary_next inq n cur t :
  boundary t → ms_args inq n cur true (String DQUOTE t) =
    if Nat.odd n then ms_args inq 0 (cur +:+ backslashes (n / 2) +:+ dquote) true t
    else ms_args (negb inq) 0 (cur +:+ backslashes (n / 2)) true t.
Proof.
  intros [->|[t' ->]]; cbn [ms_args]; destruct (Nat.odd n), inq;
    rewrite ?sapp_assoc; try done.
Qed.

(** Inside its quotes an argument is read back byte for byte. *)
Lemma ms_args_quote_go s n cur t :
  boundary t →
  ms_args true n cur true (quote_go s n +:+ t) =
  ms_args false 0 (cur +:+ backslashes n +:+ s) true t.
Proof.
  intros Hb. revert n cur. induction s as [|c s IH]; intros n cur; cbn [quote_go].
  - rewrite sapp_assoc, ms_args_backslashes. unfold dquote, bstr.
    rewrite sapp_cons, sapp_nil_l, boundary_next by done.
    by rewrite double_even, double_half, sapp_nil_r.
  - destruct (Ascii.eqb_spec c BACKSLASH) as [->|Hbs].
    { rewrite sapp_cons. cbn [ms_args]. cbn. rewrite IH. cbn [backslashes].
      by rewrite sapp_cons, <-backslashes_snoc. }
    destruct (Ascii.eqb_spec c DQUOTE) as [->|Hq].
    + rewrite sapp_assoc, ms_args_backslashes, !sapp_cons. cbn [ms_args].
      rewrite Ascii.eqb_refl. change (Ascii.eqb DQUOTE BACKSLASH) with false. cbn iota.
      rewrite Ascii.eqb_refl.
      assert (Nat.odd (S (n + n)) = true) as Hodd by by rewrite Nat.odd_succ, <-Nat.negb_odd, double_even.
      rewrite Hodd, IH. cbn [backslashes]. rewrite sapp_nil_l, !sapp_assoc.
      replace (S (n + n) / 2) with n; [done|].
      replace (S (n + n)) with (1 + n * 2) by lia. rewrite Nat.div_add by done. done.
    + rewrite sapp_cons. cbn [ms_args].
      destruct (Ascii.eqb_spec c BACKSLASH) as [?|_]; [done|].
      destruct (Ascii.eqb_spec c DQUOTE) as [?|_]; [done|].
      rewrite andb_false_r, IH. cbn [backslashes]. rewrite sapp_nil_l, !sapp_assoc. done.
Qed.

(** An unquoted argument is read back as it is. *)
Lemma ms_args_plain s n cur t :
  contains_byte " " s = false → contains_byte TAB s = false → contains_byte DQUOTE s = false →
  boundary t →
  ms_args false n cur true (s +:+ t) = (cur +:+ backslashes n +:+ s) :: ms_args false 0 "" false t.
Proof.
  intros H1 H2 H3 Hb. revert n cur H1 H2 H3. induction s as [|c s IH]; intros n cur H1 H2 H3.
  { rewrite sapp_nil_l, sapp_nil_r. destruct Hb as [->|[t' ->]]; done. }
  cbn [contains_byte] in *. apply orb_false_iff in H1 as [H1 H1'], H2 as [H2 H2'], H3 as [H3 H3'].
  rewrite sapp_cons. cbn [ms_args]. rewrite H3. unfold is_blank. rewrite H1, H2. cbn [orb andb].
  destruct (Ascii.eqb_spec c BACKSLASH) as [->|_]; rewrite IH by done; f_equal.
  - cbn [backslashes]. by rewrite sapp_cons, <-backslashes_snoc.
  - cbn [backslashes]. by rewrite sapp_nil_l, !sapp_assoc.
Qed.

Lemma needs_quotes_false arg :
  needs_quotes arg = false → arg ≠ "" ∧ contains_byte " " arg = false ∧
    contains_byte TAB arg = false ∧ contains_byte DQUOTE arg = false.
Proof.
  unfold needs_quotes. rewrite !orb_false_iff, bool_decide_eq_false. tauto.
Qed.

(** One argument followed by the rest of the line. *)
Lemma ms_args_quote_arg arg t :
  boundary t →
  ms_args false 0 "" false (quote_arg arg +:+ t) = arg :: ms_args false 0 "" false t.
Proof.
  intros Hb. unfold quote_arg. destruct (needs_quotes arg) eqn:Hn.
  - rewrite sapp_cons. cbn [ms_args]. change (Ascii.eqb DQUOTE BACKSLASH) with false.
    rewrite Ascii.eqb_refl. cbn iota. cbn [Nat.odd Nat.even negb].
    change (0 / 2) with 0. cbn [backslashes]. rewrite sapp_nil_l.
    rewrite ms_args_quote_go by done. rewrite !sapp_nil_l.
    destruct Hb as [->|[t' ->]]; cbn; by rewrite sapp_nil_r.
  - apply needs_quotes_false in Hn as (Hne & H1 & H2 & H3).
    pose proof (ms_args_plain arg 0 "" t H1 H2 H3 Hb) as Hp. rewrite !sapp_nil_l in Hp.
    rewrite <-Hp. destruct arg as [|c arg]; [done|]. rewrite sapp_cons. cbn [ms_args].
    cbn [contains_byte] in *. apply orb_false_iff in H1 as [H1 _], H2 as [H2 _], H3 as [H3 _].
    unfold is_blank. by rewrite H1, H2, H3.
Qed.

Lemma boundary_sconcat l : boundary (sconcat ((λ y, " " +:+ y) <$> l)).
Proof. destruct l as [|x l]; [by left|right]. by eexists. Qed.

Lemma ms_args_tail l :
  ms_args false 0 "" false (sconcat ((λ y, " " +:+ y) <$> (quote_arg <$> l))) = l.
Proof.
  induction l as [|x l IH]; [done|].
  change (ms_args false 0 "" false (quote_arg x +:+ sconcat ((λ y, " " +:+ y) <$> (quote_arg <$> l)))
    = x :: l).
  by rewrite ms_args_quote_arg, IH by apply boundary_sconcat.
Qed.

Lemma take_until_app f s c t :
  (∀ a b r, s = a +:+ String b r → f b = false) → f c = true →
  take_until f (s +:+ String c t) = (s, t).
Proof.
  intros Hs Hc. induction s as [|b s IH]; [rewrite sapp_nil_l; cbn; by rewrite Hc|].
  rewrite sapp_cons. cbn [take_until]. rewrite (Hs "" b s) by done.
  rewrite IH; [done|]. intros a b' r ->. by apply (Hs (String b a) b' r).
Qed.

(** ** The round trip *)

(** A program name Windows can be given: it holds no quote, and when it has
    to be quoted for a blank it does not end in a backslash. *)
Definition good_program (p : string) : Prop :=
  contains_byte DQUOTE p = false ∧
  (needs_quotes p = true → ∀ q, p ≠ q +:+ bstr BACKSLASH).

Lemma take_until_ext f p c t :
  contains_byte c p = false → (∀ b, f b = Ascii.eqb b c) → 
  take_until f (p +:+ String c t) = (p, t).
Proof.
  intros Hp Hf. apply take_until_app; [|rewrite Hf; apply Ascii.eqb_refl].
  intros a b r ->. rewrite contains_byte_app in Hp. apply orb_false_iff in Hp as [_ Hp].
  cbn in Hp. rewrite Hf. by apply orb_false_iff in Hp as [Hp _].
Qed.

Lemma quote_go_program p n :
  contains_byte DQUOTE p = false → (∀ q, p ≠ q +:+ bstr BACKSLASH) → (p = "" → n = 0) →
  quote_go p n = p +:+ dquote.
Proof.
  revert n. induction p as [|c p IH]; intros n Hq Hb Hn; [by rewrite Hn|].
  cbn [contains_byte] in Hq. apply orb_false_iff in Hq as [Hc Hq].
  assert (∀ q, p ≠ q +:+ bstr BACKSLASH) as Hb'.
  { intros q ->. by apply (Hb (String c q)). }
  cbn [quote_go]. rewrite sapp_cons. destruct (Ascii.eqb_spec c BACKSLASH) as [->|Hne].
  - rewrite IH; [done..|]. intros ->. destruct (Hb "" eq_refl).
  - rewrite Hc, IH; done.
Qed.

Lemma ms_command_line_program p t :
  good_program p → boundary t →
  ms_command_line (quote_arg p +:+ t) = p :: ms_args false 0 "" false t.
Proof.
  intros [Hq Hb] Ht. unfold quote_arg. destruct (needs_quotes p) eqn:Hn.
  - rewrite quote_go_program by auto. rewrite sapp_cons. unfold ms_command_line.
    rewrite Ascii.eqb_refl, sapp_assoc. unfold dquote, bstr. rewrite sapp_cons, sapp_nil_l.
    by rewrite (take_until_ext _ _ DQUOTE).
  - apply needs_quotes_false in Hn as (Hne & H1 & H2 & _).
    assert (take_until is_blank (p +:+ t) = (p, match t with String _ t' => t' | "" => "" end)) as Htk.
    { destruct Ht as [->|[t' ->]].
      - rewrite sapp_nil_r. clear -H1 H2. induction p as [|c p IH]; [done|].
        cbn [contains_byte] in *. apply orb_false_iff in H1 as [H1 H1'], H2 as [H2 H2'].
        cbn [take_until]. unfold is_blank at 1. by rewrite H1, H2, IH.
      - apply take_until_app; [|done]. intros a b r ->. rewrite contains_byte_app in H1, H2.
        apply orb_false_iff in H1 as [_ H1], H2 as [_ H2]. cbn in H1, H2.
        apply orb_false_iff in H1 as [H1 _], H2 as [H2 _]. unfold is_blank. by rewrite H1, H2. }
    unfold ms_command_line. destruct (p +:+ t) as [|c u] eqn:E.
    { apply sapp_eq_nil in E as [-> _]. done. }
    assert (Ascii.eqb c DQUOTE = false) as ->.
    { destruct p as [|c' p]; [done|]. rewrite sapp_cons in E. injection E as -> _.
      cbn in Hq. by apply orb_false_iff in Hq as [? _]. }
    rewrite Htk. by destruct Ht as [->|[t' ->]].
Qed.

(** C17: arguments survive the command line.  A child that parses its command
    line by the documented rules gets back every argument byte for byte, for
    any arguments at all (blanks, quotes, runs of backslashes, empty ones) and
    any program name Windows can be given; only an empty argument vector is
    refused. *)
Theorem command_line_round_trip (program : string) (args : list string) :
  good_program program →
  ∃ line, command_line (program :: args) = Ok line ∧
    ms_command_line line = program :: args ∧
    command_line [] = Err (InvalidConfig "argv is empty").
Proof.
  intros Hp. eexists. split; [reflexivity|]. split; [|done]. cbn [fmap list_fmap join].
  rewrite ms_command_line_program by (done || apply boundary_sconcat).
  by rewrite ms_args_tail.
Qed.

Lemma command_line_round_trip_witness :
  good_program "C:\Program Files\git.exe" ∧
  ∃ line, command_line ["C:\Program Files\git.exe"; "a"; ""; "b c"; "-m" +:+ dquote] = Ok line ∧
    ms_command_line line = ["C:\Program Files\git.exe"; "a"; ""; "b c"; "-m" +:+ dquote] ∧
    command_line [] = Err (InvalidConfig "argv is empty").
Proof.
  assert (good_program "C:\Program Files\git.exe") as H.
  { split; [done|]. intros _ q Hq.
    assert (String.length q = 23) as Hl.
    { apply (f_equal String.length) in Hq. rewrite sapp_length in Hq. cbn in Hq. lia. }
    do 24 (destruct q as [|? q]; [done|]). done. }
  split; [exact H|]. exact (command_line_round_trip _ _ H).
Defined.
