(* ===== verification/Plain.v ===== *)
(** * Plain: the plain-pipe child process (crate calcar-pty, plain.rs)

    [CappedSink] and [PlainChild] of [calcar-pty/src/plain.rs].  A child runs
    beside the agent: between any two calls its pump threads may deliver
    bytes and its process may end.  A [ChildEvent] is one such move, and
    every call into the child first lets a batch of them happen, so all
    interleavings are explicit. *)

From S2P Require Import Prelude Text Quote.
From Stdlib Require Import Ascii.

Definition DEFAULT_PLAIN_OUTPUT_CAP_BYTES : Z := 1024 * 1024.
Definition MAX_PLAIN_OUTPUT_CAP_BYTES : Z := 64 * 1024 * 1024.

(** [struct PlainConfig] *)
Record PlainConfig := mk_plain_config {
  pc_argv : list string;
  pc_working_dir : option string;
  pc_env : list (string * string);
  pc_input : option string;
  pc_output_cap_bytes : Z;
}.

(** [PlainConfig::new] and [with_input] *)
Definition plain_config (argv : list string) : PlainConfig :=
  mk_plain_config argv None [] None DEFAULT_PLAIN_OUTPUT_CAP_BYTES.
Definition with_input (bytes : string) (c : PlainConfig) : PlainConfig :=
  mk_plain_config (pc_argv c) (pc_working_dir c) (pc_env c) (Some bytes) (pc_output_cap_bytes c).

(** [struct PlainOutput] *)
Record PlainOutput := mk_plain_output {
  po_stdout : string;
  po_stderr : string;
  po_exit_code : option Z;
  po_truncated : bool;
}.

(** ** The sink *)

(** The first [n] bytes: [&chunk[..n]]. *)
Fixpoint stake (n : nat) (s : string) : string :=
  match n, s with
  | S n', String c s' => String c (stake n' s')
  | _, _ => ""
  end.

Definition slen (s : string) : Z := Z.of_nat (String.length s).

(** [struct CappedSink] *)
Record CappedSink := mk_sink { sk_buf : string; sk_cap : Z; sk_truncated : bool }.

(** [CappedSink::new] *)
Definition sink_new (cap : Z) : CappedSink := mk_sink "" cap false.

(** [CappedSink::push] *)
Definition sink_push (chunk : string) (k : CappedSink) : CappedSink :=
  let room := Z.max (sk_cap k - slen (sk_buf k)) 0 in
  let keep := Z.min room (slen chunk) in
  mk_sink (sk_buf k +:+ stake (Z.to_nat keep) chunk) (sk_cap k)
    (if (keep <? slen chunk)%Z then true else sk_truncated k).

(** ** The child *)

(** [struct Inner] as far as the agent can see it: the two sinks, the cached
    exit code behind its flag, and the process, ended with a code or not. *)
Record PlainChild := mk_child {
  ch_stdout : CappedSink;
  ch_stderr : CappedSink;
  ch_exited : bool;
  ch_code : Z;
  ch_process : option Z;
}.

(** What happens beside the agent: a pump delivers a chunk, the process ends. *)
Inductive ChildEvent :=
| PumpStdout (chunk : string)
| PumpStderr (chunk : string)
| ProcessExit (code : Z).

Definition child_event (e : ChildEvent) (c : PlainChild) : PlainChild :=
  match e with
  | PumpStdout chunk =>
      mk_child (sink_push chunk (ch_stdout c)) (ch_stderr c) (ch_exited c) (ch_code c) (ch_process c)
  | PumpStderr chunk =>
      mk_child (ch_stdout c) (sink_push chunk (ch_stderr c)) (ch_exited c) (ch_code c) (ch_process c)
  | ProcessExit code =>
      mk_child (ch_stdout c) (ch_stderr c) (ch_exited c) (ch_code c)
        (match ch_process c with None => Some code | old => old end)
  end.

Definition child_events (es : list ChildEvent) (c : PlainChild) : PlainChild :=
  runs child_event es c.

(** The child of a successful [PlainChild::spawn]. *)
Definition child_new (config : PlainConfig) : PlainChild :=
  let cap := Z.max 1 (Z.min (pc_output_cap_bytes config) MAX_PLAIN_OUTPUT_CAP_BYTES) in
  mk_child (sink_new cap) (sink_new cap) false 0 None.

(** [PlainChild::wait] with a zero timeout; [wait_error] is the failure of
    [WaitForSingleObject] or [GetExitCodeProcess], when there is one. *)
Definition child_poll (wait_error : option PtyError) (c : PlainChild) :
    result (option Z) PtyError * PlainChild :=
  if ch_exited c then (Ok (Some (ch_code c)), c)
  else match wait_error with
       | Some e => (Err e, c)
       | None =>
           match ch_process c with
           | None => (Ok None, c)
           | Some code =>
               (Ok (Some code), mk_child (ch_stdout c) (ch_stderr c) true code (ch_process c))
           end
       end.

(** [PlainChild::exit_code] *)
Definition child_exit_code (c : PlainChild) : option Z :=
  if ch_exited c then Some (ch_code c) else None.

(** [PlainChild::truncated] *)
Definition child_truncated (c : PlainChild) : bool :=
  sk_truncated (ch_stdout c) || sk_truncated (ch_stderr c).

(** [PlainChild::snapshot] *)
Definition child_snapshot (c : PlainChild) : PlainOutput :=
  mk_plain_output (sk_buf (ch_stdout c)) (sk_buf (ch_stderr c)) (child_exit_code c)
    (child_truncated c).

(** [wait(None)]: the child goes on until its process has ended; the state then
    and what is still to come. *)
Fixpoint wait_exit (coming : list ChildEvent) (c : PlainChild) : PlainChild * list ChildEvent :=
  match ch_process c, coming with
  | None, e :: coming' => wait_exit coming' (child_event e c)
  | _, _ => (c, coming)
  end.

(** [PlainChild::join]: [coming] is what happens until its last thread ended,
    the process exit included when it has not been seen. *)
Definition child_join (coming : list ChildEvent) (wait_error : option PtyError) (c : PlainChild) :
    result PlainOutput PtyError :=
  let '(c, coming) := if ch_exited c then (c, coming) else wait_exit coming c in
  match child_poll wait_error c with
  | (Err e, _) => Err e
  | (Ok code, c) =>
      let out := child_snapshot (child_events coming c) in
      Ok (mk_plain_output (po_stdout out) (po_stderr out) (Some (default 1%Z code))
            (po_truncated out))
  end.

(** ** Facts *)

(** [s] is a prefix of [t]. *)
Definition sprefix (s t : string) : Prop := ∃ u, t = s +:+ u.

#[export] Instance sprefix_preorder : PreOrder sprefix.
Proof.
  split; [intros s; exists ""; by rewrite sapp_nil_r|].
  intros s t u [a ->] [b ->]. exists (a +:+ b). by rewrite sapp_assoc.
Qed.

Lemma stake_app n s : ∃ t, s = stake n s +:+ t.
Proof.
  revert s. induction n as [|n IH]; intros [|c s]; cbn [stake]; try (by eexists).
  destruct (IH s) as [t Ht]. exists t. rewrite sapp_cons. by f_equal.
Qed.

Lemma stake_length n s : String.length (stake n s) = n `min` String.length s.
Proof. revert s. induction n as [|n IH]; intros [|c s]; cbn; auto. Qed.

Lemma stake_all n s : String.length s ≤ n → stake n s = s.
Proof.
  revert s. induction n as [|n IH]; intros [|c s]; cbn; intros H; try done; [lia|].
  rewrite IH; [done|lia].
Qed.

Lemma stake_sapp n s t :
  stake n (s +:+ t) = stake n s +:+ stake (n - String.length s) t.
Proof.
  revert s. induction n as [|n IH]; intros [|c s]; try done.
  rewrite sapp_cons. cbn [stake String.length]. by rewrite sapp_cons, IH.
Qed.

(** A sink that received the bytes [all], in whatever chunks. *)
Definition sink_of (cap : Z) (all : string) : CappedSink :=
  mk_sink (stake (Z.to_nat cap) all) cap (cap <? slen all)%Z.

Lemma sink_push_of cap all chunk :
  (0 ≤ cap)%Z → sink_push chunk (sink_of cap all) = sink_of cap (all +:+ chunk).
Proof.
  intros Hcap. unfold sink_push, sink_of, slen. cbn [sk_buf sk_cap sk_truncated].
  rewrite stake_length, stake_sapp, sapp_length. f_equal.
  - f_equal. set (a := String.length all). set (b := String.length chunk).
    replace (Z.max (cap - Z.of_nat (Z.to_nat cap `min` a)) 0)
      with (Z.of_nat (Z.to_nat cap - a)) by lia.
    destruct (decide (Z.to_nat cap - a ≤ b)).
    + f_equal. lia.
    + rewrite !stake_all; [done|fold b; lia..].
  - set (a := String.length all). set (b := String.length chunk).
    destruct (Z.ltb_spec (Z.min (Z.max (cap - Z.of_nat (Z.to_nat cap `min` a)) 0) (Z.of_nat b))
      (Z.of_nat b)), (Z.ltb_spec cap (Z.of_nat a)), (Z.ltb_spec cap (Z.of_nat (a + b)));
      try done; lia.
Qed.

Lemma sink_new_of cap : (0 ≤ cap)%Z → sink_new cap = sink_of cap "".
Proof.
  intros H. unfold sink_new, sink_of, slen. cbn. f_equal; [by destruct (Z.to_nat cap)|].
  symmetry. apply Z.ltb_ge. lia.
Qed.

(** The bytes the pumps delivered, and the first exit. *)
Definition stdout_of (es : list ChildEvent) : string :=
  sconcat (omap (λ e, match e with PumpStdout b => Some b | _ => None end) es).
Definition stderr_of (es : list ChildEvent) : string :=
  sconcat (omap (λ e, match e with PumpStderr b => Some b | _ => None end) es).
Definition exit_of (es : list ChildEvent) : option Z :=
  head (omap (λ e, match e with ProcessExit c => Some c | _ => None end) es).

(** How a child may move: output only grows, a cached exit code stays, and an
    ended process stays ended. *)
Record child_le (c c' : PlainChild) : Prop := {
  le_stdout : sprefix (sk_buf (ch_stdout c)) (sk_buf (ch_stdout c'));
  le_stderr : sprefix (sk_buf (ch_stderr c)) (sk_buf (ch_stderr c'));
  le_process x : ch_process c = Some x → ch_process c' = Some x;
  le_exited : ch_exited c = true → ch_exited c' = true ∧ ch_code c' = ch_code c;
}.

#[export] Instance child_le_preorder : PreOrder child_le.
Proof.
  split; [intros c; by split|].
  intros c1 c2 c3 [A1 B1 P1 E1] [A2 B2 P2 E2]. split; [by etrans|by etrans|eauto|].
  intros H. destruct (E1 H) as [H2 ?], (E2 (proj1 (E1 H))) as [? ?]. split; congruence.
Qed.

Lemma sink_push_prefix chunk k : sprefix (sk_buf k) (sk_buf (sink_push chunk k)).
Proof. by eexists. Qed.

Lemma child_event_le e c : child_le c (child_event e c).
Proof.
  destruct e; split; cbn; try done; try apply sink_push_prefix.
  intros x. by intros ->.
Qed.

Lemma child_events_le es c : child_le c (child_events es c).
Proof.
  revert c. induction es as [|e es IH]; intros c; [done|].
  etrans; [apply child_event_le|apply IH].
Qed.

Lemma child_poll_le we c : child_le c (child_poll we c).2.
Proof.
  unfold child_poll. destruct (ch_exited c) eqn:E; [done|]. destruct we; [done|].
  destruct (ch_process c) eqn:P; [|done]. split; cbn; try done; congruence.
Qed.

(** The state of a child after its events and any polls between them. *)
Inductive child_op := Happens (e : ChildEvent) | Poll (wait_error : option PtyError).

Definition child_step (op : child_op) (c : PlainChild) : PlainChild :=
  match op with Happens e => child_event e c | Poll we => (child_poll we c).2 end.

Definition events_in (ops : list child_op) : list ChildEvent :=
  omap (λ op, match op with Happens e => Some e | Poll _ => None end) ops.

Definition clamp_cap (config : PlainConfig) : Z :=
  Z.max 1 (Z.min (pc_output_cap_bytes config) MAX_PLAIN_OUTPUT_CAP_BYTES).

(** The state of a child in terms of its history. *)
Record child_after (cap : Z) (es : list ChildEvent) (c : PlainChild) : Prop := {
  af_stdout : ch_stdout c = sink_of cap (stdout_of es);
  af_stderr : ch_stderr c = sink_of cap (stderr_of es);
  af_process : ch_process c = exit_of es;
  af_cached : ch_exited c = true → exit_of es = Some (ch_code c);
}.

Lemma sconcat_omap_app {A} (f : A → option string) l1 l2 :
  sconcat (omap f (l1 ++ l2)) = sconcat (omap f l1) +:+ sconcat (omap f l2).
Proof. by rewrite omap_app, sconcat_app. Qed.

Lemma head_app {A} (l1 l2 : list A) :
  head (l1 ++ l2) = match head l1 with Some x => Some x | None => head l2 end.
Proof. by destruct l1. Qed.

Lemma child_after_event cap es c e :
  (0 ≤ cap)%Z → child_after cap es c → child_after cap (es ++ [e]) (child_event e c).
Proof.
  intros Hcap [A B P X]. unfold stdout_of, stderr_of, exit_of in *.
  split; unfold stdout_of, stderr_of, exit_of; rewrite ?sconcat_omap_app.
  - destruct e; cbn; rewrite ?A, ?sapp_nil_r; [by rewrite sink_push_of|done|done].
  - destruct e; cbn; rewrite ?B, ?sapp_nil_r; [done|by rewrite sink_push_of|done].
  - destruct e; cbn; rewrite omap_app, P, head_app; cbn; by case_match.
  - rewrite omap_app, head_app. destruct e; cbn; intros H; by rewrite (X H).
Qed.

Lemma child_after_poll cap es c we :
  child_after cap es c → child_after cap es (child_poll we c).2.
Proof.
  intros H. pose proof H as [A B P X]. unfold child_poll.
  destruct (ch_exited c); [done|]. destruct we; [done|].
  destruct (ch_process c) eqn:E; [|done]. split; cbn; auto; congruence.
Qed.

Lemma child_after_runs config ops :
  child_after (clamp_cap config) (events_in ops) (runs child_step ops (child_new config)).
Proof.
  assert (∀ es c ops', child_after (clamp_cap config) es c →
    child_after (clamp_cap config) (es ++ events_in ops') (runs child_step ops' c)) as H.
  { intros es c ops'. revert es c. induction ops' as [|op ops' IH]; intros es c Hc.
    - cbn. by rewrite app_nil_r.
    - cbn [runs]. destruct op as [e|we]; cbn [child_step].
      + change (events_in (Happens e :: ops')) with ([e] ++ events_in ops').
        rewrite (assoc_L (++) es [e] (events_in ops')). apply IH, child_after_event; [|done].
        unfold clamp_cap. lia.
      + change (events_in (Poll we :: ops')) with (events_in ops').
        by apply IH, child_after_poll. }
  apply (H []). split; unfold stdout_of, stderr_of, exit_of; cbn;
    try (apply sink_new_of; unfold clamp_cap; lia); done.
Qed.

Lemma child_after_more cap es more c :
  (0 ≤ cap)%Z → child_after cap es c → child_after cap (es ++ more) (child_events more c).
Proof.
  intros Hcap. revert es c. induction more as [|e more IH]; intros es c Hc.
  - by rewrite app_nil_r.
  - replace (es ++ e :: more) with ((es ++ [e]) ++ more) by by rewrite <-app_assoc.
    apply IH. by apply child_after_event.
Qed.

(** Waiting for the exit is letting a prefix of what comes happen. *)
Lemma wait_exit_spec cap es coming c :
  (0 ≤ cap)%Z → child_after cap es c →
  let '(c', coming') := wait_exit coming c in
  ∃ before, coming = before ++ coming' ∧ child_after cap (es ++ before) c' ∧
    (exit_of (es ++ coming) ≠ None → ch_process c' ≠ None) ∧ ch_exited c' = ch_exited c.
Proof.
  intros Hcap. revert es c. induction coming as [|e coming IH]; intros es c Hc; cbn [wait_exit].
  - assert (∃ before, [] = before ++ [] ∧ child_after cap (es ++ before) c ∧
      (exit_of (es ++ []) ≠ None → ch_process c ≠ None) ∧ ch_exited c = ch_exited c) as H.
    { exists []. rewrite !app_nil_r, (af_process _ _ _ Hc). by split_and!. }
    replace (match ch_process c with Some _ | _ => (c, []) end) with (c, @nil ChildEvent); [exact H|].
    by destruct (ch_process c).
  - destruct (ch_process c) eqn:Hp.
    + exists []. rewrite app_nil_r, Hp. by split_and!.
    + pose proof (IH _ _ (child_after_event _ _ _ e Hcap Hc)) as Hw.
      destruct (wait_exit coming (child_event e c)) as [c' coming'].
      destruct Hw as (before & -> & Ha & He & Hx). exists (e :: before). rewrite <-app_assoc in Ha, He.
      split_and!; [done|done|done|]. rewrite Hx. by destruct e.
Qed.

(** Joining a child that ends collects everything it wrote. *)
Lemma child_join_spec cap es coming c :
  (0 ≤ cap)%Z → child_after cap es c → exit_of (es ++ coming) ≠ None →
  let all := es ++ coming in
  child_join coming None c = Ok (mk_plain_output (stake (Z.to_nat cap) (stdout_of all))
    (stake (Z.to_nat cap) (stderr_of all)) (exit_of all)
    ((cap <? slen (stdout_of all))%Z || (cap <? slen (stderr_of all))%Z)).
Proof.
  intros Hcap Hc Hexit all. unfold child_join.
  assert (∀ c1 before coming', coming = before ++ coming' → child_after cap (es ++ before) c1 →
    ch_exited c1 = true →
    child_snapshot (child_events coming' c1) = mk_plain_output (stake (Z.to_nat cap) (stdout_of all))
      (stake (Z.to_nat cap) (stderr_of all)) (child_exit_code (child_events coming' c1))
      ((cap <? slen (stdout_of all))%Z || (cap <? slen (stderr_of all))%Z) ∧
    exit_of all = Some (ch_code c1)) as Hend.
  { intros c1 before coming' -> Ha Hx. subst all. rewrite (assoc_L (++)).
    pose proof (child_after_more _ _ coming' _ Hcap Ha) as [A B _ _]. split.
    - unfold child_snapshot, child_truncated. by rewrite A, B.
    - pose proof (af_cached _ _ _ Ha Hx) as He. unfold exit_of in *. by rewrite omap_app, head_app, He. }
  destruct (ch_exited c) eqn:Hx.
  - destruct (Hend c [] coming) as [Hs He]; [done|by rewrite app_nil_r|done|].
    unfold child_poll. rewrite Hx, Hs, He. done.
  - pose proof (wait_exit_spec cap es coming c Hcap Hc) as Hw.
    destruct (wait_exit coming c) as [c1 coming']. destruct Hw as (before & Heq & Ha & Hp & Hx1).
    specialize (Hp Hexit). unfold child_poll. rewrite Hx1, Hx.
    destruct (ch_process c1) as [code|] eqn:Hproc; [|done].
    destruct (Hend (mk_child (ch_stdout c1) (ch_stderr c1) true code (Some code)) before coming') as [Hs He];
      [done| |done|].
    { destruct Ha as [A B P X]. split; cbn; [done|done|by rewrite <-P|by rewrite <-P]. }
    rewrite Hs, He. done.
Qed.

(** C18: what the agent sees of a child.  Whatever the order of pump
    deliveries, process exit and polls (failing ones included), each stream's
    buffer is exactly the first [cap] bytes the child wrote, with the cap
    clamped to 1 byte .. 64 MiB, [truncated] says exactly whether bytes were
    lost, and an exit code is reported only after the exit, is the code of the
    first exit, and is final.  Joining a child whose process ends gives that
    code and the whole captured output up to the end of its threads. *)
Theorem child_output_exact (config : PlainConfig) (ops later : list child_op) :
  let c := runs child_step ops (child_new config) in
  let cap := clamp_cap config in
  let out := stdout_of (events_in ops) in
  let err := stderr_of (events_in ops) in
  (1 ≤ cap ≤ MAX_PLAIN_OUTPUT_CAP_BYTES)%Z ∧
  child_snapshot c = mk_plain_output (stake (Z.to_nat cap) out) (stake (Z.to_nat cap) err)
    (child_exit_code c) ((cap <? slen out)%Z || (cap <? slen err)%Z) ∧
  (∀ code, child_exit_code c = Some code →
     exit_of (events_in ops) = Some code ∧ child_exit_code (runs child_step later c) = Some code) ∧
  (∀ coming, let all := events_in ops ++ coming in exit_of all ≠ None →
     child_join coming None c = Ok (mk_plain_output (stake (Z.to_nat cap) (stdout_of all))
       (stake (Z.to_nat cap) (stderr_of all)) (exit_of all)
       ((cap <? slen (stdout_of all))%Z || (cap <? slen (stderr_of all))%Z))).
Proof.
  intros c cap out err. pose proof (child_after_runs config ops) as [A B P X]. fold c in A, B, P, X.
  split; [unfold cap, clamp_cap, MAX_PLAIN_OUTPUT_CAP_BYTES; lia|].
  split; [|split; [|intros coming all Hexit; apply child_join_spec; [|apply child_after_runs|done]]].
  - unfold child_snapshot, child_truncated. by rewrite A, B.
  - unfold child_exit_code. intros code H. destruct (ch_exited c) eqn:E; [|done].
    injection H as <-. split; [by apply X|].
    assert (child_le c (runs child_step later c)) as [_ _ _ Hle].
    { generalize c. induction later as [|op later IH]; intros c0; [done|]. cbn [runs].
      etrans; [|apply IH]. destruct op; [apply child_event_le|apply child_poll_le]. }
    destruct (Hle E) as [-> ->]. done.
  - subst cap. unfold clamp_cap, MAX_PLAIN_OUTPUT_CAP_BYTES. lia.
Qed.
