(* ===== verification/Marker.v ===== *)
(** * Marker: the marker-line adapters (crate calcar-adapters)

    [claude.rs], [codex.rs] and [opencode.rs] hold the same code up to the
    line prefix, the name and the provider.  This file is that code with the
    prefix as a parameter: the grammar [parse_line], the stream reader
    [consume], and the adapter methods over a [PlainChild].  [Providers.v] has
    the three instances. *)

From S2P Require Import Prelude Text Events Quote Plain Contract.
From Stdlib Require Import Ascii.

(** [struct ClaudeAdapter], [CodexAdapter], [OpencodeAdapter] *)
Record MarkerAdapter := mk_marker {
  ma_child : option PlainChild;
  ma_stdout_cursor : Z;
  ma_stderr_cursor : Z;
  ma_stdout_tail : string;
  ma_stderr_tail : string;
  ma_provider_session_id : option string;
  ma_stop_requested : bool;
  ma_terminal_emitted : bool;
}.

(** [new] and [reset] *)
Definition marker_new : MarkerAdapter := mk_marker None 0 0 "" "" None false false.

(** What happens beside one adapter call, between the calls it makes into the
    child: before the exit poll, and between the poll and the snapshot. *)
Record Interference := mk_interference {
  before_poll : list ChildEvent;
  poll_error : option PtyError;
  after_poll : list ChildEvent;
}.

(** The bytes from position [n]: [&bytes[n..]]. *)
Fixpoint sdrop (n : nat) (s : string) : string :=
  match n, s with
  | S n', String _ s' => sdrop n' s'
  | _, _ => s
  end.

(** The loop over [tail]: the complete lines, and the bytes after the last
    newline. *)
Fixpoint cut_lines (cur : string) (s : string) : list string * string :=
  match s with
  | "" => ([], cur)
  | String c s' =>
      if Ascii.eqb c LF then let '(ls, rest) := cut_lines "" s' in (cur :: ls, rest)
      else cut_lines (cur +:+ bstr c) s'
  end.

(** The text up to the first space and the trimmed text after it. *)
Definition split_word (s : string) : string * string :=
  match split_once " " s with
  | Some (w, rest) => (w, trim_start rest)
  | None => (s, "")
  end.

Section Marker.
Context (PREFIX : string).

(** [parse_line] *)
Definition parse_line (line : string) (events : list ProviderEvent) (session : option string) :
    list ProviderEvent * option string :=
  match strip_prefix PREFIX line with
  | None => (events, session)
  | Some rest =>
      let '(verb, payload) := split_word rest in
      let push e := (events ++ [e], session) in
      if String.eqb verb "START" then push (provider_event AgentStarted payload)
      else if String.eqb verb "STEP" then push (provider_event CommandStarted payload)
      else if String.eqb verb "DONE" then push (provider_event CommandCompleted payload)
      else if String.eqb verb "FILE" then
        push (mk_provider_event FileChanged payload (first_word payload))
      else if String.eqb verb "APPROVAL" then
        let '(id, summary) := split_word payload in
        push (mk_provider_event ApprovalRequired summary
                (if bool_decide (id = "") then None else Some id))
      else if String.eqb verb "INPUT" then push (provider_event InputRequired payload)
      else if String.eqb verb "ERROR" then push (provider_event ErrorOccurred payload)
      else if String.eqb verb "EXIT" then
        let '(status, summary) := split_word payload in
        if String.eqb status "ok" then push (provider_event WorkflowCompleted summary)
        else if String.eqb status "fail" then push (provider_event ErrorOccurred summary)
        else (events, session)
      else if String.eqb verb "SESSION" then
        let id := trim payload in
        if bool_decide (id = "") then (events, session) else (events, Some id)
      else (events, session)
  end.

Definition parse_lines (lines : list string) (events : list ProviderEvent)
    (session : option string) : list ProviderEvent * option string :=
  foldl (λ acc line, parse_line (trim_end_cr (from_utf8_lossy line)) acc.1 acc.2)
    (events, session) lines.

(** [consume] *)
Definition consume (bytes : string) (cursor : Z) (tail : string) (finished : bool)
    (events : list ProviderEvent) (session : option string) :
    (list ProviderEvent * option string) * (Z * string) :=
  let start := Z.min cursor (slen bytes) in
  let '(lines, rest) := cut_lines "" (tail +:+ sdrop (Z.to_nat start) bytes) in
  let '(lines, tail') :=
    if finished then (if bool_decide (rest = "") then lines else lines ++ [rest], "")
    else (lines, rest) in
  (parse_lines lines events session, (slen bytes, tail')).

(** ** The adapter methods *)

Definition is_running (i : Interference) (a : MarkerAdapter) : bool * MarkerAdapter :=
  match ma_child a with
  | None => (false, a)
  | Some c =>
      let c1 := (child_poll (poll_error i) (child_events (before_poll i) c)).2 in
      (bool_decide (child_exit_code c1 = None),
       mk_marker (Some c1) (ma_stdout_cursor a) (ma_stderr_cursor a) (ma_stdout_tail a)
         (ma_stderr_tail a) (ma_provider_session_id a) (ma_stop_requested a)
         (ma_terminal_emitted a))
  end.

(** [spawn]; [os_spawn] is [PlainChild::spawn], the operating system included. *)
Definition marker_spawn (os_spawn : PlainConfig → result PlainChild PtyError)
    (i : Interference) (req : SpawnRequest) (a : MarkerAdapter) :
    result unit AdapterError * MarkerAdapter :=
  if sr_interactive req then (Err Unsupported, a)
  else match sr_argv req with
  | [] => (Err (SpawnFailed "argv is empty"), a)
  | argv =>
      let '(running, a1) := is_running i a in
      if running then (Err (SpawnFailed "already running"), a1)
      else
        let config := mk_plain_config argv (sr_working_dir req) (sr_env req) None
                        (sr_output_cap_bytes req) in
        match os_spawn config with
        | Ok c => (Ok tt, mk_marker (Some c) 0 0 "" "" None false false)
        | Err e => (Err (SpawnFailed (pty_display e)), marker_new)
        end
  end.

(** [inject] *)
Definition marker_inject (input : string) (a : MarkerAdapter) : result unit AdapterError :=
  match ma_child a with None => Err NotRunning | Some _ => Err Unsupported end.

(** [respond_approval] *)
Definition marker_respond_approval (request_id : string) (d : ApprovalDecision)
    (a : MarkerAdapter) : result ApprovalOutcome AdapterError := Err Unsupported.

(** [stop]; [kill_error] is the failure of [PlainChild::kill], and the kill
    itself is a [ProcessExit] the child meets later. *)
Definition marker_stop (kill_error : option PtyError) (a : MarkerAdapter) :
    result unit AdapterError * MarkerAdapter :=
  match ma_child a, kill_error with
  | None, _ => (Err NotRunning, a)
  | Some _, Some e => (Err (AdapterIo (pty_display e)), a)
  | Some _, None =>
      (Ok tt, mk_marker (ma_child a) (ma_stdout_cursor a) (ma_stderr_cursor a)
         (ma_stdout_tail a) (ma_stderr_tail a) (ma_provider_session_id a) true
         (ma_terminal_emitted a))
  end.

(** The terminal event of a finished child. *)
Definition terminal_event (stop_requested : bool) (code : option Z) : list ProviderEvent :=
  if stop_requested then [provider_event WorkflowStopped "stopped"]
  else match code with
  | Some 0%Z => [provider_event WorkflowCompleted "exit 0"]
  | Some code => [provider_event ErrorOccurred ("exit " +:+ dec code)]
  | None => []
  end.

(** [drain] *)
Definition marker_drain (i : Interference) (a : MarkerAdapter) :
    list ProviderEvent * MarkerAdapter :=
  match ma_child a with
  | None => ([], a)
  | Some c =>
      let c1 := (child_poll (poll_error i) (child_events (before_poll i) c)).2 in
      let finished := bool_decide (is_Some (child_exit_code c1)) in
      let c2 := child_events (after_poll i) c1 in
      let snapshot := child_snapshot c2 in
      let '((events, session), (out_cursor, out_tail)) :=
        consume (po_stdout snapshot) (ma_stdout_cursor a) (ma_stdout_tail a) finished
          [] (ma_provider_session_id a) in
      let '((events, session), (err_cursor, err_tail)) :=
        consume (po_stderr snapshot) (ma_stderr_cursor a) (ma_stderr_tail a) finished
          events session in
      if finished && negb (ma_terminal_emitted a) then
        (events ++ terminal_event (ma_stop_requested a) (child_exit_code c2),
         mk_marker (Some c2) out_cursor err_cursor out_tail err_tail session
           (ma_stop_requested a) true)
      else
        (events,
         mk_marker (Some c2) out_cursor err_cursor out_tail err_tail session
           (ma_stop_requested a) (ma_terminal_emitted a))
  end.

(** [snapshot] *)
Definition marker_snapshot (i : Interference) (a : MarkerAdapter) :
    AdapterSnapshot * MarkerAdapter :=
  let session := ma_provider_session_id a in
  match ma_child a with
  | None => (mk_adapter_snapshot false None session session, a)
  | Some c =>
      let '(running, a1) := is_running i a in
      (mk_adapter_snapshot running
         (match ma_child a1 with Some c1 => child_exit_code c1 | None => None end)
         session session, a1)
  end.
End Marker.
