(* ===== verification/MarkerFacts.v ===== *)
(** * MarkerFacts: the marker adapters read every line once

    The stream reader is independent of how the bytes arrive in snapshots; over
    any calls on a spawned adapter each drain reports exactly the grammar's
    events of the bytes it is the first to take, and the first drain that sees
    the exit ends with the one terminal event; bytes that arrive after the exit
    was seen can be lost in the middle of a line. *)

From S2P Require Import Prelude Text Events Quote Plain Contract Marker.
From Stdlib Require Import Ascii.

(** ** Lines *)

Lemma cut_lines_app cur s t :
  cut_lines cur (s +:+ t) =
    let '(l1, r1) := cut_lines cur s in
    let '(l2, r2) := cut_lines r1 t in (l1 ++ l2, r2).
Proof.
  revert cur. induction s as [|c s IH]; intros cur.
  - rewrite sapp_nil_l. cbn. by destruct (cut_lines cur t).
  - rewrite sapp_cons. cbn [cut_lines]. destruct (Ascii.eqb c LF); [|apply IH].
    rewrite IH. destruct (cut_lines "" s) as [l1 r1]. by destruct (cut_lines r1 t).
Qed.

Lemma cut_lines_tail cur s :
  contains_byte LF cur = false → contains_byte LF (cut_lines cur s).2 = false ∧
  Forall (λ l, contains_byte LF l = false) (cut_lines cur s).1.
Proof.
  revert cur. induction s as [|c s IH]; intros cur Hc; [by split|]. cbn [cut_lines].
  destruct (Ascii.eqb c LF) eqn:E.
  - specialize (IH "" eq_refl). destruct (cut_lines "" s) as [l r]. cbn in *.
    destruct IH. split; [done|by constructor].
  - apply IH. rewrite contains_byte_app, Hc. cbn. by rewrite E.
Qed.

Lemma cut_lines_no_lf cur s : contains_byte LF s = false → cut_lines cur s = ([], cur +:+ s).
Proof.
  revert cur. induction s as [|c s IH]; intros cur H; [by rewrite sapp_nil_r|].
  cbn in *. apply orb_false_iff in H as [Hc H]. rewrite Hc, IH by done.
  by rewrite sapp_assoc.
Qed.

Lemma sdrop_app s t : sdrop (String.length s) (s +:+ t) = t.
Proof. induction s; [by rewrite sapp_nil_l|]. by rewrite sapp_cons. Qed.

Lemma default_last_cons {A} (d x : A) l : default d (last (x :: l)) = default x (last l).
Proof.
  revert d x. induction l as [|y l IH]; intros d x; [done|].
  change (last (x :: y :: l)) with (last (y :: l)). by rewrite !IH.
Qed.

Section MarkerFacts.
Context (PREFIX : string).

Lemma parse_lines_app l1 l2 events session :
  parse_lines PREFIX (l1 ++ l2) events session =
    let '(e1, s1) := parse_lines PREFIX l1 events session in parse_lines PREFIX l2 e1 s1.
Proof.
  unfold parse_lines. rewrite foldl_app. by destruct (foldl _ (events, session) l1).
Qed.

(** The events of one line do not depend on what came before. *)
Lemma parse_line_prefix line events session :
  parse_line PREFIX line events session =
    (events ++ (parse_line PREFIX line [] None).1,
     match (parse_line PREFIX line [] None).2 with Some id => Some id | None => session end).
Proof.
  unfold parse_line. destruct (strip_prefix PREFIX line) as [rest|]; [|by rewrite app_nil_r].
  destruct (split_word rest) as [verb payload]. destruct (split_word payload) as [w t].
  repeat match goal with |- context [String.eqb ?a ?b] => destruct (String.eqb a b) end;
    try case_bool_decide; cbn; by rewrite ?app_nil_r.
Qed.

Lemma parse_lines_prefix lines events session :
  parse_lines PREFIX lines events session =
    (events ++ (parse_lines PREFIX lines [] None).1,
     match (parse_lines PREFIX lines [] None).2 with Some id => Some id | None => session end).
Proof.
  revert events session. induction lines as [|l lines IH] using rev_ind; intros events session.
  { cbn. by rewrite app_nil_r. }
  rewrite !parse_lines_app, (IH events session).
  destruct (parse_lines PREFIX lines [] None) as [e1 s1] eqn:E. cbn.
  rewrite (parse_line_prefix _ (events ++ e1)), (parse_line_prefix _ e1). cbn.
  rewrite app_assoc. f_equal. by destruct (parse_line PREFIX _ [] None).2.
Qed.

(** ** Streams *)

(** What the grammar says about a whole stream: its lines in order, the last
    one counted only when it has bytes. *)
Definition all_lines (bytes : string) : list string :=
  let '(ls, rest) := cut_lines "" bytes in
  if bool_decide (rest = "") then ls else ls ++ [rest].

(** The reader's state after it was shown [bytes] of a running child. *)
Definition read_so_far (bytes : string) (st : (list ProviderEvent * option string) * (Z * string))
    (events : list ProviderEvent) (session : option string) : Prop :=
  st = (parse_lines PREFIX (cut_lines "" bytes).1 events session,
        (slen bytes, (cut_lines "" bytes).2)).

Lemma consume_more bytes more st events session finished :
  read_so_far bytes st events session →
  let '((ev, se), (cursor, tail)) := st in
  consume PREFIX (bytes +:+ more) cursor tail finished ev se =
    if finished then
      (parse_lines PREFIX (all_lines (bytes +:+ more)) events session,
       (slen (bytes +:+ more), ""))
    else
      (parse_lines PREFIX (cut_lines "" (bytes +:+ more)).1 events session,
       (slen (bytes +:+ more), (cut_lines "" (bytes +:+ more)).2)).
Proof.
  intros ->. destruct (parse_lines PREFIX (cut_lines "" bytes).1 events session) as [ev se] eqn:E.
  unfold consume. rewrite Z.min_l by (unfold slen; rewrite sapp_length; lia).
  unfold slen at 1. rewrite Nat2Z.id, sdrop_app. unfold all_lines. rewrite !cut_lines_app.
  destruct (cut_lines "" bytes) as [l1 r1] eqn:E1. cbn [fst snd] in E |- *.
  assert (contains_byte LF r1 = false) as Hr1.
  { pose proof (cut_lines_tail "" bytes eq_refl) as [H _]. by rewrite E1 in H. }
  rewrite (cut_lines_no_lf _ _ Hr1), sapp_nil_l. destruct (cut_lines r1 more) as [l2 r2].
  rewrite app_nil_l. cbn [fst snd]. destruct finished; [|by rewrite parse_lines_app, E].
  case_bool_decide.
  - by rewrite parse_lines_app, E.
  - by rewrite <-app_assoc, (parse_lines_app l1), E.
Qed.

(** Showing growing snapshots of a running child, one after the other. *)
Fixpoint consume_all (snaps : list string)
    (st : (list ProviderEvent * option string) * (Z * string)) :=
  match snaps with
  | [] => st
  | bytes :: snaps' =>
      let '((ev, se), (cursor, tail)) := st in
      consume_all snaps' (consume PREFIX bytes cursor tail false ev se)
  end.

Fixpoint growing (s : string) (snaps : list string) : Prop :=
  match snaps with
  | [] => True
  | s' :: snaps' => sprefix s s' ∧ growing s' snaps'
  end.

Lemma consume_all_read s snaps st events session :
  read_so_far s st events session → growing s snaps →
  read_so_far (default s (last snaps)) (consume_all snaps st) events session.
Proof.
  revert s st. induction snaps as [|s' snaps IH]; intros s st Hst Hg; [done|].
  destruct Hg as [[more ->] Hg]. pose proof (consume_more s more st events session false Hst) as Hc.
  destruct st as [[ev se] [cursor tail]]. cbn [consume_all]. rewrite Hc.
  assert (read_so_far (s +:+ more)
    (parse_lines PREFIX (cut_lines "" (s +:+ more)).1 events session,
     (slen (s +:+ more), (cut_lines "" (s +:+ more)).2)) events session) as Hst' by done.
  specialize (IH _ _ Hst' Hg). by rewrite default_last_cons.
Qed.

(** C23: lines survive any chunking.  However the output of a child arrives in
    snapshots, and however often it is drained while it runs, the events and
    the session reported up to and including the first drain that sees the
    exit are those of the grammar applied to the lines of the whole output, in
    order, each exactly once; until then nothing of an unfinished line is
    reported. *)
Theorem consume_chunking (snaps : list string) (final : string)
    (events : list ProviderEvent) (session : option string) :
  growing "" (snaps ++ [final]) →
  let start := ((events, session), (0%Z, "")) in
  let shown := default "" (last snaps) in
  let '((ev, se), (cursor, tail)) := consume_all snaps start in
  (ev, se) = parse_lines PREFIX (cut_lines "" shown).1 events session ∧
  (consume PREFIX final cursor tail true ev se).1 =
    parse_lines PREFIX (all_lines final) events session.
Proof.
  intros Hg start shown.
  assert (growing "" snaps ∧ sprefix shown final) as [Hg1 [more Hf]].
  { unfold shown. clear -Hg. revert Hg. generalize "". induction snaps as [|s' snaps IH]; intros s Hg.
    - by destruct Hg.
    - destruct Hg as [H Hg]. destruct (IH s' Hg) as [H1 H2]. split; [by split|].
      by rewrite default_last_cons. }
  assert (read_so_far "" start events session) as H0 by done.
  pose proof (consume_all_read "" snaps start events session H0 Hg1) as Hr. fold shown in Hr.
  pose proof (consume_more shown more _ events session true Hr) as Hc.
  destruct (consume_all snaps start) as [[ev se] [cursor tail]].
  rewrite <-Hf in Hc. rewrite Hc. injection Hr as Hev _. by split.
Qed.

(** ** The reader's place in a stream *)

(** The lines a drain takes from the bytes it has not taken before: the complete
    ones, and the rest too once the exit was seen. *)
Definition fresh_lines (finished : bool) (bytes : string) : list string :=
  if finished then all_lines bytes else (cut_lines "" bytes).1.

(** How many of these bytes it has then taken. *)
Definition taken (finished : bool) (bytes : string) : nat :=
  if finished then String.length bytes else String.length bytes - String.length (cut_lines "" bytes).2.

(** The events the grammar gives for lines. *)
Definition line_events (lines : list string) : list ProviderEvent := (parse_lines PREFIX lines [] None).1.

Lemma parse_lines_events lines events session :
  (parse_lines PREFIX lines events session).1 = events ++ line_events lines.
Proof. by rewrite parse_lines_prefix. Qed.

Lemma line_events_app l1 l2 : line_events (l1 ++ l2) = line_events l1 ++ line_events l2.
Proof.
  unfold line_events. rewrite parse_lines_app. destruct (parse_lines PREFIX l1 [] None) as [e1 s1].
  by rewrite parse_lines_events.
Qed.

(** The cursor and the tail of a reader that has taken the first [pos] bytes of
    [now], shown to it in whole or in part. *)
Definition reads (pos : nat) (now : string) (cursor : Z) (tail : string) : Prop :=
  ∃ shown, sprefix shown now ∧ cursor = slen shown ∧ pos ≤ String.length shown ∧
    tail = sdrop pos shown ∧ contains_byte LF tail = false.

Lemma sdrop_le n s t : n ≤ String.length s → sdrop n (s +:+ t) = sdrop n s +:+ t.
Proof.
  revert s. induction n as [|n IH]; intros [|c s] H; cbn in H; try done; [lia|].
  rewrite sapp_cons. cbn [sdrop]. apply IH. lia.
Qed.

Lemma sdrop_length n s : String.length (sdrop n s) = String.length s - n.
Proof. revert s. induction n as [|n IH]; intros [|c s]; cbn; [done..|apply IH]. Qed.

Lemma sdrop_sdrop n m s : sdrop n (sdrop m s) = sdrop (m + n) s.
Proof. revert s. induction m as [|m IH]; intros [|c s]; cbn; [done|done|by destruct n|apply IH]. Qed.

Lemma sdrop_all s : sdrop (String.length s) s = "".
Proof. induction s; done. Qed.

(** The text after the last newline is the end of what was cut. *)
Lemma cut_lines_rest cur s : ∃ head, cur +:+ s = head +:+ (cut_lines cur s).2.
Proof.
  revert cur. induction s as [|c s IH]; intros cur; cbn [cut_lines].
  - exists "". by rewrite sapp_nil_r, sapp_nil_l.
  - destruct (Ascii.eqb c LF).
    + destruct (IH "") as [head H]. destruct (cut_lines "" s) as [ls rest]. cbn in *.
      exists (cur +:+ String c head). rewrite sapp_assoc, sapp_cons, <-H. by rewrite sapp_nil_l.
    + destruct (IH (cur +:+ bstr c)) as [head H]. exists head. rewrite <-H, sapp_assoc. done.
Qed.

Lemma sdrop_rest s : sdrop (String.length s - String.length (cut_lines "" s).2) s = (cut_lines "" s).2.
Proof.
  destruct (cut_lines_rest "" s) as [head H]. rewrite sapp_nil_l in H. rewrite H at 1 3.
  rewrite sapp_length, Nat.add_sub. apply sdrop_app.
Qed.

Lemma consume_reads pos now bytes cursor tail finished events session :
  reads pos now cursor tail → sprefix now bytes →
  let '(parsed, (cursor', tail')) := consume PREFIX bytes cursor tail finished events session in
  parsed = parse_lines PREFIX (fresh_lines finished (sdrop pos bytes)) events session ∧
  reads (pos + taken finished (sdrop pos bytes)) bytes cursor' tail'.
Proof.
  intros (shown & Hs & -> & Hpos & -> & Hlf) Hnow.
  assert (sprefix shown bytes) as [more ->] by (by etrans). unfold consume.
  rewrite Z.min_l by (unfold slen; rewrite sapp_length; lia).
  unfold slen at 1. rewrite Nat2Z.id, sdrop_app, <-sdrop_le by done.
  set (fresh := sdrop pos (shown +:+ more)). unfold fresh_lines, taken, all_lines.
  pose proof (sdrop_rest fresh) as Hrest. pose proof (cut_lines_tail "" fresh eq_refl) as [Htail _].
  destruct (cut_lines "" fresh) as [ls rest]. cbn [fst snd] in *.
  destruct finished.
  - split; [done|]. exists (shown +:+ more). subst fresh. split_and!; [done|done| | |done].
    + rewrite sdrop_length. rewrite sapp_length. lia.
    + by rewrite <-sdrop_sdrop, sdrop_all.
  - split; [done|]. exists (shown +:+ more). subst fresh. split_and!; [done|done| | |done].
    + rewrite sdrop_length. rewrite sapp_length. lia.
    + by rewrite <-sdrop_sdrop, Hrest.
Qed.

End MarkerFacts.

(** ** The child of an adapter *)

Lemma events_exit_code es c : child_exit_code (child_events es c) = child_exit_code c.
Proof.
  revert c. induction es as [|e es IH]; intros c; [done|].
  change (child_exit_code (child_events es (child_event e c)) = child_exit_code c).
  rewrite IH. by destruct e.
Qed.

(** The exit code a poll reports of a child that has done [es]; [found] is the
    code an earlier poll found. *)
Definition poll_finds (wait_error : option PtyError) (es : list ChildEvent) (found : option Z) : option Z :=
  match found, wait_error with
  | Some code, _ => Some code
  | None, Some _ => None
  | None, None => exit_of es
  end.

(** The child of an adapter: it has done [es], and polls have found [found]. *)
Record child_seen (cap : Z) (es : list ChildEvent) (found : option Z) (c : PlainChild) : Prop := {
  cs_after : child_after cap es c;
  cs_found : child_exit_code c = found;
}.

Lemma child_seen_new config : child_seen (clamp_cap config) [] None (child_new config).
Proof. split; [exact (child_after_runs config [])|done]. Qed.

Lemma child_seen_events cap es found c more :
  (0 ≤ cap)%Z → child_seen cap es found c → child_seen cap (es ++ more) found (child_events more c).
Proof. intros Hcap [Ha Hf]. split; [by apply child_after_more|by rewrite events_exit_code]. Qed.

Lemma child_seen_poll cap es found c wait_error :
  child_seen cap es found c →
  child_seen cap es (poll_finds wait_error es found) (child_poll wait_error c).2.
Proof.
  intros [Ha <-]. split; [by apply child_after_poll|]. destruct Ha as [_ _ Hp _].
  unfold child_poll, poll_finds, child_exit_code. destruct (ch_exited c) eqn:E; cbn; [by rewrite E|].
  destruct wait_error; cbn; [by rewrite E|]. rewrite <-Hp. destruct (ch_process c); cbn; [done|by rewrite E].
Qed.

(** What a snapshot shows of a stream. *)
Definition shown_of (cap : Z) (bytes : string) : string := stake (Z.to_nat cap) bytes.

Lemma child_seen_snapshot cap es found c :
  child_seen cap es found c →
  po_stdout (child_snapshot c) = shown_of cap (stdout_of es) ∧
  po_stderr (child_snapshot c) = shown_of cap (stderr_of es) ∧
  po_exit_code (child_snapshot c) = found.
Proof. intros [[Ho He _ _] Hf]. cbn. by rewrite Ho, He. Qed.

Lemma shown_of_more cap (f : list ChildEvent → string) es more :
  (∀ es more, f (es ++ more) = f es +:+ f more) → sprefix (shown_of cap (f es)) (shown_of cap (f (es ++ more))).
Proof. intros Hf. unfold shown_of. rewrite Hf, stake_sapp. by eexists. Qed.

Lemma stdout_of_app es more : stdout_of (es ++ more) = stdout_of es +:+ stdout_of more.
Proof. apply sconcat_omap_app. Qed.
Lemma stderr_of_app es more : stderr_of (es ++ more) = stderr_of es +:+ stderr_of more.
Proof. apply sconcat_omap_app. Qed.

(** ** The terminal event *)

(** The calls made on a spawned adapter until the next spawn. *)
Inductive marker_op :=
| MDrain (i : Interference)
| MStop (kill_error : option PtyError)
| MSnapshot (i : Interference).

Section MarkerRuns.
Context (PREFIX : string).

Definition marker_step (op : marker_op) (a : MarkerAdapter) : list ProviderEvent * MarkerAdapter :=
  match op with
  | MDrain i => marker_drain PREFIX i a
  | MStop ke => ([], (marker_stop ke a).2)
  | MSnapshot i => ([], (marker_snapshot i a).2)
  end.

(** What each call reports, and the adapter at the end. *)
Fixpoint marker_run (ops : list marker_op) (a : MarkerAdapter) :
    list (list ProviderEvent) * MarkerAdapter :=
  match ops with
  | [] => ([], a)
  | op :: ops' =>
      let '(out, a1) := marker_step op a in
      let '(outs, a') := marker_run ops' a1 in (out :: outs, a')
  end.

(** The adapter a successful [marker_spawn] leaves. *)
Definition marker_spawned (config : PlainConfig) : MarkerAdapter :=
  mk_marker (Some (child_new config)) 0 0 "" "" None false false.

Lemma marker_spawn_spawned os_spawn i req a a' :
  marker_spawn os_spawn i req a = (Ok tt, a') →
  ∃ config c, os_spawn config = Ok c ∧ pc_argv config = sr_argv req ∧
    (c = child_new config → a' = marker_spawned config).
Proof.
  unfold marker_spawn. destruct (sr_interactive req); [done|]. destruct (sr_argv req) as [|arg argv]; [done|].
  destruct (is_running i a) as [[] a1]; [done|]. intros H.
  match type of H with match os_spawn ?config with _ => _ end = _ => exists config; destruct (os_spawn config) as [c|] end;
    [|done]. injection H as <-. exists c. split_and!; [done..|by intros ->].
Qed.

(** The past of a run, without the adapter: what the child has done, the exit
    code polls have found, whether a stop succeeded, and how many bytes of each
    stream the drains have taken. *)
Record Past := mk_past {
  ps_events : list ChildEvent;
  ps_code : option Z;
  ps_stopped : bool;
  ps_out : nat;
  ps_err : nat;
}.

Definition past_new : Past := mk_past [] None false 0 0.

Context (cap : Z).

(** The exit code the poll of a call reports. *)
Definition poll_code (i : Interference) (p : Past) : option Z :=
  poll_finds (poll_error i) (ps_events p ++ before_poll i) (ps_code p).

(** The bytes of each stream that a drain is the first to see. *)
Definition new_out (i : Interference) (p : Past) : string :=
  sdrop (ps_out p) (shown_of cap (stdout_of ((ps_events p ++ before_poll i) ++ after_poll i))).
Definition new_err (i : Interference) (p : Past) : string :=
  sdrop (ps_err p) (shown_of cap (stderr_of ((ps_events p ++ before_poll i) ++ after_poll i))).

Definition past_step (op : marker_op) (p : Past) : Past :=
  match op with
  | MDrain i =>
      let ended := bool_decide (is_Some (poll_code i p)) in
      mk_past ((ps_events p ++ before_poll i) ++ after_poll i) (poll_code i p) (ps_stopped p)
        (ps_out p + taken ended (new_out i p)) (ps_err p + taken ended (new_err i p))
  | MStop None => mk_past (ps_events p) (ps_code p) true (ps_out p) (ps_err p)
  | MStop (Some _) => p
  | MSnapshot i =>
      mk_past (ps_events p ++ before_poll i) (poll_code i p) (ps_stopped p) (ps_out p) (ps_err p)
  end.

(** The exit code a drain sees; other calls drain nothing. *)
Definition drain_sees (op : marker_op) (p : Past) : option Z :=
  match op with MDrain i => poll_code i p | _ => None end.

(** What the grammar makes of the bytes a call is the first to see. *)
Definition marks (op : marker_op) (p : Past) : list ProviderEvent :=
  match op with
  | MDrain i =>
      let ended := bool_decide (is_Some (poll_code i p)) in
      line_events PREFIX (fresh_lines ended (new_out i p)) ++
      line_events PREFIX (fresh_lines ended (new_err i p))
  | _ => []
  end.

Fixpoint all_marks (ops : list marker_op) (p : Past) : list (list ProviderEvent) :=
  match ops with
  | [] => []
  | op :: ops' => marks op p :: all_marks ops' (past_step op p)
  end.

(** No drain of the calls sees the exit. *)
Fixpoint no_exit_seen (ops : list marker_op) (p : Past) : Prop :=
  match ops with
  | [] => True
  | op :: ops' => drain_sees op p = None ∧ no_exit_seen ops' (past_step op p)
  end.

(** The one terminal event of a child that ended with [code]. *)
Definition terminal_of (stopped : bool) (code : Z) : ProviderEvent :=
  if stopped then provider_event WorkflowStopped "stopped"
  else if (code =? 0)%Z then provider_event WorkflowCompleted "exit 0"
  else provider_event ErrorOccurred ("exit " +:+ dec code).

Lemma terminal_event_of stopped code : terminal_event stopped (Some code) = [terminal_of stopped code].
Proof. unfold terminal_of. by destruct stopped, code. Qed.

(** The adapter after the past [p]; [reported] when its terminal event was. *)
Record marker_at (p : Past) (reported : bool) (a : MarkerAdapter) : Prop := {
  mt_child : ∃ c, ma_child a = Some c ∧ child_seen cap (ps_events p) (ps_code p) c;
  mt_stopped : ma_stop_requested a = ps_stopped p;
  mt_reported : ma_terminal_emitted a = reported;
  mt_out : reads (ps_out p) (shown_of cap (stdout_of (ps_events p))) (ma_stdout_cursor a) (ma_stdout_tail a);
  mt_err : reads (ps_err p) (shown_of cap (stderr_of (ps_events p))) (ma_stderr_cursor a) (ma_stderr_tail a);
}.

Lemma reads_later pos now later cursor tail : reads pos now cursor tail → sprefix now later → reads pos later cursor tail.
Proof. intros (shown & Hs & H) Hl. exists shown. split; [by etrans|done]. Qed.

Lemma shown_grows es more :
  sprefix (shown_of cap (stdout_of es)) (shown_of cap (stdout_of (es ++ more))) ∧
  sprefix (shown_of cap (stderr_of es)) (shown_of cap (stderr_of (es ++ more))).
Proof. split; apply shown_of_more; [apply stdout_of_app|apply stderr_of_app]. Qed.

Hypothesis cap_ok : (0 ≤ cap)%Z.
#[local] Set Default Proof Using "Type*".

Lemma marker_drain_at p reported a i :
  marker_at p reported a →
  let '(out, a') := marker_drain PREFIX i a in
  out = marks (MDrain i) p ++
    match poll_code i p with Some code => if reported then [] else [terminal_of (ps_stopped p) code] | None => [] end ∧
  marker_at (past_step (MDrain i) p) (reported || bool_decide (is_Some (poll_code i p))) a'.
Proof.
  intros [(c & Hc & Hseen) Hstop Hrep Hout Herr]. unfold marker_drain. rewrite Hc.
  pose proof (child_seen_poll _ _ _ _ (poll_error i) (child_seen_events _ _ _ _ (before_poll i) cap_ok Hseen)) as H1.
  fold (poll_code i p) in H1. set (c1 := (child_poll _ _).2) in *.
  pose proof (child_seen_events _ _ _ _ (after_poll i) cap_ok H1) as H2. set (c2 := child_events (after_poll i) c1) in *.
  rewrite (cs_found _ _ _ _ H1), (cs_found _ _ _ _ H2).
  destruct (child_seen_snapshot _ _ _ _ H2) as (-> & -> & _).
  destruct (shown_grows (ps_events p) (before_poll i ++ after_poll i)) as [G1 G2]. rewrite (assoc_L (++)) in G1, G2.
  pose proof (consume_reads PREFIX _ _ _ _ _ (bool_decide (is_Some (poll_code i p))) []
    (ma_provider_session_id a) Hout G1) as R1.
  destruct (consume PREFIX _ (ma_stdout_cursor a) _ _ _ _) as [[ev se] [oc ot]]. destruct R1 as [E1 R1].
  pose proof (consume_reads PREFIX _ _ _ _ _ (bool_decide (is_Some (poll_code i p))) ev se Herr G2) as R2.
  destruct (consume PREFIX _ (ma_stderr_cursor a) _ _ _ _) as [[ev2 se2] [ec et]]. destruct R2 as [E2 R2].
  assert (ev2 = marks (MDrain i) p) as ->.
  { apply (f_equal fst) in E1, E2. rewrite parse_lines_events in E1, E2. cbn in E1, E2. by subst ev ev2. }
  rewrite Hrep. destruct (poll_code i p) as [code|] eqn:Ecode; [destruct reported|]; cbn -[marks];
    rewrite ?terminal_event_of, ?Hstop, ?app_nil_r; (split; [done|]);
    (split; cbn; rewrite ?Ecode; [by exists c2|done|by rewrite ?orb_false_r|done|done]).
Qed.

Lemma marker_step_at p reported a op :
  marker_at p reported a →
  let '(out, a') := marker_step op a in
  out = marks op p ++
    match drain_sees op p with Some code => if reported then [] else [terminal_of (ps_stopped p) code] | None => [] end ∧
  marker_at (past_step op p) (reported || bool_decide (is_Some (drain_sees op p))) a'.
Proof.
  intros H. destruct op as [i|ke|i]; cbn [marker_step drain_sees marks]; [by apply marker_drain_at|..].
  - destruct H as [(c & Hc & Hseen) Hstop Hrep Hout Herr]. unfold marker_stop. rewrite Hc, orb_false_r.
    split; [done|]. destruct ke; split; cbn; eauto.
  - destruct H as [(c & Hc & Hseen) Hstop Hrep Hout Herr]. unfold marker_snapshot, is_running.
    rewrite Hc, orb_false_r. split; [done|]. destruct (shown_grows (ps_events p) (before_poll i)) as [G1 G2].
    split; cbn; [|done|done|by eapply reads_later|by eapply reads_later].
    eexists. split; [done|]. by apply child_seen_poll, child_seen_events.
Qed.

Lemma marker_run_app ops1 ops2 a :
  (marker_run (ops1 ++ ops2) a).1 = (marker_run ops1 a).1 ++ (marker_run ops2 (marker_run ops1 a).2).1.
Proof.
  revert a. induction ops1 as [|op ops1 IH]; intros a; [done|]. cbn [app marker_run].
  destruct (marker_step op a) as [out a1]. specialize (IH a1).
  destruct (marker_run (ops1 ++ ops2) a1), (marker_run ops1 a1). cbn in *. by rewrite IH.
Qed.

(** Before the exit is seen, and once the terminal event was reported, a run
    reports the grammar's events only. *)
Lemma marker_run_marks ops p reported a :
  marker_at p reported a → reported = true ∨ no_exit_seen ops p →
  (marker_run ops a).1 = all_marks ops p ∧ marker_at (runs past_step ops p) reported (marker_run ops a).2.
Proof.
  revert p a. induction ops as [|op ops IH]; intros p a Hat Hor; [done|]. cbn [marker_run all_marks runs].
  pose proof (marker_step_at p reported a op Hat) as Hstep. destruct (marker_step op a) as [out a1].
  destruct Hstep as [-> Hat1].
  assert (marker_at (past_step op p) reported a1) as Hat2.
  { destruct Hor as [->|[Hs _]]; [done|]. by rewrite Hs, orb_false_r in Hat1. }
  assert (reported = true ∨ no_exit_seen ops (past_step op p)) as Hor2 by (destruct Hor as [?|[_ ?]]; auto).
  destruct (IH _ _ Hat2 Hor2) as [H1 H2]. destruct (marker_run ops a1) as [outs a']. cbn in *. subst outs.
  split; [|done]. f_equal. destruct Hor as [->|[-> _]]; [by destruct (drain_sees op p); rewrite app_nil_r|by rewrite app_nil_r].
Qed.

(** A code polls have found is the one the child ended with. *)
Lemma past_code p reported a code :
  marker_at p reported a → ps_code p = Some code → exit_of (ps_events p) = Some code.
Proof.
  intros [(c & _ & [Ha Hf]) _ _ _ _] Hc. destruct Ha as [_ _ _ Hcached]. rewrite Hc in Hf. unfold child_exit_code in Hf.
  destruct (ch_exited c); [|done]. injection Hf as <-. by apply Hcached.
Qed.

Lemma poll_code_exit p reported a i code :
  marker_at p reported a → poll_code i p = Some code → exit_of (ps_events p ++ before_poll i) = Some code.
Proof.
  intros Hat. unfold poll_code, poll_finds. destruct (ps_code p) as [found|] eqn:E.
  - intros [= ->]. pose proof (past_code _ _ _ _ Hat E) as Hx. unfold exit_of in *. by rewrite omap_app, head_app, Hx.
  - by destruct (poll_error i).
Qed.
End MarkerRuns.

(** C24: the terminal event fires exactly once.  Over any calls made on a
    spawned adapter, with any interleaving of output and exit and any failing
    polls: the first drain that sees the exit (its poll, or an earlier poll of
    any call, succeeded after the process had ended) ends its report with one
    terminal event, [WorkflowStopped] after a successful stop and else the
    outcome of the code the process ended with; that event follows what the
    grammar makes of the bytes the drain is the first to see.  No other call
    reports a terminal event: each drain before and after reports exactly what
    the grammar makes of its new bytes, and so does every drain when none sees
    the exit. *)
Theorem marker_terminal_once (PREFIX : string) (config : PlainConfig) (ops : list marker_op) :
  let cap := clamp_cap config in
  let outs := (marker_run PREFIX ops (marker_spawned config)).1 in
  (no_exit_seen cap ops past_new → outs = all_marks PREFIX cap ops past_new) ∧
  ∀ before i after code, ops = before ++ MDrain i :: after →
    let p := runs (past_step cap) before past_new in
    no_exit_seen cap before past_new → poll_code i p = Some code →
    exit_of (ps_events p ++ before_poll i) = Some code ∧
    outs = all_marks PREFIX cap before past_new ++
      (marks PREFIX cap (MDrain i) p ++ [terminal_of (ps_stopped p) code]) ::
      all_marks PREFIX cap after (past_step cap (MDrain i) p).
Proof.
  intros cap outs. assert (0 ≤ cap)%Z as Hcap by (unfold cap, clamp_cap; lia).
  assert (marker_at cap past_new false (marker_spawned config)) as H0.
  { split; cbn; [eexists; split; [done|apply child_seen_new]|done|done|..];
      (exists ""; split_and!; [by eexists|done|cbn; lia|done|done]). }
  split.
  - intros Hno. apply (marker_run_marks PREFIX cap Hcap _ _ false _ H0 (or_intror Hno)).
  - intros before i after code -> p Hno Hcode. subst outs. rewrite marker_run_app.
    destruct (marker_run_marks PREFIX cap Hcap before _ false _ H0 (or_intror Hno)) as [-> Hp]. fold p in Hp.
    split; [by eapply poll_code_exit|]. f_equal. set (a := (marker_run PREFIX before _).2) in *. cbn [marker_run marker_step].
    pose proof (marker_drain_at PREFIX cap Hcap p false a i Hp) as Hd.
    destruct (marker_drain PREFIX i a) as [out a1]. rewrite Hcode in Hd. destruct Hd as [-> Hat].
    destruct (marker_run_marks PREFIX cap Hcap after _ true _ Hat (or_introl eq_refl)) as [Hr _].
    destruct (marker_run PREFIX after a1) as [outs a']. cbn in Hr. by subst outs.
Qed.

(** ** A concrete child *)

Definition quiet : Interference := mk_interference [] None [].
Definition started : MarkerAdapter := marker_spawned (plain_config ["claude"]).

(** One drain while the child runs, one after it ended. *)
Definition first_drain : Interference :=
  mk_interference [PumpStdout ("CLAUDE_START a" +:+ newline +:+ "CLAUDE_ST")] None [].
Definition last_drain : Interference :=
  mk_interference [PumpStdout ("EP b" +:+ newline); ProcessExit 3] None [].
Definition sample_ops : list marker_op := [MDrain first_drain; MDrain last_drain; MDrain quiet].

Example sample_outs :
  (marker_run "CLAUDE_" sample_ops started).1 =
    [[provider_event AgentStarted "a"];
     [provider_event CommandStarted "b"; provider_event ErrorOccurred "exit 3"]; []].
Proof. vm_compute. reflexivity. Qed.

Lemma marker_terminal_once_witness :
  let cap := clamp_cap (plain_config ["claude"]) in
  let p := past_step cap (MDrain first_drain) past_new in
  exit_of (ps_events p ++ before_poll last_drain) = Some 3%Z ∧
  (marker_run "CLAUDE_" sample_ops started).1 =
    all_marks "CLAUDE_" cap [MDrain first_drain] past_new ++
    (marks "CLAUDE_" cap (MDrain last_drain) p ++ [terminal_of false 3]) ::
    all_marks "CLAUDE_" cap [MDrain quiet] (past_step cap (MDrain last_drain) p).
Proof.
  assert (no_exit_seen (clamp_cap (plain_config ["claude"])) [MDrain first_drain] past_new) as Hno by (split; done).
  pose proof (marker_terminal_once "CLAUDE_" (plain_config ["claude"]) sample_ops) as [_ H].
  exact (H [MDrain first_drain] last_drain [MDrain quiet] 3%Z eq_refl Hno eq_refl).
Defined.

Lemma consume_chunking_witness :
  growing "" (["CLAUDE_ST"; "CLAUDE_START a" +:+ newline] ++ ["CLAUDE_START a" +:+ newline +:+ "x"]) ∧
  let '((ev, se), (cursor, tail)) :=
    consume_all "CLAUDE_" ["CLAUDE_ST"; "CLAUDE_START a" +:+ newline] (([], None), (0%Z, "")) in
  (ev, se) = parse_lines "CLAUDE_" (cut_lines "" ("CLAUDE_START a" +:+ newline)).1 [] None ∧
  (consume "CLAUDE_" ("CLAUDE_START a" +:+ newline +:+ "x") cursor tail true ev se).1 =
    parse_lines "CLAUDE_" (all_lines ("CLAUDE_START a" +:+ newline +:+ "x")) [] None.
Proof.
  assert (growing "" (["CLAUDE_ST"; "CLAUDE_START a" +:+ newline] ++
    ["CLAUDE_START a" +:+ newline +:+ "x"])) as H.
  { split; [by eexists|]. split; [by exists ("ART a" +:+ newline)|]. split; [by exists "x"|done]. }
  split; [exact H|]. exact (consume_chunking "CLAUDE_" _ _ [] None H).
Defined.

(** A line can be lost after the exit.  The pump threads may deliver the
    last bytes of a line after a drain saw the exit; that drain takes the
    unfinished line for a complete one and the next drain starts in its
    middle.  Here the child prints one session marker, the whole line reaches
    the output buffer, every drain happens, and neither a session nor an event
    for it is ever reported; delivered before the exit is seen, the same bytes
    give the session. *)
Theorem straggler_bytes_lost :
  let run tail_early tail_late :=
    marker_run "CLAUDE_"
      [MDrain (mk_interference (PumpStdout "CLAUDE_SESS" :: tail_early ++ [ProcessExit 0]) None tail_late);
       MDrain quiet; MDrain quiet] started in
  let rest := [PumpStdout ("ION s1" +:+ newline)] in
  let late := run [] [] in
  let later := marker_run "CLAUDE_" [MDrain (mk_interference rest None [])] late.2 in
  ma_provider_session_id (run rest []).2 = Some "s1" ∧
  ma_provider_session_id later.2 = None ∧ later.1 = [[]] ∧
  (po_stdout ∘ child_snapshot <$> ma_child later.2) = Some ("CLAUDE_SESSION s1" +:+ newline).
Proof. vm_compute. split_and!; reflexivity. Qed.
