(* ===== verification/Generic.v ===== *)
(** * Generic: the generic-command adapter (crate calcar-adapters, generic.rs)

    [GenericAdapter] over a [PlainChild]: every stdout line becomes one event,
    an unfinished last line is held back while the child runs, and the first
    drain that sees the exit adds stderr and one completion. *)

From S2P Require Import Prelude Text Events Quote Plain Contract Marker.
From Stdlib Require Import Ascii.

(** [struct GenericAdapter] *)
Record GenericAdapter := mk_generic {
  ga_child : option PlainChild;
  ga_pending_started : option ProviderEvent;
  ga_emitted_lines : nat;
  ga_completed : bool;
}.

(** [GenericAdapter::new] *)
Definition generic_new : GenericAdapter := mk_generic None None 0 false.

(** [GenericAdapter::exit_code]: the cached code, else one poll. *)
Definition generic_exit_code (poll_error : option PtyError) (c : PlainChild)
    (cached : option Z) : option Z * PlainChild :=
  match cached with
  | Some code => (Some code, c)
  | None =>
      match child_poll poll_error c with
      | (Ok code, c') => (code, c')
      | (Err _, c') => (None, c')
      end
  end.

(** [map_spawn_error] *)
Definition map_spawn_error (e : PtyError) : AdapterError :=
  match e with
  | PtyIo m => AdapterIo m
  | other => SpawnFailed (pty_display other)
  end.

(** [spawn]; [os_spawn] is [PlainChild::spawn]. *)
Definition generic_spawn (os_spawn : PlainConfig → result PlainChild PtyError)
    (req : SpawnRequest) (a : GenericAdapter) : result unit AdapterError * GenericAdapter :=
  if sr_interactive req then (Err Unsupported, a)
  else
    let summary := "started: " +:+ join " " (sr_argv req) in
    let config := mk_plain_config (sr_argv req) (sr_working_dir req) (sr_env req) None
                    (sr_output_cap_bytes req) in
    match os_spawn config with
    | Ok c => (Ok tt, mk_generic (Some c) (Some (provider_event CommandStarted summary)) 0 false)
    | Err e => (Err (map_spawn_error e), a)
    end.

(** [inject] *)
Definition generic_inject (input : string) (a : GenericAdapter) : result unit AdapterError :=
  match ga_child a with None => Err NotRunning | Some _ => Err Unsupported end.

(** [respond_approval] *)
Definition generic_respond_approval (request_id : string) (d : ApprovalDecision)
    (a : GenericAdapter) : result ApprovalOutcome AdapterError := Err Unsupported.

(** [stop] *)
Definition generic_stop (kill_error : option PtyError) (a : GenericAdapter) :
    result unit AdapterError :=
  match ga_child a, kill_error with
  | Some _, Some e => Err (AdapterIo (pty_display e))
  | _, _ => Ok tt
  end.

(** The lines one drain reports, and the new count: [stdout] as the snapshot
    has it, [exited] whether the exit was seen. *)
Definition generic_lines (stdout : string) (exited : bool) (emitted : nat) :
    list ProviderEvent * nat :=
  let text := from_utf8_lossy stdout in
  let ls := lines text in
  let total := length ls in
  let emit_up_to :=
    if negb exited && negb (ends_with_lf text) && (emitted <? total)%nat
    then total - 1 else total in
  let from := emitted `min` emit_up_to in
  (provider_event EventUnspecified <$> take (emit_up_to - from) (drop from ls), emit_up_to).

(** [drain]; here [after_poll] happens between the snapshot, which comes
    first, and the exit poll. *)
Definition generic_drain (i : Interference) (a : GenericAdapter) :
    list ProviderEvent * GenericAdapter :=
  let out := match ga_pending_started a with Some e => [e] | None => [] end in
  let a0 := mk_generic (ga_child a) None (ga_emitted_lines a) (ga_completed a) in
  if ga_completed a then (out, a0)
  else match ga_child a with
  | None => (out, a0)
  | Some c =>
      let c1 := child_events (before_poll i) c in
      let snapshot := child_snapshot c1 in
      let '(exit_code, c2) :=
        generic_exit_code (poll_error i) (child_events (after_poll i) c1) (po_exit_code snapshot) in
      let '(line_events, emitted) :=
        generic_lines (po_stdout snapshot) (bool_decide (is_Some exit_code)) (ga_emitted_lines a) in
      match exit_code with
      | None => (out ++ line_events, mk_generic (Some c2) None emitted false)
      | Some code =>
          (out ++ line_events ++
             (if bool_decide (po_stderr snapshot = "") then []
              else [provider_event ErrorOccurred (from_utf8_lossy (po_stderr snapshot))]) ++
             [provider_event CommandCompleted ("completed with exit code " +:+ dec code)],
           mk_generic (Some c2) None emitted true)
      end
  end.

(** [snapshot] *)
Definition generic_snapshot (i : Interference) (a : GenericAdapter) :
    AdapterSnapshot * GenericAdapter :=
  match ga_child a with
  | None => (mk_adapter_snapshot false None None None, a)
  | Some c =>
      let c1 := child_events (before_poll i) c in
      let '(exit_code, c2) := generic_exit_code (poll_error i) c1 (child_exit_code c1) in
      (mk_adapter_snapshot (bool_decide (exit_code = None)) exit_code None None,
       mk_generic (Some c2) (ga_pending_started a) (ga_emitted_lines a) (ga_completed a))
  end.
