(* ===== verification/GenericFacts.v ===== *)
(** * GenericFacts: the generic adapter reports every stdout line it sees once

    Decoding the whole buffer and cutting it into lines is the same as cutting
    the bytes and decoding each line, so the count of reported lines is stable
    while the buffer grows.  What arrives between the snapshot of the drain that
    sees the exit and its poll is lost. *)

From S2P Require Import Prelude Text Events Quote Plain Contract Marker MarkerFacts Generic.
From Stdlib Require Import Ascii.

Lemma ustep_lf st : ustep st LF = if decide (st = U0) then Some U0 else None.
Proof. by destruct st. Qed.

(** Decoding restarts after a newline. *)
Lemma lossy_go_lf st pend s t :
  (st = U0 → pend = "") →
  lossy_go st pend (s +:+ String LF t) = lossy_go st pend s +:+ String LF (from_utf8_lossy t).
Proof.
  revert st pend. induction s as [|b s IH]; intros st pend Hp.
  - rewrite sapp_nil_l. cbn [lossy_go]. rewrite ustep_lf.
    destruct (decide (st = U0)) as [Hst|Hst]; [|done].
    by rewrite (Hp Hst), !sapp_nil_l.
  - rewrite sapp_cons. cbn [lossy_go]. destruct (ustep st b) as [st1|].
    + destruct st1; rewrite IH by done; by text_simpl.
    + case_decide; [rewrite IH by done; by text_simpl|].
      destruct (ustep U0 b) as [st1|]; [destruct st1|]; rewrite IH by done; by text_simpl.
Qed.

Lemma lossy_lf s t :
  from_utf8_lossy (s +:+ String LF t) = from_utf8_lossy s +:+ String LF (from_utf8_lossy t).
Proof. by apply lossy_go_lf. Qed.

Lemma lossy_go_no_lf st pend s :
  contains_byte LF pend = false → contains_byte LF s = false →
  contains_byte LF (lossy_go st pend s) = false.
Proof.
  revert st pend. induction s as [|b s IH]; intros st pend Hp Hs; cbn [lossy_go].
  { by case_decide. }
  cbn in Hs. apply orb_false_iff in Hs as [Hb Hs].
  assert (∀ u, contains_byte LF u = false → contains_byte LF (REPLACEMENT +:+ u) = false) as HR
    by (intros u Hu; by rewrite contains_byte_app, Hu).
  assert (contains_byte LF (bstr b) = false) as Hbs by (cbn; by rewrite Hb).
  assert (contains_byte LF (pend +:+ bstr b) = false) as Hpb by (by rewrite contains_byte_app, Hp, Hbs).
  assert (∀ u, contains_byte LF u = false → contains_byte LF (String b u) = false) as Hcons
    by (intros u Hu; cbn; by rewrite Hb, Hu).
  destruct (ustep st b) as [st1|].
  - destruct st1; try by apply IH. rewrite contains_byte_app, Hp. cbn. rewrite Hb. by apply IH.
  - case_decide; [by apply HR, IH|].
    destruct (ustep U0 b) as [st1|]; [destruct st1|]; apply HR;
      first [by apply IH | by apply Hcons, IH | by apply HR, IH].
Qed.

Lemma lossy_no_lf s : contains_byte LF s = false → contains_byte LF (from_utf8_lossy s) = false.
Proof. by apply lossy_go_no_lf. Qed.

Lemma lines_go_lf cur u t :
  contains_byte LF u = false →
  lines_go cur (u +:+ String LF t) = strip_cr (cur +:+ u) :: lines_go "" t.
Proof.
  revert cur. induction u as [|c u IH]; intros cur H.
  { rewrite sapp_nil_l, sapp_nil_r. done. }
  cbn in H. apply orb_false_iff in H as [Hc H]. rewrite sapp_cons. cbn [lines_go].
  rewrite Hc, IH by done. by rewrite sapp_assoc.
Qed.

Lemma lines_go_no_lf cur u :
  contains_byte LF u = false →
  lines_go cur u = if decide (cur +:+ u = "") then [] else [cur +:+ u].
Proof.
  revert cur. induction u as [|c u IH]; intros cur H.
  { rewrite sapp_nil_r. cbn. by destruct cur. }
  cbn in H. apply orb_false_iff in H as [Hc H]. cbn [lines_go].
  by rewrite Hc, IH, sapp_assoc.
Qed.

Lemma ends_with_lf_cons b s : s ≠ "" → ends_with_lf (String b s) = ends_with_lf s.
Proof. by destruct s. Qed.

Lemma ends_with_lf_app u t : t ≠ "" → ends_with_lf (u +:+ t) = ends_with_lf t.
Proof.
  intros Ht. induction u as [|c u IH]; [done|]. rewrite sapp_cons, ends_with_lf_cons; [done|].
  by intros [_ ?]%sapp_eq_nil.
Qed.

Lemma ends_with_lf_none u : contains_byte LF u = false → ends_with_lf u = false.
Proof.
  induction u as [|c u IH]; [done|]. cbn [contains_byte]. intros [Hc Hu]%orb_false_iff.
  destruct u; [done|]. rewrite ends_with_lf_cons by done. by apply IH.
Qed.

(** One line of the buffer, as the adapter reports it. *)
Definition decoded (l : string) : string := strip_cr (from_utf8_lossy l).

(** Lines of the decoded buffer, from the lines of its bytes. *)
Lemma lines_lossy_go cur s :
  contains_byte LF cur = false →
  let '(ls, rest) := cut_lines cur s in
  lines (from_utf8_lossy (cur +:+ s)) =
    (decoded <$> ls) ++ (if decide (rest = "") then [] else [from_utf8_lossy rest]) ∧
  ends_with_lf (from_utf8_lossy (cur +:+ s)) = bool_decide (rest = "") && bool_decide (ls ≠ []).
Proof.
  revert cur. induction s as [|c s IH]; intros cur Hc; cbn [cut_lines].
  - rewrite sapp_nil_r. pose proof (lossy_no_lf cur Hc) as Hl. split.
    + unfold lines. rewrite lines_go_no_lf, sapp_nil_l by done. cbn.
      destruct (decide (cur = "")) as [->|Hn]; [done|].
      rewrite decide_False; [done|]. by rewrite lossy_empty.
    + rewrite ends_with_lf_none by done. by rewrite andb_false_r.
  - destruct (Ascii.eqb_spec c LF) as [->|Hn].
    + specialize (IH "" eq_refl). rewrite sapp_nil_l in IH.
      destruct (cut_lines "" s) as [ls rest]. destruct IH as [H1 H2].
      rewrite lossy_lf. split.
      * unfold lines in *. rewrite lines_go_lf by by apply lossy_no_lf.
        rewrite sapp_nil_l, H1. done.
      * rewrite ends_with_lf_app by done.
        destruct (decide (from_utf8_lossy s = "")) as [He|He].
        -- rewrite He in *. cbn. rewrite lossy_empty in He. subst s. cbn in H1.
           destruct ls, (decide (rest = "")) as [->|]; done.
        -- rewrite ends_with_lf_cons, H2 by done. destruct (bool_decide_reflect (rest = "")) as [->|Hr]; [|done].
           cbn. destruct ls; [|done]. cbn in H1. destruct He.
           destruct (from_utf8_lossy s) as [|b u]; [done|]. exfalso.
           unfold lines in H1. clear -H1.
           assert (∀ cur u, cur ≠ "" ∨ u ≠ "" → lines_go cur u ≠ []) as Hne.
           { clear. intros cur u. revert cur. induction u as [|b u IH]; intros cur H; cbn.
             - destruct H; [|done]. by destruct cur.
             - case_match; [done|]. apply IH. left. by intros [_ ?]%sapp_eq_nil. }
           apply (Hne "" (String b u)); [by right|done].
    + specialize (IH (cur +:+ bstr c)). rewrite sapp_assoc in IH. apply IH.
      rewrite contains_byte_app, Hc. cbn. destruct (Ascii.eqb_spec c LF); done.
Qed.

Definition line_event : string → ProviderEvent := provider_event EventUnspecified.

(** The lines a running drain may report of a buffer. *)
Definition full_lines (bytes : string) : list string := decoded <$> (cut_lines "" bytes).1.

Lemma full_lines_mono s more : ∃ l, full_lines (s +:+ more) = full_lines s ++ l.
Proof.
  unfold full_lines. rewrite cut_lines_app. destruct (cut_lines "" s) as [l1 r1].
  destruct (cut_lines r1 more) as [l2 r2]. exists (decoded <$> l2). cbn. by rewrite fmap_app.
Qed.

Lemma lines_full bytes :
  ∃ last, lines (from_utf8_lossy bytes) = full_lines bytes ++ last ∧ length last ≤ 1 ∧
    (ends_with_lf (from_utf8_lossy bytes) = true → last = []) ∧
    (last = [] → ends_with_lf (from_utf8_lossy bytes) = true ∨ full_lines bytes = []).
Proof.
  pose proof (lines_lossy_go "" bytes eq_refl) as H. rewrite sapp_nil_l in H. unfold full_lines.
  destruct (cut_lines "" bytes) as [ls rest]. destruct H as [-> He]. eexists. split; [done|].
  rewrite He. destruct (decide (rest = "")) as [->|Hr].
  - rewrite bool_decide_eq_true_2 by done. cbn. split_and!; [lia|done|].
    intros _. destruct ls; auto.
  - rewrite bool_decide_eq_false_2 by done. cbn. split_and!; [lia|done|done].
Qed.

Lemma generic_lines_running s more :
  generic_lines (s +:+ more) false (length (full_lines s)) =
    (line_event <$> drop (length (full_lines s)) (full_lines (s +:+ more)),
     length (full_lines (s +:+ more))).
Proof.
  destruct (full_lines_mono s more) as [l Hl]. destruct (lines_full (s +:+ more)) as (x & Hx & Hlen & H1 & H2).
  unfold generic_lines. rewrite Hx, length_app. set (n := length (full_lines s)).
  assert (n ≤ length (full_lines (s +:+ more))) as Hn by (rewrite Hl, length_app; lia).
  assert ((if negb false && negb (ends_with_lf (from_utf8_lossy (s +:+ more))) &&
      (n <? length (full_lines (s +:+ more)) + length x)%nat
    then length (full_lines (s +:+ more)) + length x - 1
    else length (full_lines (s +:+ more)) + length x) = length (full_lines (s +:+ more))) as ->.
  { destruct (ends_with_lf _) eqn:E; cbn [negb andb].
    - rewrite (H1 eq_refl). cbn [length]. lia.
    - destruct x as [|y x]; cbn [length] in *.
      + destruct (H2 eq_refl) as [?|Hnil]; [done|]. rewrite Hnil in *. cbn [length] in *.
        replace n with 0 by lia. done.
      + rewrite (proj2 (Nat.ltb_lt _ _)) by lia. lia. }
  rewrite Nat.min_l by done. f_equal. unfold line_event. f_equal.
  rewrite drop_app_le by done. by rewrite <-length_drop, take_app_length.
Qed.

Lemma generic_lines_exited s more :
  generic_lines (s +:+ more) true (length (full_lines s)) =
    (line_event <$> drop (length (full_lines s)) (lines (from_utf8_lossy (s +:+ more))),
     length (lines (from_utf8_lossy (s +:+ more)))).
Proof.
  destruct (full_lines_mono s more) as [l Hl]. destruct (lines_full (s +:+ more)) as (x & Hx & _).
  unfold generic_lines. cbn [negb andb]. rewrite Nat.min_l by (rewrite Hx, Hl, !length_app; lia).
  f_equal. unfold line_event. f_equal. apply take_ge. rewrite length_drop. lia.
Qed.

(** ** Runs of an adapter *)

(** The calls made on a spawned adapter until the next spawn. *)
Inductive generic_op :=
| GDrain (i : Interference)
| GStop (kill_error : option PtyError)
| GSnapshot (i : Interference).

Definition generic_step (op : generic_op) (a : GenericAdapter) : list ProviderEvent * GenericAdapter :=
  match op with
  | GDrain i => generic_drain i a
  | GStop _ => ([], a)
  | GSnapshot i => ([], (generic_snapshot i a).2)
  end.

Fixpoint generic_run (ops : list generic_op) (a : GenericAdapter) :
    list (list ProviderEvent) * GenericAdapter :=
  match ops with
  | [] => ([], a)
  | op :: ops' =>
      let '(out, a1) := generic_step op a in
      let '(outs, a') := generic_run ops' a1 in (out :: outs, a')
  end.

(** The adapter a successful [generic_spawn] leaves. *)
Definition generic_spawned (config : PlainConfig) (start : ProviderEvent) : GenericAdapter :=
  mk_generic (Some (child_new config)) (Some start) 0 false.

Definition exit_event (code : Z) : ProviderEvent :=
  provider_event CommandCompleted ("completed with exit code " +:+ dec code).
Definition stderr_events (err : string) : list ProviderEvent :=
  if bool_decide (err = "") then [] else [provider_event ErrorOccurred (from_utf8_lossy err)].

(** The past of a run, without the adapter: what the child has done, the exit
    code polls have found, and what stdout had at the snapshot of the last
    drain. *)
Record GenericPast := mk_generic_past {
  gp_events : list ChildEvent;
  gp_code : option Z;
  gp_shown : option string;
}.

Definition generic_past_new : GenericPast := mk_generic_past [] None None.

Section GenericRuns.
Context (cap : Z) (start : ProviderEvent).

(** The events when a drain takes its snapshot. *)
Definition at_snapshot (i : Interference) (p : GenericPast) : list ChildEvent := gp_events p ++ before_poll i.

(** The exit code a drain finds: its poll comes after the snapshot. *)
Definition drain_code (i : Interference) (p : GenericPast) : option Z :=
  poll_finds (poll_error i) (at_snapshot i p ++ after_poll i) (gp_code p).

Definition generic_past_step (op : generic_op) (p : GenericPast) : GenericPast :=
  match op with
  | GDrain i =>
      mk_generic_past (at_snapshot i p ++ after_poll i) (drain_code i p)
        (Some (shown_of cap (stdout_of (at_snapshot i p))))
  | GStop _ => p
  | GSnapshot i =>
      mk_generic_past (at_snapshot i p) (poll_finds (poll_error i) (at_snapshot i p) (gp_code p)) (gp_shown p)
  end.

Fixpoint no_exit_drained (ops : list generic_op) (p : GenericPast) : Prop :=
  match ops with
  | [] => True
  | op :: ops' =>
      match op with GDrain i => drain_code i p = None | _ => True end ∧
      no_exit_drained ops' (generic_past_step op p)
  end.

(** What a running command has had reported: the start once it was drained, and
    the finished lines of stdout as the last drain saw it. *)
Definition reported (shown : option string) : list ProviderEvent :=
  match shown with
  | None => []
  | Some bytes => start :: (line_event <$> full_lines bytes)
  end.

(** The adapter after the past [p], before its completion. *)
Record generic_at (p : GenericPast) (a : GenericAdapter) : Prop := {
  ge_child : ∃ c, ga_child a = Some c ∧ child_seen cap (gp_events p) (gp_code p) c;
  ge_pending : ga_pending_started a = match gp_shown p with None => Some start | Some _ => None end;
  ge_emitted : ga_emitted_lines a = length (full_lines (default "" (gp_shown p)));
  ge_shown : sprefix (default "" (gp_shown p)) (shown_of cap (stdout_of (gp_events p)));
  ge_completed : ga_completed a = false;
}.

Lemma generic_exit_code_seen es found c wait_error :
  child_seen cap es found c →
  let '(code, c') := generic_exit_code wait_error c found in
  code = poll_finds wait_error es found ∧ child_seen cap es code c'.
Proof.
  intros Hseen. pose proof (child_seen_poll _ _ _ _ wait_error Hseen) as Hp. unfold generic_exit_code.
  destruct found as [code|]; [done|]. pose proof (cs_found _ _ _ _ Hp) as Hf.
  destruct Hseen as [_ Hn]. revert Hf Hp. unfold child_poll, child_exit_code in *.
  destruct (ch_exited c) eqn:E; [done|]. destruct wait_error; cbn; [by intros|].
  destruct (ch_process c); cbn; rewrite ?E; by intros <- Hp.
Qed.

Lemma full_lines_drop s more tail :
  line_event <$> full_lines (s +:+ more) ++ tail =
    (line_event <$> full_lines s) ++
    (line_event <$> drop (length (full_lines s)) (full_lines (s +:+ more) ++ tail)).
Proof.
  destruct (full_lines_mono s more) as [l ->]. by rewrite <-fmap_app, <-app_assoc, drop_app_length.
Qed.

(** A report after what was reported before. *)
Lemma reported_more p a more tail :
  generic_at p a →
  reported (gp_shown p) ++ option_list (ga_pending_started a) ++
    (line_event <$> drop (ga_emitted_lines a) (full_lines (default "" (gp_shown p) +:+ more) ++ tail)) =
  start :: (line_event <$> full_lines (default "" (gp_shown p) +:+ more) ++ tail).
Proof.
  intros [_ -> -> _ _]. rewrite (full_lines_drop _ more). by destruct (gp_shown p).
Qed.

Hypothesis cap_ok : (0 ≤ cap)%Z.
#[local] Set Default Proof Using "Type*".

(** One drain before the completion. *)
Lemma generic_drain_at p a i :
  generic_at p a →
  let '(out, a') := generic_drain i a in
  let bytes := shown_of cap (stdout_of (at_snapshot i p)) in
  match drain_code i p with
  | None => reported (gp_shown p) ++ out = reported (Some bytes) ∧ generic_at (generic_past_step (GDrain i) p) a'
  | Some code =>
      reported (gp_shown p) ++ out =
        [start] ++ (line_event <$> lines (from_utf8_lossy bytes)) ++
        stderr_events (shown_of cap (stderr_of (at_snapshot i p))) ++ [exit_event code] ∧
      ga_completed a' = true ∧ ga_pending_started a' = None
  end.
Proof.
  intros Hat. pose proof Hat as [(c & Hc & Hseen) Hpend Hemit Hshown Hco]. unfold generic_drain. rewrite Hco, Hc.
  pose proof (child_seen_events _ _ _ _ (before_poll i) cap_ok Hseen) as H1. fold (at_snapshot i p) in H1.
  set (c1 := child_events (before_poll i) c) in *.
  pose proof (child_seen_events _ _ _ _ (after_poll i) cap_ok H1) as H2.
  destruct (child_seen_snapshot _ _ _ _ H1) as (-> & -> & ->).
  pose proof (generic_exit_code_seen _ _ _ (poll_error i) H2) as H3.
  destruct (generic_exit_code _ _ _) as [code c2]. destruct H3 as [-> H3]. fold (drain_code i p) in H3 |- *.
  assert (sprefix (default "" (gp_shown p)) (shown_of cap (stdout_of (at_snapshot i p)))) as [more Hmore].
  { etrans; [exact Hshown|]. apply (shown_of_more cap stdout_of), stdout_of_app. }
  change (match ga_pending_started a with Some e => [e] | None => [] end) with (option_list (ga_pending_started a)).
  rewrite Hmore. destruct (drain_code i p) as [code|] eqn:Ecode.
  - rewrite bool_decide_eq_true_2 by by eexists. rewrite Hemit, generic_lines_exited, <-Hemit.
    split; [|done]. destruct (lines_full (default "" (gp_shown p) +:+ more)) as (x & -> & _).
    rewrite !(assoc_L (++)). rewrite <-(assoc_L (++) (reported _)), (reported_more p a more x Hat). done.
  - rewrite bool_decide_eq_false_2 by by intros [??]. rewrite Hemit, generic_lines_running, <-Hemit. split.
    + pose proof (reported_more p a more [] Hat) as H. by rewrite !app_nil_r in H.
    + split; cbn; [exists c2; by rewrite Ecode|done|by rewrite Hmore| |done].
      apply (shown_of_more cap stdout_of), stdout_of_app.
Qed.

Lemma generic_quiet_step p a op :
  match op with GDrain _ => False | _ => True end → generic_at p a →
  (generic_step op a).1 = [] ∧ generic_at (generic_past_step op p) (generic_step op a).2 ∧
  gp_shown (generic_past_step op p) = gp_shown p.
Proof.
  intros Hop Hat. destruct op as [i|ke|i]; [done|done|]. pose proof Hat as [(c & Hc & Hseen) Hpend Hemit Hshown Hco].
  cbn. unfold generic_snapshot. rewrite Hc.
  pose proof (child_seen_events _ _ _ _ (before_poll i) cap_ok Hseen) as H1. fold (at_snapshot i p) in H1.
  rewrite (cs_found _ _ _ _ H1). pose proof (generic_exit_code_seen _ _ _ (poll_error i) H1) as H2.
  destruct (generic_exit_code _ _ _) as [code c2]. destruct H2 as [-> H2].
  split_and!; [done| |done]. split; cbn; [by exists c2|done|done| |done].
  etrans; [exact Hshown|]. apply (shown_of_more cap stdout_of), stdout_of_app.
Qed.

Lemma generic_run_running ops p a :
  generic_at p a → no_exit_drained ops p →
  reported (gp_shown p) ++ concat (generic_run ops a).1 = reported (gp_shown (runs generic_past_step ops p)) ∧
  length (generic_run ops a).1 = length ops ∧
  generic_at (runs generic_past_step ops p) (generic_run ops a).2.
Proof.
  revert p a. induction ops as [|op ops IH]; intros p a Hat Hno.
  { cbn. by rewrite app_nil_r. }
  cbn [no_exit_drained generic_run runs] in *. destruct Hno as [Hop Hno].
  assert (let '(out, a1) := generic_step op a in
    reported (gp_shown p) ++ out = reported (gp_shown (generic_past_step op p)) ∧
    generic_at (generic_past_step op p) a1) as Hstep.
  { destruct op as [i|ke|i].
    - pose proof (generic_drain_at p a i Hat) as H. cbn [generic_step]. destruct (generic_drain i a). by rewrite Hop in H.
    - cbn. by rewrite app_nil_r.
    - destruct (generic_quiet_step p a (GSnapshot i) I Hat) as (H1 & H2 & H3).
      destruct (generic_step (GSnapshot i) a) as [out a1]. cbn [fst snd] in *. subst out. by rewrite app_nil_r, H3. }
  destruct (generic_step op a) as [out a1]. destruct Hstep as [Hout Hat1].
  destruct (IH _ _ Hat1 Hno) as (H1 & H2 & H3). destruct (generic_run ops a1) as [outs a']. cbn in *.
  by rewrite (assoc_L (++)), Hout, H2.
Qed.

(** Nothing is reported after the completion. *)
Lemma generic_run_completed ops a :
  ga_completed a = true → ga_pending_started a = None → (generic_run ops a).1 = replicate (length ops) [].
Proof.
  revert a. induction ops as [|op ops IH]; intros a Hc Hp; [done|]. cbn [generic_run].
  assert ((generic_step op a).1 = [] ∧ ga_completed (generic_step op a).2 = true ∧
    ga_pending_started (generic_step op a).2 = None) as (H1 & H2 & H3).
  { destruct op as [i|ke|i]; cbn.
    - unfold generic_drain. by rewrite Hc, Hp.
    - done.
    - unfold generic_snapshot. destruct (ga_child a); [|done]. by destruct (generic_exit_code _ _ _). }
  destruct (generic_step op a) as [out a1]. cbn [fst snd] in *. subst out.
  specialize (IH a1 H2 H3). destruct (generic_run ops a1). cbn in *. by subst.
Qed.

Lemma generic_run_app ops1 ops2 a :
  (generic_run (ops1 ++ ops2) a).1 = (generic_run ops1 a).1 ++ (generic_run ops2 (generic_run ops1 a).2).1.
Proof.
  revert a. induction ops1 as [|op ops1 IH]; intros a; [done|]. cbn [app generic_run].
  destruct (generic_step op a) as [out a1]. specialize (IH a1).
  destruct (generic_run (ops1 ++ ops2) a1), (generic_run ops1 a1). cbn in *. by rewrite IH.
Qed.

(** The code a drain finds is the one the child ended with. *)
Lemma drain_code_exit p a i code :
  generic_at p a → drain_code i p = Some code → exit_of (at_snapshot i p ++ after_poll i) = Some code.
Proof.
  intros [(c & _ & [Ha Hf]) _ _ _ _]. unfold drain_code, poll_finds, at_snapshot.
  destruct (gp_code p) as [found|]; [|by destruct (poll_error i)]. intros [= ->].
  unfold child_exit_code in Hf. destruct (ch_exited c) eqn:E; [|done]. injection Hf as <-.
  pose proof (af_cached _ _ _ Ha E) as Hx. unfold exit_of in *. by rewrite <-(assoc_L (++)), omap_app, head_app, Hx.
Qed.
End GenericRuns.

(** C25: the generic adapter reports a command exactly.  Over any calls made on
    a spawned command, however its output arrives and whichever polls fail:
    while no drain sees the exit, the drains have together reported the start
    and the finished lines of stdout as the last drain saw it, in order and each
    once.  The first drain that sees the exit (it finds the code the process
    ended with) brings this to all lines its snapshot of stdout has, then the
    error output if its snapshot of stderr has any, and one completion with
    the code; no later call reports anything.  The snapshot comes before the
    poll, so what the pumps deliver in between or later is not reported
    ([generic_output_lost]). *)
Theorem generic_drain_exact (config : PlainConfig) (start : ProviderEvent) (ops : list generic_op) :
  let cap := clamp_cap config in
  let outs := (generic_run ops (generic_spawned config start)).1 in
  let past ops := runs (generic_past_step cap) ops generic_past_new in
  (no_exit_drained cap ops generic_past_new → concat outs = reported start (gp_shown (past ops))) ∧
  ∀ before i after code, ops = before ++ GDrain i :: after →
    no_exit_drained cap before generic_past_new → drain_code i (past before) = Some code →
    let seen := at_snapshot i (past before) in
    exit_of (seen ++ after_poll i) = Some code ∧
    concat (take (length before) outs) = reported start (gp_shown (past before)) ∧
    concat (take (S (length before)) outs) =
      [start] ++ (line_event <$> lines (from_utf8_lossy (shown_of cap (stdout_of seen)))) ++
      stderr_events (shown_of cap (stderr_of seen)) ++ [exit_event code] ∧
    drop (S (length before)) outs = replicate (length after) [].
Proof.
  intros cap outs past. assert (0 ≤ cap)%Z as Hcap by (unfold cap, clamp_cap; lia).
  assert (generic_at cap start generic_past_new (generic_spawned config start)) as H0.
  { split; cbn; [eexists; split; [done|apply child_seen_new]|done|done|by eexists|done]. }
  split; [intros Hno; apply (generic_run_running cap start Hcap _ _ _ H0 Hno)|].
  intros before i after code -> Hno Hcode seen. subst outs. rewrite generic_run_app.
  destruct (generic_run_running cap start Hcap before _ _ H0 Hno) as (Hrep & Hlen & Hat).
  fold (past before) in Hrep, Hat. split; [by eapply drain_code_exit|].
  destruct (generic_run before _) as [outs1 a1]. cbn [fst snd] in *. cbn [generic_run generic_step].
  pose proof (generic_drain_at cap start Hcap _ _ i Hat) as Hd. destruct (generic_drain i a1) as [out a2].
  rewrite Hcode in Hd. destruct Hd as (Hout & Hc2 & Hp2). fold seen in Hout.
  pose proof (generic_run_completed after a2 Hc2 Hp2) as Hr. destruct (generic_run after a2) as [outs2 a3].
  cbn [fst] in *. subst outs2. cbn in Hrep. rewrite <-Hlen.
  rewrite take_app_length, (cons_middle out), (assoc_L (++)), <-(Nat.add_1_r (length outs1)).
  replace (length outs1 + 1) with (length (outs1 ++ [out])) by by rewrite length_app.
  rewrite take_app_length, drop_app_length, concat_app. cbn. rewrite app_nil_r, Hrep. by split_and!.
Qed.

(** ** Concrete drains *)

Definition make_start : ProviderEvent := provider_event CommandStarted "started: make".
Definition generic_started : GenericAdapter := generic_spawned (plain_config ["make"]) make_start.

Definition first_call : Interference :=
  mk_interference [PumpStdout ("cc a" +:+ newline +:+ "cc")] None [].
Definition last_call : Interference :=
  mk_interference [PumpStdout (" b" +:+ newline); PumpStderr "oops"; ProcessExit 2] None [].

Example make_drained :
  (generic_run [GDrain first_call; GDrain last_call; GDrain quiet] generic_started).1 =
    [[make_start; line_event "cc a"];
     [line_event "cc b"; provider_event ErrorOccurred "oops"; exit_event 2]; []].
Proof. vm_compute. reflexivity. Qed.

Lemma generic_drain_exact_witness :
  let outs := (generic_run [GDrain first_call; GDrain last_call; GDrain quiet] generic_started).1 in
  let cap := clamp_cap (plain_config ["make"]) in
  let past := generic_past_step cap (GDrain first_call) generic_past_new in
  exit_of (at_snapshot last_call past ++ after_poll last_call) = Some 2%Z ∧
  concat (take 1 outs) = reported make_start (gp_shown past) ∧
  concat (take 2 outs) =
    [make_start] ++
    (line_event <$> lines (from_utf8_lossy (shown_of cap (stdout_of (at_snapshot last_call past))))) ++
    stderr_events (shown_of cap (stderr_of (at_snapshot last_call past))) ++ [exit_event 2] ∧
  drop 2 outs = [[]].
Proof.
  assert (no_exit_drained (clamp_cap (plain_config ["make"])) [GDrain first_call] generic_past_new) as Hno
    by (split; done).
  pose proof (generic_drain_exact (plain_config ["make"]) make_start
    [GDrain first_call; GDrain last_call; GDrain quiet]) as [_ H].
  exact (H [GDrain first_call] last_call [GDrain quiet] 2%Z eq_refl Hno eq_refl).
Defined.

(** The last output can be lost.  [drain] takes its snapshot before it
    polls for the exit.  When a command prints its result and exits between
    the two, the drain reports the completion without the result, and no later
    drain reports it, although the bytes were delivered before the exit was
    seen; with the same events before the snapshot the result is reported. *)
Theorem generic_output_lost :
  let run before between := concat (generic_run
    [GDrain (mk_interference before None between); GDrain quiet; GDrain quiet] generic_started).1 in
  let tail_events := [PumpStdout ("result 42" +:+ newline); ProcessExit 0] in
  run tail_events [] = [make_start; line_event "result 42"; exit_event 0] ∧
  run [] tail_events = [make_start; exit_event 0].
Proof. vm_compute. split; reflexivity. Qed.
