(* ===== verification/Providers.v ===== *)
(** * Providers: the adapters behind one interface (crate calcar-adapters)

    [ProviderAdapter] is the trait of [traitdef.rs]; [claude.rs], [codex.rs],
    [opencode.rs] and [generic.rs] are its instances and [Adapter] of
    [registry.rs] dispatches over them.  What a call needs of the operating
    system is an argument: the spawn, the error of a kill, and the
    [Interference] of the child. *)

From S2P Require Import Prelude Text Events Quote Plain Contract Marker MarkerFacts Generic.

(** [trait ProviderAdapter] *)
Class ProviderAdapter (A : Type) := {
  pa_name : A → string;
  pa_provider : A → Provider;
  pa_capabilities : A → Capabilities;
  pa_spawn : (PlainConfig → result PlainChild PtyError) → Interference → SpawnRequest → A →
    result unit AdapterError * A;
  pa_inject : string → A → result unit AdapterError * A;
  pa_respond_approval : string → ApprovalDecision → A → result ApprovalOutcome AdapterError * A;
  pa_stop : option PtyError → A → result unit AdapterError * A;
  pa_drain : Interference → A → list ProviderEvent * A;
  pa_snapshot : Interference → A → AdapterSnapshot * A;
}.

Definition map_snd {A B X} (f : A → B) (p : X * A) : X * B := (p.1, f p.2).

(** ** The three marker adapters *)

Definition marker_capabilities : Capabilities :=
  mk_capabilities true false false true true true true.

Record ClaudeAdapter := mk_claude { claude_state : MarkerAdapter }.
Record CodexAdapter := mk_codex { codex_state : MarkerAdapter }.
Record OpencodeAdapter := mk_opencode { opencode_state : MarkerAdapter }.

Definition claude_PREFIX : string := "CLAUDE_".
Definition codex_PREFIX : string := "CODEX_".
Definition opencode_PREFIX : string := "OPENCODE_".

Definition claude_new : ClaudeAdapter := mk_claude marker_new.
Definition codex_new : CodexAdapter := mk_codex marker_new.
Definition opencode_new : OpencodeAdapter := mk_opencode marker_new.

#[export] Instance claude_adapter : ProviderAdapter ClaudeAdapter := {|
  pa_name _ := "claude";
  pa_provider _ := Claude;
  pa_capabilities _ := marker_capabilities;
  pa_spawn os i req a := map_snd mk_claude (marker_spawn os i req (claude_state a));
  pa_inject input a := (marker_inject input (claude_state a), a);
  pa_respond_approval id d a := (marker_respond_approval id d (claude_state a), a);
  pa_stop ke a := map_snd mk_claude (marker_stop ke (claude_state a));
  pa_drain i a := map_snd mk_claude (marker_drain claude_PREFIX i (claude_state a));
  pa_snapshot i a := map_snd mk_claude (marker_snapshot i (claude_state a));
|}.

#[export] Instance codex_adapter : ProviderAdapter CodexAdapter := {|
  pa_name _ := "codex";
  pa_provider _ := Codex;
  pa_capabilities _ := marker_capabilities;
  pa_spawn os i req a := map_snd mk_codex (marker_spawn os i req (codex_state a));
  pa_inject input a := (marker_inject input (codex_state a), a);
  pa_respond_approval id d a := (marker_respond_approval id d (codex_state a), a);
  pa_stop ke a := map_snd mk_codex (marker_stop ke (codex_state a));
  pa_drain i a := map_snd mk_codex (marker_drain codex_PREFIX i (codex_state a));
  pa_snapshot i a := map_snd mk_codex (marker_snapshot i (codex_state a));
|}.

#[export] Instance opencode_adapter : ProviderAdapter OpencodeAdapter := {|
  pa_name _ := "opencode";
  pa_provider _ := Opencode;
  pa_capabilities _ := marker_capabilities;
  pa_spawn os i req a := map_snd mk_opencode (marker_spawn os i req (opencode_state a));
  pa_inject input a := (marker_inject input (opencode_state a), a);
  pa_respond_approval id d a := (marker_respond_approval id d (opencode_state a), a);
  pa_stop ke a := map_snd mk_opencode (marker_stop ke (opencode_state a));
  pa_drain i a := map_snd mk_opencode (marker_drain opencode_PREFIX i (opencode_state a));
  pa_snapshot i a := map_snd mk_opencode (marker_snapshot i (opencode_state a));
|}.

(** ** The generic adapter *)

Definition generic_capabilities : Capabilities :=
  mk_capabilities true false false false false true false.

#[export] Instance generic_adapter : ProviderAdapter GenericAdapter := {|
  pa_name _ := "generic";
  pa_provider _ := Generic;
  pa_capabilities _ := generic_capabilities;
  pa_spawn os _ req a := generic_spawn os req a;
  pa_inject input a := (generic_inject input a, a);
  pa_respond_approval id d a := (generic_respond_approval id d a, a);
  pa_stop ke a := (generic_stop ke a, a);
  pa_drain i a := generic_drain i a;
  pa_snapshot i a := generic_snapshot i a;
|}.

(** ** The registry *)

(** [enum Adapter] *)
Inductive Adapter :=
| AGeneric (a : GenericAdapter)
| AOpencode (a : OpencodeAdapter)
| AClaude (a : ClaudeAdapter)
| ACodex (a : CodexAdapter).

(** [for_provider] *)
Definition for_provider (p : Provider) : result Adapter AdapterError :=
  match p with
  | Generic => Ok (AGeneric generic_new)
  | Opencode => Ok (AOpencode opencode_new)
  | Claude => Ok (AClaude claude_new)
  | Codex => Ok (ACodex codex_new)
  | ProviderUnspecified => Err Unsupported
  end.

(** [impl ProviderAdapter for Adapter]: dispatch to the one inside. *)
Definition dispatch {R} (f : ∀ B, ProviderAdapter B → B → R) (a : Adapter) : R :=
  match a with
  | AGeneric b => f _ _ b
  | AOpencode b => f _ _ b
  | AClaude b => f _ _ b
  | ACodex b => f _ _ b
  end.
Definition dispatch_mut {R} (f : ∀ B, ProviderAdapter B → B → R * B) (a : Adapter) : R * Adapter :=
  match a with
  | AGeneric b => map_snd AGeneric (f _ _ b)
  | AOpencode b => map_snd AOpencode (f _ _ b)
  | AClaude b => map_snd AClaude (f _ _ b)
  | ACodex b => map_snd ACodex (f _ _ b)
  end.

#[export] Instance adapter_dispatch : ProviderAdapter Adapter := {|
  pa_name := dispatch (λ B _, pa_name);
  pa_provider := dispatch (λ B _, pa_provider);
  pa_capabilities := dispatch (λ B _, pa_capabilities);
  pa_spawn os i req := dispatch_mut (λ B _, pa_spawn os i req);
  pa_inject input := dispatch_mut (λ B _, pa_inject input);
  pa_respond_approval id d := dispatch_mut (λ B _, pa_respond_approval id d);
  pa_stop ke := dispatch_mut (λ B _, pa_stop ke);
  pa_drain i := dispatch_mut (λ B _, pa_drain i);
  pa_snapshot i := dispatch_mut (λ B _, pa_snapshot i);
|}.

(** ** Theorems *)

(** What an adapter whose capabilities are flags must do. *)
Record honest (a : Adapter) : Prop := {
  honest_input input :
    interactive_input (pa_capabilities a) = false → is_ok (pa_inject input a).1 = false;
  honest_approvals id d :
    approvals (pa_capabilities a) = false → pa_respond_approval id d a = (Err Unsupported, a);
  honest_interactive os i req :
    interactive_input (pa_capabilities a) = false → sr_interactive req = true →
    pa_spawn os i req a = (Err Unsupported, a);
  honest_resume i :
    resume (pa_capabilities a) = false → as_resume_pointer (pa_snapshot i a).1 = None;
  honest_files i e :
    file_events (pa_capabilities a) = false → e ∈ (pa_drain i a).1 → pe_event_type e ≠ FileChanged;
}.

(** The calls of the contract. *)
Inductive adapter_call :=
| CSpawn (os : PlainConfig → result PlainChild PtyError) (i : Interference) (req : SpawnRequest)
| CInject (input : string)
| CRespond (id : string) (d : ApprovalDecision)
| CStop (kill_error : option PtyError)
| CDrain (i : Interference)
| CSnapshot (i : Interference).

Definition call_step (call : adapter_call) (a : Adapter) : Adapter :=
  match call with
  | CSpawn os i req => (pa_spawn os i req a).2
  | CInject input => (pa_inject input a).2
  | CRespond id d => (pa_respond_approval id d a).2
  | CStop ke => (pa_stop ke a).2
  | CDrain i => (pa_drain i a).2
  | CSnapshot i => (pa_snapshot i a).2
  end.

(** The kind of adapter, and the only event it may owe. *)
Definition adapter_ok (p : Provider) (a : Adapter) : Prop :=
  pa_provider a = p ∧
  match a with
  | AGeneric g => ∀ e, ga_pending_started g = Some e → pe_event_type e = CommandStarted
  | _ => True
  end.

Lemma generic_drain_pending i g : ga_pending_started (generic_drain i g).2 = None.
Proof.
  unfold generic_drain. destruct (ga_completed g); [done|]. destruct (ga_child g); [|done].
  destruct (generic_exit_code _ _ _) as [[code|] c']; by destruct (generic_lines _ _ _).
Qed.

Lemma call_step_ok p call a : adapter_ok p a → adapter_ok p (call_step call a).
Proof.
  intros [<- Ha]. destruct a as [g|o|c|x]; [|by destruct call..].
  split; [by destruct call|].
  destruct call as [os i req| | | |i|i]; cbn; try exact Ha.
  - unfold generic_spawn. destruct (sr_interactive req); cbn; [exact Ha|].
    destruct (os _); cbn; [by intros e [= <-]|exact Ha].
  - by rewrite generic_drain_pending.
  - unfold generic_snapshot. destruct (ga_child g); [|exact Ha]. destruct (generic_exit_code _ _ _).
    exact Ha.
Qed.

Lemma generic_lines_type stdout exited n e :
  e ∈ (generic_lines stdout exited n).1 → pe_event_type e = EventUnspecified.
Proof. cbn. by intros (l & -> & _)%list_elem_of_fmap. Qed.

Lemma generic_drain_types i g e :
  (∀ e, ga_pending_started g = Some e → pe_event_type e = CommandStarted) →
  e ∈ (generic_drain i g).1 → pe_event_type e ≠ FileChanged.
Proof.
  intros Hp. assert (∀ e, e ∈ match ga_pending_started g with Some e => [e] | None => [] end →
    pe_event_type e ≠ FileChanged) as Hst.
  { intros e'. destruct (ga_pending_started g) as [e0|]; [|by intros ?%elem_of_nil].
    intros ->%list_elem_of_singleton. by rewrite (Hp e0). }
  unfold generic_drain. destruct (ga_completed g); [apply Hst|].
  destruct (ga_child g) as [c|]; [|apply Hst].
  destruct (generic_exit_code _ _ _) as [ec c'].
  pose proof (generic_lines_type (po_stdout (child_snapshot (child_events (before_poll i) c)))
    (bool_decide (is_Some ec)) (ga_emitted_lines g)) as Hl.
  destruct (generic_lines _ _ _) as [evs n]. cbn [fst] in Hl.
  destruct ec as [code|]; cbn [fst]; rewrite !elem_of_app.
  - intros [H|[H|[H|H]]]; [by apply Hst|by rewrite (Hl _ H)| |].
    + case_bool_decide; [by apply elem_of_nil in H|]. by apply list_elem_of_singleton in H as ->.
    + by apply list_elem_of_singleton in H as ->.
  - intros [H|H]; [by apply Hst|by rewrite (Hl _ H)].
Qed.

Lemma adapter_ok_honest p a : adapter_ok p a → honest a.
Proof.
  intros [_ Ha]. split.
  - intros input _. destruct a as [g|[o]|[c]|[x]]; cbn; unfold generic_inject, marker_inject;
      by case_match.
  - intros id d _. by destruct a as [g|[o]|[c]|[x]].
  - intros os i req _ Hi. destruct a as [g|[o]|[c]|[x]]; cbn;
      unfold generic_spawn, marker_spawn; by rewrite Hi.
  - intros i Hr. destruct a as [g|[o]|[c]|[x]]; try done. cbn. unfold generic_snapshot.
    destruct (ga_child g); [|done]. by destruct (generic_exit_code _ _ _).
  - intros i e Hf He. destruct a as [g|[o]|[c]|[x]]; try done.
    exact (generic_drain_types i g e Ha He).
Qed.

(** C26: the registry builds the adapter it is asked for, and through any
    sequence of calls that adapter stays one of this provider and keeps what
    its capability flags deny: without interactive input nothing is injected
    and an interactive spawn changes nothing, without approvals no verdict is
    taken, without resume no resume pointer is given out, without file events
    none is reported. *)
Theorem adapters_honest (p : Provider) (a : Adapter) (calls : list adapter_call) :
  for_provider p = Ok a →
  let a' := runs call_step calls a in pa_provider a' = p ∧ honest a'.
Proof.
  intros Ha a'. assert (adapter_ok p a') as Hok.
  { apply (runs_inv _ (adapter_ok p)); [intros call b; apply call_step_ok|].
    destruct p; try discriminate; injection Ha as <-; by split. }
  split; [apply Hok|]. by eapply adapter_ok_honest.
Qed.

Lemma adapters_honest_witness :
  for_provider Claude = Ok (AClaude claude_new) ∧
  let a' := runs call_step
    [CSpawn (λ c, Ok (child_new c)) quiet (spawn_request ["claude"; "-p"; "hi"]); CDrain quiet]
    (AClaude claude_new) in
  pa_provider a' = Claude ∧ honest a'.
Proof.
  split; [reflexivity|]. apply adapters_honest. reflexivity.
Defined.

(** The three marker grammars are disjoint.  A line that one provider's
    grammar reads, as an event or as a session, is chatter to the other two. *)
Theorem marker_grammars_disjoint (line : string) :
  let silent prefix := parse_line prefix line [] None = ([], None) in
  (silent claude_PREFIX ∨ silent codex_PREFIX) ∧
  (silent claude_PREFIX ∨ silent opencode_PREFIX) ∧
  (silent codex_PREFIX ∨ silent opencode_PREFIX).
Proof.
  intros silent. assert (∀ p, strip_prefix p line = None → silent p) as Hs.
  { intros p H. unfold silent, parse_line. by rewrite H. }
  assert (∀ p q x y, strip_prefix p line = Some x → strip_prefix q line = Some y →
    ∃ u v, p +:+ u = q +:+ v) as Hboth.
  { intros p q x y Hp%strip_prefix_Some Hq%strip_prefix_Some. exists x, y. congruence. }
  assert (∀ p q, (∀ u v, p +:+ u ≠ q +:+ v) → silent p ∨ silent q) as Hgo.
  { intros p q Hne. destruct (strip_prefix p line) as [x|] eqn:Ep; [|by left; apply Hs].
    destruct (strip_prefix q line) as [y|] eqn:Eq; [|by right; apply Hs].
    destruct (Hboth _ _ _ _ Ep Eq) as (u & v & H). by apply Hne in H. }
  split_and!; apply Hgo; intros u v; discriminate.
Qed.
