(* ===== verification/BTree.v ===== *)
(** * BTree: [BTreeMap<String, V>]

    A map whose iteration order is the byte order of its keys: an association
    list with strictly increasing keys.  Insertion replaces the value of a
    key that is present, as [BTreeMap::insert] does. *)

From S2P Require Import Prelude Text.
From Stdlib Require Import Ascii.

(** [Ord] on [str]: lexicographic on bytes. *)
Fixpoint slt (s t : string) : bool :=
  match s, t with
  | "", String _ _ => true
  | _, "" => false
  | String a s', String b t' =>
      (byte_val a <? byte_val b)%Z || (Ascii.eqb a b && slt s' t')
  end.

Lemma slt_irrefl s : slt s s = false.
Proof. induction s as [|a s IH]; [done|]. simpl. by rewrite Z.ltb_irrefl, IH, andb_false_r. Qed.

Lemma slt_trans s t u : slt s t = true → slt t u = true → slt s u = true.
Proof.
  revert t u. induction s as [|a s IH]; intros [|b t] [|c u]; simpl; try done.
  rewrite !orb_true_iff, !andb_true_iff, !Ascii.eqb_eq, !Z.ltb_lt.
  intros [?|[-> ?]] [?|[-> ?]]; [left; lia|auto|auto|]. right; eauto.
Qed.

Lemma slt_total s t : s ≠ t → slt s t = false → slt t s = true.
Proof.
  revert t. induction s as [|a s IH]; intros [|b t]; simpl; try done.
  rewrite orb_false_iff, Z.ltb_ge, orb_true_iff, andb_true_iff, Ascii.eqb_eq, Z.ltb_lt.
  intros Hne [Hle Hs]. destruct (decide (a = b)) as [->|Hab].
  - right. split; [done|]. rewrite Ascii.eqb_refl in Hs. apply IH; [congruence|done].
  - left. assert (byte_val a ≠ byte_val b) by (intros ?%byte_val_inj; done). lia.
Qed.

Abbreviation btree V := (list (string * V)).

Fixpoint bt_get {V} (k : string) (m : btree V) : option V :=
  match m with
  | [] => None
  | (k', v) :: m' => if String.eqb k k' then Some v else bt_get k m'
  end.

Fixpoint bt_insert {V} (k : string) (v : V) (m : btree V) : btree V :=
  match m with
  | [] => [(k, v)]
  | (k', v') :: m' =>
      if String.eqb k k' then (k, v) :: m'
      else if slt k k' then (k, v) :: m
      else (k', v') :: bt_insert k v m'
  end.

(** [FromIterator]: later pairs win. *)
Definition bt_of_list {V} (l : list (string * V)) : btree V :=
  foldl (λ m '(k, v), bt_insert k v m) [] l.

Definition bt_above {V} (k : string) (m : btree V) : bool := forallb (λ p, slt k p.1) m.

Fixpoint bt_sorted {V} (m : btree V) : bool :=
  match m with
  | [] => true
  | (k, _) :: m' => bt_above k m' && bt_sorted m'
  end.

Section BTreeFacts.
Context {V : Type}.
Implicit Types (m : btree V) (k : string) (v : V).

Lemma bt_above_trans k k' m : slt k k' = true → bt_above k' m = true → bt_above k m = true.
Proof.
  unfold bt_above. rewrite !forallb_forall. intros H Hm p Hp. eauto using slt_trans.
Qed.

Lemma bt_insert_above k0 k v m :
  slt k0 k = true → bt_above k0 m = true → bt_above k0 (bt_insert k v m) = true.
Proof.
  intros Hk. induction m as [|[k' v'] m IH]; simpl; [by rewrite Hk|].
  intros [Hk' Hm]%andb_true_iff. destruct (String.eqb k k'); simpl; [by rewrite Hk, Hm|].
  destruct (slt k k'); simpl; [by rewrite Hk, Hk', Hm|]. by rewrite Hk', IH.
Qed.

Lemma bt_insert_sorted k v m : bt_sorted m = true → bt_sorted (bt_insert k v m) = true.
Proof.
  induction m as [|[k' v'] m IH]; [done|]. simpl. intros [Ha Hs]%andb_true_iff.
  destruct (String.eqb_spec k k') as [->|Hne]; simpl; [by rewrite Ha, Hs|].
  destruct (slt k k') eqn:E; simpl.
  - rewrite E, Ha, Hs. simpl. by rewrite (bt_above_trans k k').
  - rewrite IH, andb_true_r by done. apply bt_insert_above; [|done]. by apply slt_total.
Qed.

Lemma bt_get_insert k k' v m :
  bt_get k' (bt_insert k v m) = if String.eqb k' k then Some v else bt_get k' m.
Proof.
  induction m as [|[k0 v0] m IH]; simpl.
  - by destruct (String.eqb k' k).
  - destruct (String.eqb_spec k k0) as [->|Hne]; simpl.
    + by destruct (String.eqb k' k0).
    + destruct (slt k k0); simpl; [done|]. rewrite IH.
      destruct (String.eqb_spec k' k0) as [->|]; [|done].
      destruct (String.eqb_spec k0 k); congruence.
Qed.

(** Inserting a key above all others appends it. *)
Lemma bt_insert_last k v m :
  forallb (λ p, slt p.1 k) m = true → bt_insert k v m = m ++ [(k, v)].
Proof.
  induction m as [|[k' v'] m IH]; [done|]. simpl. intros [Hk Hm]%andb_true_iff.
  destruct (String.eqb_spec k k') as [->|_]; [by rewrite slt_irrefl in Hk|].
  destruct (slt k k') eqn:E; [|by rewrite IH].
  pose proof (slt_trans _ _ _ Hk E). by rewrite slt_irrefl in *.
Qed.

Lemma bt_get_above k m : bt_above k m = true → bt_get k m = None.
Proof.
  induction m as [|[k' v'] m IH]; [done|]. simpl. intros [Hk Hm]%andb_true_iff.
  destruct (String.eqb_spec k k') as [->|_]; [by rewrite slt_irrefl in Hk|auto].
Qed.

Lemma bt_get_In k v m : bt_get k m = Some v → (k, v) ∈ m.
Proof.
  induction m as [|[k' v'] m IH]; [done|]. simpl.
  destruct (String.eqb_spec k k') as [->|_]; [intros [= ->]; left|right; auto].
Qed.

Lemma bt_of_list_sorted (l : list (string * V)) : bt_sorted (bt_of_list l) = true.
Proof.
  unfold bt_of_list. assert (bt_sorted ([] : btree V) = true) as H by done. revert H.
  generalize ([] : btree V). induction l as [|[k v] l IH]; intros m Hm; simpl; [done|].
  by apply IH, bt_insert_sorted.
Qed.

Lemma bt_get_of_list_snoc k k' v (l : list (string * V)) :
  bt_get k' (bt_of_list (l ++ [(k, v)])) =
  if String.eqb k' k then Some v else bt_get k' (bt_of_list l).
Proof. unfold bt_of_list. rewrite foldl_app. simpl. apply bt_get_insert. Qed.

Lemma bt_insert_in (k : string) (v : V) (m : btree V) p : p ∈ bt_insert k v m → p = (k, v) ∨ p ∈ m.
Proof.
  induction m as [|[k' v'] m IH]; cbn; [by rewrite list_elem_of_singleton; left|].
  destruct (String.eqb k k'); [rewrite !elem_of_cons; naive_solver|].
  destruct (slt k k'); [rewrite !elem_of_cons; naive_solver|]. rewrite !elem_of_cons. naive_solver.
Qed.

Lemma inserts_in l (m : btree V) p : p ∈ foldl (λ m '(k, v), bt_insert k v m) m l → p ∈ m ∨ p ∈ l.
Proof.
  revert m. induction l as [|[k v] l IH]; intros m H; [by left|]. cbn in H.
  apply IH in H as [[->|H]%bt_insert_in|H]; rewrite elem_of_cons; auto.
Qed.

Lemma bt_of_list_in (l : list (string * V)) p : p ∈ bt_of_list l → p ∈ l.
Proof. intros [H|H]%inserts_in; [by apply elem_of_nil in H|done]. Qed.
End BTreeFacts.

#[export] Hint Resolve bt_insert_sorted bt_of_list_sorted : calcar.
