(* ===== verification/F64.v ===== *)
(** * F64: the [f64] of the JSON layer

    Rust's [f64] as the Standard Library's [spec_float] at 53 bits of
    precision, with [str::parse::<f64>] (correctly rounded, exponents
    saturating as the library's scanner does) and the shortest digits that
    [{:?}] prints.  Only what [json.rs] uses is here. *)

From S2P Require Import Prelude Text.
From Stdlib Require Import Ascii SpecFloat.

Definition f64 : Type := spec_float.

#[export] Instance f64_eq_dec : EqDecision f64.
Proof. solve_decision. Defined.

(** [f64::is_finite] *)
Definition is_finite (f : f64) : bool :=
  match f with S754_zero _ | S754_finite _ _ _ => true | _ => false end.

(** The [f64] nearest to [±m * 10^e], ties to even. *)
Definition f64_of_decimal (neg : bool) (m e : Z) : f64 :=
  match m with
  | Z.pos p =>
      if (0 <=? e)%Z then
        match (Z.pos p * 10 ^ e)%Z with
        | Z.pos q => binary_round 53 1024 neg q 0
        | _ => S754_zero neg
        end
      else
        match (10 ^ (- e))%Z with
        | Z.pos q => SFdiv 53 1024 (S754_finite neg p 0) (S754_finite false q 0)
        | _ => S754_zero neg
        end
  | _ => S754_zero neg
  end.

(** ** Parsing *)

(** The longest prefix of decimal digits, and the rest. *)
Fixpoint span_digits (s : string) : string * string :=
  match s with
  | "" => ("", "")
  | String b s' =>
      if is_digit b then let '(d, r) := span_digits s' in (String b d, r) else ("", s)
  end.

(** An exponent's digits, saturating: accumulation stops at 0x10000. *)
Fixpoint exponent_digits (acc : Z) (s : string) : Z :=
  match s with
  | "" => acc
  | String b s' =>
      let acc' := if (acc <? 0x10000)%Z then (10 * acc + (byte_val b - 0x30))%Z else acc in
      exponent_digits acc' s'
  end.

Definition parse_exponent (s : string) : option Z :=
  let '(neg, s1) :=
    match s with
    | String b r => if Ascii.eqb b "-" then (true, r) else if Ascii.eqb b "+" then (false, r) else (false, s)
    | "" => (false, s)
    end in
  let '(ds, rest) := span_digits s1 in
  if String.eqb ds "" || negb (String.eqb rest "") then None
  else let e := exponent_digits 0 ds in Some (if neg : bool then (- e)%Z else e).

(** [str::parse::<f64>].  The words [inf], [infinity] and [nan] are left out:
    the JSON scanner only passes digits, signs, [.], [e] and [E]. *)
Definition parse_f64 (s : string) : option f64 :=
  let '(neg, s1) :=
    match s with
    | String b r => if Ascii.eqb b "-" then (true, r) else if Ascii.eqb b "+" then (false, r) else (false, s)
    | "" => (false, s)
    end in
  let '(ints, s2) := span_digits s1 in
  let '(fracs, s3) :=
    match s2 with
    | String b r => if Ascii.eqb b "." then span_digits r else ("", s2)
    | "" => ("", s2)
    end in
  if String.eqb (ints +:+ fracs) "" then None
  else
    let mantissa := default 0%Z (parse_digits 10 0 (ints +:+ fracs)) in
    let shift := Z.of_nat (String.length fracs) in
    match s3 with
    | "" => Some (f64_of_decimal neg mantissa (- shift))
    | String b r =>
        if Ascii.eqb b "e" || Ascii.eqb b "E" then
          match parse_exponent r with
          | Some e => Some (f64_of_decimal neg mantissa (e - shift))
          | None => None
          end
        else None
    end.

(** ** Printing *)

(** [num / den < 10^k] *)
Definition below_pow10 (num den k : Z) : bool :=
  if (0 <=? k)%Z then (num <? den * 10 ^ k)%Z else (num * 10 ^ (- k) <? den)%Z.

(** The least [k] with [num / den < 10^k], from an upper estimate. *)
Fixpoint least_pow10 (fuel : nat) (num den k : Z) : Z :=
  match fuel with
  | 0 => k
  | S fuel' => if below_pow10 num den (k - 1) then least_pow10 fuel' num den (k - 1) else k
  end.

(** The closest of the [n]-digit decimals next to [num / den < 10^k] that
    round to [f], as digits and exponent. *)
Definition digits_at (f : f64) (num den k : Z) (n : nat) : option (Z * Z) :=
  let x := (Z.of_nat n - k)%Z in
  let '(a, b) := if (0 <=? x)%Z then ((num * 10 ^ x)%Z, den) else (num, (den * 10 ^ (- x))%Z) in
  let d := (a `div` b)%Z in
  let lo := bool_decide (f64_of_decimal false d (- x) = f) in
  let hi := bool_decide (f64_of_decimal false (d + 1) (- x) = f) in
  if lo && hi then Some (if ((2 * d + 1) * b <=? 2 * a)%Z then (d + 1)%Z else d, (- x)%Z)
  else if lo then Some (d, (- x)%Z)
  else if hi then Some ((d + 1)%Z, (- x)%Z)
  else None.

Fixpoint first_some {A} (l : list (option A)) : option A :=
  match l with [] => None | Some a :: _ => Some a | None :: l' => first_some l' end.

Fixpoint strip_zeros (fuel : nat) (d e : Z) : Z * Z :=
  match fuel with
  | 0 => (d, e)
  | S fuel' =>
      if (d `mod` 10 =? 0)%Z && (10 <=? d)%Z then strip_zeros fuel' (d `div` 10)%Z (e + 1)%Z
      else (d, e)
  end.

(** The shortest decimal that rounds to the positive [m * 2^e]; 17 digits are
    enough for any [f64]. *)
Definition shortest (m : positive) (e : Z) : Z * Z :=
  let num := if (0 <=? e)%Z then (Z.pos m * 2 ^ e)%Z else Z.pos m in
  let den := if (0 <=? e)%Z then 1%Z else (2 ^ (- e))%Z in
  let top := (((Z.log2 (Z.pos m) + e + 1) * 30103) `div` 100000 + 2)%Z in
  let k := least_pow10 4 num den top in
  match first_some (digits_at (S754_finite false m e) num den k <$> seq 1 17) with
  | Some (d, x) => strip_zeros 17 d x
  | None => (0, 0)%Z
  end.

Definition zeros (n : Z) : string := sconcat (replicate (Z.to_nat n) "0").

(** [{:?}] of a positive decimal [d * 10^x]: plain from [1e-4] up to [1e16],
    exponential outside. *)
Definition show_decimal (d x : Z) : string :=
  let ds := dec d in
  let len := Z.of_nat (String.length ds) in
  let p := (len + x)%Z in
  if (p <=? -4)%Z || (17 <=? p)%Z then
    match ds with
    | String c "" => bstr c +:+ "e" +:+ dec (p - 1)
    | String c r => bstr c +:+ "." +:+ r +:+ "e" +:+ dec (p - 1)
    | "" => ""
    end
  else if (p <=? 0)%Z then "0." +:+ zeros (- p) +:+ ds
  else if (len <=? p)%Z then ds +:+ zeros (p - len) +:+ ".0"
  else String.substring 0 (Z.to_nat p) ds +:+ "." +:+
       String.substring (Z.to_nat p) (String.length ds) ds.

(** [format!("{f:?}")] *)
Definition f64_debug (f : f64) : string :=
  let sign (neg : bool) := if neg then "-" else "" in
  match f with
  | S754_zero neg => sign neg +:+ "0.0"
  | S754_finite neg m e => let '(d, x) := shortest m e in sign neg +:+ show_decimal d x
  | S754_infinity neg => sign neg +:+ "inf"
  | S754_nan => "NaN"
  end.

Example f64_print_parse :
  (f64_debug <$> parse_f64 "0.1", f64_debug <$> parse_f64 "-1e16", f64_debug <$> parse_f64 "5e-324",
   f64_debug <$> parse_f64 "1.7976931348623157e308", f64_debug <$> parse_f64 "123456.75",
   f64_debug <$> parse_f64 "9999999999999999999") =
  (Some "0.1", Some "-1e16", Some "5e-324", Some "1.7976931348623157e308", Some "123456.75",
   Some "1e19").
Proof. vm_compute. reflexivity. Qed.

Example f64_parse_errors :
  parse_f64 "1e" = None ∧ parse_f64 "-.5e1" = parse_f64 "-5" ∧ parse_f64 "." = None ∧
  parse_f64 "1." = parse_f64 "1" ∧ parse_f64 "1e400" = Some (S754_infinity false).
Proof. vm_compute. split_and!; reflexivity. Qed.
