(* ===== verification/Json.v ===== *)
(** * Json: [calcar-connect/src/json.rs]

    The value model, its renderer, and the recursive-descent parser.  The
    parser's state is the suffix of the text it has not read; its loops take
    fuel, and [JsonFacts] shows that what [parse] gives is always enough. *)

From S2P Require Import Prelude Text BTree F64.
From Stdlib Require Import Ascii.

#[local] Set Warnings "-register-all".

Inductive Value :=
| Null
| Bool (b : bool)
| Int (n : Z)
| Float (f : f64)
| Str (s : string)
| Arr (items : list Value)
| Obj (fields : btree Value).

(** ** Typed getters *)

Definition get_field (key : string) (v : Value) : option Value :=
  match v with Obj m => bt_get key m | _ => None end.

Definition str_field (v : Value) (key : string) : option string :=
  match get_field key v with Some (Str s) => Some s | _ => None end.

Definition bool_field (v : Value) (key : string) : option bool :=
  match get_field key v with Some (Bool b) => Some b | _ => None end.

Definition int_field (v : Value) (key : string) : option Z :=
  match get_field key v with Some (Int n) => Some n | _ => None end.

(** [obj] *)
Definition obj (pairs : list (string * Value)) : Value := Obj (bt_of_list pairs).

(** ** Rendering *)

Definition hex_digit (d : Z) : ascii := if (d <? 10)%Z then digit_char d else byte_of (0x61 + d - 10).

(** [format!("{:04x}")] of a code below 0x10000 *)
Definition fmt_04x (n : Z) : string :=
  String (hex_digit (n `div` 4096)) (String (hex_digit ((n `div` 256) `mod` 16))
    (String (hex_digit ((n `div` 16) `mod` 16)) (bstr (hex_digit (n `mod` 16))))).

Definition escape (c : ascii) : string := String BACKSLASH (bstr c).

(** One character of [write_string] *)
Definition write_char (ch : string) : string :=
  match ch with
  | String b "" =>
      if Ascii.eqb b DQUOTE then escape DQUOTE
      else if Ascii.eqb b BACKSLASH then escape BACKSLASH
      else if Ascii.eqb b LF then escape "n"
      else if Ascii.eqb b CR then escape "r"
      else if Ascii.eqb b TAB then escape "t"
      else if (byte_val b <? 0x20)%Z then escape "u" +:+ fmt_04x (byte_val b)
      else ch
  | _ => ch
  end.

Definition write_string (text : string) : string :=
  dquote +:+ sconcat (write_char <$> chars text) +:+ dquote.

(** [write_value] and [render].  Items and fields are separated by commas. *)
Fixpoint render (v : Value) : string :=
  match v with
  | Null => "null"
  | Bool true => "true"
  | Bool false => "false"
  | Int n => dec n
  | Float f => if is_finite f then f64_debug f else "null"
  | Str text => write_string text
  | Arr items => "[" +:+ join "," (render <$> items) +:+ "]"
  | Obj m =>
      "{" +:+ join "," ((λ '(key, item), write_string key +:+ ":" +:+ render item) <$> m) +:+ "}"
  end.

(** ** Parsing

    [Malformed] is the one error of the code; [OutOfFuel] marks a loop cut
    short by the model, which never happens in [parse]. *)
Inductive ParseError := Malformed | OutOfFuel.

#[export] Instance ParseError_eq_dec : EqDecision ParseError.
Proof. solve_decision. Defined.

Definition MAX_DEPTH : nat := 64.

Definition Parser (A : Type) : Type := ST string ParseError A.

Fixpoint drop_ws (s : string) : string :=
  match s with
  | "" => ""
  | String b s' => if is_ascii_whitespace b then drop_ws s' else s
  end.
Definition skip_ws : Parser unit := λ s, (Ok tt, drop_ws s).

Definition peek : Parser (option ascii) := λ s,
  (Ok (match s with String b _ => Some b | "" => None end), s).

(** [self.pos += 1] *)
Definition advance : Parser unit := λ s, (Ok tt, match s with String _ s' => s' | "" => "" end).

(** [self.peek().ok_or(Malformed)?] *)
Definition need : Parser ascii :=
  let* c := peek in
  match c with Some b => st_ret b | None => st_throw Malformed end.

Definition lit (word : string) : Parser unit := λ s,
  match strip_prefix word s with
  | Some s' => (Ok tt, s')
  | None => (Err Malformed, s)
  end.

(** [char::from_u32], as the character's UTF-8 bytes *)
Definition char_from_u32 (code : Z) : option string :=
  if in_range 0xD800 0xDFFF code || (0x10FFFF <? code)%Z then None
  else if (code <? 0x80)%Z then Some (utf8_char [code])
  else if (code <? 0x800)%Z then
    Some (utf8_char [0xC0 + code `div` 64; 0x80 + code `mod` 64])%Z
  else if (code <? 0x10000)%Z then
    Some (utf8_char [0xE0 + code `div` 4096; 0x80 + (code `div` 64) `mod` 64; 0x80 + code `mod` 64])%Z
  else
    Some (utf8_char [0xF0 + code `div` 262144; 0x80 + (code `div` 4096) `mod` 64;
                     0x80 + (code `div` 64) `mod` 64; 0x80 + code `mod` 64])%Z.

(** [hex4]: four bytes that [u32::from_str_radix] takes, a leading plus sign
    included. *)
Definition hex4 : Parser Z := λ s,
  match s with
  | String a (String b (String c (String d rest))) =>
      let digits := String a (String b (String c (bstr d))) in
      if utf8_valid digits then
        match from_str_radix false 0 u32_max 16 digits with
        | Some code => (Ok code, rest)
        | None => (Err Malformed, s)
        end
      else (Err Malformed, s)
  | _ => (Err Malformed, s)
  end.

(** The plain character at the position: the rest of the text is decoded and
    its first character taken. *)
Definition next_char : Parser string := λ s,
  if utf8_valid s then
    match take_char s with
    | Some (ch, rest) => (Ok ch, rest)
    | None => (Err Malformed, s)
    end
  else (Err Malformed, s).

(** The character an escape stands for, the position after the backslash. *)
Definition escaped : Parser string :=
  let* esc := need in
  let* _ := advance in
  if Ascii.eqb esc DQUOTE then st_ret dquote
  else if Ascii.eqb esc BACKSLASH then st_ret (bstr BACKSLASH)
  else if Ascii.eqb esc "/" then st_ret "/"
  else if Ascii.eqb esc "b" then st_ret (bstr (byte_of 0x08))
  else if Ascii.eqb esc "f" then st_ret (bstr (byte_of 0x0C))
  else if Ascii.eqb esc "n" then st_ret newline
  else if Ascii.eqb esc "r" then st_ret (bstr CR)
  else if Ascii.eqb esc "t" then st_ret (bstr TAB)
  else if Ascii.eqb esc "u" then
    let* code := hex4 in
    match char_from_u32 code with
    | Some ch => st_ret ch
    | None => st_throw Malformed
    end
  else st_throw Malformed.

Fixpoint string_loop (fuel : nat) (out : string) : Parser string :=
  match fuel with
  | 0 => st_throw OutOfFuel
  | S fuel' =>
      let* byte := need in
      if Ascii.eqb byte DQUOTE then
        let* _ := advance in st_ret out
      else if Ascii.eqb byte BACKSLASH then
        let* _ := advance in
        let* ch := escaped in
        string_loop fuel' (out +:+ ch)
      else if (byte_val byte <=? 0x1F)%Z then st_throw Malformed
      else
        let* ch := next_char in
        string_loop fuel' (out +:+ ch)
  end.

(** [Parser::string]: at an opening quote. *)
Definition string_lit : Parser string :=
  let* _ := advance in
  λ s, string_loop (S (String.length s)) "" s.

(** The parts of a number: an optional minus sign, an optional fraction, an
    optional exponent; the last two say whether they were there. *)
Definition scan_sign (s : string) : string * string :=
  match s with
  | String b r => if Ascii.eqb b "-" then ("-", r) else ("", s)
  | "" => ("", s)
  end.

Definition scan_fraction (s : string) : string * bool * string :=
  match s with
  | String b r =>
      if Ascii.eqb b "." then let '(d, r') := span_digits r in (String b d, true, r')
      else ("", false, s)
  | "" => ("", false, s)
  end.

Definition scan_plus_minus (s : string) : string * string :=
  match s with
  | String c r => if Ascii.eqb c "+" || Ascii.eqb c "-" then (bstr c, r) else ("", s)
  | "" => ("", s)
  end.

Definition scan_exponent (s : string) : string * bool * string :=
  match s with
  | String b r =>
      if Ascii.eqb b "e" || Ascii.eqb b "E" then
        let '(sg, r1) := scan_plus_minus r in
        let '(d, r2) := span_digits r1 in (String b (sg +:+ d), true, r2)
      else ("", false, s)
  | "" => ("", false, s)
  end.

(** The text of a number, whether it is a float, and the rest. *)
Definition scan_number (s : string) : string * bool * string :=
  let '(sign, s1) := scan_sign s in
  let '(ints, s2) := span_digits s1 in
  let '(frac, dot, s3) := scan_fraction s2 in
  let '(exp, ex, s4) := scan_exponent s3 in
  (sign +:+ ints +:+ frac +:+ exp, dot || ex, s4).

Definition float_of (text : string) : result Value ParseError :=
  match parse_f64 text with Some f => Ok (Float f) | None => Err Malformed end.

Definition number_value (text : string) (is_float : bool) : result Value ParseError :=
  if String.eqb text "" || String.eqb text "-" then Err Malformed
  else if is_float then float_of text
  else match parse_i64 text with Some n => Ok (Int n) | None => float_of text end.

Definition number : Parser Value := λ s,
  let '(text, is_float, rest) := scan_number s in
  (number_value text is_float, rest).

(** [object] and [array] up to their loops *)
Definition object (members : btree Value → Parser Value) : Parser Value :=
  let* _ := advance in
  let* _ := skip_ws in
  let* c := peek in
  if bool_decide (c = Some "}"%char) then
    let* _ := advance in st_ret (Obj [])
  else members [].

Definition array (elements : list Value → Parser Value) : Parser Value :=
  let* _ := advance in
  let* _ := skip_ws in
  let* c := peek in
  if bool_decide (c = Some "]"%char) then
    let* _ := advance in st_ret (Arr [])
  else elements [].

Fixpoint value (fuel depth : nat) {struct fuel} : Parser Value :=
  match fuel with
  | 0 => st_throw OutOfFuel
  | S fuel' =>
      if bool_decide (MAX_DEPTH < depth) then st_throw Malformed
      else
        let* c := need in
        if Ascii.eqb c "{" then object (members fuel' depth)
        else if Ascii.eqb c "[" then array (elements fuel' depth)
        else if Ascii.eqb c DQUOTE then let* s := string_lit in st_ret (Str s)
        else if Ascii.eqb c "t" then let* _ := lit "true" in st_ret (Bool true)
        else if Ascii.eqb c "f" then let* _ := lit "false" in st_ret (Bool false)
        else if Ascii.eqb c "n" then let* _ := lit "null" in st_ret Null
        else if Ascii.eqb c "-" || is_digit c then number
        else st_throw Malformed
  end
with members (fuel depth : nat) (map : btree Value) {struct fuel} : Parser Value :=
  match fuel with
  | 0 => st_throw OutOfFuel
  | S fuel' =>
      let* _ := skip_ws in
      let* c := peek in
      if negb (bool_decide (c = Some DQUOTE)) then st_throw Malformed
      else
        let* key := string_lit in
        let* _ := skip_ws in
        let* c := peek in
        if negb (bool_decide (c = Some ":"%char)) then st_throw Malformed
        else
          let* _ := advance in
          let* _ := skip_ws in
          let* item := value fuel' (S depth) in
          let map := bt_insert key item map in
          let* _ := skip_ws in
          let* c := need in
          if Ascii.eqb c "," then let* _ := advance in members fuel' depth map
          else if Ascii.eqb c "}" then let* _ := advance in st_ret (Obj map)
          else st_throw Malformed
  end
with elements (fuel depth : nat) (items : list Value) {struct fuel} : Parser Value :=
  match fuel with
  | 0 => st_throw OutOfFuel
  | S fuel' =>
      let* _ := skip_ws in
      let* item := value fuel' (S depth) in
      let items := items ++ [item] in
      let* _ := skip_ws in
      let* c := need in
      if Ascii.eqb c "," then let* _ := advance in elements fuel' depth items
      else if Ascii.eqb c "]" then let* _ := advance in st_ret (Arr items)
      else st_throw Malformed
  end.

Definition parse_doc (fuel : nat) : Parser Value :=
  let* _ := skip_ws in
  let* v := value fuel 0 in
  let* _ := skip_ws in
  λ s, if String.eqb s "" then (Ok v, s) else (Err Malformed, s).

Definition parse (text : string) : result Value ParseError :=
  (parse_doc (2 * String.length text + 2) text).1.

Example parse_sample :
  parse ("{" +:+ dquote +:+ "a" +:+ dquote +:+ ": [1, -2.5, true, null, " +:+ dquote +:+
         "x\n\u0041" +:+ dquote +:+ "] }") =
  Ok (Obj [("a", Arr [Int 1; Float (f64_of_decimal true 25 (-1)); Bool true; Null;
                      Str ("x" +:+ newline +:+ "A")])]).
Proof. vm_compute. reflexivity. Qed.
