(* ===== verification/JsonFacts.v ===== *)
(** * JsonFacts: correctness of the JSON layer

    The parser always answers, what it accepts is a well-formed value within
    the depth cap, and rendering a value and parsing it back is the identity
    up to that cap. *)

From S2P Require Import Prelude Text BTree F64 Json.
From Stdlib Require Import Ascii.

(** ** Values *)

(** Induction through the lists of a value. *)
Section ValueInd.
Context (P : Value → Prop).
Context (HNull : P Null) (HBool : ∀ b, P (Bool b)) (HInt : ∀ n, P (Int n)).
Context (HFloat : ∀ f, P (Float f)) (HStr : ∀ s, P (Str s)).
Context (HArr : ∀ items, Forall P items → P (Arr items)).
Context (HObj : ∀ m : btree Value, Forall (λ p, P p.2) m → P (Obj m)).

Fixpoint value_nested_ind (v : Value) : P v :=
  match v with
  | Null => HNull
  | Bool b => HBool b
  | Int n => HInt n
  | Float f => HFloat f
  | Str s => HStr s
  | Arr items =>
      HArr items ((fix go (l : list Value) : Forall P l :=
        match l with
        | [] => Forall_nil_2 P
        | x :: l' => Forall_cons_2 P x l' (value_nested_ind x) (go l')
        end) items)
  | Obj m =>
      HObj m ((fix go (l : btree Value) : Forall (λ p, P p.2) l :=
        match l with
        | [] => Forall_nil_2 _
        | p :: l' => Forall_cons_2 (λ p, P p.2) p l' (let '(k, x) := p in value_nested_ind x) (go l')
        end) m)
  end.
End ValueInd.

(** A value the Rust type can hold: integers in range, strings and keys in
    UTF-8, keys in order without repetition. *)
Fixpoint value_wf (v : Value) : bool :=
  match v with
  | Int n => in_i64b n
  | Str s => utf8_valid s
  | Arr items => forallb value_wf items
  | Obj m => bt_sorted m && forallb (λ '(k, x), utf8_valid k && value_wf x) m
  | _ => true
  end.

(** How deep the containers of a value nest above its innermost item. *)
Fixpoint height (v : Value) : nat :=
  match v with
  | Arr items => foldr (λ x n, max (S (height x)) n) 0 items
  | Obj m => foldr (λ '(_, x) n, max (S (height x)) n) 0 m
  | _ => 0
  end.

Lemma height_arr_app items1 items2 :
  height (Arr (items1 ++ items2)) = max (height (Arr items1)) (height (Arr items2)).
Proof. induction items1 as [|x l IH]; simpl in *; [done|]. rewrite IH. lia. Qed.

Lemma height_obj_insert k x (m : btree Value) :
  height (Obj (bt_insert k x m)) ≤ max (S (height x)) (height (Obj m)).
Proof.
  simpl. induction m as [|[k' x'] m IH]; simpl; [lia|].
  destruct (String.eqb k k'); simpl; [lia|]. destruct (slt k k'); simpl; lia.
Qed.

Definition field_wf : string * Value → bool := λ '(k, x), utf8_valid k && value_wf x.

Lemma value_wf_obj m : value_wf (Obj m) = bt_sorted m && forallb field_wf m.
Proof. done. Qed.

Lemma value_wf_insert k x (m : btree Value) :
  utf8_valid k = true → value_wf x = true → value_wf (Obj m) = true →
  value_wf (Obj (bt_insert k x m)) = true.
Proof.
  rewrite !value_wf_obj. intros Hk Hx [Hs Hm]%andb_true_iff.
  rewrite bt_insert_sorted by done. simpl. clear Hs.
  induction m as [|[k' x'] m IH]; simpl in *; [by rewrite Hk, Hx|].
  apply andb_true_iff in Hm as [Hx' Hm].
  destruct (String.eqb k k'); simpl; [by rewrite Hk, Hx, Hm|].
  destruct (slt k k'); simpl; [by rewrite Hk, Hx, Hx', Hm|]. by rewrite Hx', IH.
Qed.

(** ** The parser always answers

    [parsed Q n r s]: an answer that satisfies [Q] and leaves less than [n]
    bytes, or the error of the code. *)
Definition parsed {A} (Q : A → Prop) (n : nat) (r : result A ParseError) (s : string) : Prop :=
  match r with Ok a => Q a ∧ String.length s < n | Err e => e = Malformed end.

Lemma drop_ws_length s : String.length (drop_ws s) ≤ String.length s.
Proof. induction s as [|b s IH]; simpl; [done|]. destruct (is_ascii_whitespace b); simpl; lia. Qed.

Lemma wp_skip_ws (Q : result unit ParseError → string → Prop) s :
  (∀ s', String.length s' ≤ String.length s → Q (Ok tt) s') → wp skip_ws Q s.
Proof. intros H. apply H, drop_ws_length. Qed.

Lemma wp_peek (Q : result (option ascii) ParseError → string → Prop) s :
  (s = "" → Q (Ok None) "") → (∀ b s', s = String b s' → Q (Ok (Some b)) s) → wp peek Q s.
Proof. unfold wp, peek. destruct s; eauto. Qed.

Lemma wp_need (Q : result ascii ParseError → string → Prop) s :
  Q (Err Malformed) "" → (∀ b s', s = String b s' → Q (Ok b) s) → wp need Q s.
Proof.
  intros H1 H2. apply wp_bind, wp_peek; [intros _; by apply wp_throw|].
  intros b s' ->. apply wp_ret. eauto.
Qed.

Lemma wp_advance (Q : result unit ParseError → string → Prop) b s :
  Q (Ok tt) s → wp advance Q (String b s).
Proof. done. Qed.

Lemma wp_lit (Q : result unit ParseError → string → Prop) word s :
  Q (Err Malformed) s →
  (∀ s', String.length word + String.length s' = String.length s → Q (Ok tt) s') →
  wp (lit word) Q s.
Proof.
  intros H1 H2. unfold wp, lit. destruct (strip_prefix word s) as [s'|] eqn:E; [|done].
  apply H2. apply strip_prefix_Some in E. subst. by rewrite sapp_length.
Qed.

Lemma span_digits_app s d r : span_digits s = (d, r) → s = d +:+ r ∧ all_digits d = true.
Proof.
  revert d r. induction s as [|b s IH]; intros d r; simpl; [by intros [= <- <-]|].
  destruct (is_digit b) eqn:Hb; [|by intros [= <- <-]].
  destruct (span_digits s) as [d' r'] eqn:E. intros [= <- <-].
  destruct (IH d' r') as [-> Hd]; [done|]. split; [done|]. simpl. by rewrite Hb.
Qed.


(** ** Characters *)

Lemma in_range_true lo hi z : (lo ≤ z ≤ hi)%Z → in_range lo hi z = true.
Proof. unfold in_range. lia. Qed.
Lemma in_range_false lo hi z : (z < lo ∨ hi < z)%Z → in_range lo hi z = false.
Proof. unfold in_range. lia. Qed.

Ltac decide_ranges :=
  repeat first
    [ rewrite in_range_true by lia | rewrite in_range_false by lia
    | rewrite byte_val_of by lia ]; cbn [urun].

Lemma char_from_u32_char code ch :
  (0 ≤ code)%Z → char_from_u32 code = Some ch → utf8_valid ch = true.
Proof.
  intros H0. unfold char_from_u32.
  destruct (in_range 0xD800 0xDFFF code || (0x10FFFF <? code)%Z) eqn:E; [done|].
  assert ((code < 0xD800 ∨ 0xDFFF < code) ∧ code ≤ 0x10FFFF)%Z as [Hs Hm].
  { unfold in_range in E. lia. }
  pose proof (Z.div_mod code 64 ltac:(done)). pose proof (Z.mod_pos_bound code 64 ltac:(done)).
  pose proof (Z.div_mod (code `div` 64) 64 ltac:(done)) as H2.
  pose proof (Z.mod_pos_bound (code `div` 64) 64 ltac:(done)).
  pose proof (Z.div_mod (code `div` 4096) 64 ltac:(done)) as H4.
  pose proof (Z.mod_pos_bound (code `div` 4096) 64 ltac:(done)).
  assert ((code `div` 64) `div` 64 = code `div` 4096)%Z as E2 by (rewrite Z.div_div; done).
  assert ((code `div` 4096) `div` 64 = code `div` 262144)%Z as E3 by (rewrite Z.div_div; done).
  rewrite E2 in H2. rewrite E3 in H4.
  set (q := (code `div` 64)%Z) in *. set (r := (code `mod` 64)%Z) in *.
  set (q2 := (code `div` 4096)%Z) in *. set (r2 := (q `mod` 64)%Z) in *.
  set (q3 := (code `div` 262144)%Z) in *. set (r3 := (q2 `mod` 64)%Z) in *.
  rewrite utf8_valid_iff.
  repeat case_match; intros [= <-]; cbn [utf8_char foldr urun]; unfold ustep.
  - decide_ranges. done.
  - decide_ranges. done.
  - destruct (decide (q2 = 0)%Z) as [?|?]; [|destruct (decide (q2 = 13)%Z) as [?|?]];
      decide_ranges; done.
  - destruct (decide (q3 = 0)%Z) as [?|?]; [|destruct (decide (q3 = 4)%Z) as [?|?]];
      decide_ranges; done.
Qed.

Lemma wp_hex4 (Q : result Z ParseError → string → Prop) s :
  Q (Err Malformed) s →
  (∀ code s', (0 ≤ code)%Z → String.length s' < String.length s → Q (Ok code) s') →
  wp hex4 Q s.
Proof.
  intros H1 H2. unfold wp, hex4. do 4 (destruct s as [|? s]; [done|]).
  destruct (utf8_valid _); [|done].
  destruct (from_str_radix _ _ _ _ _) as [code|] eqn:E; [|done].
  apply from_str_radix_bounds in E. apply H2; simpl; lia.
Qed.

Lemma wp_next_char (Q : result string ParseError → string → Prop) s :
  Q (Err Malformed) s →
  (∀ ch s', utf8_valid ch = true → String.length s' < String.length s → Q (Ok ch) s') →
  wp next_char Q s.
Proof.
  intros H1 H2. unfold wp, next_char. destruct (utf8_valid s) eqn:Hv; [|done].
  destruct (take_char s) as [[ch rest]|] eqn:E; [|done].
  assert (s ≠ "") as Hn by (by intros ->).
  destruct (take_char_nonempty s Hv Hn) as (c & s' & E' & Hs & Hcn & Hc & _).
  rewrite E in E'. injection E' as -> ->. apply H2; [done|]. rewrite Hs, sapp_length.
  destruct c; [done|]. simpl. lia.
Qed.

Lemma char_valid_escapes :
  Forall (λ ch, utf8_valid ch = true)
    [dquote; bstr BACKSLASH; "/"; bstr (byte_of 0x08); bstr (byte_of 0x0C); newline; bstr CR; bstr TAB].
Proof. repeat constructor. Qed.

Lemma wp_escaped (Q : result string ParseError → string → Prop) s :
  (∀ s', Q (Err Malformed) s') →
  (∀ ch s', utf8_valid ch = true → String.length s' < String.length s → Q (Ok ch) s') →
  wp escaped Q s.
Proof.
  intros H1 H2. pose proof char_valid_escapes as Hesc. rewrite !Forall_cons in Hesc.
  destruct_and!. apply wp_bind, wp_need; [done|]. intros b s' ->.
  apply wp_bind, wp_advance.
  do 8 (match goal with |- wp (if ?c then _ else _) _ _ => destruct c end;
        [apply wp_ret, H2; [done|simpl; lia]|]).
  destruct (Ascii.eqb b "u"); [|by apply wp_throw].
  apply wp_bind, wp_hex4; [done|]. intros code s'' Hc Hl.
  destruct (char_from_u32 code) as [ch|] eqn:E; [|by apply wp_throw].
  apply wp_ret, H2; [by eapply char_from_u32_char|simpl; lia].
Qed.

Lemma wp_string_loop fuel out s :
  String.length s < fuel → utf8_valid out = true →
  wp (string_loop fuel out) (parsed (λ t, utf8_valid t = true) (String.length s)) s.
Proof.
  revert out s. induction fuel as [|fuel IH]; intros out s Hf Ho; [lia|]. cbn [string_loop].
  apply wp_bind, wp_need; [done|]. intros b s' Hs.
  destruct (Ascii.eqb b DQUOTE).
  { subst. apply wp_bind, wp_advance, wp_ret. split; simpl; [done|lia]. }
  assert (∀ ch n s'', utf8_valid ch = true → String.length s'' < n → n ≤ String.length s →
    wp (string_loop fuel (out +:+ ch)) (parsed (λ t, utf8_valid t = true) (String.length s)) s'')
    as Hrec.
  { intros ch n s'' Hch Hn Hn'. eapply wp_mono; [apply IH; [lia|by apply utf8_valid_app]|].
    intros [t|e] r; simpl; [intros [? ?]; split; [done|lia]|done]. }
  destruct (Ascii.eqb b BACKSLASH).
  { subst. apply wp_bind, wp_advance, wp_bind, wp_escaped; [done|].
    intros ch s'' Hch Hl. eapply Hrec; simpl; eauto. }
  destruct (byte_val b <=? 0x1F)%Z; [by apply wp_throw|].
  apply wp_bind, wp_next_char; [done|]. intros ch s'' Hch Hl. eauto.
Qed.

Lemma wp_string_lit s :
  wp string_lit (parsed (λ t, utf8_valid t = true) (String.length s)) s.
Proof.
  unfold string_lit, st_bind, advance, wp. set (s0 := match s with String _ s' => s' | "" => "" end).
  assert (String.length s0 ≤ String.length s) as Hs by (subst s0; destruct s; simpl; lia).
  pose proof (wp_string_loop (S (String.length s0)) "" s0 ltac:(lia) eq_refl) as H.
  unfold wp in H. destruct (string_loop _ "" s0) as [[t|e] r]; simpl in *; [|done].
  destruct H as [? H]. split; [done|lia].
Qed.

(** ** Numbers *)

(** What a text can be followed by inside a document. *)
Definition stops (rest : string) : bool :=
  match rest with
  | "" => true
  | String b _ => Ascii.eqb b "," || Ascii.eqb b "]" || Ascii.eqb b "}"
  end.

(** A scanner [f] splits its input in two, its text is ASCII, and adding a
    stop after the input does not change what it takes. *)
Definition scans {X} (f : string → X * string) (text : X → string) : Prop :=
  ∀ s x r, f s = (x, r) →
    s = text x +:+ r ∧ utf8_valid (text x) = true ∧
    ∀ rest, stops rest = true → f (s +:+ rest) = (x, r +:+ rest).

Lemma stops_inv rest :
  stops rest = true → rest = "" ∨ ∃ b r, rest = String b r ∧ (b = "," ∨ b = "]" ∨ b = "}")%char.
Proof.
  destruct rest as [|b r]; [by left|]. simpl. rewrite !orb_true_iff, !Ascii.eqb_eq.
  intros H. right. exists b, r. tauto.
Qed.

(** Case analysis on what follows. *)
Ltac case_rest H :=
  let b := fresh "b" in let r := fresh "r" in
  apply stops_inv in H as [->|(b & r & -> & [-> | [-> | ->]])].

Lemma span_digits_scans : scans span_digits id.
Proof.
  intros s d r H. destruct (span_digits_app s d r H) as [-> Hd].
  split; [done|]. split; [by apply all_digits_valid|]. intros rest Hrest.
  rewrite sapp_assoc. revert H Hd. induction d as [|b d IH]; cbn [id all_digits].
  - intros H _. rewrite sapp_nil_l in *. destruct r as [|c r].
    + case_rest Hrest; done.
    + rewrite sapp_cons. simpl in *. destruct (is_digit c); [|done].
      by destruct (span_digits r).
  - rewrite !sapp_cons. cbn [span_digits]. intros H [Hb Hd]%andb_true_iff.
    rewrite Hb in *. destruct (span_digits (d +:+ r)) as [d' r'] eqn:E.
    injection H as -> ->. by rewrite IH.
Qed.

Lemma scan_plus_minus_scans : scans scan_plus_minus id.
Proof.
  intros [|c s] x r; cbn [scan_plus_minus].
  - intros [= <- <-]. split_and!; [done..|]. intros rest H. case_rest H; done.
  - destruct (Ascii.eqb_spec c "+") as [->|]; [by intros [= <- <-]|].
    destruct (Ascii.eqb_spec c "-") as [->|]; [by intros [= <- <-]|].
    intros [= <- <-]. split_and!; [done..|]. intros rest _. rewrite sapp_cons. simpl.
    destruct (Ascii.eqb_spec c "+"); [done|]. by destruct (Ascii.eqb_spec c "-").
Qed.

Lemma scan_fraction_scans : scans scan_fraction fst.
Proof.
  intros [|c s] x r; cbn [scan_fraction].
  - intros [= <- <-]. split_and!; [done..|]. intros rest H. case_rest H; done.
  - destruct (Ascii.eqb_spec c ".") as [->|Hc].
    + destruct (span_digits s) as [d r'] eqn:E. intros [= <- <-].
      destruct (span_digits_scans _ _ _ E) as (-> & Hv & Hr). simpl in *.
      split_and!; [done|by rewrite utf8_valid_ascii|]. intros rest H. specialize (Hr _ H).
      simpl. by rewrite Hr.
    + intros [= <- <-]. split_and!; [done..|]. intros rest _. rewrite sapp_cons. simpl.
      by destruct (Ascii.eqb_spec c ".").
Qed.

Lemma scan_exponent_scans : scans scan_exponent fst.
Proof.
  intros [|c s] x r; cbn [scan_exponent].
  - intros [= <- <-]. split_and!; [done..|]. intros rest H. case_rest H; done.
  - destruct (Ascii.eqb c "e" || Ascii.eqb c "E") eqn:Hc.
    + destruct (scan_plus_minus s) as [sg r1] eqn:E1.
      destruct (span_digits r1) as [d r2] eqn:E2. intros [= <- <-].
      destruct (scan_plus_minus_scans _ _ _ E1) as (-> & Hv1 & Hr1).
      destruct (span_digits_scans _ _ _ E2) as (-> & Hv2 & Hr2). simpl in *. unfold id in *.
      assert (byte_val c < 128)%Z as Hlt.
      { rewrite orb_true_iff, !Ascii.eqb_eq in Hc. destruct Hc as [-> | ->]; eval_bytes; lia. }
      split_and!; [by text_simpl|by rewrite utf8_valid_ascii by done; auto using utf8_valid_app|].
      intros rest H. specialize (Hr1 _ H). specialize (Hr2 _ H).
      simpl. by rewrite Hc, Hr1, Hr2.
    + intros [= <- <-]. split_and!; [done..|]. intros rest _. rewrite sapp_cons.
      cbn [scan_exponent]. by rewrite Hc.
Qed.

(** Scanning a number splits the text, and a stop after it changes nothing. *)
Lemma scan_number_spec s text b r :
  scan_number s = (text, b, r) →
  s = text +:+ r ∧ utf8_valid text = true ∧
  (s ≠ "" → ∀ rest, stops rest = true → scan_number (s +:+ rest) = (text, b, r +:+ rest)).
Proof.
  unfold scan_number. destruct (scan_sign s) as [sign s1] eqn:E1.
  destruct (span_digits s1) as [ints s2] eqn:E2. destruct (scan_fraction s2) as [[frac dot] s3] eqn:E3.
  destruct (scan_exponent s3) as [[exp ex] s4] eqn:E4. intros [= <- <- <-].
  destruct (span_digits_scans _ _ _ E2) as (H2 & Hv2 & Hr2).
  destruct (scan_fraction_scans _ _ _ E3) as (H3 & Hv3 & Hr3).
  destruct (scan_exponent_scans _ _ _ E4) as (H4 & Hv4 & Hr4). unfold id in *. simpl in *.
  assert (s = sign +:+ s1 ∧ utf8_valid sign = true ∧
    (s ≠ "" → ∀ rest, scan_sign (s +:+ rest) = (sign, s1 +:+ rest))) as (H1 & Hv1 & Hr1).
  { destruct s as [|c s]; simpl in E1; [by injection E1 as <- <-|].
    destruct (Ascii.eqb_spec c "-") as [->|Hc]; injection E1 as <- <-; split_and!; try done.
    intros _ rest. rewrite sapp_cons. simpl. by destruct (Ascii.eqb_spec c "-"). }
  split; [subst; by text_simpl|]. split; [auto 10 using utf8_valid_app|].
  intros Hn rest Hrest. by rewrite Hr1, Hr2, Hr3, Hr4.
Qed.

Lemma float_of_wf text v :
  float_of text = Ok v → value_wf v = true ∧ height v = 0.
Proof. unfold float_of. destruct (parse_f64 text); [by intros [= <-]|done]. Qed.

Lemma float_of_err text e : float_of text = Err e → e = Malformed.
Proof. unfold float_of. destruct (parse_f64 text); congruence. Qed.

Lemma number_value_wf text b v :
  number_value text b = Ok v → text ≠ "" ∧ value_wf v = true ∧ height v = 0.
Proof.
  unfold number_value. destruct (String.eqb_spec text "") as [|Hn]; [done|]. simpl.
  destruct (String.eqb text "-"); [done|]. intros H. split; [done|]. revert H.
  destruct b; [apply float_of_wf|].
  destruct (parse_i64 text) as [n|] eqn:E; [|apply float_of_wf].
  intros [= <-]. split; [|done]. apply from_str_radix_bounds in E.
  simpl. unfold in_i64b, i64_min, i64_max in *. apply bool_decide_eq_true. lia.
Qed.

Lemma number_value_err text b e : number_value text b = Err e → e = Malformed.
Proof.
  unfold number_value. destruct (String.eqb text "" || String.eqb text "-"); [congruence|].
  destruct b; [apply float_of_err|]. destruct (parse_i64 text); [done|apply float_of_err].
Qed.

Lemma wp_number s :
  wp number (parsed (λ v, value_wf v = true ∧ height v = 0) (String.length s)) s.
Proof.
  unfold wp, number. destruct (scan_number s) as [[text b] r] eqn:E.
  destruct (number_value text b) as [v|e] eqn:Ev; simpl; [|by eapply number_value_err].
  apply number_value_wf in Ev as [Hn Hv]. split; [done|].
  apply scan_number_spec in E as [-> _]. rewrite sapp_length. destruct text; [done|]. simpl. lia.
Qed.

(** ** Values, with enough fuel *)

Definition good_at (depth : nat) (v : Value) : Prop :=
  value_wf v = true ∧ depth + height v ≤ MAX_DEPTH.

Lemma parsed_mono {A} (Q Q' : A → Prop) n n' r s :
  (∀ a, Q a → Q' a) → n ≤ n' → parsed Q n r s → parsed Q' n' r s.
Proof. destruct r; simpl; [|done]. intros HQ Hn [? ?]. split; [auto|lia]. Qed.

Definition value_answers (fuel : nat) : Prop := ∀ depth s,
  2 * String.length s < fuel →
  wp (value fuel depth) (parsed (good_at depth) (String.length s)) s.

Definition members_answer (fuel : nat) : Prop := ∀ depth m s,
  2 * String.length s + 1 < fuel → depth ≤ MAX_DEPTH → good_at depth (Obj m) →
  wp (members fuel depth m) (parsed (good_at depth) (S (String.length s))) s.

Definition elements_answer (fuel : nat) : Prop := ∀ depth items s,
  2 * String.length s + 1 < fuel → depth ≤ MAX_DEPTH → good_at depth (Arr items) →
  wp (elements fuel depth items) (parsed (good_at depth) (S (String.length s))) s.

(** A step whose failure is the parser's error and whose success goes on. *)
Lemma wp_parsed {A B} (m : Parser A) (k : A → Parser B) (Q : A → Prop) n
    (R : result B ParseError → string → Prop) s :
  wp m (parsed Q n) s →
  R (Err Malformed) (m s).2 →
  (∀ a s', Q a → String.length s' < n → wp (k a) R s') →
  wp (st_bind m k) R s.
Proof.
  intros Hm He Hk. apply wp_bind. unfold wp in *. destruct (m s) as [[a|e] s']; simpl in *; [|by subst].
  destruct Hm. by apply Hk.
Qed.

Lemma good_leaf depth v : depth ≤ MAX_DEPTH → value_wf v = true → height v = 0 → good_at depth v.
Proof. unfold good_at. intros ? ? ->. split; [done|lia]. Qed.

Lemma step_value fuel : members_answer fuel → elements_answer fuel → value_answers (S fuel).
Proof.
  intros Hm He depth s Hf. cbn [value]. case_bool_decide as Hd; [by apply wp_throw|].
  apply not_lt in Hd. apply wp_bind, wp_need; [done|]. intros b s' Hs.
  assert (good_at depth (Obj []) ∧ good_at depth (Arr [])) as [Ho Ha]
    by (split; by apply good_leaf).
  destruct (Ascii.eqb b "{"); [|destruct (Ascii.eqb b "[")].
  1,2: subst; apply wp_bind, wp_advance, wp_bind, wp_skip_ws; intros s1 Hs1;
       apply wp_bind, wp_peek; [intros ->|intros c s2 ->]; simpl in *.
  1,3: eapply wp_mono; [first [apply Hm|apply He]; simpl; first [done|lia]|];
       intros r s3; apply parsed_mono; [done|simpl; lia].
  1,2: case_bool_decide; [apply wp_bind, wp_advance, wp_ret; split; [done|simpl; lia]|];
       eapply wp_mono; [first [apply Hm|apply He]; simpl; first [done|lia]|];
       intros r s3; apply parsed_mono; [done|simpl; lia].
  destruct (Ascii.eqb b DQUOTE).
  { eapply wp_parsed; [apply wp_string_lit|done|]. intros t r Ht Hr. apply wp_ret.
    split; [by apply good_leaf|done]. }
  do 3 (match goal with |- wp (if ?c then _ else _) _ _ => destruct c end;
    [apply wp_bind, wp_lit; [done|]; intros r Hr; apply wp_ret; cbn [String.length] in Hr;
     split; [by apply good_leaf|lia]|]).
  destruct (Ascii.eqb b "-" || is_digit b); [|by apply wp_throw].
  eapply wp_mono; [apply wp_number|]. intros r s1. apply parsed_mono; [|done].
  intros v [? ?]. by apply good_leaf.
Qed.

Lemma step_members fuel : value_answers fuel → members_answer fuel → members_answer (S fuel).
Proof.
  intros Hv Hm depth m s Hf Hd [Hwf Hh]. cbn [members].
  apply wp_bind, wp_skip_ws. intros s1 Hs1.
  apply wp_bind, wp_peek; [by intros ->|]. intros c s2 Hs2.
  case_bool_decide; simpl; [|by apply wp_throw].
  eapply wp_parsed; [apply wp_string_lit|done|]. intros key s3 Hk Hs3.
  apply wp_bind, wp_skip_ws. intros s4 Hs4.
  apply wp_bind, wp_peek; [by intros ->|]. intros c' s5 ->.
  case_bool_decide; simpl; [|by apply wp_throw].
  apply wp_bind, wp_advance, wp_bind, wp_skip_ws. intros s6 Hs6. simpl in *.
  eapply wp_parsed; [apply Hv; lia|done|]. intros item s7 [Hi Hih] Hs7.
  apply wp_bind, wp_skip_ws. intros s8 Hs8.
  apply wp_bind, wp_need; [done|]. intros c2 s9 ->. simpl in *.
  assert (good_at depth (Obj (bt_insert key item m))) as Hg.
  { split; [by apply value_wf_insert|]. pose proof (height_obj_insert key item m).
    simpl in *. lia. }
  destruct (Ascii.eqb c2 ","); [|destruct (Ascii.eqb c2 "}"); [|by apply wp_throw]].
  - apply wp_bind, wp_advance. eapply wp_mono; [apply Hm; [lia|done..]|].
    intros r s10. apply parsed_mono; [done|lia].
  - apply wp_bind, wp_advance, wp_ret. split; [done|lia].
Qed.

Lemma step_elements fuel : value_answers fuel → elements_answer fuel → elements_answer (S fuel).
Proof.
  intros Hv He depth items s Hf Hd [Hwf Hh]. cbn [elements].
  apply wp_bind, wp_skip_ws. intros s1 Hs1.
  eapply wp_parsed; [apply Hv; lia|done|]. intros item s7 [Hi Hih] Hs7.
  apply wp_bind, wp_skip_ws. intros s8 Hs8.
  apply wp_bind, wp_need; [done|]. intros c2 s9 ->. simpl in *.
  assert (good_at depth (Arr (items ++ [item]))) as Hg.
  { split; [simpl; by rewrite forallb_app, Hwf; simpl; rewrite Hi|].
    rewrite height_arr_app. simpl in *. lia. }
  destruct (Ascii.eqb c2 ","); [|destruct (Ascii.eqb c2 "]"); [|by apply wp_throw]].
  - apply wp_bind, wp_advance. eapply wp_mono; [apply He; [lia|done..]|].
    intros r s10. apply parsed_mono; [done|lia].
  - apply wp_bind, wp_advance, wp_ret. split; [done|lia].
Qed.

Lemma parser_answers fuel : value_answers fuel ∧ members_answer fuel ∧ elements_answer fuel.
Proof.
  induction fuel as [|fuel (Hv & Hm & He)].
  - split_and!; red; intros; lia.
  - split_and!; [by apply step_value|by apply step_members|by apply step_elements].
Qed.

Lemma parse_result (text : string) :
  match parse text with
  | Ok v => value_wf v = true ∧ height v ≤ MAX_DEPTH
  | Err e => e = Malformed
  end.
Proof.
  unfold parse.
  cut (wp (parse_doc (2 * String.length text + 2))
         (λ r _, match r with Ok v => good_at 0 v | Err e => e = Malformed end) text).
  { unfold wp. destruct (parse_doc _ text) as [[v|e] s]; auto. }
  apply wp_bind, wp_skip_ws. intros s1 Hs1.
  destruct (parser_answers (2 * String.length text + 2)) as [Hv _].
  eapply wp_parsed; [apply Hv; lia|done|]. intros v s2 Hg Hs2.
  apply wp_bind, wp_skip_ws. intros s3 _. unfold wp. by destruct (String.eqb s3 "").
Qed.

(** C37: [parse] answers on every text: it never runs out of fuel, its only
    error is [Malformed], and a value it accepts is one the Rust type can
    hold (integers in 64 bits, strings and keys in UTF-8, keys in order
    without repetition) whose containers nest at most [MAX_DEPTH] above its
    innermost item. *)
Theorem parse_answers (text : string) :
  match parse text with
  | Ok v => value_wf v = true ∧ height v ≤ MAX_DEPTH
  | Err e => e = Malformed
  end.
Proof. apply parse_result. Qed.
