(* ===== verification/JsonRound.v ===== *)
(** * JsonRound: rendering and parsing back

    Every value whose floats print as numbers is read back from its rendering
    exactly, when its containers nest at most [MAX_DEPTH] deep, and refused
    when they nest deeper. *)

From S2P Require Import Prelude Text BTree F64 Json JsonFacts.
From Stdlib Require Import Ascii.

(** ** Strings *)

Lemma escaped_control b rest :
  (byte_val b < 0x20)%Z → b ≠ LF → b ≠ CR → b ≠ TAB →
  ∃ esc, write_char (bstr b) = String BACKSLASH esc ∧ utf8_valid esc = true ∧
         escaped (esc +:+ rest) = (Ok (bstr b), rest).
Proof.
  intros Hb H1 H2 H3.
  destruct b as [[] [] [] [] [] [] [] []]; try (exfalso; clear -Hb; eval_bytes; lia);
    try done; eexists; split_and!; reflexivity.
Qed.

(** A character is written as itself, or as an escape that reads back as it. *)
Lemma write_char_cases c :
  is_char c = true →
  (∃ esc, write_char c = String BACKSLASH esc ∧ utf8_valid esc = true ∧
          ∀ rest, escaped (esc +:+ rest) = (Ok c, rest)) ∨
  (write_char c = c ∧ ∃ b c', c = String b c' ∧ b ≠ DQUOTE ∧ b ≠ BACKSLASH ∧ (0x1F < byte_val b)%Z).
Proof.
  intros (Hv & Hn & Ht)%is_char_spec. destruct c as [|b c']; [done|]. clear Hn.
  destruct (decide (byte_val b < 128)%Z) as [Hb|Hb].
  - assert (c' = "") as ->.
    { change (String b c') with (bstr b +:+ c') in Ht.
      rewrite take_char_app in Ht by by apply is_char_ascii. by injection Ht. }
    change (String b "") with (bstr b) in *.
    destruct (decide (b = LF)) as [->|]; [left; by eexists|].
    destruct (decide (b = CR)) as [->|]; [left; by eexists|].
    destruct (decide (b = TAB)) as [->|]; [left; by eexists|].
    destruct (decide (b = DQUOTE)) as [->|]; [left; by eexists|].
    destruct (decide (b = BACKSLASH)) as [->|]; [left; by eexists|].
    destruct (decide (byte_val b < 0x20)%Z) as [Hc|Hc].
    + left. destruct (escaped_control b "" Hc) as (esc & He & Hu & _); [done..|].
      exists esc. split_and!; [done..|]. intros rest.
      destruct (escaped_control b rest Hc) as (esc' & He' & _ & H'); [done..|]. congruence.
    + right. split; [|exists b, ""; split_and!; try done; lia].
      unfold write_char, bstr. rewrite !(proj2 (Ascii.eqb_neq _ _)) by done.
      by rewrite (proj2 (Z.ltb_ge _ _)) by lia.
  - right. split.
    + destruct c' as [|b' c'']; [|done]. exfalso.
      apply utf8_valid_iff in Hv. cbn [urun] in Hv. unfold ustep in Hv.
      rewrite (in_range_false 0 127) in Hv by lia.
      repeat case_match; simplify_eq.
    + exists b, c'. split_and!; [done|intros ->; by apply Hb|intros ->; by apply Hb|lia].
Qed.

(** The text between the quotes. *)
Definition body (text : string) : string := sconcat (write_char <$> chars text).

Lemma body_app c s :
  is_char c = true → utf8_valid s = true → body (c +:+ s) = write_char c +:+ body s.
Proof. intros Hc Hs. unfold body. by rewrite chars_app. Qed.

Lemma write_char_valid c : is_char c = true → utf8_valid (write_char c) = true.
Proof.
  intros H. destruct (write_char_cases c H) as [(esc & -> & Hu & _)|[-> _]].
  - by rewrite utf8_valid_ascii by reflexivity.
  - by apply is_char_spec in H as (? & _).
Qed.

Lemma body_valid text : utf8_valid text = true → utf8_valid (body text) = true.
Proof.
  revert text. apply utf8_ind; [done|]. intros c s Hc Hs IH.
  rewrite body_app by done. auto using utf8_valid_app, write_char_valid.
Qed.

(** A run of the parser on [s] that answers [r], and [s'] left over when it
    is a value, or that was cut short. *)
Definition answers {A} (m : Parser A) (s : string) (r : result A ParseError) (s' : string) : Prop :=
  match m s with
  | (Err OutOfFuel, _) => True
  | (Ok a, t) => r = Ok a ∧ t = s'
  | (Err e, _) => r = Err e
  end.

Lemma answers_bind {A B} (m : Parser A) (k : A → Parser B) s a t r s' :
  answers m s (Ok a) t → answers (k a) t r s' → answers (st_bind m k) s r s'.
Proof.
  unfold answers, st_bind. destruct (m s) as [[a'|[]] t']; [|done|done].
  by intros [[= ->] ->].
Qed.

Lemma answers_bind_err {A B} (m : Parser A) (k : A → Parser B) s e t r s' :
  answers m s (Err e) t → r = Err e → answers (st_bind m k) s r s'.
Proof.
  unfold answers, st_bind. destruct (m s) as [[a'|[]] t']; [by intros [? _]|by intros [= ->]|done].
Qed.

Lemma answers_exact {A} (m : Parser A) s r s' : m s = (r, s') → answers m s r s'.
Proof. unfold answers. intros ->. by destruct r as [a|[]]. Qed.

Lemma answers_eq {A} (m : Parser A) s s1 r s' : s = s1 → answers m s1 r s' → answers m s r s'.
Proof. by intros ->. Qed.

Lemma string_loop_reads text rest fuel out :
  utf8_valid text = true → utf8_valid rest = true →
  answers (string_loop fuel out) (body text +:+ String DQUOTE rest) (Ok (out +:+ text)) rest.
Proof.
  intros Ht Hr. revert fuel out. revert text Ht.
  apply (utf8_ind (λ text, ∀ fuel out, answers (string_loop fuel out)
    (body text +:+ String DQUOTE rest) (Ok (out +:+ text)) rest)).
  - intros [|fuel] out; [done|]. rewrite sapp_nil_r. by apply answers_exact.
  - intros c s Hc Hs IH [|fuel] out; [done|]. rewrite body_app, sapp_assoc by done.
    rewrite <-(sapp_assoc out). set (tl := body s +:+ String DQUOTE rest) in *.
    assert (utf8_valid tl = true) as Htl.
    { apply utf8_valid_app; [by apply body_valid|by rewrite utf8_valid_ascii]. }
    cbn [string_loop].
    destruct (write_char_cases c Hc) as [(esc & -> & _ & He)|[-> (b & c' & Hcb & H1 & H2 & H3)]].
    + rewrite sapp_cons. eapply answers_bind; [by apply answers_exact|]. cbn [Ascii.eqb Bool.eqb].
      eapply answers_bind; [by apply answers_exact|].
      eapply answers_bind; [by apply answers_exact, He|]. apply IH.
    + eapply (answers_bind _ _ _ b (c +:+ tl)); [rewrite Hcb; by apply answers_exact|].
      rewrite !(proj2 (Ascii.eqb_neq _ _)), (proj2 (Z.leb_gt _ _)) by done.
      eapply (answers_bind _ _ _ c tl); [|apply IH]. apply answers_exact. unfold next_char.
      apply is_char_spec in Hc as Hc'. destruct Hc' as (Hcv & _).
      by rewrite utf8_valid_app, take_char_app.
Qed.

Lemma string_lit_reads text rest :
  utf8_valid text = true → utf8_valid rest = true →
  string_lit (write_string text +:+ rest) = (Ok text, rest).
Proof.
  intros Ht Hr. unfold write_string. fold (body text). rewrite !sapp_assoc.
  change (dquote +:+ rest) with (String DQUOTE rest). set (s := body text +:+ String DQUOTE rest).
  pose proof (wp_string_loop (S (String.length s)) "" s ltac:(lia) eq_refl) as H1.
  pose proof (string_loop_reads text rest (S (String.length s)) "" Ht Hr) as H2.
  change (string_lit (dquote +:+ s)) with (string_loop (S (String.length s)) "" s).
  fold s in H2. unfold wp, answers in *.
  destruct (string_loop _ "" s) as [[t|e] r]; simpl in H1; [|by subst].
  rewrite sapp_nil_l in H2. by destruct H2 as [[= ->] ->].
Qed.

(** ** Numbers *)

Definition number_head (s : string) : bool :=
  match s with String b _ => Ascii.eqb b "-" || is_digit b | "" => false end.

(** A float that [{:?}] prints as a number the parser reads back. *)
Definition float_ok (f : f64) : bool :=
  is_finite f && number_head (f64_debug f) &&
  match number (f64_debug f) with
  | (Ok (Float g), "") => bool_decide (f = g)
  | _ => false
  end.

Definition leaf_text (text : string) (v : Value) : Prop :=
  number_head text = true ∧ utf8_valid text = true ∧
  ∀ rest, stops rest = true → number (text +:+ rest) = (Ok v, rest).

Lemma number_text text v :
  number_head text = true → number text = (Ok v, "") → leaf_text text v.
Proof.
  unfold number. destruct (scan_number text) as [[t b] r] eqn:E. intros Hh [= Ht ->].
  apply scan_number_spec in E as (-> & Hv & Hr). rewrite sapp_nil_r in *.
  split_and!; [done..|]. intros rest Hrest. unfold number. rewrite Hr; [|by intros ->|done].
  by rewrite Ht, sapp_nil_l.
Qed.

Lemma span_all_digits s : all_digits s = true → span_digits s = (s, "").
Proof.
  induction s as [|b s IH]; [done|]. simpl. intros [Hb Hs]%andb_true_iff. by rewrite Hb, IH.
Qed.

Lemma dec_number n : in_i64 n → number (dec n) = (Ok (Int n), "").
Proof.
  intros Hn. assert (parse_i64 (dec n) = Some n) as Hp.
  { apply from_str_radix_dec. unfold in_i64, i64_min, i64_max in *. lia. }
  assert (scan_number (dec n) = (dec n, false, "")) as Hs.
  { unfold dec. destruct (n <? 0)%Z.
    - unfold scan_number. cbn [scan_sign Ascii.eqb Bool.eqb].
      rewrite span_all_digits by apply dec_nonneg_digits. simpl. by rewrite sapp_nil_r.
    - pose proof (dec_nonneg_digits n) as Hd.
      destruct (dec_nonneg_head n) as (d & s & E & Hr). rewrite E in *. unfold scan_number.
      cbn [scan_sign]. rewrite eqb_byte_false by (rewrite digit_char_val by done; eval_bytes; lia).
      rewrite span_all_digits by done. simpl. by rewrite sapp_nil_r. }
  unfold number. rewrite Hs. f_equal. unfold number_value. rewrite Hp.
  destruct (String.eqb_spec (dec n) "") as [E|_]; [by rewrite E in Hp|].
  destruct (String.eqb_spec (dec n) "-") as [E|_]; [by rewrite E in Hp|]. done.
Qed.

Lemma dec_head n : number_head (dec n) = true.
Proof.
  unfold dec. destruct (n <? 0)%Z; [done|].
  destruct (dec_nonneg_head n) as (d & s & -> & Hr). simpl. rewrite is_digit_char by done.
  by rewrite orb_true_r.
Qed.

Lemma int_leaf n : in_i64b n = true → leaf_text (dec n) (Int n).
Proof.
  intros H%bool_decide_eq_true. apply number_text; [apply dec_head|by apply dec_number].
Qed.

Lemma float_leaf f : float_ok f = true → is_finite f = true ∧ leaf_text (f64_debug f) (Float f).
Proof.
  unfold float_ok. rewrite !andb_true_iff. intros [[Hf Hh] H]. split; [done|].
  apply number_text; [done|]. destruct (number (f64_debug f)) as [[[]|] []]; try done.
  by apply bool_decide_eq_true in H as ->.
Qed.

(** ** Values *)

(** The values that are printed as themselves. *)
Fixpoint printable (v : Value) : bool :=
  match v with
  | Float f => float_ok f
  | Arr items => forallb printable items
  | Obj m => forallb (λ '(_, x), printable x) m
  | _ => true
  end.

Definition value_ok (v : Value) : bool := value_wf v && printable v.

Definition field_ok : string * Value → bool := λ '(k, x), utf8_valid k && value_ok x.

Lemma value_ok_arr items : value_ok (Arr items) = true → forallb value_ok items = true.
Proof.
  unfold value_ok. simpl. induction items as [|x l IH]; [done|]. simpl.
  rewrite !andb_true_iff in *. tauto.
Qed.

Lemma value_ok_obj m :
  value_ok (Obj m) = true → bt_sorted m = true ∧ forallb field_ok m = true.
Proof.
  unfold value_ok. rewrite value_wf_obj. intros [[Hs Hw]%andb_true_iff Hp]%andb_true_iff.
  split; [done|]. clear Hs. revert Hw Hp. simpl. induction m as [|[k x] m IH]; [done|]. simpl.
  unfold value_ok. rewrite !andb_true_iff in *. tauto.
Qed.

Lemma value_ok_arr_intro items : forallb value_ok items = true → value_ok (Arr items) = true.
Proof.
  unfold value_ok. simpl. induction items as [|x l IH]; [done|]. simpl.
  rewrite !andb_true_iff in *. tauto.
Qed.

Lemma value_ok_obj_intro m :
  bt_sorted m = true → forallb field_ok m = true → value_ok (Obj m) = true.
Proof.
  unfold value_ok. rewrite value_wf_obj. intros -> H. simpl. revert H.
  induction m as [|[k x] m IH]; [done|]. simpl.
  unfold value_ok. rewrite !andb_true_iff in *. tauto.
Qed.

(** No rendering starts with whitespace or a closing bracket. *)
Definition solid (s : string) : bool :=
  match s with
  | String b _ => negb (is_ascii_whitespace b) && negb (Ascii.eqb b "]") && negb (Ascii.eqb b "}")
  | "" => false
  end.

Lemma number_head_solid s : number_head s = true → solid s = true.
Proof.
  destruct s as [|b s]; [done|]. simpl. rewrite orb_true_iff. intros [->%Ascii.eqb_eq|Hb]; [done|].
  unfold is_digit, in_range in Hb. unfold is_ascii_whitespace.
  rewrite !eqb_byte_false by (eval_bytes; lia). lia.
Qed.

Lemma render_solid v : value_ok v = true → solid (render v) = true.
Proof.
  destruct v as [|[]|n|f|s|l|m]; try done.
  - intros _. apply number_head_solid, dec_head.
  - intros [_ H]%andb_true_iff. apply float_leaf in H as [Hf [H _]]. simpl. rewrite Hf.
    by apply number_head_solid.
Qed.

Lemma solid_ws s t : solid s = true → drop_ws (s +:+ t) = s +:+ t.
Proof.
  destruct s as [|b s]; [done|]. simpl. rewrite !andb_true_iff, !negb_true_iff.
  by intros [[-> _] _].
Qed.

Lemma write_string_valid s : utf8_valid s = true → utf8_valid (write_string s) = true.
Proof.
  intros H. unfold write_string. fold (body s).
  apply utf8_valid_app; [done|]. apply utf8_valid_app; [by apply body_valid|done].
Qed.

Lemma join_valid sep l :
  utf8_valid sep = true → Forall (λ s, utf8_valid s = true) l → utf8_valid (join sep l) = true.
Proof.
  intros Hsep. destruct 1 as [|x l Hx Hl]; [done|]. apply utf8_valid_app; [done|].
  induction Hl as [|y l Hy Hl IH]; [done|]. simpl. auto 10 using utf8_valid_app.
Qed.

Definition write_field : string * Value → string :=
  λ '(key, item), write_string key +:+ ":" +:+ render item.

Lemma render_obj m : render (Obj m) = "{" +:+ join "," (write_field <$> m) +:+ "}".
Proof. done. Qed.

Lemma render_valid v : value_ok v = true → utf8_valid (render v) = true.
Proof.
  induction v as [|[]|n|f|s|l IH|m IH] using value_nested_ind; try done.
  - intros _. apply dec_valid.
  - intros [_ H]%andb_true_iff. apply float_leaf in H as (Hf & _ & Hu & _). simpl. by rewrite Hf.
  - intros [H _]%andb_true_iff. by apply write_string_valid.
  - intros H%value_ok_arr. cbn [render]. apply utf8_valid_app; [done|].
    apply utf8_valid_app; [|done]. apply join_valid; [done|]. apply Forall_fmap.
    induction IH as [|x l Hx Hl IHl]; constructor; simpl in H; apply andb_true_iff in H as [? ?];
      [by apply Hx|by apply IHl].
  - intros [_ H]%value_ok_obj. rewrite render_obj. apply utf8_valid_app; [done|].
    apply utf8_valid_app; [|done]. apply join_valid; [done|]. apply Forall_fmap.
    induction IH as [|[k x] l Hx Hl IHl]; constructor; simpl in H;
      apply andb_true_iff in H as [[Hk ?]%andb_true_iff ?]; [|by apply IHl].
    apply utf8_valid_app; [by apply write_string_valid|]. apply utf8_valid_app; [done|by apply Hx].
Qed.

(** What stands between the braces of an object. *)
Lemma fields_valid m :
  value_ok (Obj m) = true → utf8_valid (join "," (write_field <$> m)) = true.
Proof.
  intros [_ H]%value_ok_obj. apply join_valid; [done|]. apply Forall_fmap, Forall_forall.
  intros [k x] Hin%list_elem_of_In. rewrite forallb_forall in H.
  apply H, andb_true_iff in Hin as [Hk Hx].
  apply utf8_valid_app; [by apply write_string_valid|]. by apply utf8_valid_app, render_valid.
Qed.

(** ** Reading a rendering back *)

Definition fits (depth : nat) (v : Value) : bool := bool_decide (depth + height v ≤ MAX_DEPTH).

Definition verdict (b : bool) (v : Value) : result Value ParseError :=
  if b then Ok v else Err Malformed.

Definition follow (rest : string) : Prop := stops rest = true ∧ utf8_valid rest = true.

Definition reads (v : Value) : Prop := ∀ fuel depth rest,
  follow rest →
  answers (value fuel depth) (render v +:+ rest) (verdict (fits depth v) v) rest.

Lemma fits_arr_cons depth x l : fits depth (Arr (x :: l)) = fits (S depth) x && fits depth (Arr l).
Proof.
  unfold fits. rewrite <-bool_decide_and. apply bool_decide_ext. cbn [height foldr]. lia.
Qed.

Lemma fits_obj_cons depth k x m :
  fits depth (Obj ((k, x) :: m)) = fits (S depth) x && fits depth (Obj m).
Proof.
  unfold fits. rewrite <-bool_decide_and. apply bool_decide_ext. cbn [height foldr]. lia.
Qed.

Lemma fits_bound depth v : fits depth v = true → depth ≤ MAX_DEPTH.
Proof. intros H%bool_decide_eq_true. lia. Qed.

Lemma join_cons2 sep x y l : join sep (x :: y :: l) = x +:+ sep +:+ join sep (y :: l).
Proof. unfold join. cbn [sconcat foldr fmap list_fmap]. by text_simpl. Qed.

Lemma join_one sep x : join sep [x] = x.
Proof. unfold join. simpl. apply sapp_nil_r. Qed.

(** Whitespace skipped before a rendering. *)
Lemma answers_solid {A} (k : unit → Parser A) s t r s' :
  solid s = true → answers (k tt) (s +:+ t) r s' →
  answers (st_bind skip_ws k) (s +:+ t) r s'.
Proof.
  intros Hs H. eapply answers_bind; [|done]. apply answers_exact. unfold skip_ws.
  by rewrite solid_ws.
Qed.

Lemma answers_stop {A} (k : unit → Parser A) b t r s' :
  is_ascii_whitespace b = false → answers (k tt) (String b t) r s' →
  answers (st_bind skip_ws k) (String b t) r s'.
Proof.
  intros Hb H. eapply answers_bind; [|done]. apply answers_exact. unfold skip_ws. cbn [drop_ws].
  by rewrite Hb.
Qed.

(** One item of a container: its value, then its verdict. *)
Lemma answers_item {A} v fuel depth (k : Value → Parser A) rest r s' :
  reads v → follow rest →
  (if fits depth v then answers (k v) rest r s' else r = Err Malformed) →
  answers (st_bind (value fuel depth) k) (render v +:+ rest) r s'.
Proof.
  intros Hv Hr H. pose proof (Hv fuel depth rest Hr) as Hread. unfold verdict in Hread.
  destruct (fits depth v).
  - by eapply answers_bind.
  - by eapply answers_bind_err.
Qed.

Lemma elements_read x l : Forall reads (x :: l) → forallb value_ok (x :: l) = true →
  ∀ fuel depth acc rest, follow rest → depth ≤ MAX_DEPTH →
  answers (elements fuel depth acc) (join "," (render <$> x :: l) +:+ String "]" rest)
    (verdict (fits depth (Arr (x :: l))) (Arr (acc ++ x :: l))) rest.
Proof.
  revert x. induction l as [|y l IH]; intros x HP Hok fuel depth acc rest Hrest Hd.
  all: apply Forall_cons in HP as [Hx HP]; cbn [forallb] in Hok;
       apply andb_true_iff in Hok as [Hxo Hok]; (destruct fuel as [|fuel]; [done|]);
       rewrite fits_arr_cons; cbn [elements].
  - rewrite fmap_cons, join_one. apply answers_solid; [by apply render_solid|].
    apply answers_item; [done|split; [done|by rewrite utf8_valid_ascii; [apply Hrest|]]|].
    destruct (fits (S depth) x) eqn:Hf; [|done]. apply answers_stop; [done|].
    eapply answers_bind; [by apply answers_exact|]. cbn [Ascii.eqb Bool.eqb].
    assert (fits depth (Arr []) = true) as ->.
    { apply fits_bound in Hf. apply bool_decide_eq_true. simpl. lia. }
    by apply answers_exact.
  - rewrite !fmap_cons, join_cons2, !sapp_assoc. apply answers_solid; [by apply render_solid|].
    change ("," +:+ ?t) with (String "," t).
    change (forallb value_ok (y :: l) = true) in Hok.
    set (tl := join "," (render y :: (render <$> l)) +:+ String "]" rest).
    assert (utf8_valid tl = true) as Htl.
    { apply utf8_valid_app; [apply join_valid; [done|]|].
      - rewrite <-fmap_cons. apply Forall_fmap, Forall_forall. intros z Hz.
        apply render_valid. rewrite forallb_forall in Hok. apply Hok, list_elem_of_In, Hz.
      - by rewrite utf8_valid_ascii; [apply Hrest|]. }
    apply answers_item; [done|split; [done|by rewrite utf8_valid_ascii]|].
    destruct (fits (S depth) x) eqn:Hf; [|done]. apply answers_stop; [done|].
    eapply answers_bind; [by apply answers_exact|]. cbn [Ascii.eqb Bool.eqb].
    eapply answers_bind; [by apply answers_exact|]. cbn [andb].
    replace (acc ++ x :: y :: l) with ((acc ++ [x]) ++ y :: l) by by rewrite <-app_assoc.
    by apply IH.
Qed.

Lemma bt_sorted_app_above acc k (x : Value) m :
  bt_sorted (acc ++ (k, x) :: m) = true → forallb (λ p, slt p.1 k) acc = true.
Proof.
  induction acc as [|[k' x'] acc IH]; [done|]. simpl. intros [Ha Hs]%andb_true_iff.
  rewrite IH, andb_true_r by done. unfold bt_above in Ha. rewrite forallb_app in Ha.
  apply andb_true_iff in Ha as [_ Ha]. simpl in Ha. by apply andb_true_iff in Ha as [-> _].
Qed.

(** One field of an object, up to its value. *)
Lemma answers_field {A} (k : string → Parser A) key t r s' :
  utf8_valid key = true → utf8_valid t = true →
  answers (k key) t r s' →
  answers (let* _ := skip_ws in
           let* c := peek in
           if negb (bool_decide (c = Some DQUOTE)) then st_throw Malformed
           else let* key := string_lit in k key) (write_string key +:+ t) r s'.
Proof.
  intros Hk Ht H. apply answers_solid; [done|].
  eapply answers_bind; [by apply answers_exact|]. cbn [negb bool_decide].
  rewrite bool_decide_true by done. cbn [negb].
  eapply answers_bind; [by apply answers_exact, string_lit_reads|done].
Qed.

(** The colon of a field. *)
Lemma answers_colon {A} (k : Parser A) t rest r s' :
  solid t = true → answers k (t +:+ rest) r s' →
  answers (let* _ := skip_ws in
           let* c := peek in
           if negb (bool_decide (c = Some ":"%char)) then st_throw Malformed
           else let* _ := advance in let* _ := skip_ws in k) (":" +:+ t +:+ rest) r s'.
Proof.
  intros Ht H. apply answers_stop; [done|]. eapply answers_bind; [by apply answers_exact|].
  rewrite bool_decide_true by done. cbn [negb].
  eapply answers_bind; [by apply answers_exact|]. by apply answers_solid.
Qed.

Lemma members_read p m :
  Forall (λ p, reads p.2) (p :: m) → forallb field_ok (p :: m) = true →
  ∀ fuel depth acc rest, follow rest → depth ≤ MAX_DEPTH → bt_sorted (acc ++ p :: m) = true →
  answers (members fuel depth acc) (join "," (write_field <$> p :: m) +:+ String "}" rest)
    (verdict (fits depth (Obj (p :: m))) (Obj (acc ++ p :: m))) rest.
Proof.
  revert p. induction m as [|p' m IH]; intros [k x] HP Hok fuel depth acc rest Hrest Hd Hsort.
  all: apply Forall_cons in HP as [Hx HP];
       apply andb_true_iff in Hok as [[Hko Hxo]%andb_true_iff Hok];
       (destruct fuel as [|fuel]; [done|]); pose proof (bt_sorted_app_above _ _ _ _ Hsort) as Hacc;
       rewrite fits_obj_cons; cbn [members snd] in *.
  - rewrite fmap_cons, join_one. unfold write_field at 1. rewrite !sapp_assoc.
    assert (utf8_valid (String "}" rest) = true) as Htl by by rewrite utf8_valid_ascii; [apply Hrest|].
    apply answers_field; [done|by apply utf8_valid_app; [|apply utf8_valid_app; [apply render_valid|]]|].
    apply answers_colon; [by apply render_solid|]. apply answers_item; [done|by split|].
    destruct (fits (S depth) x) eqn:Hf; [|done]. apply answers_stop; [done|].
    eapply answers_bind; [by apply answers_exact|]. cbn [Ascii.eqb Bool.eqb].
    assert (fits depth (Obj []) = true) as ->.
    { apply fits_bound in Hf. apply bool_decide_eq_true. simpl. lia. }
    rewrite bt_insert_last by done. by apply answers_exact.
  - rewrite !fmap_cons, join_cons2. unfold write_field at 1. rewrite !sapp_assoc.
    change ("," +:+ ?t) with (String "," t).
    change (forallb field_ok (p' :: m) = true) in Hok.
    set (tl := join "," (write_field p' :: (write_field <$> m)) +:+ String "}" rest).
    assert (utf8_valid (String "," tl) = true) as Htl.
    { rewrite utf8_valid_ascii by done. apply utf8_valid_app; [apply join_valid; [done|]|].
      - rewrite <-fmap_cons. apply Forall_fmap, Forall_forall. intros [k' z] Hz.
        rewrite forallb_forall in Hok. specialize (Hok _ (proj1 (list_elem_of_In _ _) Hz)).
        apply andb_true_iff in Hok as [? ?].
        apply utf8_valid_app; [by apply write_string_valid|]. by apply utf8_valid_app, render_valid.
      - by rewrite utf8_valid_ascii; [apply Hrest|]. }
    apply answers_field; [done|by apply utf8_valid_app; [|apply utf8_valid_app; [apply render_valid|]]|].
    apply answers_colon; [by apply render_solid|]. apply answers_item; [done|by split|].
    destruct (fits (S depth) x) eqn:Hf; [|done]. apply answers_stop; [done|].
    eapply answers_bind; [by apply answers_exact|]. cbn [Ascii.eqb Bool.eqb].
    eapply answers_bind; [by apply answers_exact|]. cbn [andb].
    rewrite bt_insert_last by done.
    replace (acc ++ (k, x) :: p' :: m) with ((acc ++ [(k, x)]) ++ p' :: m) in * by by rewrite <-app_assoc.
    by apply IH.
Qed.

Lemma value_number fuel depth text v rest :
  depth ≤ MAX_DEPTH → leaf_text text v → follow rest →
  answers (value (S fuel) depth) (text +:+ rest) (Ok v) rest.
Proof.
  intros Hd (Hh & _ & Hn) [Hs _]. destruct text as [|b t]; [done|]. cbn [number_head] in Hh.
  cbn [value]. rewrite bool_decide_false by lia.
  eapply answers_bind; [by apply answers_exact|].
  assert (0x2D ≤ byte_val b ≤ 0x39)%Z as Hb.
  { apply orb_true_iff in Hh as [->%Ascii.eqb_eq|Hh]; [by eval_bytes; lia|].
    unfold is_digit, in_range in Hh. lia. }
  rewrite (eqb_byte_false b DQUOTE) by (unfold DQUOTE; eval_bytes; lia).
  rewrite (eqb_byte_false b "{"), (eqb_byte_false b "["), (eqb_byte_false b "t"),
    (eqb_byte_false b "f"), (eqb_byte_false b "n") by (eval_bytes; lia).
  rewrite Hh. by apply answers_exact, Hn.
Qed.

Lemma solid_app s t : solid s = true → solid (s +:+ t) = true.
Proof. by destruct s. Qed.

Lemma answers_array loop t r s' :
  solid t = true → answers (loop []) t r s' → answers (array loop) (String "[" t) r s'.
Proof.
  intros Ht H. eapply answers_bind; [by apply answers_exact|].
  rewrite <-(sapp_nil_r t). apply answers_solid; [done|]. rewrite sapp_nil_r.
  destruct t as [|b t]; [done|]. eapply answers_bind; [by apply answers_exact|].
  rewrite bool_decide_false; [done|]. intros [= ->]. done.
Qed.

Lemma answers_object loop t r s' :
  solid t = true → answers (loop []) t r s' → answers (object loop) (String "{" t) r s'.
Proof.
  intros Ht H. eapply answers_bind; [by apply answers_exact|].
  rewrite <-(sapp_nil_r t). apply answers_solid; [done|]. rewrite sapp_nil_r.
  destruct t as [|b t]; [done|]. eapply answers_bind; [by apply answers_exact|].
  rewrite bool_decide_false; [done|]. intros [= ->]. done.
Qed.

Lemma join_solid sep s l t : solid s = true → solid (join sep (s :: l) +:+ t) = true.
Proof. intros H. unfold join. rewrite sapp_assoc. by apply solid_app. Qed.

Lemma reads_all {X} (f : X → Value) (ok : X → bool) l :
  (∀ x, ok x = true → value_ok (f x) = true) →
  Forall (λ x, value_ok (f x) = true → reads (f x)) l → forallb ok l = true →
  Forall (λ x, reads (f x)) l.
Proof.
  intros Hf. induction 1 as [|x l Hx Hl IH]; constructor; simpl in *; apply andb_true_iff in H as [??];
    auto.
Qed.

Lemma value_reads v : value_ok v = true → reads v.
Proof.
  induction v as [|b|n|f|s|l IH|m IH] using value_nested_ind; intros Hok fuel depth rest Hrest.
  all: destruct fuel as [|fuel]; [done|]; unfold fits.
  all: destruct (decide (depth ≤ MAX_DEPTH)) as [Hd|Hd];
    [|cbn [value]; rewrite bool_decide_true, bool_decide_false by lia; done].
  all: assert (∀ x, height x = 0 → bool_decide (depth + height x ≤ MAX_DEPTH) = true) as Hleaf
         by (intros x Hx; apply bool_decide_eq_true; lia).
  all: pose proof (bool_decide_false (MAX_DEPTH < depth) ltac:(lia)) as Hd'.
  - rewrite Hleaf by done. cbn [value]. rewrite Hd'. by apply answers_exact.
  - rewrite Hleaf by done. cbn [value]. rewrite Hd'. by destruct b; apply answers_exact.
  - rewrite Hleaf by done. apply andb_true_iff in Hok as [Hok _].
    apply value_number; [done|by apply int_leaf|done].
  - rewrite Hleaf by done. apply andb_true_iff in Hok as [_ Hok].
    apply float_leaf in Hok as [Hf Hok]. cbn [render]. rewrite Hf. by apply value_number.
  - rewrite Hleaf by done. apply andb_true_iff in Hok as [Hok _]. cbn [value]. rewrite Hd'.
    eapply (answers_bind _ _ _ DQUOTE); [by apply answers_exact|]. cbn [Ascii.eqb Bool.eqb].
    eapply answers_bind; [apply answers_exact, string_lit_reads; [done|apply Hrest]|].
    by apply answers_exact.
  - apply value_ok_arr in Hok. cbn [value]. rewrite Hd'.
    eapply (answers_bind _ _ _ "["%char); [by apply answers_exact|]. cbn [Ascii.eqb Bool.eqb].
    destruct l as [|x l]; [rewrite Hleaf by done; by apply answers_exact|].
    cbn [render]. rewrite !sapp_assoc. apply answers_array.
    + apply join_solid, render_solid. by apply andb_true_iff in Hok as [? _].
    + apply (elements_read x l); [|done..]. by apply (reads_all id value_ok).
  - apply value_ok_obj in Hok as [Hs Hok]. cbn [value]. rewrite Hd'.
    eapply (answers_bind _ _ _ "{"%char); [by apply answers_exact|]. cbn [Ascii.eqb Bool.eqb].
    destruct m as [|[k x] m]; [rewrite Hleaf by done; by apply answers_exact|].
    rewrite render_obj, !sapp_assoc. apply answers_object.
    + by apply join_solid.
    + apply (members_read (k, x) m); [|done..]. apply (reads_all snd field_ok); [|done..].
      by intros [k' x'] [_ ?]%andb_true_iff.
Qed.

Lemma parse_render (v : Value) :
  value_ok v = true →
  parse (render v) = if bool_decide (height v ≤ MAX_DEPTH) then Ok v else Err Malformed.
Proof.
  intros Hok. set (r := verdict (bool_decide (0 + height v ≤ MAX_DEPTH)) v).
  change (parse (render v) = r).
  assert (answers (parse_doc (2 * String.length (render v) + 2)) (render v) r "") as H.
  { pose proof (value_reads v Hok (2 * String.length (render v) + 2) 0 "" (conj eq_refl eq_refl)) as H.
    rewrite sapp_nil_r in H. unfold parse_doc.
    apply (answers_eq _ _ (render v +:+ "")); [by rewrite sapp_nil_r|].
    apply answers_solid; [by apply render_solid|]. rewrite sapp_nil_r.
    unfold r, verdict, fits in *. destruct (bool_decide _).
    - eapply answers_bind; [exact H|]. by apply answers_exact.
    - by eapply answers_bind_err. }
  pose proof (parse_result (render v)) as Hp. unfold parse, answers in *.
  destruct (parse_doc _ (render v)) as [[a|e] t]; simpl in *; [by destruct H as [-> _]|].
  by subst.
Qed.

(** C36: rendering and parsing: a value the Rust type can hold, whose floats
    print as numbers, is read back from its rendering exactly when its
    containers nest at most [MAX_DEPTH] above its innermost item, and its
    rendering is refused when they nest deeper. *)
Theorem json_round_trip (v : Value) :
  value_ok v = true →
  parse (render v) = if bool_decide (height v ≤ MAX_DEPTH) then Ok v else Err Malformed.
Proof. apply parse_render. Qed.

Definition sample_value : Value :=
  obj [("devices", Arr [Str ("caf" +:+ utf8_char [0xC3; 0xA9]%Z +:+ newline); Int i64_min; Null]);
       ("load", Float (f64_of_decimal false 375 (-2)));
       ("up", Bool true)].

Definition nested (n : nat) : Value := Nat.iter n (λ v, Arr [v]) Null.

Lemma json_round_trip_witness :
  parse (render sample_value) = Ok sample_value ∧
  parse (render (nested 64)) = Ok (nested 64) ∧
  parse (render (nested 65)) = Err Malformed.
Proof.
  split_and!.
  - apply (json_round_trip sample_value). vm_compute. reflexivity.
  - apply (json_round_trip (nested 64)). vm_compute. reflexivity.
  - apply (json_round_trip (nested 65)). vm_compute. reflexivity.
Defined.

(** ** Where the parser and the JSON grammar differ *)

Lemma hex_digit_parse d : (0 ≤ d < 16)%Z →
  to_digit 16 (hex_digit d) = Some d ∧ (byte_val (hex_digit d) < 128)%Z ∧ hex_digit d ≠ "+"%char.
Proof.
  intros H. assert (d ∈ seqZ 0 16) as Hd by (apply elem_of_seqZ; lia).
  repeat (apply elem_of_cons in Hd as [->|Hd]; [by vm_compute|]). by apply elem_of_nil in Hd.
Qed.

(** The four hexadecimal digits of a code are read back. *)
Lemma hex4_fmt code rest :
  (0 ≤ code < 65536)%Z → hex4 (fmt_04x code +:+ rest) = (Ok code, rest).
Proof.
  intros Hc. unfold fmt_04x, bstr. rewrite !sapp_cons, sapp_nil_l.
  cbn beta iota zeta delta [hex4]. unfold bstr.
  pose proof (Z.div_mod code 16 ltac:(done)). pose proof (Z.mod_pos_bound code 16 ltac:(done)).
  pose proof (Z.div_mod (code `div` 16) 16 ltac:(done)) as H2.
  pose proof (Z.mod_pos_bound (code `div` 16) 16 ltac:(done)).
  pose proof (Z.div_mod (code `div` 256) 16 ltac:(done)) as H4.
  pose proof (Z.mod_pos_bound (code `div` 256) 16 ltac:(done)).
  rewrite Z.div_div in H2, H4 by done. change (16 * 16)%Z with 256%Z in H2.
  change (256 * 16)%Z with 4096%Z in H4.
  destruct (hex_digit_parse (code `div` 4096)) as (P1 & A1 & N1); [lia|].
  destruct (hex_digit_parse ((code `div` 256) `mod` 16)) as (P2 & A2 & N2); [lia|].
  destruct (hex_digit_parse ((code `div` 16) `mod` 16)) as (P3 & A3 & N3); [lia|].
  destruct (hex_digit_parse (code `mod` 16)) as (P4 & A4 & N4); [lia|].
  rewrite !utf8_valid_ascii by done. change (utf8_valid "") with true. cbn beta iota.
  unfold from_str_radix. rewrite (proj2 (Ascii.eqb_neq _ _) N1). cbn [andb parse_digits].
  rewrite P1, P2, P3, P4.
  rewrite !(proj2 (Z.leb_le _ _)) by (unfold u32_max; lia). cbn [andb]. do 2 f_equal. lia.
Qed.

Lemma surrogate_string code rest fuel :
  (0xD800 ≤ code ≤ 0xDFFF)%Z →
  string_loop (S fuel) "" (bstr BACKSLASH +:+ "u" +:+ fmt_04x code +:+ rest) = (Err Malformed, rest).
Proof.
  intros Hc.
  assert (escaped (String "u" (fmt_04x code +:+ rest)) = (Err Malformed, rest)) as He.
  { change (escaped (String "u" (fmt_04x code +:+ rest))) with
      (st_bind hex4 (λ code, match char_from_u32 code with
                             | Some ch => st_ret ch | None => st_throw Malformed end)
         (fmt_04x code +:+ rest)).
    unfold st_bind. rewrite hex4_fmt by lia. unfold char_from_u32. by rewrite in_range_true. }
  change (string_loop (S fuel) "" ?s) with
    (st_bind escaped (λ ch, string_loop fuel ("" +:+ ch)) (String "u" (fmt_04x code +:+ rest))).
  unfold st_bind. by rewrite He.
Qed.

(** An escape of a surrogate code is refused wherever the string goes on,
    so a character outside the basic plane written as the pair of escapes the
    JSON grammar prescribes makes the document malformed; while numbers with
    leading zeros or a bare point, a plus sign among the hexadecimal digits,
    and form feeds between tokens, which the grammar excludes, are read. *)
Theorem parse_differs_from_grammar (code : Z) (rest : string) :
  (0xD800 ≤ code ≤ 0xDFFF)%Z →
  parse (dquote +:+ bstr BACKSLASH +:+ "u" +:+ fmt_04x code +:+ rest) = Err Malformed ∧
  parse "[01, -.5, 1.]" = Ok (Arr [Int 1; Float (f64_of_decimal true 5 (-1)); Float (f64_of_decimal false 1 0)]) ∧
  parse (dquote +:+ "\u+041" +:+ dquote) = Ok (Str "A") ∧
  parse (bstr (byte_of 0x0C) +:+ "7") = Ok (Int 7).
Proof.
  intros Hc. split; [|vm_compute; done].
  set (t := bstr BACKSLASH +:+ "u" +:+ fmt_04x code +:+ rest).
  change (dquote +:+ t) with (String DQUOTE t).
  assert (∀ n, value (S n) 0 (String DQUOTE t) = (Err Malformed, rest)) as Hv.
  { intros n. change (value (S n) 0 (String DQUOTE t)) with
      (st_bind (string_loop (S (String.length t)) "") (λ s, st_ret (Str s)) t).
    unfold st_bind, t. by rewrite surrogate_string. }
  unfold parse, parse_doc, st_bind. cbn [skip_ws drop_ws]. unfold skip_ws. cbn [drop_ws].
  change (is_ascii_whitespace DQUOTE) with false. cbn iota beta.
  replace (2 * String.length (String DQUOTE t) + 2) with (S (2 * String.length (String DQUOTE t) + 1)) by lia.
  by rewrite Hv.
Qed.

Lemma parse_differs_from_grammar_witness :
  parse (dquote +:+ bstr BACKSLASH +:+ "u" +:+ fmt_04x 0xD83D +:+
         (bstr BACKSLASH +:+ "ude00" +:+ dquote)) = Err Malformed.
Proof. apply (parse_differs_from_grammar 0xD83D). lia. Defined.
