(* ===== verification/Http.v ===== *)
(** * Http: requests, responses and URLs (calcar-connect)

    The parts of [server.rs] and [auth.rs] that look at one HTTP request: the
    bearer check, the body reader, the URL splitting and percent-decoding, the
    route table, and the JSON responses.  A request is what the server asks of
    [tiny_http]: method, URL, headers, and what successive reads of the body
    return.  How [tiny_http] compares header names is a parameter. *)

From S2P Require Import Prelude Text BTree Json.
From Stdlib Require Import Ascii.

(** ** Requests and responses *)

Inductive Method := Get | Post | OtherMethod (name : string).

(** One [Read::read] of the body: bytes (none at the end) or an IO error. *)
Inductive ReadResult := Chunk (bytes : string) | ReadError.

Record Request := mk_request {
  hr_method : Method;
  hr_url : string;
  hr_headers : list (string * string);
  hr_reads : list ReadResult;
}.

Record Response := mk_response {
  rp_status : Z;
  rp_body : string;
  rp_json : bool;
}.

(** [HeaderField::equiv] of tiny_http *)
Class HeaderNames := { equiv : string → string → bool }.

(** ** Bearer token: [auth.rs] *)

(** [constant_eq]: the whole of both slices is walked. *)
Fixpoint xor_diff (left right : string) (diff : Z) : Z :=
  match left, right with
  | String a left', String b right' =>
      xor_diff left' right' (Z.lor diff (Z.lxor (byte_val a) (byte_val b)))
  | _, _ => diff
  end.

Definition constant_eq (left right : string) : bool :=
  if negb (Nat.eqb (String.length left) (String.length right)) then false
  else (xor_diff left right 0 =? 0)%Z.

Fixpoint bearer_headers `{HeaderNames} (headers : list (string * string)) (token : string) : bool :=
  match headers with
  | [] => false
  | (field, value) :: rest =>
      if negb (equiv field "Authorization") then bearer_headers rest token
      else match strip_prefix "Bearer " value with
           | Some presented => constant_eq (trim presented) token
           | None => bearer_headers rest token
           end
  end.

(** [bearer_ok] *)
Definition bearer_ok `{HeaderNames} (request : Request) (token : string) : bool :=
  bearer_headers (hr_headers request) token.

(** [request_id_of] *)
Fixpoint request_id_headers `{HeaderNames} (headers : list (string * string)) : option string :=
  match headers with
  | [] => None
  | (field, value) :: rest =>
      if equiv field "X-Request-ID" then
        if String.eqb (trim value) "" then request_id_headers rest else Some (trim value)
      else request_id_headers rest
  end.
Definition request_id_of `{HeaderNames} (request : Request) : option string :=
  request_id_headers (hr_headers request).

(** ** Bodies *)

Definition MAX_BODY_BYTES : Z := 1024 * 1024.

(** An error triple: status, code, message. *)
Definition Refusal : Type := Z * string * string.

Definition utf8_body (bytes : string) : result string Refusal :=
  if utf8_valid bytes then Ok bytes else Err (400%Z, "MALFORMED", "body must be UTF-8").

(** The loop of [read_body]; [bytes] is what was read so far. *)
Fixpoint read_loop (reads : list ReadResult) (bytes : string) : result string Refusal :=
  match reads with
  | [] => utf8_body bytes
  | Chunk c :: rest =>
      if String.eqb c "" then utf8_body bytes
      else if (MAX_BODY_BYTES <? Z.of_nat (String.length bytes + String.length c))%Z
      then Err (413%Z, "PAYLOAD_TOO_LARGE", "body exceeds 1 MiB")
      else read_loop rest (bytes +:+ c)
  | ReadError :: _ => Err (400%Z, "MALFORMED", "unreadable body")
  end.

(** [read_body] *)
Definition read_body (request : Request) : result string Refusal := read_loop (hr_reads request) "".

(** [parse_object] *)
Definition parse_object (body : string) : option Value :=
  match parse body with Ok (Obj m) => Some (Obj m) | _ => None end.

(** ** Responses *)

(** [json_status] *)
Definition json_status (status : Z) (body : Value) : Response :=
  mk_response status (render body) true.
(** [json_ok] *)
Definition json_ok (body : Value) : Response := json_status 200 body.
(** [error_body] *)
Definition error_body (status : Z) (code message : string) : Response :=
  json_status status (obj [("code", Str code); ("message", Str message)]).

(** [short_error]: the first line, at most 160 characters. *)
Definition short_error (detail : string) : string :=
  sconcat (take 160 (chars (default "error" (head (lines detail))))).

(** ** URLs *)

(** [split_path] *)
Definition split_path (url : string) : string * string :=
  match split_once "?" url with
  | Some (path, query) => (path, query)
  | None => (url, "")
  end.

(** [hex_val] *)
Definition hex_val (byte : ascii) : option Z :=
  let v := byte_val byte in
  if in_range 0x30 0x39 v then Some (v - 0x30)%Z
  else if in_range 0x61 0x66 v then Some (v - 0x61 + 10)%Z
  else if in_range 0x41 0x46 v then Some (v - 0x41 + 10)%Z
  else None.

(** The bytes of [percent_decode]: the first byte of [s], decoded with the two
    after it when they are hexadecimal digits. *)
Fixpoint percent_bytes (s : string) : string :=
  match s with
  | String b rest =>
      match rest with
      | String h (String l rest') =>
          match (if Ascii.eqb b "%" then hex_val h else None), hex_val l with
          | Some hi, Some lo => String (byte_of (Z.lor (Z.shiftl hi 4) lo)) (percent_bytes rest')
          | _, _ => String b (percent_bytes rest)
          end
      | _ => String b (percent_bytes rest)
      end
  | "" => ""
  end.

(** [percent_decode] *)
Definition percent_decode (part : string) : string := from_utf8_lossy (percent_bytes part).

(** [path_segments] *)
Definition path_segments (path : string) : list string :=
  percent_decode <$> filter (λ part, part ≠ "") (split "/" path).

Fixpoint query_pairs (pairs : list string) (key : string) : option string :=
  match pairs with
  | [] => None
  | item :: rest =>
      let '(name, value) := default (item, "") (split_once "=" item) in
      if String.eqb (percent_decode name) key then Some (percent_decode value)
      else query_pairs rest key
  end.
(** [query_value] *)
Definition query_value (query key : string) : option string := query_pairs (split "&" query) key.

(** The arms of [reply]. *)
Inductive Route :=
| Devices (query : string)
| Computer (id : string)
| Sysinfo (id : string)
| WorkflowSnapshot (computer workflow : string)
| ApprovalRoute (workflow : string)
| InputRoute (workflow : string)
| UnknownRoute.

Definition route (method : Method) (url : string) : Route :=
  let '(path, query) := split_path url in
  match method, path_segments path with
  | Get, ["v1"; "agent"; "devices"] => Devices query
  | Get, ["v1"; "agent"; "computers"; id] => Computer id
  | Get, ["v1"; "agent"; "computers"; id; "sysinfo"] => Sysinfo id
  | Get, ["v1"; "agent"; "computers"; computer; "workflows"; workflow] =>
      WorkflowSnapshot computer workflow
  | Post, ["v1"; "agent"; "workflows"; workflow; "approvals"] => ApprovalRoute workflow
  | Post, ["v1"; "agent"; "workflows"; workflow; "inputs"] => InputRoute workflow
  | _, _ => UnknownRoute
  end.

(** ** The bearer check *)

Lemma byte_lxor_zero a b : Z.lxor (byte_val a) (byte_val b) = 0%Z → a = b.
Proof. intros H%Z.lxor_eq. by apply byte_val_inj. Qed.

Lemma xor_diff_zero left right diff :
  String.length left = String.length right →
  xor_diff left right diff = 0%Z ↔ diff = 0%Z ∧ left = right.
Proof.
  revert right diff. induction left as [|a left IH]; intros [|b right] diff;
    [cbn; naive_solver|done|done|].
  intros [= Hlen]. cbn [xor_diff]. rewrite IH by done. rewrite Z.lor_eq_0_iff. split.
  - intros [[-> H] ->]. split; [done|]. by rewrite (byte_lxor_zero a b H).
  - intros [-> [= -> ->]]. by rewrite Z.lxor_nilpotent.
Qed.

Lemma constant_eq_spec left right : constant_eq left right = bool_decide (left = right).
Proof.
  unfold constant_eq. destruct (Nat.eqb_spec (String.length left) (String.length right)) as [Hl|Hl].
  - cbn [negb]. pose proof (xor_diff_zero left right 0 Hl) as H.
    destruct (Z.eqb_spec (xor_diff left right 0) 0) as [E|E]; symmetry.
    + apply bool_decide_eq_true. tauto.
    + apply bool_decide_eq_false. tauto.
  - cbn [negb]. symmetry. apply bool_decide_eq_false. congruence.
Qed.

(** A header of the [Bearer] scheme, and the token it presents. *)
Definition presents `{HeaderNames} (header : string * string) (presented : string) : Prop :=
  equiv header.1 "Authorization" = true ∧
  ∃ rest, header.2 = "Bearer " +:+ rest ∧ presented = trim rest.

(** The bearer check.  A request passes exactly when it has an
    [Authorization] header of the [Bearer] scheme and the first such header,
    trimmed, is the token, byte for byte; other headers and other schemes do not
    matter, and a later correct header does not help. *)
Theorem bearer_ok_spec `{HeaderNames} (request : Request) (token : string) :
  bearer_ok request token = true ↔
  ∃ before header after, hr_headers request = before ++ header :: after ∧
    presents header token ∧ Forall (λ h, ∀ t, ¬ presents h t) before.
Proof.
  unfold bearer_ok. generalize (hr_headers request). intros headers. split.
  - induction headers as [|[field value] rest IH]; [done|]. cbn [bearer_headers].
    destruct (equiv field "Authorization") eqn:Ef; cbn [negb].
    + destruct (strip_prefix "Bearer " value) as [p|] eqn:Ep.
      * rewrite constant_eq_spec. intros <-%bool_decide_eq_true.
        apply strip_prefix_Some in Ep. exists [], (field, value), rest. split; [done|].
        split; [|constructor]. split; [done|]. eauto.
      * intros (before & h & after & -> & Hp & Hb)%IH.
        exists ((field, value) :: before), h, after. split_and!; [done..|]. constructor; [|done].
        intros t (_ & r & Hv & _). cbn in Hv. by rewrite Hv, strip_prefix_app in Ep.
    + intros (before & h & after & -> & Hp & Hb)%IH.
      exists ((field, value) :: before), h, after. split_and!; [done..|]. constructor; [|done].
      intros t [Hv _]. cbn in Hv. congruence.
  - intros (before & [field value] & after & -> & (Hf & r & Hv & ->) & Hb). cbn in Hf, Hv.
    induction Hb as [|[f v] before Hh Hb IH]; cbn [app bearer_headers].
    + rewrite Hf, Hv, strip_prefix_app. cbn [negb]. rewrite constant_eq_spec.
      by apply bool_decide_eq_true.
    + destruct (equiv f "Authorization") eqn:Ef; cbn [negb]; [|done].
      destruct (strip_prefix "Bearer " v) as [p|] eqn:Ep; [|done].
      apply strip_prefix_Some in Ep. exfalso. eapply (Hh (trim p)). split; [done|]. eauto.
Qed.

(** ** Bodies *)

Definition body_of (chunks : list string) : string := sconcat chunks.

(** What the reader may do after the last byte. *)
Definition at_end (tail : list ReadResult) : bool :=
  match tail with [] => true | Chunk c :: _ => String.eqb c "" | ReadError :: _ => true end.

Lemma slength_sconcat chunks :
  String.length (sconcat chunks) = sum_list_with String.length chunks.
Proof. induction chunks as [|c l IH]; [done|]. simpl. by rewrite sapp_length, IH. Qed.

(** Reading a body.  However the body is cut into reads, it is refused with
    413 exactly when it is longer than 1 MiB, even when a later read would fail;
    otherwise a failed read is 400, a body that is not UTF-8 is 400, and any
    other body is handed on whole. *)
Theorem read_body_spec (chunks : list string) (tail : list ReadResult) (request : Request) :
  hr_reads request = (Chunk <$> chunks) ++ tail →
  Forall (λ c, c ≠ "") chunks → at_end tail = true →
  read_body request =
    let body := body_of chunks in
    if (MAX_BODY_BYTES <? Z.of_nat (String.length body))%Z
    then Err (413%Z, "PAYLOAD_TOO_LARGE", "body exceeds 1 MiB")
    else match tail with
         | ReadError :: _ => Err (400%Z, "MALFORMED", "unreadable body")
         | _ => if utf8_valid body then Ok body else Err (400%Z, "MALFORMED", "body must be UTF-8")
         end.
Proof.
  intros Hr Hc Ht. unfold read_body. rewrite Hr. clear Hr.
  cut (∀ bytes, (Z.of_nat (String.length bytes) ≤ MAX_BODY_BYTES)%Z →
    read_loop ((Chunk <$> chunks) ++ tail) bytes =
    let body := bytes +:+ body_of chunks in
    if (MAX_BODY_BYTES <? Z.of_nat (String.length body))%Z
    then Err (413%Z, "PAYLOAD_TOO_LARGE", "body exceeds 1 MiB")
    else match tail with
         | ReadError :: _ => Err (400%Z, "MALFORMED", "unreadable body")
         | _ => utf8_body body
         end).
  { intros H. apply (H ""). unfold MAX_BODY_BYTES. simpl. lia. }
  unfold body_of. induction Hc as [|c chunks Hc Hcs IH]; intros bytes Hb; cbn [fmap list_fmap app].
  - simpl. rewrite sapp_nil_r, (proj2 (Z.ltb_ge _ _)) by done.
    destruct tail as [|[c|] tail]; [done| |done]. cbn in Ht |- *. by rewrite Ht.
  - cbn [read_loop]. rewrite (proj2 (String.eqb_neq _ _)) by done.
    rewrite <-sapp_length. destruct (Z.ltb_spec MAX_BODY_BYTES (Z.of_nat (String.length (bytes +:+ c)))).
    + simpl. rewrite (proj2 (Z.ltb_lt _ _)); [done|]. rewrite !sapp_length in *. lia.
    + rewrite IH by done. simpl. by rewrite sapp_assoc.
Qed.

Lemma read_body_spec_witness :
  read_body (mk_request Post "/v1/agent/workflows/wf/inputs" [] [Chunk "{"; Chunk "}"; Chunk ""; ReadError])
    = Ok "{}".
Proof.
  rewrite (read_body_spec ["{"; "}"] [Chunk ""; ReadError]); [vm_compute; reflexivity|reflexivity| |reflexivity].
  repeat constructor; done.
Defined.
