(* ===== verification/HttpFacts.v ===== *)
(** * HttpFacts: URLs in and out

    Percent-encoding a string and decoding it gives it back, and the URL of a
    route is routed to it, whatever the ids hold. *)

From S2P Require Import Prelude Text BTree Json JsonFacts JsonRound Http.
From Stdlib Require Import Ascii.

(** ** Percent-encoding *)

(** One byte, kept or written as a percent sign and two digits. *)
Definition encode_byte (keep : ascii → bool) (b : ascii) : string :=
  if keep b then bstr b
  else String "%" (String (hex_digit (byte_val b `div` 16)) (bstr (hex_digit (byte_val b `mod` 16)))).

Fixpoint percent_encode (keep : ascii → bool) (s : string) : string :=
  match s with
  | "" => ""
  | String b s' => encode_byte keep b +:+ percent_encode keep s'
  end.

Lemma percent_bytes_plain b rest :
  b ≠ "%"%char → percent_bytes (String b rest) = String b (percent_bytes rest).
Proof.
  intros Hb. cbn [percent_bytes]. rewrite (proj2 (Ascii.eqb_neq _ _) Hb).
  by destruct rest as [|h [|l rest']].
Qed.

Lemma hex_val_digit d : (0 ≤ d < 16)%Z → hex_val (hex_digit d) = Some d.
Proof.
  intros H. assert (d ∈ seqZ 0 16) as Hd by (apply elem_of_seqZ; lia).
  repeat (apply elem_of_cons in Hd as [->|Hd]; [by vm_compute|]). by apply elem_of_nil in Hd.
Qed.

Lemma nibbles v : (0 ≤ v < 256)%Z → Z.lor (Z.shiftl (v `div` 16) 4) (v `mod` 16) = v.
Proof.
  intros H.
  assert (forallb (λ v, Z.lor (Z.shiftl (v `div` 16) 4) (v `mod` 16) =? v)%Z (seqZ 0 256) = true)
    as Hall by (vm_compute; reflexivity).
  rewrite forallb_forall in Hall. apply Z.eqb_eq, Hall, list_elem_of_In, elem_of_seqZ. lia.
Qed.

Lemma percent_bytes_coded b rest :
  percent_bytes (String "%" (String (hex_digit (byte_val b `div` 16))
    (String (hex_digit (byte_val b `mod` 16)) rest))) = String b (percent_bytes rest).
Proof.
  pose proof (byte_val_range b). pose proof (Z.mod_pos_bound (byte_val b) 16 ltac:(done)).
  assert (0 ≤ byte_val b `div` 16 < 16)%Z
    by (split; [apply Z.div_pos|apply Z.div_lt_upper_bound]; lia).
  cbn [percent_bytes Ascii.eqb Bool.eqb]. rewrite !hex_val_digit by done.
  by rewrite nibbles, byte_of_val.
Qed.

Lemma percent_decode_encode keep s :
  keep "%"%char = false → utf8_valid s = true → percent_decode (percent_encode keep s) = s.
Proof.
  intros Hk Hs. unfold percent_decode.
  assert (percent_bytes (percent_encode keep s) = s) as ->; [|by apply from_utf8_lossy_id].
  clear Hs. induction s as [|b s IH]; [done|]. cbn [percent_encode]. unfold encode_byte.
  destruct (keep b) eqn:Eb.
  - change (bstr b +:+ ?t) with (String b t). rewrite percent_bytes_plain, IH; [done|congruence].
  - rewrite !sapp_cons. change (bstr ?d +:+ ?t) with (String d t). by rewrite percent_bytes_coded, IH.
Qed.

(** Bytes that a path segment may hold as they are. *)
Definition unreserved (b : ascii) : bool :=
  let v := byte_val b in
  in_range 0x30 0x39 v || in_range 0x41 0x5A v || in_range 0x61 0x7A v ||
  Ascii.eqb b "-" || Ascii.eqb b "_" || Ascii.eqb b "." || Ascii.eqb b "~".

Definition encode_segment (s : string) : string := percent_encode unreserved s.

(** ** Splitting a path *)

Definition is_delimiter (c : ascii) : bool := Ascii.eqb c "/" || Ascii.eqb c "?".

Lemma hex_digit_plain d c : (0 ≤ d < 16)%Z → is_delimiter c = true → Ascii.eqb (hex_digit d) c = false.
Proof.
  intros H Hc. apply orb_true_iff in Hc.
  assert (d ∈ seqZ 0 16) as Hd by (apply elem_of_seqZ; lia).
  destruct Hc as [->%Ascii.eqb_eq | ->%Ascii.eqb_eq];
    (repeat (apply elem_of_cons in Hd as [->|Hd]; [by vm_compute|])); by apply elem_of_nil in Hd.
Qed.

Lemma encode_segment_plain c s :
  is_delimiter c = true → contains_byte c (encode_segment s) = false.
Proof.
  intros Hc. induction s as [|b s IH]; [done|]. unfold encode_segment in *. cbn [percent_encode].
  rewrite contains_byte_app, IH, orb_false_r. unfold encode_byte. destruct (unreserved b) eqn:Eb.
  - cbn. rewrite orb_false_r. destruct (Ascii.eqb_spec b c) as [->|]; [|done].
    apply orb_true_iff in Hc as [->%Ascii.eqb_eq | ->%Ascii.eqb_eq]; done.
  - pose proof (byte_val_range b). pose proof (Z.mod_pos_bound (byte_val b) 16 ltac:(done)).
    assert (0 ≤ byte_val b `div` 16 < 16)%Z
      by (split; [apply Z.div_pos|apply Z.div_lt_upper_bound]; lia).
    cbn [contains_byte bstr]. rewrite !hex_digit_plain by done.
    apply orb_true_iff in Hc as [->%Ascii.eqb_eq | ->%Ascii.eqb_eq]; done.
Qed.

Lemma encode_segment_ne s : s ≠ "" → encode_segment s ≠ "".
Proof.
  destruct s as [|b s]; [done|]. unfold encode_segment. cbn [percent_encode]. unfold encode_byte.
  by destruct (unreserved b).
Qed.

(** A path of segments, and the slashes that may trail it. *)
Definition path_of (segments : list string) : string := sconcat ((λ s, "/" +:+ s) <$> segments).
Fixpoint slashes (n : nat) : string := match n with 0 => "" | S n' => String "/" (slashes n') end.

Definition nonempty_parts (s : string) : list string := filter (λ part, part ≠ "") (split "/" s).

Lemma nonempty_slash t : nonempty_parts (String "/" t) = nonempty_parts t.
Proof. done. Qed.

Lemma nonempty_segment seg t :
  contains_byte "/" seg = false → seg ≠ "" → (t = "" ∨ ∃ t', t = String "/" t') →
  nonempty_parts (seg +:+ t) = seg :: nonempty_parts t.
Proof.
  intros Hs Hn Ht.
  assert (split "/" (seg +:+ t) = seg :: match t with "" => [] | _ => split "/" (match t with String _ t' => t' | "" => "" end) end) as E.
  { clear Hn. induction seg as [|b seg IH]; cbn [contains_byte] in Hs.
    - rewrite sapp_nil_l. by destruct Ht as [->|[t' ->]].
    - apply orb_false_iff in Hs as [Hb Hs]. rewrite sapp_cons. cbn [split]. by rewrite Hb, IH. }
  unfold nonempty_parts. rewrite E, filter_cons_True by done. f_equal.
  destruct Ht as [->|[t' ->]]; done.
Qed.

Lemma path_parts segments n :
  Forall (λ s, contains_byte "/" s = false ∧ s ≠ "") segments →
  nonempty_parts (path_of segments +:+ slashes n) = segments.
Proof.
  induction 1 as [|s l [Hs Hn] Hl IH].
  - rewrite sapp_nil_l. induction n as [|n IHn]; [done|]. cbn [slashes]. by rewrite nonempty_slash.
  - change (path_of (s :: l)) with (String "/" s +:+ path_of l).
    rewrite sapp_assoc, sapp_cons, nonempty_slash, nonempty_segment; [by rewrite IH|done..|].
    destruct l as [|s' l]; cbn; [|right; eauto]. destruct n; [left|right]; cbn; eauto.
Qed.

Lemma path_no_query segments n :
  Forall (λ s, contains_byte "?" s = false) segments →
  contains_byte "?" (path_of segments +:+ slashes n) = false.
Proof.
  intros H. rewrite contains_byte_app. apply orb_false_iff. split.
  - induction H as [|s l Hs Hl IH]; [done|].
    change (path_of (s :: l)) with (String "/" s +:+ path_of l).
    rewrite contains_byte_app, IH, orb_false_r. cbn [contains_byte]. by rewrite Hs.
  - induction n as [|n IH]; [done|]. cbn. done.
Qed.

(** ** Routes *)

Definition route_method (r : Route) : Method :=
  match r with ApprovalRoute _ | InputRoute _ => Post | _ => Get end.

Definition route_segments (r : Route) : list string :=
  match r with
  | Devices _ => ["v1"; "agent"; "devices"]
  | Computer id => ["v1"; "agent"; "computers"; id]
  | Sysinfo id => ["v1"; "agent"; "computers"; id; "sysinfo"]
  | WorkflowSnapshot computer workflow => ["v1"; "agent"; "computers"; computer; "workflows"; workflow]
  | ApprovalRoute workflow => ["v1"; "agent"; "workflows"; workflow; "approvals"]
  | InputRoute workflow => ["v1"; "agent"; "workflows"; workflow; "inputs"]
  | UnknownRoute => []
  end.

Definition route_query (r : Route) : string := match r with Devices q => q | _ => "" end.

Definition route_ok (r : Route) : bool :=
  match r with UnknownRoute => false | _ => true end &&
  forallb (λ s, utf8_valid s && negb (String.eqb s "")) (route_segments r).

(** The URL of a route, with any number of slashes after its path. *)
Definition route_url (r : Route) (trailing : nat) : string :=
  path_of (encode_segment <$> route_segments r) +:+ slashes trailing +:+ "?" +:+ route_query r.

Lemma route_parts r trailing :
  route_ok r = true →
  split_path (route_url r trailing) =
    (path_of (encode_segment <$> route_segments r) +:+ slashes trailing, route_query r) ∧
  path_segments (path_of (encode_segment <$> route_segments r) +:+ slashes trailing) = route_segments r.
Proof.
  intros [_ Hok]%andb_true_iff. rewrite forallb_forall in Hok.
  assert (∀ s, s ∈ route_segments r → utf8_valid s = true ∧ s ≠ "") as Hs.
  { intros s Hin. apply list_elem_of_In in Hin.
    apply Hok, andb_true_iff in Hin as [? H%negb_true_iff]. split; [done|].
    by apply String.eqb_neq. }
  clear Hok. split.
  - unfold split_path, route_url. rewrite <-sapp_assoc.
    change ("?" +:+ route_query r) with (String "?" (route_query r)).
    rewrite split_once_app; [done|]. apply path_no_query. apply Forall_fmap, Forall_forall.
    intros s _. by apply encode_segment_plain.
  - unfold path_segments. fold (nonempty_parts (path_of (encode_segment <$> route_segments r) +:+ slashes trailing)).
    rewrite path_parts.
    + induction (route_segments r) as [|s l IH]; [done|]. cbn [fmap list_fmap]. f_equal.
      * apply percent_decode_encode; [done|]. apply Hs. by left.
      * apply IH. intros s' H'. apply Hs. by right.
    + apply Forall_fmap, Forall_forall. intros s Hin. split; [by apply encode_segment_plain|].
      by apply encode_segment_ne, Hs.
Qed.

(** C38: the route table.  The percent-encoded URL of a route is routed to it,
    whatever bytes its ids hold, with any number of slashes after the path: a
    trailing slash routes like the path without it. *)
Theorem route_round_trip (r : Route) (trailing : nat) :
  route_ok r = true → route (route_method r) (route_url r trailing) = r.
Proof.
  intros Hok. destruct (route_parts r trailing Hok) as [Hp Hs]. unfold route. rewrite Hp, Hs.
  by destruct r.
Qed.

Lemma route_round_trip_witness :
  route Post "/v1/agent/workflows/wf%2f1%20%c3%a9/inputs/?" = InputRoute ("wf/1 " +:+ utf8_char [0xC3; 0xA9]%Z).
Proof.
  apply (route_round_trip (InputRoute ("wf/1 " +:+ utf8_char [0xC3; 0xA9]%Z)) 1). vm_compute. reflexivity.
Defined.
