(* ===== verification/Config.v ===== *)
(** * Config: [calcar-connect/src/config.rs]

    The [key=value] configuration file and the token file.  A file read is its
    text or the message of the IO error; how the platform splits paths is a
    parameter ([std::path] differs between Windows and Unix). *)

From S2P Require Import Prelude Text Schema BTree.
From S2P Require Import Lifecycle.
From Stdlib Require Import Ascii.

(** [Path::parent], [Path::join] and [Path::display] on the host *)
Class Paths := {
  path_parent : string → option string;
  path_join : string → string → string;
}.

(** [enum ConnectError] *)
Inductive ConnectError :=
| ConfigIo (message : string)
| BadConfig (path problem : string)
| Bind (addr detail : string)
| ConnectStorage (e : StorageError)
| ConnectLifecycle (e : LifecycleError).

(** [struct ConnectConfig] *)
Record ConnectConfig := mk_config {
  cf_port : Z;
  cf_token_file : string;
  cf_db_path : string;
  cf_computer_id : string;
  cf_display_name : string;
  cf_owner_device_id : string;
  cf_pubkey_b64 : string;
  cf_fingerprint : string;
  cf_cpu : string;
  cf_ram : string;
  cf_gpu : string;
  cf_disk : string;
  cf_exec_timeout_secs : Z;
}.

Definition ConfigM (A : Type) : Type := result A ConnectError.

(** The loop over [text.lines().enumerate()]; [index] counts from 0. *)
Fixpoint config_lines (path : string) (ls : list string) (index : Z) (map : btree string) :
    ConfigM (btree string) :=
  match ls with
  | [] => Ok map
  | raw :: rest =>
      let line := trim raw in
      if String.eqb line "" || starts_with "#" line then config_lines path rest (index + 1) map
      else match split_once "=" line with
           | None => Err (BadConfig path ("line " +:+ dec (index + 1) +:+ " is not key=value"))
           | Some (key, value) =>
               config_lines path rest (index + 1) (bt_insert (trim key) (trim value) map)
           end
  end.

(** The closures of [load] *)
Definition required (path : string) (map : btree string) (key : string) : ConfigM string :=
  match bt_get key map with
  | Some value => if String.eqb value "" then Err (BadConfig path ("missing required key " +:+ key))
                  else Ok value
  | None => Err (BadConfig path ("missing required key " +:+ key))
  end.
Definition optional (map : btree string) (key : string) : string := default "" (bt_get key map).

(** [.parse().ok().filter(|n| *n >= 1)] *)
Definition at_least_1 (n : option Z) : option Z :=
  match n with Some n => if (1 <=? n)%Z then Some n else None | None => None end.

(** [ConnectConfig::load] *)
Definition load (path : string) (read : result string string) : ConfigM ConnectConfig :=
  let? text := map_err ConfigIo read in
  let? map := config_lines path (lines text) 0 [] in
  let? port_text := required path map "port" in
  let? port := ok_or (at_least_1 (parse_u16 port_text))
                 (BadConfig path "port must be 1..=65535") in
  let exec_timeout_secs := default 30%Z (at_least_1 (parse_u64 (optional map "exec_timeout_secs"))) in
  let? computer_id := required path map "computer_id" in
  let display_name :=
    if String.eqb (optional map "display_name") "" then computer_id else optional map "display_name" in
  let? token_file := required path map "token_file" in
  let? db_path := required path map "db_path" in
  Ok (mk_config port token_file db_path computer_id display_name
        (optional map "owner_device_id") (optional map "pubkey_b64") (optional map "fingerprint")
        (optional map "cpu") (optional map "ram") (optional map "gpu") (optional map "disk")
        exec_timeout_secs).

(** [ConnectConfig::state_dir] *)
Definition state_dir `{Paths} (config : ConnectConfig) : string :=
  default "." (path_parent (cf_db_path config)).

(** [read_token] *)
Definition read_token (path : string) (read : result string string) : ConfigM string :=
  let? raw := map_err ConfigIo read in
  if String.eqb (trim raw) "" then Err (BadConfig path "token file is empty")
  else Ok (trim raw).

(** ** What a loaded configuration is *)

(** The key and value of one line. *)
Definition line_setting (raw : string) : option (string * string) :=
  let line := trim raw in
  if String.eqb line "" || starts_with "#" line then None
  else match split_once "=" line with
       | Some (key, value) => Some (trim key, trim value)
       | None => None
       end.

(** A line is skipped, or sets a key. *)
Definition line_ok (raw : string) : bool :=
  let line := trim raw in
  String.eqb line "" || starts_with "#" line || contains_byte "=" line.

(** The last setting of a key wins. *)
Fixpoint last_setting (key : string) (ls : list string) : option string :=
  match ls with
  | [] => None
  | raw :: rest =>
      match last_setting key rest with
      | Some v => Some v
      | None => match line_setting raw with
                | Some (k, v) => if String.eqb key k then Some v else None
                | None => None
                end
      end
  end.

Lemma config_lines_get path ls index map m key :
  config_lines path ls index map = Ok m →
  bt_get key m = match last_setting key ls with Some v => Some v | None => bt_get key map end.
Proof.
  revert index map. induction ls as [|raw rest IH]; intros index map; cbn [config_lines last_setting];
    [by intros [= ->]|].
  unfold line_setting. destruct (String.eqb (trim raw) "" || starts_with "#" (trim raw)).
  - intros H. rewrite (IH _ _ H). by destruct (last_setting key rest).
  - destruct (split_once "=" (trim raw)) as [[k v]|]; [|done].
    intros H. rewrite (IH _ _ H). destruct (last_setting key rest); [done|].
    rewrite bt_get_insert. by destruct (String.eqb key (trim k)).
Qed.

Lemma config_lines_err path ls index map e :
  config_lines path ls index map = Err e →
  ∃ before raw after, ls = before ++ raw :: after ∧ forallb line_ok before = true ∧
    line_ok raw = false ∧
    e = BadConfig path ("line " +:+ dec (index + Z.of_nat (length before) + 1) +:+ " is not key=value").
Proof.
  revert index map. induction ls as [|raw rest IH]; intros index map; cbn [config_lines]; [done|].
  assert (∀ m, line_ok raw = true → config_lines path rest (index + 1) m = Err e →
    ∃ before raw' after, raw :: rest = before ++ raw' :: after ∧ forallb line_ok before = true ∧
      line_ok raw' = false ∧
      e = BadConfig path ("line " +:+ dec (index + Z.of_nat (length before) + 1) +:+ " is not key=value"))
    as Hrec.
  { intros m Hl (before & r & after & -> & Hb & Hr & ->)%IH. exists (raw :: before), r, after.
    split_and!; [done|cbn; by rewrite Hl|done|]. cbn [length]. do 4 f_equal. lia. }
  destruct (String.eqb (trim raw) "" || starts_with "#" (trim raw)) eqn:Es.
  - apply Hrec. unfold line_ok. by rewrite Es.
  - destruct (split_once "=" (trim raw)) as [[k v]|] eqn:Ec.
    + apply Hrec. unfold line_ok. rewrite Es. destruct (contains_byte "=" (trim raw)) eqn:Eb; [done|].
      apply split_once_None in Eb. congruence.
    + intros [= <-]. exists [], raw, rest. split_and!; [done|done| |].
      * unfold line_ok. rewrite Es. by apply split_once_None in Ec.
      * cbn. do 4 f_equal. lia.
Qed.

(** The setting of a key is there and not empty. *)
Definition set_to (ls : list string) (key value : string) : Prop :=
  last_setting key ls = Some value ∧ value ≠ "".

(** A refusal: it names the file, and the first malformed line or the key. *)
Definition load_refused (path text : string) (e : ConnectError) : Prop :=
  match e with
  | BadConfig p problem =>
      p = path ∧
      ((∃ before raw after, lines text = before ++ raw :: after ∧
          forallb line_ok before = true ∧ line_ok raw = false ∧
          problem = "line " +:+ dec (Z.of_nat (length before) + 1) +:+ " is not key=value") ∨
       (∃ key, key ∈ ["port"; "computer_id"; "token_file"; "db_path"] ∧
          problem = "missing required key " +:+ key ∧
          default "" (last_setting key (lines text)) = "") ∨
       (problem = "port must be 1..=65535" ∧
        ∃ p, set_to (lines text) "port" p ∧ at_least_1 (parse_u16 p) = None))
  | _ => False
  end.

Lemma required_cases path text m key :
  config_lines path (lines text) 0 [] = Ok m → key ∈ ["port"; "computer_id"; "token_file"; "db_path"] →
  match required path m key with
  | Ok v => set_to (lines text) key v
  | Err e => load_refused path text e
  end.
Proof.
  intros Hm Hin. unfold required. rewrite (config_lines_get _ _ _ _ _ key Hm).
  destruct (last_setting key (lines text)) as [v|] eqn:E; cbn.
  - destruct (String.eqb_spec v "") as [->|Hn]; [|by split].
    split; [done|]. right. left. exists key. by rewrite E.
  - split; [done|]. right. left. exists key. by rewrite E.
Qed.

Lemma at_least_1_spec n k : at_least_1 n = Some k → n = Some k ∧ (1 ≤ k)%Z.
Proof. unfold at_least_1. destruct n as [n|]; [|done]. destruct (Z.leb_spec 1 n); [|done]. by intros [= ->]. Qed.

(** What a configuration that loads is, in terms of its text. *)
Definition load_result (text : string) (c : ConnectConfig) : Prop :=
  let ls := lines text in
  (1 ≤ cf_port c ≤ 65535)%Z ∧ (1 ≤ cf_exec_timeout_secs c ≤ u64_max)%Z ∧
  set_to ls "computer_id" (cf_computer_id c) ∧
  set_to ls "token_file" (cf_token_file c) ∧
  set_to ls "db_path" (cf_db_path c) ∧
  (∃ p, set_to ls "port" p ∧ parse_u16 p = Some (cf_port c)) ∧
  cf_display_name c = match last_setting "display_name" ls with
                      | Some name => if String.eqb name "" then cf_computer_id c else name
                      | None => cf_computer_id c
                      end ∧
  [cf_owner_device_id c; cf_pubkey_b64 c; cf_fingerprint c; cf_cpu c; cf_ram c; cf_gpu c; cf_disk c] =
  (λ key, default "" (last_setting key ls)) <$>
    ["owner_device_id"; "pubkey_b64"; "fingerprint"; "cpu"; "ram"; "gpu"; "disk"].

(** The two outcomes of loading. *)
Lemma load_spec (path : string) (read : result string string) :
  match load path read with
  | Ok c => ∃ text, read = Ok text ∧ load_result text c
  | Err (ConfigIo e) => read = Err e
  | Err e => ∃ text, read = Ok text ∧ load_refused path text e
  end.
Proof.
  destruct read as [text|e]; [|done]. unfold load. cbn [map_err result_bind].
  assert (∀ e, load_refused path text e → match (Err e : ConfigM ConnectConfig) with
    | Ok c => ∃ t, Ok (E:=string) text = Ok t ∧ load_result t c
    | Err (ConfigIo e) => Ok text = Err e
    | Err e => ∃ t, Ok (E:=string) text = Ok t ∧ load_refused path t e end) as Hbad.
  { intros [] H; cbn in H; try done. exists text. by split. }
  destruct (config_lines path (lines text) 0 []) as [m|e] eqn:Hm; cbn [result_bind]; [|apply Hbad].
  2:{ apply config_lines_err in Hm as (b & r & a & Hl & Hb & Hr & ->). split; [done|]. left.
      by exists b, r, a. }
  pose proof (required_cases path text m) as Hreq.
  pose proof (Hreq "port" Hm ltac:(set_solver)) as Hp.
  destruct (required path m "port") as [p|e]; cbn [result_bind]; [|by apply Hbad].
  destruct (at_least_1 (parse_u16 p)) as [port|] eqn:Hport; cbn [ok_or result_bind].
  2:{ exists text. split; [done|]. split; [done|]. right. right. split; [done|]. by exists p. }
  pose proof (Hreq "computer_id" Hm ltac:(set_solver)) as Hc.
  destruct (required path m "computer_id") as [c|e]; cbn [result_bind]; [|by apply Hbad].
  pose proof (Hreq "token_file" Hm ltac:(set_solver)) as Ht.
  destruct (required path m "token_file") as [t|e]; cbn [result_bind]; [|by apply Hbad].
  pose proof (Hreq "db_path" Hm ltac:(set_solver)) as Hd.
  destruct (required path m "db_path") as [d|e]; cbn [result_bind]; [|by apply Hbad].
  exists text. split; [done|]. apply at_least_1_spec in Hport as [Hp1 Hp2].
  pose proof (from_str_radix_bounds _ _ _ _ _ _ Hp1) as Hpb.
  assert (∀ key, bt_get key m = last_setting key (lines text)) as Hget.
  { intros key. rewrite (config_lines_get _ _ _ _ _ key Hm). by destruct (last_setting key (lines text)). }
  unfold load_result, optional; cbn. rewrite !Hget. split_and!; try done.
  - unfold u16_max in Hpb. lia.
  - destruct (at_least_1 _) as [k|] eqn:Ek; cbn; [|lia]. by apply at_least_1_spec in Ek as [_ ?].
  - destruct (at_least_1 _) as [k|] eqn:Ek; cbn; [|unfold u64_max; lia].
    apply at_least_1_spec in Ek as [Ek _]. by apply from_str_radix_bounds in Ek as [_ ?].
  - by exists p.
  - destruct (last_setting "display_name" (lines text)) as [n|]; cbn; [|done]. by destruct (String.eqb n "").
Qed.

(** Loading the configuration.  A configuration that loads has a port in
    1..=65535 and a timeout of at least a second, its fields are the last
    settings of their keys in the file, the four required ones not empty, and
    the display name falls back to the computer id; every other file is refused
    with an error that names the file and the first malformed line, the missing
    key, or the port, never a value. *)
Theorem config_load_spec (path : string) (read : result string string) :
  match load path read with
  | Ok c => ∃ text, read = Ok text ∧ load_result text c
  | Err (ConfigIo e) => read = Err e
  | Err e => ∃ text, read = Ok text ∧ load_refused path text e
  end.
Proof. apply load_spec. Qed.
