(* ===== verification/Exec.v ===== *)
(** * Exec: [calcar-connect/src/exec.rs]

    One generic command: the checks before it, its bounded run over the plain
    child, the input-id alphabet, and the tail text that is kept of its output.
    What the operating system does with one command is a [Run]. *)

From S2P Require Import Prelude Text Quote Plain.
From Stdlib Require Import Ascii.

Definition TAIL_FILE_BYTES : Z := 256 * 1024.

(** [enum ExecError] *)
Inductive ExecError :=
| ExecSpawn (message : string)
| ExecTimeout
| ExecJoin (message : string)
| ExecIo (message : string).

(** [Display] of [ExecError] *)
Definition exec_display (e : ExecError) : string :=
  match e with
  | ExecSpawn m => "spawn failed: " +:+ m
  | ExecTimeout => "command timed out and was killed"
  | ExecJoin m => "output collection failed: " +:+ m
  | ExecIo m => "tail file io: " +:+ m
  end.

(** [struct ExecOutcome] *)
Record ExecOutcome := mk_outcome {
  eo_exit_code : Z;
  eo_stdout : string;
  eo_stderr : string;
  eo_truncated : bool;
}.

(** How the system treats one command: whether it starts, what happens until
    the bounded wait returns and whether that wait fails, then what happens
    until both pipes end. *)
Record Run := mk_run {
  run_spawn_error : option PtyError;
  run_before : list ChildEvent;
  run_wait_error : option PtyError;
  run_after : list ChildEvent;
}.

(** The argument vector of a command body. *)
Definition exec_argv (body : string) : list string := ["cmd.exe"; "/C"; body].

(** [run_generic], with whether a child was started.  The wait returns without
    a code when the child is still running at the timeout; dropping the child
    then ends its job. *)
Definition run_generic (body : string) (run : Run) : result ExecOutcome ExecError * bool :=
  if String.eqb (trim body) "" then (Err (ExecSpawn "command body must not be empty"), false)
  else match run_spawn_error run with
       | Some error => (Err (ExecSpawn (pty_display error)), false)
       | None =>
           let child := child_events (run_before run) (child_new (plain_config (exec_argv body))) in
           match child_poll (run_wait_error run) child with
           | (Err error, _) => (Err (ExecSpawn (pty_display error)), true)
           | (Ok (Some _), child) =>
               match child_join (run_after run) None child with
               | Err error => (Err (ExecJoin (pty_display error)), true)
               | Ok output =>
                   (Ok (mk_outcome (default 1%Z (po_exit_code output)) (po_stdout output)
                          (po_stderr output) (po_truncated output)), true)
               end
           | (Ok None, _) => (Err ExecTimeout, true)
           end
       end.

(** [check_input_id] *)
Definition id_byte (b : ascii) : bool :=
  let v := byte_val b in
  in_range 0x30 0x39 v || in_range 0x41 0x5A v || in_range 0x61 0x7A v ||
  Ascii.eqb b "-" || Ascii.eqb b "_".
Definition id_char (ch : string) : bool :=
  match ch with String b "" => id_byte b | _ => false end.
Definition check_input_id (input_id : string) : bool :=
  if String.eqb input_id "" || (128 <? slen input_id)%Z then false
  else forallb id_char (chars input_id).

(** [str::is_char_boundary], seen from the text after the index. *)
Definition is_continuation (b : ascii) : bool := in_range 0x80 0xBF (byte_val b).

Fixpoint bytes_from (n : nat) (s : string) : string :=
  match n, s with
  | 0, _ => s
  | S n', String _ s' => bytes_from n' s'
  | S _, "" => ""
  end.

(** [while start < len && !is_char_boundary(start) { start += 1 }] *)
Fixpoint skip_continuation (s : string) : string :=
  match s with
  | String b s' => if is_continuation b then skip_continuation s' else s
  | "" => ""
  end.

(** [tail_bytes] *)
Definition tail_bytes (text : string) (max_bytes : Z) : string * bool :=
  if (slen text <=? max_bytes)%Z then (text, false)
  else (skip_continuation (bytes_from (Z.to_nat (slen text - max_bytes)) text), true).

(** The text [write_tail] keeps of an outcome, whether it was cut, and the
    body of the file. *)
Definition tail_text (outcome : ExecOutcome) : string :=
  let text := from_utf8_lossy (eo_stdout outcome) in
  let stderr := from_utf8_lossy (eo_stderr outcome) in
  if String.eqb stderr "" then text
  else text +:+ newline +:+ "--- stderr ---" +:+ newline +:+ stderr.

Definition tail_file (outcome : ExecOutcome) : string * bool :=
  let '(kept, cut) := tail_bytes (tail_text outcome) TAIL_FILE_BYTES in
  let file_cut := cut || eo_truncated outcome in
  ((if file_cut then "...truncated" +:+ newline else "") +:+ kept, file_cut).

Definition tail_name (workflow_id input_id : string) : string :=
  workflow_id +:+ "-" +:+ input_id +:+ ".log".

(** How a body with quotes reaches [cmd.exe]: the quoting of [command_line]
    is for programs that split arguments as the C runtime does; [cmd] passes
    the backslashes on. *)
Example quoted_body :
  command_line (exec_argv ("echo " +:+ dquote +:+ "a b" +:+ dquote)) =
  Ok ("cmd.exe /C " +:+ dquote +:+ "echo \" +:+ dquote +:+ "a b\" +:+ dquote +:+ dquote).
Proof. reflexivity. Qed.

(** ** Input ids and tail names *)

Fixpoint all_bytes (f : ascii → bool) (s : string) : bool :=
  match s with "" => true | String b s' => f b && all_bytes f s' end.

Lemma id_byte_ascii b : id_byte b = true → (byte_val b < 128)%Z.
Proof.
  unfold id_byte, in_range. rewrite !orb_true_iff, !Ascii.eqb_eq.
  intros [[[[?|?]|?]| ->]| ->]; try (eval_bytes; lia); lia.
Qed.

Lemma id_chars_bytes s : utf8_valid s = true → forallb id_char (chars s) = all_bytes id_byte s.
Proof.
  revert s. apply utf8_ind; [done|]. intros c s Hc Hs IH. rewrite chars_app by done. cbn [forallb].
  rewrite IH. destruct c as [|b c]; [done|]. destruct c as [|b' c].
  - done.
  - cbn [id_char andb]. rewrite sapp_cons. cbn [all_bytes]. symmetry.
    destruct (id_byte b) eqn:Hb; [|done]. exfalso.
    apply is_char_spec in Hc as (_ & _ & Ht). change (String b (String b' c)) with (bstr b +:+ String b' c) in Ht.
    rewrite take_char_app in Ht by (by apply is_char_ascii, id_byte_ascii). done.
Qed.

Lemma all_bytes_contains f c s : all_bytes f s = true → f c = false → contains_byte c s = false.
Proof.
  intros Hs Hc. induction s as [|b s IH]; [done|]. cbn in *. apply andb_true_iff in Hs as [Hb Hs].
  rewrite IH by done. destruct (Ascii.eqb_spec b c) as [->|]; [congruence|done].
Qed.

(** Input ids.  The check accepts exactly the ids of 1 to 128 letters,
    digits, hyphens and underscores, so an id puts no dot, colon or path
    separator into the name of its tail file; what separators the name has come
    from the workflow id, which is not checked. *)
Theorem check_input_id_spec (workflow_id input_id : string) :
  utf8_valid input_id = true →
  check_input_id input_id =
    bool_decide (input_id ≠ "" ∧ (slen input_id ≤ 128)%Z ∧ all_bytes id_byte input_id = true) ∧
  (check_input_id input_id = true →
   Forall (λ c, contains_byte c input_id = false ∧
                contains_byte c (tail_name workflow_id input_id) = contains_byte c workflow_id)
     ["/"; "\"; ":"]%char).
Proof.
  intros Hv.
  assert (check_input_id input_id =
    bool_decide (input_id ≠ "" ∧ (slen input_id ≤ 128)%Z ∧ all_bytes id_byte input_id = true)) as Hc.
  { unfold check_input_id. rewrite id_chars_bytes by done.
    destruct (String.eqb_spec input_id "") as [->|Hn]; [done|].
    destruct (Z.ltb_spec 128 (slen input_id)); cbn; symmetry.
    - apply bool_decide_eq_false. lia.
    - destruct (all_bytes id_byte input_id) eqn:E;
        [apply bool_decide_eq_true|apply bool_decide_eq_false]; naive_solver. }
  split; [done|]. rewrite Hc. intros (_ & _ & Hall)%bool_decide_eq_true.
  assert (∀ c, c ∈ ["/"; "\"; ":"]%char → contains_byte c input_id = false) as H.
  { intros c Hin. apply (all_bytes_contains id_byte); [done|]. by set_unfold in Hin; destruct_or! Hin; subst. }
  apply Forall_forall. intros c Hin. split; [by apply H|]. unfold tail_name.
  rewrite !contains_byte_app, (H c Hin). by set_unfold in Hin; destruct_or! Hin; subst; rewrite !orb_false_r.
Qed.

Lemma check_input_id_spec_witness : check_input_id "3f2a-u_1" = true ∧ check_input_id "../u" = false.
Proof.
  split.
  - rewrite (proj1 (check_input_id_spec "wf" "3f2a-u_1" eq_refl)). vm_compute. reflexivity.
  - rewrite (proj1 (check_input_id_spec "wf" "../u" eq_refl)). vm_compute. reflexivity.
Defined.

(** ** The tail *)

(** How many bytes the decoder still expects. *)
Definition pending (st : ustate) : nat :=
  match st with U0 => 0 | U1 => 1 | U2 | UE0 | UED => 2 | U3 | UF0 | UF4 => 3 end.

Lemma ustep_pending st b st' :
  ustep st b = Some st' →
  (is_continuation b = true ↔ st ≠ U0) ∧ (st ≠ U0 → pending st = S (pending st')).
Proof.
  unfold ustep, is_continuation, in_range. intros H.
  destruct st; repeat case_match; simplify_eq; cbn; split; try (intros; done);
    split; intros; try done; lia.
Qed.

Lemma skip_continuation_ok st rest :
  urun st rest = Some U0 →
  utf8_valid (skip_continuation rest) = true ∧
  String.length rest ≤ String.length (skip_continuation rest) + pending st ∧
  ∃ d, rest = d +:+ skip_continuation rest.
Proof.
  revert st. induction rest as [|b rest IH]; intros st; cbn [urun skip_continuation].
  - intros [= ->]. split_and!; [done|cbn; lia|by exists ""].
  - destruct (ustep st b) as [st'|] eqn:Hst; [|done]. intros H.
    destruct (ustep_pending st b st' Hst) as [Hc Hp].
    destruct (is_continuation b) eqn:Eb.
    + destruct (IH st' H) as (Hv & Hl & d & Hd). rewrite Hp by (by apply Hc).
      split_and!; [done|cbn [String.length]; lia|]. exists (String b d). by rewrite sapp_cons, <-Hd.
    + assert (st = U0) as -> by (destruct (decide (st = U0)); [done|]; by apply Hc in n).
      split_and!; [|cbn; lia|by exists ""]. apply utf8_valid_iff. cbn [urun]. by rewrite Hst.
Qed.

Lemma bytes_from_split n s :
  s = stake n s +:+ bytes_from n s ∧ String.length (bytes_from n s) = String.length s - n.
Proof.
  revert s. induction n as [|n IH]; intros s; [by destruct s|].
  destruct s as [|b s]; [done|]. cbn [stake bytes_from]. rewrite sapp_cons.
  destruct (IH s) as [<- ->]. done.
Qed.

(** The tail of a text.  What is kept is a suffix of the text, in UTF-8, at
    most [max_bytes] long; it is the whole text exactly when the text fits, and
    when it does not, the character boundary costs at most three bytes. *)
Theorem tail_bytes_spec (text : string) (max_bytes : Z) :
  utf8_valid text = true → (0 ≤ max_bytes)%Z →
  let '(kept, cut) := tail_bytes text max_bytes in
  utf8_valid kept = true ∧ (∃ dropped, text = dropped +:+ kept) ∧ (slen kept ≤ max_bytes)%Z ∧
  (cut = false ∧ kept = text ∨
   cut = true ∧ (max_bytes < slen text)%Z ∧ (max_bytes - 3 ≤ slen kept)%Z).
Proof.
  intros Hv Hm. unfold tail_bytes. destruct (Z.leb_spec (slen text) max_bytes) as [Hl|Hl].
  { split_and!; [done|by exists ""|done|by left]. }
  set (n := Z.to_nat (slen text - max_bytes)).
  destruct (bytes_from_split n text) as [Hs Hlen].
  pose proof (proj1 (utf8_valid_iff text) Hv) as Hu. rewrite Hs, urun_app in Hu.
  destruct (urun U0 (stake n text)) as [st|]; [|done].
  destruct (skip_continuation_ok st _ Hu) as (Hk & Hlk & d & Hd).
  set (kept := skip_continuation (bytes_from n text)) in *. clearbody kept.
  assert (pending st ≤ 3) by (destruct st; cbn; lia).
  assert (String.length kept ≤ String.length (bytes_from n text)) by (rewrite Hd, sapp_length; lia).
  unfold slen in *. split_and!; [done| |lia|right; split_and!; [done|lia|lia]].
  exists (stake n text +:+ d). by rewrite sapp_assoc, <-Hd.
Qed.

Lemma tail_bytes_spec_witness :
  let text := "ab" +:+ utf8_char [0xC3; 0xA9]%Z +:+ "cd" in
  utf8_valid text = true ∧ tail_bytes text 3 = ("cd", true) ∧ (slen (tail_bytes text 3).1 ≤ 3)%Z.
Proof.
  intros text. split_and!; [reflexivity|reflexivity|].
  exact (proj1 (proj2 (proj2 (tail_bytes_spec text 3 eq_refl ltac:(lia))))).
Defined.

(** ** The bounded run *)

Lemma child_after_events config es :
  child_after (clamp_cap config) es (child_events es (child_new config)).
Proof.
  pose proof (child_after_runs config (Happens <$> es)) as H.
  assert (events_in (Happens <$> es) = es) as E.
  { clear H. induction es as [|e es IH]; [done|].
    change (events_in (Happens <$> e :: es)) with (e :: events_in (Happens <$> es)). by rewrite IH. }
  rewrite E in H. clear E. unfold child_events.
  assert (∀ c, runs child_step (Happens <$> es) c = runs child_event es c) as <-; [|done].
  clear H. induction es as [|e es IH]; intros c; [done|]. cbn. apply IH.
Qed.

Lemma child_events_exited es c : ch_exited c = false → ch_exited (child_events es c) = false.
Proof.
  revert c. induction es as [|e es IH]; intros c H; [done|]. apply (IH (child_event e c)).
  by destruct e.
Qed.

(** One generic run.  A blank body starts nothing.  A run that answers
    started the child, its process ended before the wait returned, the code is
    that of the process, and each stream is the first mebibyte of all it wrote
    up to the end of the pipes, marked truncated exactly when bytes were lost.
    The timeout is reported exactly when the child started, could be waited
    for, and was still running. *)
Theorem run_generic_spec (body : string) (run : Run) :
  let all := run_before run ++ run_after run in
  let cap := Z.to_nat DEFAULT_PLAIN_OUTPUT_CAP_BYTES in
  let '(r, started) := run_generic body run in
  (started = true ↔ trim body ≠ "" ∧ run_spawn_error run = None) ∧
  match r with
  | Ok o =>
      started = true ∧ exit_of (run_before run) = Some (eo_exit_code o) ∧
      eo_stdout o = stake cap (stdout_of all) ∧ eo_stderr o = stake cap (stderr_of all) ∧
      eo_truncated o = (DEFAULT_PLAIN_OUTPUT_CAP_BYTES <? slen (stdout_of all))%Z ||
                       (DEFAULT_PLAIN_OUTPUT_CAP_BYTES <? slen (stderr_of all))%Z
  | Err e =>
      e = ExecTimeout ↔
      started = true ∧ run_wait_error run = None ∧ exit_of (run_before run) = None
  end.
Proof.
  intros all cap. unfold run_generic. destruct (String.eqb_spec (trim body) "") as [Hb|Hb]; [split; naive_solver|].
  destruct (run_spawn_error run) as [e|]; [split; naive_solver|].
  set (config := plain_config (exec_argv body)).
  assert (clamp_cap config = DEFAULT_PLAIN_OUTPUT_CAP_BYTES) as Hcap by reflexivity.
  pose proof (child_after_events config (run_before run)) as Ha. rewrite Hcap in Ha.
  set (c := child_events (run_before run) (child_new config)) in *.
  assert (ch_exited c = false) as Hx.
  { by apply child_events_exited. }
  unfold child_poll. rewrite Hx. destruct (run_wait_error run) as [e|]; [split; naive_solver|].
  rewrite (af_process _ _ _ Ha). destruct (exit_of (run_before run)) as [code|] eqn:He;
    [|split; naive_solver].
  set (c1 := mk_child _ _ true code _).
  assert (child_after DEFAULT_PLAIN_OUTPUT_CAP_BYTES (run_before run) c1) as Ha1.
  { destruct Ha as [A B P X]. subst c1. split; cbn; [done|done|by rewrite He|by intros _]. }
  assert (0 ≤ DEFAULT_PLAIN_OUTPUT_CAP_BYTES)%Z as Hpos by done.
  pose proof (child_after_more _ _ (run_after run) _ Hpos Ha1) as [A B _ _].
  unfold child_join, child_poll. cbn [ch_exited c1 ch_code]. unfold child_snapshot, child_truncated.
  rewrite A, B. cbn. split; [naive_solver|]. by split_and!.
Qed.
