(* ===== verification/Catalog.v ===== *)
(** * Catalog: [calcar-connect/src/catalog.rs]

    The registry sidecar and the JSON bodies the phone reads: the computer
    header with its workflow rows, the device row, the sysinfo, and the
    workflow snapshot over the event ring. *)

From S2P Require Import Prelude Text Events Schema Storage Ring Requests Lifecycle BTree Json Config.

Definition ACTIVITY_CAP : nat := 500.
Definition RING_READ_LIMIT : Z := 5500.

(** [status_str] *)
Definition status_str (state : Z) : string :=
  match state_from_i32 state with
  | Some Running => "running"
  | Some WaitingInput => "waiting_input"
  | Some WaitingApproval => "waiting_approval"
  | Some Completed => "completed"
  | Some Failed => "failed"
  | Some Stopped => "stopped"
  | _ => "unknown_" +:+ dec state
  end.

(** ** The registry *)

(** [struct ResolvedApproval] *)
Record ResolvedApproval := mk_resolved {
  ra_approval_id : string;
  ra_workflow_id : string;
  ra_resolution : string;
}.

#[export] Instance ResolvedApproval_eq_dec : EqDecision ResolvedApproval.
Proof. solve_decision. Defined.

(** [struct Registry]; the set of workflow ids is a map to nothing. *)
Record Registry := mk_registry {
  rg_workflows : btree unit;
  rg_approvals : list ResolvedApproval;
}.

Definition registry_default : Registry := mk_registry [] [].

(** [Registry::touch_workflow] *)
Definition touch_workflow (workflow_id : string) (r : Registry) : Registry :=
  if String.eqb workflow_id "" then r
  else mk_registry (bt_insert workflow_id tt (rg_workflows r)) (rg_approvals r).

(** [Registry::record_approval] *)
Definition record_approval (row : ResolvedApproval) (r : Registry) : Registry :=
  mk_registry (rg_workflows r)
    (filter (λ kept, ra_approval_id kept ≠ ra_approval_id row) (rg_approvals r) ++ [row]).

Definition workflow_of_value (ids : btree unit) (id : Value) : btree unit :=
  match id with
  | Str text => if String.eqb text "" then ids else bt_insert text tt ids
  | _ => ids
  end.

Definition approval_of_value (row : Value) : list ResolvedApproval :=
  let approval_id := default "" (str_field row "approval_id") in
  let workflow_id := default "" (str_field row "workflow_id") in
  let resolution := default "" (str_field row "resolution") in
  if String.eqb approval_id "" || String.eqb workflow_id "" then []
  else [mk_resolved approval_id workflow_id
          (if String.eqb resolution "" then "approved" else resolution)].

(** [Registry::from_value] *)
Definition registry_of_value (value : Value) : Registry :=
  match value with
  | Obj map =>
      mk_registry
        match bt_get "workflows" map with
        | Some (Arr ids) => foldl workflow_of_value [] ids
        | _ => []
        end
        match bt_get "approvals" map with
        | Some (Arr rows) => rows ≫= approval_of_value
        | _ => []
        end
  | _ => registry_default
  end.

(** [Registry::load], from what reading the sidecar gave *)
Definition registry_load (read : result string string) : Registry :=
  let text := match read with Ok text => text | Err _ => "" end in
  if String.eqb (trim text) "" then registry_default
  else registry_of_value (match parse text with Ok v => v | Err _ => Null end).

Definition approval_value (row : ResolvedApproval) : Value :=
  obj [("approval_id", Str (ra_approval_id row)); ("workflow_id", Str (ra_workflow_id row));
       ("resolution", Str (ra_resolution row))].

Definition registry_value (r : Registry) : Value :=
  obj [("workflows", Arr (Str <$> (rg_workflows r).*1));
       ("approvals", Arr (approval_value <$> rg_approvals r))].

(** The text [Registry::save] writes *)
Definition registry_text (r : Registry) : string := render (registry_value r).

(** [Registry::path] *)
Definition registry_path `{Paths} (config : ConnectConfig) : string :=
  path_join (state_dir config) "calcar-connect-known.json".

(** ** Bodies *)

Section Bodies.
Context {env : Env}.

(** [open_manager] *)
Definition open_manager : LifecycleM unit := manager_open.

Definition workflow_row_value (config : ConnectConfig) (row : WorkflowRow) : Value :=
  obj [("workflow_id", Str (workflow_id row)); ("computer_id", Str (cf_computer_id config));
       ("title", Str (title row)); ("status", Str (status_str (state row)))].

(** The loop of [computer_body]: ids whose lookup misses or fails are skipped. *)
Fixpoint computer_rows (config : ConnectConfig) (ids : list string) (rows : list Value) :
    LifecycleM (list Value) :=
  match ids with
  | [] => st_ret rows
  | id :: rest =>
      let* found := st_try (manager_get_workflow id) in
      match found with
      | Ok (Some row) =>
          if String.eqb (workflow_id row) "" then computer_rows config rest rows
          else computer_rows config rest (rows ++ [workflow_row_value config row])
      | _ => computer_rows config rest rows
      end
  end.

(** [computer_body] *)
Definition computer_body (config : ConnectConfig) (registry : Registry) (now_millis : Z) :
    LifecycleM Value :=
  let* rows := computer_rows config (rg_workflows registry).*1 [] in
  st_ret (obj [("device_id", Str (cf_computer_id config));
               ("display_name", Str (cf_display_name config)); ("online", Bool true);
               ("last_seen_millis", Int now_millis); ("workflows", Arr rows)]).

(** [sysinfo_body] *)
Definition sysinfo_body (config : ConnectConfig) : Value :=
  obj [("cpu", Str (cf_cpu config)); ("ram", Str (cf_ram config));
       ("gpu", Str (cf_gpu config)); ("disk", Str (cf_disk config))].

(** [devices_body] *)
Definition devices_body (config : ConnectConfig) : Value :=
  obj [("devices", Arr [obj
    [("device_id", Str (cf_computer_id config)); ("role", Str "computer");
     ("display_name", Str (cf_display_name config)); ("pubkey_b64", Str (cf_pubkey_b64 config));
     ("fingerprint", Str (cf_fingerprint config)); ("revoked", Bool false);
     ("authorized_by", Str (cf_owner_device_id config))]])].

Definition activity_value (event : WorkflowEvent) : Value :=
  obj [("event_id", Str (event_id event)); ("event_type", Int (event_type_i32 (event_type event)));
       ("summary", Str (summary event)); ("occurred_at_millis", Int (occurred_at_millis event));
       ("seq_no", Int (to_i64 (seq_no event)))].

Definition resolved_value (row : ResolvedApproval) : Value :=
  obj [("approval_id", Str (ra_approval_id row)); ("title", Str ""); ("detail", Str "");
       ("expires_at_millis", Int 0); ("resolution", Str (ra_resolution row));
       ("destructive", Bool false)].

(** [workflow_snapshot_body] *)
Definition workflow_snapshot_body (registry : Registry) (computer_id wf : string) :
    LifecycleM (option Value) :=
  let* found := manager_get_workflow wf in
  match found with
  | None => st_ret None
  | Some row =>
      let* events := events_since wf 0 RING_READ_LIMIT in
      let last_seq_no := from_option (λ e, to_i64 (seq_no e)) 0%Z (last events) in
      let tail_start := length events - ACTIVITY_CAP in
      let activity := activity_value <$> drop tail_start events in
      let approvals := resolved_value <$>
        filter (λ r, ra_workflow_id r = wf) (rg_approvals registry) in
      st_ret (Some (obj
        [("workflow_id", Str (workflow_id row)); ("computer_id", Str computer_id);
         ("status", Str (status_str (state row))); ("last_seq_no", Int last_seq_no);
         ("activity", Arr activity); ("chat", Arr []); ("terminal_lines", Arr []);
         ("terminal_total_lines", Int 0); ("files", Arr []); ("files_truncated", Bool false);
         ("approvals", Arr approvals)]))
  end.
End Bodies.
