(* ===== verification/CatalogFacts.v ===== *)
(** * CatalogFacts: what the phone reads

    The registry survives a restart, the snapshot shows the newest events and
    the true high-water mark, and the computer header lists live rows only. *)

From S2P Require Import Prelude Text Events Schema Storage Ring RingFacts OutboxFacts Requests Store Lifecycle LifecycleFacts BTree F64 Json JsonFacts JsonRound Config Catalog.
From Stdlib Require Import Ascii.

(** ** The registry *)

Definition id_ok (s : string) : bool := utf8_valid s && negb (String.eqb s "").

Definition approval_ok (row : ResolvedApproval) : bool :=
  id_ok (ra_approval_id row) && id_ok (ra_workflow_id row) && id_ok (ra_resolution row).

Definition registry_ok (r : Registry) : bool :=
  bt_sorted (rg_workflows r) && forallb (λ p, id_ok p.1) (rg_workflows r) &&
  forallb approval_ok (rg_approvals r).

Lemma id_ok_spec s : id_ok s = true ↔ utf8_valid s = true ∧ s ≠ "".
Proof. unfold id_ok. rewrite andb_true_iff, negb_true_iff. by rewrite String.eqb_neq. Qed.

Lemma trim_braces t :
  utf8_valid t = true → trim (String "{" (t +:+ "}")) = String "{" (t +:+ "}").
Proof.
  intros Ht.
  assert (chars (String "{" (t +:+ "}")) = ["{"] ++ chars t ++ ["}"]) as Hc.
  { change (String "{" (t +:+ "}")) with ("{" +:+ (t +:+ "}")).
    rewrite chars_app by first [done | by apply utf8_valid_app]. cbn. f_equal.
    revert t Ht. apply utf8_ind; [done|]. intros c s Hc Hs IH. rewrite sapp_assoc.
    rewrite (chars_app c (s +:+ "}")), (chars_app c s), IH; [done..|by apply utf8_valid_app]. }
  assert (utf8_valid (String "{" (t +:+ "}")) = true) as Hv.
  { rewrite utf8_valid_ascii by done. by apply utf8_valid_app. }
  assert (trim_start (String "{" (t +:+ "}")) = String "{" (t +:+ "}")) as Hs.
  { unfold trim_start. rewrite Hc. cbn [app drop_while].
    transitivity (sconcat (chars (String "{" (t +:+ "}")))); [by rewrite Hc|by apply chars_concat]. }
  unfold trim. rewrite Hs. unfold trim_end. rewrite Hc, app_assoc, reverse_snoc.
  cbn [drop_while]. change (is_whitespace "}") with false. cbn iota.
  rewrite reverse_cons, reverse_involutive, <-app_assoc, <-Hc. by apply chars_concat.
Qed.

Lemma foldl_workflows (ids : btree unit) acc :
  bt_sorted (acc ++ ids) = true → forallb (λ p, id_ok p.1) ids = true →
  foldl workflow_of_value acc (Str <$> ids.*1) = acc ++ ids.
Proof.
  revert acc. induction ids as [|[id []] ids IH]; intros acc Hs Hok; cbn; [by rewrite app_nil_r|].
  apply andb_true_iff in Hok as [[_ Hn]%id_ok_spec Hok]. cbn in Hn. rewrite (proj2 (String.eqb_neq _ _) Hn).
  rewrite bt_insert_last.
  - rewrite IH; [by rewrite <-app_assoc|by rewrite <-app_assoc|done].
  - clear -Hs. induction acc as [|[k []] acc IH]; [done|]. cbn in *.
    apply andb_true_iff in Hs as [Ha Hs]. rewrite IH by done. unfold bt_above in Ha.
    rewrite forallb_app in Ha. apply andb_true_iff in Ha as [_ [H _]%andb_true_iff]. cbn in H. by rewrite H.
Qed.

Lemma approvals_back rows :
  forallb approval_ok rows = true → (approval_value <$> rows) ≫= approval_of_value = rows.
Proof.
  induction rows as [|row rows IH]; [done|]. cbn [forallb]. intros [Hr Hs]%andb_true_iff.
  rewrite fmap_cons, bind_cons, IH by done. unfold approval_ok in Hr.
  rewrite !andb_true_iff, !id_ok_spec in Hr. destruct Hr as [[[_ H1] [_ H2]] [_ H3]].
  destruct row as [a w r]. unfold approval_value, approval_of_value. cbn in *.
  by rewrite !(proj2 (String.eqb_neq _ _)).
Qed.

Lemma approval_value_ok row : approval_ok row = true → value_ok (approval_value row) = true.
Proof.
  unfold approval_ok. rewrite !andb_true_iff, !id_ok_spec. intros [[[H1 _] [H2 _]] [H3 _]].
  change (approval_value row) with (Obj [("approval_id", Str (ra_approval_id row));
    ("resolution", Str (ra_resolution row)); ("workflow_id", Str (ra_workflow_id row))]).
  apply value_ok_obj_intro; [done|]. cbn. unfold value_ok. cbn. by rewrite H1, H2, H3.
Qed.

Lemma registry_value_ok r : registry_ok r = true → value_ok (registry_value r) = true.
Proof.
  unfold registry_ok. rewrite !andb_true_iff, !forallb_forall. intros [[_ Hw] Ha].
  assert (value_ok (Arr (approval_value <$> rg_approvals r)) = true) as H1.
  { apply value_ok_arr_intro, forallb_forall. intros v Hv.
    apply list_elem_of_In, list_elem_of_fmap in Hv as (x & -> & Hx).
    apply approval_value_ok, Ha. by apply list_elem_of_In. }
  assert (value_ok (Arr (Str <$> (rg_workflows r).*1)) = true) as H2.
  { apply value_ok_arr_intro, forallb_forall. intros v Hv.
    apply list_elem_of_In, list_elem_of_fmap in Hv as (x & -> & Hx).
    apply list_elem_of_fmap in Hx as (p & -> & Hx). apply list_elem_of_In, Hw, id_ok_spec in Hx as [Hx _].
    unfold value_ok. cbn. by rewrite Hx. }
  change (registry_value r) with (Obj [("approvals", Arr (approval_value <$> rg_approvals r));
    ("workflows", Arr (Str <$> (rg_workflows r).*1))]).
  apply value_ok_obj_intro; [done|]. cbn [forallb]. unfold field_ok. by rewrite H1, H2.
Qed.

Lemma registry_value_eq r :
  registry_value r = Obj [("approvals", Arr (approval_value <$> rg_approvals r));
                          ("workflows", Arr (Str <$> (rg_workflows r).*1))].
Proof. reflexivity. Qed.

Lemma registry_height r : height (registry_value r) ≤ 3.
Proof.
  rewrite registry_value_eq. cbn [height foldr].
  assert (foldr (λ x n, max (S (height x)) n) 0 (approval_value <$> rg_approvals r) ≤ 2).
  { induction (rg_approvals r) as [|x l IH]; [cbn; lia|]. rewrite fmap_cons. cbn [foldr].
    change (height (approval_value x)) with 1. lia. }
  assert (foldr (λ x n, max (S (height x)) n) 0 (Str <$> (rg_workflows r).*1) ≤ 1).
  { induction (rg_workflows r) as [|x l IH]; cbn in *; lia. }
  lia.
Qed.

Lemma registry_reload r : registry_ok r = true → registry_load (Ok (registry_text r)) = r.
Proof.
  intros Hok. unfold registry_load, registry_text. pose proof (registry_value_ok r Hok) as Hv.
  assert (∃ t, render (registry_value r) = String "{" (t +:+ "}") ∧ utf8_valid t = true) as (t & Ht & Htv).
  { rewrite registry_value_eq in *. eexists. split; [apply render_obj|by apply fields_valid]. }
  rewrite Ht, trim_braces by done. cbn [String.eqb]. rewrite <-Ht, parse_render by done.
  rewrite bool_decide_true by (pose proof (registry_height r); unfold MAX_DEPTH; lia).
  unfold registry_ok in Hok. rewrite !andb_true_iff in Hok. destruct Hok as [[Hs Hw] Ha].
  rewrite registry_value_eq. cbn. rewrite (foldl_workflows _ []), approvals_back by done. by destruct r.
Qed.

Lemma value_wf_get (m : btree Value) key v :
  value_wf (Obj m) = true → bt_get key m = Some v → value_wf v = true.
Proof.
  rewrite value_wf_obj. intros [_ H]%andb_true_iff Hg%bt_get_In%list_elem_of_In.
  rewrite forallb_forall in H. by apply H, andb_true_iff in Hg as [_ ?].
Qed.

Lemma str_field_valid v key : value_wf v = true → utf8_valid (default "" (str_field v key)) = true.
Proof.
  intros Hv. unfold str_field, get_field. destruct v as [| | | | | |m]; try done.
  destruct (bt_get key m) as [x|] eqn:E; [|done]. apply value_wf_get in E; [|done].
  by destruct x.
Qed.

Lemma workflows_ok_fold ids acc :
  forallb value_wf ids = true → bt_sorted acc = true → forallb (λ p, id_ok p.1) acc = true →
  let m := foldl workflow_of_value acc ids in
  bt_sorted m = true ∧ forallb (λ p : string * unit, id_ok p.1) m = true.
Proof.
  revert acc. induction ids as [|v ids IH]; intros acc Hv Hs Hok; [done|].
  cbn [foldl forallb] in *. apply andb_true_iff in Hv as [Hv Hvs]. apply IH; [done|..].
  all: destruct v as [| | | |text| |]; try done; cbn [workflow_of_value];
       destruct (String.eqb_spec text "") as [|Hn]; try done.
  - by apply bt_insert_sorted.
  - apply forallb_forall. intros [k []] Hin. cbn.
    assert (∀ m : btree unit, In (k, tt) (bt_insert text tt m) → k = text ∨ In (k, tt) m) as Hins.
    { clear. induction m as [|[k' []] m IH]; cbn; [intros [[= ->]|[]]; auto|].
      destruct (String.eqb_spec text k') as [->|]; cbn; [intros [[= ->]|?]; auto|].
      destruct (slt text k'); cbn; [intros [[= ->]|?]; auto|]. intros [?|?%IH]; tauto. }
    apply Hins in Hin as [->|Hin]; [by apply id_ok_spec|].
    rewrite forallb_forall in Hok. by apply Hok in Hin.
Qed.

Lemma approval_of_value_ok v : value_wf v = true → forallb approval_ok (approval_of_value v) = true.
Proof.
  intros Hv. unfold approval_of_value.
  pose proof (str_field_valid v "approval_id" Hv) as H1. pose proof (str_field_valid v "workflow_id" Hv) as H2.
  pose proof (str_field_valid v "resolution" Hv) as H3.
  destruct (String.eqb_spec (default "" (str_field v "approval_id")) "") as [|N1]; [done|].
  destruct (String.eqb_spec (default "" (str_field v "workflow_id")) "") as [|N2]; [done|]. cbn.
  unfold approval_ok. cbn. rewrite !(proj2 (id_ok_spec _)) by done. cbn. rewrite andb_true_r.
  apply id_ok_spec. destruct (String.eqb_spec (default "" (str_field v "resolution")) ""); done.
Qed.

Lemma registry_of_value_ok v : value_wf v = true → registry_ok (registry_of_value v) = true.
Proof.
  intros Hv. destruct v as [| | | | | |m]; try done. unfold registry_ok, registry_of_value. cbn.
  apply andb_true_iff. split; [apply andb_true_iff|].
  - destruct (bt_get "workflows" m) as [[| | | | |ids|]|] eqn:E; try done.
    apply value_wf_get in E; [|done]. by apply (workflows_ok_fold ids []).
  - destruct (bt_get "approvals" m) as [[| | | | |rows|]|] eqn:E; try done.
    apply value_wf_get in E; [|done]. cbn in E. induction rows as [|row rows IH]; [done|].
    cbn in E. apply andb_true_iff in E as [Hr Hrs]. rewrite bind_cons, forallb_app, IH by done.
    by rewrite approval_of_value_ok.
Qed.

Lemma registry_load_ok read : registry_ok (registry_load read) = true.
Proof.
  unfold registry_load. destruct (String.eqb _ ""); [done|].
  set (text := match read with Ok text => text | Err _ => "" end).
  pose proof (parse_result text) as H. destruct (parse text) as [v|e]; [|done].
  by apply registry_of_value_ok, H.
Qed.

(** What the server does to the registry. *)
Inductive registry_op := Touch (wf : string) | RecordApproval (row : ResolvedApproval).

Definition registry_step (r : Registry) (op : registry_op) : Registry :=
  match op with Touch wf => touch_workflow wf r | RecordApproval row => record_approval row r end.

Definition registry_op_ok (op : registry_op) : bool :=
  match op with Touch wf => utf8_valid wf | RecordApproval row => approval_ok row end.

Lemma registry_step_ok r op :
  registry_ok r = true → registry_op_ok op = true → registry_ok (registry_step r op) = true.
Proof.
  unfold registry_ok. rewrite !andb_true_iff. intros [[Hs Hw] Ha] Hop.
  destruct op as [wf|row]; cbn in *.
  - unfold touch_workflow. destruct (String.eqb_spec wf "") as [|Hn]; [done|]. cbn.
    destruct (workflows_ok_fold [Str wf] (rg_workflows r)) as [H1 H2]; try done.
    { cbn. by rewrite Hop. }
    cbn in H1, H2. rewrite (proj2 (String.eqb_neq _ _) Hn) in H1, H2. done.
  - split; [done|]. rewrite forallb_app. cbn. rewrite Hop, andb_true_r.
    apply forallb_forall. intros x Hx%list_elem_of_In%list_elem_of_filter.
    destruct Hx as [_ Hx]. rewrite forallb_forall in Ha. by apply Ha, list_elem_of_In.
Qed.

(** C35: the registry sidecar.  Whatever the file held at startup, after any
    number of touched workflows and recorded approvals the registry is well
    formed and a restart that reads back what was saved has the very same one;
    a touched workflow is listed and an approval just recorded is the only one
    of its id. *)
Theorem registry_survives_restart (read : result string string) (ops : list registry_op) :
  forallb registry_op_ok ops = true →
  let r := foldl registry_step (registry_load read) ops in
  registry_ok r = true ∧ registry_load (Ok (registry_text r)) = r ∧
  (∀ wf, wf ≠ "" → bt_get wf (rg_workflows (touch_workflow wf r)) = Some tt) ∧
  (∀ row, filter (λ x, ra_approval_id x = ra_approval_id row) (rg_approvals (record_approval row r)) = [row]).
Proof.
  intros Hops r.
  assert (registry_ok r = true) as Hok.
  { subst r. pose proof (registry_load_ok read) as H. revert H Hops. generalize (registry_load read).
    induction ops as [|op ops IH]; intros r H Hops; [done|]. cbn in *.
    apply andb_true_iff in Hops as [Hop Hops]. apply IH; [|done]. by apply registry_step_ok. }
  split; [done|]. split; [by apply registry_reload|]. split.
  - intros wf Hn. unfold touch_workflow. rewrite (proj2 (String.eqb_neq _ _) Hn). cbn.
    by rewrite bt_get_insert, String.eqb_refl.
  - intros row. cbn. rewrite filter_app, filter_cons_True by done.
    assert (filter (λ x, ra_approval_id x = ra_approval_id row)
      (filter (λ kept, ra_approval_id kept ≠ ra_approval_id row) (rg_approvals r)) = []) as ->; [|done].
    induction (rg_approvals r) as [|x l IH]; [done|]. rewrite filter_cons.
    destruct (decide (ra_approval_id x ≠ ra_approval_id row)); [|done]. by rewrite filter_cons_False.
Qed.

Lemma registry_survives_restart_witness :
  let ops := [Touch "wf-1"; RecordApproval (mk_resolved "ap-1" "wf-1" "rejected"); Touch "wf-0"] in
  let r := foldl registry_step (registry_load (Ok "not json")) ops in
  r = mk_registry [("wf-0", tt); ("wf-1", tt)] [mk_resolved "ap-1" "wf-1" "rejected"] ∧
  registry_load (Ok (registry_text r)) = r.
Proof.
  intros ops r. split; [vm_compute; reflexivity|].
  exact (proj1 (proj2 (registry_survives_restart (Ok "not json") ops eq_refl))).
Defined.

(** ** Snapshots *)

Section Snapshot.
Context {env : Env}.

(** The newest [n] items. *)
Definition newest_of {A} (n : nat) (l : list A) : list A := drop (length l - n) l.

Lemma wp_from_storage {A} (m : StoreM A) Q w :
  wp m (λ r w', Q (map_err StorageFailed r) w') w → wp (from_storage m) Q w.
Proof. apply wp_map_err. Qed.

Definition snapshot_result (registry : Registry) (computer_id wf : string) (d : Db)
    (r : result (option Value) LifecycleError) : Prop :=
  match r with
  | Ok (Some body) =>
      ∃ row, workflows d !! wf = Some row ∧
      str_field body "workflow_id" = Some wf ∧ str_field body "computer_id" = Some computer_id ∧
      str_field body "status" = Some (status_str (state row)) ∧
      int_field body "last_seq_no" =
        Some (if decide (events_of wf d = []) then 0%Z else to_i64 (to_u64 (newest wf d))) ∧
      get_field "activity" body =
        Some (Arr (activity_value <$> (map_event <$> newest_of ACTIVITY_CAP (events_of wf d)))) ∧
      get_field "approvals" body =
        Some (Arr (resolved_value <$> filter (λ r, ra_workflow_id r = wf) (rg_approvals registry)))
  | Ok None => workflows d !! wf = None
  | Err e => ∃ e', e = StorageFailed e' ∧ db_error d e'
  end.

Lemma snapshot_fields registry computer_id wf row (events : list WorkflowEvent) d :
  workflows d !! wf = Some row → workflow_id row = wf →
  events = map_event <$> events_of wf d → ring_ok wf d →
  snapshot_result registry computer_id wf d (Ok (Some (obj
        [("workflow_id", Str (workflow_id row)); ("computer_id", Str computer_id);
         ("status", Str (status_str (state row)));
         ("last_seq_no", Int (from_option (λ e, to_i64 (seq_no e)) 0%Z (last events)));
         ("activity", Arr (activity_value <$> drop (length events - ACTIVITY_CAP) events));
         ("chat", Arr []); ("terminal_lines", Arr []);
         ("terminal_total_lines", Int 0); ("files", Arr []); ("files_truncated", Bool false);
         ("approvals", Arr (resolved_value <$>
            filter (λ r, ra_workflow_id r = wf) (rg_approvals registry)))]))).
Proof.
  intros Hrow Hid -> Hr. exists row. split; [done|]. split; [by rewrite <-Hid|].
  split; [reflexivity|]. split; [reflexivity|]. split.
  { transitivity (Some (from_option (λ e, to_i64 (seq_no e)) 0%Z (last (map_event <$> events_of wf d))));
      [reflexivity|]. f_equal.
    pose proof (last_seq_newest wf d Hr) as Hl.
    destruct (last (map_event <$> events_of wf d)) as [e|]; cbn in *;
      destruct (decide (length (events_of wf d) = 0)) as [H0|H0]; try done.
    - injection Hl as ->. rewrite decide_False; [done|]. intros Hn. by rewrite Hn in H0.
    - rewrite decide_True; [done|]. by apply nil_length_inv. }
  split; [|reflexivity].
  transitivity (Some (Arr (activity_value <$> drop (length (map_event <$> events_of wf d) - ACTIVITY_CAP)
    (map_event <$> events_of wf d)))); [reflexivity|].
  unfold newest_of. by rewrite length_fmap, (fmap_drop map_event).
Qed.

(** The workflow snapshot.  It never writes.  Of a workflow the store has it
    shows the stored state, the newest [ACTIVITY_CAP] events the ring still
    keeps, in order, the sequence number of the newest event even when the
    activity is cut, and exactly the approvals resolved for this workflow; it is
    empty only for a workflow the store does not have, and any failure is an
    engine error. *)
Theorem workflow_snapshot_spec (registry : Registry) (computer_id wf : string) (w : World) :
  store_ok (db w) →
  let '(r, w') := workflow_snapshot_body registry computer_id wf w in
  db w' = db w ∧ snapshot_result registry computer_id wf (db w) r.
Proof.
  intros Hok. to_wp. unfold workflow_snapshot_body, manager_get_workflow.
  apply wp_bind, wp_from_storage, wp_get_workflow; [cbn; eauto|].
  intros w1 Hs Hw1. cbn. destruct (workflows (db w) !! wf) as [row|] eqn:Hrow; [|by apply wp_ret].
  unfold events_since. apply wp_bind, wp_from_storage, wp_replay_all.
  - rewrite Hw1. apply Hok.
  - unfold MAX_RING_EVENTS, RING_READ_LIMIT. lia.
  - intros e w2 Hw2 He. cbn. rewrite Hw2, <-Hw1. eauto.
  - intros w2 Hw2. cbn [map_err]. apply wp_ret. split; [congruence|]. rewrite Hw1.
    apply snapshot_fields; [done| |done|apply Hok].
    by destruct (ok_workflows _ Hok _ _ Hrow) as [? _].
Qed.

(** The rows of the registry ids the store answered for. *)
Lemma wp_computer_rows config ids rows w :
  workflows_ok (db w) → Forall (λ id, id ≠ "") ids →
  wp (computer_rows config ids rows) (λ r w', db w' = db w ∧ ∃ answered, r = Ok (E:=LifecycleError)
      (rows ++ (workflow_row_value config <$> omap (λ id, workflows (db w) !! id) answered)) ∧
    answered `sublist_of` ids ∧ ((∀ e, ¬ db_error (db w) e) → answered = ids)) w.
Proof.
  revert rows w. induction ids as [|id ids IH]; intros rows w Hok Hids; cbn [computer_rows].
  { apply wp_ret. split; [done|]. exists []. by rewrite app_nil_r. }
  apply Forall_cons in Hids as [Hid Hids].
  apply wp_bind, wp_try, wp_from_storage, wp_get_workflow.
  - intros e w1 Hw1 He. cbn. eapply wp_mono; [apply IH; by rewrite ?Hw1|]. cbn. rewrite Hw1.
    intros r w2 (Hw2 & answered & -> & Hsub & Hall). split; [done|]. exists answered.
    split_and!; [done|by apply sublist_cons|]. intros H. by apply H in He.
  - intros w1 Hs Hw1. cbn.
    assert (∀ rows, wp (computer_rows config ids rows) (λ r w', db w' = db w ∧
      ∃ answered, r = Ok (E:=LifecycleError)
        (rows ++ (workflow_row_value config <$> omap (λ id, workflows (db w) !! id) answered)) ∧
      answered `sublist_of` ids ∧ ((∀ e, ¬ db_error (db w) e) → answered = ids)) w1) as IH1.
    { intros rows'. eapply wp_mono; [apply IH; by rewrite ?Hw1|]. cbn. by rewrite Hw1. }
    clear IH. destruct (workflows (db w) !! id) as [row|] eqn:Hrow.
    + destruct (Hok _ _ Hrow) as [Hrid _].
      rewrite (proj2 (String.eqb_neq _ _)) by congruence.
      eapply wp_mono; [apply IH1|]. cbn. intros r w2 (Hw2 & answered & -> & Hsub & Hall).
      split; [done|]. exists (id :: answered). cbn. rewrite Hrow, <-app_assoc.
      split_and!; [done|by apply sublist_skip|]. intros H. by rewrite Hall.
    + eapply wp_mono; [apply IH1|]. cbn. intros r w2 (Hw2 & answered & -> & Hsub & Hall).
      split; [done|]. exists (id :: answered). cbn. rewrite Hrow.
      split_and!; [done|by apply sublist_skip|]. intros H. by rewrite Hall.
Qed.

(** The computer header.  It never writes and never fails, and its workflow
    rows are those of the registry ids the store answered for, in the order of
    the ids: a row is never blanked, an id the store does not know is dropped,
    and without engine errors no known id is missing. *)
Theorem computer_body_spec (config : ConnectConfig) (registry : Registry) (t : Z) (w : World) :
  store_ok (db w) → registry_ok registry = true →
  let '(r, w') := computer_body config registry t w in
  db w' = db w ∧ ∃ body answered, r = Ok body ∧
    str_field body "device_id" = Some (cf_computer_id config) ∧
    int_field body "last_seen_millis" = Some t ∧
    get_field "workflows" body =
      Some (Arr (workflow_row_value config <$> omap (λ id, workflows (db w) !! id) answered)) ∧
    answered `sublist_of` (rg_workflows registry).*1 ∧
    ((∀ e, ¬ db_error (db w) e) → answered = (rg_workflows registry).*1).
Proof.
  intros Hok Hreg. to_wp. unfold computer_body. apply wp_bind. eapply wp_mono.
  - apply wp_computer_rows; [apply Hok|]. unfold registry_ok in Hreg. rewrite !andb_true_iff in Hreg.
    destruct Hreg as [[_ H] _]. rewrite forallb_forall in H. apply Forall_forall.
    intros id (p & -> & Hp)%list_elem_of_fmap. by apply list_elem_of_In, H, id_ok_spec in Hp as [_ ?].
  - intros r w' (Hw & answered & -> & Hsub & Hall). cbn beta iota. apply wp_ret. split; [done|].
    eexists _, answered. split; [reflexivity|]. split_and!; try reflexivity; done.
Qed.
End Snapshot.

(** ** Witnesses *)

#[local] Instance catalog_env : Env := steady_env 1000 7.

Definition catalog_world : World := live_world 1000.
Definition catalog_config : ConnectConfig :=
  mk_config 8080 "token" "agent.db" "pc-1" "Desk" "" "" "" "" "" "" "" 30.

Lemma catalog_world_ok : store_ok (db catalog_world).
Proof. apply live_world_ok. Qed.

Lemma workflow_snapshot_spec_witness :
  store_ok (db catalog_world) ∧
  snapshot_result registry_default "pc-1" "wf-1" (db catalog_world)
    (workflow_snapshot_body registry_default "pc-1" "wf-1" catalog_world).1.
Proof.
  split; [apply catalog_world_ok|].
  pose proof (workflow_snapshot_spec registry_default "pc-1" "wf-1" catalog_world catalog_world_ok) as H.
  destruct (workflow_snapshot_body _ _ _ _) as [r w']. exact (proj2 H).
Defined.

Lemma computer_body_spec_witness :
  registry_ok (mk_registry [("wf-1", tt)] []) = true ∧
  ∃ body, (computer_body catalog_config (mk_registry [("wf-1", tt)] []) 5 catalog_world).1 = Ok body.
Proof.
  split; [reflexivity|].
  pose proof (computer_body_spec catalog_config (mk_registry [("wf-1", tt)] []) 5 catalog_world
    catalog_world_ok eq_refl) as H.
  destruct (computer_body _ _ _ _) as [r w']. destruct H as (_ & body & _ & -> & _). by exists body.
Defined.
