(* ===== verification/Server.v ===== *)
(** * Server: [calcar-connect/src/server.rs]

    The connection manager the phone talks to.  Its state is the
    configuration, the token, the in-memory registry, the database, the files
    beside it, and the log of commands it started; a handler is a method over
    that state whose early returns are its responses.  The host decides which
    file calls fail and how each command goes. *)

From S2P Require Import Prelude Text Events Schema Storage Ring Requests Lifecycle Router BTree Json Http Config Exec Catalog.

(** ** The host *)

Class Host := {
  (** the message of the [n]-th file-system call, if it fails *)
  io_fault : nat → option string;
  (** what a failed write leaves of a file *)
  torn : nat → option string → option string;
  (** the messages of a missing file and of one that is not UTF-8 *)
  missing_file : string;
  not_utf8 : string;
  (** how the [n]-th command goes *)
  exec_run : nat → Run;
}.

(** One started command: the input it belongs to and its body. *)
Record Started := mk_started { st_workflow : string; st_input : string; st_body : string }.

(** [struct ConnectServer], with the world it works on. *)
Record Server := mk_server {
  sv_config : ConnectConfig;
  sv_token : string;
  sv_registry : Registry;
  sv_world : World;
  sv_files : gmap string string;
  sv_calls : nat;
  sv_attempts : nat;
  sv_runs : list Started;
}.

Definition set_token t s := mk_server (sv_config s) t (sv_registry s) (sv_world s) (sv_files s)
  (sv_calls s) (sv_attempts s) (sv_runs s).
Definition set_registry r s := mk_server (sv_config s) (sv_token s) r (sv_world s) (sv_files s)
  (sv_calls s) (sv_attempts s) (sv_runs s).
Definition set_world w s := mk_server (sv_config s) (sv_token s) (sv_registry s) w (sv_files s)
  (sv_calls s) (sv_attempts s) (sv_runs s).
Definition set_files f s := mk_server (sv_config s) (sv_token s) (sv_registry s) (sv_world s) f
  (S (sv_calls s)) (sv_attempts s) (sv_runs s).
Definition set_runs rs s := mk_server (sv_config s) (sv_token s) (sv_registry s) (sv_world s)
  (sv_files s) (sv_calls s) (S (sv_attempts s)) rs.

Definition ServerM (E A : Type) : Type := ST Server E A.

(** A handler: its early returns are responses too. *)
Definition Handler (A : Type) : Type := ServerM Response A.

Section Server.
Context {env : Env} {host : Host} {paths : Paths} {header_names : HeaderNames}.

(** ** Effects *)

Definition on_world {E A} (m : ST World E A) : ServerM E A := λ s,
  let '(r, w) := m (sv_world s) in (r, set_world w s).

Definition modify {E} (f : Server → Server) : ServerM E unit := λ s, (Ok tt, f s).

(** [std::fs::write] *)
Definition fs_write (path text : string) : ServerM string unit := λ s,
  match io_fault (sv_calls s) with
  | Some m => (Err m, set_files (partial_alter (torn (sv_calls s)) path (sv_files s)) s)
  | None => (Ok tt, set_files (<[path := text]> (sv_files s)) s)
  end.

(** [std::fs::create_dir_all]: directories are not tracked. *)
Definition fs_create_dir (path : string) : ServerM string unit := λ s,
  match io_fault (sv_calls s) with
  | Some m => (Err m, set_files (sv_files s) s)
  | None => (Ok tt, set_files (sv_files s) s)
  end.

(** [std::fs::read_to_string] *)
Definition fs_read (path : string) : ServerM string string := λ s,
  (match io_fault (sv_calls s) with
   | Some m => Err m
   | None => match sv_files s !! path with
             | Some text => if utf8_valid text then Ok text else Err not_utf8
             | None => Err missing_file
             end
   end, set_files (sv_files s) s).

(** A generic run, logged when its child started. *)
Definition run_command (wf input_id body : string) : ServerM ExecError ExecOutcome := λ s,
  let '(r, started) := run_generic body (exec_run (sv_attempts s)) in
  (r, set_runs (if started then sv_runs s ++ [mk_started wf input_id body] else sv_runs s) s).

(** ** Errors *)

(** [Display] of [StorageError] and [LifecycleError] *)
Definition storage_display (e : StorageError) : string :=
  match e with
  | Sqlite e => "sqlite error: " +:+ sqlite_display e
  | Io m => "io error: " +:+ m
  | Migration name m => "migration " +:+ name +:+ " failed: " +:+ m
  | InvalidState m => "invalid state: " +:+ m
  | NotFound m => "not found: " +:+ m
  | AlreadyResolved m => "request already resolved: " +:+ m
  | Expired m => "request expired: " +:+ m
  end.
Definition lifecycle_display (e : LifecycleError) : string :=
  match e with
  | Refused m => "transition refused: " +:+ m
  | StorageFailed e => storage_display e
  end.

(** [error_body(500, "INTERNAL", &short_error(&error.to_string()))] *)
Definition internal (detail : string) : Response := error_body 500 "INTERNAL" (short_error detail).

Definition storage_500 {A} (m : StoreM A) : Handler A :=
  st_map_err (λ e, internal (storage_display e)) (on_world m).
Definition lifecycle_500 {A} (m : LifecycleM A) : Handler A :=
  st_map_err (λ e, internal (lifecycle_display e)) (on_world m).

(** [open_storage] *)
Definition open_storage : StoreM unit :=
  let* _ := open_conn in
  let* _ := migrate in
  st_ret tt.

(** ** Starting *)

(** [ConnectServer::new] *)
Definition server_new : ServerM ConnectError unit :=
  let* config := λ s, (Ok (sv_config s), s) in
  let* read := st_try (fs_read (cf_token_file config)) in
  let* token := st_lift (read_token (cf_token_file config) read) in
  let* read := st_try (fs_read (registry_path config)) in
  modify (λ s, set_registry (registry_load read) (set_token token s)).

(** [persist_registry]: a failure is logged, never reported. *)
Definition persist_registry : Handler unit := λ s,
  let path := registry_path (sv_config s) in
  (Ok tt, (fs_write path (registry_text (sv_registry s)) s).2).

Definition touch (wf : string) : Handler unit :=
  modify (λ s, set_registry (touch_workflow wf (sv_registry s)) s).

(** ** Reading handlers *)

Definition computer_unknown : Response := error_body 404 "COMPUTER_UNKNOWN" "unknown computer".
Definition workflow_unknown : Response := error_body 404 "WORKFLOW_UNKNOWN" "unknown workflow".

(** [handle_devices] *)
Definition handle_devices (query : string) : Handler Response := λ s,
  (Ok match query_value query "user_id" with
      | Some user =>
          if String.eqb user "" then error_body 400 "MISSING_USER_ID" "user_id query is required"
          else json_ok (devices_body (sv_config s))
      | None => error_body 400 "MISSING_USER_ID" "user_id query is required"
      end, s).

Definition check_computer (id : string) : Handler unit := λ s,
  if String.eqb id (cf_computer_id (sv_config s)) then (Ok tt, s) else (Err computer_unknown, s).

(** [handle_computer] *)
Definition handle_computer (id : string) : Handler Response :=
  let* _ := check_computer id in
  let* _ := lifecycle_500 open_manager in
  let* t := storage_500 now in
  let* s := st_get in
  let* body := lifecycle_500 (computer_body (sv_config s) (sv_registry s) t) in
  st_ret (json_ok body).

(** [handle_sysinfo] *)
Definition handle_sysinfo (id : string) : Handler Response :=
  let* _ := check_computer id in
  let* s := st_get in
  st_ret (json_ok (sysinfo_body (sv_config s))).

(** [handle_workflow_snapshot] *)
Definition handle_workflow_snapshot (computer wf : string) : Handler Response :=
  let* _ := check_computer computer in
  let* _ := lifecycle_500 open_manager in
  let* s := st_get in
  let* found := lifecycle_500 (workflow_snapshot_body (sv_registry s) computer wf) in
  match found with
  | Some body =>
      let* _ := touch wf in
      let* _ := persist_registry in
      st_ret (json_ok body)
  | None => st_ret workflow_unknown
  end.

(** ** Writing handlers *)

Definition malformed (message : string) : Response := error_body 400 "MALFORMED" message.

(** The first lines of both POST handlers: the body as a JSON object. *)
Definition read_object (request : Request) : Handler Value :=
  match read_body request with
  | Err (status, code, message) => st_throw (error_body status code message)
  | Ok body =>
      match parse_object body with
      | Some parsed => st_ret parsed
      | None => st_throw (malformed "body must be a JSON object")
      end
  end.

Definition refuse_when (b : bool) (r : Response) : Handler unit :=
  if b then st_throw r else st_ret tt.

Definition approval_response (approval_id payload : string) : Response :=
  json_ok (obj [("approval_id", Str approval_id); ("resolution", Str payload)]).

(** The arms of the resolve that are errors *)
Definition approval_error (e : StorageError) : Response :=
  match e with
  | NotFound _ => error_body 404 "APPROVAL_UNKNOWN" "unknown approval"
  | AlreadyResolved _ => error_body 409 "ALREADY_RESOLVED" "approval already resolved"
  | Expired _ => error_body 410 "EXPIRED" "approval expired"
  | error => internal (storage_display error)
  end.

(** [handle_approval] *)
Definition handle_approval (request : Request) (wf : string) : Handler Response :=
  let key := request_id_of request in
  let* parsed := read_object request in
  match str_field parsed "approval_id", bool_field parsed "allow" with
  | Some approval_id, Some allow =>
      let* _ := refuse_when (String.eqb approval_id "") (malformed "approval_id must not be empty") in
      let* _ := refuse_when (bool_decide (key ≠ Some approval_id))
                  (malformed "X-Request-ID must equal approval_id") in
      let* _ := lifecycle_500 open_manager in
      let* row := lifecycle_500 (manager_get_workflow wf) in
      let* _ := refuse_when (bool_decide (row = None)) workflow_unknown in
      let* _ := storage_500 open_storage in
      let payload := if allow : bool then "approved" else "rejected" in
      let* resolved := st_try (on_world (resolve_pending_request approval_id payload)) in
      match resolved with
      | Ok _ =>
          let* _ := touch wf in
          let* _ := modify (λ s, set_registry
                      (record_approval (mk_resolved approval_id wf payload) (sv_registry s)) s) in
          let* _ := persist_registry in
          st_ret (approval_response approval_id payload)
      | Err e => st_ret (approval_error e)
      end
  | _, _ => st_ret (malformed "approval_id and allow are required")
  end.

(** The provider gate of [handle_input]: the workflow's provider and session. *)
Definition provider_gate (wf : string) : Handler (option Provider * option string) :=
  let* _ := lifecycle_500 open_manager in
  let* found := lifecycle_500 (manager_get_workflow wf) in
  match found with
  | Some row => st_ret (provider_from_i32 (provider row), provider_session_id row)
  | None => st_throw workflow_unknown
  end.

Definition conpty_unavailable (wf : string) (bound : bool) : Response :=
  json_status 501 (obj [("code", Str "CONPTY_UNAVAILABLE");
    ("message", Str "interactive input needs ConPTY, which is not green");
    ("workflow_id", Str wf); ("has_binding", Bool bound)]).

(** The answer for a provider that is not generic. *)
Definition interactive_input_501 (wf : string) : Handler Response :=
  let* _ := storage_500 open_storage in
  let* found := st_try (on_world (lookup_binding wf)) in
  st_ret (conpty_unavailable wf match found with Ok (Some _) => true | _ => false end).

(** The dedupe through a fresh router over the store. *)
Definition deliver_once (wf input_id : string) : StoreM RouteOutcome := λ w,
  let '(r, rt) := deliver wf input_id (router_new w) in (r, rt_store rt).

Definition deliver_error (e : StorageError) : Response :=
  match e with
  | NotFound _ => workflow_unknown
  | InvalidState _ => malformed "invalid workflow or input id"
  | error => internal (storage_display error)
  end.

Definition duplicate_response (input_id : string) : Response :=
  json_ok (obj [("input_id", Str input_id); ("outcome", Str "duplicate")]).

Definition exec_error (e : ExecError) : Response :=
  match e with
  | ExecTimeout => error_body 504 "EXEC_TIMEOUT" "command timed out and was killed"
  | error => internal (exec_display error)
  end.

(** [write_tail] *)
Definition write_tail (wf input_id : string) (outcome : ExecOutcome) : ServerM string (string * bool) :=
  let* s := st_get in
  let dir := path_join (state_dir (sv_config s)) "tails" in
  let* _ := fs_create_dir dir in
  let path := path_join dir (tail_name wf input_id) in
  let '(body, file_cut) := tail_file outcome in
  let* _ := fs_write path body in
  st_ret (path, file_cut).

Definition destructive_mark (destructive : bool) : string :=
  if destructive then " (destructive)" else "".

Definition run_drafts (wf input_id : string) (session : option string) (outcome : ExecOutcome)
    (destructive : bool) (tail_path : string) (tail_cut : bool) (t1 t2 : Z) : EventDraft * EventDraft :=
  (mk_draft wf ("input-" +:+ input_id +:+ "-started") session t1 CommandStarted
     ("input " +:+ input_id +:+ " applied" +:+ destructive_mark destructive) None,
   mk_draft wf ("input-" +:+ input_id +:+ "-completed") session t2 CommandCompleted
     ("input " +:+ input_id +:+ " completed with exit code " +:+ dec (eo_exit_code outcome) +:+
      destructive_mark destructive +:+ (if tail_cut then " (truncated)" else ""))
     (Some tail_path)).

(** [record_run] *)
Definition record_run (wf input_id : string) (session : option string) (outcome : ExecOutcome)
    (destructive : bool) : ServerM string bool :=
  let store {A} (m : StoreM A) : ServerM string A :=
    st_map_err (λ e, short_error (storage_display e)) (on_world m) in
  let* (tail_path, tail_cut) := st_map_err short_error (write_tail wf input_id outcome) in
  let* t1 := store now in
  let* t2 := store now in
  let '(started, completed) :=
    run_drafts wf input_id session outcome destructive tail_path tail_cut t1 t2 in
  let* _ := store (append_event started) in
  let* _ := store (append_event completed) in
  st_ret tail_cut.

Definition delivered_response (input_id : string) (outcome : ExecOutcome) (truncated : bool) : Response :=
  json_ok (obj [("input_id", Str input_id); ("outcome", Str "delivered");
    ("exit_code", Int (eo_exit_code outcome)); ("truncated", Bool truncated)]).

(** The generic path of [handle_input], from the dedupe on. *)
Definition generic_input (wf input_id text : string) (destructive : bool) (session : option string) :
    Handler Response :=
  let* _ := storage_500 open_storage in
  let* outcome := st_map_err deliver_error (on_world (deliver_once wf input_id)) in
  match outcome with
  | Duplicate =>
      let* _ := touch wf in
      let* _ := persist_registry in
      st_ret (duplicate_response input_id)
  | Delivered =>
      let* outcome := st_map_err exec_error (run_command wf input_id text) in
      let* _ := storage_500 open_storage in
      let* truncated := st_map_err (error_body 500 "EXEC_RECORD_FAILED")
                          (record_run wf input_id session outcome destructive) in
      let* _ := touch wf in
      let* _ := persist_registry in
      st_ret (delivered_response input_id outcome truncated)
  end.

(** The fields of an input body, checked against the idempotency key. *)
Definition input_fields (request : Request) : Handler (string * string * bool) :=
  let key := request_id_of request in
  let* parsed := read_object request in
  match str_field parsed "input_id", str_field parsed "body", bool_field parsed "destructive" with
  | Some input_id, Some text, Some destructive =>
      let* _ := refuse_when (bool_decide (key ≠ Some input_id))
                  (malformed "X-Request-ID must equal input_id") in
      let* _ := refuse_when (negb (check_input_id input_id))
                  (malformed "input_id uses an unsafe alphabet") in
      let* _ := refuse_when (String.eqb text "") (malformed "body must not be empty") in
      st_ret (input_id, text, destructive)
  | _, _, _ => st_throw (malformed "input_id, body, and destructive are required")
  end.

(** [handle_input] *)
Definition handle_input (request : Request) (wf : string) : Handler Response :=
  let* (input_id, text, destructive) := input_fields request in
  let* (provider, session) := provider_gate wf in
  if bool_decide (provider ≠ Some Generic) then interactive_input_501 wf
  else generic_input wf input_id text destructive session.

(** ** Dispatch *)

Definition unauthorized : Response := mk_response 401 "" false.

(** The arms of [reply] *)
Definition dispatch_route (request : Request) (r : Route) : Handler Response :=
  match r with
  | Devices query => handle_devices query
  | Computer id => handle_computer id
  | Sysinfo id => handle_sysinfo id
  | WorkflowSnapshot computer wf => handle_workflow_snapshot computer wf
  | ApprovalRoute wf => handle_approval request wf
  | InputRoute wf => handle_input request wf
  | UnknownRoute => st_ret (error_body 404 "NOT_FOUND" "unknown route")
  end.

(** [reply] *)
Definition reply (request : Request) (s : Server) : Response * Server :=
  if negb (bearer_ok request (sv_token s)) then (unauthorized, s)
  else match dispatch_route request (route (hr_method request) (hr_url request)) s with
       | (Ok response, s') | (Err response, s') => (response, s')
       end.
End Server.
