(* ===== verification/ServerFacts.v ===== *)
(** * ServerFacts: what the phone can cause

    Over any requests, host behaviour, engine faults and restarts: a command
    runs at most once per input, refused inputs consume nothing, an approval is
    settled once, and a request without the token changes nothing. *)

From S2P Require Import Prelude Text Events Schema Storage Ring RingFacts OutboxFacts Requests Store Lifecycle LifecycleFacts Reach Router Plain BTree F64 Json JsonFacts JsonRound Http Config Exec Catalog CatalogFacts Server.

(** ** Methods along a relation

    [follows R m]: on every path [m] moves the server along [R]. *)
Section Follows.
#[local] Set Default Proof Using "Type*".
Context (R : relation Server) `{!PreOrder R}.

Definition follows {E A} (m : ServerM E A) : Prop := ∀ s, R s (m s).2.

Lemma follows_ret {E A} (a : A) : follows (E:=E) (st_ret a).
Proof. intros s. reflexivity. Qed.
Lemma follows_throw {E A} (e : E) : follows (A:=A) (st_throw e).
Proof. intros s. reflexivity. Qed.
Lemma follows_lift {E A} (r : result A E) : follows (st_lift r).
Proof. intros s. reflexivity. Qed.
Lemma follows_get {E} : follows (E:=E) st_get.
Proof. intros s. reflexivity. Qed.

Lemma follows_bind {E A B} (m : ServerM E A) (k : A → ServerM E B) :
  follows m → (∀ a, follows (k a)) → follows (st_bind m k).
Proof.
  intros Hm Hk s. unfold st_bind. pose proof (Hm s) as H. destruct (m s) as [[a|e] s'].
  - etrans; [exact H|apply Hk].
  - exact H.
Qed.

Lemma follows_map_err {E F A} (f : E → F) (m : ServerM E A) : follows m → follows (st_map_err f m).
Proof. intros Hm s. unfold st_map_err. pose proof (Hm s) as H. by destruct (m s). Qed.

Lemma follows_try {E F A} (m : ServerM E A) : follows m → follows (E:=F) (st_try m).
Proof. intros Hm s. unfold st_try. pose proof (Hm s) as H. by destruct (m s). Qed.
End Follows.

Ltac follow_step :=
  match goal with
  | |- follows ?R (st_bind _ _) => apply (follows_bind R); [|let a := fresh "a" in intros a]
  | |- follows _ (if ?b then _ else _) => destruct b
  | |- follows _ (match ?x with _ => _ end) => destruct x
  | |- follows ?R (st_ret _) => apply (follows_ret R)
  | |- follows ?R (st_throw _) => apply (follows_throw R)
  | |- follows ?R (st_lift _) => apply (follows_lift R)
  | |- follows ?R st_get => apply (follows_get R)
  | |- follows ?R (st_map_err _ _) => apply (follows_map_err R)
  | |- follows ?R (st_try _) => apply (follows_try R)
  | |- follows _ _ => solve [eauto 2 with server nocore]
  end; cbn beta iota.
Ltac follow_steps := repeat follow_step.
Create HintDb server.

(** The database makes a good move and no command starts. *)
Definition quiet (s s' : Server) : Prop :=
  good (db (sv_world s)) (db (sv_world s')) ∧ sv_runs s' = sv_runs s.

(** Every table but the bookkeeping of migrations. *)
Definition tables (d : Db) :=
  (workflows d, workflow_events d, outbox d, session_bindings d, ring_truncations d,
   pending_requests d).

(** No command starts, no row of any table changes, no file, no registry entry. *)
Record untouched (s s' : Server) : Prop := {
  un_tables : tables (db (sv_world s')) = tables (db (sv_world s));
  un_runs : sv_runs s' = sv_runs s;
  un_files : sv_files s' = sv_files s;
  un_registry : sv_registry s' = sv_registry s;
  un_settings : (sv_config s', sv_token s') = (sv_config s, sv_token s);
}.

#[export] Instance quiet_preorder : PreOrder quiet.
Proof.
  split; [intros s; split; [reflexivity|done]|].
  intros s1 s2 s3 [G1 R1] [G2 R2]. split; [by etrans|congruence].
Qed.

#[export] Instance untouched_preorder : PreOrder untouched.
Proof.
  split; [done|]. intros s1 s2 s3 [A1 B1 C1 D1 E1] [A2 B2 C2 D2 E2]. split; congruence.
Qed.

Section Parts.
Context {env : Env} {host : Host} {paths : Paths} {header_names : HeaderNames}.

(** ** Parts that only touch the database *)

Lemma quiet_world {E A} (m : ST World E A) : safe m → follows quiet (on_world m).
Proof.
  intros Hm s. pose proof (safe_run m (sv_world s) Hm) as H. unfold on_world.
  destruct (m (sv_world s)) as [r w]. by split.
Qed.

(** A storage method that keeps the rows of all tables. *)
Definition keeps_tables {E A} (m : ST World E A) : Prop :=
  ∀ w, tables (db (m w).2) = tables (db w).

Lemma untouched_world {E A} (m : ST World E A) : keeps_tables m → follows untouched (on_world m).
Proof.
  intros Hm s. specialize (Hm (sv_world s)). unfold on_world. destruct (m (sv_world s)). by split.
Qed.

Lemma keeps_bind {E A B} (m : ST World E A) (k : A → ST World E B) :
  keeps_tables m → (∀ a, keeps_tables (k a)) → keeps_tables (st_bind m k).
Proof.
  intros Hm Hk w. unfold st_bind. specialize (Hm w). destruct (m w) as [[a|e] w1]; [|done].
  by rewrite Hk.
Qed.

Lemma keeps_map_err {E F A} (f : E → F) (m : ST World E A) :
  keeps_tables m → keeps_tables (st_map_err f m).
Proof. intros Hm w. unfold st_map_err. specialize (Hm w). by destruct (m w). Qed.

Lemma keeps_reads_only {A} (m : StoreM A) : reads_only m → keeps_tables m.
Proof. intros Hm w. by rewrite Hm. Qed.

Lemma keeps_ret {E A} (a : A) : keeps_tables (E:=E) (st_ret a).
Proof. by intros w. Qed.

Lemma keeps_sqlite_id {A} (a : A) : keeps_tables (sqlite_call (λ d, Ok (a, d))).
Proof. intros w. unfold sqlite_call. by destruct (fault (stmts w)). Qed.

Lemma keeps_create_dir : keeps_tables create_dir_all.
Proof. intros w. unfold create_dir_all. by destruct (fault (stmts w)). Qed.

Lemma keeps_open_conn : keeps_tables open_conn.
Proof.
  unfold open_conn, configure. apply keeps_bind; [|intros _].
  { destruct db_parent as [p|]; [destruct (String.eqb p "")|]; auto using keeps_ret, keeps_create_dir. }
  repeat (apply keeps_bind; [apply keeps_sqlite_id|intros _]). apply keeps_ret.
Qed.

Lemma keeps_apply_init : keeps_tables (apply_migration "0001_init" init_sql).
Proof.
  intros w. unfold apply_migration, transaction, sqlite_call, st_try, st_bind, init_sql. cbn.
  destruct (fault (stmts w)); [done|]. cbn. destruct (fault (S (stmts w))); cbn; [done|].
  destruct (fault (S (S (stmts w)))); cbn; [done|].
  case_bool_decide; cbn; [done|]. by destruct (fault (S (S (S (stmts w))))).
Qed.

Lemma keeps_migrate : keeps_tables migrate.
Proof.
  intros w. apply (wp_run migrate (λ _ w', tables (db w') = tables (db w)) w).
  assert (∀ w1, set_migrations (schema_migrations (db w)) (db w1) = db w →
    tables (db w1) = tables (db w)) as Hsame.
  { intros w1 H. rewrite <-H. done. }
  apply wp_migrate; [auto|]. intros w1 H1 _ _ _. destruct (decide (recorded (db w))).
  - apply wp_ret. auto.
  - apply wp_bind. apply wp_of. intros r w2 Hrun. pose proof (keeps_apply_init w1) as Hk.
    rewrite Hrun in Hk. cbn in Hk. destruct r; [apply wp_ret|]; rewrite Hk; auto.
Qed.

Lemma keeps_manager_open : keeps_tables manager_open.
Proof.
  unfold manager_open, manager_new, from_storage.
  apply keeps_bind; [apply keeps_map_err, keeps_open_conn|intros _].
  apply keeps_bind; [apply keeps_map_err, keeps_migrate|intros _]. apply keeps_ret.
Qed.

Lemma keeps_open_storage : keeps_tables open_storage.
Proof.
  unfold open_storage. apply keeps_bind; [apply keeps_open_conn|intros _].
  apply keeps_bind; [apply keeps_migrate|intros _]. apply keeps_ret.
Qed.

Lemma keeps_manager_get id : keeps_tables (manager_get_workflow id).
Proof. apply keeps_map_err, keeps_reads_only, reads_only_get_workflow. Qed.

Lemma keeps_lookup id : keeps_tables (lookup_binding id).
Proof.
  apply keeps_reads_only. unfold lookup_binding, get_session_binding.
  apply reads_only_bind; [apply reads_only_query|]. intros [[]|]; apply reads_only_ret.
Qed.

Lemma safe_open_storage : safe open_storage.
Proof. unfold open_storage. apply safe_bind; [apply safe_open|intros _]. apply safe_bind; [apply safe_migrate|intros _]. apply safe_ret. Qed.
End Parts.

Section Handlers.
Context {env : Env} {host : Host} {paths : Paths} {header_names : HeaderNames}.

(** ** Parts that do not touch the database *)

Lemma quiet_same {E A} (m : ServerM E A) :
  (∀ s, sv_world (m s).2 = sv_world s ∧ sv_runs (m s).2 = sv_runs s) → follows quiet m.
Proof. intros H s. destruct (H s) as [Hw Hr]. split; [by rewrite Hw|done]. Qed.

Lemma quiet_write path text : follows quiet (fs_write path text).
Proof. apply quiet_same. intros s. unfold fs_write. by destruct (io_fault (sv_calls s)). Qed.
Lemma quiet_create_dir path : follows quiet (fs_create_dir path).
Proof. apply quiet_same. intros s. unfold fs_create_dir. by destruct (io_fault (sv_calls s)). Qed.
Lemma quiet_read path : follows quiet (fs_read path).
Proof. by apply quiet_same. Qed.
Lemma quiet_persist : follows quiet persist_registry.
Proof.
  apply quiet_same. intros s. unfold persist_registry, fs_write. by destruct (io_fault (sv_calls s)).
Qed.
Lemma quiet_touch wf : follows quiet (touch wf).
Proof. by apply quiet_same. Qed.
Lemma quiet_registry f : follows quiet (modify (E:=Response) (λ s, set_registry (f s) s)).
Proof. by apply quiet_same. Qed.

Lemma quiet_storage_500 {A} (m : StoreM A) : safe m → follows quiet (storage_500 m).
Proof. intros Hm. apply (follows_map_err quiet), quiet_world, Hm. Qed.
Lemma quiet_lifecycle_500 {A} (m : LifecycleM A) : safe m → follows quiet (lifecycle_500 m).
Proof. intros Hm. apply (follows_map_err quiet), quiet_world, Hm. Qed.

#[local] Hint Resolve quiet_write quiet_create_dir quiet_read quiet_persist quiet_touch
  quiet_registry quiet_world quiet_storage_500 quiet_lifecycle_500 safe_open_storage
  safe_manager_open safe_now : server.

Lemma safe_manager_get id : safe (manager_get_workflow id).
Proof. apply safe_map_err, safe_reads_only, reads_only_get_workflow. Qed.

Lemma safe_computer_rows config ids rows : safe (computer_rows config ids rows).
Proof.
  revert rows. induction ids as [|id ids IH]; intros rows; cbn [computer_rows]; [apply safe_ret|].
  apply safe_bind; [apply safe_try, safe_manager_get|]. intros [[row|]|e]; [|apply IH..].
  destruct (String.eqb (workflow_id row) ""); apply IH.
Qed.

Lemma safe_computer_body config registry t : safe (computer_body config registry t).
Proof. apply safe_bind; [apply safe_computer_rows|]. intros rows. apply safe_ret. Qed.

Lemma safe_snapshot registry computer wf : safe (workflow_snapshot_body registry computer wf).
Proof.
  apply safe_bind; [apply safe_manager_get|]. intros [row|]; [|apply safe_ret].
  apply safe_bind; [|intros events; apply safe_ret].
  apply safe_map_err. unfold events_after. safe_steps.
Qed.

Lemma safe_lookup_binding wf : safe (lookup_binding wf).
Proof. unfold lookup_binding, get_session_binding. safe_steps. Qed.

#[local] Hint Resolve safe_manager_get safe_computer_body safe_snapshot safe_lookup_binding
  safe_resolve safe_append_event : server.

Lemma quiet_check_computer id : follows quiet (check_computer id).
Proof. apply quiet_same. intros s. unfold check_computer. by destruct (String.eqb id _). Qed.

Lemma quiet_read_object request : follows quiet (read_object request).
Proof. unfold read_object. follow_steps. Qed.

Lemma quiet_refuse_when b r : follows quiet (refuse_when b r).
Proof. unfold refuse_when. follow_steps. Qed.

#[local] Hint Resolve quiet_check_computer quiet_read_object quiet_refuse_when : server.

Lemma quiet_devices query : follows quiet (handle_devices query).
Proof. by apply quiet_same. Qed.

Lemma quiet_computer id : follows quiet (handle_computer id).
Proof. unfold handle_computer. follow_steps. Qed.

Lemma quiet_sysinfo id : follows quiet (handle_sysinfo id).
Proof. unfold handle_sysinfo. follow_steps. Qed.

Lemma quiet_snapshot computer wf : follows quiet (handle_workflow_snapshot computer wf).
Proof. unfold handle_workflow_snapshot. follow_steps. Qed.

Lemma quiet_approval request wf : follows quiet (handle_approval request wf).
Proof. unfold handle_approval. follow_steps. Qed.

Lemma quiet_server_new : follows quiet server_new.
Proof.
  unfold server_new. follow_steps; by apply quiet_same.
Qed.

Lemma server_new_world s : sv_world (server_new s).2 = sv_world s.
Proof.
  unfold server_new, st_bind, st_try, st_lift, fs_read, st_ret, modify. cbn.
  repeat case_match; simplify_eq; done.
Qed.

Lemma quiet_write_tail wf id outcome : follows quiet (write_tail wf id outcome).
Proof. unfold write_tail. follow_steps. Qed.

Lemma quiet_record_run wf id session outcome destructive :
  follows quiet (record_run wf id session outcome destructive).
Proof.
  pose proof (quiet_write_tail wf id outcome). unfold record_run. follow_steps.
Qed.
End Handlers.

#[export] Hint Resolve quiet_write quiet_create_dir quiet_read quiet_persist quiet_touch
  quiet_registry quiet_world quiet_storage_500 quiet_lifecycle_500 safe_open_storage
  safe_manager_open safe_now safe_manager_get safe_lookup_binding safe_resolve safe_append_event
  quiet_read_object quiet_refuse_when quiet_record_run : server.

(** ** The dedupe and the run *)

Section Runs.
Context {env : Env} {host : Host} {paths : Paths} {header_names : HeaderNames}.

(** A method over the database, or a router over it, moves it along [R]. *)
Definition db_moves {E A} (R : relation Db) (m : ST World E A) : Prop :=
  ∀ w, R (db w) (db (m w).2).
Definition router_moves {A} (R : relation Db) (m : ST (InputRouter World) StorageError A) : Prop :=
  ∀ rt, R (db (rt_store rt)) (db (rt_store (m rt).2)).

Lemma router_moves_bind {A B} R `{!PreOrder R} (m : ST (InputRouter World) StorageError A)
    (k : A → ST (InputRouter World) StorageError B) :
  router_moves R m → (∀ a, router_moves R (k a)) → router_moves R (st_bind m k).
Proof.
  intros Hm Hk rt. unfold st_bind. specialize (Hm rt). destruct (m rt) as [[a|e] rt1]; [|done].
  etrans; [exact Hm|apply Hk].
Qed.

Lemma router_moves_try {A} R (m : ST (InputRouter World) StorageError A) :
  router_moves R m → router_moves R (st_try m).
Proof. intros Hm rt. unfold st_try. specialize (Hm rt). by destruct (m rt). Qed.

Lemma router_moves_store {A} R (m : StoreM A) : db_moves R m → router_moves R (on_store m).
Proof. intros Hm rt. specialize (Hm (rt_store rt)). unfold on_store. by destruct (m (rt_store rt)). Qed.

Lemma router_moves_same {A} R `{!PreOrder R} (m : ST (InputRouter World) StorageError A) :
  (∀ rt, rt_store (m rt).2 = rt_store rt) → router_moves R m.
Proof. intros H rt. by rewrite H. Qed.

(** A delivery creates and resolves requests, and nothing else. *)
Lemma router_moves_deliver R `{!PreOrder R} wf id :
  (∀ k, db_moves R (create_pending_request k wf Input None)) →
  (∀ k, db_moves R (resolve_pending_request k "")) → router_moves R (deliver wf id).
Proof.
  intros Hc Hr. unfold deliver.
  assert (∀ r, router_moves R (let* _ := bump_delivered wf in st_ret (A:=RouteOutcome) r)) as Hd
    by (intros r; by apply router_moves_same).
  assert (∀ r, router_moves R (let* _ := bump_duplicates wf in st_ret (A:=RouteOutcome) r)) as Hu
    by (intros r; by apply router_moves_same).
  assert (∀ e, router_moves R (st_throw (A:=RouteOutcome) e)) as He
    by (intros e; by apply router_moves_same).
  case_bool_decide; [apply He|]. case_bool_decide; [apply He|].
  apply router_moves_bind; [done|apply router_moves_try, router_moves_store, Hc|].
  intros [[]|first].
  - apply router_moves_bind; [done|apply router_moves_store, Hr|]. intros _. apply Hd.
  - apply router_moves_bind; [done|apply router_moves_try, router_moves_store, Hr|].
    intros [[]|[]]; auto.
Qed.

(** One dedupe over the database. *)
Lemma wp_deliver_once wf id Q w :
  (∀ r w', good (db w) (db w') →
     match r with
     | Ok Delivered => ¬ settled (status (db w) (storage_key wf id)) ∧
                       settled (status (db w') (storage_key wf id))
     | _ => True
     end → Q r w') →
  wp (deliver_once wf id) Q w.
Proof.
  intros HQ. unfold wp, deliver_once. 
  pose proof (router_moves_deliver good wf id (λ k w, safe_run _ w (safe_create_request k wf Input None))
    (λ k w, safe_run _ w (safe_resolve k "")) (router_new w)) as Hg.
  pose proof (wp_run _ _ _ (deliver_ok wf id (router_new w))) as [[_ Hr] _]. cbn in Hr.
  destruct (deliver wf id (router_new w)) as [r rt]. cbn in *. apply HQ; [done|].
  destruct r as [[]|]; [|done..]. destruct Hr as (H1 & H2 & _). split; [done|]. by rewrite H2.
Qed.

(** Settled requests stay settled along a good move. *)
Lemma good_settled d d' k :
  store_ok d → good d d' → settled (status d k) → settled (status d' k).
Proof.
  intros Hok Hg Hs. destruct (Hg Hok) as [_ He]. destruct (status d k) as [st|] eqn:E; [|done].
  destruct (ev_requests _ _ He _ _ E) as (st' & -> & Hev). by rewrite (Hev Hs).
Qed.

(** A command started, for a request that was not settled and now is. *)
Definition ran_once (s s' : Server) : Prop :=
  good (db (sv_world s)) (db (sv_world s')) ∧
  ∃ e, sv_runs s' = sv_runs s ++ [e] ∧
    let key := storage_key (st_workflow e) (st_input e) in
    ¬ settled (status (db (sv_world s)) key) ∧ settled (status (db (sv_world s')) key).

Definition moves (s s' : Server) : Prop := quiet s s' ∨ ran_once s s'.

Lemma moves_quiet_l s1 s2 s3 :
  store_ok (db (sv_world s1)) → quiet s1 s2 → moves s2 s3 → moves s1 s3.
Proof.
  intros Hok [G1 R1] [[G2 R2]|(G2 & e & R2 & Hn & Hs)].
  - left. split; [by etrans|congruence].
  - right. split; [by etrans|]. exists e. split; [congruence|]. split; [|done].
    intros H. by apply Hn, (good_settled _ _ _ Hok G1).
Qed.

Lemma wp_follows {E A} (R : relation Server) (m : ServerM E A) Q s :
  follows R m → (∀ r s', R s s' → Q r s') → wp m Q s.
Proof. intros Hm HQ. apply wp_of. intros r s' Hr. apply HQ. specialize (Hm s). by rewrite Hr in Hm. Qed.

Lemma wp_on_world {E A} (m : ST World E A) Q s :
  wp m (λ r w, Q r (set_world w s)) (sv_world s) → wp (on_world m) Q s.
Proof. unfold wp, on_world. by destruct (m (sv_world s)). Qed.

(** What follows a delivery: at most one start, then quiet. *)
Lemma wp_after_delivery {A} wf id text (k : ExecOutcome → Handler A) s s0 :
  (∀ o, follows quiet (k o)) →
  store_ok (db (sv_world s0)) → good (db (sv_world s0)) (db (sv_world s)) →
  sv_runs s = sv_runs s0 →
  ¬ settled (status (db (sv_world s0)) (storage_key wf id)) →
  settled (status (db (sv_world s)) (storage_key wf id)) →
  wp (let* o := st_map_err exec_error (run_command wf id text) in k o) (λ _ s', moves s0 s') s.
Proof.
  intros Hk Hok Hg Hr Hn Hs. apply wp_bind, wp_map_err. unfold wp at 1, run_command.
  destruct (run_generic text (exec_run (sv_attempts s))) as [r started].
  set (s1 := set_runs _ s).
  assert (∀ s', quiet s1 s' → moves s0 s') as Hend.
  { intros s' [Hg' Hr']. cbn in Hg', Hr'.
    assert (good (db (sv_world s0)) (db (sv_world s'))) as Hg2 by by etrans.
    destruct started; [right|left].
    - split; [done|]. exists (mk_started wf id text). rewrite Hr', Hr. cbn. split_and!; [done..|].
      eapply good_settled; [|exact Hg'|done]. by apply Hg.
    - split; [done|]. by rewrite Hr', Hr. }
  destruct r as [o|e]; cbn [map_err]; [|apply Hend; reflexivity].
  eapply wp_follows; [apply Hk|]. auto.
Qed.

Lemma generic_input_moves wf id text destructive session s :
  store_ok (db (sv_world s)) →
  wp (generic_input wf id text destructive session) (λ _ s', moves s s') s.
Proof.
  intros Hok. unfold generic_input. apply wp_bind.
  eapply wp_follows; [apply quiet_storage_500, safe_open_storage|]. intros [[]|e] s1 H1; [|by left].
  pose proof H1 as [G1 R1]. apply wp_bind, wp_map_err, wp_on_world, wp_deliver_once.
  intros r w2 G2 Hr. destruct r as [[]|e]; cbn [map_err].
  - destruct Hr as [Hn Hs]. cbn in Hn. apply wp_after_delivery; cbn; [|done| |done| |done].
    + intros o. follow_steps.
    + by etrans.
    + intros H. by apply Hn, (good_settled _ _ _ Hok G1).
  - eapply wp_follows; [|intros r s' Hq; apply (moves_quiet_l _ s1); [done|done|]; left; etrans; [|exact Hq];
      by split].
    follow_steps.
  - apply (moves_quiet_l _ s1); [done..|]. left. by split.
Qed.

Lemma input_fields_quiet request : follows quiet (input_fields request).
Proof. unfold input_fields. follow_steps. Qed.

Lemma provider_gate_quiet wf : follows quiet (provider_gate wf).
Proof. unfold provider_gate. follow_steps. Qed.

Lemma interactive_quiet wf : follows quiet (interactive_input_501 wf).
Proof. unfold interactive_input_501. follow_steps. Qed.

Lemma wp_moves_bind {A B} (m : Handler A) (k : A → Handler B) s :
  store_ok (db (sv_world s)) → follows quiet m →
  (∀ a s', store_ok (db (sv_world s')) → wp (k a) (λ _ s'', moves s' s'') s') →
  wp (st_bind m k) (λ _ s', moves s s') s.
Proof.
  intros Hok Hm Hk. apply wp_bind. eapply wp_follows; [exact Hm|]. intros [a|e] s' Hq; [|by left].
  eapply wp_mono; [apply Hk; by apply Hq|]. intros r s''. cbn. by apply moves_quiet_l.
Qed.

Lemma handle_input_moves request wf s :
  store_ok (db (sv_world s)) → moves s (handle_input request wf s).2.
Proof.
  intros Hok. apply (wp_run (handle_input request wf) (λ _ s', moves s s') s).
  unfold handle_input. apply wp_moves_bind; [done|apply input_fields_quiet|].
  intros [[id text] destructive] s1 Hok1. cbn beta iota.
  apply wp_moves_bind; [done|apply provider_gate_quiet|]. intros [p session] s2 Hok2. cbn beta iota.
  case_bool_decide; [|by apply generic_input_moves].
  eapply wp_follows; [apply interactive_quiet|]. intros r s3 H3. by left.
Qed.

Lemma reply_moves request s : store_ok (db (sv_world s)) → moves s (reply request s).2.
Proof.
  intros Hok. unfold reply. destruct (negb (bearer_ok request (sv_token s))); [left; reflexivity|].
  set (r := route (hr_method request) (hr_url request)).
  assert (moves s (dispatch_route request r s).2) as H.
  { destruct r; cbn [dispatch_route].
    - left. apply quiet_devices.
    - left. apply quiet_computer.
    - left. apply quiet_sysinfo.
    - left. apply quiet_snapshot.
    - left. apply quiet_approval.
    - by apply handle_input_moves.
    - left. reflexivity. }
  destruct (dispatch_route request r s) as [[resp|resp] s']; exact H.
Qed.

(** ** Histories *)

(** What happens to a server: a request, a restart, another call on the store
    by the rest of the agent. *)
Inductive server_op := Serve (request : Request) | Restart | Agent (op : AgentOp).

Definition server_step (op : server_op) (s : Server) : Server :=
  match op with
  | Serve request => (reply request s).2
  | Restart => (server_new s).2
  | Agent op => set_world (run_op op (sv_world s)) s
  end.

Lemma step_moves op s : store_ok (db (sv_world s)) → moves s (server_step op s).
Proof.
  intros Hok. destruct op as [request| |op]; cbn [server_step].
  - by apply reply_moves.
  - left. apply quiet_server_new.
  - left. split; [apply run_op_good|done].
Qed.

(** The started commands of one input. *)
Definition runs_of (key : string) (log : list Started) : list Started :=
  filter (λ e, storage_key (st_workflow e) (st_input e) = key) log.

Definition runs_ok (s : Server) : Prop :=
  store_ok (db (sv_world s)) ∧
  ∀ key, length (runs_of key (sv_runs s)) ≤ 1 ∧
    (runs_of key (sv_runs s) ≠ [] → settled (status (db (sv_world s)) key)).

Lemma runs_ok_step op s : runs_ok s → runs_ok (server_step op s).
Proof.
  intros [Hok Hruns]. destruct (step_moves op s Hok) as [[Hg Hr]|(Hg & e & Hr & Hn & Hs)].
  - split; [by apply Hg|]. intros key. rewrite Hr. destruct (Hruns key) as [H1 H2].
    split; [done|]. intros H. by apply (good_settled _ _ _ Hok Hg), H2.
  - split; [by apply Hg|]. intros key. destruct (Hruns key) as [H1 H2]. rewrite Hr.
    unfold runs_of in *. rewrite filter_app.
    destruct (decide (storage_key (st_workflow e) (st_input e) = key)) as [<-|Hk].
    + assert (filter (λ e0, storage_key (st_workflow e0) (st_input e0) =
        storage_key (st_workflow e) (st_input e)) (sv_runs s) = []) as ->.
      { destruct (filter _ (sv_runs s)) eqn:E; [done|]. exfalso. by apply Hn, H2. }
      rewrite filter_cons_True by done. by split.
    + rewrite filter_cons_False, app_nil_r by done. split; [done|].
      intros H. by apply (good_settled _ _ _ Hok Hg), H2.
Qed.

(** C27: a command runs at most once per input.  Start a server with an empty
    log over any well-formed store; let it serve any requests, authorised or
    not, be restarted, and share the store with the rest of the agent, in any
    order, with any engine faults, failing file calls and outcomes of commands:
    of all commands it ever started, at most one belongs to any given dedupe
    key, and the store stays well formed. *)
Theorem input_runs_at_most_once (s : Server) (ops : list server_op) (workflow input_id : string) :
  store_ok (db (sv_world s)) → sv_runs s = [] →
  let s' := runs server_step ops s in
  store_ok (db (sv_world s')) ∧
  length (runs_of (storage_key workflow input_id) (sv_runs s')) ≤ 1.
Proof.
  intros Hok Hr s'. assert (runs_ok s') as [H1 H2].
  { subst s'. apply (runs_inv server_step runs_ok); [intros; by apply runs_ok_step|].
    split; [done|]. intros key. rewrite Hr. split; [cbn; lia|done]. }
  split; [done|]. apply H2.
Qed.
End Runs.

(** ** Witness

    A server over a store with the workflow [wf-1]; its commands exit at once. *)

#[local] Instance sample_env : Env := steady_env 1000 7.
#[local] Instance sample_host : Host := {|
  io_fault := λ _, None; torn := λ _ old, old;
  missing_file := "no such file"; not_utf8 := "not UTF-8";
  exec_run := λ _, mk_run None [PumpStdout "done"; ProcessExit 0] None []
|}.
#[local] Instance sample_paths : Paths := {|
  path_parent := λ _, Some "."; path_join := λ d f, d +:+ "/" +:+ f
|}.
#[local] Instance sample_headers : HeaderNames := {| equiv := String.eqb |}.

Definition sample_server : Server :=
  mk_server catalog_config "secret" registry_default catalog_world {["token" := "secret"]} 0 0 [].

Definition post (url key body : string) : Request :=
  mk_request Post url [("Authorization", "Bearer secret"); ("X-Request-ID", key)] [Chunk body].

Definition sample_input : Request :=
  post "/v1/agent/workflows/wf-1/inputs" "u-1"
    (render (obj [("input_id", Str "u-1"); ("body", Str "make"); ("destructive", Bool false)])).

Definition sample_ops : list server_op :=
  [Serve sample_input; Serve sample_input; Restart; Serve sample_input].

(** The input runs once, and the retries are answered as duplicates. *)
Example sample_input_runs_once :
  (reply sample_input sample_server).1 =
    delivered_response "u-1" (mk_outcome 0 "done" "" false) false ∧
  (reply sample_input (runs server_step sample_ops sample_server)).1 = duplicate_response "u-1" ∧
  sv_runs (runs server_step sample_ops sample_server) = [mk_started "wf-1" "u-1" "make"].
Proof. vm_compute. auto. Qed.

Lemma input_runs_at_most_once_witness :
  store_ok (db (sv_world sample_server)) ∧
  length (runs_of (storage_key "wf-1" "u-1") (sv_runs (runs server_step sample_ops sample_server))) ≤ 1.
Proof.
  split; [exact catalog_world_ok|].
  exact (proj2 (input_runs_at_most_once sample_server sample_ops "wf-1" "u-1" catalog_world_ok eq_refl)).
Defined.
