(* ===== verification/Machine.v ===== *)
(** * Machine: the agent's store as an abstract machine

    What the store is for, without its tables, clocks and byte counts: flows
    with their state, a log per flow, bindings, single-resolve requests, a queue
    to publish and the commands that were started.  [step_to] has its atomic
    steps, [view] what a database shows, and the lemmas say which step a
    statement on the tables is. *)

From stdpp Require Import functions.
From S2P Require Import Prelude Text Events Schema Storage Ring RingFacts OutboxFacts Requests Store Lifecycle LifecycleFacts Router Exec Server ServerFacts.

(** ** The machine *)

(** A workflow, as its owner knows it. *)
Record Flow := mk_flow {
  fl_provider : option Provider;
  fl_title : string;
  fl_session : option string;
  fl_state : option WorkflowState;
}.

(** An event of its log. *)
Record Logged := mk_logged {
  lg_seq : Z;
  lg_type : option EventType;
  lg_summary : string;
  lg_pointer : option string;
}.

Record View := mk_view_of {
  av_flow : string → option Flow;
  av_log : string → list Logged;       (* the kept events, oldest first *)
  av_newest : string → Z;              (* the newest number ever given *)
  av_binding : string → option (string * option string);
  av_request : string → option ReqStatus;
  av_outbox : list (string * Z * bool); (* what to publish, and whether it is *)
  av_runs : list Started;              (* the commands started for inputs *)
}.

(** Views are the same when they show the same. *)
#[export] Instance view_equiv : Equiv View := λ a b,
  (∀ x, av_flow a x = av_flow b x) ∧ (∀ x, av_log a x = av_log b x) ∧
  (∀ x, av_newest a x = av_newest b x) ∧ (∀ x, av_binding a x = av_binding b x) ∧
  (∀ x, av_request a x = av_request b x) ∧ av_outbox a = av_outbox b ∧ av_runs a = av_runs b.

#[export] Instance view_equivalence : Equivalence (≡@{View}).
Proof.
  split; unfold equiv, view_equiv.
  - intros a. done.
  - intros a b (? & ? & ? & ? & ? & ? & ?). by split_and!.
  - intros a b c (A1 & A2 & A3 & A4 & A5 & A6 & A7) (B1 & B2 & B3 & B4 & B5 & B6 & B7).
    split_and!; intros; etrans; eauto.
Qed.

Definition with_flow (id : string) (f : Flow) (a : View) : View :=
  mk_view_of (<[id := Some f]> (av_flow a)) (av_log a) (av_newest a) (av_binding a) (av_request a) (av_outbox a) (av_runs a).
Definition with_log (id : string) (l : list Logged) (n : Z) (a : View) : View :=
  mk_view_of (av_flow a) (<[id := l]> (av_log a)) (<[id := n]> (av_newest a)) (av_binding a) (av_request a)
    (av_outbox a ++ [(id, n, false)]) (av_runs a).
Definition with_binding (id : string) (b : string * option string) (a : View) : View :=
  mk_view_of (av_flow a) (av_log a) (av_newest a) (<[id := Some b]> (av_binding a)) (av_request a) (av_outbox a) (av_runs a).
Definition with_request (key : string) (st : ReqStatus) (a : View) : View :=
  mk_view_of (av_flow a) (av_log a) (av_newest a) (av_binding a) (<[key := Some st]> (av_request a)) (av_outbox a) (av_runs a).
Definition with_outbox (l : list (string * Z * bool)) (a : View) : View :=
  mk_view_of (av_flow a) (av_log a) (av_newest a) (av_binding a) (av_request a) l (av_runs a).
Definition with_run (e : Started) (a : View) : View :=
  mk_view_of (av_flow a) (av_log a) (av_newest a) (av_binding a) (av_request a) (av_outbox a) (av_runs a ++ [e]).

#[export] Instance with_flow_proper id f : Proper ((≡) ==> (≡)) (with_flow id f).
Proof.
  intros a b (? & ? & ? & ? & ? & ? & ?). split_and!; try done. intros x. cbn. unfold insert, fn_insert. by case_decide.
Qed.
#[export] Instance with_log_proper id l n : Proper ((≡) ==> (≡)) (with_log id l n).
Proof.
  intros a b (? & ? & ? & ? & ? & E & ?). split_and!; try done; cbn; [..|by rewrite E];
    intros x; unfold insert, fn_insert; by case_decide.
Qed.
#[export] Instance with_binding_proper id p : Proper ((≡) ==> (≡)) (with_binding id p).
Proof.
  intros a b (? & ? & ? & ? & ? & ? & ?). split_and!; try done. intros x. cbn. unfold insert, fn_insert. by case_decide.
Qed.
#[export] Instance with_request_proper key st : Proper ((≡) ==> (≡)) (with_request key st).
Proof.
  intros a b (? & ? & ? & ? & ? & ? & ?). split_and!; try done. intros x. cbn. unfold insert, fn_insert. by case_decide.
Qed.
#[export] Instance with_outbox_proper l : Proper ((≡) ==> (≡)) (with_outbox l).
Proof. by intros a b (? & ? & ? & ? & ? & ? & ?). Qed.
#[export] Instance with_run_proper e : Proper ((≡) ==> (≡)) (with_run e).
Proof. intros a b (? & ? & ? & ? & ? & ? & E). split_and!; try done. cbn. by rewrite E. Qed.

(** The atomic steps. *)
Inductive Step :=
| Create (id : string) (p : Provider) (ttl : string) (session : option string)
| Move (id : string) (next : WorkflowState)
| Log (id : string) (et : EventType) (summary : string) (pointer : option string)
| Bind (id session : string) (resume : option string)
| Claim (key : string) (expires : option Z)
| Apply (key payload : string)
| Expire (key : string)
| Publish (i : nat)
| Start (wf id text : string).

Definition final (s : option WorkflowState) : Prop :=
  s = Some Completed ∨ s = Some Failed ∨ s = Some Stopped.

(** A flow is created running and moves between storable states until it is
    final; a log grows at its end and loses events at its front only, never the
    newest; a request is claimed once and settled once; an entry is published
    once; a command starts for an input that was applied. *)
Definition step_to (l : Step) (a a' : View) : Prop :=
  match l with
  | Create id p ttl session =>
      av_flow a id = None ∧ a' ≡ with_flow id (mk_flow (Some p) ttl session (Some Running)) a
  | Move id next => ∃ f, av_flow a id = Some f ∧ ¬ final (fl_state f) ∧ is_persistable next = true ∧
      a' ≡ with_flow id (mk_flow (fl_provider f) (fl_title f) (fl_session f) (Some next)) a
  | Log id et summary pointer => is_Some (av_flow a id) ∧ ∃ n, n ≤ length (av_log a id) ∧
      let seq := (av_newest a id + 1)%Z in
      a' ≡ with_log id (drop n (av_log a id) ++ [mk_logged seq (Some et) summary pointer]) seq a
  | Bind id session resume => is_Some (av_flow a id) ∧ a' ≡ with_binding id (session, resume) a
  | Claim key expires => av_request a key = None ∧ a' ≡ with_request key (RPending expires) a
  | Apply key payload => (∃ e, av_request a key = Some (RPending e)) ∧ a' ≡ with_request key (RResolved payload) a
  | Expire key => (∃ e, av_request a key = Some (RPending (Some e))) ∧ a' ≡ with_request key RExpired a
  | Publish i => ∃ wf seq, av_outbox a !! i = Some (wf, seq, false) ∧
      a' ≡ with_outbox (<[i := (wf, seq, true)]> (av_outbox a)) a
  | Start wf id text => av_request a (storage_key wf id) = Some (RResolved "") ∧
      a' ≡ with_run (mk_started wf id text) a
  end.

Lemma step_to_proper l a a' b b' : a ≡ b → a' ≡ b' → step_to l a a' → step_to l b b'.
Proof.
  intros Hab Hab'. pose proof Hab as (A1 & A2 & A3 & A4 & A5 & A6 & A7).
  destruct l; cbn; rewrite <-?A1, <-?A2, <-?A3, <-?A5, <-?A6; setoid_rewrite <-Hab'; setoid_rewrite <-Hab; done.
Qed.

Inductive steps_to : View → list Step → View → Prop :=
| steps_same a a' : a ≡ a' → steps_to a [] a'
| steps_more a l a1 ls a' : step_to l a a1 → steps_to a1 ls a' → steps_to a (l :: ls) a'.

Lemma steps_proper a ls a' b b' : a ≡ b → a' ≡ b' → steps_to a ls a' → steps_to b ls b'.
Proof.
  intros Hab Hab' H. revert b b' Hab Hab'. induction H as [a a' H|a l a1 ls a' H _ IH]; intros b b' Hab Hab'.
  - apply steps_same. by rewrite <-Hab, <-Hab'.
  - eapply steps_more; [eapply step_to_proper; [exact Hab|reflexivity|exact H]|]. by apply IH.
Qed.

Lemma steps_app a ls a1 ls' a' : steps_to a ls a1 → steps_to a1 ls' a' → steps_to a (ls ++ ls') a'.
Proof.
  induction 1 as [a a1 H|a l a1 ls a2 H _ IH]; intros H'; cbn.
  - by eapply steps_proper.
  - eapply steps_more; [exact H|]. by apply IH.
Qed.

Lemma steps_one a l a' : step_to l a a' → steps_to a [l] a'.
Proof. intros H. eapply steps_more; [exact H|by apply steps_same]. Qed.

(** ** The view of a database *)

Definition flow_of (row : WorkflowRow) : Flow :=
  mk_flow (provider_from_i32 (provider row)) (title row) (provider_session_id row) (state_from_i32 (state row)).
Definition logged (r : EventRow) : Logged :=
  mk_logged (er_seq_no r) (event_type_from_i32 (er_type r)) (er_summary r) (er_detail_pointer r).
Definition bound (b : BindingRow) : string * option string :=
  (bd_provider_session_id b, bd_resume_pointer b).
Definition queued (r : OutboxRow) : string * Z * bool :=
  (ob_workflow_id r, ob_seq_no r, bool_decide (is_Some (ob_published_at_millis r))).

Definition view (runs : list Started) (d : Db) : View :=
  mk_view_of (λ id, flow_of <$> workflows d !! id) (λ id, logged <$> events_of id d)
    (λ id, newest id d) (λ id, bound <$> session_bindings d !! id) (status d) (queued <$> outbox d) runs.

Section Views.
Context (runs : list Started).

Lemma view_tables d d' : tables d' = tables d → view runs d' ≡ view runs d.
Proof.
  unfold tables. intros [= H1 H2 H3 H4 H5 H6].
  split_and!; cbn; intros; unfold events_of, newest, cut, events_of, status; by rewrite ?H1, ?H2, ?H3, ?H4, ?H5, ?H6.
Qed.

Lemma final_terminal row s : state row = state_i32 s → final (fl_state (flow_of row)) → terminal row.
Proof.
  intros E [H|[H|H]]; cbn in H; rewrite E, state_from_i32_i32 in H; injection H as ->;
    by eapply (terminal_iff row _ E); auto.
Qed.

Lemma provider_from_i32_i32 p : provider_from_i32 (provider_i32 p) = Some p.
Proof. by destruct p. Qed.

Lemma step_create id p ttl session t d :
  workflows d !! id = None →
  step_to (Create id p ttl session) (view runs d) (view runs (set_workflows
    (<[id := mk_workflow_row id (provider_i32 p) (state_i32 Running) ttl session t t]> (workflows d)) d)).
Proof.
  intros Hn. split; [cbn; by rewrite Hn|]. split_and!; try done. intros x. cbn. unfold insert at 2, fn_insert.
  case_decide as E; [subst; by rewrite lookup_insert_eq, <-provider_from_i32_i32|by rewrite lookup_insert_ne].
Qed.

Lemma step_move id next row t d :
  workflows_ok d → workflows d !! id = Some row → ¬ terminal row → is_persistable next = true →
  step_to (Move id next) (view runs d)
    (view runs (set_workflows (<[id := set_state_row (state_i32 next) t row]> (workflows d)) d)).
Proof.
  intros Hok Hrow Ht Hp. destruct (Hok _ _ Hrow) as (_ & (s & _ & Hs) & _).
  exists (flow_of row). cbn. rewrite Hrow. split_and!; [done|by intros ?%(final_terminal _ _ Hs)|done|].
  split_and!; try done. intros x. cbn. unfold insert at 2, fn_insert.
  case_decide as E; [subst; rewrite lookup_insert_eq; cbn|by rewrite lookup_insert_ne].
  unfold flow_of. cbn. by rewrite state_from_i32_i32.
Qed.

Lemma step_bind wf session resume t d :
  is_Some (workflows d !! wf) →
  step_to (Bind wf session resume) (view runs d)
    (view runs (set_bindings (<[wf := mk_binding_row session resume t]> (session_bindings d)) d)).
Proof.
  intros [row Hrow]. split; [cbn; by rewrite Hrow; eexists|]. split_and!; try done. intros x. cbn.
  unfold insert at 2, fn_insert. case_decide as E; [subst; by rewrite lookup_insert_eq|by rewrite lookup_insert_ne].
Qed.

Lemma step_log draft seq d d' :
  is_Some (workflows d !! dr_workflow_id draft) → appended draft seq d d' →
  step_to (Log (dr_workflow_id draft) (dr_event_type draft) (dr_summary draft) (dr_detail_pointer draft))
    (view runs d) (view runs d').
Proof.
  intros [row Hrow] [Hseq He Hc _ [t Ho] (_ & _ & Hw & Hb & Hr) Hoth]. set (wf := dr_workflow_id draft) in *.
  cbn zeta in He, Hc. set (l := events_of wf d) in *.
  assert (trim_count (l ++ [event_row draft seq]) < length (l ++ [event_row draft seq])) as Hlt
    by (apply trim_count_lt; by destruct l).
  rewrite length_app in Hlt. cbn in Hlt. set (n := trim_count _) in *.
  rewrite drop_app_le in He by lia.
  split; [cbn; by rewrite Hrow; eexists|]. exists n. cbn. fold l. rewrite length_fmap.
  split; [lia|]. subst seq. split_and!; cbn.
  - intros x. by rewrite Hw.
  - intros x. unfold insert, fn_insert. case_decide as E; [subst x|by destruct (Hoth x) as (-> & _ & _)].
    rewrite He, fmap_app, fmap_drop. cbn. unfold logged at 2. cbn. by rewrite event_type_from_i32_i32.
  - intros x. unfold insert, fn_insert. case_decide as E; [subst x|].
    + unfold newest. rewrite He, Hc. fold l. rewrite length_app, length_drop. cbn. lia.
    + destruct (Hoth x) as (Hx & _ & Ht); [done|]. unfold newest, cut. by rewrite Hx, Ht.
  - intros x. by rewrite Hb.
  - intros x. unfold status. by rewrite Hr.
  - by rewrite Ho, fmap_app.
  - done.
Qed.

Lemma same_requests_view d d' key st :
  same_but_requests d d' → (∀ k, k ≠ key → status d' k = status d k) → status d' key = Some st →
  view runs d' ≡ with_request key st (view runs d).
Proof.
  unfold same_but_requests. intros <- Hoth Hst. split_and!; try done. intros x. cbn.
  unfold insert, fn_insert. case_decide as E; [by subst|by apply Hoth].
Qed.

Lemma same_requests_same d d' key :
  same_but_requests d d' → (∀ k, k ≠ key → status d' k = status d k) → status d' key = status d key →
  view runs d ≡ view runs d'.
Proof.
  unfold same_but_requests. intros <- Hoth Hst. split_and!; try done. intros x. cbn.
  destruct (decide (x = key)) as [->|Hn]; [done|by symmetry; apply Hoth].
Qed.

Lemma step_claim key wf kind t expires d :
  status d key = None →
  step_to (Claim key expires) (view runs d) (view runs (set_requests
    (<[key := mk_request_row wf (request_kind_i32 kind) 1 t expires None None]> (pending_requests d)) d)).
Proof.
  intros Hn. split; [done|]. apply same_requests_view; [by destruct d|..].
  - intros k Hk. unfold status. cbn. by rewrite lookup_insert_ne.
  - unfold status. cbn. by rewrite lookup_insert_eq.
Qed.

(** The requests [keys] expire. *)
Lemma steps_expire keys a :
  NoDup keys → (∀ k, k ∈ keys → ∃ e, av_request a k = Some (RPending (Some e))) →
  ∃ a', steps_to a (Expire <$> keys) a' ∧ av_flow a' = av_flow a ∧ av_log a' = av_log a ∧
    av_newest a' = av_newest a ∧ av_binding a' = av_binding a ∧ av_outbox a' = av_outbox a ∧
    av_runs a' = av_runs a ∧ (∀ k, av_request a' k = if decide (k ∈ keys) then Some RExpired else av_request a k).
Proof.
  revert a. induction keys as [|key keys IH]; intros a Hnd Hp.
  { exists a. split; [by apply steps_same|done]. }
  apply NoDup_cons in Hnd as [Hk Hnd].
  destruct (IH (with_request key RExpired a) Hnd) as (a' & Hs & H1 & H2 & H3 & H4 & H5 & H7 & H6).
  { intros k Hin. cbn. unfold insert, fn_insert. rewrite decide_False by (intros ->; done). apply Hp. set_solver. }
  exists a'. split; [|split_and!; try done].
  - eapply steps_more; [|exact Hs]. split; [|done]. apply Hp. set_solver.
  - intros k. rewrite H6. cbn. unfold insert, fn_insert.
    destruct (decide (k ∈ keys)); [by rewrite decide_True by set_solver|].
    destruct (decide (key = k)); [by rewrite decide_True by set_solver|by rewrite decide_False by set_solver].
Qed.

Lemma expire_all_steps t d n d' :
  expire_all t d = Ok (n, d') → ∃ keys, steps_to (view runs d) (Expire <$> keys) (view runs d').
Proof.
  intros [= _ <-]. set (due := filter (λ kv, overdue t kv.2 = true) (pending_requests d)).
  assert (∀ k, k ∈ (map_to_list due).*1 ↔ ∃ r, pending_requests d !! k = Some r ∧ overdue t r = true) as Hdue.
  { intros k. rewrite list_elem_of_fmap. split.
    - intros ([k' r] & -> & [Hr Ho]%elem_of_map_to_list%map_lookup_filter_Some). eauto.
    - intros (r & Hr & Ho). exists (k, r). split; [done|]. by apply elem_of_map_to_list, map_lookup_filter_Some. }
  destruct (steps_expire (map_to_list due).*1 (view runs d)) as (a' & Hs & H1 & H2 & H3 & H4 & H5 & H7 & H6).
  { apply NoDup_fst_map_to_list. }
  { intros k (r & Hr & Ho)%Hdue. apply overdue_status in Ho as ([e|] & He & Hp); [|done].
    exists e. cbn. unfold status. rewrite Hr. cbn. by rewrite He. }
  exists (map_to_list due).*1. eapply steps_proper; [reflexivity| |exact Hs].
  split_and!; rewrite ?H1, ?H2, ?H3, ?H4, ?H5, ?H7; try done. intros k. rewrite H6. cbn. unfold status. cbn.
  rewrite lookup_fmap. case_decide as Hk.
  - apply Hdue in Hk as (r & -> & Ho). cbn. by rewrite Ho.
  - destruct (pending_requests d !! k) as [r|] eqn:Hr; [|done]. cbn.
    destruct (overdue t r) eqn:Ho; [|done]. destruct Hk. apply Hdue. eauto.
Qed.

Lemma publish_steps es l l' pre a :
  Forall2 (may_publish es) l l' →
  ∃ ps, steps_to (with_outbox (pre ++ (queued <$> l)) a) (Publish <$> ps) (with_outbox (pre ++ (queued <$> l')) a) ∧
    ∀ i, i ∈ ps → ∃ r, l !! (i - length pre) = Some r ∧ entry_of r ∈ es ∧ length pre ≤ i.
Proof.
  intros H. revert pre. induction H as [|r r' l l' Hr _ IH]; intros pre;
    [exists []; split; [by apply steps_same|by intros i ?%elem_of_nil]|].
  assert (∀ (q : string * Z * bool) m, pre ++ q :: m = (pre ++ [q]) ++ m) as Hsn
    by (intros; by rewrite <-app_assoc).
  destruct (IH (pre ++ [queued r'])) as (ps & Hps & Hin). cbn [fmap list_fmap].
  rewrite length_app in Hin. cbn [length] in Hin.
  assert (∀ i, i ∈ ps → ∃ r0, (r :: l) !! (i - length pre) = Some r0 ∧ entry_of r0 ∈ es ∧ length pre ≤ i) as Hin'.
  { intros i Hi. destruct (Hin i Hi) as (r0 & Hr0 & He & Hl). exists r0.
    replace (i - length pre) with (S (i - (length pre + 1))) by lia. split_and!; [done|done|lia]. }
  destruct Hr as [->|(He & Hp & t & ->)].
  - exists ps. split; [|done]. by rewrite (Hsn _ (queued <$> l)), (Hsn _ (queued <$> l')).
  - exists (length pre :: ps). split.
    + cbn. eapply steps_more; [|rewrite (Hsn _ (queued <$> l')); exact Hps].
      exists (ob_workflow_id r), (ob_seq_no r). cbn. rewrite list_lookup_middle by done. unfold queued at 1 2.
      rewrite Hp. split; [done|]. rewrite insert_app_r_alt, Nat.sub_diag by lia. cbn.
      by rewrite <-app_assoc.
    + intros i [->|Hi]%elem_of_cons; [|by apply Hin']. exists r. rewrite Nat.sub_diag. by split_and!.
Qed.
End Views.
