(* ===== verification/ServerSpec.v ===== *)
(** * ServerSpec: the gate of every request

    What every request to [calcar-connect/src/server.rs] goes through: the
    bearer check, the statuses the API documents, and reads that change no row;
    with the shared facts about parts that change no row. *)

From S2P Require Import Prelude Text Events Schema Storage Ring RingFacts OutboxFacts Requests Store Lifecycle LifecycleFacts Reach Router Plain BTree Json Http Config Exec Catalog CatalogFacts Server ServerFacts.

Section ServerSpec.
Context {env : Env} {host : Host} {paths : Paths} {header_names : HeaderNames}.

(** ** Replies *)

Definition response_of (r : result Response Response) : Response :=
  match r with Ok r | Err r => r end.

Lemma wp_reply request r (Q : Response → Server → Prop) s :
  bearer_ok request (sv_token s) = true → route (hr_method request) (hr_url request) = r →
  wp (dispatch_route request r) (λ x s', Q (response_of x) s') s →
  let '(response, s') := reply request s in Q response s'.
Proof.
  intros Hb <-. unfold reply, wp. rewrite Hb. cbn [negb].
  by destruct (dispatch_route request _ s) as [[resp|resp] s'].
Qed.

(** A method whose answers, early or not, have a status of the list. *)
Definition statuses {A} (P : A → Prop) (codes : list Z) (m : Handler A) : Prop :=
  ∀ s, match (m s).1 with Ok a => P a | Err r => rp_status r ∈ codes end.

Definition status_in (codes : list Z) (r : Response) : Prop := rp_status r ∈ codes.

Lemma statuses_bind {A B} (P : A → Prop) (Q : B → Prop) codes (m : Handler A) (k : A → Handler B) :
  statuses P codes m → (∀ a, P a → statuses Q codes (k a)) → statuses Q codes (st_bind m k).
Proof.
  intros Hm Hk s. unfold st_bind. specialize (Hm s). destruct (m s) as [[a|e] s1]; [|done].
  by apply Hk.
Qed.
Lemma statuses_any {A} (P : A → Prop) codes (m : Handler A) :
  statuses P codes m → statuses (λ _, True) codes m.
Proof. intros Hm s. specialize (Hm s). by destruct (m s).1. Qed.
Lemma statuses_map_err {E A} codes (f : E → Response) (m : ServerM E A) :
  (∀ e, rp_status (f e) ∈ codes) → statuses (λ _, True) codes (st_map_err f m).
Proof. intros Hf s. unfold st_map_err. by destruct (m s) as [[a|e] s']; cbn. Qed.
Lemma statuses_try {E A} codes (m : ServerM E A) : statuses (λ _, True) codes (st_try m).
Proof. intros s. unfold st_try. by destruct (m s). Qed.
Lemma statuses_ret codes r : rp_status r ∈ codes → statuses (status_in codes) codes (st_ret r).
Proof. by intros H s. Qed.
Lemma statuses_ret_any {A} codes (a : A) : statuses (λ _, True) codes (st_ret a).
Proof. by intros s. Qed.
Lemma statuses_throw {A} (P : A → Prop) codes r : rp_status r ∈ codes → statuses P codes (st_throw r).
Proof. by intros H s. Qed.
Lemma statuses_get codes : statuses (λ _, True) codes st_get.
Proof. by intros s. Qed.
Lemma statuses_modify codes f : statuses (λ _, True) codes (modify f).
Proof. by intros s. Qed.
Lemma statuses_persist codes : statuses (λ _, True) codes persist_registry.
Proof. by intros s. Qed.

(** The statuses the API documents. *)
Definition api_statuses : list Z := [200; 400; 404; 409; 410; 413; 500; 501; 504]%Z.

Lemma in_statuses (codes : list Z) r :
  bool_decide (rp_status r ∈ codes) = true → rp_status r ∈ codes.
Proof. apply bool_decide_eq_true_1. Qed.

Lemma read_body_refusal request status code message :
  read_body request = Err (status, code, message) → status = 400%Z ∨ status = 413%Z.
Proof.
  unfold read_body. generalize "" at 1. induction (hr_reads request) as [|[c|] rest IH]; intros bytes;
    cbn [read_loop]; unfold utf8_body.
  - destruct (utf8_valid bytes); naive_solver.
  - destruct (String.eqb c ""); [destruct (utf8_valid bytes); naive_solver|].
    destruct (_ <? _)%Z; [naive_solver|apply IH].
  - naive_solver.
Qed.

Lemma statuses_read_object codes request :
  (400 ∈ codes → 413 ∈ codes → statuses (λ _, True) codes (read_object request))%Z.
Proof.
  intros H4 H13. unfold read_object. destruct (read_body request) as [body|[[status code] message]] eqn:E.
  - destruct (parse_object body); [apply statuses_ret_any|]. by apply statuses_throw.
  - apply read_body_refusal in E as [-> | ->]; by apply statuses_throw.
Qed.
End ServerSpec.

(** One step along the statuses of a handler. *)
Ltac status_step :=
  match goal with
  | |- statuses _ _ (st_bind _ _) =>
      eapply (statuses_bind (λ _, True)); [|let a := fresh "a" in intros a _]
  | |- statuses _ _ (if ?b then _ else _) => destruct b
  | |- statuses _ _ (match ?x with _ => _ end) => destruct x
  | |- statuses _ _ (st_ret _) => first [apply statuses_ret_any | apply statuses_ret]
  | |- statuses _ _ (st_throw _) => apply statuses_throw
  | |- statuses _ _ st_get => apply statuses_get
  | |- statuses _ _ (modify _) => apply statuses_modify
  | |- statuses _ _ (touch _) => apply statuses_modify
  | |- statuses _ _ persist_registry => apply statuses_persist
  | |- statuses _ _ (st_try _) => apply statuses_try
  | |- statuses _ _ (read_object _) =>
      apply statuses_read_object; apply (bool_decide_unpack _); reflexivity
  | |- statuses _ _ (st_map_err _ _) =>
      apply statuses_map_err; let e := fresh "e" in intros e
  | |- statuses _ _ (storage_500 _) => apply statuses_map_err; intros ?
  | |- statuses _ _ (lifecycle_500 _) => apply statuses_map_err; intros ?
  | |- rp_status _ ∈ _ => apply in_statuses; reflexivity
  | |- rp_status (_ ?x) ∈ _ => destruct x; apply in_statuses; reflexivity
  end; cbn beta iota.
Ltac status_steps := repeat status_step.

Section Statuses.
Context {env : Env} {host : Host} {paths : Paths} {header_names : HeaderNames}.

Definition api {A} (P : A → Prop) (m : Handler A) : Prop := statuses P api_statuses m.

Lemma api_approval request wf :
  statuses (status_in api_statuses) api_statuses (handle_approval request wf).
Proof. unfold handle_approval, refuse_when. status_steps. Qed.

Lemma api_input request wf :
  statuses (status_in api_statuses) api_statuses (handle_input request wf).
Proof.
  unfold handle_input, input_fields, provider_gate, interactive_input_501, generic_input, refuse_when.
  status_steps.
Qed.

Lemma api_devices query : statuses (status_in api_statuses) api_statuses (handle_devices query).
Proof.
  intros s. unfold handle_devices. cbn. destruct (query_value query "user_id") as [user|];
    [destruct (String.eqb user "")|]; by apply in_statuses.
Qed.

Lemma api_check_computer id : statuses (λ _, True) api_statuses (check_computer id).
Proof. intros s. unfold check_computer. destruct (String.eqb id _); [done|by apply in_statuses]. Qed.

Lemma api_dispatch request r :
  statuses (status_in api_statuses) api_statuses (dispatch_route request r).
Proof.
  pose proof api_check_computer. destruct r; cbn [dispatch_route]; auto using api_devices, api_approval, api_input;
    unfold handle_computer, handle_sysinfo, handle_workflow_snapshot; status_steps; auto.
Qed.

(** ** Parts that change no row *)

Lemma read_object_cases request s :
  (∃ body parsed, read_body request = Ok body ∧ parse_object body = Some parsed ∧
     read_object request s = (Ok parsed, s)) ∨
  (∃ r, read_object request s = (Err r, s) ∧ (rp_status r = 400%Z ∨ rp_status r = 413%Z) ∧
     ∀ body parsed, read_body request = Ok body → parse_object body = Some parsed → False).
Proof.
  unfold read_object. destruct (read_body request) as [body|[[status code] message]] eqn:E.
  - destruct (parse_object body) as [parsed|] eqn:Ep; [left; eauto|]. right. eexists.
    split; [reflexivity|]. split; [by left|]. intros ? ? [= <-]. congruence.
  - right. eexists. split; [reflexivity|]. split; [by eapply read_body_refusal|done].
Qed.

(** No engine fault from now on, over a migrated database. *)
Definition healthy (d : Db) : Prop := (∀ n, fault n = None) ∧ migrated d.

Lemma healthy_faulted d e : healthy d → ¬ faulted e.
Proof. intros [H _] (n & c & Hn & _). congruence. Qed.

Lemma healthy_db_error d e : healthy d → ¬ db_error d e.
Proof. intros H [Hf|[Hs _]]; [by eapply healthy_faulted|]. destruct H as [_ [H _]]. congruence. Qed.

(** A storage method that changes nothing on a migrated database, and does not
    fail on a healthy one. *)
Definition idle {E A} (m : ST World E A) : Prop := ∀ w,
  tables (db (m w).2) = tables (db w) ∧ (migrated (db w) → db (m w).2 = db w) ∧
  (healthy (db w) → is_ok (m w).1 = true).

Lemma idle_bind {E A B} (m : ST World E A) (k : A → ST World E B) :
  idle m → (∀ a, idle (k a)) → idle (st_bind m k).
Proof.
  intros Hm Hk w. unfold st_bind. destruct (Hm w) as (H1 & H2 & H3).
  destruct (m w) as [[a|e] w1]; cbn in *; [|auto]. destruct (Hk a w1) as (K1 & K2 & K3).
  split_and!; [congruence|intros Hd; rewrite K2; [auto|by rewrite H2]|].
  intros Hd. apply K3. rewrite H2; [done|apply Hd].
Qed.

Lemma idle_ret {E A} (a : A) : idle (E:=E) (st_ret a).
Proof. by intros w. Qed.

Lemma idle_map_err {E F A} (f : E → F) (m : ST World E A) : idle m → idle (st_map_err f m).
Proof. intros Hm w. specialize (Hm w). unfold st_map_err. by destruct (m w) as [[a|e] w1]. Qed.

Lemma idle_call {A} (a : A) : idle (sqlite_call (λ d, Ok (a, d))).
Proof.
  intros w. unfold sqlite_call. destruct (fault (stmts w)) eqn:E; cbn; [|done].
  split_and!; [done..|]. intros [H _]. congruence.
Qed.

Lemma idle_create_dir : idle create_dir_all.
Proof.
  intros w. unfold create_dir_all. destruct (fault (stmts w)) eqn:E; cbn; [|done].
  split_and!; [done..|]. intros [H _]. congruence.
Qed.

Lemma idle_open_conn : idle open_conn.
Proof.
  unfold open_conn, configure. apply idle_bind; [|intros _].
  { destruct db_parent as [p|]; [destruct (String.eqb p "")|]; auto using idle_ret, idle_create_dir. }
  repeat (apply idle_bind; [apply idle_call|intros _]). apply idle_ret.
Qed.

Lemma idle_migrate : idle migrate.
Proof.
  intros w. split; [apply keeps_migrate|].
  apply (wp_run migrate (λ r w', (migrated (db w) → db w' = db w) ∧ (healthy (db w) → is_ok r = true)) w).
  apply wp_migrate.
  - intros e w' _ Hw' Hf. split; [intros Hm; by apply Hw', Hm|]. intros Hh. by destruct (healthy_faulted _ _ Hh Hf).
  - intros w1 _ Hw1 _ _. destruct (decide (recorded (db w))) as [Hd|Hd].
    + apply wp_ret. split; [intros; by apply Hw1|done].
    + apply wp_of. intros r w' _. split; [intros [_ Hm]|intros [_ [_ Hm]]]; by destruct Hd.
Qed.

Lemma idle_open_storage : idle open_storage.
Proof.
  unfold open_storage. apply idle_bind; [apply idle_open_conn|intros _].
  apply idle_bind; [apply idle_migrate|intros _]. apply idle_ret.
Qed.

Lemma idle_manager_open : idle manager_open.
Proof.
  unfold manager_open, manager_new, from_storage.
  apply idle_bind; [apply idle_map_err, idle_open_conn|intros _].
  apply idle_bind; [apply idle_map_err, idle_migrate|intros _]. apply idle_ret.
Qed.

(** ** Reads *)

(** What a read may do: no row and no command; at most an existing workflow
    becomes known to the phone, and the registry is saved. *)
Record read_effect (s s' : Server) : Prop := {
  re_tables : tables (db (sv_world s')) = tables (db (sv_world s));
  re_runs : sv_runs s' = sv_runs s;
  re_settings : (sv_config s', sv_token s') = (sv_config s, sv_token s);
  re_registry : sv_registry s' = sv_registry s ∧ sv_files s' = sv_files s ∨
    ∃ wf, is_Some (workflows (db (sv_world s)) !! wf) ∧
      sv_registry s' = touch_workflow wf (sv_registry s) ∧
      ∀ path, path ≠ registry_path (sv_config s) → sv_files s' !! path = sv_files s !! path;
}.

Lemma untouched_read s s' : untouched s s' → read_effect s s'.
Proof. intros [A B C D E]. split; auto. Qed.

Lemma keeps_try {E F A} (m : ST World E A) : keeps_tables m → keeps_tables (E:=F) (st_try m).
Proof. intros Hm w. unfold st_try. specialize (Hm w). by destruct (m w). Qed.

Lemma keeps_computer_body config registry t : keeps_tables (computer_body config registry t).
Proof.
  apply keeps_bind; [|intros; apply keeps_ret]. generalize (@nil Value) as rows.
  induction (rg_workflows registry).*1 as [|id ids IH]; intros rows; cbn [computer_rows]; [apply keeps_ret|].
  apply keeps_bind; [apply keeps_try, keeps_manager_get|]. intros [[row|]|e]; [|apply IH..].
  destruct (String.eqb (workflow_id row) ""); apply IH.
Qed.

Lemma wp_snapshot registry computer wf w :
  wp (workflow_snapshot_body registry computer wf) (λ r w',
    tables (db w') = tables (db w) ∧
    ∀ body, r = Ok (Some body) → is_Some (workflows (db w) !! wf)) w.
Proof.
  unfold workflow_snapshot_body. apply wp_bind. unfold manager_get_workflow. apply wp_from_storage.
  apply wp_get_workflow; [intros e w' -> _; done|]. intros w' _ Hw. cbn [map_err].
  destruct (workflows (db w) !! wf) as [row|]; [|apply wp_ret; by rewrite Hw].
  apply wp_bind, wp_from_storage. unfold events_after.
  apply wp_select; [intros e w2 Hw2 _; by rewrite Hw2, Hw|]. intros w2 _ Hw2. cbn [map_err].
  apply wp_ret. rewrite Hw2, Hw. split; [done|]. eauto.
Qed.

Lemma untouched_500 {A} (m : StoreM A) : keeps_tables m → follows untouched (storage_500 m).
Proof. intros Hm. apply (follows_map_err untouched), untouched_world, Hm. Qed.
Lemma untouched_lifecycle_500 {A} (m : LifecycleM A) :
  keeps_tables m → follows untouched (lifecycle_500 m).
Proof. intros Hm. apply (follows_map_err untouched), untouched_world, Hm. Qed.

Lemma untouched_check_computer id : follows untouched (check_computer id).
Proof. intros s. unfold check_computer. by destruct (String.eqb id _). Qed.

Lemma keeps_now : keeps_tables now.
Proof. by intros w. Qed.

#[local] Hint Resolve untouched_500 untouched_lifecycle_500 untouched_check_computer keeps_now
  keeps_computer_body keeps_open_storage keeps_manager_open keeps_manager_get : server.

Lemma computer_read id : follows untouched (handle_computer id).
Proof. unfold handle_computer, open_manager. follow_steps. Qed.

Lemma sysinfo_read id : follows untouched (handle_sysinfo id).
Proof. unfold handle_sysinfo. follow_steps. Qed.

Lemma snapshot_read computer wf s : read_effect s (handle_workflow_snapshot computer wf s).2.
Proof.
  apply (wp_run _ (λ _, read_effect s)). unfold handle_workflow_snapshot.
  apply wp_bind. eapply wp_follows; [apply untouched_check_computer|].
  intros [[]|e] s1 H1; [|by apply untouched_read].
  apply wp_bind. eapply wp_follows; [apply untouched_lifecycle_500, keeps_manager_open|].
  intros [[]|e] s2 H2; [|apply untouched_read; by etrans].
  assert (untouched s s2) as H by by etrans. clear H1 H2. apply wp_bind, wp_get, wp_bind, wp_map_err, wp_on_world.
  eapply wp_mono; [apply wp_snapshot|]. intros r w [Hw Hr].
  assert (untouched s (set_world w s2)) as H3.
  { etrans; [exact H|]. by split. }
  destruct r as [[body|]|e]; [|by apply untouched_read..]. specialize (Hr body eq_refl).
  cbn [map_err]. unfold wp, st_bind, touch, modify, persist_registry, fs_write, st_ret. cbn.
  destruct H3 as [A B C D E]. cbn in *.
  assert (is_Some (workflows (db (sv_world s)) !! wf)) as Hwf.
  { destruct H as [Ht _ _ _ _]. injection Ht as Ht _. by rewrite <-Ht. }
  assert (sv_config s2 = sv_config s) as Hc by congruence.
  destruct (io_fault (sv_calls s2)); split; cbn; try done; right; exists wf;
    (split; [done|]; rewrite D; split; [done|]); intros path Hp; rewrite <-Hc in Hp.
  - rewrite lookup_partial_alter_ne by done. by rewrite C.
  - rewrite lookup_insert_ne by done. by rewrite C.
Qed.

#[local] Instance method_eq_dec : EqDecision Method.
Proof. solve_decision. Defined.

(** Only a POST is routed to a writing handler. *)
Lemma route_read request :
  hr_method request ≠ Post →
  match route (hr_method request) (hr_url request) with
  | ApprovalRoute _ | InputRoute _ => False
  | _ => True
  end.
Proof.
  intros H. unfold route. destruct (split_path (hr_url request)) as [path query].
  destruct (hr_method request); [|done|exact I]. clear H. generalize (path_segments path). intros parts.
  repeat first [exact I | match goal with |- match ?x with _ => _ end => destruct_head x end].
Qed.

(** C29: the gate of every request.  A request without the token gets an empty
    401 and changes nothing at all; any other request is never answered 401
    but with one of the documented statuses.  A request that is
    not a POST starts no command and changes no row of any table, whatever
    fails: at most a workflow that exists becomes known to the phone, and the
    registry file is rewritten. *)
Theorem reply_gate (request : Request) (s : Server) :
  let '(response, s') := reply request s in
  if bearer_ok request (sv_token s)
  then rp_status response ∈ api_statuses ∧
       (hr_method request = Post ∨ read_effect s s')
  else response = mk_response 401 "" false ∧ s' = s.
Proof.
  destruct (bearer_ok request (sv_token s)) eqn:Hb; [|unfold reply; by rewrite Hb].
  apply (wp_reply request _ (λ response s', rp_status response ∈ api_statuses ∧
    (hr_method request = Post ∨ read_effect s s')) s Hb eq_refl).
  set (r := route (hr_method request) (hr_url request)).
  apply wp_of. intros x s1 Hrun. split.
  - pose proof (api_dispatch request r s) as Hs. rewrite Hrun in Hs. by destruct x.
  - destruct (decide (hr_method request = Post)) as [Hp|Hp]; [by left|right].
    pose proof (route_read request Hp) as Hr. fold r in Hr.
    replace s1 with (dispatch_route request r s).2 by by rewrite Hrun.
    destruct r; cbn [dispatch_route]; try done; try by apply untouched_read.
    + apply untouched_read, computer_read.
    + apply untouched_read, sysinfo_read.
    + apply snapshot_read.
Qed.
End Statuses.
