(* ===== verification/InputSpec.v ===== *)
(** * InputSpec: what an input does

    [handle_input] of [calcar-connect/src/server.rs]: refused inputs change
    nothing, interactive providers are answered 501, and a generic input is
    deduplicated, run, recorded and answered. *)

From S2P Require Import Prelude Text Events Schema Storage Ring RingFacts OutboxFacts Requests Store Lifecycle LifecycleFacts Reach Router Plain BTree Json Http Config Exec Catalog CatalogFacts Server ServerFacts ServerSpec.

Section InputSpec.
Context {env : Env} {host : Host} {paths : Paths} {header_names : HeaderNames}.

(** ** Inputs *)

(** The checks an input passes before anything else happens. *)
Definition input_accepted (request : Request) (id text : string) (destructive : bool) : Prop :=
  request_id_of request = Some id ∧ check_input_id id = true ∧ text ≠ "" ∧
  ∃ body parsed, read_body request = Ok body ∧ parse_object body = Some parsed ∧
    str_field parsed "input_id" = Some id ∧ str_field parsed "body" = Some text ∧
    bool_field parsed "destructive" = Some destructive.

Lemma input_accepted_inj request id text d id' text' d' :
  input_accepted request id text d → input_accepted request id' text' d' →
  id' = id ∧ text' = text ∧ d' = d.
Proof.
  intros (_ & _ & _ & b2 & p2 & Hb2 & Hp2 & Hi2 & Ht2 & Hd2)
    (_ & _ & _ & b1 & p1 & Hb1 & Hp1 & Hi1 & Ht1 & Hd1).
  assert (p2 = p1) as -> by congruence. split_and!; congruence.
Qed.

(** The fields of an input are read without touching anything. *)
Lemma input_fields_cases request s :
  (∃ id text destructive, input_fields request s = (Ok (id, text, destructive), s) ∧
     input_accepted request id text destructive) ∨
  (∃ r, input_fields request s = (Err r, s) ∧ (rp_status r = 400%Z ∨ rp_status r = 413%Z) ∧
     ∀ id text destructive, ¬ input_accepted request id text destructive).
Proof.
  unfold input_fields, st_bind.
  destruct (read_object_cases request s) as [(body & parsed & Hb & Hp & ->)|(r & -> & Hr & Hno)]; cycle 1.
  { right. eexists. split; [reflexivity|]. split; [done|].
    intros id text d (_ & _ & _ & body & parsed & ? & ? & _). by eapply Hno. }
  assert (∀ id text d, input_accepted request id text d →
    str_field parsed "input_id" = Some id ∧ str_field parsed "body" = Some text ∧
    bool_field parsed "destructive" = Some d) as Hacc.
  { intros id text d (_ & _ & _ & body' & parsed' & H1 & H2 & H3).
    by assert (parsed' = parsed) as -> by congruence. }
  assert (∀ m : string, (∀ id text d, ¬ input_accepted request id text d) →
    ∃ r, (@Err (string * string * bool) _ (malformed m), s) = (Err r, s) ∧
      (rp_status r = 400%Z ∨ rp_status r = 413%Z) ∧ ∀ id text d, ¬ input_accepted request id text d) as Hbad.
  { intros m Hm. eexists. split; [reflexivity|]. split; [by left|done]. }
  destruct (str_field parsed "input_id") as [id|] eqn:Ei; [|right; apply Hbad; intros ? ? ? H; by destruct (Hacc _ _ _ H) as (? & ? & ?)].
  destruct (str_field parsed "body") as [text|] eqn:Et; [|right; apply Hbad; intros ? ? ? H; by destruct (Hacc _ _ _ H) as (? & ? & ?)].
  destruct (bool_field parsed "destructive") as [d|] eqn:Ed; [|right; apply Hbad; intros ? ? ? H; by destruct (Hacc _ _ _ H) as (? & ? & ?)].
  unfold refuse_when. case_bool_decide as Hk.
  { right. apply Hbad. intros ? ? ? H. destruct (Hacc _ _ _ H) as ([= ->] & _), H as [H _]. done. }
  destruct (check_input_id id) eqn:Ec; cbn [negb]; [|right; apply Hbad; intros ? ? ? H;
    destruct (Hacc _ _ _ H) as ([= ->] & _), H as (_ & H & _); congruence].
  destruct (String.eqb_spec text "") as [->|Hn].
  { right. apply Hbad. intros ? ? ? H. destruct (Hacc _ _ _ H) as (_ & [= <-] & _), H as (_ & _ & H & _). done. }
  left. exists id, text, d. split; [done|]. unfold input_accepted. eauto 12.
Qed.

(** ** Refusals *)

(** The state after a part that touched the database only. *)
Definition idled (s s' : Server) : Prop :=
  untouched s s' ∧ ∃ w, s' = set_world w s ∧ (migrated (db (sv_world s)) → db w = db (sv_world s)).

Lemma idled_refl s : idled s s.
Proof. split; [reflexivity|]. exists (sv_world s). split; [by destruct s|done]. Qed.

Lemma idled_db s s' : idled s s' → migrated (db (sv_world s)) → db (sv_world s') = db (sv_world s).
Proof. intros (_ & w & -> & H). apply H. Qed.

Lemma idled_workflows s s' : idled s s' → workflows (db (sv_world s')) = workflows (db (sv_world s)).
Proof. intros [[Ht _ _ _ _] _]. by injection Ht. Qed.

Lemma idled_bindings s s' :
  idled s s' → session_bindings (db (sv_world s')) = session_bindings (db (sv_world s)).
Proof. intros [[Ht _ _ _ _] _]. by injection Ht. Qed.

Lemma idled_healthy s s' : idled s s' → healthy (db (sv_world s)) → healthy (db (sv_world s')).
Proof. intros H [Hf Hm]. rewrite (idled_db _ _ H Hm). by split. Qed.

Lemma idled_trans s1 s2 s3 : idled s1 s2 → idled s2 s3 → idled s1 s3.
Proof.
  intros [U1 (w1 & -> & D1)] [U2 (w2 & -> & D2)]. split; [by etrans|]. exists w2. split; [done|].
  intros Hm. cbn in D2. rewrite D2, D1; [done|done|by rewrite D1].
Qed.

Lemma wp_idle {E A} (m : ST World E A) Q s :
  idle m → (∀ r s', idled s s' → (healthy (db (sv_world s)) → is_ok r = true) → Q r s') →
  wp (on_world m) Q s.
Proof.
  intros Hm HQ. apply wp_on_world, wp_of. intros r w Hrun. destruct (Hm (sv_world s)) as (H1 & H2 & H3).
  rewrite Hrun in *. cbn in *. apply HQ; [|done]. split; [by split|]. by exists w.
Qed.

(** The provider gate on every path. *)
Lemma wp_provider_gate wf Q s :
  (∀ r s', idled s s' →
     match r with
     | Ok (p, session) => ∃ row, workflows (db (sv_world s)) !! wf = Some row ∧
         p = provider_from_i32 (provider row) ∧ session = provider_session_id row
     | Err response => healthy (db (sv_world s)) →
         workflows (db (sv_world s)) !! wf = None ∧ response = workflow_unknown
     end → Q r s') →
  wp (provider_gate wf) Q s.
Proof.
  intros HQ. unfold provider_gate, open_manager. apply wp_bind, wp_map_err.
  apply wp_idle; [apply idle_manager_open|]. intros [[]|e] s1 H1 Hok; cbn [map_err];
    [clear Hok|apply HQ; [done|]; intros Hh; by specialize (Hok Hh)].
  apply wp_bind, wp_map_err, wp_on_world, wp_map_err.
  assert (∀ w, db w = db (sv_world s1) → idled s (set_world w s1)) as Hi.
  { intros w Hw. eapply idled_trans; [exact H1|]. split; [split; by rewrite <-?Hw|]. by exists w. }
  apply wp_get_workflow.
  - intros e w Hw Hdb. apply HQ; [auto|]. intros Hh.
    by destruct (healthy_db_error _ _ (idled_healthy _ _ H1 Hh) Hdb).
  - intros w _ Hw. cbn [map_err]. rewrite (idled_workflows _ _ H1).
    destruct (workflows (db (sv_world s)) !! wf) as [row|] eqn:Hrow.
    + apply wp_ret, HQ; [auto|]. by exists row.
    + apply wp_throw, HQ; [auto|done].
Qed.

(** The answer for an interactive provider on every path. *)
Lemma wp_interactive wf Q s :
  (∀ r s', idled s s' →
     (healthy (db (sv_world s)) → r = Ok (conpty_unavailable wf
        (bool_decide (is_Some (session_bindings (db (sv_world s)) !! wf))))) → Q r s') →
  wp (interactive_input_501 wf) Q s.
Proof.
  intros HQ. unfold interactive_input_501. apply wp_bind, wp_map_err.
  apply wp_idle; [apply idle_open_storage|]. intros [[]|e] s1 H1 Hok; cbn [map_err];
    [clear Hok|apply HQ; [done|]; intros Hh; by specialize (Hok Hh)].
  apply wp_bind, wp_try, wp_on_world. unfold lookup_binding, get_session_binding.
  assert (∀ w, db w = db (sv_world s1) → idled s (set_world w s1)) as Hi.
  { intros w Hw. eapply idled_trans; [exact H1|]. split; [split; by rewrite <-?Hw|]. by exists w. }
  apply wp_bind, wp_select.
  - intros e w Hw Hdb. apply wp_ret, HQ; [auto|]. intros Hh.
    by destruct (healthy_db_error _ _ (idled_healthy _ _ H1 Hh) Hdb).
  - intros w _ Hw. rewrite (idled_bindings _ _ H1).
    destruct (session_bindings (db (sv_world s)) !! wf) as [b|] eqn:Hb; cbn beta iota.
    + apply wp_ret, wp_ret, HQ; [auto|]. intros _. by rewrite bool_decide_eq_true_2.
    + apply wp_ret, wp_ret, HQ; [auto|]. intros _. by rewrite bool_decide_eq_false_2 by by intros [? [=]].
Qed.

(** The workflow an input names runs commands. *)
Definition generic_row (wf : string) (d : Db) (session : option string) : Prop :=
  ∃ row, workflows d !! wf = Some row ∧ provider_from_i32 (provider row) = Some Generic ∧
    session = provider_session_id row.

(** The answer to an accepted input that is not generic, without faults. *)
Definition refusal (wf : string) (d : Db) : Response :=
  match workflows d !! wf with
  | None => workflow_unknown
  | Some _ => conpty_unavailable wf (bool_decide (is_Some (session_bindings d !! wf)))
  end.

(** An input on every path up to the dedupe. *)
Lemma wp_input request wf Q s :
  (∀ response, (∀ id text d, ¬ input_accepted request id text d) →
     rp_status response = 400%Z ∨ rp_status response = 413%Z → Q (Err response) s) →
  (∀ id text d r s', input_accepted request id text d → idled s s' →
     (healthy (db (sv_world s)) → (∀ session, ¬ generic_row wf (db (sv_world s)) session) ∧
        response_of r = refusal wf (db (sv_world s))) → Q r s') →
  (∀ id text d session s', input_accepted request id text d → idled s s' →
     generic_row wf (db (sv_world s)) session → wp (generic_input wf id text d session) Q s') →
  wp (handle_input request wf) Q s.
Proof.
  intros Hbad Hno Hgen. unfold handle_input. apply wp_bind. unfold wp at 1.
  destruct (input_fields_cases request s) as [(id & text & d & -> & Hacc)|(r & -> & Hr & Hacc)]; [|auto].
  apply wp_bind, wp_provider_gate. intros [[p session]|response] s1 H1.
  - intros (row & Hrow & -> & ->). case_bool_decide as Hp.
    + apply wp_interactive. intros r s2 H2 Hr. apply (Hno id text d); [done|by eapply idled_trans|].
      intros Hh. rewrite (Hr (idled_healthy _ _ H1 Hh)), (idled_bindings _ _ H1). unfold refusal.
      rewrite Hrow. split; [|done]. intros session (row' & Hrow' & Hg & _). congruence.
    + apply Hgen; [done..|]. exists row. split_and!; [done| |done].
      by destruct (decide (provider_from_i32 (provider row) = Some Generic)).
  - intros Hn. apply (Hno id text d); [done..|]. intros Hh. destruct (Hn Hh) as [Hrow ->].
    unfold refusal. rewrite Hrow. split; [|done]. intros session (row' & Hrow' & _). congruence.
Qed.

(** C30: an input acts only when every check passed.  A request whose body,
    fields, idempotency key, id alphabet or text is wrong is answered 400 or 413
    and nothing at all changes.  When they are right but the workflow is unknown
    or its provider is interactive, no command starts and no row, file or
    registry entry changes, whatever fails; without engine faults the answer is
    then exactly the 404, or the 501 that says whether a session is bound. *)
Theorem input_refused (request : Request) (wf : string) (s : Server) :
  bearer_ok request (sv_token s) = true →
  route (hr_method request) (hr_url request) = InputRoute wf →
  let '(response, s') := reply request s in
  ((∀ id text d, ¬ input_accepted request id text d) →
     s' = s ∧ (rp_status response = 400%Z ∨ rp_status response = 413%Z)) ∧
  (∀ id text d, input_accepted request id text d →
     (∀ session, ¬ generic_row wf (db (sv_world s)) session) →
     untouched s s' ∧ (healthy (db (sv_world s)) → response = refusal wf (db (sv_world s)))).
Proof.
  intros Hb Hr.
  apply (wp_reply request _ _ s Hb Hr). apply wp_input.
  - intros response Hno Hst. split; [done|]. intros id text d Hacc. by destruct (Hno id text d).
  - intros id text d r s' Hacc Hi Hh. split; [intros Hno; by destruct (Hno id text d)|].
    intros _ _ _ _ _. split; [apply Hi|]. intros H. by apply Hh.
  - intros id text d session s' Hacc Hi Hg. apply wp_of. intros r s1 _.
    split; [intros Hno; by destruct (Hno id text d)|].
    intros _ _ _ _ Hng. by destruct (Hng session).
Qed.

(** ** The generic path *)

#[local] Instance same_but_requests_preorder : PreOrder same_but_requests.
Proof. split; [intros d; by destruct d|exact same_but_requests_trans]. Qed.

Lemma deliver_frame wf id : router_moves same_but_requests (deliver wf id).
Proof.
  apply router_moves_deliver; [apply _|..]; intros k w.
  - apply (wp_run (create_pending_request k wf Input None) (λ _ w', same_but_requests (db w) (db w'))).
    apply wp_create_request; [by intros e w' -> _|]. intros t w' _ _ ->. by destruct (db w).
  - apply (wp_run (resolve_pending_request k "") (λ _ w', same_but_requests (db w) (db w'))).
    by apply wp_resolve.
Qed.

Lemma same_but_requests_fields d d' :
  same_but_requests d d' → workflows d' = workflows d ∧ (migrated d → migrated d') ∧
    (∀ wf, ring_ok wf d → ring_ok wf d').
Proof.
  unfold same_but_requests. intros <-. split_and!; [done|by intros [? ?]|].
  intros wf [A1 A2 A3 A4 A5 A6 A7]. by split.
Qed.

(** The dedupe of an input of a known workflow, without engine faults. *)
Lemma wp_dedupe wf id Q w :
  healthy (db w) → wf ≠ "" → id ≠ "" → is_Some (workflows (db w) !! wf) →
  (∀ r w', same_but_requests (db w) (db w') →
     (∀ k, k ≠ storage_key wf id → status (db w') k = status (db w) k) →
     match status (db w) (storage_key wf id) with
     | Some (RPending (Some _)) => True
     | None | Some (RPending None) =>
         r = Ok Delivered ∧ status (db w') (storage_key wf id) = Some (RResolved "")
     | Some st => r = Ok Duplicate ∧ status (db w') (storage_key wf id) = Some st
     end → Q r w') →
  wp (deliver_once wf id) Q w.
Proof.
  intros Hh Hwf Hid Hk HQ. unfold wp, deliver_once. pose proof (deliver_frame wf id (router_new w)) as Hf.
  pose proof (wp_run _ _ _ (deliver_ok wf id (router_new w))) as [[Ho Hr] Ha]. cbn in Ho, Hr, Ha, Hf.
  specialize (Ha Hwf Hid (λ e, healthy_db_error _ e Hh)). unfold deliver_answer in Ha. cbn in Ha.
  destruct (deliver wf id (router_new w)) as [r rt]. cbn in *. apply HQ; [done..|].
  rewrite bool_decide_eq_true_2 in Ha by done.
  destruct (status (db w) (storage_key wf id)) as [[[]|p|]|]; [done|..]; subst r; (split; [done|]).
  - apply Hr.
  - destruct Hr as (_ & [->|(x & [=] & _)] & _); done.
  - destruct Hr as (_ & [->|(x & [=] & _)] & _); done.
  - apply Hr.
Qed.

Definition tail_path (wf id : string) (s : Server) : string :=
  path_join (path_join (state_dir (sv_config s)) "tails") (tail_name wf id).

(** The database after a recorded run: two events appended in order. *)
Definition run_recorded (wf id : string) (session : option string) (o : ExecOutcome)
    (destructive : bool) (path : string) (d d' : Db) : Prop :=
  ∃ t1 t2 seq1 seq2 d1,
    let '(started, completed) := run_drafts wf id session o destructive path (tail_file o).2 t1 t2 in
    appended started seq1 d d1 ∧ appended completed seq2 d1 d'.

Lemma wp_write path text Q s :
  (∀ n, io_fault n = None) → (∀ s', s' = set_files (<[path := text]> (sv_files s)) s → Q (Ok tt) s') →
  wp (fs_write path text) Q s.
Proof. intros Hf HQ. unfold wp, fs_write. rewrite Hf. by apply HQ. Qed.

Lemma wp_create_dir path Q s :
  (∀ n, io_fault n = None) → (∀ s', s' = set_files (sv_files s) s → Q (Ok tt) s') →
  wp (fs_create_dir path) Q s.
Proof. intros Hf HQ. unfold wp, fs_create_dir. rewrite Hf. by apply HQ. Qed.

(** An append that cannot fail, as one step of [record_run]. *)
Lemma wp_append draft Q s :
  healthy (db (sv_world s)) → (∀ wf, ring_ok wf (db (sv_world s))) →
  is_Some (workflows (db (sv_world s)) !! dr_workflow_id draft) →
  (∀ ev seq w', appended draft seq (db (sv_world s)) (db w') → healthy (db w') →
     (∀ wf, ring_ok wf (db w')) → workflows (db w') = workflows (db (sv_world s)) →
     Q (Ok ev) (set_world w' s)) →
  wp (st_map_err (λ e, short_error (storage_display e)) (on_world (append_event draft))) Q s.
Proof.
  intros Hh Hr Hwf HQ. apply wp_map_err, wp_on_world, wp_append_event; [apply Hr|..].
  - intros e w' _ [Hd|[Hn _]]; [by destruct (healthy_db_error _ _ Hh Hd)|].
    rewrite Hn in Hwf. by destruct Hwf.
  - intros seq w' _ Ha. cbn [map_err]. pose proof (appended_rest _ _ _ _ Ha) as (E1 & E2 & E3 & _ & _).
    apply (HQ _ seq); [done|..|done].
    + destruct Hh as [Hf [H1 H2]]. split; [done|]. split; [by rewrite E2|by rewrite E1].
    + intros wf. by eapply appended_ring_ok.
Qed.

Lemma wp_record_run wf id session o destructive Q s :
  healthy (db (sv_world s)) → (∀ wf, ring_ok wf (db (sv_world s))) →
  is_Some (workflows (db (sv_world s)) !! wf) → (∀ n, io_fault n = None) →
  (∀ s', (sv_config s', sv_token s') = (sv_config s, sv_token s) → sv_registry s' = sv_registry s →
     sv_runs s' = sv_runs s →
     sv_files s' = <[tail_path wf id s := (tail_file o).1]> (sv_files s) →
     run_recorded wf id session o destructive (tail_path wf id s) (db (sv_world s)) (db (sv_world s')) →
     Q (Ok (tail_file o).2) s') →
  wp (record_run wf id session o destructive) Q s.
Proof.
  intros Hh Hr Hwf Hf HQ. unfold record_run, write_tail. fold (tail_path wf id s).
  apply wp_bind, wp_map_err, wp_bind, wp_get, wp_bind, wp_create_dir; [done|]. intros s1 ->.
  fold (tail_path wf id s). destruct (tail_file o) as [text cut] eqn:Et.
  apply wp_bind, wp_write; [done|]. intros s2 ->. apply wp_ret. cbn beta iota.
  cbn [map_err]. apply wp_bind, wp_map_err, wp_on_world, wp_now. intros t1 w1 _ Hw1. cbn [map_err].
  apply wp_bind, wp_map_err, wp_on_world, wp_now. intros t2 w2 _ Hw2. cbn [map_err].
  cbn in Hw1, Hw2. rewrite Hw1 in Hw2.
  destruct (run_drafts _ _ _ _ _ _ _ _ _) as [started completed] eqn:Ed.
  assert (dr_workflow_id started = wf ∧ dr_workflow_id completed = wf) as [D1 D2]
    by (injection Ed as <- <-; done).
  apply wp_bind, wp_append; cbn; rewrite ?D1, ?Hw2; [done..|].
  intros ev1 seq1 w3 Ha1 Hh3 Hr3 Hw3. apply wp_bind, wp_append; cbn; rewrite ?D2; [done|done|by rewrite Hw3|].
  intros ev2 seq2 w4 Ha2 _ _ _. apply wp_ret, HQ; [done..|]. cbn.
  unfold run_recorded. exists t1, t2, seq1, seq2, (db w3). rewrite Et. cbn [snd]. by rewrite Ed.
Qed.

(** The last steps of a handler: the phone knows the workflow. *)
Definition remembered (wf : string) (s : Server) (files : gmap string string) (s' : Server) : Prop :=
  sv_registry s' = touch_workflow wf (sv_registry s) ∧
  sv_files s' = <[registry_path (sv_config s) := registry_text (sv_registry s')]> files.

Lemma wp_remember wf (response : Response) (Q : result Response Response → Server → Prop) s :
  (∀ n, io_fault n = None) →
  (∀ s', sv_world s' = sv_world s → sv_runs s' = sv_runs s → remembered wf s (sv_files s) s' →
     Q (Ok response) s') →
  wp (let* _ := touch wf in let* _ := persist_registry in st_ret response) Q s.
Proof.
  intros Hf HQ. unfold wp, st_bind, touch, modify, persist_registry, fs_write, st_ret. cbn.
  rewrite Hf. by apply HQ.
Qed.

(** What follows a delivery. *)
Definition delivered_result (wf id text : string) (destructive : bool) (session : option string)
    (s : Server) (d : Db) (response : Response) (s' : Server) : Prop :=
  let d' := db (sv_world s') in
  let '(r, started) := run_generic text (exec_run (sv_attempts s)) in
  status d' (storage_key wf id) = Some (RResolved "") ∧
  sv_runs s' = (if started then sv_runs s ++ [mk_started wf id text] else sv_runs s) ∧
  match r with
  | Err e => response = exec_error e ∧ same_but_requests d d' ∧
      sv_files s' = sv_files s ∧ sv_registry s' = sv_registry s
  | Ok o => response = delivered_response id o (tail_file o).2 ∧
      (∃ d0, same_but_requests d d0 ∧
         run_recorded wf id session o destructive (tail_path wf id s) d0 d') ∧
      remembered wf s (<[tail_path wf id s := (tail_file o).1]> (sv_files s)) s'
  end.

(** What an accepted input for a generic workflow does, without faults. *)
Definition input_result (wf id text : string) (destructive : bool) (session : option string)
    (s : Server) (response : Response) (s' : Server) : Prop :=
  let d := db (sv_world s) in
  let d' := db (sv_world s') in
  let key := storage_key wf id in
  match status d key with
  | Some (RPending (Some _)) => True
  | None | Some (RPending None) =>
      delivered_result wf id text destructive session s d response s'
  | Some st => response = duplicate_response id ∧ sv_runs s' = sv_runs s ∧
      same_but_requests d d' ∧ status d' key = Some st ∧ remembered wf s (sv_files s) s'
  end.

Lemma delivered_ok wf id text destructive session s d :
  healthy (db (sv_world s)) → (∀ wf, ring_ok wf (db (sv_world s))) →
  is_Some (workflows (db (sv_world s)) !! wf) → (∀ n, io_fault n = None) →
  same_but_requests d (db (sv_world s)) →
  status (db (sv_world s)) (storage_key wf id) = Some (RResolved "") →
  wp (let* outcome := st_map_err exec_error (run_command wf id text) in
      let* _ := storage_500 open_storage in
      let* truncated := st_map_err (error_body 500 "EXEC_RECORD_FAILED")
                          (record_run wf id session outcome destructive) in
      let* _ := touch wf in
      let* _ := persist_registry in
      st_ret (delivered_response id outcome truncated))
    (λ r s', delivered_result wf id text destructive session s d (response_of r) s') s.
Proof.
  intros Hh Hr Hk Hf Hsame Hst. apply wp_bind, wp_map_err. unfold wp at 1, run_command, delivered_result.
  destruct (run_generic text (exec_run (sv_attempts s))) as [[o|e] started]; cbn [map_err]; [|done].
  apply wp_bind, wp_map_err, wp_idle; [apply idle_open_storage|]. intros [[]|e] s1 Hi Hok; [|by specialize (Hok Hh)].
  cbn [map_err]. clear Hok. pose proof (idled_db _ _ Hi (proj2 Hh)) as Hd.
  destruct Hi as [[_ Hruns Hfiles Hreg [= Hset _]] _]. cbn in *.
  apply wp_bind, wp_map_err, wp_record_run; rewrite ?Hd; [done..|].
  intros s2 [= Hset2 _] Hreg2 Hruns2 Hfiles2 Hrec. cbn [map_err]. apply wp_remember; [done|].
  intros s3 Hw3 Hruns3 [Hreg3 Hfiles3]. assert (tail_path wf id s1 = tail_path wf id s) as Htp
    by (unfold tail_path; by rewrite Hset). rewrite Htp in *.
  assert (pending_requests (db (sv_world s2)) = pending_requests (db (sv_world s))) as Hp.
  { destruct Hrec as (t1 & t2 & q1 & q2 & d1 & Ha). destruct (run_drafts _ _ _ _ _ _ _ _ _).
    destruct Ha as [[_ _ _ _ _ (_ & _ & _ & _ & Hp1) _] [_ _ _ _ _ (_ & _ & _ & _ & Hp2) _]]. congruence. }
  unfold status in *. rewrite Hw3, Hp, Hruns3, Hruns2, Hruns. split_and!; [done..| |].
  - by exists (db (sv_world s)).
  - split; [congruence|]. rewrite Hfiles3, Hfiles2, Hfiles. congruence.
Qed.

Lemma generic_input_ok wf id text destructive session s :
  healthy (db (sv_world s)) → (∀ wf, ring_ok wf (db (sv_world s))) → wf ≠ "" → id ≠ "" →
  is_Some (workflows (db (sv_world s)) !! wf) → (∀ n, io_fault n = None) →
  wp (generic_input wf id text destructive session)
    (λ r s', input_result wf id text destructive session s (response_of r) s') s.
Proof.
  intros Hh Hr Hwf Hid Hk Hf. unfold generic_input. apply wp_bind, wp_map_err.
  apply wp_idle; [apply idle_open_storage|]. intros [[]|e] s1 Hi Hok; [|by specialize (Hok Hh)].
  cbn [map_err]. clear Hok. destruct Hi as [[_ Hruns Hfiles Hreg Hset] (w1 & -> & Hw1)].
  cbn in Hruns, Hfiles, Hreg, Hset. specialize (Hw1 (proj2 Hh)).
  apply wp_bind, wp_map_err, wp_on_world. cbn. apply wp_dedupe; rewrite ?Hw1; [done..|].
  intros r w2 Hsame Hoth Hst. unfold input_result. set (d := db (sv_world s)) in *.
  pose proof (same_but_requests_fields _ _ Hsame) as (Hw2 & Hm2 & Hr2).
  assert (healthy (db w2)) as Hh2 by (destruct Hh as [? ?]; split; auto).
  destruct (status d (storage_key wf id)) as [[[x|]|p|]|] eqn:Est.
  - destruct r as [a|e]; [by apply wp_of|done].
  - destruct Hst as [-> Hst]. cbn [map_err].
    apply (delivered_ok wf id text destructive session (set_world w2 (set_world w1 s)) d); cbn;
      [done|auto|by rewrite Hw2|done..].
  - destruct Hst as [-> Hst]. cbn [map_err]. apply wp_remember; [done|]. cbn.
    intros s' Hs' Hruns' Hrem. rewrite Hs', Hruns'. done.
  - destruct Hst as [-> Hst]. cbn [map_err]. apply wp_remember; [done|]. cbn.
    intros s' Hs' Hruns' Hrem. rewrite Hs', Hruns'. done.
  - destruct Hst as [-> Hst]. cbn [map_err].
    apply (delivered_ok wf id text destructive session (set_world w2 (set_world w1 s)) d); cbn;
      [done|auto|by rewrite Hw2|done..].
Qed.

(** C28: a generic input, end to end.  An accepted input for a generic workflow,
    over a well-formed store without engine or disk faults: if its dedupe row
    is settled it is answered as a duplicate and no command starts; if it is
    fresh, or claimed by an attempt that was interrupted, it is settled first
    and its command runs once.  A command that fails is answered 500 or 504 and
    leaves no event and no file; a command that ends is answered with its exit
    code, its tail file holds exactly the (cut) output, and the started and
    completed events are appended in this order, pointing at the file. *)
Theorem generic_input_spec (request : Request) (wf : string) (s : Server)
    (id text : string) (destructive : bool) (session : option string) :
  bearer_ok request (sv_token s) = true →
  route (hr_method request) (hr_url request) = InputRoute wf →
  input_accepted request id text destructive →
  generic_row wf (db (sv_world s)) session → wf ≠ "" →
  store_ok (db (sv_world s)) → healthy (db (sv_world s)) → (∀ n, io_fault n = None) →
  let '(response, s') := reply request s in
  input_result wf id text destructive session s response s'.
Proof.
  intros Hb Hr Hacc Hg Hwf Hok Hh Hf.
  apply (wp_reply request _ _ s Hb Hr). apply wp_input.
  - intros response Hno _. by destruct (Hno id text destructive).
  - intros id' text' d r s' _ _ Hno. by destruct (Hno Hh) as [Hn _]; destruct (Hn session).
  - intros id' text' d' session' s' Hacc' Hi Hg'. destruct (input_accepted_inj _ _ _ _ _ _ _ Hacc Hacc') as (-> & -> & ->).
    assert (session' = session) as -> by (destruct Hg as (? & ? & _ & ?), Hg' as (? & ? & _ & ?); congruence).
    pose proof (idled_db _ _ Hi (proj2 Hh)) as Hd. destruct Hi as [_ (w & -> & _)]. cbn in Hd.
    assert (id ≠ "") as Hid by (destruct Hacc as (_ & Hc & _); by intros ->).
    eapply wp_mono.
    + apply generic_input_ok; cbn; rewrite ?Hd; [done|apply Hok|done|done| |done].
      destruct Hg as (row & Hrow & _). by exists row.
    + intros r s' H. unfold input_result, delivered_result in *. cbn in H. by rewrite Hd in H.
Qed.
End InputSpec.

(** ** Witnesses *)

#[local] Existing Instances sample_env sample_host sample_paths sample_headers.

Lemma sample_healthy : healthy (db (sv_world sample_server)).
Proof.
  split; [done|]. split; [vm_compute; reflexivity|]. exists [("0001_init", 1000%Z)].
  split; [vm_compute; reflexivity|]. by apply list_elem_of_singleton.
Qed.

Lemma sample_accepted url : input_accepted (post url "u-1" (render (obj
  [("input_id", Str "u-1"); ("body", Str "make"); ("destructive", Bool false)]))) "u-1" "make" false.
Proof.
  split_and!; [reflexivity|reflexivity|done|]. do 2 eexists. split; [vm_compute; reflexivity|].
  split; [vm_compute; reflexivity|]. split_and!; reflexivity.
Qed.

(** An input for a workflow that does not exist. *)
Definition lost_input : Request := post "/v1/agent/workflows/wf-9/inputs" "u-1" (render (obj
  [("input_id", Str "u-1"); ("body", Str "make"); ("destructive", Bool false)])).

Lemma input_refused_witness :
  bearer_ok lost_input (sv_token sample_server) = true ∧
  (reply lost_input sample_server).1 = workflow_unknown.
Proof.
  split; [reflexivity|].
  assert (workflows (db (sv_world sample_server)) !! "wf-9" = None) as Hn by (vm_compute; reflexivity).
  assert (bearer_ok lost_input (sv_token sample_server) = true) as Hb by reflexivity.
  assert (route (hr_method lost_input) (hr_url lost_input) = InputRoute "wf-9") as Hu by (vm_compute; reflexivity).
  pose proof (input_refused lost_input "wf-9" sample_server Hb Hu) as H.
  destruct (reply lost_input sample_server) as [response s']. destruct H as [_ H].
  destruct (H "u-1" "make" false (sample_accepted _)) as [_ Hr].
  - intros session (row & Hrow & _). congruence.
  - rewrite (Hr sample_healthy). unfold refusal. by rewrite Hn.
Defined.

Lemma generic_input_spec_witness :
  let '(response, s') := reply sample_input sample_server in
  input_result "wf-1" "u-1" "make" false None sample_server response s' ∧
  response = delivered_response "u-1" (mk_outcome 0 "done" "" false) false.
Proof.
  assert (bearer_ok sample_input (sv_token sample_server) = true) as Hb by reflexivity.
  assert (route (hr_method sample_input) (hr_url sample_input) = InputRoute "wf-1") as Hu by (vm_compute; reflexivity).
  assert (generic_row "wf-1" (db (sv_world sample_server)) None) as Hg
    by (eexists; split; [vm_compute; reflexivity|by split]).
  assert (status (db (sv_world sample_server)) (storage_key "wf-1" "u-1") = None) as Hn
    by (vm_compute; reflexivity).
  assert ("wf-1" ≠ "") as Hw by done. assert (∀ n, io_fault n = None) as Hf by done.
  pose proof (generic_input_spec sample_input "wf-1" sample_server "u-1" "make" false None
    Hb Hu (sample_accepted _) Hg Hw catalog_world_ok sample_healthy Hf) as H.
  destruct (reply sample_input sample_server) as [response s']. split; [exact H|].
  unfold input_result in H. rewrite Hn in H. apply H.
Defined.
