(* ===== verification/Retry.v ===== *)
(** * Retry: the phone's retries get through

    The engine may fail at any call, and an input whose dedupe fails is sent
    again under the same id.  A call that fails is used up: what a method does
    depends only on the calls it makes, so an attempt that met no failing call
    went as it would on an engine that never fails.  Hence, when finitely many
    calls fail, one attempt more than that settles the input. *)

From S2P Require Import Prelude Text Events Schema Storage Ring RingFacts Requests Store Lifecycle LifecycleFacts Reach Router BTree Json Http Config Exec Catalog CatalogFacts Server ServerFacts ServerSpec InputSpec.

(** ** Methods that differ in the failing calls only *)

Section Local.
Context {env : Env}.

(** The same engine without its failures. *)
Definition calm : Env :=
  {| clock := clock; fault := λ _, None; sqlite_display := sqlite_display;
     io_display := io_display; db_parent := db_parent |}.

Definition no_fault_in (a b : nat) : Prop := ∀ k, a ≤ k < b → fault k = None.

(** [m] uses up calls in order, and when none of those it made failed it went
    like [m']. *)
Definition local {S E A} (count : S → nat) (m m' : ST S E A) : Prop := ∀ s,
  let '(r, s') := m s in
  count s ≤ count s' ∧ (no_fault_in (count s) (count s') → m' s = (r, s')).

Section Rules.
Context {S : Type} (count : S → nat).

Lemma local_ret {E A} (a : A) : local (E:=E) count (st_ret a) (st_ret a).
Proof. by intros s. Qed.
Lemma local_throw {E A} (e : E) : local (A:=A) count (st_throw e) (st_throw e).
Proof. by intros s. Qed.
Lemma local_lift {E A} (r : result A E) : local count (st_lift r) (st_lift r).
Proof. by intros s. Qed.

Lemma no_fault_split a b c : a ≤ b → b ≤ c → no_fault_in a c → no_fault_in a b ∧ no_fault_in b c.
Proof. intros H1 H2 H. split; intros k Hk; apply H; lia. Qed.

Lemma local_bind {E A B} (m m' : ST S E A) (k k' : A → ST S E B) :
  local count m m' → (∀ a, local count (k a) (k' a)) → local count (st_bind m k) (st_bind m' k').
Proof.
  intros Hm Hk s. unfold st_bind. specialize (Hm s). destruct (m s) as [[a|e] s1].
  - specialize (Hk a s1). destruct (k a s1) as [r s2]. destruct Hm as [H1 Hm], Hk as [H2 Hk].
    split; [lia|]. intros H. destruct (no_fault_split _ _ _ H1 H2 H) as [Ha Hb].
    rewrite Hm by done. by apply Hk.
  - destruct Hm as [H1 Hm]. split; [done|]. intros H. by rewrite Hm.
Qed.

Lemma local_map_err {E F A} (f : E → F) (m m' : ST S E A) :
  local count m m' → local count (st_map_err f m) (st_map_err f m').
Proof.
  intros Hm s. unfold st_map_err. specialize (Hm s). destruct (m s) as [r s1].
  destruct Hm as [H1 Hm]. split; [done|]. intros H. by rewrite Hm.
Qed.

Lemma local_try {E F A} (m m' : ST S E A) :
  local count m m' → local (E:=F) count (st_try m) (st_try m').
Proof.
  intros Hm s. unfold st_try. specialize (Hm s). destruct (m s) as [r s1].
  destruct Hm as [H1 Hm]. split; [done|]. intros H. by rewrite Hm.
Qed.

(** A method that makes no call. *)
Lemma local_same {E A} (m : ST S E A) : (∀ s, count (m s).2 = count s) → local count m m.
Proof. intros H s. specialize (H s). destruct (m s) as [r s']. cbn in H. split; [lia|done]. Qed.

(** A method over a part of the state. *)
Lemma local_part {T E A} (part : T → S) (m m' : ST S E A) (n n' : ST T E A) (put : S → T → T) :
  (∀ s t, part (put s t) = s) →
  (∀ t, n t = let '(r, s) := m (part t) in (r, put s t)) →
  (∀ t, n' t = let '(r, s) := m' (part t) in (r, put s t)) →
  local count m m' → local (count ∘ part) n n'.
Proof.
  intros Hput Hn Hn' Hm t. rewrite Hn. specialize (Hm (part t)). destruct (m (part t)) as [r s] eqn:Em.
  destruct Hm as [H1 Hm]. cbn. rewrite Hput. split; [done|]. intros H. by rewrite Hn', Hm.
Qed.
End Rules.

(** *** The engine *)

Lemma local_call {A} (f : Db → result (A * Db) SqliteError) :
  local stmts (sqlite_call (env:=env) f) (sqlite_call (env:=calm) f).
Proof.
  intros w. unfold sqlite_call. cbn. destruct (fault (stmts w)) as [code|] eqn:E.
  - cbn. split; [lia|]. intros H. by rewrite (H (stmts w)) in E by lia.
  - destruct (f (db w)) as [[a d]|e]; cbn; (split; [lia|done]).
Qed.

Lemma local_create_dir : local stmts (create_dir_all (env:=env)) (create_dir_all (env:=calm)).
Proof.
  intros w. unfold create_dir_all. cbn. destruct (fault (stmts w)) as [code|] eqn:E; cbn; (split; [lia|]).
  - intros H. by rewrite (H (stmts w)) in E by lia.
  - done.
Qed.

Lemma local_now : local stmts (now (env:=env)) (now (env:=calm)).
Proof. by intros w. Qed.

Lemma local_transaction {A} (m m' : StoreM A) :
  local stmts m m' → local stmts (transaction (env:=env) m) (transaction (env:=calm) m').
Proof.
  intros Hm w. unfold transaction. pose proof (local_call (λ d, Ok (tt, d))) as Hc.
  pose proof (Hc w) as H1. destruct (sqlite_call _ w) as [[[]|e] w1]; destruct H1 as [L1 H1];
    [|split; [done|]; intros H; by rewrite H1].
  specialize (Hm w1). destruct (m w1) as [[a|e] w2]; destruct Hm as [L2 Hm].
  - pose proof (Hc w2) as H3. destruct (sqlite_call _ w2) as [[[]|e] w3]; destruct H3 as [L3 H3];
      (split; [change (stmts w ≤ stmts w3); lia|]); intros H; change (no_fault_in (stmts w) (stmts w3)) in H;
      rewrite H1, Hm, H3 by (intros k Hk; apply H; lia); done.
  - split; [change (stmts w ≤ stmts w2); lia|]. intros H. change (no_fault_in (stmts w) (stmts w2)) in H.
    rewrite H1, Hm by (intros k Hk; apply H; lia). done.
Qed.

Ltac local_step :=
  match goal with
  | |- local _ (st_bind _ _) (st_bind _ _) => apply local_bind; [|let a := fresh "a" in intros a]
  | |- local _ (st_ret _) (st_ret _) => apply local_ret
  | |- local _ (st_throw _) (st_throw _) => apply local_throw
  | |- local _ (st_lift _) (st_lift _) => apply local_lift
  | |- local _ (st_map_err _ _) (st_map_err _ _) => apply local_map_err
  | |- local _ (st_try _) (st_try _) => apply local_try
  | |- local _ (sqlite_call _) (sqlite_call _) => apply local_call
  | |- local _ (execute _) (execute _) => apply local_call
  | |- local _ (query _) (query _) => apply local_call
  | |- local _ (select _) (select _) => apply local_call
  | |- local _ now now => apply local_now
  | |- local _ create_dir_all create_dir_all => apply local_create_dir
  | |- local _ (transaction _) (transaction _) => apply local_transaction
  | |- local _ (if ?b then _ else _) (if ?b then _ else _) => destruct b
  | |- local _ (match ?x with _ => _ end) (match ?x with _ => _ end) => destruct x
  | |- local _ _ _ => solve [eauto 2 with local nocore]
  end; cbn beta iota.
Ltac local_steps := repeat local_step.
Create HintDb local.

Lemma local_get id : local stmts (get_workflow (env:=env) id) (get_workflow (env:=calm) id).
Proof. apply local_call. Qed.
#[local] Hint Resolve local_get : local.

Lemma local_open : local stmts (open_conn (env:=env)) (open_conn (env:=calm)).
Proof. unfold open_conn, configure. change (db_parent (Env:=calm)) with (db_parent (Env:=env)). local_steps. Qed.

Lemma local_apply name sql : local stmts (apply_migration (env:=env) name sql) (apply_migration (env:=calm) name sql).
Proof. unfold apply_migration. change (sqlite_display (Env:=calm)) with (sqlite_display (Env:=env)). local_steps. Qed.

Lemma local_migrate : local stmts (migrate (env:=env)) (migrate (env:=calm)).
Proof.
  unfold migrate, MIGRATIONS. local_steps. cbn [migrate_loop]. 
  pose proof local_apply. local_steps.
Qed.
#[local] Hint Resolve local_open local_migrate : local.

Lemma local_manager_open : local stmts (manager_open (env:=env)) (manager_open (env:=calm)).
Proof. unfold manager_open, manager_new, from_storage. local_steps. Qed.

Lemma local_manager_get id :
  local stmts (manager_get_workflow (env:=env) id) (manager_get_workflow (env:=calm) id).
Proof. unfold manager_get_workflow, from_storage. local_steps. Qed.

Lemma local_open_storage : local stmts (open_storage (env:=env)) (open_storage (env:=calm)).
Proof. unfold open_storage. local_steps. Qed.

Lemma local_create id wf kind expires :
  local stmts (create_pending_request (env:=env) id wf kind expires) (create_pending_request (env:=calm) id wf kind expires).
Proof. unfold create_pending_request. local_steps. Qed.

Lemma local_resolve id payload :
  local stmts (resolve_pending_request (env:=env) id payload) (resolve_pending_request (env:=calm) id payload).
Proof. unfold resolve_pending_request. local_steps. Qed.
#[local] Hint Resolve local_manager_open local_manager_get local_open_storage local_create local_resolve : local.

Lemma local_on_store {A} (m m' : StoreM A) :
  local stmts m m' → local (stmts ∘ rt_store) (on_store m) (on_store m').
Proof.
  apply (local_part stmts rt_store m m' _ _ (λ s rt, mk_router s (rt_delivered rt) (rt_duplicates rt))); done.
Qed.

Lemma local_deliver wf id :
  local (stmts ∘ rt_store) (deliver (RS:=DbRequestStore (env:=env)) wf id) (deliver (RS:=DbRequestStore (env:=calm)) wf id).
Proof.
  assert (∀ wf, local (stmts ∘ rt_store) (bump_delivered (S:=World) wf) (bump_delivered wf)) as Hd
    by (intros; by apply local_same).
  assert (∀ wf, local (stmts ∘ rt_store) (bump_duplicates (S:=World) wf) (bump_duplicates wf)) as Hu
    by (intros; by apply local_same).
  pose proof (λ k, local_on_store _ _ (local_create k wf Input None)) as Hc.
  pose proof (λ k, local_on_store _ _ (local_resolve k "")) as Hr.
  unfold deliver. cbn [rs_create rs_resolve DbRequestStore]. local_steps.
Qed.

Lemma local_deliver_once wf id :
  local stmts (deliver_once (env:=env) wf id) (deliver_once (env:=calm) wf id).
Proof.
  intros w. pose proof (local_deliver wf id (router_new w)) as H. unfold deliver_once.
  destruct (deliver wf id (router_new w)) as [r rt]. cbn in H. destruct H as [H1 H].
  split; [done|]. intros Hn. by rewrite H.
Qed.

(** *** The server *)

Definition sv_stmts : Server → nat := stmts ∘ sv_world.

Lemma local_on_world {E A} (m m' : ST World E A) : local stmts m m' → local sv_stmts (on_world m) (on_world m').
Proof.
  apply (local_part stmts sv_world m m' _ _ set_world); done.
Qed.

(** The part of an input up to the answer of the router. *)
Definition dedupe_part (env : Env) (wf id : string) : Handler RouteOutcome :=
  let* _ := provider_gate (env:=env) wf in
  let* _ := storage_500 (env:=env) (open_storage (env:=env)) in
  st_map_err (deliver_error (env:=env)) (on_world (deliver_once (env:=env) wf id)).

Lemma local_dedupe wf id : local sv_stmts (dedupe_part env wf id) (dedupe_part calm wf id).
Proof.
  pose proof (local_on_world _ _ local_manager_open) as Ho.
  pose proof (local_on_world _ _ (local_manager_get wf)) as Hg.
  pose proof (local_on_world _ _ local_open_storage) as Hs.
  pose proof (local_on_world _ _ (local_deliver_once wf id)) as Hd.
  unfold dedupe_part, provider_gate, storage_500, lifecycle_500, open_manager. local_steps.
Qed.
End Local.

Section Dedupe.
Context {env : Env} {host : Host} {paths : Paths} {header_names : HeaderNames}.

(** ** One dedupe *)

Definition store_of (s : Server) : Db := db (sv_world s).
Definition input_status (wf id : string) (s : Server) : option ReqStatus :=
  status (store_of s) (storage_key wf id).

Lemma deliver_once_settles wf id w :
  wp (deliver_once wf id) (λ r w', is_ok r = true → settled (status (db w') (storage_key wf id))) w.
Proof.
  unfold wp, deliver_once. pose proof (wp_run _ _ _ (deliver_ok wf id (router_new w))) as [[_ Hr] _].
  destruct (deliver wf id (router_new w)) as [[[]|e] rt]; cbn in *; [|by destruct Hr|done].
  destruct Hr as (_ & -> & _). done.
Qed.

Lemma deliver_once_migrated wf id w : migrated (db w) → migrated (db (deliver_once wf id w).2).
Proof.
  intros Hm. pose proof (deliver_frame wf id (router_new w)) as Hd. unfold deliver_once.
  destruct (deliver wf id _) as [r rt]. by apply (same_but_requests_fields _ _ Hd).
Qed.

Lemma deliver_once_answers wf id w :
  healthy (db w) → wf ≠ "" → id ≠ "" → is_Some (workflows (db w) !! wf) →
  is_ok (deliver_once wf id w).1 = true.
Proof.
  intros Hh Hwf Hid Hk. pose proof (wp_run _ _ _ (deliver_ok wf id (router_new w))) as [_ Ha].
  unfold deliver_once. destruct (deliver wf id _) as [r rt]. cbn in *.
  specialize (Ha Hwf Hid (λ e, healthy_db_error _ e Hh)). unfold deliver_answer in Ha. cbn in Ha.
  rewrite bool_decide_eq_true_2 in Ha by done. destruct (status _ _) as [[[x|]| |]|]; naive_solver.
Qed.

(** The dedupe keeps the schema, settles the input when it answers, and
    answers whenever no call can fail. *)
Lemma wp_dedupe_part wf id session Q s :
  migrated (store_of s) → generic_row wf (store_of s) session → wf ≠ "" → id ≠ "" →
  (∀ r s', migrated (store_of s') → (is_ok r = true → settled (input_status wf id s')) →
     ((∀ k, fault k = None) → is_ok r = true) → Q r s') →
  wp (dedupe_part env wf id) Q s.
Proof.
  unfold store_of. intros Hm (row & Hrow & _) Hwf Hid HQ. unfold dedupe_part.
  apply wp_bind, wp_provider_gate. intros r s1 H1 Hr.
  pose proof (idled_db _ _ H1 Hm) as E1. destruct r as [a|response]; cycle 1.
  { apply HQ; [by rewrite E1|done|]. intros Hf. destruct (Hr (conj Hf Hm)). congruence. }
  clear Hr. apply wp_bind, wp_map_err, wp_idle; [apply idle_open_storage|]. intros r s2 H2 Hok.
  pose proof (idled_db _ _ (idled_trans _ _ _ H1 H2) Hm) as E2. clear H1 H2.
  destruct r as [[]|e]; cbn [map_err]; cycle 1.
  { apply HQ; [by rewrite E2|done|]. intros Hf. apply Hok. rewrite E1. by split. }
  clear Hok E1. rewrite <-E2 in Hm, Hrow. apply wp_map_err, wp_on_world, wp_of. intros r w Hrun.
  pose proof (wp_eq _ _ _ _ _ Hrun (deliver_once_settles wf id _)) as Hs.
  pose proof (deliver_once_migrated wf id _ Hm) as Hmw. rewrite Hrun in Hmw.
  apply HQ; [done|by destruct r|]. intros Hf.
  pose proof (deliver_once_answers wf id _ (conj Hf Hm) Hwf Hid ltac:(by exists row)) as Ha.
  rewrite Hrun in Ha. by destruct r.
Qed.

End Dedupe.

Section Attempts.
Context {env : Env} {host : Host} {paths : Paths} {header_names : HeaderNames}.

(** ** One attempt *)

(** The rest of an accepted input only adds to the store. *)
Definition only_good (s s' : Server) : Prop := good (store_of s) (store_of s').
#[local] Instance only_good_preorder : PreOrder only_good.
Proof. split; [intros s; by unfold only_good|intros s1 s2 s3; unfold only_good; by etrans]. Qed.

Lemma only_good_quiet {E A} (m : ServerM E A) : follows quiet m → follows only_good m.
Proof. intros H s. apply (H s). Qed.

Lemma only_good_run wf id text : follows only_good (run_command wf id text).
Proof. intros s. unfold run_command, only_good. by destruct (run_generic text _). Qed.

#[local] Hint Resolve only_good_quiet quiet_touch quiet_persist quiet_storage_500 safe_open_storage
  quiet_record_run only_good_run : server.

Lemma after_dedupe wf id text destructive session o :
  follows only_good (match o with
    | Duplicate =>
        let* _ := touch wf in
        let* _ := persist_registry in
        st_ret (duplicate_response id)
    | Delivered =>
        let* outcome := st_map_err exec_error (run_command wf id text) in
        let* _ := storage_500 open_storage in
        let* truncated := st_map_err (error_body 500 "EXEC_RECORD_FAILED")
                            (record_run wf id session outcome destructive) in
        let* _ := touch wf in
        let* _ := persist_registry in
        st_ret (delivered_response id outcome truncated)
    end).
Proof.
  pose proof (only_good_quiet _ (quiet_storage_500 _ safe_open_storage)).
  pose proof (λ o, only_good_quiet _ (quiet_record_run wf id session o destructive)).
  follow_steps.
Qed.

Lemma bind_ok {A B} (m : Handler A) (k : A → Handler B) s a s1 :
  m s = (Ok a, s1) → st_bind m k s = k a s1.
Proof. intros H. unfold st_bind. by rewrite H. Qed.
Lemma bind_err {A B} (m : Handler A) (k : A → Handler B) s r s1 :
  m s = (Err r, s1) → st_bind m k s = (Err r, s1).
Proof. intros H. unfold st_bind. by rewrite H. Qed.

(** An accepted input is its dedupe, and a rest when the dedupe answers. *)
Lemma input_as_dedupe request wf s id text destructive session :
  input_accepted request id text destructive → generic_row wf (store_of s) session →
  match dedupe_part env wf id s with
  | (Err r, s1) => handle_input request wf s = (Err r, s1)
  | (Ok _, s1) => only_good s1 (handle_input request wf s).2
  end.
Proof.
  intros Hacc (row & Hrow & Hp & ->). unfold handle_input, dedupe_part.
  destruct (input_fields_cases request s) as [(id' & text' & d' & Hf & Hacc')|(r & _ & _ & Hno)];
    [|by destruct (Hno _ _ _ Hacc)].
  destruct (input_accepted_inj _ _ _ _ _ _ _ Hacc Hacc') as (-> & -> & ->).
  rewrite (bind_ok _ _ _ _ _ Hf). cbn beta iota.
  assert (wp (provider_gate wf) (λ r _, ∀ p session, r = Ok (p, session) → p = Some Generic) s) as Hgen.
  { apply wp_provider_gate. intros r s1 _ Hr p session ->. destruct Hr as (row' & Hrow' & -> & _).
    unfold store_of in Hrow. congruence. }
  unfold wp in Hgen. destruct (provider_gate wf s) as [[[p session]|r] s1] eqn:E1; cycle 1.
  { rewrite (bind_err _ _ _ _ _ E1). by apply bind_err. }
  rewrite !(bind_ok _ _ _ _ _ E1), (Hgen p session eq_refl), bool_decide_eq_false_2 by auto. clear.
  unfold generic_input. destruct (storage_500 open_storage s1) as [[[]|r] s2] eqn:E2; cycle 1.
  { rewrite (bind_err _ _ _ _ _ E2). by apply bind_err. }
  rewrite !(bind_ok _ _ _ _ _ E2).
  destruct (st_map_err deliver_error (on_world (deliver_once wf id)) s2) as [[o|r] s3] eqn:E3.
  - rewrite !(bind_ok _ _ _ _ _ E3). apply after_dedupe.
  - by apply bind_err.
Qed.

Lemma dedupe_good wf id : follows only_good (dedupe_part env wf id).
Proof.
  pose proof (only_good_quiet _ (provider_gate_quiet wf)).
  pose proof (only_good_quiet _ (quiet_storage_500 _ safe_open_storage)).
  assert (follows only_good (on_world (deliver_once wf id))).
  { intros s. apply (wp_run (on_world (deliver_once wf id)) (λ _ s', only_good s s') s).
    apply wp_on_world, wp_deliver_once. by intros r w' Hg _. }
  unfold dedupe_part. follow_steps.
Qed.

Lemma some_fault a b : ¬ no_fault_in a b → ∃ k, a ≤ k < b ∧ fault k ≠ None.
Proof.
  intros H. destruct (decide (Forall (λ k, fault k = None) (seq a (b - a)))) as [Ha|Ha].
  - destruct H. intros k Hk. rewrite Forall_forall in Ha. apply Ha, elem_of_seq. lia.
  - apply not_Forall_Exists, Exists_exists in Ha as (k & Hk%elem_of_seq & Hf); [|apply _].
    exists k. split; [lia|done].
Qed.

(** An attempt settles the input, or used up a failing call and changed
    nothing that stands in the way of the next attempt. *)
Lemma input_attempt request wf s id text destructive session :
  bearer_ok request (sv_token s) = true →
  route (hr_method request) (hr_url request) = InputRoute wf → wf ≠ "" →
  input_accepted request id text destructive → generic_row wf (store_of s) session →
  store_ok (store_of s) → migrated (store_of s) →
  let s' := (reply request s).2 in
  settled (input_status wf id s') ∨
  migrated (store_of s') ∧ ∃ k, sv_stmts s ≤ k < sv_stmts s' ∧ fault k ≠ None.
Proof.
  intros Hb Hr Hwf Hacc Hg Hok Hm. cbn zeta.
  assert ((reply request s).2 = (handle_input request wf s).2) as ->.
  { unfold reply. rewrite Hb, Hr. cbn [negb dispatch_route]. by destruct (handle_input request wf s) as [[]]. }
  assert (id ≠ "") as Hid by (destruct Hacc as (_ & Hc & _); by intros ->).
  pose proof (input_as_dedupe _ _ _ _ _ _ _ Hacc Hg) as Hd.
  pose proof (local_dedupe wf id s) as Hl. pose proof (dedupe_good wf id s Hok) as [Hok1 _].
  assert (wp (dedupe_part env wf id) (λ r s1, migrated (store_of s1) ∧
    (is_ok r = true → settled (input_status wf id s1))) s) as Hw by (by eapply wp_dedupe_part).
  assert (wp (dedupe_part calm wf id) (λ r _, is_ok r = true) s) as Hc
    by (eapply (wp_dedupe_part (env:=calm)); eauto).
  unfold wp in Hw, Hc. destruct (dedupe_part env wf id s) as [[o|r] s1]; destruct Hw as [Hm1 Hset].
  - left. eapply good_settled; [exact Hok1|exact Hd|by apply Hset].
  - right. rewrite Hd. split; [done|]. apply some_fault. intros Hn. cbn [snd] in Hn.
    destruct Hl as [_ Hl]. by rewrite (Hl Hn) in Hc.
Qed.

(** ** Retries *)

(** What else may happen to a server between two attempts. *)
Record meanwhile (s s' : Server) : Prop := {
  mw_good : good (store_of s) (store_of s');
  mw_migrated : migrated (store_of s) → migrated (store_of s');
  mw_stmts : sv_stmts s ≤ sv_stmts s';
}.

#[export] Instance meanwhile_preorder : PreOrder meanwhile.
Proof.
  split; [intros s; by split|]. intros s1 s2 s3 [A B C] [D E F].
  split; [by etrans|auto|lia].
Qed.

Lemma meanwhile_restart s : meanwhile s (server_new s).2.
Proof.
  pose proof (server_new_world s) as E.
  split; unfold store_of, sv_stmts, compose; by rewrite E.
Qed.

(** The phone sends [request] [n] times, with the token of the server. *)
Inductive attempts (request : Request) : Server → nat → Server → Prop :=
| attempts_none s : attempts request s 0 s
| attempts_more s s1 n s2 :
    bearer_ok request (sv_token s) = true → meanwhile (reply request s).2 s1 →
    attempts request s1 n s2 → attempts request s (S n) s2.

Lemma reply_good request s : store_ok (store_of s) → good (store_of s) (store_of (reply request s).2).
Proof. intros Hok. by destruct (reply_moves request s Hok) as [[H _]|[H _]]. Qed.

Lemma good_generic wf d d' session :
  store_ok d → good d d' → generic_row wf d session → generic_row wf d' session.
Proof.
  intros Hok Hg (row & Hrow & Hp & ->). destruct (Hg Hok) as [_ He].
  destruct (ev_workflows _ _ He _ _ Hrow) as (row' & Hrow' & Hr & _).
  exists row'. destruct row, row'. injection Hr as -> -> -> -> ->. by split_and!.
Qed.

Lemma attempts_settled request s n s' wf id :
  attempts request s n s' → store_ok (store_of s) →
  settled (input_status wf id s) → settled (input_status wf id s').
Proof.
  induction 1 as [|s s1 n s2 Hb [Hg _ _] _ IH]; intros Hok Hset; [done|].
  assert (good (store_of s) (store_of s1)) as Hg1.
  { etrans; [|exact Hg]. by apply reply_good. }
  apply IH; [by apply Hg1|]. by eapply good_settled.
Qed.

(** The failing calls still ahead of call [a]. *)
Definition ahead (faults : list nat) (a : nat) : nat := length (filter (λ k, a ≤ k) faults).

Lemma ahead_le faults a b : a ≤ b → ahead faults b ≤ ahead faults a.
Proof.
  intros H. unfold ahead. induction faults as [|k l IH]; [done|].
  rewrite !filter_cons. repeat case_decide; cbn; lia.
Qed.

Lemma ahead_lt faults a b k : k ∈ faults → a ≤ k < b → ahead faults b < ahead faults a.
Proof.
  intros Hin H. unfold ahead. induction Hin as [j l|k j l Hin IH]; rewrite !filter_cons.
  - pose proof (ahead_le l a b ltac:(lia)) as Hle. unfold ahead in Hle.
    repeat case_decide; cbn; lia.
  - specialize (IH H). repeat case_decide; cbn; lia.
Qed.

(** C6: retries get through.  An accepted input for a generic workflow is sent
    again and again under one id while calls of the database engine fail, each
    cutting an attempt short at any point, and other requests, restarts and the
    agent's own work come in between.  If only finitely many calls ever fail,
    one attempt more than there are failing calls settles the input: from then
    on its dedupe row says that it was delivered (or expired). *)
Theorem retries_settle (request : Request) (s s' : Server) (n : nat) (faults : list nat)
    (wf id text : string) (destructive : bool) (session : option string) :
  (∀ k, fault k ≠ None → k ∈ faults) → length faults < n →
  route (hr_method request) (hr_url request) = InputRoute wf → wf ≠ "" →
  input_accepted request id text destructive → generic_row wf (store_of s) session →
  store_ok (store_of s) → migrated (store_of s) →
  attempts request s n s' →
  settled (input_status wf id s').
Proof.
  intros Hf Hn Hr Hwf Hacc Hg Hok Hm Hatt.
  assert (ahead faults (sv_stmts s) < n) as Ha
    by (pose proof (length_filter (λ k, sv_stmts s ≤ k) faults); unfold ahead; lia).
  clear Hn. induction Hatt as [s|s s1 n s2 Hb [Hg1 Hm1 Hs1] Hatt IH]; [lia|].
  assert (good (store_of s) (store_of (reply request s).2)) as Hg0
    by by apply reply_good.
  assert (store_ok (store_of (reply request s).2)) as Hok0 by by apply Hg0.
  assert (good (store_of s) (store_of s1)) as Hg01 by by etrans.
  destruct (input_attempt _ _ _ _ _ _ _ Hb Hr Hwf Hacc Hg Hok Hm) as [Hset|(Hm0 & k & Hk & Hfk)].
  - eapply attempts_settled; [exact Hatt|by apply Hg01|]. by eapply good_settled.
  - apply IH; [exact (good_generic _ _ _ _ Hok Hg01 Hg)|by apply Hg01|by apply Hm1|].
    pose proof (ahead_lt faults _ _ _ (Hf _ Hfk) Hk). pose proof (ahead_le faults _ _ Hs1). lia.
Qed.
End Attempts.

(** ** Witness: the engine fails between the claim and the receipt *)

#[local] Existing Instances sample_host sample_paths sample_headers.
#[local] Instance cut_short : Env := faulty_env 5000 7 32.

(** The first attempt leaves the row claimed; the server restarts. *)
Definition tried_once : Server := (server_new (reply sample_input sample_server).2).2.

Example tried_once_claimed :
  rp_status (reply sample_input sample_server).1 = 500%Z ∧
  input_status "wf-1" "u-1" tried_once = Some (RPending None).
Proof. vm_compute. done. Qed.

Lemma two_attempts : attempts sample_input sample_server 2 (reply sample_input tried_once).2.
Proof.
  assert (bearer_ok sample_input (sv_token tried_once) = true) as Hb by (vm_compute; reflexivity).
  apply (attempts_more _ _ tried_once); [reflexivity|apply meanwhile_restart|].
  apply (attempts_more _ _ (reply sample_input tried_once).2); [exact Hb|reflexivity|apply attempts_none].
Qed.

Lemma retries_settle_witness :
  length [32] < 2 ∧ settled (input_status "wf-1" "u-1" (reply sample_input tried_once).2).
Proof.
  assert (∀ k, fault k ≠ None → k ∈ [32]) as Hf.
  { intros k Hk. apply list_elem_of_singleton. cbn in Hk. destruct (Nat.eqb_spec k 32); [done|by destruct Hk]. }
  assert (length [32] < 2) as Hn by (cbn; lia).
  assert (route (hr_method sample_input) (hr_url sample_input) = InputRoute "wf-1") as Hr by (vm_compute; reflexivity).
  assert (generic_row "wf-1" (store_of sample_server) None) as Hg
    by (eexists; split; [vm_compute; reflexivity|by split]).
  assert ("wf-1" ≠ "") as Hw by done.
  split; [exact Hn|].
  pose proof (@retries_settle cut_short _ _ _ sample_input sample_server _ 2 [32] "wf-1" "u-1" "make" false None
    Hf Hn Hr Hw (sample_accepted _) Hg catalog_world_ok (proj2 sample_healthy) two_attempts) as H. exact H.
Defined.
