(* ===== verification/ApprovalSpec.v ===== *)
(** * ApprovalSpec: what an approval does

    [handle_approval] of [calcar-connect/src/server.rs]: a decision is applied
    exactly once, to a pending request, and what it may not touch. *)

From S2P Require Import Prelude Text Events Schema Storage Ring RingFacts OutboxFacts Requests Store Lifecycle LifecycleFacts Reach Router Plain BTree Json Http Config Exec Catalog CatalogFacts Server ServerFacts ServerSpec InputSpec.

Section ApprovalSpec.
Context {env : Env} {host : Host} {paths : Paths} {header_names : HeaderNames}.

(** The checks an approval passes before anything else happens. *)
Definition approval_accepted (request : Request) (id : string) (allow : bool) : Prop :=
  request_id_of request = Some id ∧ id ≠ "" ∧
  ∃ body parsed, read_body request = Ok body ∧ parse_object body = Some parsed ∧
    str_field parsed "approval_id" = Some id ∧ bool_field parsed "allow" = Some allow.

Definition verdict (allow : bool) : string := if allow then "approved" else "rejected".

(** Everything an approval leaves alone, except the registry and its file. *)
Record approval_frame (id : string) (s s' : Server) : Prop := {
  af_tables : same_but_requests (db (sv_world s)) (set_migrations
    (schema_migrations (db (sv_world s))) (set_schema (schema (db (sv_world s))) (db (sv_world s'))));
  af_others k : k ≠ id → status (db (sv_world s')) k = status (db (sv_world s)) k;
  af_runs : sv_runs s' = sv_runs s;
  af_settings : (sv_config s', sv_token s') = (sv_config s, sv_token s);
}.

(** The decision was applied: the request was pending and now carries it. *)
Record approval_applied (id wf : string) (allow : bool) (s : Server) (response : Response)
    (s' : Server) : Prop := {
  aa_response : response = approval_response id (verdict allow);
  aa_workflow : is_Some (workflows (db (sv_world s)) !! wf);
  aa_before : ∃ e, status (db (sv_world s)) id = Some (RPending e);
  aa_after : status (db (sv_world s')) id = Some (RResolved (verdict allow));
  aa_registry : sv_registry s' =
    record_approval (mk_resolved id wf (verdict allow)) (touch_workflow wf (sv_registry s));
  aa_files path : path ≠ registry_path (sv_config s) → sv_files s' !! path = sv_files s !! path;
}.

(** The decision was not applied: at most the request has just expired. *)
Record approval_dropped (id : string) (s : Server) (response : Response) (s' : Server) : Prop := {
  ad_response : rp_status response ∈ [404; 409; 410; 500]%Z;
  ad_status : status_le (status (db (sv_world s)) id) (status (db (sv_world s')) id);
  ad_registry : sv_registry s' = sv_registry s ∧ sv_files s' = sv_files s;
}.

(** The answer without engine faults. *)
Definition approval_answer (id wf : string) (allow : bool) (d : Db) (response : Response) : Prop :=
  match workflows d !! wf, status d id with
  | None, _ => response = workflow_unknown
  | Some _, None => response = error_body 404 "APPROVAL_UNKNOWN" "unknown approval"
  | Some _, Some (RPending None) => response = approval_response id (verdict allow)
  | Some _, Some (RPending (Some _)) =>
      response = approval_response id (verdict allow) ∨ response = error_body 410 "EXPIRED" "approval expired"
  | Some _, Some (RResolved _) => response = error_body 409 "ALREADY_RESOLVED" "approval already resolved"
  | Some _, Some RExpired => response = error_body 410 "EXPIRED" "approval expired"
  end.

Definition approval_result (id wf : string) (allow : bool) (s : Server) (response : Response)
    (s' : Server) : Prop :=
  approval_frame id s s' ∧
  (approval_applied id wf allow s response s' ∨ approval_dropped id s response s') ∧
  (healthy (db (sv_world s)) → approval_answer id wf allow (db (sv_world s)) response).

Lemma untouched_frame id s s' : untouched s s' → approval_frame id s s'.
Proof.
  intros [Ht Hr Hf Hg Hs]. injection Ht as E1 E2 E3 E4 E5 E6. split; [|by intros; unfold status; rewrite E6|done..].
  unfold same_but_requests, set_requests, set_migrations, set_schema. cbn.
  rewrite E1, E2, E3, E4, E5. by destruct (db (sv_world s)).
Qed.

Lemma idled_dropped id wf allow s s' response :
  idled s s' → rp_status response ∈ [404; 409; 410; 500]%Z →
  (healthy (db (sv_world s)) → approval_answer id wf allow (db (sv_world s)) response) →
  approval_result id wf allow s response s'.
Proof.
  intros [Hu _] Hr Ha. split; [by apply untouched_frame|]. split; [|done]. right.
  destruct Hu as [Ht _ Hf Hg _]. injection Ht as _ _ _ _ _ E6. split; [done| |done].
  left. unfold status. by rewrite E6.
Qed.

(** From the resolve on. *)
Definition settle (id wf : string) (allow : bool) : Handler Response :=
  let* resolved := st_try (on_world (resolve_pending_request id (verdict allow))) in
  match resolved with
  | Ok _ =>
      let* _ := touch wf in
      let* _ := modify (λ s, set_registry
                  (record_approval (mk_resolved id wf (verdict allow)) (sv_registry s)) s) in
      let* _ := persist_registry in
      st_ret (approval_response id (verdict allow))
  | Err e => st_ret (approval_error e)
  end.

(** An approval on every path up to the resolve. *)
Lemma wp_approval request wf (Q : Response → Server → Prop) s :
  (∀ response, (∀ id allow, ¬ approval_accepted request id allow) →
     rp_status response = 400%Z ∨ rp_status response = 413%Z → Q response s) →
  (∀ id allow response s', approval_accepted request id allow → idled s s' →
     rp_status response ∈ [404; 409; 410; 500]%Z →
     (healthy (db (sv_world s)) → workflows (db (sv_world s)) !! wf = None ∧ response = workflow_unknown) →
     Q response s') →
  (∀ id allow s', approval_accepted request id allow → idled s s' →
     is_Some (workflows (db (sv_world s)) !! wf) →
     wp (settle id wf allow) (λ r s'', Q (response_of r) s'') s') →
  wp (handle_approval request wf) (λ r s', Q (response_of r) s') s.
Proof.
  intros Hbad Hno Hgo. unfold handle_approval. apply wp_bind. unfold wp at 1.
  destruct (read_object_cases request s) as [(body & parsed & Hb & Hp & ->)|(r & -> & Hr & Hn)]; cycle 1.
  { apply Hbad; [|done]. intros id allow (_ & _ & body & parsed & ? & ? & _). by eapply Hn. }
  assert (∀ id allow, approval_accepted request id allow → request_id_of request = Some id ∧ id ≠ "" ∧
    str_field parsed "approval_id" = Some id ∧ bool_field parsed "allow" = Some allow) as Hacc.
  { intros id allow (? & ? & body' & parsed' & H1 & H2 & H3).
    by assert (parsed' = parsed) as -> by congruence. }
  destruct (str_field parsed "approval_id") as [id|] eqn:Ei; cycle 1.
  { apply Hbad; [|by left]. intros id allow H. by destruct (Hacc _ _ H) as (_ & _ & ? & _). }
  destruct (bool_field parsed "allow") as [allow|] eqn:Ea; cycle 1.
  { apply Hbad; [|by left]. intros id' allow H. by destruct (Hacc _ _ H) as (_ & _ & _ & ?). }
  assert (∀ m, (∀ id allow, ¬ approval_accepted request id allow) →
    Q (response_of (Err (malformed m))) s) as Hm by (intros m Hm; by apply Hbad; [|left]).
  unfold refuse_when. apply wp_bind. destruct (String.eqb_spec id "") as [->|Hid].
  { apply wp_throw, Hm. intros id allow' H. destruct (Hacc _ _ H) as (_ & ? & [= <-] & _). done. }
  apply wp_ret, wp_bind. case_bool_decide as Hk.
  { apply wp_throw, Hm. intros id' allow' H. destruct (Hacc _ _ H) as (? & _ & [= <-] & _). done. }
  assert (approval_accepted request id allow) as Hok by (unfold approval_accepted; eauto 10).
  apply wp_ret, wp_bind, wp_map_err, wp_idle; [apply idle_manager_open|].
  intros [[]|e] s1 H1 Hf; cbn [map_err]; cycle 1.
  { apply (Hno id allow); [done|done|by apply in_statuses|]. intros Hh. by specialize (Hf Hh). }
  clear Hf. apply wp_bind, wp_map_err, wp_on_world, wp_map_err.
  assert (∀ w, db w = db (sv_world s1) → idled s (set_world w s1)) as Hi.
  { intros w Hw. eapply idled_trans; [exact H1|]. split; [split; by rewrite <-?Hw|]. by exists w. }
  apply wp_get_workflow; [intros e w Hw Hdb|intros w _ Hw]; cbn [map_err].
  { apply (Hno id allow); [done|auto|by apply in_statuses|]. intros Hh.
    by destruct (healthy_db_error _ _ (idled_healthy _ _ H1 Hh) Hdb). }
  specialize (Hi w Hw). rewrite (idled_workflows _ _ H1).
  apply wp_bind. destruct (workflows (db (sv_world s)) !! wf) as [row|] eqn:Hrow; case_bool_decide; try done.
  - apply wp_ret, wp_bind, wp_map_err, wp_idle; [apply idle_open_storage|].
    intros [[]|e] s2 H2 Hf; cbn [map_err].
    + apply (Hgo id allow); [done|by eapply idled_trans|by eexists].
    + apply (Hno id allow); [done|by eapply idled_trans|by apply in_statuses|].
      intros Hh. by specialize (Hf (idled_healthy _ _ Hi Hh)).
  - apply wp_throw, (Hno id allow); [done|done|by apply in_statuses|done].
Qed.

Lemma frame_moved id s s1 w :
  idled s s1 → same_but_requests (db (sv_world s1)) (db w) →
  (∀ k, k ≠ id → status (db w) k = status (db (sv_world s1)) k) →
  approval_frame id s (set_world w s1).
Proof.
  intros [Hu _] Hsame Hoth. destruct (untouched_frame id _ _ Hu) as [E1 E2 E3 E4].
  split; [|intros k Hk; cbn; by rewrite Hoth, E2|done..]. cbn. rewrite <-Hsame in E1.
  unfold same_but_requests in *. rewrite <-E1. by destruct (db w).
Qed.

Lemma settle_ok id wf allow s s1 :
  idled s s1 → is_Some (workflows (db (sv_world s)) !! wf) →
  wp (settle id wf allow) (λ r s', approval_result id wf allow s (response_of r) s') s1.
Proof.
  intros Hi Hk. apply wp_bind, wp_try, wp_on_world, wp_resolve. intros t r w Hsame Hoth Hr.
  pose proof (frame_moved id s s1 w Hi Hsame Hoth) as Hframe.
  assert (status (db (sv_world s1)) id = status (db (sv_world s)) id) as Hst.
  { destruct Hi as [[Ht _ _ _ _] _]. injection Ht as _ _ _ _ _ E. unfold status. by rewrite E. }
  assert (sv_registry s1 = sv_registry s ∧ sv_files s1 = sv_files s ∧ sv_config s1 = sv_config s) as (Hg & Hf & Hc).
  { destruct Hi as [[_ _ ? ? [= ? _]] _]. done. }
  rewrite Hst in Hr. destruct r as [[]|e].
  - destruct Hr as [Hr|(e & ? & _)]; [|done].
    destruct (status (db (sv_world s)) id) as [[e|p|]|] eqn:Hs; cbn in Hr; try done.
    destruct (past t e) eqn:Hpast; [done|]. injection Hr as Hw.
    unfold wp, st_bind, touch, modify, persist_registry, fs_write, st_ret.
    cbn [fst snd sv_calls sv_files sv_config sv_registry set_registry set_world].
    destruct (io_fault (sv_calls s1)); cbn [response_of snd];
      (split; [destruct Hframe; by split|]); (split; [left|]); cbn [sv_registry sv_files set_files set_registry set_world].
    1,3: split; cbn; rewrite ?Hg, ?Hf, ?Hc; [done|done|eauto|done|done|].
    1: intros path Hp; by rewrite lookup_partial_alter_ne.
    1: intros path Hp; by rewrite lookup_insert_ne.
    all: intros _; unfold approval_answer; destruct Hk as [row ->]; rewrite Hs; destruct e; auto.
  - apply wp_ret. cbn [response_of]. destruct Hk as [row Hrow].
    assert (rp_status (approval_error e) ∈ [404; 409; 410; 500]%Z) as He
      by (destruct e; by apply in_statuses).
    split; [done|]. destruct Hr as [Hr|(e' & [= <-] & Hdb & Hle)].
    + split.
      * right. split; [done| |done]. cbn.
        destruct (status (db (sv_world s)) id) as [[[x|]|p|]|]; cbn in Hr; [destruct (x <=? t)%Z|..];
          try done; injection Hr as _ ->; [right; eauto|by left..].
      * intros _. unfold approval_answer. rewrite Hrow.
        destruct (status (db (sv_world s)) id) as [[[x|]|p|]|]; cbn in Hr; [destruct (x <=? t)%Z|..];
          try done; injection Hr as -> _; [by right|done..].
    + split; [right; by split|]. intros Hh.
      by destruct (healthy_db_error _ _ (idled_healthy _ _ Hi Hh) Hdb).
Qed.

(** C31: an approval is applied once.  A request whose body, fields or
    idempotency key is wrong is answered 400 or 413 and nothing at all changes.
    Otherwise no command starts, no file but the registry is written, no table
    but the pending requests changes, and of those only the named one; it is
    answered 200 exactly when it was pending for an existing workflow and now
    carries the decision, recorded in the registry; in every other case, faults
    included, nothing is recorded and the request is as before or has just
    expired.  Without engine faults the answer is determined by the row. *)
Theorem approval_spec (request : Request) (wf : string) (s : Server) :
  bearer_ok request (sv_token s) = true →
  route (hr_method request) (hr_url request) = ApprovalRoute wf →
  let '(response, s') := reply request s in
  ((∀ id allow, ¬ approval_accepted request id allow) →
     s' = s ∧ (rp_status response = 400%Z ∨ rp_status response = 413%Z)) ∧
  (∀ id allow, approval_accepted request id allow → approval_result id wf allow s response s').
Proof.
  intros Hb Hr.
  assert (∀ id allow id' allow', approval_accepted request id allow →
    approval_accepted request id' allow' → id' = id ∧ allow' = allow) as Huniq.
  { intros id allow id' allow' (_ & _ & b1 & p1 & Hb1 & Hp1 & Hi1 & Ha1) (_ & _ & b2 & p2 & Hb2 & Hp2 & Hi2 & Ha2).
    assert (p2 = p1) as -> by congruence. split; congruence. }
  apply (wp_reply request _ (λ response s', _ ∧ _) s Hb Hr).
  apply (wp_approval request wf (λ response s',
    ((∀ id allow, ¬ approval_accepted request id allow) →
       s' = s ∧ (rp_status response = 400%Z ∨ rp_status response = 413%Z)) ∧
    (∀ id allow, approval_accepted request id allow → approval_result id wf allow s response s'))).
  - intros response Hno Hst. split; [done|]. intros id allow Hacc. by destruct (Hno id allow).
  - intros id allow response s' Hacc Hi Hst Hh. split; [intros Hno; by destruct (Hno id allow)|].
    intros id' allow' Hacc'. apply idled_dropped; [done|done|]. intros H.
    destruct (Hh H) as [Hn ->]. unfold approval_answer. by rewrite Hn.
  - intros id allow s' Hacc Hi Hk. eapply wp_mono; [by apply (settle_ok id wf allow s)|].
    intros r s'' Hres. split; [intros Hno; by destruct (Hno id allow)|].
    intros id' allow' Hacc'. by destruct (Huniq _ _ _ _ Hacc Hacc') as [-> ->].
Qed.
End ApprovalSpec.

(** ** Witness: an approval that names an input's dedupe row *)

#[local] Existing Instances sample_env sample_host sample_paths sample_headers.

(** An attempt at the input [u-1] was interrupted between claim and run. *)
Definition claimed_server : Server := set_world
  (create_pending_request (storage_key "wf-1" "u-1") "wf-1" Input None catalog_world).2 sample_server.

Definition crossing_approval : Request :=
  post "/v1/agent/workflows/wf-1/approvals" (storage_key "wf-1" "u-1")
    (render (obj [("approval_id", Str (storage_key "wf-1" "u-1")); ("allow", Bool true)])).

(** Without the approval a retry runs the input; after it the retry is a
    duplicate, and the input never runs. *)
Example approval_settles_input :
  (reply sample_input claimed_server).1 =
    delivered_response "u-1" (mk_outcome 0 "done" "" false) false ∧
  let s := (reply crossing_approval claimed_server).2 in
  (reply sample_input s).1 = duplicate_response "u-1" ∧ sv_runs (reply sample_input s).2 = [].
Proof. vm_compute. auto. Qed.

Lemma approval_spec_witness :
  approval_applied (storage_key "wf-1" "u-1") "wf-1" true claimed_server
    (reply crossing_approval claimed_server).1 (reply crossing_approval claimed_server).2.
Proof.
  assert (bearer_ok crossing_approval (sv_token claimed_server) = true) as Hb by reflexivity.
  assert (route (hr_method crossing_approval) (hr_url crossing_approval) = ApprovalRoute "wf-1") as Hu
    by (vm_compute; reflexivity).
  assert (approval_accepted crossing_approval (storage_key "wf-1" "u-1") true) as Ha.
  { split; [reflexivity|]. split; [done|]. do 2 eexists. split; [vm_compute; reflexivity|].
    split; [vm_compute; reflexivity|]. split; reflexivity. }
  pose proof (approval_spec crossing_approval "wf-1" claimed_server Hb Hu) as H.
  assert (rp_status (reply crossing_approval claimed_server).1 = 200%Z) as H200 by (vm_compute; reflexivity).
  destruct (reply crossing_approval claimed_server) as [response s']. destruct H as [_ H].
  destruct (H _ _ Ha) as (_ & [Happ|[Hst _ _]] & _); [exact Happ|]. cbn [fst] in H200. rewrite H200 in Hst.
  apply (bool_decide_eq_true_2 _) in Hst. discriminate Hst.
Defined.
