(* ===== verification/Refine.v ===== *)
(** * Refine: the agent and the server refine the machine

    A method of the program has a script of steps of [Machine.v].  Whatever
    engine call fails, it performs a prefix of its script, and all of it when
    it succeeds; where the rows decide, [traced] says which steps go with which
    answer.  Histories of the agent's calls and of requests to the server are
    therefore runs of the machine. *)

From stdpp Require Import functions.
From S2P Require Import Prelude Text Events Schema Storage Ring RingFacts OutboxFacts Requests Store Lifecycle LifecycleFacts Reach Router Plain BTree Json Http Config Exec Catalog CatalogFacts Server ServerFacts ServerSpec InputSpec ApprovalSpec Machine.

(** ** Traces of a method *)

Section Traced.
Context {S : Type} (show : S → View) (fine : S → Prop).

(** On every path [m] makes steps that go with its answer by [T]. *)
Definition traced {E A} (m : ST S E A) (T : result A E → list Step → Prop) : Prop := ∀ s,
  fine s → wp m (λ r s', fine s' ∧ ∃ made, steps_to (show s) made (show s') ∧ T r made) s.

(** [m] makes a prefix of [script], and all of it when it answers, then with a
    value that satisfies [P]. *)
Definition scripted {E A} (m : ST S E A) (script : list Step) (P : A → Prop) : Prop :=
  traced m (λ r made, made `prefix_of` script ∧ ∀ a, r = Ok a → made = script ∧ P a).

Lemma traced_ret {E A} (a : A) (T : result A E → list Step → Prop) : T (Ok a) [] → traced (st_ret a) T.
Proof. intros H s Hs. split; [done|]. exists []. split; [by apply steps_same|done]. Qed.
Lemma traced_throw {E A} (e : E) (T : result A E → list Step → Prop) : T (Err e) [] → traced (st_throw e) T.
Proof. intros H s Hs. split; [done|]. exists []. split; [by apply steps_same|done]. Qed.
Lemma traced_lift {E A} (r : result A E) (T : result A E → list Step → Prop) : T r [] → traced (st_lift r) T.
Proof. intros H s Hs. split; [done|]. exists []. split; [by apply steps_same|done]. Qed.

Lemma traced_mono {E A} (m : ST S E A) (T T' : result A E → list Step → Prop) :
  traced m T → (∀ r made, T r made → T' r made) → traced m T'.
Proof.
  intros Hm HT s Hs. eapply wp_mono; [by apply Hm|]. intros r s' (Hf & made & Hst & H).
  split; [done|]. exists made. auto.
Qed.

Lemma traced_bind {E A B} (m : ST S E A) (k : A → ST S E B) T (U : result B E → list Step → Prop) :
  traced m T → (∀ e made, T (Err e) made → U (Err e) made) →
  (∀ a made, T (Ok a) made → traced (k a) (λ r made', U r (made ++ made'))) →
  traced (st_bind m k) U.
Proof.
  intros Hm He Hk s Hs. apply wp_bind. eapply wp_mono; [by apply Hm|].
  intros [a|e] s1 (Hs1 & made & Hst & HT); [|split; [done|]; exists made; auto].
  eapply wp_mono; [by apply (Hk a made HT)|]. intros r s2 (Hs2 & made' & Hst' & HU).
  split; [done|]. exists (made ++ made'). split; [by eapply steps_app|done].
Qed.

(** The steps are steps of the machine. *)
Lemma traced_steps {E A} (m : ST S E A) (T T' : result A E → list Step → Prop) :
  traced m T → (∀ r made a a', steps_to a made a' → T r made → T' r made) → traced m T'.
Proof.
  intros Hm HT s Hs. eapply wp_mono; [by apply Hm|]. intros r s' (Hf & made & Hst & H).
  split; [done|]. exists made. eauto.
Qed.

Lemma traced_map_err {E F A} (f : E → F) (m : ST S E A) T :
  traced m (λ r, T (map_err f r)) → traced (st_map_err f m) T.
Proof. intros Hm s Hs. apply wp_map_err. by apply Hm. Qed.

Lemma traced_try {E F A} (m : ST S E A) (T : result (result A E) F → list Step → Prop) :
  traced m (λ r, T (Ok r)) → traced (st_try m) T.
Proof. intros Hm s Hs. apply wp_try. by apply Hm. Qed.

Lemma scripted_ret {E A} (a : A) (P : A → Prop) : P a → scripted (E:=E) (st_ret a) [] P.
Proof. intros H. apply traced_ret. split; [done|]. by intros ? [= <-]. Qed.
Lemma scripted_throw {E A} (e : E) script (P : A → Prop) : scripted (st_throw e) script P.
Proof. apply traced_throw. split; [apply prefix_nil|done]. Qed.

Lemma scripted_bind {E A B} (m : ST S E A) (k : A → ST S E B) script script' P Q :
  scripted m script P → (∀ a, P a → scripted (k a) script' Q) →
  scripted (st_bind m k) (script ++ script') Q.
Proof.
  intros Hm Hk. eapply traced_bind; [exact Hm|..]; cbn.
  - intros e made [Hp _]. split; [by apply prefix_app_r|done].
  - intros a made [_ H]. destruct (H a eq_refl) as [-> HP]. eapply traced_mono; [by apply Hk|].
    intros r made [Hp H']. split; [by apply prefix_app|]. intros b Hb. destruct (H' b Hb) as [-> HQ]. done.
Qed.

Lemma scripted_map_err {E F A} (f : E → F) (m : ST S E A) script P :
  scripted m script P → scripted (st_map_err f m) script P.
Proof.
  intros Hm. apply traced_map_err. eapply traced_mono; [exact Hm|].
  intros r made [Hp H]. split; [done|]. intros a Ha. apply H. destruct r; [by injection Ha as ->|done].
Qed.

Lemma scripted_try {E F A} (m : ST S E A) P :
  scripted m [] P → scripted (E:=F) (st_try m) [] (λ _, True).
Proof.
  intros Hm. apply traced_try. eapply traced_mono; [exact Hm|]. intros r made [Hp _].
  split; [done|]. intros a _. by apply prefix_nil_inv in Hp.
Qed.

Lemma scripted_mono {E A} (m : ST S E A) script (P Q : A → Prop) :
  scripted m script P → (∀ a, P a → Q a) → scripted m script Q.
Proof.
  intros Hm HPQ. eapply traced_mono; [exact Hm|]. intros r made [Hp H]. split; [done|].
  intros a Ha. destruct (H a Ha). auto.
Qed.
End Traced.

(** ** The storage methods *)

Section Storage.
Context {env : Env} (started : list Started).

Definition shows (w : World) : View := view started (db w).
Definition sound (w : World) : Prop := store_ok (db w).

Abbreviation traced_w := (traced shows sound).
Abbreviation scripted_w := (scripted shows sound).

(** A safe method, from what it does to the tables. *)
Lemma traced_safe {E A} (m : ST World E A) T :
  safe m → (∀ w, sound w → wp m (λ r w', ∃ made, steps_to (shows w) made (shows w') ∧ T r made) w) →
  traced_w m T.
Proof.
  intros Hs Hm w Hw. apply wp_of. intros r w' Hrun. split.
  - pose proof (safe_run m w Hs) as Hg. rewrite Hrun in Hg. by apply Hg.
  - exact (wp_eq _ _ _ _ _ Hrun (Hm w Hw)).
Qed.

Lemma scripted_quiet {E A} (m : ST World E A) : safe m → keeps_tables m → scripted_w m [] (λ _, True).
Proof.
  intros Hs Hk. apply traced_safe; [done|]. intros w _. apply wp_of. intros r w' Hrun. exists [].
  split; [|done]. specialize (Hk w). rewrite Hrun in Hk. apply steps_same. symmetry. by apply view_tables.
Qed.

Lemma scripted_create id p ttl session :
  scripted_w (create_workflow id p ttl session) [Create id p ttl session] (λ row, workflow_id row = id).
Proof.
  apply traced_safe; [apply safe_create_workflow|]. intros w _. apply wp_create_workflow.
  - intros e w' Hw' _. exists []. unfold shows. rewrite Hw'. split; [by apply steps_same|].
    split; [apply prefix_nil|done].
  - intros t w' Hn _ _ row Hw'. exists [Create id p ttl session]. unfold shows. rewrite Hw'.
    split; [by apply steps_one, step_create|]. split; [done|]. by intros ? [= <-].
Qed.

Lemma scripted_set_state id next :
  scripted_w (set_workflow_state id next) [Move id next] (λ row, workflow_id row = id).
Proof.
  apply traced_safe; [apply safe_set_workflow_state|]. intros w Hok. apply wp_set_workflow_state.
  - intros e w' Hw' _. exists []. unfold shows. rewrite Hw'. split; [by apply steps_same|].
    split; [apply prefix_nil|done].
  - intros row t w' Hrow Hp Ht _ _ row' Hw'.
    assert (steps_to (shows w) [Move id next] (shows w')) as Hst.
    { unfold shows. rewrite Hw'. apply steps_one, step_move; [apply Hok|done..]. }
    split; [|intros e _]; exists [Move id next]; (split; [done|]); (split; [done|]); [|done].
    intros ? [= <-]. split; [done|]. by destruct (ok_workflows _ Hok _ _ Hrow).
Qed.

Lemma scripted_upsert id session resume :
  scripted_w (upsert_session_binding id session resume) [Bind id session resume] (λ _, True).
Proof.
  apply traced_safe; [apply safe_upsert_session_binding|]. intros w _. unfold upsert_session_binding.
  sql_step. sql_step. unfold shows. rewrite <-Hw in *. clear Hw.
  sql_step; unfold upsert_binding in *; cbn in *.
  1,2: exists []; rewrite Hw; (split; [by apply steps_same|split; [apply prefix_nil|done]]).
  destruct (workflows (db w0) !! id) eqn:Hwf; [|done]. injection Ha as <- <-.
  exists [Bind id session resume]. rewrite Hw. split; [apply steps_one, step_bind; by eexists|done].
Qed.

Definition log_of (draft : EventDraft) : Step :=
  Log (dr_workflow_id draft) (dr_event_type draft) (dr_summary draft) (dr_detail_pointer draft).

Lemma scripted_append draft : scripted_w (append_event draft) [log_of draft] (λ _, True).
Proof.
  apply traced_safe; [apply safe_append_event|]. intros w Hok. apply wp_append_event; [apply Hok|..].
  - intros e w' Hw' _. exists []. unfold shows. rewrite Hw'. split; [by apply steps_same|].
    split; [apply prefix_nil|done].
  - intros seq w' Hwf Ha. exists [log_of draft]. split; [|done]. by eapply steps_one, step_log.
Qed.

Lemma scripted_now : scripted_w now [] (λ _, True).
Proof. apply scripted_quiet; [apply safe_now|by intros w]. Qed.

Lemma scripted_record id session next et reason :
  record_type next = Ok et → scripted_w (record id session next reason) [Log id et reason None] (λ _, True).
Proof.
  intros Het. unfold record. rewrite Het. apply (scripted_bind _ _ _ _ [] _ (λ a, a = et)).
  { apply traced_lift. split; [done|]. by intros ? [= <-]. }
  intros ? ->. apply (scripted_bind _ _ _ _ [] _ (λ _, True)); [apply scripted_map_err, scripted_now|].
  intros t _. apply scripted_map_err, scripted_append.
Qed.

(** What a resolve does: the rows and the clock decide. *)
Definition resolve_trace (key payload : string) (r : result unit StorageError) (made : list Step) : Prop :=
  match r with Ok _ => made = [Apply key payload] | Err _ => made = [] ∨ made = [Expire key] end.

Lemma traced_resolve key payload : traced_w (resolve_pending_request key payload) (resolve_trace key payload).
Proof.
  apply traced_safe; [apply safe_resolve|]. intros w _. apply wp_resolve. intros t r w' Hsame Hoth Hr.
  assert (status (db w') key = status (db w) key → steps_to (shows w) [] (shows w')) as Hno
    by (intros Hst; by eapply steps_same, same_requests_same).
  assert ((∃ e, status (db w) key = Some (RPending (Some e))) → status (db w') key = Some RExpired →
    steps_to (shows w) [Expire key] (shows w')) as Hex
    by (intros He Hst; apply steps_one; split; [exact He|by apply same_requests_view]).
  destruct Hr as [Hr|(e & -> & _ & [Hst|(e' & He & Hst)])].
  - destruct (status (db w) key) as [[e|p|]|] eqn:Es; cbn in Hr; [destruct (past t e) eqn:Hp|..];
      injection Hr as -> Hst.
    + destruct e as [e|]; [|done]. exists [Expire key]. split; [eauto|by right].
    + exists [Apply key payload]. split; [|done].
      apply steps_one. split; [by exists e|by apply same_requests_view].
    + exists []. split; [auto|by left].
    + exists []. split; [auto|by left].
    + exists []. split; [auto|by left].
  - exists []. split; [auto|by left].
  - exists [Expire key]. split; [eauto|by right].
Qed.

Lemma traced_claim key wf kind expires :
  traced_w (create_pending_request key wf kind expires) (λ r made, made = if is_ok r then [Claim key expires] else []).
Proof.
  apply traced_safe; [apply safe_create_request|]. intros w _. apply wp_create_request.
  - intros e w' Hw' _. exists []. unfold shows. rewrite Hw'. split; [by apply steps_same|done].
  - intros t w' _ Hn Hw'. exists [Claim key expires]. unfold shows. rewrite Hw'.
    split; [by apply steps_one, step_claim|done].
Qed.

Lemma scripted_claim key wf kind expires :
  scripted_w (create_pending_request key wf kind expires) [Claim key expires] (λ _, True).
Proof.
  eapply traced_mono; [apply traced_claim|]. intros [[]|e] made ->; cbn; [done|]. split; [apply prefix_nil|done].
Qed.

Lemma traced_expire :
  traced_w expire_pending_requests (λ r made, (∃ keys, made = Expire <$> keys) ∧ (is_ok r = false → made = [])).
Proof.
  apply traced_safe; [apply safe_expire|]. intros w _. unfold expire_pending_requests, shows.
  sql_step. sql_step. rewrite <-Hw in *. clear Hw. sql_step; [| |].
  - exists []. rewrite Hw. split; [by apply steps_same|]. split; [by exists []|done].
  - done.
  - destruct (expire_all_steps started _ _ _ _ Ha) as [keys Hst]. exists (Expire <$> keys). rewrite Hw.
    split; [exact Hst|]. split; [by exists keys|done].
Qed.

(** The listed entries, at these places of the queue. *)
Definition lists (es : list OutboxEntry) (a : View) (i : nat) : Prop :=
  ∃ e done, e ∈ es ∧ av_outbox a !! i = Some (oe_workflow_id e, oe_seq_no e, done).

Lemma mark_steps es w :
  wp (outbox_mark_published es) (λ _ w', ∃ made, steps_to (shows w) made (shows w') ∧
    ∃ ps, made = Publish <$> ps ∧ ∀ i, i ∈ ps → lists es (shows w) i) w.
Proof.
  assert (∀ d' : Db, Forall2 (may_publish es) (outbox (db w)) (outbox d') → same_but_outbox (db w) d' →
    ∃ made, steps_to (shows w) made (view started d') ∧
      ∃ ps, made = Publish <$> ps ∧ ∀ i, i ∈ ps → lists es (shows w) i) as Hall.
  { intros d' Hm Hsame. destruct (publish_steps es _ _ [] (shows w) Hm) as (ps & Hps & Hin).
    exists (Publish <$> ps). unfold same_but_outbox in Hsame. split.
    { eapply steps_proper; [..|exact Hps]; [done|]. unfold shows. by rewrite <-Hsame. }
    exists ps. split; [done|]. intros i Hi. destruct (Hin i Hi) as (r & Hr & He & _).
    exists (entry_of r), (bool_decide (is_Some (ob_published_at_millis r))). split; [done|].
    cbn in *. rewrite Nat.sub_0_r in Hr. by rewrite list_lookup_fmap, Hr. }
  apply wp_mark_loop; intros x w' Hm Hs _; [|intros _]; by apply Hall.
Qed.

(** *** A delivery of the router *)

Definition deliver_script (key : string) (claims : bool) : list Step :=
  (if claims then [Claim key None] else []) ++ [Apply key ""].

Definition deliver_trace (key : string) (r : result RouteOutcome StorageError) (made : list Step) : Prop :=
  match r with
  | Ok Delivered => ∃ claims, made = deliver_script key claims
  | Ok Duplicate => made = [] ∨ made = [Expire key]
  | Err _ => made = [] ∨ made = [Claim key None] ∨ made = [Expire key]
  end.
Definition shows_rt (rt : InputRouter World) : View := shows (rt_store rt).
Definition sound_rt (rt : InputRouter World) : Prop := sound (rt_store rt).
Abbreviation traced_rt := (traced shows_rt sound_rt).

Lemma traced_on_store {A} (m : StoreM A) T : traced_w m T → traced_rt (on_store m) T.
Proof. intros Hm rt Hrt. apply wp_on_store. by apply Hm. Qed.

Lemma traced_bump (m : ST (InputRouter World) StorageError unit) (a : RouteOutcome) T :
  (∀ rt, m rt = (Ok tt, (m rt).2) ∧ rt_store (m rt).2 = rt_store rt) → T (Ok a) [] →
  traced_rt (st_bind m (λ _, st_ret a)) T.
Proof.
  intros Hm HT. apply (traced_bind _ _ _ _ (λ r made, is_ok r = true ∧ made = [])).
  - intros rt Hrt. destruct (Hm rt) as [E Hst]. unfold wp. rewrite E.
    unfold sound_rt, shows_rt. rewrite Hst. split; [done|]. exists []. split; [by apply steps_same|done].
  - by intros e made [? ->].
  - intros [] made [_ ->]. by apply traced_ret.
Qed.

Lemma claimed_not_expired key a a' : ¬ steps_to a [Claim key None; Expire key] a'.
Proof.
  inversion 1 as [|? ? a1 ? ? Hc Hst]; subst. destruct Hc as [_ (_ & _ & _ & _ & Hr & _)].
  inversion Hst as [|? ? ? ? ? He _]; subst. destruct He as [[e He] _]. rewrite Hr in He. cbn in He.
  unfold insert, fn_insert in He. by rewrite decide_True in He.
Qed.

Lemma traced_deliver wf id : traced_rt (deliver wf id) (deliver_trace (storage_key wf id)).
Proof.
  unfold deliver. case_bool_decide; [apply traced_throw; by left|].
  case_bool_decide; [apply traced_throw; by left|]. cbn [rs_create rs_resolve DbRequestStore]. set (key := storage_key wf id).
  pose proof (traced_on_store _ _ (traced_resolve key "")) as Hres.
  eapply traced_steps with (T := λ r made, deliver_trace key r made ∨ made = [Claim key None; Expire key]); cycle 1.
  { intros r made a a' Hst [HT| ->]; [done|]. by apply claimed_not_expired in Hst. }
  apply (traced_bind _ _ _ _ (λ r made, match r with
    | Ok c => made = if is_ok c then [Claim key None] else [] | Err _ => False end));
    [apply traced_try, traced_on_store, (traced_claim key wf Input None)|done|].
  intros [[]|first] made ->; cbn [is_ok].
  - eapply traced_bind; [exact Hres|intros e made [-> | ->]; [left; right; by left|by right]|].
    intros [] made ->. apply traced_bump; [done|]. left. by exists true.
  - apply (traced_bind _ _ _ _ (λ r made, match r with Ok c => resolve_trace key "" c made | Err _ => False end));
      [apply traced_try, Hres|done|].
    intros [[]|e] made Hm; cbn in Hm; [subst; apply traced_bump; [done|]; left; by exists false|].
    assert (∀ e', deliver_trace key (Err e') made ∧ deliver_trace key (Ok Duplicate) made) as HT
      by (intros; destruct Hm as [-> | ->]; cbn; auto).
    destruct e; first [apply traced_throw; left; rewrite app_nil_r; by apply HT
                      |apply traced_bump; [done|]; left; rewrite app_nil_r; by apply HT].
Qed.
(** ** The agent's calls *)

#[export] Instance final_dec s : Decision (final s).
Proof. unfold final. apply _. Defined.

(** What a call is meant to do, given what its caller sees. *)
Definition op_script (op : AgentOp) (a : View) : list Step :=
  match op with
  | OpCreate id p ttl session =>
      Create id p ttl session ::
      match session with Some s => [Bind id s None] | None => [] end ++
      [Log id AgentStarted "workflow created" None]
  | OpTransition id next reason | OpDisconnect id next reason =>
      match record_type next with Ok et => [Move id next; Log id et reason None] | Err _ => [] end
  | OpReconcile id =>
      match av_flow a id, av_binding a id with
      | Some f, None => if decide (final (fl_state f)) then []
                        else [Move id Failed; Log id ErrorOccurred (recovery_reason id) None]
      | _, _ => []
      end
  | OpBind id session resume => [Bind id session resume]
  | OpSetState id next => [Move id next]
  | OpAppend draft => [log_of draft]
  | OpCreateRequest key _ _ expires => [Claim key expires]
  | _ => []
  end.

(** What a call may have done when it answered, or failed. *)
Definition performs (op : AgentOp) (a : View) (ok : bool) (made : list Step) : Prop :=
  match op with
  | OpResolve key payload => if ok then made = [Apply key payload] else made = [] ∨ made = [Expire key]
  | OpExpire => (∃ keys, made = Expire <$> keys) ∧ (ok = false → made = [])
  | OpMark es => ∃ ps, made = Publish <$> ps ∧ ∀ i, i ∈ ps → lists es a i
  | _ => made `prefix_of` op_script op a ∧ (ok = true → made = op_script op a)
  end.

Definition answered {E A} (m : ST World E A) (w : World) : bool := is_ok (m w).1.

(** Whether a call succeeds. *)
Definition op_ok (op : AgentOp) (w : World) : bool :=
  match op with
  | OpOpen => answered manager_open w
  | OpMigrate => answered migrate w
  | OpCreate id p ttl session => answered (manager_create_workflow id p ttl session) w
  | OpTransition id next reason => answered (transition id next reason) w
  | OpDisconnect id next reason => answered (transition_on_disconnect id next reason) w
  | OpProject id => answered (project_on_disconnect id) w
  | OpReconcile id => answered (reconcile id) w
  | OpBind id session resume => answered (bind id session resume) w
  | OpLookup id => answered (lookup_binding id) w
  | OpSetState id next => answered (set_workflow_state id next) w
  | OpAppend draft => answered (append_event draft) w
  | OpReplay id after_seq lim => answered (events_after id after_seq lim) w
  | OpStats id => answered (ring_stats id) w
  | OpDrain lim => answered (outbox_drain lim) w
  | OpMark es => answered (outbox_mark_published es) w
  | OpPendingCount => answered outbox_pending_count w
  | OpCreateRequest request_id id kind expires => answered (create_pending_request request_id id kind expires) w
  | OpResolve request_id payload => answered (resolve_pending_request request_id payload) w
  | OpExpire => answered expire_pending_requests w
  end.

Lemma scripted_manager_create id p ttl session a :
  scripted_w (manager_create_workflow id p ttl session) (op_script (OpCreate id p ttl session) a) (λ _, True).
Proof.
  unfold manager_create_workflow, from_storage. do 3 (case_bool_decide; [apply scripted_throw|]).
  cbn [op_script]. apply (scripted_bind _ _ _ _ [_] _ (λ row, workflow_id row = id));
    [apply scripted_map_err, scripted_create|]. intros row Hid.
  apply (scripted_bind _ _ _ _ _ _ (λ _, True)).
  - destruct session; [apply scripted_map_err, scripted_upsert|by apply scripted_ret].
  - intros _ _. rewrite Hid. apply (scripted_bind _ _ _ _ [_] [] (λ _, True));
      [by apply scripted_record|]. intros _ _. by apply scripted_ret.
Qed.

Lemma scripted_transition id next reason a :
  scripted_w (transition id next reason) (op_script (OpTransition id next reason) a) (λ _, True).
Proof.
  unfold transition, from_storage. apply (scripted_bind _ _ _ _ [] _ (λ _, is_persistable next = true)).
  { apply traced_lift. split; [apply prefix_nil|]. rewrite check_storable_spec.
    destruct (is_persistable next) eqn:Hp; [done|].
    destruct (check_storable_refuses next Hp) as [m ->]. done. }
  intros _ Hp. apply (scripted_bind _ _ _ _ [] _ (λ _, True)).
  { apply traced_lift. split; [apply prefix_nil|done]. }
  intros _ _. destruct (record_type_storable next Hp) as [et Het]. cbn [op_script]. rewrite Het.
  apply (scripted_bind _ _ _ _ [_] _ (λ row, workflow_id row = id)); [apply scripted_map_err, scripted_set_state|].
  intros row Hid. rewrite Hid. apply (scripted_bind _ _ _ _ [_] [] (λ _, True)); [by apply scripted_record|].
  intros _ _. by apply scripted_ret.
Qed.

Lemma scripted_bind_session id session resume :
  scripted_w (bind id session resume) [Bind id session resume] (λ _, True).
Proof.
  unfold bind. do 2 (case_bool_decide; [apply scripted_throw|]).
  apply (scripted_bind _ _ _ _ [] _ (λ _, True)).
  - apply scripted_quiet; [unfold get_workflow; eauto with calcar|apply keeps_reads_only, reads_only_get_workflow].
  - intros found _. case_bool_decide; [apply scripted_throw|apply scripted_upsert].
Qed.
(** Recovery, from what it does to the tables. *)
Lemma reconcile_steps id w :
  sound w → wp (reconcile id) (λ r w', ∃ made, steps_to (shows w) made (shows w') ∧
    performs (OpReconcile id) (shows w) (is_ok r) made) w.
Proof.
  intros Hok. eapply wp_mono; [by apply wp_reconcile|]. cbn beta. intros r w' Hr.
  assert (∀ row, workflows (db w) !! id = Some row → final (fl_state (flow_of row)) ↔ terminal row) as Hfin.
  { intros row Hrow. destruct (ok_workflows _ Hok _ _ Hrow) as (_ & (s & _ & Hs) & _).
    rewrite (terminal_iff _ _ Hs). unfold final. cbn. rewrite Hs, state_from_i32_i32. naive_solver. }
  assert (∀ script, db w' = db w → ∃ made, steps_to (shows w) made (shows w') ∧
    made `prefix_of` script ∧ made = []) as Hno.
  { intros script E. exists []. unfold shows. rewrite E. split; [by apply steps_same|]. by split; [apply prefix_nil|]. }
  assert (∀ row t, workflows (db w) !! id = Some row → ¬ terminal row →
    step_to (Move id Failed) (shows w)
      (view started (stored_state (set_state_row (state_i32 Failed) t row) (db w)))) as Hmove.
  { intros row t Hrow Ht. unfold stored_state, shows. cbn [workflow_id set_state_row].
    destruct (ok_workflows _ Hok _ _ Hrow) as [-> _]. by apply step_move; [apply Hok|..]. }
  unfold performs, op_script. change (av_flow (shows w) id) with (flow_of <$> workflows (db w) !! id).
  change (av_binding (shows w) id) with (bound <$> session_bindings (db w) !! id).
  destruct r as [[session resume n last_seq|reason|s]|[m|e]]; cbn [reconcile_result is_ok] in *.
  - destruct Hr as (E & (row & Hrow & Ht) & (b & Hb & _) & _).
    edestruct (Hno []) as (made & Hst & Hp & ->); [done|]. exists []. split; [done|]. rewrite Hrow, Hb. done.
  - destruct Hr as (_ & Hb & row & t & occ & seq & Hrow & Ht & Ha).
    exists [Move id Failed; Log id ErrorOccurred (recovery_reason id) None].
    rewrite Hrow, Hb. cbn. rewrite decide_False by by rewrite (Hfin _ Hrow). split; [|done].
    eapply steps_more; [by eapply Hmove|]. apply steps_one. refine (step_log started _ _ _ _ _ Ha).
    cbn. destruct (ok_workflows _ Hok _ _ Hrow) as [-> _]. rewrite lookup_insert_eq. by eexists.
  - destruct Hr as (E & row & Hrow & Ht & Hs). edestruct (Hno []) as (made & Hst & Hp & ->); [done|].
    exists []. split; [done|]. rewrite Hrow. cbn. rewrite decide_True by by apply Hfin.
    by destruct (bound <$> _).
  - done.
  - destruct Hr as [(E & _)|(_ & [E|(Hb & row & t & Hrow & Ht & E)])].
    + edestruct Hno as (made & Hst & Hp & ->); [done|]. exists []. split; [done|]. split; [exact Hp|done].
    + edestruct Hno as (made & Hst & Hp & ->); [done|]. exists []. split; [done|]. split; [exact Hp|done].
    + exists [Move id Failed]. rewrite Hrow, Hb. cbn. rewrite decide_False by by rewrite (Hfin _ Hrow).
      split; [unfold shows at 2; rewrite E; by apply steps_one, Hmove|]. split; [|done].
      by exists [Log id ErrorOccurred (recovery_reason id) None].
Qed.

Lemma performs_traced {E A} op (m : ST World E A) w T :
  traced_w m T → sound w → run_op op w = (m w).2 → op_ok op w = is_ok (m w).1 →
  (∀ r made, T r made → performs op (shows w) (is_ok r) made) →
  sound (run_op op w) ∧ ∃ made, steps_to (shows w) made (shows (run_op op w)) ∧
    performs op (shows w) (op_ok op w) made.
Proof.
  intros Hm Hw -> -> HT. pose proof (wp_run _ _ _ (Hm w Hw)) as (Hs & made & Hst & H).
  split; [done|]. exists made. split; [done|]. by apply HT.
Qed.
Lemma keeps_project id : keeps_tables (project_on_disconnect id).
Proof.
  unfold project_on_disconnect, load_state, from_storage.
  repeat first [apply keeps_bind; [|intros ?] | apply keeps_map_err, keeps_reads_only, reads_only_get_workflow
    | apply keeps_ret | by intros ? | match goal with |- keeps_tables (match ?x with _ => _ end) => destruct x end].
Qed.

Lemma keeps_select {A} (f : Db → A) : keeps_tables (select f).
Proof. apply keeps_reads_only, reads_only_query. Qed.

Lemma keeps_stats id : keeps_tables (ring_stats id).
Proof.
  unfold ring_stats. repeat first [apply keeps_bind; [apply keeps_select|intros ?] | apply keeps_ret | apply keeps_select
    | match goal with |- keeps_tables (match ?x with _ => _ end) => destruct x end].
Qed.

(** A call that only looks. *)
Lemma performs_quiet {E A} op (m : ST World E A) w :
  safe m → keeps_tables m → sound w → run_op op w = (m w).2 → op_ok op w = is_ok (m w).1 →
  (∀ a ok, performs op a ok []) →
  sound (run_op op w) ∧ ∃ made, steps_to (shows w) made (shows (run_op op w)) ∧
    performs op (shows w) (op_ok op w) made.
Proof.
  intros Hs Hk Hw Hr Ho Hp. eapply performs_traced; [by apply scripted_quiet|done..|].
  intros r made [->%prefix_nil_inv _]. apply Hp.
Qed.

(** A call with a script of its own. *)
Definition scripted_op (op : AgentOp) : bool :=
  match op with OpResolve _ _ | OpExpire | OpMark _ => false | _ => true end.

Lemma performs_scripted {E A} op (m : ST World E A) w P :
  scripted_w m (op_script op (shows w)) P → scripted_op op = true → sound w →
  run_op op w = (m w).2 → op_ok op w = is_ok (m w).1 →
  sound (run_op op w) ∧ ∃ made, steps_to (shows w) made (shows (run_op op w)) ∧
    performs op (shows w) (op_ok op w) made.
Proof.
  intros Hm Hop Hw Hr Ho. eapply performs_traced; [exact Hm|done..|]. intros r made [Hpre Hfull].
  assert (made `prefix_of` op_script op (shows w) ∧ (is_ok r = true → made = op_script op (shows w))) as H.
  { split; [done|]. intros Hok. destruct r as [a|e]; [|done]. by destruct (Hfull a eq_refl). }
  by destruct op.
Qed.

Lemma scripted_disconnect id next reason a :
  scripted_w (transition_on_disconnect id next reason) (op_script (OpTransition id next reason) a) (λ _, True).
Proof.
  unfold transition_on_disconnect. case_bool_decide; [apply scripted_throw|apply scripted_transition].
Qed.

Lemma op_performs op w :
  sound w → sound (run_op op w) ∧ ∃ made, steps_to (shows w) made (shows (run_op op w)) ∧
    performs op (shows w) (op_ok op w) made.
Proof.
  intros Hw. destruct op.
  - apply (performs_quiet _ manager_open); [apply safe_manager_open|apply keeps_manager_open|done..].
  - apply (performs_quiet _ migrate); [apply safe_migrate|apply keeps_migrate|done..].
  - by eapply performs_scripted; [apply (scripted_manager_create _ _ _ _ _)|..].
  - by eapply performs_scripted; [apply (scripted_transition _ _ _ _)|..].
  - by eapply performs_scripted; [apply (scripted_disconnect id next reason (shows w))|..].
  - apply (performs_quiet _ (project_on_disconnect id)); [apply safe_project|apply keeps_project|done..].
  - split; [by apply run_op_good|]. exact (wp_run _ _ _ (reconcile_steps id w Hw)).
  - by eapply performs_scripted; [apply scripted_bind_session|..].
  - apply (performs_quiet _ (lookup_binding id)); [apply safe_lookup|apply keeps_lookup|done..].
  - by eapply performs_scripted; [apply scripted_set_state|..].
  - by eapply performs_scripted; [apply scripted_append|..].
  - apply (performs_quiet _ (events_after id after_seq lim)); [apply safe_select|apply keeps_select|done..].
  - apply (performs_quiet _ (ring_stats id)); [apply safe_stats|apply keeps_stats|done..].
  - apply (performs_quiet _ (outbox_drain lim)); [apply safe_select|apply keeps_select|done..].
  - split; [by apply run_op_good|]. exact (wp_run _ _ _ (mark_steps es w)).
  - apply (performs_quiet _ outbox_pending_count); [apply safe_select|apply keeps_select|done..].
  - by eapply performs_scripted; [apply scripted_claim|..].
  - eapply performs_traced; [apply traced_resolve|done..|]. by intros [a|e] made H.
  - by eapply performs_traced; [apply traced_expire|..].
Qed.
End Storage.

(** ** The server *)

Section Requests.
Context {env : Env} {host : Host} {paths : Paths} {header_names : HeaderNames}.

Definition server_shows (s : Server) : View := view (sv_runs s) (db (sv_world s)).
Definition server_sound (s : Server) : Prop := store_ok (db (sv_world s)).

Abbreviation traced_s := (traced server_shows server_sound).
Abbreviation scripted_s := (scripted server_shows server_sound).

Lemma traced_on_world {E A} (m : ST World E A) T :
  (∀ started, traced (shows started) sound m T) → traced_s (on_world m) T.
Proof. intros Hm s Hs. apply wp_on_world. by apply Hm. Qed.

(** A part that leaves the store and the started commands alone. *)
Lemma scripted_aside {E A} (m : ServerM E A) :
  (∀ s, sv_world (m s).2 = sv_world s ∧ sv_runs (m s).2 = sv_runs s) → scripted_s m [] (λ _, True).
Proof.
  intros Hm s Hs. apply wp_of. intros r s' Hrun. specialize (Hm s). rewrite Hrun in Hm. cbn in Hm.
  unfold server_sound, server_shows in *. destruct Hm as [-> ->]. split; [done|]. exists [].
  split; [by apply steps_same|done].
Qed.

Lemma scripted_world {E A} (m : ST World E A) :
  safe m → keeps_tables m → scripted_s (on_world m) [] (λ _, True).
Proof. intros Hs Hk. apply traced_on_world. intros started. by apply scripted_quiet. Qed.

Lemma scripted_500 {A} (m : StoreM A) :
  safe m → keeps_tables m → scripted_s (storage_500 m) [] (λ _, True).
Proof. intros Hs Hk. by apply scripted_map_err, scripted_world. Qed.

Lemma scripted_lifecycle_500 {A} (m : LifecycleM A) :
  safe m → keeps_tables m → scripted_s (lifecycle_500 m) [] (λ _, True).
Proof. intros Hs Hk. by apply scripted_map_err, scripted_world. Qed.

Lemma scripted_remember {A} wf (r : A) :
  scripted_s (let* _ := touch wf in let* _ := persist_registry in st_ret (E:=Response) r) [] (λ a, a = r).
Proof.
  apply (scripted_bind _ _ _ _ [] [] (λ _, True)); [by apply scripted_aside|]. intros _ _.
  apply (scripted_bind _ _ _ _ [] [] (λ _, True)); [|intros _ _; by apply scripted_ret].
  apply scripted_aside. intros s. unfold persist_registry, fs_write. by destruct (io_fault (sv_calls s)).
Qed.

Lemma scripted_open_storage : scripted_s (storage_500 open_storage) [] (λ _, True).
Proof. apply scripted_500; [apply safe_open_storage|apply keeps_open_storage]. Qed.

(** *** An input *)

(** The events of a run. *)
Definition run_logs (wf id : string) (destructive : bool) (o : ExecOutcome) (path : string) (cut : bool) : list Step :=
  let '(first, last) := run_drafts wf id None o destructive path cut 0 0 in [log_of first; log_of last].

Lemma scripted_record_run wf id session o destructive :
  traced_s (record_run wf id session o destructive) (λ r made, ∃ path cut,
    made `prefix_of` run_logs wf id destructive o path cut ∧
    ∀ cut', r = Ok cut' → cut' = cut ∧ made = run_logs wf id destructive o path cut).
Proof.
  unfold record_run. apply (traced_bind _ _ _ _ (λ _ made, made = [])).
  { apply traced_map_err. eapply traced_mono; [apply scripted_aside|by intros r made [->%prefix_nil_inv _]].
    intros s. unfold write_tail, st_bind, st_get, fs_create_dir, fs_write, st_ret. cbn.
    destruct (tail_file o), (io_fault (sv_calls s)); cbn; [done|]. by destruct (io_fault _). }
  { intros e made ->. exists "", false. split; [apply prefix_nil|done]. }
  intros [path cut] made ->. cbn [app].
  apply (traced_mono _ _ _ (λ r made, made `prefix_of` run_logs wf id destructive o path cut ∧
    ∀ a, r = Ok a → made = run_logs wf id destructive o path cut ∧ a = cut)); cycle 1.
  { intros r made' [Hp H]. exists path, cut. split; [done|]. intros cut' Hr. by destruct (H _ Hr). }
  apply (scripted_bind _ _ _ _ [] _ (λ _, True)).
  { apply scripted_map_err, scripted_world; [apply safe_now|by intros w]. } intros t1 _.
  apply (scripted_bind _ _ _ _ [] _ (λ _, True)).
  { apply scripted_map_err, scripted_world; [apply safe_now|by intros w]. } intros t2 _.
  cbn zeta beta iota delta [run_drafts run_logs].
  apply (scripted_bind _ _ _ _ [_] [_] (λ _, True)).
  { apply scripted_map_err, traced_on_world. intros started.
    eapply traced_mono; [apply scripted_append|done]. } intros _ _.
  apply (scripted_bind _ _ _ _ [_] [] (λ _, True)); [|intros _ _; by apply scripted_ret].
  apply scripted_map_err, traced_on_world. intros started.
  eapply traced_mono; [apply scripted_append|done].
Qed.
Lemma traced_deliver_once wf id started :
  traced (shows started) sound (deliver_once wf id) (deliver_trace (storage_key wf id)).
Proof.
  intros w Hw. unfold wp, deliver_once. pose proof (traced_deliver started wf id (router_new w) Hw) as H.
  unfold wp in H. by destruct (deliver wf id (router_new w)) as [r rt].
Qed.

Lemma delivered_resolved wf id w :
  wp (deliver_once wf id) (λ r w', r = Ok Delivered → status (db w') (storage_key wf id) = Some (RResolved "")) w.
Proof.
  unfold wp, deliver_once. pose proof (wp_run _ _ _ (deliver_ok wf id (router_new w))) as [[_ Hr] _].
  destruct (deliver wf id (router_new w)) as [r rt]. cbn in *. by intros ->; destruct Hr as (_ & -> & _).
Qed.

(** What an applied input still has to do. *)
Definition run_script (wf id text : string) (destructive : bool) (o : ExecOutcome) (path : string)
    (cut : bool) : list Step :=
  Start wf id text :: run_logs wf id destructive o path cut.

Definition run_trace (wf id text : string) (destructive : bool) (r : result Response Response)
    (made : list Step) : Prop :=
  ∃ o path cut, made `prefix_of` run_script wf id text destructive o path cut ∧
    ∀ response, r = Ok response →
      response = delivered_response id o cut ∧ made = run_script wf id text destructive o path cut.

Lemma traced_record id wf session o destructive text :
  traced_s (let* _ := storage_500 open_storage in
            let* truncated := st_map_err (error_body 500 "EXEC_RECORD_FAILED")
                                (record_run wf id session o destructive) in
            let* _ := touch wf in
            let* _ := persist_registry in
            st_ret (delivered_response id o truncated))
    (λ r made, run_trace wf id text destructive r (Start wf id text :: made)).
Proof.
  assert (∀ e path cut made, made `prefix_of` run_logs wf id destructive o path cut →
    run_trace wf id text destructive (Err e) (Start wf id text :: made)) as Herr.
  { intros e path cut made Hp. exists o, path, cut. split; [by apply prefix_cons|done]. }
  apply (traced_bind _ _ _ _ _ _ scripted_open_storage).
  { intros e made [->%prefix_nil_inv _]. by apply (Herr e "" false), prefix_nil. }
  intros _ made [->%prefix_nil_inv _]. cbn [app].
  apply (traced_bind _ _ _ _ (λ r made, ∃ path cut, made `prefix_of` run_logs wf id destructive o path cut ∧
    ∀ cut', r = Ok cut' → cut' = cut ∧ made = run_logs wf id destructive o path cut)).
  { apply traced_map_err. eapply traced_mono; [apply scripted_record_run|].
    intros r made (path & cut & Hp & H). exists path, cut. split; [done|]. intros cut' E. apply H.
    destruct r; [by injection E as ->|done]. }
  { intros e made (path & cut & Hp & _). by eapply Herr. }
  intros cut' made (path & cut & Hp & H). destruct (H cut' eq_refl) as [-> ->].
  eapply traced_mono; [apply scripted_remember|]. intros r made' [->%prefix_nil_inv Hr].
  exists o, path, cut. rewrite app_nil_r. split; [done|]. intros response E. by destruct (Hr _ E) as [_ ->].
Qed.

Lemma run_generic_started body run o : (run_generic body run).1 = Ok o → (run_generic body run).2 = true.
Proof. unfold run_generic. repeat case_match; by try done. Qed.

Lemma wp_run_applied wf id text destructive session s :
  server_sound s → status (db (sv_world s)) (storage_key wf id) = Some (RResolved "") →
  wp (let* o := st_map_err exec_error (run_command wf id text) in
      let* _ := storage_500 open_storage in
      let* truncated := st_map_err (error_body 500 "EXEC_RECORD_FAILED")
                          (record_run wf id session o destructive) in
      let* _ := touch wf in
      let* _ := persist_registry in
      st_ret (delivered_response id o truncated))
    (λ r s', server_sound s' ∧ ∃ made, steps_to (server_shows s) made (server_shows s') ∧
       (made = [] ∧ is_ok r = false ∨ run_trace wf id text destructive r made)) s.
Proof.
  intros Hs Hst. apply wp_bind, wp_map_err. unfold wp at 1, run_command.
  destruct (run_generic text (exec_run (sv_attempts s))) as [r started] eqn:Hrun.
  assert (step_to (Start wf id text) (server_shows s)
    (server_shows (set_runs (sv_runs s ++ [mk_started wf id text]) s))) as Hstart by by split.
  destruct r as [o|e]; cbn [map_err].
  - pose proof (run_generic_started text (exec_run (sv_attempts s)) o) as Hsome.
    rewrite Hrun in Hsome. specialize (Hsome eq_refl). cbn in Hsome. subst started.
    eapply wp_mono; [by apply (traced_record id wf session o destructive text)|].
    intros r s' (Hs' & made & Hm & HT). split; [done|]. exists (Start wf id text :: made).
    split; [by eapply steps_more|by right].
  - split; [by destruct started|]. destruct started.
    + exists [Start wf id text]. split; [by apply steps_one|]. right. exists (mk_outcome 0 "" "" false), "", false.
      split; [|done]. by eexists.
    + exists []. split; [by apply steps_same; destruct s|by left].
Qed.

(** What an input with these fields may have done when it is answered. *)
Definition input_trace (wf id text : string) (destructive : bool) (r : result Response Response)
    (made : list Step) : Prop :=
  let key := storage_key wf id in
  (made = [] ∨ made = [Expire key]) ∧ (∀ response, r = Ok response → response = duplicate_response id) ∨
  ∃ claims o path cut,
    let script := deliver_script key claims ++ run_script wf id text destructive o path cut in
    made `prefix_of` script ∧ ∀ response, r = Ok response → response = delivered_response id o cut ∧ made = script.

Lemma traced_generic_input wf id text destructive session :
  traced_s (generic_input wf id text destructive session) (input_trace wf id text destructive).
Proof.
  unfold generic_input. apply (traced_bind _ _ _ _ _ _ scripted_open_storage).
  { intros e made [->%prefix_nil_inv _]. left. split; [by left|done]. }
  intros _ made [->%prefix_nil_inv _]. cbn [app]. intros s Hs. apply wp_bind, wp_map_err, wp_on_world.
  pose proof (traced_deliver_once wf id (sv_runs s) (sv_world s) Hs) as Htrace.
  pose proof (delivered_resolved wf id (sv_world s)) as Happlied.
  apply wp_of. intros r w Hrun. destruct (wp_eq _ _ _ _ _ Hrun Htrace) as (Hs1 & made & Hst & HT).
  pose proof (wp_eq _ _ _ _ _ Hrun Happlied) as Hrow. cbn beta in Hrow. clear Htrace Happlied Hrun.
  destruct r as [[]|e]; cbn [map_err deliver_trace] in *.
  - destruct HT as [claims ->]. eapply wp_mono.
    + apply (wp_run_applied wf id text destructive session); [exact Hs1|by apply Hrow].
    + intros r s' (Hs' & made & Hst' & HT). split; [done|]. exists (deliver_script (storage_key wf id) claims ++ made).
      split; [by eapply steps_app|]. right. exists claims. destruct HT as [[-> He]|(o & path & cut & Hp & HT)].
      * exists (mk_outcome 0 "" "" false), "", false. split; [apply prefix_app, prefix_nil|]. by intros response ->.
      * exists o, path, cut. split; [by apply prefix_app|]. intros response E. by destruct (HT _ E) as [-> ->].
  - eapply wp_mono; [by apply scripted_remember|]. intros r s' (Hs' & made' & Hst' & ->%prefix_nil_inv & Hr).
    split; [done|]. exists (made ++ []). split; [by eapply steps_app|]. rewrite app_nil_r. left. split; [done|].
    intros response E. by destruct (Hr _ E) as [_ ->].
  - split; [done|]. exists made. split; [done|]. unfold input_trace. cbn zeta.
    destruct HT as [->|[->| ->]]; [left; split; [by auto|done]| |left; split; [by auto|done]]. right.
    exists true, (mk_outcome 0 "" "" false), "", false. split; [|done].
    unfold deliver_script. apply prefix_cons, prefix_nil.
Qed.
(** The checks and reads before the provider is known. *)
Lemma traced_input_fields request :
  traced_s (input_fields request) (λ r made, made = [] ∧
    ∀ id text d, r = Ok (id, text, d) → input_accepted request id text d).
Proof.
  intros s Hs. unfold wp.
  destruct (input_fields_cases request s) as [(id & text & d & -> & Hacc)|(r & -> & _)];
    (split; [done|]; exists []; split; [by apply steps_same|]; split; [done|]); [|done].
  by intros ? ? ? [= <- <- <-].
Qed.

Lemma scripted_provider_gate wf : scripted_s (provider_gate wf) [] (λ _, True).
Proof.
  unfold provider_gate, open_manager. apply (scripted_bind _ _ _ _ [] [] (λ _, True)).
  { apply scripted_lifecycle_500; [apply safe_manager_open|apply keeps_manager_open]. } intros _ _.
  apply (scripted_bind _ _ _ _ [] [] (λ _, True)).
  { apply scripted_lifecycle_500; [|apply keeps_manager_get]. unfold manager_get_workflow, from_storage, get_workflow.
    apply safe_map_err, safe_select. }
  intros [row|] _; [by apply scripted_ret|apply scripted_throw].
Qed.

Lemma scripted_interactive wf :
  scripted_s (interactive_input_501 wf) [] (λ response, rp_status response = 501%Z).
Proof.
  unfold interactive_input_501. apply (scripted_bind _ _ _ _ [] [] (λ _, True)); [apply scripted_open_storage|].
  intros _ _. apply (scripted_bind _ _ _ _ [] [] (λ _, True)); [|intros; by apply scripted_ret].
  eapply scripted_try, scripted_world; [apply safe_lookup|apply keeps_lookup].
Qed.

(** What an input may have done when it is answered: nothing, or some first
    steps of its script; a 200 means all of it, or a repeat. *)
Definition input_performs (request : Request) (wf : string) (response : Response) (made : list Step) : Prop :=
  made = [] ∧ rp_status response ≠ 200%Z ∨
  ∃ id text destructive, input_accepted request id text destructive ∧
    let key := storage_key wf id in
    ((made = [] ∨ made = [Expire key]) ∧ (rp_status response = 200%Z → response = duplicate_response id) ∨
     ∃ claims o path cut,
       let script := deliver_script key claims ++ run_script wf id text destructive o path cut in
       made `prefix_of` script ∧
       (rp_status response = 200%Z → response = delivered_response id o cut ∧ made = script)).

Definition error_statuses : list Z := [400; 404; 409; 410; 413; 500; 501; 504]%Z.

Lemma input_errors request wf : statuses (λ _, True) error_statuses (handle_input request wf).
Proof.
  unfold handle_input, input_fields, provider_gate, interactive_input_501, generic_input, refuse_when.
  status_steps.
Qed.

Lemma error_not_200 request wf s response s' :
  handle_input request wf s = (Err response, s') → rp_status response ≠ 200%Z.
Proof.
  intros Hrun H. pose proof (input_errors request wf s) as He. rewrite Hrun in He. cbn in He. rewrite H in He.
  by apply (bool_decide_eq_true_2 _) in He.
Qed.

Lemma traced_input request wf s :
  server_sound s → wp (handle_input request wf) (λ r s', server_sound s' ∧
    ∃ made, steps_to (server_shows s) made (server_shows s') ∧ input_performs request wf (response_of r) made) s.
Proof.
  intros Hs.
  assert (traced_s (handle_input request wf) (λ r made,
    made = [] ∧ (∀ response, r = Ok response → rp_status response = 501%Z) ∨
    ∃ id text d, input_accepted request id text d ∧ input_trace wf id text d r made)) as Hm.
  { unfold handle_input. apply (traced_bind _ _ _ _ _ _ (traced_input_fields request)).
    { intros e made [-> _]. by left. }
    intros [[id text] d] made [-> Hacc]. specialize (Hacc id text d eq_refl). cbn [app].
    apply (traced_bind _ _ _ _ _ _ (scripted_provider_gate wf)).
    { intros e made [->%prefix_nil_inv _]. by left. }
    intros [p session] made [->%prefix_nil_inv _]. cbn [app]. case_bool_decide.
    - eapply traced_mono; [apply scripted_interactive|]. intros r made [->%prefix_nil_inv H']. left.
      split; [done|]. intros response E. by destruct (H' _ E).
    - eapply traced_mono; [apply traced_generic_input|]. intros r made H'. right. by exists id, text, d. }
  apply wp_of. intros r s' Hrun. destruct (wp_eq _ _ _ _ _ Hrun (Hm s Hs)) as (Hs' & made & Hst & HT).
  split; [done|]. exists made. split; [done|].
  assert (rp_status (response_of r) = 200%Z → r = Ok (response_of r)) as H200.
  { destruct r as [a|e]; [done|]. intros H. by destruct (error_not_200 _ _ _ _ _ Hrun). }
  destruct HT as [[-> H]|(id & text & d & Hacc & HT)].
  - left. split; [done|]. intros E. pose proof (H _ (H200 E)) as H5. congruence.
  - right. exists id, text, d. split; [done|]. cbn zeta. destruct HT as [[Hm' H]|(claims & o & path & cut & Hp & H)].
    + left. split; [done|]. intros E. by apply H, H200.
    + right. exists claims, o, path, cut. split; [done|]. intros E. by apply H, H200.
Qed.
(** *** An approval *)

Definition approval_performs (request : Request) (response : Response) (made : list Step) : Prop :=
  made = [] ∧ rp_status response ≠ 200%Z ∨
  ∃ id allow, approval_accepted request id allow ∧
    (made = [Apply id (verdict allow)] ∧ response = approval_response id (verdict allow) ∨
     made = [Expire id] ∧ rp_status response ≠ 200%Z).

Lemma traced_settle id wf allow :
  traced_s (settle id wf allow) (λ r made,
    made = [] ∧ rp_status (response_of r) ≠ 200%Z ∨
    made = [Apply id (verdict allow)] ∧ response_of r = approval_response id (verdict allow) ∨
    made = [Expire id] ∧ rp_status (response_of r) ≠ 200%Z).
Proof.
  unfold settle. apply (traced_bind _ _ _ _ (λ r made, match r with
    | Ok c => resolve_trace id (verdict allow) c made | Err _ => False end)).
  { apply traced_try, traced_on_world. intros started. apply traced_resolve. }
  { done. }
  intros [[]|e] made HT; cbn [resolve_trace] in HT.
  - subst made. apply (traced_mono _ _ _ (λ r made, made = [] ∧ r = Ok (approval_response id (verdict allow)))).
    + intros s Hs. unfold wp, st_bind, touch, modify, persist_registry, fs_write, st_ret. cbn.
      destruct (io_fault (sv_calls s)); (split; [done|]); exists []; (split; [by apply steps_same|done]).
    + intros r made [-> ->]. auto.
  - apply traced_ret. rewrite app_nil_r.
    assert (rp_status (approval_error e) ≠ 200%Z) as Hn by by destruct e.
    destruct HT as [-> | ->]; cbn; auto.
Qed.
(** The tables decide whether the store is sound, and with the commands what
    it shows. *)
Definition looked (s s' : Server) : Prop :=
  tables (db (sv_world s')) = tables (db (sv_world s)) ∧ sv_runs s' = sv_runs s.

Lemma looked_steps s s' :
  looked s s' → server_sound s → server_sound s' ∧ steps_to (server_shows s) [] (server_shows s').
Proof.
  intros [Ht Hr] Hs. split; [|apply steps_same; symmetry; unfold server_shows; rewrite Hr; by apply view_tables].
  unfold server_sound in *. unfold tables in Ht. injection Ht as H1 H2 H3 H4 H5 H6. clear Hr.
  generalize dependent (db (sv_world s')). generalize dependent (db (sv_world s)). clear s s'.
  intros d [A B C D E] d' H1 H2 H3 H4 H5 H6.
  split; unfold workflows_ok, events_of in *; rewrite ?H1, ?H2, ?H4, ?H6; try done.
  - intros wf. destruct (B wf) as [B1 B2 B3 B4 B5 B6 B7].
    split; unfold newest, cut, dropped, events_of, outbox_of in *; rewrite ?H2, ?H3, ?H5; done.
  - eapply map_Forall_impl; [exact C|]. intros k r [C1 C2 C3 C4]. split; rewrite ?H1; done.
Qed.

Lemma untouched_looked s s' : untouched s s' → looked s s'.
Proof. by intros [Ht Hr _ _ _]. Qed.

Lemma traced_approval request wf s :
  server_sound s → wp (handle_approval request wf) (λ r s', server_sound s' ∧
    ∃ made, steps_to (server_shows s) made (server_shows s') ∧ approval_performs request (response_of r) made) s.
Proof.
  intros Hs. apply (wp_approval request wf (λ response s', server_sound s' ∧
    ∃ made, steps_to (server_shows s) made (server_shows s') ∧ approval_performs request response made)).
  - intros response _ Hst. split; [done|]. exists []. split; [by apply steps_same|]. left. split; [done|].
    destruct Hst; congruence.
  - intros id allow response s' _ [Hi%untouched_looked _] Hst _.
    destruct (looked_steps _ _ Hi Hs) as [Hs' Hst']. split; [done|]. exists []. split; [done|]. left. split; [done|]. intros E. rewrite E in Hst.
    by apply (bool_decide_eq_true_2 _) in Hst.
  - intros id allow s1 Hacc [Hi%untouched_looked _] _. destruct (looked_steps _ _ Hi Hs) as [Hs1 Hst1].
    eapply wp_mono; [by apply traced_settle|]. intros r s' (Hs' & made & Hst & HT). split; [done|].
    exists made. split; [exact (steps_app _ [] _ _ _ Hst1 Hst)|].
    destruct HT as [[-> H]|[[-> H]|[-> H]]]; [by left|right; exists id, allow; auto..].
Qed.

(** *** Requests and restarts *)

(** What a request may have done when it is answered. *)
Definition reply_performs (request : Request) (response : Response) (made : list Step) : Prop :=
  match route (hr_method request) (hr_url request) with
  | InputRoute wf => input_performs request wf response made
  | ApprovalRoute _ => approval_performs request response made
  | _ => made = []
  end.

Lemma reply_looked request s :
  match route (hr_method request) (hr_url request) with
  | InputRoute _ | ApprovalRoute _ => True
  | r => looked s (dispatch_route request r s).2
  end.
Proof.
  destruct (route _ _) as [query|id|id|computer wf|wf|wf|]; try exact I; cbn [dispatch_route]; try done.
  - apply untouched_looked, computer_read.
  - apply untouched_looked, sysinfo_read.
  - by destruct (snapshot_read computer wf s).
Qed.

Lemma reply_steps request s :
  server_sound s → let '(response, s') := reply request s in server_sound s' ∧
    ∃ made, steps_to (server_shows s) made (server_shows s') ∧
      if bearer_ok request (sv_token s) then reply_performs request response made else made = [].
Proof.
  intros Hs. destruct (bearer_ok request (sv_token s)) eqn:Hb; cycle 1.
  { unfold reply. rewrite Hb. cbn [negb]. split; [done|]. exists []. split; [by apply steps_same|done]. }
  apply (wp_reply request _ (λ response s', server_sound s' ∧ ∃ made,
    steps_to (server_shows s) made (server_shows s') ∧ reply_performs request response made) s Hb eq_refl).
  pose proof (reply_looked request s) as Hl. unfold reply_performs.
  destruct (route _ _) as [query|id|id|computer wf|wf|wf|];
    [| | | |by apply traced_approval|by apply traced_input|].
  all: apply wp_of; intros r s' Hrun; rewrite Hrun in Hl; cbn [snd] in Hl;
    destruct (looked_steps _ _ Hl Hs) as [Hs' Hst]; split; [done|]; by exists [].
Qed.

(** What happened to a server, as its callers saw it. *)
Inductive server_event :=
| Served (request : Request) (authorised : bool) (response : Response)
| Restarted
| Called (op : AgentOp) (ok : bool).

Definition event_of (op : server_op) (s : Server) : server_event :=
  match op with
  | Serve request => Served request (bearer_ok request (sv_token s)) (reply request s).1
  | Restart => Restarted
  | Agent op => Called op (op_ok op (sv_world s))
  end.

Fixpoint events_seen (ops : list server_op) (s : Server) : list server_event :=
  match ops with
  | [] => []
  | op :: ops' => event_of op s :: events_seen ops' (server_step op s)
  end.

Definition event_performs (a : View) (e : server_event) (made : list Step) : Prop :=
  match e with
  | Served request authorised response => if authorised then reply_performs request response made else made = []
  | Restarted => made = []
  | Called op ok => performs op a ok made
  end.

(** A run of the machine that explains the events. *)
Inductive explains : View → list server_event → View → Prop :=
| explains_end a a' : a ≡ a' → explains a [] a'
| explains_event a e made a1 rest a' :
    event_performs a e made → steps_to a made a1 → explains a1 rest a' → explains a (e :: rest) a'.

Lemma server_step_performs op s :
  server_sound s → server_sound (server_step op s) ∧
    ∃ made, steps_to (server_shows s) made (server_shows (server_step op s)) ∧
      event_performs (server_shows s) (event_of op s) made.
Proof.
  intros Hs. destruct op as [request| |op]; cbn [server_step event_of event_performs].
  - pose proof (reply_steps request s Hs) as H. by destruct (reply request s) as [response s'].
  - assert (looked s (server_new s).2) as Hl.
    { split; [by rewrite server_new_world|apply (quiet_server_new s)]. }
    destruct (looked_steps _ _ Hl Hs) as [Hs' Hst]. split; [done|]. by exists [].
  - exact (op_performs (sv_runs s) op (sv_world s) Hs).
Qed.

Lemma history_explained ops s :
  server_sound s → explains (server_shows s) (events_seen ops s) (server_shows (runs server_step ops s)).
Proof.
  revert s. induction ops as [|op ops IH]; intros s Hs; [by apply explains_end|]. cbn [events_seen runs].
  destruct (server_step_performs op s Hs) as (Hs' & made & Hst & Hp).
  eapply explains_event; [exact Hp|exact Hst|]. by apply IH.
Qed.

(** C7: the program refines the abstract machine.  Any history of a server --
    requests of all kinds, restarts, calls of the agent, with engine, disk and
    process faults anywhere -- is a run of the machine in which every event
    performs the steps that its answer promises: a request without the token or
    a read none; an approval at most its one decision; an input a prefix of
    claim, apply, start, two log entries, and all of it when it is answered
    delivered, so a command starts only after its input was applied in the same
    request; a call of the agent a prefix of its script and all of it when it
    succeeds. *)
Theorem server_refines (ops : list server_op) (s : Server) :
  store_ok (db (sv_world s)) →
  explains (server_shows s) (events_seen ops s) (server_shows (runs server_step ops s)).
Proof. apply history_explained. Qed.
End Requests.

(** ** Witness: an input, a restart and the same input again *)

#[local] Existing Instances sample_env sample_host sample_paths sample_headers.

Definition repeated_input : list server_op := [Serve sample_input; Restart; Serve sample_input].

Lemma server_refines_witness :
  explains (server_shows sample_server) (events_seen repeated_input sample_server)
    (server_shows (runs server_step repeated_input sample_server)) ∧
  length (sv_runs (runs server_step repeated_input sample_server)) = 1.
Proof.
  split; [|vm_compute; reflexivity].
  pose proof (server_refines repeated_input sample_server catalog_world_ok) as H. exact H.
Defined.
