(* ===== verification/Replay.v ===== *)
(** * Replay: the consumers of the store

    Two consumers live outside the agent and see its store only through calls:
    a phone that replays a workflow's events from its last sequence number, and
    a publisher that drains the outbox and marks what it sent.  Both run beside
    a server that does anything it can do.  The reader uses the ring invariant;
    the publisher is proved against the abstract machine of [Machine.v]. *)

From S2P Require Import Prelude Text Events Schema Storage Ring RingFacts OutboxFacts Requests Store Lifecycle LifecycleFacts Reach Router Plain BTree Json Http Config Exec Catalog CatalogFacts Server ServerFacts ServerSpec InputSpec ApprovalSpec Machine Refine.

Section Replay.
Context {env : Env} {host : Host} {paths : Paths} {header_names : HeaderNames}.

Definition store_of_server (s : Server) : Db := db (sv_world s).

Lemma server_step_good op s : good (store_of_server s) (store_of_server (server_step op s)).
Proof. intros Hok. by destruct (step_moves op s Hok) as [[Hg _]|[Hg _]]; apply Hg. Qed.

(** ** A reader *)

(** The last sequence number it has, and the events it was given. *)
Record Reader := mk_reader { rd_cursor : Z; rd_received : list WorkflowEvent }.

(** Ask for what comes after the cursor; a failed call is tried again later. *)
Definition poll (wf : string) (lim : Z) (s : Server) (rd : Reader) : Server * Reader :=
  let '(r, w) := events_since wf (rd_cursor rd) lim (sv_world s) in
  (set_world w s,
   match r with
   | Ok events => mk_reader (from_option (λ e, to_i64 (seq_no e)) (rd_cursor rd) (last events))
                    (rd_received rd ++ events)
   | Err _ => rd
   end).

Inductive reader_op := Poll (lim : Z) | Beside (op : server_op).

Definition reader_step (wf : string) (op : reader_op) (x : Server * Reader) : Server * Reader :=
  match op with
  | Poll lim => poll wf lim x.1 x.2
  | Beside op => (server_step op x.1, x.2)
  end.

(** What one poll gives: the next kept events after the cursor. *)
Definition next_rows (wf : string) (cursor lim : Z) (d : Db) : list EventRow :=
  take (Z.to_nat lim) (drop (Z.to_nat (cursor - cut wf d)) (events_of wf d)).

Lemma next_seqs wf cursor lim d :
  ring_ok wf d →
  let l := next_rows wf cursor lim d in
  er_seq_no <$> l = seqZ (Z.max cursor (cut wf d) + 1) (Z.of_nat (length l)).
Proof.
  intros Hr l. subst l. unfold next_rows. pose proof (ring_seqs _ _ Hr) as Hseq.
  set (from := Z.to_nat (cursor - cut wf d)).
  destruct (decide (from ≤ length (events_of wf d))) as [Hle|Hgt];
    [|rewrite drop_ge, take_nil by lia; done].
  pose proof (consecutive_drop _ _ _ _ Hseq Hle) as Hd. rewrite fmap_take, Hd.
  set (rest := drop from (events_of wf d)). rewrite length_take.
  destruct (decide (Z.to_nat lim ≤ length rest)).
  - rewrite seqZ_take, Nat.min_l by lia. f_equal. lia.
  - rewrite take_ge, Nat.min_r by (rewrite ?length_seqZ; lia). f_equal. lia.
Qed.

Lemma next_in wf cursor lim d r : r ∈ next_rows wf cursor lim d → r ∈ events_of wf d.
Proof.
  unfold next_rows. rewrite elem_of_take. intros (i & Hi & _). rewrite lookup_drop in Hi.
  by eapply list_elem_of_lookup_2.
Qed.

Lemma poll_spec wf lim s rd :
  ring_ok wf (store_of_server s) → (newest wf (store_of_server s) ≤ i64_max)%Z →
  let '(s', rd') := poll wf lim s rd in
  let d := store_of_server s in
  store_of_server s' = d ∧
  if is_ok (events_since wf (rd_cursor rd) lim (sv_world s)).1 then
    let l := next_rows wf (rd_cursor rd) lim d in
    rd_received rd' = rd_received rd ++ (map_event <$> l) ∧
    rd_cursor rd' = (if bool_decide (l = []) then rd_cursor rd
                     else Z.max (rd_cursor rd) (cut wf d) + Z.of_nat (length l))%Z
  else rd' = rd.
Proof.
  intros Hr Hn. unfold poll, events_since, from_storage, st_map_err.
  pose proof (events_after_spec wf (rd_cursor rd) lim (sv_world s) Hr) as H.
  destruct (events_after wf (rd_cursor rd) lim (sv_world s)) as [[evs|e] w']; cbn [map_err is_ok fst];
    [|by destruct H as [H _]; split].
  destruct H as [Hdb [-> _]]. split; [done|]. cbn zeta. split; [done|]. cbn [rd_cursor].
  fold (next_rows wf (rd_cursor rd) lim (db (sv_world s))). fold (store_of_server s).
  pose proof (next_seqs wf (rd_cursor rd) lim _ Hr) as Hseq. cbn zeta in Hseq.
  set (l := next_rows wf (rd_cursor rd) lim (store_of_server s)) in *.
  rewrite fmap_last. destruct (last l) as [r|] eqn:Hl; cbn [fmap option_fmap option_map from_option].
  - rewrite bool_decide_eq_false_2 by (by intros ->).
    rewrite last_lookup in Hl.
    assert (r ∈ events_of wf (store_of_server s)) as Hin
      by (eapply next_in, list_elem_of_lookup_2, Hl).
    destruct (map_event_seq _ _ _ Hr Hn Hin) as [-> _].
    rewrite (consecutive_lookup _ _ _ _ _ Hseq Hl). apply lookup_lt_Some in Hl. lia.
  - apply last_None in Hl. by rewrite bool_decide_eq_true_2.
Qed.

(** What a reader that started after [start] knows of the log. *)
Record read_ok (wf : string) (start : Z) (d : Db) (rd : Reader) : Prop := {
  rk_cursor : (start ≤ rd_cursor rd)%Z;
  rk_sorted : StronglySorted Z.lt (seq_no <$> rd_received rd);
  rk_range n : n ∈ seq_no <$> rd_received rd → (start < n ≤ rd_cursor rd)%Z;
  rk_complete n : (start < n ≤ rd_cursor rd)%Z → n ∈ seq_no <$> rd_received rd ∨ (n ≤ cut wf d)%Z;
  rk_kept e : e ∈ rd_received rd → e ∈ map_event <$> events_of wf d ∨ (seq_no e ≤ cut wf d)%Z;
}.

Lemma poll_read_ok wf start lim s rd :
  ring_ok wf (store_of_server s) → (newest wf (store_of_server s) ≤ i64_max)%Z →
  read_ok wf start (store_of_server s) rd →
  read_ok wf start (store_of_server (poll wf lim s rd).1) (poll wf lim s rd).2.
Proof.
  intros Hr Hn Hrd. pose proof (poll_spec wf lim s rd Hr Hn) as H.
  destruct (poll wf lim s rd) as [s' rd']. cbn [fst snd]. destruct H as [-> H].
  destruct (is_ok _); [|by subst]. destruct H as [Hrec Hcur].
  pose proof (next_seqs wf (rd_cursor rd) lim _ Hr) as Hseq. cbn zeta in *.
  set (d := store_of_server s) in *. set (l := next_rows wf (rd_cursor rd) lim d) in *.
  assert (∀ r, r ∈ l → r ∈ events_of wf d) as Hin by (intros r; apply next_in).
  assert (seq_no <$> rd_received rd' = (seq_no <$> rd_received rd) ++
    seqZ (Z.max (rd_cursor rd) (cut wf d) + 1) (Z.of_nat (length l))) as Hseqs.
  { rewrite Hrec, fmap_app. f_equal. by rewrite (seqs_of_rows wf d). }
  destruct Hrd as [H1 H2 H3 H4 H5].
  case_bool_decide as Hnil.
  { rewrite Hnil, app_nil_r in Hseqs, Hrec. cbn in Hseqs.
    split; rewrite ?Hcur, ?Hrec; done. }
  split; rewrite ?Hcur, ?Hseqs.
  - lia.
  - apply StronglySorted_app_2; [|done|apply seqZ_sorted].
    intros x y [_ Hx]%H3 Hy%elem_of_seqZ_iff. lia.
  - intros n [Hx%H3|Hx%elem_of_seqZ_iff]%elem_of_app; lia.
  - intros n Hrange. rewrite elem_of_app, elem_of_seqZ_iff.
    destruct (decide (n ≤ rd_cursor rd)%Z) as [Hle|Hgt]; [destruct (H4 n ltac:(lia)); auto|lia].
  - intros e. rewrite Hrec. intros [He|(r & -> & Hl)%list_elem_of_fmap]%elem_of_app; [by apply H5|].
    left. apply list_elem_of_fmap. eauto.
Qed.

Lemma good_read_ok wf start d d' rd :
  ring_ok wf d → (newest wf d ≤ i64_max)%Z → evolves d d' →
  read_ok wf start d rd → read_ok wf start d' rd.
Proof.
  intros Hr Hb He [H1 H2 H3 H4 H5]. pose proof (ev_cut _ _ He wf) as Hc. split; [done..| |].
  - intros n Hn. destruct (H4 n Hn); [auto|right; lia].
  - intros e Hin. destruct (H5 e Hin) as [(r & -> & Hrow)%list_elem_of_fmap|]; [|right; lia].
    destruct (map_event_seq _ _ _ Hr Hb Hrow) as [_ ->].
    unfold events_of in Hrow |- *. apply list_elem_of_filter in Hrow as [Hwf Hrow].
    destruct (ev_events _ _ He _ Hrow) as [Hin'|Hle]; [left|right; by rewrite <-Hwf].
    apply list_elem_of_fmap. exists r. split; [done|]. by apply list_elem_of_filter.
Qed.

Lemma reader_step_good wf op x :
  good (store_of_server x.1) (store_of_server (reader_step wf op x).1).
Proof.
  destruct op as [lim|op]; [|apply server_step_good]. cbn [reader_step]. unfold poll, store_of_server.
  assert (safe (events_since wf (rd_cursor x.2) lim)) as Hs by (apply safe_map_err, safe_select).
  pose proof (wp_run _ _ _ (Hs (sv_world x.1))) as Hg.
  by destruct (events_since _ _ _ _) as [r w].
Qed.

Lemma reader_run_good wf ops x :
  good (store_of_server x.1) (store_of_server (runs (reader_step wf) ops x).1).
Proof.
  revert x. induction ops as [|op ops IH]; intros x; [reflexivity|].
  cbn [runs]. etrans; [apply reader_step_good|apply IH].
Qed.

Lemma reader_read_ok wf start ops x :
  let x' := runs (reader_step wf) ops x in
  store_ok (store_of_server x.1) → (newest wf (store_of_server x'.1) ≤ i64_max)%Z →
  read_ok wf start (store_of_server x.1) x.2 →
  store_ok (store_of_server x'.1) ∧ read_ok wf start (store_of_server x'.1) x'.2.
Proof.
  revert x. induction ops as [|op ops IH]; intros x x' Hok Hn Hrd; [by split|].
  subst x'. cbn [runs] in *. destruct (reader_step_good wf op x Hok) as [Hok1 He1].
  set (x1 := reader_step wf op x) in *.
  destruct (reader_run_good wf ops x1 Hok1) as [_ He2].
  pose proof (ev_newest _ _ He1 wf). pose proof (ev_newest _ _ He2 wf).
  assert (newest wf (store_of_server x.1) ≤ i64_max)%Z as Hb by lia.
  apply IH; [done|done|]. subst x1. destruct op as [lim|op]; cbn [reader_step fst snd] in *.
  - apply poll_read_ok; [by apply ok_rings|done|done].
  - by apply (good_read_ok wf start (store_of_server x.1)); [apply ok_rings|..].
Qed.

Lemma keys_filter {A} (key : A → Z) (P : A → Prop) `{!∀ x, Decision (P x)} l :
  StronglySorted Z.lt (key <$> l) → StronglySorted Z.lt (key <$> filter P l).
Proof.
  induction l as [|x l IH]; [done|]. cbn [fmap list_fmap]. intros [Hs Hf]%StronglySorted_inv.
  rewrite filter_cons. case_decide; [|by apply IH]. constructor; [by apply IH|].
  rewrite Forall_forall in *. intros n (y & -> & [_ Hy]%list_elem_of_filter)%list_elem_of_fmap.
  apply Hf, list_elem_of_fmap. eauto.
Qed.

(** With nothing trimmed since the start, a reader has every kept event. *)
Lemma read_everything wf start d rd :
  ring_ok wf d → (newest wf d ≤ i64_max)%Z → read_ok wf start d rd → (cut wf d ≤ start)%Z →
  rd_received rd = map_event <$> filter (λ r, start < er_seq_no r ≤ rd_cursor rd)%Z (events_of wf d).
Proof.
  intros Hr Hn [H1 H2 H3 H4 H5] Hc. apply (increasing_unique seq_no); [done|..].
  - rewrite (seqs_of_rows wf d); [|done|done|by intros r [_ Hin]%list_elem_of_filter].
    pose proof (ring_seqs _ _ Hr) as Hseq. apply keys_filter. rewrite Hseq. apply seqZ_sorted.
  - intros e. rewrite list_elem_of_fmap. split.
    + intros He. assert (start < seq_no e ≤ rd_cursor rd)%Z as Hrange by (apply H3, list_elem_of_fmap; eauto).
      destruct (H5 e He) as [(r & -> & Hin)%list_elem_of_fmap|]; [|lia].
      exists r. split; [done|]. apply list_elem_of_filter. split; [|done].
      by destruct (map_event_seq _ _ _ Hr Hn Hin) as [_ <-].
    + intros (r & -> & [Hrange Hin]%list_elem_of_filter). pose proof (ring_seq _ _ _ Hr Hin) as Hs.
      destruct (H4 _ Hrange) as [(e & He & Hrec)%list_elem_of_fmap|]; [|lia].
      assert (start < seq_no e ≤ rd_cursor rd)%Z by (apply H3, list_elem_of_fmap; eauto).
      destruct (H5 e Hrec) as [(r' & -> & Hin')%list_elem_of_fmap|]; [|lia].
      destruct (map_event_seq _ _ _ Hr Hn Hin') as [_ He']. rewrite He' in He.
      by rewrite (ring_seq_inj _ _ _ _ Hr Hin Hin' He).
Qed.

Lemma next_cursor wf cursor lim d :
  ring_ok wf d → (0 ≤ cursor)%Z → (0 < lim)%Z →
  let l := next_rows wf cursor lim d in
  (if bool_decide (l = []) then cursor else Z.max cursor (cut wf d) + Z.of_nat (length l))%Z =
    Z.max cursor (Z.min (newest wf d) (Z.max cursor (cut wf d) + lim)).
Proof.
  intros Hr Hcur Hlim l. subst l. unfold next_rows, newest. pose proof (ring_cut _ _ Hr) as Hc.
  pose proof (ring_fresh _ _ Hr) as Hf.
  set (ring := events_of wf d). set (l := take _ _).
  assert (length l = Z.to_nat lim `min` (length ring - Z.to_nat (cursor - cut wf d))) as Hlen
    by (unfold l; by rewrite length_take, length_drop).
  assert (length ring = 0 → cut wf d = 0%Z) by (intros E%nil_length_inv; by apply Hf).
  case_bool_decide as Hnil; [rewrite Hnil in Hlen; cbn in Hlen; lia|].
  assert (length l ≠ 0) by (by intros ?%nil_length_inv). lia.
Qed.

(** C15: replay over a whole history.  A reader polls a workflow's events after
    the last sequence number it saw, while the server does anything else, with
    failing calls, restarts and trimming in between.  It receives events in
    increasing order, each at most once; what it has not received up to its
    cursor was trimmed, and what is still kept is what it received, unchanged;
    with nothing trimmed since its start it has exactly the kept events up to
    its cursor.  Every answered poll brings it [lim] events closer to the
    newest. *)
Theorem replay_exact (wf : string) (start : Z) (ops : list reader_op) (s : Server) :
  let '(s', rd) := runs (reader_step wf) ops (s, mk_reader start []) in
  let d := store_of_server s' in
  store_ok (store_of_server s) → (newest wf d ≤ i64_max)%Z → (0 ≤ start)%Z →
  read_ok wf start d rd ∧
  ((cut wf d ≤ start)%Z → rd_received rd =
     map_event <$> filter (λ r, start < er_seq_no r ≤ rd_cursor rd)%Z (events_of wf d)) ∧
  ∀ lim, (0 < lim)%Z → is_ok (events_since wf (rd_cursor rd) lim (sv_world s')).1 = true →
    rd_cursor (poll wf lim s' rd).2 =
      Z.max (rd_cursor rd) (Z.min (newest wf d) (Z.max (rd_cursor rd) (cut wf d) + lim)).
Proof.
  pose proof (reader_read_ok wf start ops (s, mk_reader start [])) as H. cbn zeta in H.
  destruct (runs _ ops _) as [s' rd]. cbn [fst snd] in H. cbn zeta. intros Hok Hn Hstart.
  destruct (H Hok Hn) as [Hok' Hrd]; clear H.
  { split; cbn; [lia|constructor|by intros ? ?%elem_of_nil|lia|by intros ? ?%elem_of_nil]. }
  split; [done|]. pose proof (ok_rings _ Hok' wf) as Hr. split.
  - intros Hc. by apply read_everything.
  - intros lim Hlim Ha. pose proof (poll_spec wf lim s' rd Hr Hn) as H.
    destruct (poll wf lim s' rd) as [s'' rd']. destruct H as [_ H]. rewrite Ha in H. cbn zeta in H.
    cbn [snd]. destruct H as [_ ->]. apply next_cursor; [done| |done].
    pose proof (rk_cursor _ _ _ _ Hrd). lia.
Qed.

(** ** A publisher *)

(** The server, what was sent so far, and the passes that were cut short. *)
Record Relay := mk_relay { rl_server : Server; rl_sent : list OutboxEntry; rl_broken : nat }.

(** One pass: drain, send, mark.  A crash after [n] entries leaves the rest
    unsent and nothing marked; a failing mark may have marked some. *)
Definition pass (lim : Z) (crash : option nat) (r : Relay) : Relay :=
  let s := rl_server r in
  let '(drained, w) := outbox_drain lim (sv_world s) in
  match drained, crash with
  | Err _, _ => mk_relay (set_world w s) (rl_sent r) (rl_broken r)
  | Ok es, Some n => mk_relay (set_world w s) (rl_sent r ++ take n es) (S (rl_broken r))
  | Ok es, None =>
      let '(marked, w) := outbox_mark_published es w in
      mk_relay (set_world w s) (rl_sent r ++ es) (if is_ok marked then rl_broken r else S (rl_broken r))
  end.

Inductive relay_op := Pass (lim : Z) (crash : option nat) | Between (op : server_op).

Definition relay_step (op : relay_op) (r : Relay) : Relay :=
  match op with
  | Pass lim crash => pass lim crash r
  | Between op => mk_relay (server_step op (rl_server r)) (rl_sent r) (rl_broken r)
  end.

(** Nobody else marks. *)
Definition marks_nothing (op : server_op) : Prop :=
  match op with Agent (OpMark _) => False | _ => True end.
Definition alone (op : relay_op) : Prop :=
  match op with Between op => marks_nothing op | Pass _ _ => True end.

Definition in_outbox (d : Db) (e : OutboxEntry) : Prop := e ∈ entry_of <$> outbox d.
Definition published (d : Db) (e : OutboxEntry) : Prop :=
  ∃ r, r ∈ outbox d ∧ entry_of r = e ∧ ob_published_at_millis r ≠ None.
Definition times (e : OutboxEntry) (l : list OutboxEntry) : nat := length (filter (λ x, x = e) l).

#[export] Instance published_dec d e : Decision (published d e).
Proof.
  refine (cast_if (decide (Exists (λ r, entry_of r = e ∧ ob_published_at_millis r ≠ None) (outbox d))));
    unfold published; rewrite Exists_exists in *; naive_solver.
Defined.

(** *** What the rest of the server does to the queue *)

Lemma queue_equiv (a b : View) : a ≡ b → av_outbox a = av_outbox b.
Proof. by intros (_ & _ & _ & _ & _ & E & _). Qed.

Definition unpublishing (l : Step) : Prop := match l with Publish _ => False | _ => True end.

(** Steps of the machine other than [Publish] only add unpublished entries. *)
Lemma step_queue l a a' :
  step_to l a a' → unpublishing l →
  ∃ new, av_outbox a' = av_outbox a ++ new ∧ Forall (λ q, q.2 = false) new.
Proof.
  intros Hl Hno. destruct l; unfold step_to in Hl; try done.
  all: repeat match goal with H : _ ∧ _ |- _ => destruct H | H : ∃ _, _ |- _ => destruct H end.
  all: match goal with H : _ ≡@{View} _ |- _ => rewrite (queue_equiv _ _ H) end; cbn.
  all: first [by exists []; rewrite app_nil_r|eexists; split; [reflexivity|]; by repeat constructor].
Qed.

Lemma steps_queue a made a' :
  steps_to a made a' → Forall unpublishing made →
  ∃ new, av_outbox a' = av_outbox a ++ new ∧ Forall (λ q, q.2 = false) new.
Proof.
  induction 1 as [a a' E%queue_equiv|a l a1 made a' Hl _ IH].
  { exists []. by rewrite app_nil_r. }
  intros [Hno (new & E & Hnew)%IH]%Forall_cons.
  destruct (step_queue l a a1 Hl Hno) as (one & E1 & H1).
  exists (one ++ new). by rewrite E, E1, app_assoc, Forall_app.
Qed.

Lemma prefix_unpublishing made script :
  made `prefix_of` script → Forall unpublishing script → Forall unpublishing made.
Proof. by intros [rest ->] [H _]%Forall_app. Qed.

Lemma script_unpublishing op a : Forall unpublishing (op_script op a).
Proof. destruct op; cbn [op_script]; unfold log_of; repeat case_match; by repeat constructor. Qed.

(** No event but a marking call publishes. *)
Lemma event_unpublishing op a s made :
  marks_nothing op → event_performs a (event_of op s) made → Forall unpublishing made.
Proof.
  intros Hop. destruct op as [request| |op]; cbn [event_of event_performs]; [|by intros ->|].
  - destruct (bearer_ok request (sv_token s)); [|by intros ->].
    unfold reply_performs. destruct (route _ _); try by intros ->.
    + intros [[-> _]|(id & allow & _ & [[-> _]|[-> _]])]; by repeat constructor.
    + intros [[-> _]|(id & text & d & _ & [[[-> | ->] _]|(claims & o & path & cut & Hp & _)])];
        [by repeat constructor..|].
      eapply prefix_unpublishing; [exact Hp|]. unfold deliver_script, run_script, run_logs, log_of.
      destruct claims; by repeat constructor.
  - destruct op; try done; cbn [performs]; intros H.
    all: try (destruct H as [Hp _]; eapply prefix_unpublishing; [exact Hp|]; apply script_unpublishing).
    + destruct (op_ok _ _); [by rewrite H; repeat constructor|]. destruct H as [-> | ->]; by repeat constructor.
    + destruct H as [[keys ->] _]. by apply Forall_fmap, Forall_true.
Qed.

Lemma published_queued d e :
  published d e ↔ (oe_workflow_id e, oe_seq_no e, true) ∈ queued <$> outbox d.
Proof.
  unfold published. rewrite list_elem_of_fmap. split.
  - intros (r & Hr & <- & Hp). exists r. split; [|done]. unfold queued. cbn.
    by rewrite bool_decide_eq_true_2 by by apply not_eq_None_Some.
  - intros (r & E & Hr). unfold queued in E. injection E as E1 E2 E3. exists r.
    symmetry in E3. apply bool_decide_eq_true_1 in E3 as [t Ht].
    split_and!; [done|unfold entry_of; by destruct e; cbn in *; subst|by rewrite Ht].
Qed.

Lemma in_outbox_queued d e :
  in_outbox d e ↔ ∃ done, (oe_workflow_id e, oe_seq_no e, done) ∈ queued <$> outbox d.
Proof.
  unfold in_outbox. rewrite list_elem_of_fmap. setoid_rewrite list_elem_of_fmap. split.
  - intros (r & -> & Hr). by exists (bool_decide (is_Some (ob_published_at_millis r))), r.
  - intros (b & r & E & Hr). exists r. split; [|done]. unfold queued in E. injection E as E1 E2 _.
    unfold entry_of. by destruct e; cbn in *; subst.
Qed.

(** Beside a pass, the server changes nothing of what is published. *)
Lemma between_passes op s e :
  store_ok (store_of_server s) → marks_nothing op →
  let d := store_of_server s in let d' := store_of_server (server_step op s) in
  (published d' e ↔ published d e) ∧ (in_outbox d e → in_outbox d' e).
Proof.
  intros Hok Hop d d'. destruct (server_step_performs op s Hok) as (_ & made & Hst & Hp).
  destruct (steps_queue _ _ _ Hst (event_unpublishing _ _ _ _ Hop Hp)) as (new & E & Hnew).
  cbn in E. fold (store_of_server s) (store_of_server (server_step op s)) d d' in E.
  rewrite !published_queued, !in_outbox_queued, E. setoid_rewrite elem_of_app. split; [|naive_solver].
  split; [|by left]. intros [H|H]; [done|]. rewrite Forall_forall in Hnew. by apply Hnew in H.
Qed.

(** The entries of the outbox are distinct. *)
Lemma keyed_NoDup {A} (f : A → string) (g : A → Z) l :
  (∀ k, NoDup (g <$> filter (λ x, f x = k) l)) → NoDup ((λ x, (f x, g x)) <$> l).
Proof.
  induction l as [|x l IH]; intros H; [constructor|]. cbn [fmap list_fmap]. constructor.
  - intros (y & E & Hy)%list_elem_of_fmap. injection E as E1 E2. specialize (H (f x)).
    rewrite filter_cons, decide_True in H by done. apply NoDup_cons in H as [H _]. apply H.
    rewrite E2. apply list_elem_of_fmap_2, list_elem_of_filter. done.
  - apply IH. intros k. specialize (H k). rewrite filter_cons in H.
    case_decide; [by apply NoDup_cons in H as [_ H]|done].
Qed.

Lemma NoDup_fmap_eq {A B} (f : A → B) l x y :
  NoDup (f <$> l) → x ∈ l → y ∈ l → f x = f y → x = y.
Proof.
  intros Hnd [i Hi]%list_elem_of_lookup [j Hj]%list_elem_of_lookup E.
  assert (i = j) as <-; [|congruence].
  by apply (NoDup_lookup (f <$> l) i j (f x)); [|rewrite list_lookup_fmap, ?Hi, ?Hj; cbn; f_equal..].
Qed.

Lemma entries_NoDup d : store_ok d → NoDup (entry_of <$> outbox d).
Proof.
  intros Hok. apply (NoDup_fmap_1 (λ e, (oe_workflow_id e, oe_seq_no e))).
  rewrite <-list_fmap_compose. apply (keyed_NoDup ob_workflow_id ob_seq_no). intros k.
  pose proof (ring_outbox _ _ (ok_rings _ Hok k)) as E. unfold outbox_of in E. rewrite E. apply NoDup_seqZ.
Qed.

(** What a drain hands out: different entries, none of them published. *)
Lemma drained_entries d sorted n :
  store_ok d → sorted ≡ₚ unpublished d →
  let es := entry_of <$> take n sorted in
  NoDup es ∧ ∀ e, e ∈ es → in_outbox d e ∧ ¬ published d e.
Proof.
  intros Hok Hperm es. pose proof (entries_NoDup d Hok) as Hnd.
  assert (∀ r, r ∈ sorted ↔ ob_published_at_millis r = None ∧ r ∈ outbox d) as Hin
    by (intros r; by rewrite Hperm; unfold unpublished; rewrite list_elem_of_filter).
  assert (NoDup (entry_of <$> sorted)) as Hnds.
  { rewrite Hperm. apply NoDup_fmap_2_strong; [|by eapply NoDup_filter, NoDup_fmap_1].
    unfold unpublished. intros x y [_ Hx]%list_elem_of_filter [_ Hy]%list_elem_of_filter.
    by apply (NoDup_fmap_eq _ (outbox d)). }
  subst es. split; [rewrite fmap_take; eapply sublist_NoDup; [exact Hnds|apply sublist_take]|].
  intros e (r & -> & (i & Hi & _)%elem_of_take)%list_elem_of_fmap.
  apply list_elem_of_lookup_2, Hin in Hi as [Hp Hr]. split; [by apply list_elem_of_fmap_2|].
  intros (r' & Hr' & E & Hp'). apply Hp'. by rewrite (NoDup_fmap_eq entry_of (outbox d) r' r Hnd Hr' Hr E).
Qed.

(** Marking, with a fault anywhere: only listed entries become published. *)
Lemma marked_entries es d d' e :
  Forall2 (may_publish es) (outbox d) (outbox d') →
  (published d e → published d' e) ∧ (published d' e → published d e ∨ e ∈ es) ∧
  (in_outbox d' e ↔ in_outbox d e).
Proof.
  intros Hm. assert (entry_of <$> outbox d' = entry_of <$> outbox d) as E.
  { induction Hm as [|r r' l l' Hr _ IH]; [done|]. cbn. by rewrite IH, (may_publish_entry _ _ _ Hr). }
  unfold in_outbox. rewrite E. split_and!; [| |done].
  - intros (r & [i Hi]%list_elem_of_lookup & He & Hp).
    destruct (Forall2_lookup_l _ _ _ _ _ Hm Hi) as (r' & Hi' & Hr). exists r'.
    split_and!; [by eapply list_elem_of_lookup_2|by rewrite (may_publish_entry _ _ _ Hr)|].
    by destruct Hr as [->|(_ & Hn & _)].
  - intros (r' & [i Hi]%list_elem_of_lookup & He & Hp).
    destruct (Forall2_lookup_r _ _ _ _ _ Hm Hi) as (r & Hi' & Hr).
    destruct Hr as [->|(Hin & _ & t & ->)]; [left|by right; rewrite <-He].
    exists r. split_and!; [by eapply list_elem_of_lookup_2|done|done].
Qed.

(** *** The publisher's invariant *)

Definition queue_of (r : Relay) : Db := store_of_server (rl_server r).

Record relay_ok (d0 : Db) (r : Relay) : Prop := {
  ro_store : store_ok (queue_of r);
  ro_sent e : published (queue_of r) e → published d0 e ∨ e ∈ rl_sent r;
  ro_known e : e ∈ rl_sent r → in_outbox (queue_of r) e;
  ro_times e : times e (rl_sent r) ≤ rl_broken r + if decide (published (queue_of r) e) then 1 else 0;
}.

Lemma times_app e l1 l2 : times e (l1 ++ l2) = times e l1 + times e l2.
Proof. unfold times. by rewrite filter_app, length_app. Qed.

Lemma times_NoDup e l : NoDup l → times e l = if decide (e ∈ l) then 1 else 0.
Proof.
  unfold times. induction 1 as [|x l Hx _ IH]; [done|]. rewrite filter_cons. destruct (decide (x = e)) as [->|Hne].
  - rewrite decide_True by by left. cbn. rewrite IH, decide_False; done.
  - rewrite IH. destruct (decide (e ∈ l)); [by rewrite decide_True by by right|].
    rewrite decide_False; [done|]. by intros [->|?]%elem_of_cons.
Qed.

Lemma between_relay_ok d0 op r :
  marks_nothing op → relay_ok d0 r → relay_ok d0 (relay_step (Between op) r).
Proof.
  intros Hop [H1 H2 H3 H4].
  assert (∀ e, let d' := queue_of (relay_step (Between op) r) in
    (published d' e ↔ published (queue_of r) e) ∧ (in_outbox (queue_of r) e → in_outbox d' e)) as Hb
    by (intros e; by apply between_passes).
  split; cbn [rl_sent relay_step rl_broken].
  - by apply (server_step_good op (rl_server r)).
  - intros e He. by apply H2, Hb.
  - intros e He. by apply Hb, H3.
  - intros e. rewrite (decide_ext _ _ _ _ (proj1 (Hb e))). apply H4.
Qed.

(** A pass, by what it drained. *)
Lemma pass_spec lim crash r :
  store_ok (queue_of r) →
  let r' := pass lim crash r in
  store_ok (queue_of r') ∧
  if is_ok (outbox_drain lim (sv_world (rl_server r))).1 then
    ∃ sorted, sorted ≡ₚ unpublished (queue_of r) ∧
    let es := entry_of <$> take (Z.to_nat lim) sorted in
    match crash with
    | Some n => queue_of r' = queue_of r ∧ rl_sent r' = rl_sent r ++ take n es ∧ rl_broken r' = S (rl_broken r)
    | None => Forall2 (may_publish es) (outbox (queue_of r)) (outbox (queue_of r')) ∧
        rl_sent r' = rl_sent r ++ es ∧
        (rl_broken r' = S (rl_broken r) ∨
         rl_broken r' = rl_broken r ∧ ∀ e, e ∈ es → published (queue_of r') e)
    end
  else queue_of r' = queue_of r ∧ rl_sent r' = rl_sent r ∧ rl_broken r' = rl_broken r.
Proof.
  intros Hok r'. subst r'. unfold pass.
  pose proof (outbox_at_least_once lim [] (sv_world (rl_server r))) as [Hd _].
  destruct (outbox_drain lim (sv_world (rl_server r))) as [[es|e] w]; cbn [is_ok fst]; cycle 1.
  { destruct Hd as [E _]. unfold queue_of, store_of_server in *. cbn. by rewrite E. }
  destruct Hd as (E & sorted & Hperm & _ & Hes). destruct crash as [n|]; cbn [fst].
  { unfold queue_of, store_of_server in *. cbn. rewrite E. split; [done|]. exists sorted. by subst. }
  pose proof (outbox_at_least_once lim es w) as [_ Hm].
  pose proof (wp_run _ _ _ (safe_mark es w)) as Hg.
  destruct (outbox_mark_published es w) as [m w']. cbn [snd] in Hg. rewrite E in Hg.
  destruct (Hg Hok) as [Hok' _]. split; [done|]. exists sorted. split; [done|]. cbn zeta. rewrite <-Hes.
  unfold queue_of, store_of_server in *. cbn [rl_server rl_sent rl_broken set_world sv_world].
  destruct m as [k|e]; cbn [is_ok]; rewrite E in Hm; destruct Hm as (Hm & _ & Hm');
    (split; [done|]; split; [done|]); [|by left].
  right. split; [done|]. destruct Hm' as [Hm' _]. intros e He. assert (in_outbox (db w') e) as Hin.
  { apply (marked_entries es (db (sv_world (rl_server r)))); [done|].
    subst es. apply list_elem_of_fmap in He as (x & -> & (i & Hi & _)%elem_of_take).
    apply list_elem_of_lookup_2 in Hi. rewrite Hperm in Hi. unfold unpublished in Hi.
    apply list_elem_of_filter in Hi as [_ Hi]. by apply list_elem_of_fmap_2. }
  apply list_elem_of_fmap in Hin as (x & -> & Hx). exists x. split_and!; [done|done|by apply Hm'].
Qed.

Lemma times_le_1 e l : NoDup l → times e l ≤ 1.
Proof. intros H. rewrite times_NoDup by done. case_decide; lia. Qed.

Lemma pass_relay_ok d0 lim crash r : relay_ok d0 r → relay_ok d0 (pass lim crash r).
Proof.
  intros [H1 H2 H3 H4]. destruct (pass_spec lim crash r H1) as [Hok H].
  set (r' := pass lim crash r) in *. destruct (is_ok _); cycle 1.
  { destruct H as (Eq & Es & Eb). split; rewrite ?Eq, ?Es, ?Eb; done. }
  destruct H as (sorted & Hperm & H).
  destruct (drained_entries _ _ (Z.to_nat lim) H1 Hperm) as [Hnd Hes]. cbn zeta in *.
  set (es := entry_of <$> take (Z.to_nat lim) sorted) in *. destruct crash as [n|].
  { destruct H as (Eq & Es & Eb). split; rewrite ?Eq, ?Es, ?Eb; [done|..].
    - intros e He. rewrite elem_of_app. destruct (H2 e He); auto.
    - intros e [He|(i & Hi & _)%elem_of_take]%elem_of_app; [by apply H3|]. by apply Hes, (list_elem_of_lookup_2 _ i).
    - intros e. rewrite times_app. specialize (H4 e).
      assert (times e (take n es) ≤ 1) by (apply times_le_1; eapply sublist_NoDup; [exact Hnd|apply sublist_take]). lia. }
  destruct H as (Hm & Es & Hb).
  assert (∀ e, (published (queue_of r) e → published (queue_of r') e) ∧
    (published (queue_of r') e → published (queue_of r) e ∨ e ∈ es) ∧
    (in_outbox (queue_of r') e ↔ in_outbox (queue_of r) e)) as Hmark by (intros e; by apply marked_entries).
  split; rewrite ?Es; [done|..].
  - intros e He. rewrite elem_of_app. destruct (Hmark e) as (_ & Hp & _). destruct (Hp He); [|by auto].
    destruct (H2 e); auto.
  - intros e [He|He]%elem_of_app; apply Hmark; [by apply H3|by apply Hes].
  - intros e. rewrite times_app, (times_NoDup e es Hnd). specialize (H4 e). destruct (Hmark e) as (Hp & _ & _).
    destruct (decide (e ∈ es)) as [Hin|Hout].
    + rewrite (decide_False _ _ (proj2 (Hes e Hin))) in H4. destruct Hb as [->|[-> Hb]]; [lia|].
      rewrite decide_True by by apply Hb. lia.
    + assert (rl_broken r ≤ rl_broken r') by (destruct Hb as [->|[-> _]]; lia).
      destruct (decide (published (queue_of r) e)) as [Hold|]; [|lia]. rewrite decide_True by by apply Hp. lia.
Qed.

Lemma relay_run_ok d0 ops r : Forall alone ops → relay_ok d0 r → relay_ok d0 (runs relay_step ops r).
Proof.
  intros Hops. revert r. induction Hops as [|op ops Hop _ IH]; intros r Hr; [done|]. cbn [runs]. apply IH.
  destruct op as [lim crash|op]; [by apply pass_relay_ok|by apply between_relay_ok].
Qed.

(** A pass that may drain everything leaves nothing unsent. *)
Lemma full_pass d0 lim r :
  relay_ok d0 r → is_ok (outbox_drain lim (sv_world (rl_server r))).1 = true →
  (Z.of_nat (length (unpublished (queue_of r))) ≤ lim)%Z →
  let r' := pass lim None r in
  (∀ e, in_outbox (queue_of r) e → published d0 e ∨ e ∈ rl_sent r') ∧
  (rl_broken r' = rl_broken r → unpublished (queue_of r') = []).
Proof.
  intros [H1 H2 H3 H4] Hd Hlen r'. destruct (pass_spec lim None r H1) as [Hok H]. fold r' in Hok, H.
  rewrite Hd in H. destruct H as (sorted & Hperm & Hm & Es & Hb).
  rewrite take_ge in Hm, Es, Hb by (rewrite Hperm; lia).
  assert (∀ x, x ∈ outbox (queue_of r) → published (queue_of r) (entry_of x) ∨ entry_of x ∈ entry_of <$> sorted) as Hall.
  { intros x Hx. destruct (decide (ob_published_at_millis x = None)) as [Hn|Hn]; [right|left; by exists x].
    apply list_elem_of_fmap_2. rewrite Hperm. by apply list_elem_of_filter. }
  split.
  - intros e (x & -> & Hx)%list_elem_of_fmap. rewrite Es, elem_of_app.
    destruct (Hall x Hx) as [[Hp|Hp]%H2|Hp]; auto.
  - intros Hbr. destruct Hb as [Hb|[_ Hb]]; [lia|].
    destruct (unpublished (queue_of r')) as [|x rest] eqn:Eu; [done|]. exfalso.
    assert (x ∈ unpublished (queue_of r')) as [Hn Hx]%list_elem_of_filter by (rewrite Eu; by left).
    assert (published (queue_of r') (entry_of x)) as (y & Hy & E & Hp).
    { assert (in_outbox (queue_of r') (entry_of x)) as Hin by by apply list_elem_of_fmap_2.
      apply (marked_entries _ _ _ _ Hm) in Hin. apply list_elem_of_fmap in Hin as (z & Ez & Hz). rewrite Ez.
      destruct (Hall z Hz) as [Hp|Hp]; [by apply (marked_entries _ _ _ _ Hm)|by apply Hb]. }
    apply Hp. by rewrite (NoDup_fmap_eq entry_of _ y x (entries_NoDup _ Hok) Hy Hx E).
Qed.

(** C11: at-least-once publication over whole histories.  A publisher drains
    the outbox, sends what it got and marks it, crashing anywhere in a pass or
    meeting faults, while the server serves, restarts and fails beside it, and
    nobody else marks.  An entry is marked only after it was sent; only entries
    of events are sent; and no entry is sent more often than once plus the
    number of passes cut short.  Any pass that may drain all pending entries
    leaves no event unsent, and when its marking succeeds the queue is empty. *)
Theorem relay_publishes (ops : list relay_op) (s : Server) (lim : Z) :
  store_ok (store_of_server s) → Forall alone ops →
  let r := runs relay_step ops (mk_relay s [] 0) in
  let d := queue_of r in
  (∀ e, published d e → published (store_of_server s) e ∨ e ∈ rl_sent r) ∧
  (∀ e, e ∈ rl_sent r → in_outbox d e) ∧
  (∀ e, times e (rl_sent r) ≤ S (rl_broken r)) ∧
  (is_ok (outbox_drain lim (sv_world (rl_server r))).1 = true →
   (Z.of_nat (length (unpublished d)) ≤ lim)%Z →
   let r' := pass lim None r in
   (∀ e, in_outbox d e → published (store_of_server s) e ∨ e ∈ rl_sent r') ∧
   (rl_broken r' = rl_broken r → unpublished (queue_of r') = [])).
Proof.
  intros Hok Hops r d.
  assert (relay_ok (store_of_server s) r) as Hr.
  { apply relay_run_ok; [done|]. split; cbn; [done|by left|by intros ? ?%elem_of_nil|intros e; case_decide; cbn; lia]. }
  pose proof Hr as [H1 H2 H3 H4]. split_and!; [done|done| |by apply full_pass].
  intros e. specialize (H4 e). case_decide; lia.
Qed.
End Replay.

(** ** Witnesses

    An input appends two events beside the polls; the first pass is cut short
    after one entry, which is then sent again. *)

#[local] Existing Instances sample_env sample_host sample_paths sample_headers.

Definition sample_reading : list reader_op := [Poll 1; Beside (Serve sample_input); Poll 1; Beside Restart; Poll 10].
Definition sample_relaying : list relay_op := [Between (Serve sample_input); Pass 2 (Some 1); Between Restart; Pass 2 None].

Lemma replay_exact_witness :
  let '(s', rd) := runs (reader_step "wf-1") sample_reading (sample_server, mk_reader 0 []) in
  let d := store_of_server s' in
  (seq_no <$> rd_received rd) = [1; 2; 3]%Z ∧ read_ok "wf-1" 0 d rd ∧
  rd_received rd = map_event <$> filter (λ r, 0 < er_seq_no r ≤ rd_cursor rd)%Z (events_of "wf-1" d).
Proof.
  pose proof (replay_exact "wf-1" 0 sample_reading sample_server) as H.
  destruct (runs (reader_step "wf-1") sample_reading (sample_server, mk_reader 0 [])) as [s' rd] eqn:E.
  vm_compute in E. injection E as <- <-.
  destruct (H catalog_world_ok ltac:(vm_compute; discriminate) ltac:(lia)) as (H1 & H2 & _).
  split; [vm_compute; reflexivity|]. split; [exact H1|]. apply H2. vm_compute. discriminate.
Defined.

Lemma relay_publishes_witness :
  let r := runs relay_step sample_relaying (mk_relay sample_server [] 0) in
  let r' := pass 5 None r in
  (oe_seq_no <$> rl_sent r, oe_seq_no <$> rl_sent r', rl_broken r') = ([1; 1; 2]%Z, [1; 1; 2; 3]%Z, 1) ∧
  (∀ e, times e (rl_sent r) ≤ S (rl_broken r)) ∧ unpublished (queue_of r') = [].
Proof.
  pose proof (relay_publishes sample_relaying sample_server 5 catalog_world_ok) as H.
  destruct H as (_ & _ & H1 & H2); [by repeat constructor|].
  split; [vm_compute; reflexivity|]. split; [exact H1|].
  apply H2; vm_compute; first [reflexivity|discriminate].
Defined.
