(* ===== verification/ReplyJson.v ===== *)
(** * ReplyJson: what the phone receives is JSON

    Every answer of the server but a 401 is a JSON object: its body is valid
    UTF-8 and the parser of [json.rs] reads an object from it, as long as the
    texts the server works on are texts.  The message of a 500 comes from the
    engine or the host and is left out. *)

From S2P Require Import Prelude Text Schema Storage Requests Router BTree Json JsonFacts JsonRound Http Exec Catalog CatalogFacts Lifecycle Server ServerFacts ServerSpec.
From S2P Require Import Events Ring Config Plain.

(** ** Bodies *)

Definition json_reply (r : Response) : Prop :=
  rp_status r = 500%Z ∨
  (rp_json r = true ∧ utf8_valid (rp_body r) = true ∧ ∃ fields, parse (rp_body r) = Ok (Obj fields)).

(** A value that prints, with its nesting. *)
Definition prints (n : nat) (v : Value) : bool := value_ok v && (height v <=? n).

Lemma prints_obj n l :
  forallb (λ '(k, v), utf8_valid k && prints n v) l = true → prints (S n) (obj l) = true.
Proof.
  intros Hl. unfold prints, obj. apply andb_true_iff.
  assert (∀ p, p ∈ bt_of_list l → utf8_valid p.1 = true ∧ value_ok p.2 = true ∧ height p.2 ≤ n) as Hin.
  { intros [k v] Hp%bt_of_list_in%list_elem_of_In. rewrite forallb_forall in Hl. specialize (Hl _ Hp).
    unfold prints in Hl. cbn. by rewrite !andb_true_iff, Nat.leb_le in Hl. }
  split.
  - apply value_ok_obj_intro; [apply bt_of_list_sorted|]. apply forallb_forall. intros [k v] Hp%list_elem_of_In.
    apply Hin in Hp as (Hk & Hv & _). cbn in *. by rewrite Hk, Hv.
  - apply Nat.leb_le. cbn [height]. induction (bt_of_list l) as [|[k v] m IH]; [cbn; lia|]. cbn [foldr].
    pose proof (Hin (k, v) ltac:(by left)) as (_ & _ & Hh). cbn in Hh.
    assert (foldr (λ '(_, x) n0, S (height x) `max` n0) 0 m ≤ S n); [|lia].
    apply IH. intros p Hp. apply Hin. by right.
Qed.

Lemma prints_arr n items : forallb (prints n) items = true → prints (S n) (Arr items) = true.
Proof.
  intros H. unfold prints in *. apply andb_true_iff. rewrite forallb_forall in H. split.
  - apply value_ok_arr_intro, forallb_forall. intros v Hv. by apply H, andb_true_iff in Hv as [? _].
  - apply Nat.leb_le. cbn [height]. induction items as [|v items IH]; [cbn; lia|]. cbn [foldr].
    pose proof (H v ltac:(by left)) as [_ Hv%Nat.leb_le]%andb_true_iff.
    assert (foldr (λ x n0, S (height x) `max` n0) 0 items ≤ S n); [|lia].
    apply IH. intros x Hx. apply H. by right.
Qed.

Lemma prints_fmap {A} n (f : A → Value) l :
  (∀ x, x ∈ l → prints n (f x) = true) → prints (S n) (Arr (f <$> l)) = true.
Proof.
  intros H. apply prints_arr, forallb_forall. intros v Hv. apply list_elem_of_In, list_elem_of_fmap in Hv as (x & -> & Hx).
  by apply H.
Qed.

Lemma prints_str n s : utf8_valid s = true → prints n (Str s) = true.
Proof. intros Hs. unfold prints, value_ok. cbn. by rewrite Hs. Qed.
Lemma prints_int n z : in_i64b z = true → prints n (Int z) = true.
Proof. intros Hz. unfold prints, value_ok. cbn. by rewrite Hz. Qed.
Lemma prints_bool n b : prints n (Bool b) = true.
Proof. done. Qed.

Lemma body_json status l : prints 10 (obj l) = true → json_reply (json_status status (obj l)).
Proof.
  unfold prints, obj. intros [Hv Hh%Nat.leb_le]%andb_true_iff. right. split; [done|].
  split; [by apply render_valid|]. exists (bt_of_list l). cbn [rp_body json_status].
  rewrite parse_render by done. rewrite bool_decide_true; [done|]. unfold MAX_DEPTH. lia.
Qed.

Lemma prints_weaken n m v : n ≤ m → prints n v = true → prints m v = true.
Proof. unfold prints. rewrite !andb_true_iff, !Nat.leb_le. intros Hn [? ?]. split; [done|lia]. Qed.

(** The fields of a body, one by one. *)
Ltac prints_step :=
  match goal with
  | |- prints _ (obj _) = true => apply prints_obj; cbn [forallb]
  | |- prints _ (Arr []) = true => reflexivity
  | |- prints _ (Arr (_ <$> _)) = true => apply prints_fmap; intros ? ?
  | |- prints _ (Arr _) = true => apply prints_arr; cbn [forallb]
  | |- prints _ (Str _) = true => apply prints_str
  | |- prints _ (Int _) = true => apply prints_int
  | |- prints _ (Bool _) = true => apply prints_bool
  | |- (_ && _) = true => apply andb_true_iff; split
  | |- utf8_valid (String _ _) = true => reflexivity
  | |- utf8_valid "" = true => reflexivity
  | |- in_i64b 0 = true => reflexivity
  | |- true = true => reflexivity
  | H : ?P |- ?P => exact H
  end.
Ltac body_ok := apply body_json; repeat prints_step.

Lemma error_json status code message :
  utf8_valid code = true → utf8_valid message = true → json_reply (error_body status code message).
Proof. intros Hc Hm. unfold error_body. body_ok. Qed.

Lemma internal_json message : json_reply (internal message).
Proof. by left. Qed.

(** ** Handlers along their answers *)

Definition replies {A} (P : A → Prop) (m : Handler A) : Prop :=
  ∀ s, match (m s).1 with Ok a => P a | Err r => json_reply r end.

Lemma replies_bind {A B} (P : A → Prop) (Q : B → Prop) (m : Handler A) (k : A → Handler B) :
  replies P m → (∀ a, P a → replies Q (k a)) → replies Q (st_bind m k).
Proof.
  intros Hm Hk s. unfold st_bind. specialize (Hm s). destruct (m s) as [[a|e] s1]; [|done]. by apply Hk.
Qed.
Lemma replies_map_err {E A} (P : A → Prop) (f : E → Response) (m : ServerM E A) :
  (∀ e, json_reply (f e)) → (∀ s, match (m s).1 with Ok a => P a | Err _ => True end) → replies P (st_map_err f m).
Proof. intros Hf Hm s. unfold st_map_err. specialize (Hm s). destruct (m s) as [[a|e] s']; [done|apply Hf]. Qed.
Lemma replies_any {E A} (f : E → Response) (m : ServerM E A) :
  (∀ e, json_reply (f e)) → replies (λ _, True) (st_map_err f m).
Proof. intros Hf. apply replies_map_err; [done|]. intros s. by destruct (m s).1. Qed.
Lemma replies_ret {A} (P : A → Prop) a : P a → replies P (st_ret a).
Proof. by intros H s. Qed.
Lemma replies_throw {A} (P : A → Prop) r : json_reply r → replies P (st_throw r).
Proof. by intros H s. Qed.

Lemma text_error status (code message : string) :
  utf8_valid code && utf8_valid message = true → json_reply (error_body status code message).
Proof. intros [Hc Hm]%andb_true_iff. by apply error_json. Qed.

(** A fixed error. *)
Ltac fixed_error :=
  match goal with
  | |- json_reply (internal _) => apply internal_json
  | |- json_reply ?r => apply text_error; vm_compute; reflexivity
  end.

Create HintDb replies.

(** One step along the answers of a handler. *)
Ltac reply_step :=
  match goal with
  | |- replies _ (st_bind _ _) =>
      first [ eapply replies_bind; [solve [eauto 1 with replies nocore]|let a := fresh "a" in let H := fresh "H" in intros a H; cbn beta in H]
            | eapply (replies_bind (λ _, True)); [|let a := fresh "a" in intros a _] ]
  | |- replies _ (if ?b then _ else _) => destruct b
  | |- replies _ (match ?x with _ => _ end) => destruct x
  | |- replies _ (st_ret _) => apply replies_ret
  | |- replies _ (st_throw _) => apply replies_throw
  | |- replies _ st_get => by intros ?
  | |- replies _ (modify _) => by intros ?
  | |- replies _ (touch _) => by intros ?
  | |- replies _ persist_registry => by intros ?
  | |- replies _ (st_try ?m) => let s := fresh "s" in intros s; unfold st_try; by destruct (m s)
  | |- replies _ (st_map_err _ _) => apply replies_any; let e := fresh "e" in intros e
  | |- replies _ (storage_500 _) => apply replies_any; intros ?; apply internal_json
  | |- replies _ (lifecycle_500 _) => apply replies_any; intros ?; apply internal_json
  | |- True => exact I
  | |- json_reply (error_body _ _ _) => fixed_error
  | |- json_reply (malformed _) => fixed_error
  | |- json_reply workflow_unknown => fixed_error
  | |- json_reply (internal _) => fixed_error
  end; cbn beta iota.
Ltac reply_steps := repeat reply_step.

Section ReplyJson.
Context {env : Env} {host : Host} {paths : Paths} {header_names : HeaderNames}.
#[local] Set Default Proof Using "Type*".

Lemma read_body_refusal_text request status code message :
  read_body request = Err (status, code, message) → utf8_valid code && utf8_valid message = true.
Proof.
  unfold read_body. generalize "" at 1. induction (hr_reads request) as [|[c|] rest IH]; intros bytes;
    cbn [read_loop]; unfold utf8_body.
  - destruct (utf8_valid bytes); naive_solver.
  - destruct (String.eqb c ""); [destruct (utf8_valid bytes); naive_solver|].
    destruct (_ <? _)%Z; [naive_solver|apply IH].
  - naive_solver.
Qed.

Lemma read_object_text request : replies (λ v, value_wf v = true) (read_object request).
Proof.
  unfold read_object. destruct (read_body request) as [body|[[status code] message]] eqn:Hb.
  - unfold parse_object. pose proof (parse_result body) as Hp. destruct (parse body) as [v|e].
    + destruct Hp as [Hv _]. destruct v; reply_steps. done.
    + reply_steps.
  - apply replies_throw. apply read_body_refusal_text in Hb. by apply text_error.
Qed.

Lemma field_text v key x : value_wf v = true → str_field v key = Some x → utf8_valid x = true.
Proof. intros Hv Hx. pose proof (str_field_valid v key Hv) as H. by rewrite Hx in H. Qed.

Lemma approval_json id payload :
  utf8_valid id = true → utf8_valid payload = true → json_reply (approval_response id payload).
Proof. intros Hi Hp. unfold approval_response, json_ok. body_ok. Qed.

Lemma approval_error_json e : json_reply (approval_error e).
Proof. destruct e; cbn [approval_error]; fixed_error. Qed.

Lemma approval_replies request wf : replies json_reply (handle_approval request wf).
Proof.
  unfold handle_approval. eapply replies_bind; [apply read_object_text|]. intros parsed Hv. cbn beta.
  destruct (str_field parsed "approval_id") as [id|] eqn:Hi; [|reply_steps].
  apply field_text in Hi; [|done]. destruct (bool_field parsed "allow") as [allow|]; [|reply_steps].
  unfold refuse_when. reply_steps; [|apply approval_error_json].
  apply approval_json; [done|]. by destruct allow.
Qed.

Lemma duplicate_json id : utf8_valid id = true → json_reply (duplicate_response id).
Proof. intros Hi. unfold duplicate_response, json_ok. body_ok. Qed.

Lemma delivered_json id outcome truncated :
  utf8_valid id = true → (0 ≤ eo_exit_code outcome ≤ u32_max)%Z →
  json_reply (delivered_response id outcome truncated).
Proof.
  intros Hi Hc. unfold delivered_response, json_ok. body_ok.
  apply bool_decide_eq_true. unfold u32_max in Hc. lia.
Qed.

Lemma conpty_json wf bound : utf8_valid wf = true → json_reply (conpty_unavailable wf bound).
Proof. intros Hw. unfold conpty_unavailable. body_ok. Qed.

Lemma deliver_error_json e : json_reply (deliver_error e).
Proof. destruct e; cbn [deliver_error]; fixed_error. Qed.
Lemma exec_error_json e : json_reply (exec_error e).
Proof. destruct e; cbn [exec_error]; fixed_error. Qed.

Lemma fields_replies request : replies (λ '(id, _, _), utf8_valid id = true) (input_fields request).
Proof.
  unfold input_fields. eapply replies_bind; [apply read_object_text|]. intros parsed Hv. cbn beta.
  destruct (str_field parsed "input_id") as [id|] eqn:Hi; [|reply_steps].
  apply field_text in Hi; [|done]. unfold refuse_when. reply_steps. done.
Qed.

(** The exit codes the host reports are [u32]. *)
Hypothesis exit_codes : ∀ n code, exit_of (run_before (exec_run n)) = Some code → (0 ≤ code ≤ u32_max)%Z.

Lemma run_replies wf id text s :
  match (run_command wf id text s).1 with
  | Ok outcome => (0 ≤ eo_exit_code outcome ≤ u32_max)%Z
  | Err _ => True
  end.
Proof.
  unfold run_command. pose proof (run_generic_spec text (exec_run (sv_attempts s))) as H.
  destruct (run_generic text _) as [[o|e] started]; [|done]. cbn.
  destruct H as (_ & _ & Hc & _). by eapply exit_codes.
Qed.

Lemma run_step_replies wf id text :
  replies (λ o, 0 ≤ eo_exit_code o ≤ u32_max)%Z (st_map_err exec_error (run_command wf id text)).
Proof. apply replies_map_err; [apply exec_error_json|apply run_replies]. Qed.
#[local] Hint Resolve run_step_replies : replies.

Lemma input_replies request wf : utf8_valid wf = true → replies json_reply (handle_input request wf).
Proof.
  intros Hw. unfold handle_input. eapply replies_bind; [apply fields_replies|].
  intros [[id text] destructive] Hi. cbn beta iota.
  unfold provider_gate, interactive_input_501, generic_input. reply_steps.
  - by apply conpty_json.
  - apply deliver_error_json.
  - by left.
  - by apply delivered_json.
  - by apply duplicate_json.
Qed.

(** ** Reading handlers *)

Definition config_texts (c : ConnectConfig) : bool :=
  forallb utf8_valid [cf_computer_id c; cf_display_name c; cf_owner_device_id c; cf_pubkey_b64 c;
    cf_fingerprint c; cf_cpu c; cf_ram c; cf_gpu c; cf_disk c].
Definition row_texts (row : WorkflowRow) : Prop :=
  utf8_valid (workflow_id row) = true ∧ utf8_valid (title row) = true.
Definition event_texts (e : EventRow) : Prop :=
  utf8_valid (er_event_id e) = true ∧ utf8_valid (er_summary e) = true ∧
  in_i64b (er_occurred_at_millis e) = true.

(** The columns a server shows hold what their types say. *)
Definition db_texts (d : Db) : Prop :=
  map_Forall (λ _, row_texts) (workflows d) ∧ Forall event_texts (workflow_events d).

Record texts_ok (s : Server) : Prop := {
  tx_config : config_texts (sv_config s) = true;
  tx_registry : registry_ok (sv_registry s) = true;
  tx_db : db_texts (db (sv_world s));
}.

Lemma db_texts_tables d d' : tables d' = tables d → db_texts d → db_texts d'.
Proof. unfold db_texts, tables. by intros [= -> -> _ _ _ _]. Qed.

Lemma texts_untouched s s' : untouched s s' → texts_ok s → texts_ok s'.
Proof.
  intros [Ht _ _ Hr Hs] [Hc Hg Hd]. injection Hs as Hcfg _. split; [by rewrite Hcfg|by rewrite Hr|].
  by eapply db_texts_tables.
Qed.

Lemma status_text z : utf8_valid (status_str z) = true.
Proof.
  unfold status_str. assert (utf8_valid ("unknown_" +:+ dec z) = true).
  { apply utf8_valid_app; [done|apply dec_valid]. }
  by destruct (state_from_i32 z) as [[]|].
Qed.

Lemma event_type_fits t : in_i64b (event_type_i32 t) = true.
Proof. by destruct t. Qed.

Lemma to_i64_fits z : in_i64b (to_i64 z) = true.
Proof. apply bool_decide_eq_true. unfold to_i64. pose proof (Z.mod_pos_bound (z + 2 ^ 63) (2 ^ 64)). lia. Qed.

(** A step of a handler that changes nothing it shows. *)
Lemma wp_reply_step {A B} (P : A → Prop) (m : Handler A) (k : A → Handler B) (Q : result B Response → Server → Prop) s :
  texts_ok s → replies P m → follows untouched m →
  (∀ r s', json_reply r → Q (Err r) s') →
  (∀ a s', P a → texts_ok s' → untouched s s' → wp (k a) Q s') → wp (st_bind m k) Q s.
Proof.
  intros Hs Hm Hu Herr Hk. apply wp_bind, wp_of. intros r s' Hr. specialize (Hm s). specialize (Hu s).
  rewrite Hr in Hm, Hu. cbn in Hm, Hu. destruct r as [a|r]; [|by apply Herr].
  apply Hk; [done| |done]. by eapply texts_untouched.
Qed.

Definition answers_json (r : result Response Response) (s : Server) : Prop := json_reply (response_of r).

Lemma devices_replies query s : texts_ok s → wp (handle_devices query) answers_json s.
Proof.
  intros [Hc _ _]. unfold handle_devices, wp, answers_json. cbn.
  assert (json_reply (json_ok (devices_body (sv_config s)))) as Hj.
  { unfold config_texts in Hc. cbn [forallb] in Hc. rewrite !andb_true_iff in Hc.
    destruct Hc as (? & ? & ? & ? & ? & _). unfold json_ok, devices_body. body_ok. }
  destruct (query_value query "user_id") as [user|]; [destruct (String.eqb user "")|]; try done;
    fixed_error.
Qed.

Lemma check_replies id : replies (λ _, True) (check_computer id).
Proof. intros s. unfold check_computer. destruct (String.eqb id _); cbn; [done|fixed_error]. Qed.

Lemma manager_replies : replies (λ _, True) (lifecycle_500 open_manager).
Proof. apply replies_any. intros e. apply internal_json. Qed.

Lemma sysinfo_replies id s : texts_ok s → wp (handle_sysinfo id) answers_json s.
Proof.
  intros Hs. unfold handle_sysinfo.
  eapply wp_reply_step; [done|apply check_replies|apply untouched_check_computer|done|].
  intros _ s1 _ [Hc _ _] _. apply wp_bind, wp_get, wp_ret.
  unfold config_texts in Hc. cbn [forallb] in Hc. rewrite !andb_true_iff in Hc.
  destruct Hc as (_ & _ & _ & _ & _ & ? & ? & ? & ? & _).
  unfold answers_json, response_of, json_ok, sysinfo_body. body_ok.
Qed.

Lemma row_prints config row : config_texts config = true → row_texts row → prints 1 (workflow_row_value config row) = true.
Proof.
  unfold config_texts. cbn [forallb]. rewrite !andb_true_iff. intros (? & _) [? ?].
  pose proof (status_text (state row)). unfold workflow_row_value. repeat prints_step.
Qed.

Lemma rows_print config ids rows w :
  config_texts config = true → db_texts (db w) → forallb (prints 1) rows = true →
  wp (computer_rows config ids rows) (λ r _, ∃ rows', r = Ok rows' ∧ forallb (prints 1) rows' = true) w.
Proof.
  intros Hc. revert rows w. induction ids as [|id ids IH]; intros rows w Hw Hrows; cbn [computer_rows].
  { apply wp_ret. by exists rows. }
  apply wp_bind, wp_try, wp_from_storage, wp_get_workflow; [intros e w1 Hw1 _; apply IH; by rewrite ?Hw1|].
  intros w1 _ Hdb. cbn. destruct (workflows (db w) !! id) as [row|] eqn:Hrow; [|apply IH; by rewrite ?Hdb].
  destruct (String.eqb (workflow_id row) ""); apply IH; rewrite ?Hdb; try done.
  rewrite forallb_app, Hrows. cbn. rewrite row_prints; [done|done|]. by apply (proj1 Hw _ _ Hrow).
Qed.

Lemma computer_replies id s : texts_ok s → wp (handle_computer id) answers_json s.
Proof.
  intros Hs. unfold handle_computer.
  eapply wp_reply_step; [done|apply check_replies|apply untouched_check_computer|done|]. intros _ s1 _ H1 _.
  eapply wp_reply_step; [done|apply manager_replies|apply untouched_lifecycle_500, keeps_manager_open|done|].
  intros _ s2 _ H2 _.
  eapply (wp_reply_step (λ t, in_i64b t = true)); [done| |apply untouched_500, keeps_now|done|].
  { apply replies_map_err; [intros e; apply internal_json|]. intros s0. cbn.
    unfold now_millis. destruct (clock _); [apply to_i64_fits|done]. }
  intros t s3 Ht [Hc Hg Hd] _. apply wp_bind, wp_get, wp_bind. unfold lifecycle_500. apply wp_map_err, wp_on_world.
  unfold computer_body. apply wp_bind. eapply wp_mono; [by apply rows_print|].
  intros r w (rows & -> & Hrows). cbn beta iota. apply wp_ret. cbn [map_err]. apply wp_ret.
  pose proof Hc as Hc'. unfold config_texts in Hc'. cbn [forallb] in Hc'. rewrite !andb_true_iff in Hc'.
  destruct Hc' as (? & ? & _). unfold answers_json, response_of, json_ok. apply body_json. 
  apply (prints_weaken 3); [lia|]. repeat prints_step. 
Qed.

Lemma activity_prints e : event_texts e → prints 1 (activity_value (map_event e)) = true.
Proof.
  intros (? & ? & ?). pose proof (event_type_fits (event_type (map_event e))).
  pose proof (to_i64_fits (seq_no (map_event e))). unfold activity_value. repeat prints_step.
Qed.

Lemma resolved_prints row : approval_ok row = true → prints 1 (resolved_value row) = true.
Proof.
  unfold approval_ok. rewrite !andb_true_iff, !id_ok_spec. intros [[[? _] _] [? _]].
  unfold resolved_value. repeat prints_step.
Qed.

Lemma limit_in {A} n (l : list A) x : x ∈ limit n l → x ∈ l.
Proof.
  revert n. induction l as [|y l IH]; intros n H; [done|]. cbn in H. destruct (n <=? 0)%Z; [by apply elem_of_nil in H|].
  apply elem_of_cons in H as [->|H]; [by left|right; eauto].
Qed.

(** The events a replay reads are rows of the table. *)
Lemma replayed_rows wf after lim d e :
  e ∈ map_event <$> limit lim (sort_by er_seq_no (filter (λ r, (er_seq_no r > after)%Z) (events_of wf d))) →
  ∃ r, e = map_event r ∧ r ∈ workflow_events d.
Proof.
  intros (r & -> & Hr)%list_elem_of_fmap. exists r. split; [done|].
  assert (r ∈ sort_by er_seq_no (filter (λ r, (er_seq_no r > after)%Z) (events_of wf d))) as H.
  { by eapply limit_in. }
  rewrite sort_by_perm in H. apply list_elem_of_filter in H as [_ H]. by apply list_elem_of_filter in H as [_ ?].
Qed.

Lemma snapshot_prints registry computer wf w :
  utf8_valid computer = true → registry_ok registry = true → db_texts (db w) →
  wp (workflow_snapshot_body registry computer wf) (λ r _,
    match r with Ok (Some body) => ∃ l, body = obj l ∧ prints 10 (obj l) = true | _ => True end) w.
Proof.
  intros Hcomp Hreg [Hrows Hevents]. unfold workflow_snapshot_body. apply wp_bind. unfold manager_get_workflow.
  apply wp_from_storage, wp_get_workflow; [done|]. intros w1 _ Hw1. cbn [map_err].
  destruct (workflows (db w) !! wf) as [row|] eqn:Hrow; [|by apply wp_ret].
  apply wp_bind, wp_from_storage. unfold events_after. apply wp_select; [done|]. intros w2 _ Hw2. cbn [map_err].
  apply wp_ret. eexists. split; [reflexivity|].
  set (events := map_event <$> _).
  assert (∀ e, e ∈ events → ∃ r, e = map_event r ∧ event_texts r) as Hev.
  { intros e He. apply replayed_rows in He as (r & -> & Hr). exists r. split; [done|].
    rewrite Hw1 in Hr. by eapply Forall_forall in Hevents. }
  pose proof (Hrows _ _ Hrow) as [? ?]. pose proof (status_text (state row)).
  unfold registry_ok in Hreg. apply andb_true_iff in Hreg as [_ Ha]. rewrite forallb_forall in Ha.
  apply (prints_weaken 3); [lia|]. repeat prints_step.
  - destruct (last events); [apply to_i64_fits|done].
  - match goal with H : _ ∈ drop _ _ |- _ => apply list_elem_of_lookup in H as (k & Hk) end.
    rewrite lookup_drop in Hk. apply list_elem_of_lookup_2 in Hk.
    apply Hev in Hk as (r & -> & Hr). by apply activity_prints.
  - match goal with H : _ ∈ filter _ _ |- _ => apply list_elem_of_filter in H as [_ Hin] end.
    apply resolved_prints, Ha. by apply list_elem_of_In.
Qed.

Lemma snapshot_replies computer wf s :
  utf8_valid computer = true → texts_ok s → wp (handle_workflow_snapshot computer wf) answers_json s.
Proof.
  intros Hcomp Hs. unfold handle_workflow_snapshot.
  eapply wp_reply_step; [done|apply check_replies|apply untouched_check_computer|done|]. intros _ s1 _ H1 _.
  eapply wp_reply_step; [done|apply manager_replies|apply untouched_lifecycle_500, keeps_manager_open|done|].
  intros _ s2 _ [Hc Hg Hd] _. apply wp_bind, wp_get, wp_bind. unfold lifecycle_500. apply wp_map_err, wp_on_world.
  eapply wp_mono; [by apply snapshot_prints|]. intros r w Hr. cbn beta in Hr.
  destruct r as [[body|]|e]; cbn [map_err]; [| |apply internal_json].
  - destruct Hr as (l & -> & Hl). apply wp_of. intros r s3 Hrun.
    assert (r = Ok (json_ok (obj l))) as ->.
    { unfold touch, modify, st_bind, st_ret in Hrun. cbn in Hrun. by injection Hrun as <-. }
    unfold answers_json, response_of, json_ok. by apply body_json.
  - apply wp_ret. unfold answers_json, response_of. fixed_error.
Qed.

(** The parts of a decoded path are texts, and not empty. *)
Lemma segments_text path : Forall (λ part, id_ok part = true) (path_segments path).
Proof.
  unfold path_segments. apply Forall_fmap, Forall_forall. intros part [Hn _]%list_elem_of_filter.
  apply id_ok_spec. split; [apply from_utf8_lossy_valid|]. unfold percent_decode. rewrite lossy_empty.
  destruct part as [|b [|h [|l rest]]]; try done; cbn [percent_bytes]. by repeat case_match.
Qed.

Definition route_texts (r : Route) : Prop :=
  match r with
  | WorkflowSnapshot computer wf => id_ok computer = true ∧ id_ok wf = true
  | Computer id | Sysinfo id | ApprovalRoute id | InputRoute id => id_ok id = true
  | _ => True
  end.

Lemma route_text method url : route_texts (route method url).
Proof.
  unfold route. destruct (split_path url) as [path query]. pose proof (segments_text path) as Hp.
  revert Hp. generalize (path_segments path). intros parts Hp. destruct method; [| |exact I].
  all: repeat first [exact I | match goal with |- route_texts (match ?x with _ => _ end) => destruct_head x end].
  all: cbn -[id_ok]; rewrite !Forall_cons in Hp; tauto.
Qed.

Lemma answers_of {m : Handler Response} : replies json_reply m → ∀ s, wp m answers_json s.
Proof. intros H s. apply wp_of. intros r s' Hr. specialize (H s). rewrite Hr in H. by destruct r. Qed.

Lemma dispatch_replies request r s :
  route_texts r → texts_ok s → wp (dispatch_route request r) answers_json s.
Proof.
  intros Hr Hs. destruct r; cbn [dispatch_route]; cbn -[id_ok] in Hr.
  - by apply devices_replies.
  - by apply computer_replies.
  - by apply sysinfo_replies.
  - destruct Hr as [[Hv _]%id_ok_spec _]. by apply snapshot_replies.
  - apply (answers_of (approval_replies request _)).
  - apply id_ok_spec in Hr as [Hr _]. apply (answers_of (input_replies request _ Hr)).
  - apply wp_ret. unfold answers_json, response_of. fixed_error.
Qed.

(** ** The texts stay texts *)

Definition texts_move (d d' : Db) : Prop := db_texts d → db_texts d'.
#[local] Instance texts_move_preorder : PreOrder texts_move.
Proof. split; unfold texts_move; [by intros d|intros d1 d2 d3; auto]. Qed.

Lemma moves_bind {A B} (m : StoreM A) (k : A → StoreM B) :
  db_moves texts_move m → (∀ a, db_moves texts_move (k a)) → db_moves texts_move (st_bind m k).
Proof.
  intros Hm Hk w. unfold st_bind. specialize (Hm w). destruct (m w) as [[a|e] w1]; [|done].
  etrans; [exact Hm|apply Hk].
Qed.
Lemma moves_same {A} (m : StoreM A) : (∀ w, db (m w).2 = db w) → db_moves texts_move m.
Proof. intros H w. by rewrite H. Qed.
Lemma moves_tables {E A} (m : ST World E A) : keeps_tables m → db_moves texts_move m.
Proof. intros Hm w Hw. exact (db_texts_tables _ _ (Hm w) Hw). Qed.
Lemma moves_call {A} (f : Db → result (A * Db) SqliteError) :
  (∀ d a d', f d = Ok (a, d') → texts_move d d') → db_moves texts_move (sqlite_call f).
Proof.
  intros Hf w. unfold sqlite_call. destruct (fault (stmts w)); [done|].
  destruct (f (db w)) as [[a d]|e] eqn:E; [|done]. by eapply Hf.
Qed.
Lemma moves_execute {A} (f : Db → result (A * Db) SqliteError) :
  (∀ d a d', f d = Ok (a, d') → texts_move d d') → db_moves texts_move (execute f).
Proof. intros Hf. apply moves_call. intros d a d'. destruct (schema d); [apply Hf|done]. Qed.
Lemma moves_query {A} (f : Db → result A SqliteError) : db_moves texts_move (query f).
Proof. apply moves_execute. intros d a d'. destruct (f d); [|done]. by intros [= _ <-]. Qed.
Lemma moves_transaction {A} (m : StoreM A) : db_moves texts_move m → db_moves texts_move (transaction m).
Proof.
  intros Hm w. unfold transaction.
  assert (∀ w0, db (sqlite_call (λ d, Ok (tt, d)) w0).2 = db w0) as Hs.
  { intros w0. unfold sqlite_call. by destruct (fault (stmts w0)). }
  pose proof (Hs w) as H1. destruct (sqlite_call _ w) as [[[]|e] w1]; cbn in H1; [|cbn; by rewrite H1].
  specialize (Hm w1). rewrite H1 in Hm. destruct (m w1) as [[a|e] w2]; [|done].
  pose proof (Hs w2) as H2. destruct (sqlite_call _ w2) as [[[]|e] w3]; cbn in H2; [|done].
  cbn. by rewrite H2.
Qed.

Lemma moves_trim wf : db_moves texts_move (trim_ring wf).
Proof.
  unfold trim_ring, select. apply moves_bind; [apply moves_query|]. intros [count bytes].
  destruct (_ && _); [by apply moves_same|]. apply moves_bind; [apply moves_query|]. intros newest.
  apply moves_bind; [apply moves_query|]. intros rows. destruct (trim_walk _ _ _ _) as [cutoff|]; [|by apply moves_same].
  apply moves_bind.
  - apply moves_execute. intros d a d' [= _ <-] [Hw He]. split; [done|]. by apply Forall_kept.
  - intros deleted. apply moves_bind; [by apply moves_same|]. intros t. apply moves_execute.
    intros d a d' [= _ <-] H. exact H.
Qed.

Definition draft_texts (draft : EventDraft) : Prop :=
  utf8_valid (dr_event_id draft) = true ∧ utf8_valid (dr_summary draft) = true ∧
  in_i64b (dr_occurred_at_millis draft) = true.

Lemma moves_append draft : draft_texts draft → db_moves texts_move (append_event draft).
Proof.
  intros Hd. unfold append_event, get_workflow, select. apply moves_bind; [apply moves_query|].
  intros [row|]; [|by apply moves_same]. apply moves_bind; [|by intros; apply moves_same].
  unfold append_tx, select. apply moves_transaction, moves_bind; [apply moves_query|]. intros seq.
  apply moves_bind.
  { apply moves_execute. intros d a d'. unfold insert_event. case_bool_decide; [done|].
    destruct (workflows d !! _); [|done]. intros [= _ <-] [Hw He]. split; [done|]. cbn.
    apply Forall_app. split; [done|]. by apply Forall_singleton. }
  intros _. apply moves_bind; [by apply moves_same|]. intros t. apply moves_bind.
  { apply moves_execute. intros d a d'. unfold insert_outbox. case_bool_decide; [done|].
    intros [= _ <-] H'. exact H'. }
  intros _. apply moves_bind; [apply moves_trim|]. intros _. by apply moves_same.
Qed.

Lemma moves_requests {A} (m : StoreM A) :
  (∀ w, same_but_requests (db w) (db (m w).2)) → db_moves texts_move m.
Proof. intros H w. specialize (H w). unfold same_but_requests in H. unfold texts_move, db_texts. by rewrite <-H. Qed.

Lemma moves_resolve id payload : db_moves texts_move (resolve_pending_request id payload).
Proof.
  apply moves_requests. intros w. apply (wp_run _ (λ _ w', same_but_requests (db w) (db w'))).
  by apply wp_resolve.
Qed.

Lemma moves_create id wf : db_moves texts_move (create_pending_request id wf Input None).
Proof.
  apply moves_requests. intros w. apply (wp_run _ (λ _ w', same_but_requests (db w) (db w'))).
  apply wp_create_request.
  - intros e w' -> _. apply same_but_requests_refl.
  - intros t w' _ _ ->. apply same_but_requests_set.
Qed.

Lemma moves_deliver wf id : db_moves texts_move (deliver_once wf id).
Proof.
  intros w. pose proof (router_moves_deliver texts_move wf id (λ k, moves_create k wf) (λ k, moves_resolve k "")
    (router_new w)) as H. unfold deliver_once. by destruct (deliver wf id (router_new w)) as [r rt].
Qed.

Definition texts_kept (s s' : Server) : Prop := texts_ok s → texts_ok s'.
#[local] Instance texts_kept_preorder : PreOrder texts_kept.
Proof. split; unfold texts_kept; [by intros s|intros s1 s2 s3; auto]. Qed.

Lemma kept_bind {A B} (P : A → Prop) (m : Handler A) (k : A → Handler B) :
  replies P m → follows texts_kept m → (∀ a, P a → follows texts_kept (k a)) →
  follows texts_kept (st_bind m k).
Proof.
  intros Hp Hm Hk s. unfold st_bind. specialize (Hp s). specialize (Hm s).
  destruct (m s) as [[a|e] s1]; [|done]. etrans; [exact Hm|by apply Hk].
Qed.

Lemma kept_world {E A} (m : ST World E A) : db_moves texts_move m → follows texts_kept (on_world m).
Proof.
  intros Hm s [Hc Hg Hd]. specialize (Hm (sv_world s)). unfold on_world.
  destruct (m (sv_world s)) as [r w]. split; [done|done|]. by apply Hm.
Qed.
Lemma kept_tables {E A} (m : ST World E A) : keeps_tables m → follows texts_kept (on_world m).
Proof. intros Hm. apply kept_world. intros w Hw. exact (db_texts_tables _ _ (Hm w) Hw). Qed.

Lemma kept_same {E A} (m : ServerM E A) :
  (∀ s, (sv_config (m s).2, sv_registry (m s).2, sv_world (m s).2) = (sv_config s, sv_registry s, sv_world s)) →
  follows texts_kept m.
Proof. intros H s [Hc Hg Hd]. specialize (H s). injection H as H1 H2 H3. split; by rewrite ?H1, ?H2, ?H3. Qed.

Lemma kept_write path text : follows texts_kept (fs_write path text).
Proof. apply kept_same. intros s. unfold fs_write. by destruct (io_fault (sv_calls s)). Qed.
Lemma kept_dir path : follows texts_kept (fs_create_dir path).
Proof. apply kept_same. intros s. unfold fs_create_dir. by destruct (io_fault (sv_calls s)). Qed.
Lemma kept_read path : follows texts_kept (fs_read path).
Proof. by apply kept_same. Qed.
Lemma kept_persist : follows texts_kept persist_registry.
Proof. apply kept_same. intros s. unfold persist_registry, fs_write. by destruct (io_fault (sv_calls s)). Qed.
Lemma kept_run wf id text : follows texts_kept (run_command wf id text).
Proof. apply kept_same. intros s. unfold run_command. by destruct (run_generic text _) as [r []]. Qed.
Lemma kept_check id : follows texts_kept (check_computer id).
Proof. apply kept_same. intros s. unfold check_computer. by destruct (String.eqb id _). Qed.
Lemma kept_registry {E} (op : registry_op) :
  registry_op_ok op = true → follows texts_kept (modify (E:=E) (λ s, set_registry (registry_step (sv_registry s) op) s)).
Proof. intros Hop s [Hc Hg Hd]. split; [done| |done]. by apply registry_step_ok. Qed.
Lemma kept_touch wf : utf8_valid wf = true → follows texts_kept (touch wf).
Proof. apply (kept_registry (Touch wf)). Qed.

#[local] Hint Resolve kept_write kept_dir kept_read kept_persist kept_run kept_check kept_touch kept_tables
  keeps_manager_open keeps_open_storage keeps_manager_get keeps_now keeps_lookup : server.

(** A bind whose first part only yields values of [P]. *)
Lemma kept_bind_val {E A B} (P : A → Prop) (m : ServerM E A) (k : A → ServerM E B) :
  (∀ s, match (m s).1 with Ok a => P a | Err _ => True end) → follows texts_kept m →
  (∀ a, P a → follows texts_kept (k a)) → follows texts_kept (st_bind m k).
Proof.
  intros Hp Hm Hk s. unfold st_bind. specialize (Hp s). specialize (Hm s).
  destruct (m s) as [[a|e] s1]; [|done]. etrans; [exact Hm|by apply Hk].
Qed.

Lemma now_fits {E} (f : StorageError → E) s :
  match (st_map_err f (on_world now) s).1 with Ok t => in_i64b t = true | Err _ => True end.
Proof. cbn. unfold now_millis. destruct (clock _); [apply to_i64_fits|done]. Qed.

Lemma kept_append {E} (f : StorageError → E) draft :
  draft_texts draft → follows texts_kept (st_map_err f (on_world (append_event draft))).
Proof. intros Hd. apply (follows_map_err texts_kept), kept_world, moves_append, Hd. Qed.

Lemma mark_text destructive : utf8_valid (destructive_mark destructive) = true.
Proof. by destruct destructive. Qed.

Ltac texts := repeat first [assumption | reflexivity | apply dec_valid | apply mark_text | apply utf8_valid_app].

Lemma kept_record wf id session outcome destructive :
  utf8_valid id = true → follows texts_kept (record_run wf id session outcome destructive).
Proof.
  intros Hid. unfold record_run. apply (follows_bind texts_kept).
  { unfold write_tail. follow_steps. }
  intros [tail_path tail_cut].
  apply (kept_bind_val (λ t, in_i64b t = true)); [intros s; apply now_fits|follow_steps|]. intros t1 Ht1.
  apply (kept_bind_val (λ t, in_i64b t = true)); [intros s; apply now_fits|follow_steps|]. intros t2 Ht2.
  unfold run_drafts. cbn beta iota.
  apply (follows_bind texts_kept); [apply kept_append|intros _].
  { split_and!; cbn [dr_event_id dr_summary dr_occurred_at_millis]; texts. }
  apply (follows_bind texts_kept); [apply kept_append|intros _; follow_steps].
  split_and!; cbn [dr_event_id dr_summary dr_occurred_at_millis]; texts. by destruct tail_cut.
Qed.

Lemma kept_input request wf : utf8_valid wf = true → follows texts_kept (handle_input request wf).
Proof.
  intros Hw. unfold handle_input. eapply kept_bind; [apply fields_replies| |].
  { unfold input_fields, read_object, refuse_when. follow_steps. }
  intros [[id text] destructive] Hi. cbn beta iota.
  pose proof (λ o, kept_record wf id o) as Hrec.
  assert (follows texts_kept (on_world (E:=StorageError) (deliver_once wf id))) as Hdel by apply kept_world, moves_deliver.
  unfold provider_gate, interactive_input_501, generic_input, storage_500, lifecycle_500.
  follow_steps.
Qed.

Lemma field_nonempty_ok id wf payload :
  utf8_valid id = true → id ≠ "" → utf8_valid wf = true → wf ≠ "" → payload = "approved" ∨ payload = "rejected" →
  registry_op_ok (RecordApproval (mk_resolved id wf payload)) = true.
Proof.
  intros Hi Hn Hw Hwn Hp. cbn. unfold approval_ok. rewrite !andb_true_iff, !id_ok_spec. cbn.
  split_and!; try done; by destruct Hp as [-> | ->].
Qed.

Lemma kept_approval request wf : utf8_valid wf = true → wf ≠ "" → follows texts_kept (handle_approval request wf).
Proof.
  intros Hw Hn. unfold handle_approval. eapply kept_bind; [apply read_object_text|unfold read_object; follow_steps|].
  intros parsed Hv. cbn beta. destruct (str_field parsed "approval_id") as [id|] eqn:Hi; [|follow_steps].
  apply field_text in Hi; [|done]. destruct (bool_field parsed "allow") as [allow|]; [|follow_steps].
  unfold refuse_when at 1. destruct (String.eqb_spec id "") as [->|Hid]; [by intros s|].
  apply (follows_bind texts_kept); [follow_steps|intros _].
  assert (∀ payload, follows texts_kept (on_world (E:=StorageError) (resolve_pending_request id payload))) as Hres
    by (intros p; apply kept_world, moves_resolve).
  pose proof (λ payload Hp, kept_registry (E:=Response) _ (field_nonempty_ok id wf payload Hi Hid Hw Hn Hp)) as Hrec.
  cbn [registry_step] in Hrec. unfold refuse_when, storage_500, lifecycle_500.
  follow_steps. apply Hrec. destruct allow; auto.
Qed.

Lemma kept_dispatch request r : route_texts r → follows texts_kept (dispatch_route request r).
Proof.
  intros Hr. destruct r; cbn [dispatch_route]; cbn -[id_ok] in Hr.
  - by apply kept_same.
  - unfold handle_computer, storage_500, lifecycle_500. follow_steps. apply kept_tables, keeps_computer_body.
  - unfold handle_sysinfo. follow_steps.
  - destruct Hr as [_ [Hw _]%id_ok_spec]. unfold handle_workflow_snapshot, lifecycle_500. follow_steps.
    apply kept_tables. intros w. apply (wp_run (workflow_snapshot_body _ _ _) (λ _ w', tables (db w') = tables (db w))).
    eapply wp_mono; [apply wp_snapshot|]. by intros r w' [? _].
  - apply id_ok_spec in Hr as [? ?]. by apply kept_approval.
  - apply id_ok_spec in Hr as [? _]. by apply kept_input.
  - follow_steps.
Qed.

Lemma kept_reply request s : texts_ok s → texts_ok (reply request s).2.
Proof.
  intros Hs. unfold reply. destruct (negb (bearer_ok request (sv_token s))); [done|].
  pose proof (kept_dispatch request _ (route_text (hr_method request) (hr_url request)) s Hs) as H.
  by destruct (dispatch_route _ _ s) as [[?|?] ?].
Qed.

Lemma kept_new : follows texts_kept server_new.
Proof.
  unfold server_new. follow_steps; [by apply kept_same|].
  intros s [Hc Hg Hd]. split; [done|apply registry_load_ok|done].
Qed.

(** C32: typed answers, for ever.  A server whose configuration, registry and
    rows hold texts and 64-bit numbers keeps them so over any requests and
    restarts, whatever fails; and every answer it gives on the way, but a 401
    and the engine's message of a 500, is valid UTF-8 from which the parser of
    this very program reads a JSON object. *)
Theorem replies_are_json (s : Server) (history : list server_op) (request : Request) :
  texts_ok s → Forall (λ op, match op with Agent _ => False | _ => True end) history →
  let s' := runs server_step history s in
  texts_ok s' ∧
  if bearer_ok request (sv_token s') then json_reply (reply request s').1
  else (reply request s').1 = unauthorized.
Proof.
  intros Hs Hh s'. assert (texts_ok s') as Hs'.
  { subst s'. revert s Hs. induction Hh as [|op ops Hop _ IH]; intros s Hs; [done|]. cbn [runs]. apply IH.
    destruct op as [r| |op]; [by apply kept_reply|by apply kept_new|done]. }
  split; [done|]. destruct (bearer_ok request (sv_token s')) eqn:Hb; unfold reply; rewrite Hb; [|done].
  pose proof (dispatch_replies request _ s' (route_text (hr_method request) (hr_url request)) Hs') as H.
  unfold wp in H. cbn [negb]. by destruct (dispatch_route _ _ s') as [[?|?] ?].
Qed.

End ReplyJson.

(** ** Witness

    The sample server, whose commands exit with code 0. *)

#[local] Existing Instances sample_env sample_host sample_paths sample_headers.

Lemma sample_exit_codes n code :
  exit_of (run_before (exec_run n)) = Some code → (0 ≤ code ≤ u32_max)%Z.
Proof. cbn. intros [= <-]. unfold u32_max. lia. Qed.

Lemma sample_texts : texts_ok sample_server.
Proof.
  split; [reflexivity|reflexivity|]. split.
  - apply map_Forall_to_list.
    assert (map_to_list (workflows (db (sv_world sample_server))) = [("wf-1",
      mk_workflow_row "wf-1" 4 1 "build" None 1007 1007)]) as -> by (vm_compute; reflexivity).
    by repeat constructor.
  - assert (workflow_events (db (sv_world sample_server)) = [mk_event_row "wf-1" 1 "lifecycle-wf-1-1-1014" None
      1 1014 "workflow created" None 101]) as -> by (vm_compute; reflexivity).
    by repeat constructor.
Qed.

Lemma replies_are_json_witness :
  let s' := runs server_step [Serve sample_input; Restart] sample_server in
  texts_ok s' ∧ json_reply (reply sample_input s').1.
Proof.
  assert (Forall (λ op, match op with Agent _ => False | _ => True end) [Serve sample_input; Restart]) as Hh
    by (by repeat constructor).
  pose proof (replies_are_json sample_exit_codes sample_server _ sample_input sample_texts Hh) as [Ht Hr].
  assert (bearer_ok sample_input (sv_token (runs server_step [Serve sample_input; Restart] sample_server)) = true) as Hb
    by (vm_compute; reflexivity).
  rewrite Hb in Hr. exact (conj Ht Hr).
Defined.
