(* ===== verification/EnvBlock.v ===== *)
(** * EnvBlock: wide strings and the environment block (crate calcar-pty)

    [wide] and [environment_block] of [calcar-pty/src/lib.rs] and
    [plain.rs]: what [CreateProcessW] is given.  The environment of the agent
    and [str::to_uppercase] beyond ASCII are parameters. *)

From S2P Require Import Prelude Text BTree.
From Stdlib Require Import Ascii.

(** ** UTF-16 *)

(** The bits a byte contributes to the code point of its character. *)
Definition byte_bits (st : ustate) (v : Z) : Z :=
  match st with
  | U0 => if in_range 0x00 0x7F v then v
          else if in_range 0xC2 0xDF v then v - 0xC0
          else if in_range 0xE0 0xEF v then v - 0xE0
          else v - 0xF0
  | _ => v - 0x80
  end%Z.

(** The code units of one code point. *)
Definition utf16_units (code : Z) : list Z :=
  if (code <? 0x10000)%Z then [code]
  else [0xD800 + (code - 0x10000) `div` 0x400; 0xDC00 + (code - 0x10000) `mod` 0x400]%Z.

(** [str::encode_utf16], along the decoder of [str]: [acc] holds the bits of
    the unfinished character. *)
Fixpoint utf16_go (st : ustate) (acc : Z) (s : string) : list Z :=
  match s with
  | "" => []
  | String b s' =>
      let acc' := (acc * 64 + byte_bits st (byte_val b))%Z in
      match ustep st b with
      | Some U0 => utf16_units acc' ++ utf16_go U0 0 s'
      | Some st' => utf16_go st' acc' s'
      | None => []
      end
  end.
Definition encode_utf16 (s : string) : list Z := utf16_go U0 0 s.

(** [wide] *)
Definition wide (value : string) : list Z := encode_utf16 value ++ [0%Z].

(** ** The block *)

(** An [OsString] of Windows: Unicode text, or units that are none. *)
Inductive OsString := Unicode (text : string) | NotUnicode (units : list Z).

(** [OsString::into_string] *)
Definition into_string (s : OsString) : option string :=
  match s with Unicode text => Some text | NotUnicode _ => None end.

Class ProcessEnv := {
  (** [std::env::vars_os] *)
  env_vars_os : list (OsString * OsString);
  (** [str::to_uppercase] *)
  to_uppercase : string → string;
}.

(** [std::env::vars], consumed to its end: it panics, [None], at the first
    variable whose name or value is not Unicode. *)
Definition env_vars `{ProcessEnv} : option (list (string * string)) :=
  mapM (λ '(key, value), k ← into_string key; v ← into_string value; Some (k, v)) env_vars_os.

Definition env_item (pair : string * string) : list Z :=
  encode_utf16 pair.1 ++ [61%Z] ++ encode_utf16 pair.2.

(** The map of [environment_block], when [std::env::vars] does not panic. *)
Definition environment_map `{ProcessEnv} (overrides : list (string * string)) : option (btree string) :=
  vars ← env_vars;
  Some (foldl (λ map '(key, value), bt_insert (to_uppercase key) value map)
    (bt_of_list ((λ '(k, v), (to_uppercase k, v)) <$> vars)) overrides).

(** [environment_block] *)
Definition environment_block `{ProcessEnv} (overrides : list (string * string)) : option (list Z) :=
  map ← environment_map overrides;
  Some ((map ≫= λ pair, env_item pair ++ [0%Z]) ++ [0%Z]).

(** ** How Windows reads them *)

(** A null-terminated wide string, and what comes after its terminator;
    [None] when the buffer ends first. *)
Fixpoint read_wide (units : list Z) : option (list Z * list Z) :=
  match units with
  | [] => None
  | u :: rest =>
      if (u =? 0)%Z then Some ([], rest)
      else '(text, after) ← read_wide rest; Some (u :: text, after)
  end.

(** The entries of a block, each ended by its null, up to the empty one, and
    what comes after; [cur] is the entry being read.  [None] when the buffer ends
    inside an entry or before the empty one. *)
Fixpoint read_block (cur : list Z) (units : list Z) : option (list (list Z) * list Z) :=
  match units with
  | [] => None
  | u :: rest =>
      if (u =? 0)%Z then
        match cur with
        | [] => Some ([], rest)
        | _ => '(entries, after) ← read_block [] rest; Some (cur :: entries, after)
        end
      else read_block (cur ++ [u]) rest
  end.

(** ** Facts *)

Definition NUL : ascii := "000".

(** The least value [acc] may have in a decoder state. *)
Definition acc_ok (st : ustate) (acc : Z) : Prop :=
  match st with
  | U0 => acc = 0
  | UE0 | UF0 => 0 ≤ acc
  | _ => 1 ≤ acc
  end%Z.

Lemma byte_bits_step st b st' acc :
  b ≠ NUL → acc_ok st acc → ustep st b = Some st' →
  let acc' := (acc * 64 + byte_bits st (byte_val b))%Z in
  match st' with U0 => (0 < acc')%Z | _ => acc_ok st' acc' end.
Proof.
  intros Hb Hacc Hs. pose proof (byte_val_range b).
  assert (byte_val b ≠ 0%Z) by (intros E; apply Hb; by apply byte_val_inj).
  unfold ustep in Hs. unfold byte_bits, acc_ok in *. cbn zeta.
  destruct st; repeat (match type of Hs with (if ?c then _ else _) = _ => destruct c eqn:? end);
    try discriminate; injection Hs as <-;
    repeat match goal with
    | H : in_range _ _ _ = true |- _ => apply andb_true_iff in H as [?%Z.leb_le ?%Z.leb_le]
    | H : in_range _ _ _ = false |- _ => apply andb_false_iff in H; rewrite !Z.leb_gt in H
    | |- context [in_range ?a ?b ?v] => unfold in_range at 1;
        destruct (Z.leb_spec a v), (Z.leb_spec v b); cbn [andb]
    end; lia.
Qed.

Lemma utf16_units_nonzero code : (0 < code)%Z → Forall (λ u, u ≠ 0%Z) (utf16_units code).
Proof.
  intros H. unfold utf16_units. destruct (Z.ltb_spec code 0x10000).
  - repeat constructor. lia.
  - pose proof (Z.div_pos (code - 0x10000) 0x400). pose proof (Z.mod_pos_bound (code - 0x10000) 0x400).
    repeat constructor; lia.
Qed.

(** No code unit is zero unless the text holds a NUL. *)
Lemma encode_nonzero s : contains_byte NUL s = false → Forall (λ u, u ≠ 0%Z) (encode_utf16 s).
Proof.
  cut (∀ st acc, acc_ok st acc → contains_byte NUL s = false →
    Forall (λ u, u ≠ 0%Z) (utf16_go st acc s)); [intros H Hs; by apply H|].
  induction s as [|b s IH]; intros st acc Hacc; cbn [utf16_go contains_byte]; [constructor|].
  intros [Hb%Ascii.eqb_neq Hs]%orb_false_iff. destruct (ustep st b) as [st'|] eqn:E; [|constructor].
  pose proof (byte_bits_step st b st' acc Hb Hacc E) as Hnext.
  destruct st'; try (apply IH; done). apply Forall_app. split; [by apply utf16_units_nonzero|by apply IH].
Qed.

Lemma read_wide_spec units rest :
  Forall (λ u, u ≠ 0%Z) units → read_wide (units ++ 0%Z :: rest) = Some (units, rest).
Proof.
  induction 1 as [|u units Hu Hs IH]; [done|]. cbn [app read_wide].
  by rewrite (proj2 (Z.eqb_neq _ _) Hu), IH.
Qed.

Lemma read_block_entry cur units rest :
  Forall (λ u, u ≠ 0%Z) units → cur ++ units ≠ [] →
  read_block cur (units ++ 0%Z :: rest) =
    '(entries, after) ← read_block [] rest; Some ((cur ++ units) :: entries, after).
Proof.
  intros Hu. revert cur. induction Hu as [|u units Hu Hs IH]; intros cur Hne; cbn [app read_block].
  - rewrite app_nil_r in *. by destruct cur.
  - rewrite (proj2 (Z.eqb_neq _ _) Hu). rewrite IH by (by destruct cur). by rewrite <-app_assoc.
Qed.

Section EnvFacts.
Context {process_env : ProcessEnv}.

Definition no_nul (pair : string * string) : Prop :=
  contains_byte NUL pair.1 = false ∧ contains_byte NUL pair.2 = false.

Lemma env_item_entry pair :
  no_nul pair → Forall (λ u, u ≠ 0%Z) (env_item pair) ∧ env_item pair ≠ [].
Proof.
  intros [Hk Hv]. unfold env_item. split.
  - apply Forall_app. split; [by apply encode_nonzero|]. apply Forall_app.
    split; [by repeat constructor|by apply encode_nonzero].
  - by destruct (encode_utf16 pair.1).
Qed.

Lemma read_block_items (m : btree string) rest :
  Forall no_nul m →
  read_block [] (((m ≫= λ pair, env_item pair ++ [0%Z]) ++ [0%Z]) ++ rest) = Some (env_item <$> m, rest).
Proof.
  induction 1 as [|pair m Hp Hm IH]; [done|]. rewrite bind_cons, fmap_cons, <-!app_assoc. cbn [app].
  destruct (env_item_entry pair Hp) as [Hu Hn]. rewrite read_block_entry by done.
  rewrite <-app_assoc in IH. cbn [app] in IH. by rewrite IH.
Qed.

(** What the block ends with. *)
Lemma block_end (m : btree string) :
  let block := (m ≫= λ pair, env_item pair ++ [0%Z]) ++ [0%Z] in
  if decide (m = []) then block = [0%Z] else ∃ front, block = front ++ [0%Z; 0%Z].
Proof.
  induction m as [|pair m _] using rev_ind; [reflexivity|]. rewrite decide_False by (by intros [_ ?]%app_eq_nil).
  exists ((m ≫= λ p, env_item p ++ [0%Z]) ++ env_item pair).
  rewrite bind_app, bind_cons. cbn [mbind list_bind]. by rewrite app_nil_r, <-!app_assoc.
Qed.

(** The value of a name after all overrides, the last one first. *)
Fixpoint last_override (overrides : list (string * string)) (name : string) : option string :=
  match overrides with
  | [] => None
  | (key, value) :: rest =>
      match last_override rest name with
      | Some v => Some v
      | None => if String.eqb name (to_uppercase key) then Some value else None
      end
  end.

Lemma environment_map_get overrides (m : btree string) name :
  bt_get name (foldl (λ map '(key, value), bt_insert (to_uppercase key) value map) m overrides) =
  match last_override overrides name with Some v => Some v | None => bt_get name m end.
Proof.
  revert m. induction overrides as [|[key value] rest IH]; intros m; [done|]. cbn [foldl last_override].
  rewrite IH, bt_get_insert. by destruct (last_override rest name), (String.eqb name (to_uppercase key)).
Qed.

(** The inserts of the overrides into the inherited variables. *)
Definition merged (vars overrides : list (string * string)) : btree string :=
  foldl (λ map '(key, value), bt_insert (to_uppercase key) value map)
    (bt_of_list ((λ '(k, v), (to_uppercase k, v)) <$> vars)) overrides.

Lemma merged_sorted vars overrides : bt_sorted (merged vars overrides) = true.
Proof.
  unfold merged. pose proof (bt_of_list_sorted ((λ '(k, v), (to_uppercase k, v)) <$> vars)) as H. revert H.
  generalize (bt_of_list ((λ '(k, v), (to_uppercase k, v)) <$> vars)).
  induction overrides as [|[key value] rest IH]; intros m Hm; [done|]. cbn [foldl].
  by apply IH, bt_insert_sorted.
Qed.

(** Every entry comes from the overrides or the inherited variables. *)
Lemma merged_in vars overrides pair :
  pair ∈ merged vars overrides → pair ∈ ((λ '(k, v), (to_uppercase k, v)) <$> vars ++ overrides).
Proof.
  unfold merged, bt_of_list. intros H. rewrite fmap_app, elem_of_app.
  assert (∀ m, foldl (λ map '(key, value), bt_insert (to_uppercase key) value map) m overrides =
    foldl (λ map '(key, value), bt_insert key value map) m ((λ '(k, v), (to_uppercase k, v)) <$> overrides)) as E.
  { clear. induction overrides as [|[k v] l IH]; intros m; [done|]. cbn. by rewrite IH. }
  rewrite E in H. apply inserts_in in H as [H|H]; [|by right].
  apply inserts_in in H as [H|H]; [by apply elem_of_nil in H|by left].
Qed.

(** C22: the environment of a child.  When the agent has a variable that is not
    Unicode, building the block panics.  Otherwise, when no name or value holds
    a NUL, reading the block back entry by entry up to the empty entry takes
    exactly the whole block, and gives one entry per variable, sorted by
    upper-case name; the block ends in two nulls (in its only one when there is
    no variable at all); a name overridden several times, in whatever case, has
    its last value, and any other the agent's own.  A wide string without a NUL
    is read back up to its terminator, with nothing after it. *)
Theorem environment_block_spec (overrides : list (string * string)) :
  match env_vars with
  | None => environment_block overrides = None
  | Some vars =>
      Forall no_nul ((λ '(k, v), (to_uppercase k, v)) <$> vars ++ overrides) →
      ∃ map inherited block,
        environment_map overrides = Some map ∧ environment_map [] = Some inherited ∧
        environment_block overrides = Some block ∧
        read_block [] block = Some (env_item <$> map, []) ∧
        (if decide (map = []) then block = [0%Z] else ∃ front, block = front ++ [0%Z; 0%Z]) ∧
        bt_sorted map = true ∧
        ∀ name, bt_get name map = match last_override overrides name with
                                  | Some value => Some value
                                  | None => bt_get name inherited
                                  end
  end ∧
  ∀ value, contains_byte NUL value = false → read_wide (wide value) = Some (encode_utf16 value, []).
Proof.
  split; [|intros value Hv; by apply read_wide_spec, encode_nonzero].
  unfold environment_block, environment_map. destruct env_vars as [vars|]; [|done]. intros Hn.
  exists (merged vars overrides), (merged vars []), ((merged vars overrides ≫= λ pair, env_item pair ++ [0%Z]) ++ [0%Z]).
  split_and!; [done|done|done| |apply block_end|apply merged_sorted|].
  - rewrite <-(app_nil_r (_ ++ [0%Z])). apply read_block_items, Forall_forall. intros pair Hp.
    rewrite Forall_forall in Hn. by apply Hn, merged_in.
  - intros name. unfold merged. by rewrite environment_map_get.
Qed.
End EnvFacts.

(** ** Witnesses *)

Fixpoint ascii_upper (s : string) : string :=
  match s with
  | "" => ""
  | String b s' => String (if in_range 0x61 0x7A (byte_val b) then byte_of (byte_val b - 32) else b)
      (ascii_upper s')
  end.

#[local] Instance sample_process_env : ProcessEnv := {|
  env_vars_os := [(Unicode "Path", Unicode "C:\bin"); (Unicode "HOME", Unicode "C:\me")];
  to_uppercase := ascii_upper
|}.

Definition sample_overrides : list (string * string) := [("path", "D:\x"); ("CI", "1"); ("PATH", "E:\y")].

Lemma environment_block_spec_witness :
  ∃ map inherited block,
    environment_map sample_overrides = Some map ∧ environment_map [] = Some inherited ∧
    environment_block sample_overrides = Some block ∧
    read_block [] block = Some (env_item <$> map, []) ∧
    (if decide (map = []) then block = [0%Z] else ∃ front, block = front ++ [0%Z; 0%Z]) ∧
    bt_sorted map = true ∧
    ∀ name, bt_get name map = match last_override sample_overrides name with
                              | Some value => Some value
                              | None => bt_get name inherited
                              end.
Proof.
  assert (Forall no_nul ((λ '(k, v), (to_uppercase k, v)) <$>
    [("Path", "C:\bin"); ("HOME", "C:\me")] ++ sample_overrides)) as Hn by (repeat constructor).
  pose proof (environment_block_spec sample_overrides) as H. exact (proj1 H Hn).
Defined.

Example sample_block :
  (block ← environment_block sample_overrides; read_block [] block) =
    Some (env_item <$> [("CI", "1"); ("HOME", "C:\me"); ("PATH", "E:\y")], []).
Proof. vm_compute. reflexivity. Qed.

(** A NUL in a value starts a new entry: one override sets another variable,
    and the block goes on as if it were one of the agent's. *)
Example nul_smuggles_a_variable :
  (block ← environment_block [("CI", "1" +:+ String NUL "PATH=E:\evil")]; read_block [] block) =
    Some (encode_utf16 <$> ["CI=1"; "PATH=E:\evil"; "HOME=C:\me"; "PATH=C:\bin"], []).
Proof. vm_compute. reflexivity. Qed.

(** Neither reader takes the end of the buffer for a terminator. *)
Example unterminated :
  read_wide (encode_utf16 "cmd") = None ∧
  read_block [] (encode_utf16 "CI=1" ++ [0%Z]) = None ∧
  read_block [] (encode_utf16 "CI=1") = None.
Proof. vm_compute. auto. Qed.

(** Without any variable the block is a single null. *)
Example empty_block :
  environment_block (H := {| env_vars_os := []; to_uppercase := ascii_upper |}) [] = Some [0%Z].
Proof. reflexivity. Qed.

(** One variable that is not Unicode (an unpaired surrogate) and no child can be
    started at all. *)
Example unpaired_surrogate_panics overrides :
  environment_block (H := {| env_vars_os := [(Unicode "A", NotUnicode [0xD800%Z])];
                             to_uppercase := ascii_upper |}) overrides = None.
Proof. reflexivity. Qed.
