(* ===== verification/Win32.v ===== *)
(** * Win32: the system calls of calcar-pty and their ledger

    What [calcar-pty/src/lib.rs] and [plain.rs] ask of Windows, as a log of
    calls.  Whether a call fails and which handles it returns is up to the
    system; a log is judged by its ledger: every handle, console and attribute
    list obtained is given back exactly once, and not before it was obtained. *)

From S2P Require Import Prelude Text Quote.
From Stdlib Require Import Ascii.

(** ** Calls *)

(** A call that succeeded, or the attempt at one that failed. *)
Inductive SysCall :=
| CreatePipe (read write : Z)
| SetHandleInformation (handle : Z)
| CreatePseudoConsole (cols rows input output console : Z)
| CreateJobObject (job : Z)
| SetKillOnClose (job : Z)
| SizeAttributeList
| InitAttributeList
| UpdateAttribute (console : Z)
| DeleteAttributeList
| CreateProcess (command env : list Z) (cwd : option (list Z)) (console : option Z)
    (std : list Z) (process thread pid : Z)
| AssignProcess (job process : Z)
| TerminateJob (job : Z)
| ResizePseudoConsole (console cols rows : Z)
| TerminateProcess (process : Z)
| CloseHandle (handle : Z)
| ClosePseudoConsole (console : Z)
| SpawnThread (name : string) (files : list Z)
| JoinThread (name : string) (files : list Z)
| FailedCall (name : string).

Class Win32 := {
  (** the error of the [n]-th call that can fail, if it fails *)
  win_fault : nat → option Z;
  (** the [n]-th handle or console the system hands out *)
  win_handle : nat → Z;
  (** a handle of a successful call is neither null nor INVALID_HANDLE_VALUE *)
  win_handle_valid n : win_handle n ≠ 0%Z ∧ win_handle n ≠ (-1)%Z;
  win_pid : nat → Z;
  (** the message of the [n]-th thread that cannot be started *)
  thread_fault : nat → option string;
}.

(** The log, with how many calls and handles were used. *)
Record Sys := mk_sys {
  sy_calls : nat;
  sy_handles : nat;
  sy_trace : list SysCall;
}.

Definition SysM (E A : Type) : Type := ST Sys E A.

Section Win32.
Context {win32 : Win32}.

Definition log (calls : list SysCall) (s : Sys) : Sys :=
  mk_sys (sy_calls s) (sy_handles s) (sy_trace s ++ calls).

(** Calls whose result the code does not look at. *)
Definition win_do {E} (calls : list SysCall) : SysM E unit := λ s, (Ok tt, log calls s).

(** A call that may fail with an error code; [fresh] handles are returned. *)
Definition win_call {A} (name : string) (fresh : nat) (ok : (nat → Z) → Z → A * SysCall) : SysM Z A := λ s,
  match win_fault (sy_calls s) with
  | Some code => (Err code, mk_sys (S (sy_calls s)) (sy_handles s) (sy_trace s ++ [FailedCall name]))
  | None =>
      let '(a, call) := ok (λ i, win_handle (sy_handles s + i)) (win_pid (sy_calls s)) in
      (Ok a, mk_sys (S (sy_calls s)) (sy_handles s + fresh) (sy_trace s ++ [call]))
  end.

Definition create_pipe : SysM Z (Z * Z) :=
  win_call "CreatePipe" 2 (λ h _, ((h 0, h 1), CreatePipe (h 0) (h 1))).
Definition set_handle_information (handle : Z) : SysM Z unit :=
  win_call "SetHandleInformation" 0 (λ _ _, (tt, SetHandleInformation handle)).
Definition create_pseudo_console (cols rows input output : Z) : SysM Z Z :=
  win_call "CreatePseudoConsole" 1 (λ h _, (h 0, CreatePseudoConsole cols rows input output (h 0))).
Definition resize_pseudo_console (console cols rows : Z) : SysM Z unit :=
  win_call "ResizePseudoConsole" 0 (λ _ _, (tt, ResizePseudoConsole console cols rows)).
Definition create_job_object : SysM Z Z :=
  win_call "CreateJobObjectW" 1 (λ h _, (h 0, CreateJobObject (h 0))).
Definition set_kill_on_close (job : Z) : SysM Z unit :=
  win_call "SetInformationJobObject" 0 (λ _ _, (tt, SetKillOnClose job)).
Definition init_attribute_list : SysM Z unit :=
  win_call "InitializeProcThreadAttributeList" 0 (λ _ _, (tt, InitAttributeList)).
Definition update_attribute (console : Z) : SysM Z unit :=
  win_call "UpdateProcThreadAttribute" 0 (λ _ _, (tt, UpdateAttribute console)).
Definition create_process (command env : list Z) (cwd : option (list Z)) (console : option Z)
    (std : list Z) : SysM Z (Z * Z * Z) :=
  win_call "CreateProcessW" 2 (λ h pid,
    ((h 0, h 1, pid), CreateProcess command env cwd console std (h 0) (h 1) pid)).
Definition assign_process (job process : Z) : SysM Z unit :=
  win_call "AssignProcessToJobObject" 0 (λ _ _, (tt, AssignProcess job process)).

(** [std::thread::Builder::spawn] of a closure that owns [files]: when it
    fails the closure is dropped and the files are closed. *)
Definition spawn_thread (name : string) (files : list Z) : SysM string unit := λ s,
  match thread_fault (sy_calls s) with
  | Some message =>
      (Err message, mk_sys (S (sy_calls s)) (sy_handles s)
         (sy_trace s ++ FailedCall name :: (CloseHandle <$> files)))
  | None => (Ok tt, mk_sys (S (sy_calls s)) (sy_handles s) (sy_trace s ++ [SpawnThread name files]))
  end.

(** [last_error] *)
Definition last_error (call : string) (code : Z) : PtyError :=
  Windows call ("GetLastError=" +:+ dec code).

(** [if call() == 0 { cleanup; return Err(error) }] *)
Definition or_else {A X} (m : SysM X A) (cleanup : list SysCall) (error : X → PtyError) :
    SysM PtyError A := λ s,
  match m s with
  | (Ok a, s') => (Ok a, s')
  | (Err code, s') => (Err (error code), log cleanup s')
  end.

Lemma wp_or_call {A} name fresh (ok : (nat → Z) → Z → A * SysCall) cleanup error Q s :
  (∀ code, Q (Err (error code)) (mk_sys (S (sy_calls s)) (sy_handles s)
     (sy_trace s ++ FailedCall name :: cleanup))) →
  (∀ a call, (a, call) = ok (λ i, win_handle (sy_handles s + i)) (win_pid (sy_calls s)) →
     Q (Ok a) (mk_sys (S (sy_calls s)) (sy_handles s + fresh) (sy_trace s ++ [call]))) →
  wp (or_else (win_call name fresh ok) cleanup error) Q s.
Proof.
  intros He Ho. unfold wp, or_else, win_call, log. destruct (win_fault (sy_calls s)); cbn.
  - rewrite <-app_assoc. apply He.
  - destruct (ok _ _) as [a call]. by apply Ho.
Qed.

Lemma wp_or_thread name files cleanup error Q s :
  (∀ message, Q (Err (error message)) (mk_sys (S (sy_calls s)) (sy_handles s)
     (sy_trace s ++ FailedCall name :: (CloseHandle <$> files) ++ cleanup))) →
  Q (Ok tt) (mk_sys (S (sy_calls s)) (sy_handles s) (sy_trace s ++ [SpawnThread name files])) →
  wp (or_else (spawn_thread name files) cleanup error) Q s.
Proof.
  intros He Ho. unfold wp, or_else, spawn_thread, log. destruct (thread_fault (sy_calls s)); cbn.
  - rewrite <-app_assoc. apply He.
  - apply Ho.
Qed.

Lemma wp_win_do {E} calls (Q : result unit E → Sys → Prop) s :
  Q (Ok tt) (mk_sys (sy_calls s) (sy_handles s) (sy_trace s ++ calls)) → wp (win_do calls) Q s.
Proof. done. Qed.

(** ** Owned handles *)

(** [OwnedHandle::close] *)
Definition owned_close (handle : Z) : list SysCall :=
  if negb (handle =? 0)%Z && negb (handle =? -1)%Z then [CloseHandle handle] else [].

Lemma win_handle_nonzero n : (win_handle n =? 0)%Z = false.
Proof. apply Z.eqb_neq, win_handle_valid. Qed.

Lemma owned_close_handle n : owned_close (win_handle n) = [CloseHandle (win_handle n)].
Proof.
  unfold owned_close. destruct (win_handle_valid n) as [H1 H2].
  by rewrite (proj2 (Z.eqb_neq _ _) H1), (proj2 (Z.eqb_neq _ _) H2).
Qed.
End Win32.

(** ** The ledger *)

Inductive Res := RHandle (handle : Z) | RConsole (console : Z) | RAttributes.

#[export] Instance Res_eq_dec : EqDecision Res.
Proof. solve_decision. Defined.

Definition acquired (c : SysCall) : list Res :=
  match c with
  | CreatePipe read write => [RHandle read; RHandle write]
  | CreatePseudoConsole _ _ _ _ console => [RConsole console]
  | CreateJobObject job => [RHandle job]
  | InitAttributeList => [RAttributes]
  | CreateProcess _ _ _ _ _ process thread _ => [RHandle process; RHandle thread]
  | _ => []
  end.

(** A joined thread has ended, which closes its files. *)
Definition released (c : SysCall) : list Res :=
  match c with
  | CloseHandle handle => [RHandle handle]
  | ClosePseudoConsole console => [RConsole console]
  | DeleteAttributeList => [RAttributes]
  | JoinThread _ files => RHandle <$> files
  | _ => []
  end.

Definition bit (x y : Res) : nat := if decide (x = y) then 1 else 0.
Fixpoint occ (r : Res) (l : list Res) : nat :=
  match l with [] => 0 | x :: l' => bit x r + occ r l' end.

(** Nothing is given back more often than it was obtained, at any moment. *)
Fixpoint lawful (acq rel : list Res) (calls : list SysCall) : Prop :=
  match calls with
  | [] => True
  | c :: calls' =>
      (∀ r, occ r (released c ++ rel) ≤ occ r acq) ∧
      lawful (acquired c ++ acq) (released c ++ rel) calls'
  end.

(** The log is lawful and leaves exactly [held] to give back. *)
Definition balanced (calls : list SysCall) (held : list Res) : Prop :=
  lawful [] [] calls ∧
  ∀ r, occ r (calls ≫= acquired) = occ r (calls ≫= released) + occ r held.

(** A call that neither obtains nor gives back anything. *)
Definition neutral (c : SysCall) : Prop := acquired c = [] ∧ released c = [].

Lemma lawful_neutral acq rel calls uses calls' :
  (∀ r, occ r rel ≤ occ r acq) → Forall neutral uses →
  lawful acq rel (calls ++ calls') → lawful acq rel (calls ++ uses ++ calls').
Proof.
  intros H Hu. revert acq rel H. induction calls as [|c calls IH]; intros acq rel H.
  - induction Hu as [|u uses [Ha Hr] _ IHu]; [done|]. intros Hl. cbn. rewrite Ha, Hr. split; [done|by apply IHu].
  - intros [H1 H2]. split; [done|]. apply IH; [|done]. intros r. specialize (H1 r). clear -H1.
    induction (acquired c) as [|x l IHl]; [done|]. cbn. lia.
Qed.

(** Neutral calls in between change no balance. *)
Lemma balanced_neutral calls uses calls' held :
  Forall neutral uses → balanced (calls ++ calls') held → balanced (calls ++ uses ++ calls') held.
Proof.
  intros Hu [Hl Hb]. split; [by apply lawful_neutral|]. intros r. specialize (Hb r).
  assert (uses ≫= acquired = [] ∧ uses ≫= released = []) as [Ha Hr].
  { clear -Hu. induction Hu as [|u uses [Ha Hr] _ [IH1 IH2]]; [done|]. cbn. by rewrite Ha, Hr, IH1, IH2. }
  by rewrite !bind_app, Ha, Hr in * |- *.
Qed.

(** The files of threads that were started and not joined. *)
Fixpoint thread_files (calls : list SysCall) : list Res :=
  match calls with
  | [] => []
  | SpawnThread _ files :: calls' => (RHandle <$> files) ++ thread_files calls'
  | _ :: calls' => thread_files calls'
  end.

(** ** Processes *)

Definition created (calls : list SysCall) (process : Z) : Prop :=
  ∃ command env cwd console std thread pid,
    CreateProcess command env cwd console std process thread pid ∈ calls.

(** The whole tree of the process is ended: it joined a kill-on-close job that
    was then terminated or closed. *)
Definition tree_ended (calls : list SysCall) (process : Z) : Prop :=
  ∃ job, SetKillOnClose job ∈ calls ∧ AssignProcess job process ∈ calls ∧
    (TerminateJob job ∈ calls ∨ CloseHandle job ∈ calls).

(** The process itself is ended: with its tree, directly, or as a client of a
    pseudo console that was closed. *)
Definition ended (calls : list SysCall) (process : Z) : Prop :=
  tree_ended calls process ∨ TerminateProcess process ∈ calls ∨
  ∃ command env cwd console std thread pid,
    CreateProcess command env cwd (Some console) std process thread pid ∈ calls ∧
    ClosePseudoConsole console ∈ calls.

(** Decide a ledger goal on a concrete log. *)
Ltac solve_ledger :=
  split; [cbn -[bit]; repeat split; intros; cbn -[bit]; lia|intros; cbn -[bit]; lia].

(** Membership in a concrete log. *)
Ltac in_log := repeat first [apply list_elem_of_here | apply list_elem_of_further].
Ltac not_in_log H :=
  cbn in H; repeat (apply elem_of_cons in H as [H|H]; [discriminate H|]); by apply elem_of_nil in H.

(** A system in which the [k]-th fallible call fails. *)
Program Definition sample_win32 (k : nat) : Win32 := {|
  win_fault n := if Nat.eqb n k then Some 5%Z else None;
  win_handle n := (100 + 4 * Z.of_nat n)%Z;
  win_pid n := 4242%Z;
  thread_fault n := if Nat.eqb n k then Some "no threads" else None
|}.
Next Obligation. intros k n. cbn. lia. Qed.
