(* ===== verification/PtySpawn.v ===== *)
(** * PtySpawn: starting and dropping an interactive session (calcar-pty, lib.rs)

    [SpawnConfig], [Inner::spawn] and [Drop for Inner] of
    [calcar-pty/src/lib.rs], call by call, with every early return and its
    cleanup. *)

From S2P Require Import Prelude Text Quote EnvBlock Win32.
From Stdlib Require Import Ascii.

Definition DEFAULT_OUTPUT_BUFFER_BYTES : Z := 1024 * 1024.
Definition PTY_PUMP_CHUNK_BYTES : Z := 16 * 1024.

(** [struct SpawnConfig] *)
Record SpawnConfig := mk_spawn_config {
  sc_argv : list string;
  sc_working_dir : option string;
  sc_env : list (string * string);
  sc_cols : Z;
  sc_rows : Z;
  sc_output_buffer_bytes : Z;
}.

(** [SpawnConfig::new] *)
Definition spawn_config (argv : list string) : SpawnConfig :=
  mk_spawn_config argv None [] 120 30 DEFAULT_OUTPUT_BUFFER_BYTES.

(** [{:08X}] of a [u32] *)
Definition upper_hex_digit (d : Z) : ascii := byte_of (if (d <? 10)%Z then 0x30 + d else 0x41 + d - 10).
Definition fmt_08X (v : Z) : string :=
  sconcat ((λ i, bstr (upper_hex_digit (Z.shiftr (v `mod` 2 ^ 32) (4 * i) `mod` 16))) <$> [7; 6; 5; 4; 3; 2; 1; 0]%Z).

Definition hresult (call : string) (code : Z) : PtyError := Windows call ("HRESULT 0x" +:+ fmt_08X code).

(** What [struct Inner] owns. *)
Record PtyHandles := mk_pty {
  pt_job : Z;
  pt_process : Z;
  pt_conpty : Z;
  pt_console_input : Z;
  pt_console_output : Z;
  pt_pid : Z;
  pt_input : Z;
  pt_output : Z;
  pt_capacity : Z;
}.

Section PtySpawn.
Context {win32 : Win32} {process_env : ProcessEnv}.

Definition close_all (handles : list Z) : list SysCall := CloseHandle <$> handles.

Definition PUMP : string := "calcar-pty-pump".

(** The end of [Inner::spawn]: the reader thread, and the session that owns
    everything. *)
Definition pty_start_pump (config : SpawnConfig) (job process pid conpty input_read input_write
    output_read output_write : Z) : SysM PtyError PtyHandles :=
  let capacity := Z.max (sc_output_buffer_bytes config `div` PTY_PUMP_CHUNK_BYTES) 1 in
  let* _ := or_else (spawn_thread PUMP [output_read])
              (close_all [input_write] ++ TerminateJob job :: CloseHandle process :: CloseHandle job ::
               ClosePseudoConsole conpty :: close_all [input_read; output_write]) PtyIo in
  st_ret (mk_pty job process conpty input_read output_write pid input_write output_read capacity).

(** [SpawnConfig::command_line] *)
Definition config_command_line (config : SpawnConfig) : result string PtyError :=
  command_line (sc_argv config).

(** The calls of [Inner::spawn], once the command line and the environment block
    are built. *)
Definition pty_create (config : SpawnConfig) (command_line_text : string) (env_block : list Z) :
    SysM PtyError PtyHandles :=
  let command := wide command_line_text in
  let working_dir := wide (default "." (sc_working_dir config)) in
  let* (input_read, input_write) := or_else create_pipe [] (last_error "CreatePipe input") in
  let* (output_read, output_write) :=
    or_else create_pipe (close_all [input_read; input_write]) (last_error "CreatePipe output") in
  let pipes := close_all [input_read; input_write; output_read; output_write] in
  let* conpty :=
    or_else (create_pseudo_console (Z.max (sc_cols config) 1) (Z.max (sc_rows config) 1) input_read output_write)
      pipes (hresult "CreatePseudoConsole") in
  let* job := or_else create_job_object (ClosePseudoConsole conpty :: pipes) (last_error "CreateJobObjectW") in
  let all := CloseHandle job :: ClosePseudoConsole conpty :: pipes in
  let* _ := or_else (set_kill_on_close job) all (last_error "SetInformationJobObject") in
  let* _ := win_do [SizeAttributeList] in
  let* _ := or_else init_attribute_list all (last_error "InitializeProcThreadAttributeList") in
  let* _ := or_else (update_attribute conpty) (DeleteAttributeList :: all)
              (last_error "UpdateProcThreadAttribute") in
  let* (process, thread, pid) :=
    or_else (create_process command env_block (Some working_dir) (Some conpty) [])
      (DeleteAttributeList :: all) (last_error "CreateProcessW") in
  let* _ := win_do [DeleteAttributeList] in
  let* _ := win_do (if negb (thread =? 0)%Z then [CloseHandle thread] else []) in
  let* _ := or_else (assign_process job process)
              (TerminateJob job :: CloseHandle process :: all) (last_error "AssignProcessToJobObject") in
  pty_start_pump config job process pid conpty input_read input_write output_read output_write.

(** [Inner::spawn]; [None] when [environment_block] panics. *)
Definition pty_spawn (config : SpawnConfig) (s : Sys) : option (result PtyHandles PtyError * Sys) :=
  match config_command_line config with
  | Err e => Some (Err e, s)
  | Ok command_line_text =>
      env_block ← environment_block (sc_env config);
      Some (pty_create config command_line_text env_block s)
  end.

(** [kill] *)
Definition pty_kill (p : PtyHandles) : SysM PtyError unit := win_do [TerminateJob (pt_job p)].

(** [resize]: at least one column and row. *)
Definition pty_resize (cols rows : Z) (p : PtyHandles) : SysM PtyError unit :=
  or_else (resize_pseudo_console (pt_conpty p) (Z.max cols 1) (Z.max rows 1)) []
    (hresult "ResizePseudoConsole").

(** What the owner of a session may ask of it before dropping it; errors are
    reported and leave it usable. *)
Inductive PtyUse := UseKill | UseResize (cols rows : Z).

Definition pty_use (p : PtyHandles) (u : PtyUse) (s : Sys) : Sys :=
  match u with
  | UseKill => (pty_kill p s).2
  | UseResize cols rows => (pty_resize cols rows p s).2
  end.

(** [Drop for Inner], with the fields dropped after it, as the calls it makes in
    order.  The join waits for the pump; whether it returns, and with it the
    calls after it are made at all, is [JobTree.returns]. *)
Definition pty_drop (p : PtyHandles) : list SysCall :=
  TerminateJob (pt_job p) ::
  (if negb (pt_conpty p =? 0)%Z then [ClosePseudoConsole (pt_conpty p)] else []) ++
  owned_close (pt_console_input p) ++ owned_close (pt_console_output p) ++
  [JoinThread PUMP [pt_output p]] ++
  owned_close (pt_job p) ++ owned_close (pt_process p) ++
  close_all [pt_input p].

(** ** Facts *)

Lemma command_line_error argv e : command_line argv = Err e → e = InvalidConfig "argv is empty".
Proof. unfold command_line. destruct argv; [by intros [= <-]|done]. Qed.

(** A fresh log. *)
Definition sys_at (calls handles : nat) : Sys := mk_sys calls handles [].

(** What a session owns. *)
Definition pty_owned (p : PtyHandles) : list Res :=
  [RHandle (pt_job p); RHandle (pt_process p); RConsole (pt_conpty p); RHandle (pt_console_input p);
   RHandle (pt_console_output p); RHandle (pt_input p); RHandle (pt_output p)].

Definition spawn_result (r : result PtyHandles PtyError) (calls : list SysCall) : Prop :=
  match r with
  | Err e => balanced calls [] ∧ ∀ process, created calls process → ended calls process ∧
      (tree_ended calls process ∨ ∃ code, e = last_error "AssignProcessToJobObject" code)
  | Ok p => balanced calls (pty_owned p) ∧
      (∀ uses s, sy_trace s = calls → balanced (sy_trace (runs (pty_use p) uses s) ++ pty_drop p) []) ∧
      created calls (pt_process p) ∧ AssignProcess (pt_job p) (pt_process p) ∈ calls ∧
      tree_ended (calls ++ pty_drop p) (pt_process p)
  end.

Lemma pty_use_neutral p uses s :
  ∃ calls, sy_trace (runs (pty_use p) uses s) = sy_trace s ++ calls ∧ Forall neutral calls.
Proof.
  revert s. induction uses as [|u uses IH]; intros s; [exists []; by rewrite app_nil_r|].
  cbn [runs]. destruct (IH (pty_use p u s)) as (calls & -> & Hn).
  assert (∃ c, sy_trace (pty_use p u s) = sy_trace s ++ [c] ∧ neutral c) as (c & -> & Hc).
  { destruct u as [|cols rows]; cbn; [by eexists|].
    unfold pty_resize, or_else, resize_pseudo_console, win_call. destruct (win_fault (sy_calls s)); cbn;
      rewrite ?app_nil_r; by eexists. }
  exists (c :: calls). split; [by rewrite <-app_assoc|by constructor].
Qed.

(** Using a session does not change what it owns. *)
Lemma pty_use_balanced p calls :
  balanced (calls ++ pty_drop p) [] →
  ∀ uses s, sy_trace s = calls → balanced (sy_trace (runs (pty_use p) uses s) ++ pty_drop p) [].
Proof.
  intros H uses s <-. destruct (pty_use_neutral p uses s) as (calls & -> & Hn).
  rewrite <-app_assoc. by apply balanced_neutral.
Qed.

(** An early return, on a concrete log. *)
Ltac win_error :=
  split; [solve_ledger|];
  let p := fresh "p" in let H := fresh "H" in
  intros p (? & ? & ? & ? & ? & ? & ? & H); cbn in H;
  repeat (apply elem_of_cons in H as [H|H]; [first [discriminate H | injection H as; subst]|]);
  first [by apply elem_of_nil in H | split; [by right; right; do 7 eexists; split; in_log|]];
  first [by right; eexists | left; eexists; split_and!; [in_log|in_log|left; in_log]].

(** The next call: its failure is an early return, its success goes on. *)
Ltac win_next :=
  apply wp_bind;
  first
    [ apply wp_win_do
    | apply wp_or_call;
      [ let code := fresh "code" in intros code; win_error
      | let a := fresh "a" in let c := fresh "c" in let H := fresh "H" in
        intros a c H; injection H as ? ?; subst a c; cbn beta iota ]
    | apply wp_or_thread; [let m := fresh "m" in intros m; win_error|] ];
  cbn [sy_calls sy_handles sy_trace app].

Lemma pty_create_ok config text env_block calls handles :
  wp (pty_create config text env_block) (λ r s', spawn_result r (sy_trace s')) (sys_at calls handles).
Proof.
  unfold pty_create, pty_start_pump, sys_at. do 10 win_next. rewrite win_handle_nonzero. cbn [negb]. do 3 win_next.
  apply wp_ret. unfold spawn_result. split; [solve_ledger|].
  split; [apply pty_use_balanced|]; unfold pty_drop; cbn -[bit balanced created tree_ended win_handle];
    rewrite win_handle_nonzero, !owned_close_handle; cbn -[bit balanced created tree_ended win_handle];
    [solve_ledger|].
  split_and!; [do 7 eexists; in_log|in_log|].
  eexists. split_and!; [in_log|in_log|left; in_log].
Qed.

(** C33: starting and dropping an interactive session leaks nothing.  Whichever
    call fails first, with whatever handles the system returned, every handle,
    console and attribute list obtained by then is given back exactly once and
    never before, and a child that was created is ended, with its whole tree
    unless it could not join the job.  A session that starts has its child in a
    kill-on-close job and owns exactly its seven handles; however often it is
    killed or resized in between, dropping it gives back each of them once and
    ends the tree.  A spawn that panics (on a variable of the agent that is not
    Unicode) has made no call yet. *)
Theorem pty_spawn_ledger (config : SpawnConfig) (calls handles : nat) :
  match pty_spawn config (sys_at calls handles) with
  | Some (r, s') => spawn_result r (sy_trace s')
  | None => env_vars = None ∧ sc_argv config ≠ []
  end.
Proof.
  unfold pty_spawn, config_command_line. destruct (command_line (sc_argv config)) as [text|e] eqn:Ec.
  - unfold environment_block, environment_map. destruct env_vars; cbn [mbind option_bind]; [apply pty_create_ok|].
    split; [done|]. by destruct (sc_argv config).
  - win_error.
Qed.
End PtySpawn.

(** A session that starts, and one whose child cannot join its job. *)
#[local] Instance sample_process_env : ProcessEnv := {| env_vars_os := []; to_uppercase := ascii_upper |}.

Example session_starts :
  (is_ok ∘ fst <$> pty_spawn (win32:=sample_win32 99) (spawn_config ["cmd.exe"; "/Q"]) (sys_at 0 0)) = Some true.
Proof. vm_compute. reflexivity. Qed.

Example session_without_job :
  (prod_map id (drop 10 ∘ sy_trace) <$> pty_spawn (win32:=sample_win32 8) (spawn_config ["cmd.exe"]) (sys_at 0 0)) =
  Some (Err (last_error "AssignProcessToJobObject" 5),
    [CloseHandle 128; FailedCall "AssignProcessToJobObject"; TerminateJob 120; CloseHandle 124;
     CloseHandle 120; ClosePseudoConsole 116; CloseHandle 100; CloseHandle 104; CloseHandle 108;
     CloseHandle 112]).
Proof. vm_compute. reflexivity. Qed.
