(* ===== verification/PtySession.v ===== *)
(** * PtySession: the output of an interactive session (calcar-pty, lib.rs)

    The pump thread of [calcar-pty/src/lib.rs], its bounded channel, the reads
    of [WorkflowPty], [wait] and the end of a session.  The pump and the
    consumer are two processes over one channel: every interleaving of their
    moves is a run of the step relation. *)

From S2P Require Import Prelude Text Quote Plain EnvBlock Win32 PtySpawn.
From Stdlib Require Import Ascii.

(** ** The channel *)

(** What the coming reads of the console pipe return; after the last one the
    pipe is at its end. *)
Inductive PipeRead := Bytes (chunk : string) | ReadFails.

(** The pump thread, the bounded channel and the receiver.  [cn_hand] is the
    chunk the pump is sending. *)
Record Channel := mk_channel {
  cn_pipe : list PipeRead;
  cn_hand : option string;
  cn_ended : bool;
  cn_queue : list string;
  cn_capacity : nat;
  cn_receiver : bool;
}.

(** One move of [pump_output], or [None] when it has ended or blocks on a full
    channel. *)
Definition pump_move (c : Channel) : option Channel :=
  if cn_ended c then None
  else match cn_hand c with
       | None =>
           match cn_pipe c with
           | Bytes chunk :: rest =>
               Some (mk_channel rest (Some chunk) false (cn_queue c) (cn_capacity c) (cn_receiver c))
           | _ => Some (mk_channel (cn_pipe c) None true (cn_queue c) (cn_capacity c) (cn_receiver c))
           end
       | Some chunk =>
           if negb (cn_receiver c)
           then Some (mk_channel (cn_pipe c) None true (cn_queue c) (cn_capacity c) false)
           else if bool_decide (length (cn_queue c) < cn_capacity c)
           then Some (mk_channel (cn_pipe c) None false (cn_queue c ++ [chunk]) (cn_capacity c) true)
           else None
       end.

(** At most [n] moves of the pump. *)
Fixpoint pump_moves (n : nat) (c : Channel) : Channel :=
  match n with
  | 0 => c
  | S n' => match pump_move c with Some c' => pump_moves n' c' | None => c end
  end.

(** The channel of a fresh session. *)
Definition channel_new (pipe : list PipeRead) (capacity : nat) : Channel :=
  mk_channel pipe None false [] capacity true.

(** ** The session *)

(** [struct Inner] as far as its reader can see it. *)
Record Session := mk_session {
  ss_channel : Channel;
  ss_output_closed : bool;
  ss_exited : bool;
  ss_code : Z;
  ss_process : option Z;
}.

Definition set_channel c s :=
  mk_session c (ss_output_closed s) (ss_exited s) (ss_code s) (ss_process s).

(** [write_input]: [write_all] and [flush] are the console pipe's. *)
Definition pty_write (write_all : string → result unit string) (flush : result unit string) (bytes : string) :
    result unit PtyError :=
  let? _ := map_err PtyIo (write_all bytes) in
  map_err PtyIo flush.

(** [try_output]: the next chunk; an empty channel whose pump has ended is
    disconnected. *)
Definition try_output (s : Session) : option string * Session :=
  let c := ss_channel s in
  match cn_queue c with
  | chunk :: queue =>
      (Some chunk, set_channel (mk_channel (cn_pipe c) (cn_hand c) (cn_ended c) queue
                                  (cn_capacity c) (cn_receiver c)) s)
  | [] =>
      (None, mk_session c (if cn_ended c then true else ss_output_closed s)
               (ss_exited s) (ss_code s) (ss_process s))
  end.

(** [recv_output]: [moves] moves of the pump happen before the deadline or the
    arrival of a chunk. *)
Definition recv_output (moves : nat) (s : Session) : option string * Session :=
  try_output (set_channel (pump_moves moves (ss_channel s)) s).

(** [str::contains] *)
Fixpoint scontains (part s : string) : bool :=
  starts_with part s || match s with String _ s' => scontains part s' | "" => false end.

(** [read_until]: one element of [rounds] per turn of the loop before the
    deadline. *)
Fixpoint read_until (marker : string) (rounds : list nat) (collected : string) (s : Session) :
    string * Session :=
  if scontains marker collected then (collected, s)
  else match rounds with
       | [] => (collected, s)
       | moves :: rounds' =>
           match recv_output moves s with
           | (Some chunk, s') =>
               read_until marker rounds' (collected +:+ from_utf8_lossy chunk) s'
           | (None, s') =>
               if ss_output_closed s' then (collected, s') else read_until marker rounds' collected s'
           end
       end.

(** The milliseconds [wait] passes to [WaitForSingleObject]. *)
Definition wait_millis (timeout_millis : option Z) : Z :=
  match timeout_millis with None => u32_max | Some ms => Z.min ms u32_max end.

(** [wait]: [system millis] says how the two calls answer: an error, the
    deadline, or an exit code. *)
Definition pty_wait (system : Z → result (option Z) PtyError) (timeout_millis : option Z) (s : Session) :
    result (option Z) PtyError * Session :=
  if ss_exited s then (Ok (Some (ss_code s)), s)
  else match system (wait_millis timeout_millis) with
       | Err e => (Err e, s)
       | Ok None => (Ok None, s)
       | Ok (Some code) =>
           (Ok (Some code), mk_session (ss_channel s) (ss_output_closed s) true code (ss_process s))
       end.

(** ** Runs *)

(** The consumer and the pump, in any order; the list is what was received. *)
Inductive session_run : Session → list string → Session → Prop :=
| run_end s : session_run s [] s
| run_pump s c received s' :
    pump_move (ss_channel s) = Some c →
    session_run (set_channel c s) received s' → session_run s received s'
| run_receive s chunk s1 received s' :
    try_output s = (Some chunk, s1) →
    session_run s1 received s' → session_run s (chunk :: received) s'
| run_nothing s s1 received s' :
    try_output s = (None, s1) →
    session_run s1 received s' → session_run s received s'.

(** The chunks still to come. *)
Fixpoint readable (pipe : list PipeRead) : list string :=
  match pipe with Bytes chunk :: rest => chunk :: readable rest | _ => [] end.

Definition in_hand (c : Channel) : list string := match cn_hand c with Some x => [x] | None => [] end.

(** Everything the receiver has not seen. *)
Definition unseen (c : Channel) : list string := cn_queue c ++ in_hand c ++ readable (cn_pipe c).

(** The invariant of a channel whose receiver lives. *)
Record channel_ok (c : Channel) : Prop := {
  ch_open : cn_receiver c = true;
  ch_room : length (cn_queue c) ≤ cn_capacity c;
  ch_ended : cn_ended c = true → cn_hand c = None ∧ readable (cn_pipe c) = [];
}.

Definition fresh_session (pipe : list PipeRead) (capacity : nat) : Session :=
  mk_session (channel_new pipe capacity) false false 0 None.

Lemma pump_move_ok c c' :
  channel_ok c → pump_move c = Some c' →
  channel_ok c' ∧ unseen c' = unseen c ∧ cn_capacity c' = cn_capacity c.
Proof.
  intros [Ho Hr He]. unfold pump_move, unseen, in_hand. destruct (cn_ended c) eqn:Hended; [done|].
  destruct (cn_hand c) as [chunk|] eqn:Hh.
  - rewrite Ho. cbn [negb]. case_bool_decide as Hlt; [|done]. intros [= <-]. cbn. split; [|split; [|done]].
    + split; cbn; [done|rewrite length_app; cbn; lia|done].
    + by rewrite <-app_assoc.
  - destruct (cn_pipe c) as [|[chunk|] rest] eqn:Hp; intros [= <-]; cbn; (split; [split; cbn|]); rewrite ?Hp; auto; done.
Qed.

Lemma try_output_ok s r s' :
  channel_ok (ss_channel s) → try_output s = (r, s') →
  channel_ok (ss_channel s') ∧ cn_capacity (ss_channel s') = cn_capacity (ss_channel s) ∧
  match r with
  | Some chunk => unseen (ss_channel s) = chunk :: unseen (ss_channel s') ∧ ss_output_closed s' = ss_output_closed s
  | None => ss_channel s' = ss_channel s ∧
      (ss_output_closed s' = ss_output_closed s ∨ unseen (ss_channel s') = [])
  end.
Proof.
  intros [Ho Hr He]. unfold try_output, unseen, in_hand.
  destruct (cn_queue (ss_channel s)) as [|chunk queue] eqn:Hq; intros [= <- <-]; cbn.
  - split; [by split; rewrite ?Hq|]. split; [done|]. split; [done|].
    destruct (cn_ended (ss_channel s)) eqn:E; [|by left]. right.
    destruct (He eq_refl) as [-> ->]. by rewrite Hq.
  - split; [split; cbn in *; auto; lia|]. done.
Qed.

Lemma session_run_ok s received s' :
  session_run s received s' → channel_ok (ss_channel s) →
  channel_ok (ss_channel s') ∧ cn_capacity (ss_channel s') = cn_capacity (ss_channel s) ∧
  received ++ unseen (ss_channel s') = unseen (ss_channel s) ∧
  (ss_output_closed s' = true → ss_output_closed s = true ∨ unseen (ss_channel s') = []).
Proof.
  induction 1 as [s|s c received s' Hm _ IH|s chunk s1 received s' Ht _ IH|s s1 received s' Ht _ IH]; intros Hok.
  - split_and!; auto.
  - destruct (pump_move_ok _ _ Hok Hm) as (H1 & H2 & H3). destruct (IH H1) as (I1 & I2 & I3 & I4).
    cbn in *. split_and!; [done|congruence|congruence|done].
  - destruct (try_output_ok _ _ _ Hok Ht) as (H1 & H2 & H3 & H4). destruct (IH H1) as (I1 & I2 & I3 & I4).
    split_and!; [done|congruence|cbn; by rewrite I3, H3|by rewrite <-H4].
  - destruct (try_output_ok _ _ _ Hok Ht) as (H1 & H2 & H3 & H4). destruct (IH H1) as (I1 & I2 & I3 & I4).
    rewrite H3 in *. split_and!; [done|done|done|]. intros Hc. destruct (I4 Hc) as [Hc1|Hu]; [|by right].
    destruct H4 as [H4|H4]; [left; congruence|right].
    rewrite H4 in I3. by apply app_eq_nil in I3 as [_ ?].
Qed.

(** The bytes the agent holds for the consumer, the pump's read buffer aside. *)
Definition buffered (c : Channel) : Z := sumZ (slen <$> cn_queue c ++ in_hand c).

Lemma sumZ_bound (l : list string) (m : Z) :
  Forall (λ x, slen x ≤ m)%Z l → (sumZ (slen <$> l) ≤ m * Z.of_nat (length l))%Z.
Proof. induction 1 as [|x l Hx Hl IH]; [cbn; lia|]. unfold sumZ in *. cbn. lia. Qed.

(** The channel [pty_spawn] makes. *)
Definition pty_capacity (config : SpawnConfig) : nat :=
  Z.to_nat (Z.max (sc_output_buffer_bytes config `div` PTY_PUMP_CHUNK_BYTES) 1).

(** A full chunk, and the channel after [k] of them were queued. *)
Fixpoint filled (n : nat) : string := match n with 0 => "" | S n' => String "x" (filled n') end.
Definition full_chunk : string := filled (Z.to_nat PTY_PUMP_CHUNK_BYTES).

Lemma slen_filled n : slen (filled n) = Z.of_nat n.
Proof. unfold slen. induction n as [|n IH]; [done|]. cbn [filled String.length]. lia. Qed.

Lemma slen_full_chunk : slen full_chunk = PTY_PUMP_CHUNK_BYTES.
Proof. unfold full_chunk. rewrite slen_filled. done. Qed.

Lemma sumZ_replicate k x : sumZ (slen <$> replicate k x) = (Z.of_nat k * slen x)%Z.
Proof. induction k as [|k IH]; [done|]. unfold sumZ in *. cbn [replicate fmap list_fmap foldr]. rewrite IH. lia. Qed.

(** A pump over a console that goes on fills the channel and stays with one chunk
    more in its hand. *)
Lemma channel_fills chunk pipe capacity k queue :
  k + length queue = capacity →
  session_run
    (mk_session (mk_channel (replicate (S k) (Bytes chunk) ++ pipe) None false queue capacity true) false false 0 None)
    []
    (mk_session (mk_channel pipe (Some chunk) false (queue ++ replicate k chunk) capacity true) false false 0 None).
Proof.
  revert queue. induction k as [|k IH]; intros queue Hk.
  - eapply run_pump; [reflexivity|]. cbn. rewrite app_nil_r. apply run_end.
  - eapply run_pump; [reflexivity|]. eapply run_pump.
    + cbn. rewrite bool_decide_eq_true_2 by lia. reflexivity.
    + specialize (IH (queue ++ [chunk])). rewrite length_app in IH. cbn in IH |- *.
      rewrite <-app_assoc in IH. apply IH. lia.
Qed.

(** C19: the output of a session.  However the pump and the consumer interleave,
    the consumer receives the chunks of the console in order, none lost and
    none twice; the output counts as closed only when every chunk was received;
    and the agent holds for the consumer at most the chunks of the channel (the
    configured buffer in whole 16 KiB chunks, at least one) and one more in the
    pump's hand.  This bound is reached, whatever the configuration, by a console
    nobody reads, and it is always over the configured buffer: by up to one
    chunk, and by up to two when the buffer is smaller than a chunk. *)
Theorem pty_output_exact (config : SpawnConfig) :
  let most := ((Z.of_nat (pty_capacity config) + 1) * PTY_PUMP_CHUNK_BYTES)%Z in
  (∀ pipe received s,
     session_run (fresh_session pipe (pty_capacity config)) received s →
     Forall (λ chunk, slen chunk ≤ PTY_PUMP_CHUNK_BYTES)%Z (readable pipe) →
     received ++ unseen (ss_channel s) = readable pipe ∧
     (buffered (ss_channel s) ≤ most)%Z ∧
     (ss_output_closed s = true → received = readable pipe)) ∧
  (∃ pipe s,
     session_run (fresh_session pipe (pty_capacity config)) [] s ∧
     Forall (λ chunk, slen chunk ≤ PTY_PUMP_CHUNK_BYTES)%Z (readable pipe) ∧
     buffered (ss_channel s) = most) ∧
  (sc_output_buffer_bytes config < most)%Z ∧
  (most ≤ Z.max (sc_output_buffer_bytes config) PTY_PUMP_CHUNK_BYTES + PTY_PUMP_CHUNK_BYTES)%Z.
Proof.
  intros most. split_and!.
  - intros pipe received s Hrun Hsize.
    assert (channel_ok (ss_channel (fresh_session pipe (pty_capacity config)))) as Hok
      by (split; cbn; [done|lia|done]).
    destruct (session_run_ok _ _ _ Hrun Hok) as (Hok' & Hcap & Hall & Hclosed). cbn in Hcap, Hall.
    split_and!; [done| |].
    + unfold buffered. etrans; [apply (sumZ_bound _ PTY_PUMP_CHUNK_BYTES)|].
      * unfold unseen in Hall. rewrite app_assoc, app_assoc in Hall. rewrite <-Hall in Hsize.
        apply Forall_app in Hsize as [Hsize _]. rewrite <-app_assoc in Hsize. by apply Forall_app in Hsize as [_ ?].
      * pose proof (ch_room _ Hok') as Hroom. rewrite Hcap in Hroom. rewrite length_app.
        assert (length (in_hand (ss_channel s)) ≤ 1) as Hh by (unfold in_hand; destruct (cn_hand _); cbn; lia).
        unfold most, PTY_PUMP_CHUNK_BYTES. lia.
    + intros Hc. destruct (Hclosed Hc) as [?|Hu]; [done|]. by rewrite Hu, app_nil_r in Hall.
  - set (capacity := pty_capacity config). exists (replicate (S capacity) (Bytes full_chunk) ++ []).
    pose proof (channel_fills full_chunk [] capacity capacity [] ltac:(cbn; lia)) as Hrun.
    eexists. split_and!; [exact Hrun| |].
    + rewrite app_nil_r. generalize (S capacity) as n. intros n.
      induction n; cbn; constructor; [by rewrite slen_full_chunk|done].
    + unfold buffered, in_hand. cbn [ss_channel cn_queue cn_hand app].
      change [full_chunk] with (replicate 1 full_chunk). rewrite <-replicate_add, sumZ_replicate, slen_full_chunk.
      unfold most. fold capacity. lia.
  - unfold most, pty_capacity, PTY_PUMP_CHUNK_BYTES.
    pose proof (Z.mul_succ_div_gt (sc_output_buffer_bytes config) (16 * 1024)). lia.
  - unfold most, pty_capacity, PTY_PUMP_CHUNK_BYTES.
    pose proof (Z.mul_div_le (sc_output_buffer_bytes config) (16 * 1024)). lia.
Qed.

(** ** Dropping a session *)

(** The moves of the pump alone. *)
Definition pump_rel (c c' : Channel) : Prop := pump_move c = Some c'.

(** [Drop for Inner] joins the pump while the receiver is still alive: the
    join returns when the pump, moving alone, can come to its end. *)
Definition join_returns (c : Channel) : Prop := ∃ c', rtc pump_rel c c' ∧ cn_ended c' = true.

(** How many moves the pump has left. *)
Definition pump_left (c : Channel) : nat :=
  if cn_ended c then 0 else S (2 * length (readable (cn_pipe c)) + length (in_hand c)).

Lemma pump_move_left c c' : pump_move c = Some c' → pump_left c' < pump_left c.
Proof.
  unfold pump_move, pump_left, in_hand. destruct (cn_ended c); [done|].
  destruct (cn_hand c); [destruct (negb (cn_receiver c)); [|case_bool_decide]|destruct (cn_pipe c) as [|[] ?]];
    intros [= <-]; cbn; lia.
Qed.

Lemma rtc_pump_ok c c' :
  rtc pump_rel c c' → channel_ok c → channel_ok c' ∧ unseen c' = unseen c ∧ cn_capacity c' = cn_capacity c.
Proof.
  induction 1 as [c|c1 c2 c3 Hm _ IH]; intros Hok; [done|].
  destruct (pump_move_ok _ _ Hok Hm) as (H1 & H2 & H3). destruct (IH H1) as (? & ? & ?).
  split_and!; [done|congruence..].
Qed.

Lemma pump_finishes c :
  channel_ok c → length (unseen c) ≤ cn_capacity c → join_returns c.
Proof.
  remember (pump_left c) as n eqn:En. revert c En. induction (lt_wf n) as [n _ IH]. intros c -> Hok Hroom.
  destruct (cn_ended c) eqn:He; [by exists c|]. destruct (pump_move c) as [c'|] eqn:Hm.
  - destruct (pump_move_ok _ _ Hok Hm) as (H1 & H2 & H3).
    destruct (IH _ (pump_move_left _ _ Hm) c' eq_refl H1) as (c2 & Hrtc & Hend); [by rewrite H2, H3|].
    exists c2. split; [by eapply rtc_l|done].
  - exfalso. unfold pump_move in Hm. rewrite He in Hm. unfold unseen, in_hand in Hroom.
    destruct (cn_hand c) as [chunk|]; [|by destruct (cn_pipe c) as [|[] ?]].
    destruct Hok as [Ho _ _]. rewrite Ho in Hm. cbn in Hm. case_bool_decide as Hb; [done|].
    rewrite !length_app in Hroom. cbn in Hroom. lia.
Qed.

(** The join returns exactly when everything unread fits the channel. *)
Lemma join_returns_fits c : channel_ok c → (join_returns c ↔ length (unseen c) ≤ cn_capacity c).
Proof.
  intros Hok. split; [|by apply pump_finishes]. intros (c' & Hrtc & He).
  destruct (rtc_pump_ok _ _ Hrtc Hok) as (Hok' & <- & <-). destruct (ch_ended _ Hok' He) as [Hh Hp].
  unfold unseen, in_hand. rewrite Hh, Hp, !app_nil_r. apply Hok'.
Qed.

(** C21: dropping a session.  The pump always stops: it makes finitely many
    moves.  But the drop waits for it with the receiver still alive, so the drop
    returns exactly when everything unread fits the channel; with one chunk more
    the pump stays blocked on the full channel and the drop never returns.  Had
    the receiver been dropped first, the pump would always end. *)
Theorem pty_drop_returns (c : Channel) :
  well_founded (λ c2 c1, pump_rel c1 c2) ∧
  (channel_ok c → (join_returns c ↔ length (unseen c) ≤ cn_capacity c)) ∧
  join_returns (mk_channel (cn_pipe c) (cn_hand c) (cn_ended c) (cn_queue c) (cn_capacity c) false).
Proof.
  split_and!.
  - apply (wf_projected lt pump_left); [|apply lt_wf]. intros c2 c1 H. by apply pump_move_left.
  - apply join_returns_fits.
  - assert (∀ c, cn_receiver c = false → join_returns c) as H; [|by apply H]. clear c. intros c Hr.
    destruct (cn_ended c) eqn:He; [by exists c|].
    assert (∀ c x, cn_receiver c = false → cn_ended c = false → cn_hand c = Some x → join_returns c) as Hsend.
    { clear. intros c x Hr He Hh. eexists. split; [apply rtc_once|].
      - unfold pump_rel, pump_move. by rewrite He, Hh, Hr.
      - done. }
    destruct (cn_hand c) as [x|] eqn:Hh; [by eapply Hsend|]. destruct (cn_pipe c) as [|[chunk|] rest] eqn:Hp.
    + eexists. split; [apply rtc_once|]; [unfold pump_rel, pump_move; by rewrite He, Hh, Hp|done].
    + destruct (Hsend (mk_channel rest (Some chunk) false (cn_queue c) (cn_capacity c) (cn_receiver c)) chunk)
        as (c' & Hrtc & Hend); [done..|]. exists c'. split; [|done]. eapply rtc_l; [|exact Hrtc].
      unfold pump_rel, pump_move. by rewrite He, Hh, Hp.
    + eexists. split; [apply rtc_once|]; [unfold pump_rel, pump_move; by rewrite He, Hh, Hp|done].
Qed.

(** ** Reading until a marker *)

Lemma session_run_app s r1 s1 r2 s2 :
  session_run s r1 s1 → session_run s1 r2 s2 → session_run s (r1 ++ r2) s2.
Proof.
  induction 1 as [s|s c received s' Hm _ IH|s chunk s1' received s' Ht _ IH|s s1' received s' Ht _ IH];
    intros H2; [done|..]; [eapply run_pump|eapply run_receive|eapply run_nothing]; eauto.
Qed.

Lemma pump_moves_run n s : session_run s [] (set_channel (pump_moves n (ss_channel s)) s).
Proof.
  revert s. induction n as [|n IH]; intros s; cbn [pump_moves].
  - destruct s. apply run_end.
  - destruct (pump_move (ss_channel s)) as [c|] eqn:E; [|destruct s; apply run_end].
    eapply run_pump; [exact E|]. apply (IH (set_channel c s)).
Qed.

Lemma recv_output_run moves s r s' :
  recv_output moves s = (r, s') → session_run s (match r with Some chunk => [chunk] | None => [] end) s'.
Proof.
  intros H. eapply (session_run_app _ [] _ _ _ (pump_moves_run moves s)). unfold recv_output in H.
  destruct r; [eapply run_receive|eapply run_nothing]; (exact H || apply run_end).
Qed.

Definition lossy (chunks : list string) : string := sconcat (from_utf8_lossy <$> chunks).

(** Reading until a marker.  Whatever the timing, the text returned is the
    chunks received on the way, each decoded on its own; reading stops at the
    first chunk after which the text holds the marker, so no output beyond it is
    taken; and when it stops without the marker before the deadline, the output
    has closed. *)
Theorem read_until_spec (marker : string) (rounds : list nat) (s : Session) :
  let '(collected, s') := read_until marker rounds "" s in
  ∃ received, session_run s received s' ∧ collected = lossy received ∧
    length received ≤ length rounds ∧
    (∀ k, k < length received → scontains marker (lossy (take k received)) = false) ∧
    (scontains marker collected = true ∨ ss_output_closed s' = true ∨
     ∀ more, read_until marker (rounds ++ more) "" s = read_until marker more collected s').
Proof.
  cut (∀ done_, (∀ k, k < length done_ → scontains marker (lossy (take k done_)) = false) →
    let '(collected, s') := read_until marker rounds (lossy done_) s in
    ∃ received, session_run s received s' ∧ collected = lossy (done_ ++ received) ∧
      length received ≤ length rounds ∧
      (∀ k, k < length (done_ ++ received) → scontains marker (lossy (take k (done_ ++ received))) = false) ∧
      (scontains marker collected = true ∨ ss_output_closed s' = true ∨
       ∀ more, read_until marker (rounds ++ more) (lossy done_) s = read_until marker more collected s')).
  { intros H. apply (H []). cbn. lia. }
  revert s. induction rounds as [|moves rounds IH]; intros s done_ Hdone; cbn [read_until app length].
  - destruct (scontains marker (lossy done_)) eqn:E; exists []; rewrite app_nil_r;
      (split; [apply run_end|]); split_and!; auto.
  - destruct (scontains marker (lossy done_)) eqn:E.
    { exists []. rewrite app_nil_r. split; [apply run_end|]. split_and!; auto. cbn. lia. }
    destruct (recv_output moves s) as [[chunk|] s1] eqn:Er; pose proof (recv_output_run _ _ _ _ Er) as Hrun; cbn in Hrun.
    + assert (lossy done_ +:+ from_utf8_lossy chunk = lossy (done_ ++ [chunk])) as Hl.
      { unfold lossy. rewrite fmap_app, sconcat_app. cbn. by rewrite sapp_nil_r. }
      rewrite Hl. specialize (IH s1 (done_ ++ [chunk])). destruct (read_until _ _ _ _) as [collected s'].
      destruct IH as (received & Hr & Hc & Hlen & Hmin & Hend).
      * intros k Hk. rewrite length_app in Hk. cbn in Hk.
        destruct (decide (k < length done_)).
        -- rewrite take_app_le by lia. by apply Hdone.
        -- replace k with (length done_) by lia. by rewrite take_app_length.
      * exists (chunk :: received). rewrite <-app_assoc in Hc, Hmin. cbn in Hc, Hmin.
        split; [by apply (session_run_app _ [chunk] _ _ _ Hrun)|]. split_and!; [done|cbn; lia|done|].
        destruct Hend as [?|[?|Hm]]; auto.
    + destruct (ss_output_closed s1) eqn:Ec.
      { exists []. rewrite app_nil_r. split_and!; auto. cbn. lia. }
      specialize (IH s1 done_ Hdone). destruct (read_until _ _ _ _) as [collected s'].
      destruct IH as (received & Hr & Hc & Hlen & Hmin & Hend). exists received.
      split; [by apply (session_run_app _ [] _ _ _ Hrun)|]. split_and!; [done|lia|done|].
      destruct Hend as [?|[?|Hm]]; auto.
Qed.

(** ** Witnesses *)

(** A character cut in two by a chunk boundary: the marker is in the output,
    but the text collected has two replacement characters instead. *)
Example marker_cut_in_two :
  let e_acute := utf8_char [0xC3; 0xA9]%Z in
  let halves := [utf8_char [0xC3]%Z; utf8_char [0xA9]%Z] in
  sconcat halves = e_acute ∧
  read_until e_acute [9; 9; 9] "" (fresh_session (Bytes <$> halves) 4) =
    (REPLACEMENT +:+ REPLACEMENT, mk_session (mk_channel [] None true [] 4 true) true false 0 None).
Proof. vm_compute. auto. Qed.

(** A two-chunk channel of capacity one: after the drop begins the pump blocks. *)
Example drop_blocks : pump_move (pump_moves 5 (channel_new [Bytes "a"; Bytes "b"] 1)) = None ∧
  cn_ended (pump_moves 5 (channel_new [Bytes "a"; Bytes "b"] 1)) = false.
Proof. vm_compute. auto. Qed.

Lemma pty_output_exact_witness :
  let config := spawn_config ["cmd.exe"] in
  let s := (recv_output 9 (fresh_session [Bytes "a"; Bytes "b"] (pty_capacity config))).2 in
  ["a"] ++ unseen (ss_channel s) = ["a"; "b"].
Proof.
  intros config s.
  assert (session_run (fresh_session [Bytes "a"; Bytes "b"] (pty_capacity config)) ["a"] s) as Hrun
    by (apply (recv_output_run 9 _ (Some "a")); vm_compute; reflexivity).
  assert (Forall (λ chunk, slen chunk ≤ PTY_PUMP_CHUNK_BYTES)%Z (readable [Bytes "a"; Bytes "b"])) as Hsize
    by (repeat constructor; done).
  exact (proj1 (proj1 (pty_output_exact config) [Bytes "a"; Bytes "b"] ["a"] s Hrun Hsize)).
Defined.

(** A budget of one byte lets the agent hold two full chunks; the default budget
    of 1 MiB lets it hold 16 KiB more. *)
Example held_over_budget :
  ((Z.of_nat (pty_capacity (mk_spawn_config [] None [] 80 25 1)) + 1) * PTY_PUMP_CHUNK_BYTES = 32 * 1024)%Z ∧
  ((Z.of_nat (pty_capacity (spawn_config [])) + 1) * PTY_PUMP_CHUNK_BYTES = DEFAULT_OUTPUT_BUFFER_BYTES + 16 * 1024)%Z.
Proof. vm_compute. auto. Qed.
