(* ===== verification/PlainSpawn.v ===== *)
(** * PlainSpawn: starting and dropping a plain child (calcar-pty, plain.rs)

    [output_pipe], [stdin_pipe], [kill_on_close_job], [PlainChild::spawn] and
    [Drop for Inner] of [calcar-pty/src/plain.rs].  Handles live in
    [OwnedHandle] locals: an early return drops those still owned, the last
    declared first. *)

From S2P Require Import Prelude Text Quote Plain EnvBlock Win32 PtySpawn.
From Stdlib Require Import Ascii.

(** ** Owned locals

    A function with [OwnedHandle] locals runs over the log and its frame: the
    handles in declaration order, zero once closed or moved away. *)

Definition FrameM (A : Type) : Type := ST (Sys * list Z) PtyError A.

(** What a started plain child owns: [struct Inner], with the files its threads
    own. *)
Record PlainHandles := mk_plain {
  pn_job : Z;
  pn_process : Z;
  pn_pid : Z;
  pn_writer : option Z;
  pn_stdout : Z;
  pn_stderr : Z;
  pn_cap : Z;
}.

(** [PlainConfig::from_spawn] *)
Definition from_spawn (config : SpawnConfig) (input : option string) : PlainConfig :=
  mk_plain_config (sc_argv config) (sc_working_dir config) (sc_env config) input
    (sc_output_buffer_bytes config).

(** [stdout_lossy] and [stderr_lossy] *)
Definition stdout_lossy (o : PlainOutput) : string := from_utf8_lossy (po_stdout o).
Definition stderr_lossy (o : PlainOutput) : string := from_utf8_lossy (po_stderr o).

(** [stub::PlainChild::spawn], elsewhere than on Windows: there are no plain
    children there, so its other methods are never reached. *)
Definition stub_spawn (config : PlainConfig) : result PlainHandles PtyError :=
  Err (InvalidConfig "plain pipe executor requires Windows").

Section PlainSpawn.
Context {win32 : Win32} {process_env : ProcessEnv}.

Definition in_frame {A} (m : SysM PtyError A) : FrameM A := λ '(s, frame),
  let '(r, s') := m s in (r, (s', frame)).

(** [let x = OwnedHandle::new(handle)]: the local's place in the frame. *)
Definition own (handle : Z) : FrameM nat := λ '(s, frame),
  (Ok (length frame), (s, frame ++ [handle])).

(** [x.raw()] *)
Definition raw (x : nat) : FrameM Z := λ '(s, frame), (Ok (default 0%Z (frame !! x)), (s, frame)).

(** [x.close()] *)
Definition close (x : nat) : FrameM unit := λ '(s, frame),
  (Ok tt, (log (owned_close (default 0%Z (frame !! x))) s, <[x := 0%Z]> frame)).

(** [x.detach()], or moving [x] into the result *)
Definition detach (x : nat) : FrameM Z := λ '(s, frame),
  (Ok (default 0%Z (frame !! x)), (s, <[x := 0%Z]> frame)).

(** The end of the function: the locals are dropped in reverse order. *)
Definition with_frame {A} (m : FrameM A) : SysM PtyError A := λ s,
  let '(r, (s', frame)) := m (s, []) in (r, log (reverse frame ≫= owned_close) s').

(** [output_pipe] *)
Definition output_pipe : SysM PtyError (Z * Z) :=
  let* (read, write) := or_else create_pipe [] (last_error "CreatePipe") in
  let* _ := or_else (set_handle_information read) [CloseHandle read; CloseHandle write]
              (last_error "SetHandleInformation") in
  st_ret (read, write).

(** [stdin_pipe] *)
Definition stdin_pipe : SysM PtyError (Z * Z) :=
  let* (read, write) := or_else create_pipe [] (last_error "CreatePipe stdin") in
  let* _ := or_else (set_handle_information write) [CloseHandle read; CloseHandle write]
              (last_error "SetHandleInformation stdin") in
  st_ret (read, write).

(** [kill_on_close_job] *)
Definition kill_on_close_job : SysM PtyError Z :=
  let* job := or_else create_job_object [] (last_error "CreateJobObjectW") in
  let* _ := or_else (set_kill_on_close job) [CloseHandle job] (last_error "SetInformationJobObject") in
  st_ret job.

Definition WRITER : string := "calcar-plain-stdin".
Definition STDOUT_PUMP : string := "calcar-plain-pump-stdout".
Definition STDERR_PUMP : string := "calcar-plain-pump-stderr".

(** A thread that cannot start ends the tree; [files] are locals dropped on
    the way out. *)
Definition start_thread (job : Z) (name : string) (file : Z) (files : list Z) : FrameM unit :=
  in_frame (or_else (spawn_thread name [file]) (TerminateJob job :: (CloseHandle <$> files)) PtyIo).

(** The calls of [PlainChild::spawn], once the command line and the environment
    block are built. *)
Definition plain_create (config : PlainConfig) (command_line_text : string) (env_block : list Z) :
    SysM PtyError PlainHandles :=
  let command := wide command_line_text in
  let cap := Z.max 1 (Z.min (pc_output_cap_bytes config) MAX_PLAIN_OUTPUT_CAP_BYTES) in
  with_frame (
    let* (read, write) := in_frame output_pipe in
    let* stdout_read := own read in
    let* stdout_write := own write in
    let* (read, write) := in_frame output_pipe in
    let* stderr_read := own read in
    let* stderr_write := own write in
    let* stdin_pair :=
      match pc_input config with
      | Some _ =>
          let* (read, write) := in_frame stdin_pipe in
          let* stdin_read := own read in
          let* stdin_write := own write in
          st_ret (Some (stdin_read, stdin_write))
      | None => st_ret None
      end in
    let* handle := in_frame kill_on_close_job in
    let* job := own handle in
    let* job_raw := raw job in
    let* std_input := match stdin_pair with Some (stdin_read, _) => raw stdin_read | None => st_ret 0%Z end in
    let* std_output := raw stdout_write in
    let* std_error := raw stderr_write in
    let* (hProcess, hThread, pid) :=
      in_frame (or_else (create_process command env_block (wide <$> pc_working_dir config) None
                           [std_input; std_output; std_error]) [] (last_error "CreateProcessW")) in
    let* _ := in_frame (win_do (if negb (hThread =? 0)%Z then [CloseHandle hThread] else [])) in
    let* process := own hProcess in
    let* _ := close stdout_write in
    let* _ := close stderr_write in
    let* stdin_write :=
      match stdin_pair with
      | Some (stdin_read, stdin_write) => let* _ := close stdin_read in st_ret (Some stdin_write)
      | None => st_ret None
      end in
    let* process_raw := raw process in
    let* _ := in_frame (or_else (assign_process job_raw process_raw) [TerminateProcess process_raw]
                          (last_error "AssignProcessToJobObject")) in
    let* writer :=
      match stdin_write with
      | Some stdin_write =>
          let* file := detach stdin_write in
          let* _ := start_thread job_raw WRITER file [] in
          st_ret (Some file)
      | None => st_ret None
      end in
    let* stdout_file := detach stdout_read in
    let* stderr_file := detach stderr_read in
    let* _ := start_thread job_raw STDOUT_PUMP stdout_file [stderr_file] in
    let* _ := start_thread job_raw STDERR_PUMP stderr_file [] in
    let* job := detach job in
    let* process := detach process in
    st_ret (mk_plain job process pid writer stdout_file stderr_file cap)).

(** [PlainChild::spawn]; [None] when [environment_block] panics. *)
Definition plain_spawn (config : PlainConfig) (s : Sys) : option (result PlainHandles PtyError * Sys) :=
  match command_line (pc_argv config) with
  | Err e => Some (Err e, s)
  | Ok command_line_text =>
      env_block ← environment_block (pc_env config);
      Some (plain_create config command_line_text env_block s)
  end.

(** [PlainChild::kill] *)
Definition plain_kill (p : PlainHandles) : SysM PtyError unit := win_do [TerminateJob (pn_job p)].

(** The threads are joined, the writer first; the handles are closed.  These are
    the calls in order; whether a join returns is [JobTree.returns]. *)
Definition join_threads (p : PlainHandles) : list SysCall :=
  match pn_writer p with Some file => [JoinThread WRITER [file]] | None => [] end ++
  [JoinThread STDOUT_PUMP [pn_stdout p]; JoinThread STDERR_PUMP [pn_stderr p]].
Definition drop_fields (p : PlainHandles) : list SysCall :=
  owned_close (pn_job p) ++ owned_close (pn_process p).

(** [Drop for Inner], with the fields dropped after it. *)
Definition plain_drop (p : PlainHandles) : list SysCall :=
  TerminateJob (pn_job p) :: join_threads p ++ drop_fields p.

(** The loop of [join]: each turn before the deadline sees which pumps have
    finished; [false] when the deadline passes first. *)
Fixpoint join_polls (polls : list (bool * bool)) : bool :=
  match polls with
  | [] => false
  | (stdout_done, stderr_done) :: rest => if stdout_done && stderr_done then true else join_polls rest
  end.

(** [PlainChild::join] after a wait that succeeded, with the drop of the child
    whose threads it took.  A wait that fails drops the child as it is. *)
Definition plain_join (polls : list (bool * bool)) (p : PlainHandles) : list SysCall :=
  (if join_polls polls then [] else [TerminateJob (pn_job p)]) ++
  join_threads p ++ TerminateJob (pn_job p) :: drop_fields p.

(** ** Facts *)

Lemma wp_with_frame {A} (m : FrameM A) Q s :
  wp m (λ r '(s', frame), Q r (log (reverse frame ≫= owned_close) s')) (s, []) → wp (with_frame m) Q s.
Proof. unfold wp, with_frame. by destruct (m (s, [])) as [r [s' frame]]. Qed.

Lemma wp_in_frame {A} (m : SysM PtyError A) Q s frame :
  wp m (λ r s', Q r (s', frame)) s → wp (in_frame m) Q (s, frame).
Proof. unfold wp, in_frame. by destruct (m s). Qed.

Lemma wp_own h Q s frame : Q (Ok (length frame)) (s, frame ++ [h]) → wp (own h) Q (s, frame).
Proof. done. Qed.
Lemma wp_raw x Q s frame : Q (Ok (default 0%Z (frame !! x))) (s, frame) → wp (raw x) Q (s, frame).
Proof. done. Qed.
Lemma wp_close x Q s frame :
  Q (Ok tt) (log (owned_close (default 0%Z (frame !! x))) s, <[x := 0%Z]> frame) →
  wp (close x) Q (s, frame).
Proof. done. Qed.
Lemma wp_detach x Q s frame :
  Q (Ok (default 0%Z (frame !! x))) (s, <[x := 0%Z]> frame) → wp (detach x) Q (s, frame).
Proof. done. Qed.

Definition plain_owned (p : PlainHandles) : list Res :=
  [RHandle (pn_job p); RHandle (pn_process p); RHandle (pn_stdout p); RHandle (pn_stderr p)] ++
  match pn_writer p with Some file => [RHandle file] | None => [] end.

Definition plain_result (r : result PlainHandles PtyError) (calls : list SysCall) : Prop :=
  match r with
  | Err e => balanced calls (thread_files calls) ∧ ∀ process, created calls process → ended calls process
  | Ok p => balanced calls (plain_owned p) ∧
      (∀ kills s ending, sy_trace s = calls → ending = plain_drop p ∨ (∃ polls, ending = plain_join polls p) →
         balanced (sy_trace (runs (λ _ s, (plain_kill p s).2) (replicate kills tt) s) ++ ending) []) ∧
      created calls (pn_process p) ∧ tree_ended (calls ++ plain_drop p) (pn_process p)
  end.

End PlainSpawn.

(** Run the frame on a concrete list of locals. *)
Ltac frame_step :=
  match goal with
  | |- wp (st_bind _ _) _ _ => apply wp_bind
  | |- wp (in_frame _) _ _ => apply wp_in_frame
  | |- wp (own _) _ _ => apply wp_own
  | |- wp (raw _) _ _ => apply wp_raw
  | |- wp (close _) _ _ => apply wp_close
  | |- wp (detach _) _ _ => apply wp_detach
  | |- wp (st_ret _) _ _ => apply wp_ret
  | |- wp (win_do _) _ _ => apply wp_win_do
  | |- wp output_pipe _ _ => unfold output_pipe
  | |- wp stdin_pipe _ _ => unfold stdin_pipe
  | |- wp kill_on_close_job _ _ => unfold kill_on_close_job
  | |- wp (start_thread _ _ _ _) _ _ => unfold start_thread
  | |- wp (or_else (spawn_thread _ _) _ _) _ _ => apply wp_or_thread; [let m := fresh "m" in intros m|]
  | |- wp (or_else _ _ _) _ _ =>
      apply wp_or_call;
      [ let code := fresh "code" in intros code
      | let a := fresh "a" in let c := fresh "c" in let H := fresh "H" in
        intros a c H; injection H as ? ?; subst a c; cbn beta iota ]
  end;
  cbn [sy_calls sy_handles sy_trace app log length lookup list_lookup insert list_insert from_option id default
       fst snd negb].

(** The closes of a concrete frame. *)
Ltac frame_closes :=
  unfold reverse; cbn -[owned_close bit win_handle Nat.add balanced created ended tree_ended plain_drop plain_owned];
  rewrite ?win_handle_nonzero, ?owned_close_handle; change (owned_close 0) with (@nil SysCall);
  cbn -[owned_close bit win_handle Nat.add balanced created ended tree_ended plain_drop plain_owned].

Section Ledger.
Context {win32 : Win32} {process_env : ProcessEnv}.

(** An early return: a created child was ended. *)
Ltac frame_error :=
  split; [solve_ledger|];
  let p := fresh "p" in let H := fresh "H" in
  intros p (? & ? & ? & ? & ? & ? & ? & H);
  repeat (apply elem_of_cons in H as [H|H]; [first [discriminate H | injection H as; subst]|]);
  first [ by apply elem_of_nil in H
        | right; left; solve [in_log]
        | left; eexists; split_and!; [in_log|in_log|left; solve [in_log]] ].

Lemma plain_end_balanced p calls :
  balanced (calls ++ join_threads p ++ drop_fields p) [] →
  ∀ kills s ending, sy_trace s = calls → ending = plain_drop p ∨ (∃ polls, ending = plain_join polls p) →
    balanced (sy_trace (runs (λ _ s, (plain_kill p s).2) (replicate kills tt) s) ++ ending) [].
Proof.
  intros H kills s ending <- Hend.
  assert (sy_trace (runs (λ _ s, (plain_kill p s).2) (replicate kills tt) s) =
    sy_trace s ++ replicate kills (TerminateJob (pn_job p))) as ->.
  { clear H. revert s. induction kills as [|k IH]; intros s; [by rewrite app_nil_r|].
    cbn [replicate runs]. rewrite IH. cbn. by rewrite <-app_assoc. }
  assert (∀ n, Forall neutral (replicate n (TerminateJob (pn_job p)))) as Hn
    by (intros n; by apply Forall_replicate).
  rewrite <-app_assoc. destruct Hend as [->|[polls ->]].
  - apply balanced_neutral; [done|]. by apply (balanced_neutral _ [TerminateJob (pn_job p)]); [apply (Hn 1)|].
  - unfold plain_join. rewrite !app_assoc.
    apply (balanced_neutral _ [TerminateJob (pn_job p)] (drop_fields p)); [apply (Hn 1)|].
    rewrite <-!app_assoc. apply balanced_neutral; [done|].
    by apply balanced_neutral; [destruct (join_polls polls); [constructor|apply (Hn 1)]|].
Qed.

(** A started child. *)
Ltac frame_started :=
  split; [unfold plain_owned; cbn -[bit win_handle Nat.add balanced]; solve_ledger|];
  split; [refine (plain_end_balanced _ _ _)|];
  unfold plain_drop, join_threads, drop_fields; cbn -[owned_close bit win_handle Nat.add balanced created tree_ended];
  rewrite ?owned_close_handle; [cbn -[bit balanced win_handle Nat.add]; solve_ledger|];
  split; [do 7 eexists; in_log|eexists; split_and!; [in_log|in_log|left; solve [in_log]]].

Lemma plain_create_ok config text env_block calls handles :
  wp (plain_create config text env_block) (λ r s', plain_result r (sy_trace s')) (sys_at calls handles).
Proof.
  unfold plain_create, sys_at. apply wp_with_frame.
  destruct (pc_input config) as [bytes|]; repeat frame_step; frame_closes; first [frame_error | frame_started].
Qed.

(** C34: starting and dropping a plain child leaks nothing.  Whichever call or
    thread fails first, every handle obtained by then is given back exactly once
    and never before, except the pipe ends of threads already started, which
    close when the thread ends; a child that was created is ended, directly or
    with its whole tree.  A child that starts owns exactly its job, its process
    and the pipe ends of its threads, and dropping or joining it, however
    often it was killed before, joins the threads, gives back each handle once
    and ends the tree.  A spawn that panics has made no call yet. *)
Theorem plain_spawn_ledger (config : PlainConfig) (calls handles : nat) :
  match plain_spawn config (sys_at calls handles) with
  | Some (r, s') => plain_result r (sy_trace s')
  | None => env_vars = None ∧ pc_argv config ≠ []
  end.
Proof.
  unfold plain_spawn. destruct (command_line (pc_argv config)) as [text|e] eqn:Ec.
  - unfold environment_block, environment_map. destruct env_vars; cbn [mbind option_bind]; [apply plain_create_ok|].
    split; [done|]. by destruct (pc_argv config).
  - split; [solve_ledger|]. intros p (? & ? & ? & ? & ? & ? & ? & H). by apply elem_of_nil in H.
Qed.
End Ledger.

(** A child with input that starts, and one whose second pump cannot. *)
#[local] Instance sample_process_env : ProcessEnv := {| env_vars_os := []; to_uppercase := ascii_upper |}.

Example child_starts :
  (is_ok ∘ fst <$> plain_spawn (win32:=sample_win32 99) (with_input "yes" (plain_config ["cmd.exe"; "/C"; "more"]))
    (sys_at 0 0)) = Some true.
Proof. vm_compute. reflexivity. Qed.

Example child_without_pump :
  ∃ r s, plain_spawn (win32:=sample_win32 9) (plain_config ["cmd.exe"]) (sys_at 0 0) = Some (r, s) ∧
  r = Err (PtyIo "no threads") ∧ thread_files (sy_trace s) = [RHandle 100] ∧
  drop 12 (sy_trace s) =
    [FailedCall STDERR_PUMP; CloseHandle 108; TerminateJob 116; CloseHandle 120; CloseHandle 116].
Proof. eexists _, _. vm_compute. auto. Qed.
