(* ===== verification/JobTree.v ===== *)
(** * JobTree: the processes of a session or child, and the end of a drop

    Windows as the code of [calcar-pty] relies on it, beside the log of its
    calls: processes start others that inherit their job and some of the
    handles they inherited, close handles and end, at any moment between two
    calls; terminating a job ends its processes, and so does closing a
    kill-on-close job.  A thread that reads or writes a pipe comes to the end of
    it once nobody holds the other end; the pump of a session must besides get
    everything unread into its bounded channel, while the sinks of a plain
    child take any amount.  A log has the calls of one session or child; that
    the child of another, started at the same time, inherits one of its pipe
    ends is not modelled. *)

From S2P Require Import Prelude Text Quote Plain EnvBlock Win32 PtySpawn PtySession PlainSpawn.

(** ** Processes *)

(** A live process: the agent's handle on it, its job, the pipe ends it holds. *)
Record Proc := mk_proc { pr_handle : option Z; pr_job : option Z; pr_holds : list Z }.

(** The live processes, and how many were started by a process outside every
    job. *)
Record Tree := mk_tree { tr_live : list Proc; tr_escaped : nat }.

Definition nothing : Tree := mk_tree [] 0.

Definition joins (process job : Z) (p : Proc) : Proc :=
  if decide (pr_handle p = Some process) then mk_proc (pr_handle p) (Some job) (pr_holds p) else p.

(** What a call of the agent does to the processes. *)
Definition call_step (c : SysCall) (t : Tree) : Tree :=
  match c with
  | CreateProcess _ _ _ _ std process _ _ =>
      mk_tree (tr_live t ++ [mk_proc (Some process) None std]) (tr_escaped t)
  | AssignProcess job process => mk_tree (joins process job <$> tr_live t) (tr_escaped t)
  | TerminateJob job | CloseHandle job =>
      mk_tree (filter (λ p, pr_job p ≠ Some job) (tr_live t)) (tr_escaped t)
  | TerminateProcess process =>
      mk_tree (filter (λ p, pr_handle p ≠ Some process) (tr_live t)) (tr_escaped t)
  | _ => t
  end.

(** What the processes do by themselves. *)
Inductive world_step : Tree → Tree → Prop :=
| world_fork t p holds :
    p ∈ tr_live t → holds ⊆ pr_holds p →
    world_step t (mk_tree (tr_live t ++ [mk_proc None (pr_job p) holds])
      (match pr_job p with Some _ => tr_escaped t | None => S (tr_escaped t) end))
| world_exit t before p after :
    tr_live t = before ++ p :: after → world_step t (mk_tree (before ++ after) (tr_escaped t))
| world_close t before p after holds :
    tr_live t = before ++ p :: after → holds ⊆ pr_holds p →
    world_step t (mk_tree (before ++ mk_proc (pr_handle p) (pr_job p) holds :: after) (tr_escaped t)).

(** The calls of a log, with the processes moving in between. *)
Inductive exec : list SysCall → Tree → Tree → Prop :=
| exec_done t : exec [] t t
| exec_world calls t t1 t' : world_step t t1 → exec calls t1 t' → exec calls t t'
| exec_call c calls t t' : exec calls (call_step c t) t' → exec (c :: calls) t t'.

(** ** Joining a thread *)

(** The agent holds a resource after [calls]. *)
Definition holds_after (calls : list SysCall) (r : Res) : Prop :=
  occ r (calls ≫= released) < occ r (calls ≫= acquired).

(** Nobody holds the handle: not the agent, not a live process, not a console
    that was created over it. *)
Definition unheld (calls : list SysCall) (live : list Proc) (h : Z) : Prop :=
  ¬ holds_after calls (RHandle h) ∧
  (∀ p, p ∈ live → h ∉ pr_holds p) ∧
  (∀ cols rows input output console, CreatePseudoConsole cols rows input output console ∈ calls →
     h = input ∨ h = output → ¬ holds_after calls (RConsole console)).

(** The other ends of the pipes of the thread's files are gone: a reader sees
    the end of its pipe, a writer a broken one. *)
Definition pipe_ended (calls : list SysCall) (live : list Proc) (files : list Z) : Prop :=
  ∀ file read write, file ∈ files → CreatePipe read write ∈ calls →
    (file = read → unheld calls live write) ∧ (file = write → unheld calls live read).

(** A call of a drop returns.  Only joins wait: for the end of the thread's
    pipe, and for the channel the thread sends to, when there is one (the reads
    still to come are part of a [Channel]).  [ClosePseudoConsole], which on older
    Windows waits for the pump to read what the console has left, is not taken to
    wait: that wait would end under the condition of the join after it. *)
Definition returns (channel : option Channel) (calls : list SysCall) (live : list Proc) (c : SysCall) : Prop :=
  match c with
  | JoinThread _ files => pipe_ended calls live files ∧
      match channel with Some channel => join_returns channel | None => True end
  | _ => True
  end.


(** ** The values of handles

    The system may hand out a value again once it was given back, but never one
    that is still held. *)
Fixpoint never_doubled (held : list Res) (calls : list SysCall) : Prop :=
  match calls with
  | [] => True
  | c :: calls' =>
      NoDup (acquired c ++ held) ∧ never_doubled (filter (λ r, r ∉ released c) (acquired c ++ held)) calls'
  end.

#[local] Arguments never_doubled : simpl never.

#[local] Instance never_doubled_dec calls : ∀ held, Decision (never_doubled held calls).
Proof. induction calls as [|c calls IH]; intros held; [left; exact I|]. apply and_dec; [apply _|apply IH]. Defined.

(** ** A process in its job *)

Section JobTree.
#[local] Set Default Proof Using "Type*".

(** Neither a process is created nor put into a job. *)
Definition calm (c : SysCall) : Prop :=
  match c with CreateProcess _ _ _ _ _ _ _ _ | AssignProcess _ _ => False | _ => True end.











Lemma exec_nothing calls calls' t :
  Forall calm calls → exec calls' nothing t → exec (calls ++ calls') nothing t.
Proof.
  intros Hc. induction Hc as [|c calls Hcalm _ IH]; [done|]. intros H. apply exec_call.
  replace (call_step c nothing) with nothing by (by destruct c). by apply IH.
Qed.

(** ** Reading a log *)







(** ** The two spawns *)

Context {win32 : Win32} {process_env : ProcessEnv}.















End JobTree.

(** ** Witness, and the proviso *)

#[local] Instance sample_process_env : ProcessEnv := {| env_vars_os := []; to_uppercase := ascii_upper |}.
#[local] Instance sample_system : Win32 := sample_win32 99.


Definition sample_child : PlainConfig := plain_config ["cmd.exe"; "/C"; "make"].
Definition sample_calls : list SysCall :=
  match plain_spawn sample_child (sys_at 0 0) with Some (_, s) => sy_trace s | None => [] end.


(** The same for the log of a session. *)
Example session_log_fresh :
  match pty_spawn (spawn_config ["cmd.exe"]) (sys_at 0 0) with
  | Some (Ok p, s') => never_doubled [] (sy_trace s') ∧
      runs call_step (sy_trace s' ++ [TerminateJob (pt_job p)]) nothing = nothing
  | _ => False
  end.
Proof. vm_compute pty_spawn. split; [apply (bool_decide_unpack _); vm_compute; exact I|reflexivity]. Qed.

(** A process that the child starts before it has joined the job survives the
    termination of the job, and as long as it holds the output pipe the join of
    the pump does not return. *)
Example grandchild_escapes :
  let t := mk_tree [mk_proc None None [104%Z]] 1 in
  exec (sample_calls ++ [TerminateJob 116]) nothing t ∧
  ¬ returns None (sample_calls ++ [TerminateJob 116]) (tr_live t) (JoinThread STDOUT_PUMP [100%Z]).
Proof.
  split.
  - assert (∃ before command env cwd pid after,
      sample_calls = before ++ CreateProcess command env cwd None [0; 104; 112]%Z 120 124 pid :: after ∧
      Forall calm before ∧ after = [CloseHandle 124; CloseHandle 104; CloseHandle 112; AssignProcess 116 120;
        SpawnThread STDOUT_PUMP [100%Z]; SpawnThread STDERR_PUMP [108%Z]])
      as (before & command & env & cwd & pid & after & -> & Hb & ->).
    { unfold sample_calls. vm_compute.
      eexists [_; _; _; _; _; _], _, _, _, _, _. split; [reflexivity|]. repeat constructor. }
    rewrite <-app_assoc. apply exec_nothing; [done|]. cbn. apply exec_call.
    eapply exec_world; [apply (world_fork _ (mk_proc (Some 120%Z) None [0; 104; 112]%Z) [104%Z]);
      [by apply list_elem_of_singleton|set_solver]|].
    do 7 apply exec_call. cbn. apply exec_done.
  - unfold returns, pipe_ended. intros [H _]. destruct (H 100%Z 100%Z 104%Z) as [Hr _].
    + by apply list_elem_of_singleton.
    + unfold sample_calls. vm_compute. by left.
    + destruct (Hr eq_refl) as (_ & Hp & _). apply (Hp (mk_proc None None [104%Z])); by apply list_elem_of_singleton.
Qed.
