(* ===== verification/Doctor.v ===== *)
(** * Doctor: the preflight checks (crate calcar-agent)

    [doctor.rs] and [main.rs] of [calcar-agent]: the five checks in order, the
    report and the exit code.  The registry, the data-protection calls and the
    socket are the machine's; the console probe is a log of Windows calls and
    the migration runs over an empty store. *)

From S2P Require Import Prelude Text Events Schema Storage Store Reach Quote Win32 PtySpawn Server.
From Stdlib Require Import Ascii.

(** [struct Check] and [struct Report] *)
Record Check := mk_check { ck_name : string; ck_ok : bool; ck_detail : string }.
Definition Report : Type := list Check.

(** [Report::all_ok] *)
Definition all_ok (report : Report) : bool := forallb ck_ok report.

(** What the machine answers. *)
Class Machine := {
  (** [cfg(windows)] and [std::env::consts::OS] *)
  cfg_windows : bool;
  os_name : string;
  (** opening the version key, and its two values *)
  open_version_key : result unit string;
  product_name : option string;
  build_number : option string;
  (** [CryptProtectData]: a blob, null or not *)
  crypt_protect : string → option (option string);
  (** [CryptUnprotectData]: success, and the blob *)
  crypt_unprotect : option string → bool * option string;
  (** [TcpListener::bind] on an ephemeral port, and [local_addr] *)
  bind_ephemeral : result (option Z) string;
  (** what [GetLastError] gives after a call that failed with a code and a
      [CloseHandle] after it *)
  error_after_close : Z → Z;
}.

Section Doctor.
Context {machine : Machine} {win32 : Win32} {env : Env}.

(** [os_check] *)
Definition os_check : Check :=
  if cfg_windows then
    match open_version_key with
    | Ok _ => mk_check "os" true
        (default "Windows" product_name +:+ ", build " +:+ default "?" build_number)
    | Err error => mk_check "os" false ("registry read failed: " +:+ error)
    end
  else mk_check "os" false ("platform " +:+ os_name +:+ " is not Windows").

(** [conpty_check].  The code of a failed second pipe is asked for only after the
    first was closed. *)
Definition conpty_probe : SysM Check Check :=
  let failed detail := mk_check "conpty" false detail in
  let catch {A} (m : SysM Z A) (cleanup : list SysCall) (detail : Z → string) : SysM Check A := λ s,
    match m s with
    | (Ok a, s') => (Ok a, s')
    | (Err code, s') => (Err (failed (detail code)), log cleanup s')
    end in
  let* (conpty_read, conpty_write) :=
    catch create_pipe [] (λ code, "input pipe creation failed, GetLastError=" +:+ dec code) in
  let* (out_read, out_write) :=
    catch create_pipe [CloseHandle conpty_read; CloseHandle conpty_write]
      (λ code, "output pipe creation failed, GetLastError=" +:+ dec (error_after_close (error_after_close code))) in
  let pipes := close_all [conpty_read; conpty_write; out_read; out_write] in
  let* hpcon := catch (create_pseudo_console 120 30 conpty_read out_write) pipes
                  (λ code, "CreatePseudoConsole failed, HRESULT 0x" +:+ fmt_08X code) in
  let* _ := win_do pipes in
  let* _ := win_do [ClosePseudoConsole hpcon] in
  st_ret (mk_check "conpty" true "created and closed a 120x30 pseudo console").

Definition conpty_check (s : Sys) : Check * Sys :=
  if cfg_windows then
    match conpty_probe s with (Ok check, s') | (Err check, s') => (check, s') end
  else (mk_check "conpty" false ("ConPTY is Windows only, platform is " +:+ os_name), s).

Definition SECRET : string := "calcar-doctor-dpapi-probe".

Definition blob_len (blob : option string) : Z := Z.of_nat (String.length (default "" blob)).

(** [dpapi_check], with the blobs it frees *)
Definition dpapi_check : Check * list string :=
  if cfg_windows then
    match crypt_protect SECRET with
    | None => (mk_check "dpapi" false "CryptProtectData failed", [])
    | Some encrypted =>
        let '(unprotected, decrypted) := crypt_unprotect encrypted in
        let round_trip := unprotected && (blob_len decrypted =? Z.of_nat (String.length SECRET))%Z &&
          match decrypted with Some bytes => String.eqb bytes SECRET | None => false end in
        let freed := option_list decrypted ++ option_list encrypted in
        if round_trip
        then (mk_check "dpapi" true ("round trip ok, " +:+ dec (blob_len encrypted) +:+ " encrypted bytes"), freed)
        else (mk_check "dpapi" false "CryptUnprotectData output did not match the input", freed)
    end
  else (mk_check "dpapi" false ("DPAPI is Windows only, platform is " +:+ os_name), []).

(** [migrate_check] *)
Definition migrate_check (w : World) : Check * World :=
  match (let* _ := open_in_memory in migrate) w with
  | (Ok applied, w') => (mk_check "migrate" true ("applied " +:+ join ", " applied), w')
  | (Err error, w') => (mk_check "migrate" false (storage_display error), w')
  end.

(** [bind_check] *)
Definition bind_check : Check :=
  match bind_ephemeral with
  | Ok port => mk_check "bind" true ("ephemeral bind ok, got port " +:+ dec (default 0%Z port))
  | Err error => mk_check "bind" false error
  end.

(** [doctor::run] *)
Definition doctor_run (s : Sys) (w : World) : Report * (Sys * World) :=
  let os := os_check in
  let '(conpty, s') := conpty_check s in
  let '(dpapi, _) := dpapi_check in
  let '(migrate, w') := migrate_check w in
  ([os; conpty; dpapi; migrate; bind_check], (s', w')).

(** ** The binary *)

(** [{:<12}] *)
Definition pad12 (s : string) : string := s +:+ sconcat (replicate (12 - String.length s) " ").

Definition report_line (check : Check) : string :=
  (if ck_ok check then "ok  " else "FAIL") +:+ "  " +:+ pad12 (ck_name check) +:+ " " +:+ ck_detail check.

(** The [doctor] arm of [main]: the lines printed and the exit code. *)
Definition doctor_main (s : Sys) (w : World) : list string * Z :=
  let '(report, _) := doctor_run s w in
  (report_line <$> report, if all_ok report then 0 else 1)%Z.

(** ** Facts *)

(** The empty in-memory store. *)
Definition memory_world (t n : nat) : World := mk_world empty_db t n.

Lemma migrate_fresh t n :
  (∀ n, fault n = None) →
  ∃ w', (let* _ := open_in_memory in migrate) (memory_world t n) = (Ok ["0001_init"], w') ∧ migrated (db w').
Proof.
  intros Hf.
  assert (∀ A (f : Db → result (A * Db) SqliteError) w, sqlite_call f w =
    match f (db w) with
    | Ok (a, d) => (Ok a, mk_world d (ticks w) (S (stmts w)))
    | Err e => (Err (Sqlite e), mk_world (db w) (ticks w) (S (stmts w)))
    end) as Hcall by (intros; unfold sqlite_call; by rewrite Hf).
  unfold open_in_memory, configure, migrate, st_bind, st_ret, memory_world.
  repeat (rewrite Hcall; cbn).
  rewrite bool_decide_eq_false_2 by apply not_elem_of_nil.
  unfold apply_migration, transaction, st_bind, st_try, now, st_ret. rewrite Hcall. cbn. rewrite Hcall. cbn.
  rewrite Hcall. cbn. rewrite bool_decide_eq_false_2 by apply not_elem_of_nil. cbn. rewrite Hcall. cbn. eexists. split; [reflexivity|]. split; [done|].
  eexists. split; [reflexivity|]. by apply list_elem_of_singleton.
Qed.

Lemma migrate_leaves t n applied w' :
  (let* _ := open_in_memory in migrate) (memory_world t n) = (Ok applied, w') → migrated (db w').
Proof.
  intros Hrun.
  assert (wp (let* _ := open_in_memory in migrate) (λ r w', is_ok r = true → migrated (db w')) (memory_world t n)) as H.
  { apply wp_bind, wp_of. intros r w1 Hopen.
    assert (db w1 = empty_db) as Hdb.
    { pose proof (f_equal (λ p, db p.2) Hopen) as Hw. cbn in Hw. rewrite <-Hw.
      unfold open_in_memory, configure, st_bind, sqlite_call. by repeat (case_match; simplify_eq). }
    destruct r; [|done]. apply wp_migrate; [done|]. intros w2 Hw2 _ Hnot Hsome.
    assert (¬ recorded (db w1)) as Hr by (rewrite Hdb; by intros (? & ? & _)).
    destruct (decide (recorded (db w1))); [done|].
    apply wp_bind, wp_apply_init; [done|auto|done|]. intros t1 rows w3 _ Hw3. apply wp_ret. intros _.
    rewrite Hw3. split; [done|]. eexists. split; [done|]. rewrite fmap_app.
    apply elem_of_app. right. by apply list_elem_of_singleton. }
  unfold wp in H. rewrite Hrun in H. by apply H.
Qed.

(** The three console calls succeed. *)
Definition console_works (calls : nat) : Prop :=
  win_fault calls = None ∧ win_fault (S calls) = None ∧ win_fault (S (S calls)) = None.

(** The secret comes back. *)
Definition sealing_works : Prop :=
  ∃ encrypted, crypt_protect SECRET = Some encrypted ∧ crypt_unprotect encrypted = (true, Some SECRET).

Lemma conpty_check_ok calls handles :
  let '(check, s') := conpty_check (sys_at calls handles) in
  ck_name check = "conpty" ∧ balanced (sy_trace s') [] ∧
  (ck_ok check = true ↔ cfg_windows = true ∧ console_works calls).
Proof.
  unfold conpty_check, console_works. destruct cfg_windows; [|split_and!; [done|solve_ledger|split; naive_solver]].
  unfold conpty_probe, st_bind, create_pipe, create_pseudo_console, win_call, win_do, log, st_ret, sys_at. cbn -[fmt_08X dec].
  destruct (win_fault calls); [split_and!; [done|solve_ledger|split; naive_solver]|]. cbn -[fmt_08X dec].
  destruct (win_fault (S calls)); [split_and!; [done|solve_ledger|split; naive_solver]|]. cbn -[fmt_08X dec].
  destruct (win_fault (S (S calls))); [split_and!; [done|solve_ledger|split; naive_solver]|].
  split_and!; [done|solve_ledger|split; naive_solver].
Qed.

Lemma dpapi_check_ok :
  ck_name dpapi_check.1 = "dpapi" ∧
  (ck_ok dpapi_check.1 = true ↔ cfg_windows = true ∧ sealing_works) ∧
  (cfg_windows = true → ∀ encrypted, crypt_protect SECRET = Some encrypted →
     dpapi_check.2 = option_list (crypt_unprotect encrypted).2 ++ option_list encrypted).
Proof.
  unfold dpapi_check, sealing_works. destruct cfg_windows; [|split_and!; [done|split; naive_solver|done]].
  destruct (crypt_protect SECRET) as [encrypted|] eqn:Ep; [|split_and!; [done|split; naive_solver|done]].
  destruct (crypt_unprotect encrypted) as [ok decrypted] eqn:Eu.
  set (b := ok && (blob_len decrypted =? Z.of_nat (String.length SECRET))%Z &&
    match decrypted with Some bytes => String.eqb bytes SECRET | None => false end).
  assert (b = true ↔ ok = true ∧ decrypted = Some SECRET) as Hb.
  { unfold b, blob_len. rewrite !andb_true_iff. destruct decrypted as [bytes|]; [|naive_solver].
    rewrite String.eqb_eq, Z.eqb_eq. naive_solver. }
  destruct b; cbn [fst snd ck_name ck_ok].
  - destruct (proj1 Hb eq_refl) as [-> ->]. split_and!; [done|split; eauto|]. intros _ e [= <-]. by rewrite Eu.
  - split_and!; [done| |].
    + split; [done|]. intros [_ (e & [= <-] & He)]. rewrite Eu in He. injection He as -> ->. naive_solver.
    + intros _ e [= <-]. by rewrite Eu.
Qed.

Lemma exit_zero (b : bool) : (if b then 0 else 1)%Z = 0%Z ↔ b = true.
Proof. by destruct b. Qed.

(** C40: the preflight.  The doctor reports the five checks in order and exits 0
    exactly when the agent runs on Windows with a readable version key, the
    console can be created, the sealed secret comes back, the store migrates
    and a local port can be bound; elsewhere than on Windows it never passes.
    The console probe gives back every handle on every path; a green migration
    check means a migrated store, and without engine faults it is green. *)
Theorem doctor_spec (calls handles t n : nat) :
  let '(report, (s', w')) := doctor_run (sys_at calls handles) (memory_world t n) in
  let code := (doctor_main (sys_at calls handles) (memory_world t n)).2 in
  let migrates := is_ok ((let* _ := open_in_memory in migrate) (memory_world t n)).1 in
  ck_name <$> report = ["os"; "conpty"; "dpapi"; "migrate"; "bind"] ∧
  (code = 0%Z ↔ cfg_windows = true ∧ is_ok open_version_key = true ∧ console_works calls ∧ sealing_works ∧
     migrates = true ∧ is_ok bind_ephemeral = true) ∧
  balanced (sy_trace s') [] ∧
  (migrates = true → migrated (db w')) ∧ ((∀ k, fault k = None) → migrates = true).
Proof.
  unfold doctor_main, doctor_run. pose proof (conpty_check_ok calls handles) as Hc.
  destruct (conpty_check (sys_at calls handles)) as [conpty s']. destruct Hc as (Hcn & Hcb & Hco).
  pose proof dpapi_check_ok as (Hdn & Hdo & _). destruct dpapi_check as [dpapi freed]. cbn in Hdn, Hdo.
  unfold migrate_check. pose proof (migrate_leaves t n) as Hl. pose proof (migrate_fresh t n) as Hf.
  destruct ((let* _ := open_in_memory in migrate) (memory_world t n)) as [r w'] eqn:Er.
  assert (ck_name os_check = "os" ∧ (ck_ok os_check = true ↔ cfg_windows = true ∧ is_ok open_version_key = true)) as [Hon Hoo].
  { unfold os_check. destruct cfg_windows, open_version_key; cbn; split; naive_solver. }
  assert (ck_name bind_check = "bind" ∧ ck_ok bind_check = is_ok bind_ephemeral) as [Hbn Hbo]
    by (unfold bind_check; by destruct bind_ephemeral).
  assert (∀ e, (∀ k, fault k = None) → r = Err e → False) as Hno.
  { intros e Hk ->. destruct (Hf Hk) as (? & [=] & _). }
  destruct r as [applied|e]; cbn -[ck_ok os_check bind_check join storage_display]; rewrite Hcn, Hdn, Hon, Hbn;
    (split; [done|]); (split; [|split; [done|]]).
  - cbn [ck_ok]. rewrite Hbo, exit_zero, !andb_true_iff, Hoo, Hco, Hdo. tauto.
  - split; [|done]. intros _. by eapply Hl.
  - cbn [ck_ok]. rewrite exit_zero, !andb_true_iff. intuition discriminate.
  - split; [done|]. intros Hk. by destruct (Hno e Hk).
Qed.
End Doctor.

(** A healthy machine passes. *)
Definition healthy_machine : Machine := {|
  cfg_windows := true; os_name := "windows"; open_version_key := Ok tt;
  product_name := Some "Windows 11 Pro"; build_number := None;
  crypt_protect := λ s, Some (Some ("sealed " +:+ s)); crypt_unprotect := λ _, (true, Some SECRET);
  bind_ephemeral := Ok (Some 50123%Z); error_after_close := id
|}.

Example doctor_passes :
  doctor_main (machine:=healthy_machine) (win32:=sample_win32 99) (env:=steady_env 1000 7) (sys_at 0 0)
    (memory_world 0 0) =
  (["ok    os           Windows 11 Pro, build ?";
    "ok    conpty       created and closed a 120x30 pseudo console";
    "ok    dpapi        round trip ok, 32 encrypted bytes";
    "ok    migrate      applied 0001_init";
    "ok    bind         ephemeral bind ok, got port 50123"], 0%Z).
Proof. vm_compute. reflexivity. Qed.
