(* ===== verification/ConnectMain.v ===== *)
(** * ConnectMain: the server binary (calcar-connect)

    [main.rs] of [calcar-connect] with [ConnectServer::run] of [server.rs]:
    the arguments, the boot (configuration, token, registry, socket) and the
    sequential accept loop.  The socket's [bind] and the requests that come in
    are parameters; a failed [respond] is only logged and changes nothing. *)

From S2P Require Import Prelude Text Schema Store Reach Json Http Config Exec Catalog CatalogFacts Server ServerFacts ServerSpec InputSpec Machine Refine.

(** ** The arguments *)

Definition USAGE : string := "usage: calcar-connect --config <path> [--port <n>]".

(** The loop over the arguments after the program's name. *)
Fixpoint parse_args (args : list string) (config_path : option string) (port_override : option Z) :
    result (option string * option Z) string :=
  match args with
  | [] => Ok (config_path, port_override)
  | arg :: rest =>
      if String.eqb arg "--config" then
        match rest with
        | path :: rest => parse_args rest (Some path) port_override
        | [] => Err "--config needs a path"
        end
      else if String.eqb arg "--port" then
        match rest with
        | value :: rest =>
            match at_least_1 (parse_u16 value) with
            | Some port => parse_args rest config_path (Some port)
            | None => Err "--port must be 1..=65535"
            end
        | [] => Err "--port needs a value"
        end
      else Err ("unknown argument " +:+ arg)
  end.

(** ** Booting and serving *)

Definition set_port (port : Z) (c : ConnectConfig) : ConnectConfig :=
  mk_config port (cf_token_file c) (cf_db_path c) (cf_computer_id c) (cf_display_name c)
    (cf_owner_device_id c) (cf_pubkey_b64 c) (cf_fingerprint c) (cf_cpu c) (cf_ram c) (cf_gpu c)
    (cf_disk c) (cf_exec_timeout_secs c).

(** [if let Some(port) = port_override { config.port = port; }] *)
Definition override_port (port : option Z) (c : ConnectConfig) : ConnectConfig :=
  match port with Some port => set_port port c | None => c end.

Definition set_config c s := mk_server c (sv_token s) (sv_registry s) (sv_world s) (sv_files s)
  (sv_calls s) (sv_attempts s) (sv_runs s).

(** [listen_addr] *)
Definition listen_addr (config : ConnectConfig) : string := "127.0.0.1:" +:+ dec (cf_port config).

(** [Method::as_str] *)
Definition method_str (m : Method) : string :=
  match m with Get => "GET" | Post => "POST" | OtherMethod name => name end.

(** The line logged after an answer: the query string is left out. *)
Definition access_line (request : Request) (response : Response) : string :=
  method_str (hr_method request) +:+ " " +:+ (split_path (hr_url request)).1 +:+ " -> " +:+
  dec (rp_status response).

Section Main.
Context {env : Env} {host : Host} {paths : Paths} {header_names : HeaderNames}.

(** [Display] of [ConnectError] *)
Definition connect_display (e : ConnectError) : string :=
  match e with
  | ConfigIo m => "config io: " +:+ m
  | BadConfig path problem => "config " +:+ path +:+ ": " +:+ problem
  | Config.Bind addr detail => "http bind failed on " +:+ addr +:+ ": " +:+ detail
  | ConnectStorage e => "storage: " +:+ storage_display e
  | ConnectLifecycle e => "lifecycle: " +:+ lifecycle_display e
  end.

(** The body of the accept loop, over the requests that come in. *)
Fixpoint serve (requests : list Request) (s : Server) : list (Response * string) * Server :=
  match requests with
  | [] => ([], s)
  | request :: rest =>
      let '(response, s) := reply request s in
      let '(answers, s) := serve rest s in
      ((response, access_line request response) :: answers, s)
  end.

(** [ConnectServer::run]; [bind] is [Server::http]. *)
Definition server_run (bind : string → result unit string) (requests : list Request) :
    ServerM ConnectError (list (Response * string)) :=
  let* config := λ s, (Ok (sv_config s), s) in
  let addr := listen_addr config in
  let* _ := st_lift (map_err (Config.Bind addr) (bind addr)) in
  λ s, let '(answers, s) := serve requests s in (Ok answers, s).

(** [run] of the binary; [args] are the arguments after the program's name. *)
Definition connect_run (bind : string → result unit string) (args : list string)
    (requests : list Request) : ServerM string (list (Response * string)) :=
  let* (config_path, port_override) := st_lift (parse_args args None None) in
  let* path := st_lift (ok_or config_path USAGE) in
  let* read := st_try (fs_read path) in
  let* config := st_lift (map_err (λ e, "config " +:+ path +:+ ": " +:+ connect_display e) (load path read)) in
  let* _ := modify (set_config (override_port port_override config)) in
  let* _ := st_map_err (λ e, "startup: " +:+ connect_display e) server_new in
  st_map_err (λ e, "serve: " +:+ connect_display e) (server_run bind requests).

(** [main]: the exit code and the error printed. *)
Definition connect_main (bind : string → result unit string) (args : list string)
    (requests : list Request) (s : Server) : Z * list string :=
  match (connect_run bind args requests s).1 with
  | Ok _ => (0%Z, [])
  | Err message => (1%Z, ["calcar-connect: " +:+ message])
  end.

(** ** The arguments *)

(** A well-formed option, as it is written. *)
Inductive Flag := ConfigFlag (path : string) | PortFlag (value : string) (port : Z).
Definition flag_args (f : Flag) : list string :=
  match f with ConfigFlag path => ["--config"; path] | PortFlag value _ => ["--port"; value] end.
Definition flag_ok (f : Flag) : Prop :=
  match f with
  | ConfigFlag _ => True
  | PortFlag value port => parse_u16 value = Some port ∧ (1 ≤ port ≤ 65535)%Z
  end.

(** The last of each option counts. *)
Definition last_path (flags : list Flag) (path : option string) : option string :=
  foldl (λ p f, match f with ConfigFlag path => Some path | PortFlag _ _ => p end) path flags.
Definition last_port (flags : list Flag) (port : option Z) : option Z :=
  foldl (λ n f, match f with PortFlag _ port => Some port | ConfigFlag _ => n end) port flags.

(** What is wrong with arguments that begin with no well-formed option. *)
Definition bad_argument (args : list string) (message : string) : Prop :=
  match args with
  | [] => False
  | arg :: rest =>
      if String.eqb arg "--config" then rest = [] ∧ message = "--config needs a path"
      else if String.eqb arg "--port" then
        match rest with
        | [] => message = "--port needs a value"
        | value :: _ => at_least_1 (parse_u16 value) = None ∧ message = "--port must be 1..=65535"
        end
      else message = "unknown argument " +:+ arg
  end.

Lemma port_ok value port :
  at_least_1 (parse_u16 value) = Some port ↔ flag_ok (PortFlag value port).
Proof.
  cbn. split.
  - intros [H Hp]%at_least_1_spec. split; [done|]. apply from_str_radix_bounds in H.
    unfold u16_max in H. lia.
  - intros [-> Hp]. cbn. by rewrite (proj2 (Z.leb_le 1 port)) by lia.
Qed.

Lemma parse_args_flags flags rest path port :
  Forall flag_ok flags →
  parse_args (mjoin (flag_args <$> flags) ++ rest) path port =
  parse_args rest (last_path flags path) (last_port flags port).
Proof.
  intros H. revert path port. induction H as [|f flags Hf _ IH]; intros path port; [done|].
  cbn. destruct f as [p|value n]; cbn; [apply IH|]. apply port_ok in Hf. rewrite Hf. apply IH.
Qed.

(** What a run of the parser says of the arguments it read. *)
Definition parsed (args : list string) (path : option string) (port : option Z)
    (r : result (option string * option Z) string) : Prop :=
  match r with
  | Ok (path', port') => ∃ flags, args = mjoin (flag_args <$> flags) ∧ Forall flag_ok flags ∧
      path' = last_path flags path ∧ port' = last_port flags port
  | Err message => ∃ flags rest, args = mjoin (flag_args <$> flags) ++ rest ∧ Forall flag_ok flags ∧
      bad_argument rest message
  end.

Lemma parsed_cons f args path port r :
  flag_ok f → parsed args (last_path [f] path) (last_port [f] port) r →
  parsed (flag_args f ++ args) path port r.
Proof.
  intros Hf. destruct r as [[path' port']|message]; cbn [parsed].
  - intros (flags & -> & Hok & -> & ->). exists (f :: flags). by split_and!; [|constructor|..].
  - intros (flags & rest & -> & Hok & Hbad). exists (f :: flags), rest.
    split_and!; [|by constructor|done]. by rewrite fmap_cons, app_assoc.
Qed.

Lemma parsed_bad args path port message : bad_argument args message → parsed args path port (Err message).
Proof. by exists [], args. Qed.

Lemma parse_args_spec args path port : parsed args path port (parse_args args path port).
Proof.
  revert path port. induction args as [[|arg rest] IH] using (induction_ltof1 _ (@length string));
    intros path port; [by exists []|]; unfold ltof in IH; cbn [parse_args].
  destruct (String.eqb arg "--config") eqn:Ec.
  - apply String.eqb_eq in Ec as ->. destruct rest as [|p rest]; [by apply parsed_bad|].
    apply (parsed_cons (ConfigFlag p)); [done|]. apply IH. cbn. lia.
  - destruct (String.eqb arg "--port") eqn:Ep; [|apply parsed_bad; cbn; by rewrite Ec, Ep].
    apply String.eqb_eq in Ep as ->. destruct rest as [|value rest]; [by apply parsed_bad|].
    destruct (at_least_1 (parse_u16 value)) as [n|] eqn:Hn; [|by apply parsed_bad].
    apply (parsed_cons (PortFlag value n)); [by apply port_ok|]. apply IH. cbn. lia.
Qed.

(** ** Serving *)

(** The configuration and the token never change. *)
Definition same_settings (s s' : Server) : Prop :=
  sv_config s' = sv_config s ∧ sv_token s' = sv_token s.

#[local] Instance same_settings_preorder : PreOrder same_settings.
Proof. split; [done|]. intros s1 s2 s3 [A B] [C D]. split; congruence. Qed.

Lemma settings_world {E A} (m : ST World E A) : follows same_settings (on_world m).
Proof. intros s. unfold on_world. by destruct (m (sv_world s)). Qed.
Lemma settings_write path text : follows same_settings (fs_write path text).
Proof. intros s. unfold fs_write. by destruct (io_fault (sv_calls s)). Qed.
Lemma settings_dir path : follows same_settings (fs_create_dir path).
Proof. intros s. unfold fs_create_dir. by destruct (io_fault (sv_calls s)). Qed.
Lemma settings_read path : follows same_settings (fs_read path).
Proof. done. Qed.
Lemma settings_persist : follows same_settings persist_registry.
Proof. intros s. unfold persist_registry, fs_write. by destruct (io_fault (sv_calls s)). Qed.
Lemma settings_touch wf : follows same_settings (touch wf).
Proof. done. Qed.
Lemma settings_registry f : follows same_settings (modify (E:=Response) (λ s, set_registry (f s) s)).
Proof. done. Qed.
Lemma settings_run wf id body : follows same_settings (run_command wf id body).
Proof. intros s. unfold run_command. by destruct (run_generic body _) as [r []]. Qed.
Lemma settings_check_computer id : follows same_settings (check_computer id).
Proof. intros s. unfold check_computer. by destruct (String.eqb id _). Qed.

#[local] Hint Resolve settings_world settings_write settings_dir settings_read settings_persist
  settings_touch settings_registry settings_run settings_check_computer : server.

Lemma reply_settings request s : same_settings s (reply request s).2.
Proof.
  unfold reply. destruct (negb (bearer_ok request (sv_token s))); [done|].
  assert (follows same_settings (dispatch_route request (route (hr_method request) (hr_url request)))) as H.
  { destruct (route _ _); cbn [dispatch_route];
      unfold handle_devices, handle_computer, handle_sysinfo, handle_workflow_snapshot, handle_approval,
        handle_input, input_fields, provider_gate, interactive_input_501, generic_input, record_run,
        write_tail, read_object, refuse_when, storage_500, lifecycle_500; follow_steps.
    all: try done. }
  specialize (H s). by destruct (dispatch_route _ _ s) as [[?|?] ?].
Qed.

(** The answers of a serving loop: one per request, in order, 401 without the
    token, each with its log line. *)
Definition answered (token : string) (requests : list Request) (answers : list (Response * string)) : Prop :=
  Forall2 (λ request answer,
    answer.2 = access_line request answer.1 ∧
    if bearer_ok request token then rp_status answer.1 ∈ api_statuses else answer.1 = unauthorized)
    requests answers.

Lemma reply_answers request s :
  let response := (reply request s).1 in
  if bearer_ok request (sv_token s) then rp_status response ∈ api_statuses else response = unauthorized.
Proof.
  destruct (bearer_ok request (sv_token s)) eqn:Hb; unfold reply; rewrite Hb; cbn [negb]; [|done].
  pose proof (api_dispatch request (route (hr_method request) (hr_url request)) s) as Hs.
  by destruct (dispatch_route _ _ s) as [[response|response] s'].
Qed.

(** What the callers of a serving loop saw. *)
Definition seen (token : string) (requests : list Request) (answers : list (Response * string)) : list server_event :=
  zip_with (λ request answer, Served request (bearer_ok request token) answer.1) requests answers.

Lemma serve_spec requests s :
  let '(answers, s') := serve requests s in
  s' = runs server_step (Serve <$> requests) s ∧ answered (sv_token s) requests answers ∧
  seen (sv_token s) requests answers = events_seen (Serve <$> requests) s.
Proof.
  revert s. induction requests as [|request rest IH]; intros s; [by split_and!; constructor|].
  rewrite fmap_cons. cbn [serve runs server_step events_seen event_of].
  pose proof (reply_answers request s) as Ha. pose proof (reply_settings request s) as [_ Ht].
  destruct (reply request s) as [response s1]. cbn in Ha, Ht. specialize (IH s1).
  destruct (serve rest s1) as [answers s']. destruct IH as (-> & IH & E). rewrite Ht in IH, E.
  split_and!; [done|by constructor|]. cbn. by rewrite <-E.
Qed.

Lemma fs_read_run path s :
  ∃ read, fs_read path s = (read, set_files (sv_files s) s) ∧
    ∀ text, read = Ok text → sv_files s !! path = Some text.
Proof.
  eexists. split; [reflexivity|]. intros text.
  destruct (io_fault (sv_calls s)); [done|]. destruct (sv_files s !! path) as [t|]; [|done].
  by destruct (utf8_valid t); intros [= ->].
Qed.

Lemma override_range flags config :
  Forall flag_ok flags → (1 ≤ cf_port config ≤ 65535)%Z →
  (1 ≤ cf_port (override_port (last_port flags None) config) ≤ 65535)%Z.
Proof.
  intros Hflags Hrange.
  assert (∀ n, (∀ p, n = Some p → (1 ≤ p ≤ 65535)%Z) → ∀ p, last_port flags n = Some p → (1 ≤ p ≤ 65535)%Z) as H.
  { induction Hflags as [|f fs Hf _ IH]; intros n Hn; [done|]. apply IH.
    destruct f as [path|value port]; [done|]. intros p [= <-]. apply Hf. }
  pose proof (H None ltac:(done)) as HN. destruct (last_port flags None) as [p|]; [|done]. cbn. by apply HN.
Qed.

Lemma load_ok path read config :
  load path read = Ok config →
  ∃ text, read = Ok text ∧ load path (Ok text) = Ok config ∧ (1 ≤ cf_port config ≤ 65535)%Z.
Proof.
  intros H. pose proof (load_spec path read) as Hs. rewrite H in Hs. destruct Hs as (text & -> & Hr).
  exists text. split_and!; [done|done|apply Hr..].
Qed.

(** What starting leaves alone, and the token it reads. *)
Lemma server_new_run s :
  let '(r, s') := server_new s in
  (sv_world s', sv_files s', sv_runs s') = (sv_world s, sv_files s, sv_runs s) ∧
  sv_config s' = sv_config s ∧
  match r with
  | Ok _ => ∃ raw, sv_files s !! cf_token_file (sv_config s) = Some raw ∧
      sv_token s' = trim raw ∧ sv_token s' ≠ ""
  | Err _ => True
  end.
Proof.
  unfold server_new, st_bind, st_try, st_lift, modify.
  destruct (fs_read_run (cf_token_file (sv_config s)) s) as (read & -> & Hread).
  unfold read_token. destruct read as [raw|m]; cbn [map_err result_bind]; [|done].
  destruct (String.eqb_spec (trim raw) "") as [He|Hne]; [done|].
  destruct (fs_read_run (registry_path (sv_config s)) (set_files (sv_files s) s)) as (read & -> & _).
  split_and!; [done|done|]. exists raw. split_and!; [by apply Hread|done|done].
Qed.

(** The server as it is when it starts to listen. *)
Definition booted (args : list string) (bind : string → result unit string) (s s1 : Server) : Prop :=
  ∃ flags path text token raw,
    args = mjoin (flag_args <$> flags) ∧ Forall flag_ok flags ∧ last_path flags None = Some path ∧
    sv_files s !! path = Some text ∧
    (∃ config, load path (Ok text) = Ok config ∧ sv_config s1 = override_port (last_port flags None) config) ∧
    (1 ≤ cf_port (sv_config s1) ≤ 65535)%Z ∧
    sv_files s !! cf_token_file (sv_config s1) = Some raw ∧ token = trim raw ∧ token ≠ "" ∧
    sv_token s1 = token ∧ bind (listen_addr (sv_config s1)) = Ok tt ∧
    (sv_world s1, sv_files s1, sv_runs s1) = (sv_world s, sv_files s, sv_runs s).

(** C39: the server binary.  Either it serves: the arguments are well-formed
    options (of each the last counts), the file they name loads, its token file
    holds a token, and the loopback port, the option's or else the file's, in
    1..=65535, was bound; then every request that comes in gets one answer in
    order, 401 when it lacks that token, and the exit code is 0; and what the
    callers saw is a run of the abstract machine, from the store as it was
    found to the store as it is left.  Or it exits 1
    with one line of error and nothing was served: no command ran, no row, no
    file changed; and wrong arguments always are such a refusal. *)
Theorem connect_main_spec (bind : string → result unit string) (args : list string)
    (requests : list Request) (s : Server) :
  let '(r, s') := connect_run bind args requests s in
  match r with
  | Ok answers => connect_main bind args requests s = (0%Z, []) ∧
      ∃ s1, booted args bind s s1 ∧ answered (sv_token s1) requests answers ∧
        s' = runs server_step (Serve <$> requests) s1 ∧
        (store_ok (db (sv_world s)) →
         explains (server_shows s) (seen (sv_token s1) requests answers) (server_shows s'))
  | Err message => connect_main bind args requests s = (1%Z, ["calcar-connect: " +:+ message]) ∧
      (sv_world s', sv_files s', sv_runs s') = (sv_world s, sv_files s, sv_runs s)
  end ∧
  ((∃ e, parse_args args None None = Err e) ∨
   (∃ port, parse_args args None None = Ok (None, port)) → is_ok r = false).
Proof.
  unfold connect_main. pose proof (parse_args_spec args None None) as Hp.
  unfold connect_run, st_bind, st_map_err, st_try, st_lift, modify.
  destruct (parse_args args None None) as [[[path|] port]|message];
    [|split; [done|done]|split; [done|done]].
  destruct Hp as (flags & Hargs & Hflags & Hpath & Hport). cbn [ok_or].
  destruct (fs_read_run path s) as (read & -> & Hread).
  pose proof (load_ok path read) as Hload.
  destruct (load path read) as [config|e]; cbn [map_err]; [|split; [done|naive_solver]].
  destruct (Hload config eq_refl) as (text & -> & Hl & Hrange). clear Hload.
  set (s0 := set_config _ _). pose proof (server_new_run s0) as Hnew.
  destruct (server_new s0) as [[[]|e] s1]; cbn [map_err]; [|split; [split; [done|apply Hnew]|naive_solver]].
  destruct Hnew as (Hsame & Hconfig & raw & Hraw & Htoken & Hne).
  unfold server_run, st_bind, st_lift. rewrite Hconfig.
  destruct (bind (listen_addr (sv_config s0))) as [[]|detail] eqn:Hbind; cbn [map_err];
    [|split; [by split|naive_solver]].
  pose proof (serve_spec requests s1) as Hserve.
  destruct (serve requests s1) as [answers s'] eqn:Es. destruct Hserve as (-> & Hanswers & Hseen).
  split; [|naive_solver]. split; [done|].
  exists s1. split_and!; [|done|done|]; cycle 1.
  { intros Hok. injection Hsame as Hw _ Hruns. cbn in Hw, Hruns. rewrite Hseen. unfold server_shows at 1.
    rewrite <-Hw, <-Hruns. apply history_explained. unfold server_sound. by rewrite Hw. }
  exists flags, path, text, (trim raw), raw. rewrite Hconfig.
  assert (sv_config s0 = override_port (last_port flags None) config) as Hover by (by rewrite <-Hport).
  pose proof (override_range flags config Hflags Hrange) as Hport'. rewrite <-Hover in Hport'.
  split_and!; [done|done|done|by apply Hread|by exists config|apply Hport'..|done|done| |done|done|done].
  by rewrite <-Htoken.
Qed.
End Main.

(** ** Witness material *)

#[local] Existing Instances sample_env sample_host sample_paths sample_headers.

(** The binary over the files of a fresh computer: a request with the token and
    one without. *)
Definition connect_sample : Server :=
  mk_server (sv_config sample_server) "" (sv_registry sample_server) (sv_world sample_server)
    {["connect.conf" := "port=8080
token_file=token
db_path=agent.db
computer_id=pc-1
"; "token" := "secret
"]} 0 0 [].

Definition get_computer (token : string) : Request :=
  mk_request Get "/v1/agent/computers/pc-1?x=1" [("Authorization", "Bearer " +:+ token)] [].

Example connect_serves :
  (let run args := (connect_run (λ addr, if String.eqb addr "127.0.0.1:9000" then Ok tt else Err "in use")
     args [get_computer "secret"; get_computer "guess"] connect_sample).1 in
   (match run ["--config"; "connect.conf"; "--port"; "9000"] with Ok answers => Ok (map snd answers) | Err e => Err e end,
    run ["--config"; "connect.conf"], run ["--config"], run ["--port"; "0"])) =
  (Ok ["GET /v1/agent/computers/pc-1 -> 200"; "GET /v1/agent/computers/pc-1 -> 401"],
   Err "serve: http bind failed on 127.0.0.1:8080: in use", Err "--config needs a path",
   Err "--port must be 1..=65535").
Proof. vm_compute. reflexivity. Qed.

Definition sample_bind (addr : string) : result unit string :=
  if String.eqb addr "127.0.0.1:9000" then Ok tt else Err "in use".

Definition sample_requests : list Request := [get_computer "secret"; sample_input; get_computer "guess"].

Lemma connect_main_spec_witness :
  match connect_run sample_bind ["--config"; "connect.conf"; "--port"; "9000"] sample_requests connect_sample with
  | (Ok answers, s') => (rp_status <$> answers.*1) = [200; 200; 401]%Z ∧
      ∃ token, explains (server_shows connect_sample) (seen token sample_requests answers) (server_shows s')
  | _ => False
  end.
Proof.
  pose proof (connect_main_spec sample_bind ["--config"; "connect.conf"; "--port"; "9000"] sample_requests connect_sample) as H.
  assert (∃ answers, (connect_run sample_bind ["--config"; "connect.conf"; "--port"; "9000"] sample_requests connect_sample).1 =
    Ok answers ∧ (rp_status <$> answers.*1) = [200; 200; 401]%Z) as (answers & E & Hst)
    by (eexists; split; vm_compute; reflexivity).
  destruct (connect_run _ _ _ _) as [r s']. cbn [fst] in E. subst r.
  destruct H as [(_ & s1 & _ & _ & _ & H) _]. split; [exact Hst|].
  exists (sv_token s1). apply H, catalog_world_ok.
Defined.
