(* ===== verification/E2e.v ===== *)
(** * E2e: the repository's end-to-end script (crate calcar-agent, examples)

    [examples/e2e_exec.rs] drives the crates against real processes and a real
    database file and prints PASS or FAIL per check; an [expect] that meets an
    error ends it.  Here the same script drives the model: the plain executor,
    the lifecycle in memory, then recovery, sessions, the router, the adapters
    and the permission manager over one file.  What the children do, and when,
    and what [tasklist] answers, are arguments. *)

From Stdlib Require Import Ascii.
From S2P Require Import Prelude Text Events Schema Storage Ring Requests Lifecycle Router Quote Plain Contract Permission Marker MarkerFacts Generic Providers EnvBlock Win32 PtySpawn PlainSpawn.

(** ** The script's own machinery *)

(** The database in memory, the one in the file with the calls made so far, the
    router's counters, the approvals in memory and the results of the checks. *)
Record Runner := mk_runner {
  e2_memory : Db;
  e2_file : World;
  e2_delivered : gmap string Z;
  e2_duplicates : gmap string Z;
  e2_pending : gmap string PendingEntry;
  e2_checks : list (string * bool);
}.

(** The error is the message of the [expect] that panicked. *)
Definition RunnerM (A : Type) : Type := ST Runner string A.

(** [check] *)
Definition check (name : string) (cond : bool) : RunnerM unit := λ s,
  (Ok tt, mk_runner (e2_memory s) (e2_file s) (e2_delivered s) (e2_duplicates s) (e2_pending s)
            (e2_checks s ++ [(name, cond)])).

Definition in_memory {E A} (m : ST World E A) : ST Runner E A := λ s,
  let '(r, w) := m (mk_world (e2_memory s) (ticks (e2_file s)) (stmts (e2_file s))) in
  (r, mk_runner (db w) (mk_world (db (e2_file s)) (ticks w) (stmts w)) (e2_delivered s) (e2_duplicates s) (e2_pending s) (e2_checks s)).
Definition in_file {E A} (m : ST World E A) : ST Runner E A := λ s,
  let '(r, w) := m (e2_file s) in
  (r, mk_runner (e2_memory s) w (e2_delivered s) (e2_duplicates s) (e2_pending s) (e2_checks s)).
Definition in_router {E A} (m : ST (InputRouter World) E A) : ST Runner E A := λ s,
  let '(r, rt) := m (mk_router (e2_file s) (e2_delivered s) (e2_duplicates s)) in
  (r, mk_runner (e2_memory s) (rt_store rt) (rt_delivered rt) (rt_duplicates rt) (e2_pending s) (e2_checks s)).
Definition in_perms {E A} (m : ST (PermissionManager World) E A) : ST Runner E A := λ s,
  let '(r, pm) := m (mk_permission (e2_file s) (e2_pending s) false) in
  (r, mk_runner (e2_memory s) (pm_store pm) (e2_delivered s) (e2_duplicates s) (pm_pending pm) (e2_checks s)).

(** [.expect(message)] *)
Definition expect {E A} (message : string) (m : ST Runner E A) : RunnerM A := st_map_err (λ _, message) m.
Definition expect_some {A} (message : string) (o : option A) : RunnerM A := st_lift (ok_or o message).

(** [.is_err()] *)
Definition is_err {E A} (m : ST Runner E A) : RunnerM bool :=
  let* r := st_try m in st_ret (negb (is_ok r)).

(** [contains] *)
Definition contains (part s : string) : bool := bool_decide (is_Some (String.index 0 part s)).

(** [format!("{:?}", events).contains(part)]: the strings of an event, where
    [part] has no character that [Debug] escapes and no digit or brace. *)
Definition debug_contains (part : string) (e : WorkflowEvent) : bool :=
  existsb (contains part)
    ([event_id e; ev_workflow_id e; summary e] ++ option_list (ev_provider_session_id e) ++
     option_list (detail_pointer e)).

Definition is_state (row : WorkflowRow) (s : WorkflowState) : bool :=
  bool_decide (state_from_i32 (state row) = Some s).

(** ** Plain executor *)

(** What the system does for the children of this section: how a spawn ends,
    what happens beside each further call on a child and how its wait fails,
    how a kill ends, and the answers of [tasklist], [None] when it does not
    run. *)
Record Executor := mk_executor {
  ex_spawn : PlainConfig → result PlainChild PtyError;
  ex_turns : PlainConfig → list (list ChildEvent * option PtyError);
  ex_kill : PlainConfig → result unit PtyError;
  ex_grandchild : option bool;
  ex_polls : list (option bool);
  ex_grandchild_after : option bool;
  ex_sleeper : option bool;
}.

(** [tasklist_has] *)
Definition tasklist_has (answer : option bool) : RunnerM bool := expect_some "tasklist" answer.

(** The loop that waits for the grandchild to go, until its deadline. *)
Fixpoint await_gone (answers : list (option bool)) : RunnerM unit :=
  match answers with
  | [] => st_ret tt
  | answer :: answers' =>
      let* there := tasklist_has answer in
      if there then await_gone answers' else st_ret tt
  end.

(** What happens beside the [n]-th call on the child. *)
Definition turn (x : Executor) (n : nat) (config : PlainConfig) : list ChildEvent * option PtyError :=
  default ([], None) (ex_turns x config !! n).

(** [PlainChild::spawn(config)], then [join] *)
Definition spawn_and_join (x : Executor) (name : string) (config : PlainConfig) : RunnerM PlainOutput :=
  let* child := expect ("spawn " +:+ name) (st_lift (ex_spawn x config)) in
  let '(coming, wait_error) := turn x 0 config in
  expect ("join " +:+ name) (st_lift (child_join coming wait_error child)).

Definition cmd (script : string) : list string := ["cmd.exe"; "/Q"; "/C"; script].
Definition crlf : string := String CR (String LF "").

Definition e2e_joins (x : Executor) : RunnerM unit :=
  let* out := spawn_and_join x "echo" (plain_config (cmd "echo HELLO")) in
  let* _ := check "plain-echo" (bool_decide (po_exit_code out = Some 0%Z) &&
    contains "HELLO" (from_utf8_lossy (po_stdout out)) && (slen (po_stderr out) =? 0)%Z) in
  let* out := spawn_and_join x "split" (plain_config (cmd "(echo OUT) & (echo ERR 1>&2)")) in
  let* _ := check "plain-split" (contains "OUT" (from_utf8_lossy (po_stdout out)) &&
    contains "ERR" (from_utf8_lossy (po_stderr out))) in
  let* out := spawn_and_join x "exit42" (plain_config (cmd "exit 42")) in
  let* _ := check "plain-exit-code" (bool_decide (po_exit_code out = Some 42%Z)) in
  let input := "LINE1" +:+ crlf +:+ "LINE2" +:+ crlf in
  let* out := spawn_and_join x "more" (with_input input (plain_config (cmd "more"))) in
  let text := from_utf8_lossy (po_stdout out) in
  let* _ := check "plain-stdin" (contains "LINE1" text && contains "LINE2" text) in
  let many := plain_config (cmd "for /L %i in (1,1,2000) do @echo line-%i") in
  let* out := spawn_and_join x "cap"
    (mk_plain_config (pc_argv many) (pc_working_dir many) (pc_env many) (pc_input many) 4096) in
  check "plain-cap" (po_truncated out && (slen (po_stdout out) <=? 4096)%Z && (slen (po_stderr out) <=? 4096)%Z).

Definition powershell (script : string) : list string :=
  ["powershell.exe"; "-NoProfile"; "-NonInteractive"; "-Command"; script].
Definition tree_script : string :=
  "$c = Start-Process -FilePath ping -ArgumentList '-n','60','127.0.0.1' -WindowStyle Hidden -PassThru; Write-Output (" +:+
  dquote +:+ "GRANDCHILD=" +:+ dquote +:+ " + $c.Id); Start-Sleep -Seconds 60".
Definition ping (n : string) : PlainConfig := plain_config ["ping.exe"; "-n"; n; "127.0.0.1"].

(** [str::parse::<u32>] *)
Definition parse_u32 : string → option Z := from_str_radix false 0 (2 ^ 32 - 1) 10.

(** The pid the tree's snapshot prints. *)
Definition grandchild_pid (out : PlainOutput) : option Z :=
  let found := omap (λ l, strip_prefix "GRANDCHILD=" (trim l)) (lines (from_utf8_lossy (po_stdout out))) in
  v ← head found; parse_u32 (trim v).

Definition e2e_kills {win32 : Win32} {process_env : ProcessEnv} (x : Executor) : RunnerM unit :=
  let tree := plain_config (powershell tree_script) in
  let* child := expect "spawn tree" (st_lift (ex_spawn x tree)) in
  let child := child_events (turn x 0 tree).1 child in
  let* _ := expect_some "grandchild pid in snapshot" (grandchild_pid (child_snapshot child)) in
  let* alive := tasklist_has (ex_grandchild x) in
  let* _ := check "plain-tree-grandchild-alive" alive in
  let* _ := expect "kill tree" (st_lift (ex_kill x tree)) in
  let '(happens, wait_error) := turn x 1 tree in
  let* exited := expect "wait tree" (st_lift (child_poll wait_error (child_events happens child)).1) in
  let* _ := check "plain-tree-child-reaped" (bool_decide (is_Some exited)) in
  let* _ := await_gone (ex_polls x) in
  let* alive := tasklist_has (ex_grandchild_after x) in
  let* _ := check "plain-tree-grandchild-dead" (negb alive) in
  let* child := expect "spawn sleep" (st_lift (ex_spawn x (ping "30"))) in
  let '(happens, wait_error) := turn x 0 (ping "30") in
  let '(early, child) := child_poll wait_error (child_events happens child) in
  let* early := expect "wait deadline" (st_lift early) in
  let* _ := check "plain-deadline" (bool_decide (early = None)) in
  let* _ := expect "kill sleep" (st_lift (ex_kill x (ping "30"))) in
  let '(coming, wait_error) := turn x 1 (ping "30") in
  let* out := expect "join sleep" (st_lift (child_join coming wait_error child)) in
  let* _ := check "plain-kill-join" (bool_decide (is_Some (po_exit_code out))) in
  let* (bad, _) := expect_some "std::env::vars" (plain_spawn (plain_config []) (sys_at 0 0)) in
  let* _ := check "plain-empty-argv" (negb (is_ok bad)) in
  let* _ := expect "spawn drop" (st_lift (ex_spawn x (ping "60"))) in
  let* alive := tasklist_has (ex_sleeper x) in
  check "plain-drop-kills-tree" (negb alive).

Section Script.
Context {env : Env}.

(** ** Workflow lifecycle, in memory *)

Definition e2e_flow : RunnerM unit :=
  let* _ := expect "in-memory manager" (in_memory manager_in_memory) in
  let* row := expect "create" (in_memory (manager_create_workflow "wf1" Generic "title" (Some "sess-1"))) in
  let* _ := check "flow-create-running" (is_state row Running) in
  let* b := is_err (in_memory (manager_create_workflow "wf1" Generic "t" None)) in
  let* _ := check "flow-duplicate" b in
  let* b := is_err (in_memory (manager_create_workflow "" Generic "t" None)) in
  let* _ := check "flow-empty-id" b in
  let* b := is_err (in_memory (manager_create_workflow "wfx" ProviderUnspecified "t" None)) in
  let* _ := check "flow-unspecified-provider" b in
  let* _ := expect "to approval" (in_memory (transition "wf1" WaitingApproval "need owner tap")) in
  let* events := expect "events" (in_memory (events_since "wf1" 0 100)) in
  let* _ := check "flow-reason-events"
    ((2 <=? length events) && existsb (debug_contains "need owner tap") events) in
  let* b := is_err (in_memory (transition "wf1" DisconnectedRunning "x")) in
  let* _ := check "flow-refuse-projection-target" b in
  let* b := is_err (in_memory (transition "wf1" StateUnspecified "x")) in
  let* _ := check "flow-refuse-unspecified" b in
  let* b := is_err (in_memory (transition_on_disconnect "wf1" Completed "x")) in
  let* _ := check "flow-refuse-completed-on-disconnect" b in
  let* view := expect "project" (in_memory (project_on_disconnect "wf1")) in
  let* found := expect "get" (in_memory (manager_get_workflow "wf1")) in
  let* row := expect_some "row" found in
  let* _ := check "flow-projection"
    (bool_decide (projected view = DisconnectedRunning) && is_state row WaitingApproval) in
  let* _ := expect "complete" (in_memory (transition "wf1" Completed "done")) in
  let* b := is_err (in_memory (transition "wf1" Running "x")) in
  check "flow-terminal-frozen" b.

(** ** Restart recovery, over a file *)

Definition e2e_before_restart : RunnerM unit :=
  let* _ := expect "tempdir" (in_file create_dir_all) in
  let* _ := expect "open file" (in_file manager_open) in
  let* _ := expect "create r" (in_file (manager_create_workflow "wf-r" Generic "restart me" (Some "ps-1"))) in
  let* _ := expect "to input" (in_file (transition "wf-r" WaitingInput "waiting")) in
  let* _ := expect "create nobind" (in_file (manager_create_workflow "wf-nobind" Generic "no bind" None)) in
  let* _ := expect "create done" (in_file (manager_create_workflow "wf-done" Generic "done" None)) in
  let* _ := expect "complete done" (in_file (transition "wf-done" Completed "done")) in
  st_ret tt.

(** [.map(|e| e.seq_no).max()] *)
Definition newest_seq (events : list WorkflowEvent) : option Z := maxZ (seq_no <$> events).

Definition e2e_recover : RunnerM unit :=
  let* _ := expect "reopen" (in_file manager_open) in
  let* decision := expect "reconcile r" (in_file (reconcile "wf-r")) in
  let* _ := match decision with
            | Reattach session _ _ last_seq =>
                let* events := expect "events r" (in_file (events_since "wf-r" 0 1000)) in
                check "recover-reattach"
                  (String.eqb session "ps-1" && bool_decide (last_seq = newest_seq events))
            | _ => check "recover-reattach" false
            end in
  let* decision := expect "reconcile nobind" (in_file (reconcile "wf-nobind")) in
  let* _ := match decision with
            | CleanFailed _ =>
                let* found := expect "get" (in_file (manager_get_workflow "wf-nobind")) in
                let* row := expect_some "row" found in
                check "recover-cleanfailed" (is_state row Failed)
            | _ => check "recover-cleanfailed" false
            end in
  let* decision := expect "reconcile done" (in_file (reconcile "wf-done")) in
  let* _ := check "recover-terminal" match decision with AlreadyTerminal _ => true | _ => false end in
  let* b := is_err (in_file (reconcile "nope")) in
  check "recover-unknown" b.

(** ** Sessions *)

Definition e2e_sessions : RunnerM unit :=
  let* _ := expect "open store" (in_file open_conn) in
  let* _ := expect "bind" (in_file (bind "wf-r" "ps-1" (Some "resume-9"))) in
  let* found := expect "lookup" (in_file (lookup_binding "wf-r")) in
  let* got := expect_some "binding" found in
  let* _ := check "session-roundtrip" (String.eqb (sb_provider_session_id got) "ps-1" &&
    bool_decide (sb_resume_pointer got = Some "resume-9")) in
  let* found := expect "lookup unknown" (in_file (lookup_binding "nope")) in
  let* _ := check "session-unknown-none" match found with None => true | Some _ => false end in
  let* _ := expect "reopen store" (in_file open_conn) in
  let* found := expect "lookup2" (in_file (lookup_binding "wf-r")) in
  check "session-restart" (bool_decide ((sb_provider_session_id <$> found) = Some "ps-1")).

(** ** Router *)

Definition delivers_as (wf id message : string) (outcome : RouteOutcome) : RunnerM bool :=
  let* r := expect message (in_router (deliver wf id)) in
  st_ret (bool_decide (r = outcome)).

Definition e2e_router : RunnerM unit :=
  let* b := delivers_as "wf-r" "in-1" "deliver" Delivered in
  let* _ := check "router-first" b in
  let* b := delivers_as "wf-r" "in-1" "redeliver" Duplicate in
  let* _ := check "router-duplicate" b in
  let* b := in_router (λ rt, (Ok ((delivered_for rt "wf-r" =? 1) && (duplicates_for rt "wf-r" =? 1))%Z, rt)) in
  let* _ := check "router-counts" b in
  let* b := delivers_as "wf-nobind" "in-1" "cross" Delivered in
  let* _ := check "router-cross-workflow" b in
  let* b := is_err (in_router (deliver "nope" "in-9")) in
  let* _ := check "router-unknown" b in
  let* counts := in_router (λ rt, let '(counts, rt) := forget_workflow "wf-r" rt in (Ok counts, rt)) in
  let* _ := check "router-forget" (bool_decide (counts = (1, 1)%Z)) in
  let* b := delivers_as "wf-r" "in-1" "after forget" Duplicate in
  check "router-still-duplicate" b.

(** ** Permissions *)

Definition resolves_as (id device : string) (d : ApprovalDecision) (message : string)
    (outcome : ApprovalOutcome) : RunnerM bool :=
  let* r := expect message (in_perms (resolve id device d)) in
  st_ret (bool_decide (r = outcome)).

Definition e2e_permissions : RunnerM unit :=
  let* _ := expect "approval request" (in_perms (request "wf-r" "ap-1" "dev-a" "run tests" 60000)) in
  let* b := resolves_as "ap-1" "dev-a" Allow "resolve" Applied in
  let* _ := check "perm-apply" b in
  let* b := resolves_as "ap-1" "dev-a" Allow "reresolve" DuplicateApproval in
  let* _ := check "perm-double-accept" b in
  let* _ := expect "expiring request" (in_perms (request "wf-r" "ap-exp" "dev-a" "old" 0)) in
  let* _ := expect "sweep" (in_perms sweep_expired) in
  let* b := resolves_as "ap-exp" "dev-a" Allow "resolve expired" ExpiredApproval in
  let* _ := check "perm-expired" b in
  let* _ := expect "guarded request" (in_perms (request "wf-r" "ap-dev" "dev-a" "guarded" 60000)) in
  let* b := resolves_as "ap-dev" "dev-b" Allow "wrong device" Unknown in
  let* _ := check "perm-wrong-device" b in
  let* b := resolves_as "ap-dev" "dev-a" Reject "bound resolve" Applied in
  check "perm-bound-device" b.
End Script.

(** ** Adapters *)

(** What the children of the adapters do: the spawn, what happens beside each
    [drain] before the deadline of the loop, and beside the last snapshot. *)
Record Course := mk_course {
  co_spawn : PlainConfig → result PlainChild PtyError;
  co_turns : list Interference;
  co_last : Interference;
}.

Definition is_type (et : EventType) (e : ProviderEvent) : bool := bool_decide (pe_event_type e = et).

Definition adapter_spawn (c : Course) (req : SpawnRequest) (a : Adapter) : result unit AdapterError * Adapter :=
  dispatch_mut (λ _ _, pa_spawn (co_spawn c) (mk_interference [] None []) req) a.
Definition adapter_drain (i : Interference) (a : Adapter) : list ProviderEvent * Adapter :=
  dispatch_mut (λ _ _, pa_drain i) a.
Definition adapter_snapshot (c : Course) (a : Adapter) : AdapterSnapshot * Adapter :=
  dispatch_mut (λ _ _, pa_snapshot (co_last c)) a.
Definition adapter_approval (id : string) (d : ApprovalDecision) (a : Adapter) :
    result ApprovalOutcome AdapterError :=
  (dispatch_mut (λ _ _, pa_respond_approval id d) a).1.

(** The loops over [drain]: until an event of this type, or the deadline. *)
Fixpoint drain_until (stop : EventType) (turns : list Interference) (seen : list ProviderEvent)
    (a : Adapter) : list ProviderEvent * Adapter :=
  match turns with
  | [] => (seen, a)
  | i :: turns' =>
      let '(events, a') := adapter_drain i a in
      let seen' := seen ++ events in
      if existsb (is_type stop) seen' then (seen', a') else drain_until stop turns' seen' a'
  end.

Definition refuses {A} (r : result A AdapterError) (e : AdapterError) : bool :=
  match r with Err e' => bool_decide (e' = e) | Ok _ => false end.

Definition e2e_generic (c : Course) : RunnerM unit :=
  let* a := expect "generic adapter" (st_lift (for_provider Generic)) in
  let* _ := check "adapter-registry-generic" (String.eqb (dispatch (λ _ _, pa_name) a) "generic") in
  let caps := dispatch (λ _ _, pa_capabilities) a in
  let* _ := check "adapter-generic-caps"
    (streaming caps && cap_stop caps && negb (approvals caps) && negb (interactive_input caps)) in
  let req := spawn_request (cmd "echo ADAPTER_MARKER") in
  let '(refused, a) := adapter_spawn c (mk_spawn_request (sr_argv req) (sr_working_dir req) (sr_env req) true
                                          (sr_output_cap_bytes req)) a in
  let* _ := check "adapter-generic-interactive-unsupported" (refuses refused Unsupported) in
  let '(started, a) := adapter_spawn c req a in
  let* _ := expect "generic spawn" (st_lift started) in
  let '(seen, a) := drain_until CommandCompleted (co_turns c) [] a in
  let* _ := check "adapter-generic-echo"
    (match seen with e :: _ => is_type CommandStarted e | [] => false end &&
     existsb (is_type CommandCompleted) seen && existsb (λ e, contains "ADAPTER_MARKER" (pe_summary e)) seen) in
  let* fresh := expect "g2" (st_lift (for_provider Generic)) in
  let* _ := check "adapter-generic-inject-no-child"
    (refuses (dispatch_mut (λ _ _, pa_inject "x") fresh).1 NotRunning) in
  let* _ := check "adapter-generic-approval-unsupported" (refuses (adapter_approval "r" Allow a) Unsupported) in
  let '(snap, _) := adapter_snapshot c a in
  check "adapter-generic-snapshot" (negb (as_running snap) && bool_decide (as_exit_code snap = Some 0%Z) &&
    bool_decide (as_provider_session_id snap = None)).

(** One provider over its canned fixture run. *)
Definition fixture_script (prefix session : string) : string :=
  "echo " +:+ prefix +:+ "_SESSION " +:+ session +:+ " & echo " +:+ prefix +:+ "_START go & echo " +:+ prefix +:+
  "_APPROVAL req-fx do it & echo " +:+ prefix +:+ "_DONE fin & echo " +:+ prefix +:+ "_EXIT ok bye".

Definition e2e_provider (provider : Provider) (prefix session : string) (c : Course) : RunnerM unit :=
  let* a := expect "provider adapter" (st_lift (for_provider provider)) in
  let '(started, a) := adapter_spawn c (spawn_request (cmd (fixture_script prefix session))) a in
  let* _ := expect "provider spawn" (st_lift started) in
  let '(seen, a) := drain_until WorkflowCompleted (co_turns c) [] a in
  let* _ := check ("adapter-" +:+ prefix +:+ "-fixture")
    (existsb (is_type AgentStarted) seen && existsb (is_type ApprovalRequired) seen &&
     existsb (is_type WorkflowCompleted) seen) in
  let* approval := expect_some "approval event" (list_find (λ e, is_type ApprovalRequired e = true) seen) in
  let* _ := check ("adapter-" +:+ prefix +:+ "-approval-pointer")
    (bool_decide (pe_detail_pointer approval.2 = Some "req-fx")) in
  let '(snap, a) := adapter_snapshot c a in
  let* _ := check ("adapter-" +:+ prefix +:+ "-resume") (bool_decide (as_resume_pointer snap = Some session)) in
  check ("adapter-" +:+ prefix +:+ "-approval-deferred") (refuses (adapter_approval "req-fx" Allow a) Unsupported).

Definition e2e_adapters (generic opencode claude codex : Course) : RunnerM unit :=
  let* _ := e2e_generic generic in
  let* _ := e2e_provider Opencode "OPENCODE" "sess-op" opencode in
  let* _ := e2e_provider Claude "CLAUDE" "sess-cl" claude in
  e2e_provider Codex "CODEX" "sess-co" codex.

(** ** The whole script *)

Definition e2e_main {env : Env} {win32 : Win32} {process_env : ProcessEnv} (x : Executor)
    (generic opencode claude codex : Course) : RunnerM unit :=
  let* _ := e2e_joins x in
  let* _ := e2e_kills x in
  let* _ := e2e_flow in
  let* _ := e2e_before_restart in
  let* _ := e2e_recover in
  let* _ := e2e_sessions in
  let* _ := e2e_router in
  let* _ := e2e_adapters generic opencode claude codex in
  e2e_permissions.

Definition runner_new : Runner := mk_runner empty_db (mk_world empty_db 0 0) ∅ ∅ ∅ [].

(** The exit code: 101 after a panic, 1 when a check failed. *)
Definition e2e_exit {env : Env} {win32 : Win32} {process_env : ProcessEnv} (x : Executor)
    (generic opencode claude codex : Course) : Z :=
  let '(r, s) := e2e_main x generic opencode claude codex runner_new in
  match r with
  | Ok _ => if forallb snd (e2_checks s) then 0 else 1
  | Err _ => 101
  end.

(** The children print what the script echoes, in these chunks, and end. *)
Definition echoes (chunks : list string) : Course :=
  mk_course (λ config, Ok (child_new config))
    (((λ chunk, mk_interference [PumpStdout chunk] None []) <$> chunks) ++ [mk_interference [ProcessExit 0] None []])
    (mk_interference [] None []).

Definition fixture_output (prefix session : string) : list string :=
  [prefix +:+ "_SESSION " +:+ session +:+ " " +:+ crlf +:+ prefix +:+ "_STA";
   "RT go " +:+ crlf +:+ prefix +:+ "_APPROVAL req-fx do it " +:+ crlf;
   prefix +:+ "_DONE fin " +:+ crlf +:+ prefix +:+ "_EXIT ok bye" +:+ crlf].

(** Children that do what their commands say. *)
Definition obedient : Executor := {|
  ex_spawn := λ config, Ok (child_new config);
  ex_turns := λ config,
    let ends out err code := [([PumpStdout out; PumpStderr err; ProcessExit code], None)] in
    match pc_argv config with
    | [_; _; _; "echo HELLO"] => ends ("HELLO" +:+ crlf) "" 0%Z
    | [_; _; _; "exit 42"] => ends "" "" 42%Z
    | [_; _; _; "more"] => ends (default "" (pc_input config)) "" 0%Z
    | [_; _; _; "(echo OUT) & (echo ERR 1>&2)"] => ends ("OUT" +:+ crlf) ("ERR " +:+ crlf) 0%Z
    | [_; _; _; _] as argv =>
        if bool_decide (argv = pc_argv (ping "30")) then [([], None); ([ProcessExit 1], None)]
        else [(((λ n, PumpStdout ("line-" +:+ dec (Z.of_nat n) +:+ crlf)) <$> seq 1 2000) ++ [ProcessExit 0], None)]
    | _ => [([PumpStdout ("GRANDCHILD=4312" +:+ crlf)], None); ([ProcessExit 1], None)]
    end;
  ex_kill := λ _, Ok tt;
  ex_grandchild := Some true;
  ex_polls := [Some true; Some false];
  ex_grandchild_after := Some false;
  ex_sleeper := Some false;
|}.

#[local] Instance sample_process_env : ProcessEnv := {| env_vars_os := []; to_uppercase := ascii_upper |}.
#[local] Instance sample_system : Win32 := sample_win32 99.

Definition usual {env : Env} : result unit string * Runner :=
  e2e_main obedient (echoes ["ADAPTER_MARKER" +:+ crlf]) (echoes (fixture_output "OPENCODE" "sess-op"))
    (echoes (fixture_output "CLAUDE" "sess-cl")) (echoes (fixture_output "CODEX" "sess-co")) runner_new.

Example usual_green : usual (env := steady_env 1000 7) = (Ok tt, (usual (env := steady_env 1000 7)).2) ∧
  length (e2_checks (usual (env := steady_env 1000 7)).2) = 60 ∧
  forallb snd (e2_checks (usual (env := steady_env 1000 7)).2) = true.
Proof. vm_compute. repeat split. Qed.

(** ** One fault

    The parts over the database, without the children. *)
Definition e2e_stored {env : Env} : RunnerM unit :=
  let* _ := e2e_flow in
  let* _ := e2e_before_restart in
  let* _ := e2e_recover in
  let* _ := e2e_sessions in
  let* _ := e2e_router in
  e2e_permissions.

(** It makes 179 calls to the engine and the file system.  Whichever of them
    fails, no check fails: the script ends green or panics at an [expect]. *)
Example one_fault_never_red :
  stmts (e2_file (e2e_stored (env := steady_env 1000 7) runner_new).2) = 179 ∧
  forallb (λ k, let '(r, s) := e2e_stored (env := faulty_env 1000 7 k) runner_new in
             forallb snd (e2_checks s) && (negb (is_ok r) || (length (e2_checks s) =? 29)))
    (seq 0 179) = true.
Proof. split; vm_compute; reflexivity. Qed.

(** A grandchild that outlives the kill turns the run red; a child the system
    does not start panics. *)
Definition with_survivor : Executor :=
  mk_executor (ex_spawn obedient) (ex_turns obedient) (ex_kill obedient) (Some true) [Some true] (Some true) (Some false).
Definition without_children : Executor :=
  mk_executor (λ _, Err (Windows "CreateProcessW" "not found")) (ex_turns obedient) (ex_kill obedient) (Some true) [] None None.
Definition exit_with (x : Executor) : Z :=
  e2e_exit (env := steady_env 1000 7) x (echoes ["ADAPTER_MARKER" +:+ crlf]) (echoes (fixture_output "OPENCODE" "sess-op"))
    (echoes (fixture_output "CLAUDE" "sess-cl")) (echoes (fixture_output "CODEX" "sess-co")).

Example exit_codes : (exit_with obedient, exit_with with_survivor, exit_with without_children) = (0, 1, 101)%Z.
Proof. vm_compute. reflexivity. Qed.
