(* ===== verification/UnitTests.v ===== *)
(** * UnitTests: the repository's unit tests, run on the model

    The tests of [calcar-storage/src/lib.rs] and [calcar-events/src/lib.rs] as
    programs over the model: an [expect] that meets an error and an assertion
    that is false end a test with a message.  Each test is then a theorem. *)

From S2P Require Import Prelude Text Events Schema Storage Ring RingFacts Requests.

(** A test ends with [Ok tt], or with the panic's message. *)
Definition TestM (A : Type) : Type := ST World string A.

Definition expect_ok {A} (message : string) (m : StoreM A) : TestM A := st_map_err (λ _, message) m.

(** [expect_err] *)
Definition expect_err {A} (message : string) (m : StoreM A) : TestM StorageError :=
  let* r := st_try m in
  st_lift (match r with Ok _ => Err message | Err e => Ok e end).

Definition assert_that (message : string) (b : bool) : TestM unit :=
  if b then st_ret tt else st_throw message.

Definition is_invalid_state (e : StorageError) : bool := match e with InvalidState _ => true | _ => false end.
Definition is_already_resolved (e : StorageError) : bool := match e with AlreadyResolved _ => true | _ => false end.
Definition is_not_found (e : StorageError) : bool := match e with NotFound _ => true | _ => false end.
Definition is_expired (e : StorageError) : bool := match e with Expired _ => true | _ => false end.

(** [fn draft] *)
Definition test_draft (wf : string) (n : Z) (text : string) : EventDraft :=
  mk_draft wf ("ev-" +:+ wf +:+ "-" +:+ dec n) (Some "ps-1") (1000 + n) CommandStarted text None.

Section Tests.
Context {env : Env}.

(** [fn setup] *)
Definition setup : TestM unit :=
  let* _ := expect_ok "open" open_in_memory in
  let* _ := expect_ok "migrate" migrate in
  st_ret tt.

Definition create_a (session : option string) : TestM unit :=
  let* _ := expect_ok "create" (create_workflow "wf-a" Opencode "A" session) in st_ret tt.

(** [for n in 1..=count { append }] *)
Fixpoint append_ticks (wf : string) (from : Z) (count : nat) (each : Z → WorkflowEvent → bool) : TestM unit :=
  match count with
  | O => st_ret tt
  | S count' =>
      let* event := expect_ok ("append " +:+ dec from) (append_event (test_draft wf from "tick")) in
      let* _ := assert_that "seq_no" (each from event) in
      append_ticks wf (from + 1) count' each
  end.
Definition any (_ : Z) (_ : WorkflowEvent) : bool := true.

Definition migrate_is_idempotent : TestM unit :=
  let* _ := setup in
  let* first := expect_ok "second migrate run" migrate in
  assert_that "second migrate must apply nothing" (bool_decide (first = [])).

Definition sequences_are_independent_per_workflow : TestM unit :=
  let* _ := setup in
  let* _ := create_a (Some "ps-a") in
  let* _ := expect_ok "create b" (create_workflow "wf-b" Generic "B" None) in
  let* _ := append_ticks "wf-a" 1 3 (λ n event, seq_no event =? n)%Z in
  append_ticks "wf-b" 1 1 (λ _ event, seq_no event =? 1)%Z.

Definition every_append_enqueues_exactly_one_outbox_row : TestM unit :=
  let* _ := setup in
  let* _ := create_a None in
  let* _ := append_ticks "wf-a" 1 5 any in
  let* count := expect_ok "count" outbox_pending_count in
  let* _ := assert_that "five pending" (count =? 5)%Z in
  let* drained := expect_ok "drain" (outbox_drain 3) in
  let* _ := assert_that "drained" (bool_decide (length drained = 3 ∧
    (oe_seq_no <$> drained !! 0) = Some 1%Z ∧ (oe_seq_no <$> drained !! 2) = Some 3%Z)) in
  let* _ := expect_ok "mark" (outbox_mark_published drained) in
  let* count := expect_ok "count" outbox_pending_count in
  let* _ := assert_that "two pending" (count =? 2)%Z in
  let* again := expect_ok "drain again" (outbox_drain 10) in
  assert_that "published entries must not be handed out twice" (length again =? 2).

(** [replay[0]] is right after the cut, then no duplicates and no gaps. *)
Definition contiguous (cut : Z) (replay : list WorkflowEvent) : bool :=
  let seqs := (λ event, to_i64 (seq_no event)) <$> replay in
  bool_decide (head seqs = Some (cut + 1)%Z) && bool_decide (seqs = seqZ (cut + 1) (Z.of_nat (length replay))).

Definition ring_trims_to_event_bound_and_marks_the_cut : TestM unit :=
  let* _ := setup in
  let* _ := create_a None in
  let* _ := append_ticks "wf-a" 1 (Z.to_nat (MAX_RING_EVENTS + 250)) any in
  let* stats := expect_ok "stats" (ring_stats "wf-a") in
  let* _ := assert_that "ring must respect the event bound" (rs_count stats <=? MAX_RING_EVENTS)%Z in
  let* cut := st_lift (ok_or (rs_truncated_before_seq stats) "trim must record the cut") in
  let* _ := assert_that "dropped" (0 <? rs_dropped_count stats)%Z in
  let* replay := expect_ok "replay" (events_after "wf-a" 0 1000000) in
  let* _ := assert_that "replay length" (Z.of_nat (length replay) =? rs_count stats)%Z in
  assert_that "replay starts right after the cut" (contiguous cut replay).

Fixpoint repeated (n : nat) (part : string) : string :=
  match n with O => "" | S n' => part +:+ repeated n' part end.
Definition huge : string := repeated (Z.to_nat (MAX_RING_BYTES + 1024)) "x".

Definition oversized_event_never_empties_the_ring : TestM unit :=
  let* _ := setup in
  let* _ := create_a None in
  let* _ := append_ticks "wf-a" 1 5 any in
  let* _ := expect_ok "oversized append must still succeed" (append_event (test_draft "wf-a" 100 huge)) in
  let* stats := expect_ok "stats" (ring_stats "wf-a") in
  let* _ := assert_that "the newest event must always survive" (1 <=? rs_count stats)%Z in
  let* _ := assert_that "newest" (bool_decide (rs_newest_seq stats = Some 6%Z)) in
  let* replay := expect_ok "replay" (events_after "wf-a" 0 1000000) in
  let* event := st_lift (ok_or (last replay) "last") in
  assert_that "last" (seq_no event =? 6)%Z.

(** The state the row of [wf-a] shows. *)
Definition shows_state (s : WorkflowState) : TestM unit :=
  let* found := expect_ok "row" (get_workflow "wf-a") in
  let* row := st_lift (ok_or found "exists") in
  assert_that "state" (state row =? state_i32 s)%Z.

Definition terminal_states_never_transition_out : TestM unit :=
  let* _ := setup in
  let* _ := create_a None in
  let* _ := expect_ok "non terminal move" (set_workflow_state "wf-a" WaitingApproval) in
  let* _ := expect_ok "terminal move" (set_workflow_state "wf-a" Completed) in
  let* error := expect_err "completed must be final" (set_workflow_state "wf-a" Running) in
  let* _ := assert_that "InvalidState" (is_invalid_state error) in
  shows_state Completed.

Definition disconnected_projection_never_persists : TestM unit :=
  let* _ := setup in
  let* _ := create_a None in
  let* error := expect_err "disconnected is a projection" (set_workflow_state "wf-a" DisconnectedRunning) in
  let* _ := assert_that "InvalidState" (is_invalid_state error) in
  shows_state Running.

Definition pending_request_resolves_once_then_rejects : TestM unit :=
  let* _ := setup in
  let* _ := create_a None in
  let* _ := expect_ok "create request" (create_pending_request "req-1" "wf-a" Approval None) in
  let* _ := expect_ok "first resolve" (resolve_pending_request "req-1" "approved") in
  let* error := expect_err "second resolve must fail" (resolve_pending_request "req-1" "approved again") in
  let* _ := assert_that "AlreadyResolved" (is_already_resolved error) in
  let* error := expect_err "unknown request" (resolve_pending_request "req-missing" "x") in
  assert_that "NotFound" (is_not_found error).

Definition expired_request_rejects_resolve_and_flips_state : TestM unit :=
  let* _ := setup in
  let* _ := create_a None in
  let* _ := expect_ok "create request" (create_pending_request "req-e" "wf-a" Input (Some 1%Z)) in
  let* _ := expect_ok "expire" expire_pending_requests in
  let* error := expect_err "expired must reject" (resolve_pending_request "req-e" "late answer") in
  assert_that "Expired" (is_expired error).
End Tests.

(** ** The discriminants *)

Definition event_type_discriminants_match_proto : bool :=
  bool_decide ((event_type_i32 <$> [EventUnspecified; AgentStarted; CommandStarted; CommandCompleted; FileChanged;
     ApprovalRequired; InputRequired; ErrorOccurred; WorkflowCompleted; WorkflowStopped]) = seqZ 0 10).
Definition workflow_state_discriminants_match_proto : bool :=
  bool_decide ((state_i32 <$> [Running; WaitingInput; WaitingApproval; Completed; Failed; Stopped; DisconnectedRunning]) =
    seqZ 1 7) && negb (is_persistable DisconnectedRunning) && is_persistable Running.
Definition provider_discriminants_match_proto : bool :=
  bool_decide ((provider_i32 <$> [Opencode; Claude; Codex; Generic]) = seqZ 1 4) &&
  bool_decide (provider_from_i32 9 = None).

(** ** All of them pass *)

#[local] Instance test_env : Env := steady_env 1000 7.
Definition new_database : World := mk_world empty_db 0 0.
Definition passes (test : TestM unit) : Prop := (test new_database).1 = Ok tt.

Example small_tests_pass :
  passes migrate_is_idempotent ∧ passes sequences_are_independent_per_workflow ∧
  passes every_append_enqueues_exactly_one_outbox_row ∧ passes terminal_states_never_transition_out ∧
  passes disconnected_projection_never_persists ∧ passes pending_request_resolves_once_then_rejects ∧
  passes expired_request_rejects_resolve_and_flips_state.
Proof. unfold passes. split_and!; vm_compute; reflexivity. Qed.

Example discriminants_match :
  (event_type_discriminants_match_proto, workflow_state_discriminants_match_proto,
   provider_discriminants_match_proto) = (true, true, true).
Proof. reflexivity. Qed.

(** *** The two tests on full rings, by the ring's invariant *)

(** A migrated store with this workflow. *)
Definition ready (wf : string) (w : World) : Prop :=
  ring_ok wf (db w) ∧ schema (db w) = true ∧ is_Some (workflows (db w) !! wf).

Lemma wp_append_ready draft Q w :
  let wf := dr_workflow_id draft in
  ready wf w →
  (∀ ev w', ready wf w' → newest wf (db w') = (newest wf (db w) + 1)%Z → Q (Ok ev) w') →
  wp (append_event draft) Q w.
Proof.
  intros wf (Hr & Hs & Hwf) HQ. apply wp_append_event; [done|..].
  - intros e w' _ [Hd|[Hn _]]; [by apply no_faults_db_error in Hd|]. fold wf in Hn. rewrite Hn in Hwf. by destruct Hwf.
  - intros seq w' _ Ha. apply HQ; [split_and!|].
    + by eapply appended_ring_ok.
    + pose proof (appended_rest _ _ _ _ Ha) as (_ & E & _). congruence.
    + pose proof (appended_rest _ _ _ _ Ha) as (_ & _ & E & _). by rewrite E.
    + unfold wf. rewrite (appended_newest _ _ _ _ Hr Ha). apply (appended_seq _ _ _ _ Ha).
Qed.

Lemma wp_append_ticks wf from count Q w :
  ready wf w →
  (∀ w', ready wf w' → newest wf (db w') = (newest wf (db w) + Z.of_nat count)%Z → Q (Ok tt) w') →
  wp (append_ticks wf from count any) Q w.
Proof.
  revert from w. induction count as [|count IH]; intros from w Hw HQ; cbn [append_ticks].
  { apply wp_ret, HQ; [done|lia]. }
  apply wp_bind, wp_map_err. apply (wp_append_ready (test_draft wf from "tick")); [done|].
  intros ev w1 Hw1 Hn1. cbn [map_err]. apply wp_bind, wp_ret. apply IH; [done|].
  intros w' Hw' Hn'. apply HQ; [done|]. cbn [test_draft dr_workflow_id] in Hn1. lia.
Qed.

(** [ring_stats] on a ready workflow, and the whole replay. *)
Lemma wp_stats wf Q w :
  ready wf w →
  (∀ w' bytes oldest, db w' = db w →
     Q (Ok (mk_ring_stats (Z.of_nat (length (events_of wf (db w)))) bytes oldest
              (maxZ (seqs (events_of wf (db w)))) (tr_truncated_before_seq <$> ring_truncations (db w) !! wf)
              (dropped wf (db w)))) w') →
  wp (ring_stats wf) Q w.
Proof.
  intros (_ & Hs & _) HQ. unfold ring_stats. apply wp_bind.
  sql_step; [by apply no_faults_db_error in Hdb|]. cbn beta iota. rewrite <-Hw in *. apply wp_bind.
  sql_step; [by apply no_faults_db_error in Hdb|]. cbn beta iota. rewrite <-Hw0 in *. apply wp_bind.
  sql_step; [by apply no_faults_db_error in Hdb|]. cbn beta iota. rewrite <-Hw1 in *.
  unfold dropped in HQ. destruct (ring_truncations (db w2) !! wf) as [v|] eqn:E; apply wp_ret; by apply HQ.
Qed.

Lemma wp_replay wf Q w :
  ready wf w → (Z.of_nat (length (events_of wf (db w))) ≤ 1000000)%Z →
  (∀ w', db w' = db w → Q (Ok (map_event <$> events_of wf (db w))) w') →
  wp (events_after wf 0 1000000) Q w.
Proof.
  intros (Hr & Hs & _) Hlen HQ. apply wp_of. intros r w' Hrun.
  pose proof (events_after_spec wf 0 1000000 w Hr) as H. rewrite Hrun in H. destruct r as [evs|e]; cycle 1.
  { destruct H as [_ Hd]. by apply no_faults_db_error in Hd. }
  destruct H as (E & -> & _). pose proof (ring_cut _ _ Hr).
  replace (Z.to_nat (0 - cut wf (db w))) with 0 by lia. rewrite drop_0, take_ge by lia. by apply HQ.
Qed.

(** After [setup] and [create]. *)
Definition created : World := (create_a None (setup new_database).2).2.

Lemma created_ready : ready "wf-a" created ∧ newest "wf-a" (db created) = 0%Z.
Proof.
  split; [split_and!; [apply ring_ok_absent| |]|]; vm_compute; try reflexivity. by eexists.
Qed.

Lemma wp_created {A} (k : TestM A) Q :
  wp k Q created → wp (let* _ := setup in let* _ := create_a None in k) Q new_database.
Proof.
  intros H. apply wp_bind. unfold wp at 1. assert (setup new_database = (Ok tt, (setup new_database).2)) as -> by (vm_compute; reflexivity).
  cbn beta iota. apply wp_bind. unfold wp at 1.
  assert (create_a None (setup new_database).2 = (Ok tt, created)) as E by (vm_compute; reflexivity).
  cbn [snd]. rewrite E. exact H.
Qed.

Lemma ready_nonempty wf w : ready wf w → newest wf (db w) ≠ 0%Z → events_of wf (db w) ≠ [].
Proof.
  intros (Hr & _) Hn E. apply Hn. unfold newest. rewrite E, (ring_fresh _ _ Hr E). done.
Qed.

(** The replay of a ready workflow is contiguous. *)
Lemma replay_contiguous wf w :
  ready wf w → (newest wf (db w) ≤ i64_max)%Z → newest wf (db w) ≠ 0%Z →
  contiguous (cut wf (db w)) (map_event <$> events_of wf (db w)) = true.
Proof.
  intros Hw Hn Hne. pose proof (ready_nonempty wf w Hw Hne) as Hnil. pose proof Hw as (Hr & _ & _).
  assert ((λ event, to_i64 (seq_no event)) <$> (map_event <$> events_of wf (db w)) =
    seqZ (cut wf (db w) + 1) (Z.of_nat (length (events_of wf (db w))))) as E.
  { rewrite <-(ring_seqs _ _ Hr), <-list_fmap_compose. apply list_fmap_ext. intros i r Hi.
    eapply map_event_seq; [done|done|]. by eapply list_elem_of_lookup_2. }
  unfold contiguous. rewrite E, length_fmap. apply andb_true_iff. split; apply bool_decide_eq_true_2; [|done].
  destruct (events_of wf (db w)); [done|]. cbn [length]. by rewrite seqZ_cons by lia.
Qed.

Lemma wp_assert message b Q w : b = true → Q (Ok tt) w → wp (assert_that message b) Q w.
Proof. by intros ->. Qed.

Example ring_test_passes : passes ring_trims_to_event_bound_and_marks_the_cut.
Proof.
  apply (wp_run _ (λ r _, r = Ok tt)), wp_created. destruct created_ready as [Hc0 Hn0].
  apply wp_bind, wp_append_ticks; [exact Hc0|]. intros w Hw Hn. rewrite Hn0 in Hn. clear Hc0 Hn0.
  replace (Z.of_nat (Z.to_nat (MAX_RING_EVENTS + 250))) with 5250%Z in Hn by reflexivity.
  pose proof Hw as (Hr & _ & _). pose proof (ring_cut _ _ Hr) as Hcut.
  assert (Z.of_nat (length (events_of "wf-a" (db w))) ≤ MAX_RING_EVENTS)%Z as Hlen.
  { destruct (ring_bounds _ _ Hr) as [[H _]%within_bounds_iff|H]; [exact H|unfold MAX_RING_EVENTS; lia]. }
  pose proof Hlen as Hlen'. unfold MAX_RING_EVENTS in Hlen'. pose proof Hn as Hn'. unfold newest in Hn'.
  apply wp_bind, wp_map_err, wp_stats; [done|]. intros w1 bytes oldest Hw1. cbn [map_err].
  apply wp_bind, wp_assert; [by apply Z.leb_le|]. apply wp_bind, wp_lift. cbn [rs_truncated_before_seq].
  assert (∃ v, ring_truncations (db w) !! "wf-a" = Some v ∧ tr_truncated_before_seq v = cut "wf-a" (db w)) as (v & Hv & Hvc).
  { unfold cut in *. destruct (ring_truncations (db w) !! "wf-a") as [v|]; [by exists v|cbn in Hn'; lia]. }
  rewrite Hv. cbn [fmap option_fmap option_map ok_or]. rewrite Hvc. clear v Hv Hvc.
  apply wp_bind, wp_assert; [cbn [rs_dropped_count]; rewrite (ring_dropped _ _ Hr); apply Z.ltb_lt; lia|].
  assert (ready "wf-a" w1) as Hw' by (unfold ready; by rewrite Hw1).
  apply wp_bind, wp_map_err, wp_replay; [done|rewrite Hw1; lia|]. intros w2 Hw2. cbn [map_err]. rewrite Hw1.
  apply wp_bind, wp_assert; [cbn [rs_count]; rewrite length_fmap; apply Z.eqb_refl|].
  apply wp_assert; [|done]. apply replay_contiguous; [done|..]; rewrite Hn; unfold i64_max; lia.
Qed.

(** The event may be of any size. *)
Example oversized_test_passes : passes oversized_event_never_empties_the_ring.
Proof.
  apply (wp_run _ (λ r _, r = Ok tt)), wp_created. destruct created_ready as [Hc0 Hn0].
  apply wp_bind, wp_append_ticks; [exact Hc0|]. intros w0 Hw0 Hn1. rewrite Hn0 in Hn1. clear Hc0 Hn0.
  generalize huge. intros text.
  apply wp_bind, wp_map_err, wp_append_ready; [done|]. intros ev w Hw Hn. cbn [map_err].
  cbn [test_draft dr_workflow_id] in Hw, Hn. rewrite Hn1 in Hn. cbn in Hn.
  pose proof Hw as (Hr & _ & _). pose proof (ring_cut _ _ Hr) as Hcut.
  set (ring := events_of "wf-a" (db w)) in *.
  assert (ring ≠ []) as Hne by (apply ready_nonempty; [done|lia]).
  assert (length ring ≠ 0) as Hlen by (by intros ?%nil_length_inv).
  pose proof (ring_seqs _ _ Hr) as Hseq. pose proof Hn as Hn'. unfold newest in Hn'. fold ring in Hseq, Hn'.
  apply wp_bind, wp_map_err, wp_stats; [done|]. intros w1 bytes oldest Hw1. cbn [map_err].
  apply wp_bind, wp_assert; [cbn [rs_count]; fold ring; apply Z.leb_le; lia|].
  apply wp_bind, wp_assert.
  { cbn [rs_newest_seq]. fold ring. rewrite (consecutive_max _ _ _ Hseq Hne).
    apply bool_decide_eq_true_2. f_equal. lia. }
  assert (ready "wf-a" w1) as Hw' by (unfold ready; by rewrite Hw1).
  apply wp_bind, wp_map_err, wp_replay; [done|rewrite Hw1; fold ring; lia|]. intros w2 Hw2. cbn [map_err].
  rewrite Hw1. fold ring. apply wp_bind, wp_lift. rewrite fmap_last.
  destruct (last ring) as [r|] eqn:Hl; [|by apply last_None in Hl]. cbn [fmap option_fmap option_map ok_or].
  apply wp_assert; [|done]. rewrite last_lookup in Hl.
  assert (r ∈ events_of "wf-a" (db w)) as Hin by by eapply list_elem_of_lookup_2.
  destruct (map_event_seq "wf-a" (db w) r Hr) as [_ ->]; [rewrite Hn; unfold i64_max; lia|done|].
  apply Z.eqb_eq. rewrite (consecutive_lookup _ _ _ _ _ Hseq Hl). lia.
Qed.
